(* ===== verification/_CoqProject ===== *)
-Q . S2P
Prelude.v
RustInt.v
Clap.v
Sha256.v
Crypto.v
Common.v
Fsverity.v
Merkle.v
Builder.v
File.v
Os.v
Fuse.v
Poll.v
LocalFile.v
FdServer.v
Verifier.v
Editor.v
VerifierProps.v
EditorProps.v
EditorConc.v
EditorTypes.v
Testing.v
RemoteFile.v
AuthFs.v
AuthFsProps.v
AuthFsMain.v
AuthFsAnswers.v
ReaderTests.v
ZipInode.v
ZipFuse.v
ZipMain.v
ZipTests.v
Compos.v
ComposProps.v
ComposFlow.v
VirtConfig.v
VirtManager.v
Daemons.v
VmTool.v
VmWait.v
AuthfsTests.v
BuilderTests.v
