(* ===== verification/Prelude.v ===== *)
(** * Virtualization: the trusted file systems of the protected VM, verified

    The repository holds the Rust programs that let a protected VM work on
    files it does not store itself.
    - [authfs] (authfs/src) is a FUSE file system that runs inside the VM.  Its
      files are read from, or written to, storage nobody trusts; integrity
      comes from fs-verity Merkle trees kept or checked in the VM.
    - [fd_server] (authfs/fd_server/src) runs outside and serves read and write
      requests on file descriptors it was started with, over binder.
    - [zipfuse] (zipfuse/src) is a read-only FUSE file system over a zip archive.
    - [virtmanager] (virtmanager/src) starts VMs and keeps track of who refers to
      them; [vm] (vm/src) is its command-line tool.
    - [compos] (compos/src) runs a compiler inside the VM on files of the host:
      [pvm_exec] starts an [fd_server] and calls [compsvc], whose worker mounts
      [authfs] over it.

    ** How the parts fit, and which file models which

    From the bottom up:
    - [Prelude]: outcomes of a Rust computation ([Ok], [Err], [Panic]), the
      monad [M] of computations that keep the state when they fail, bytes,
      slices, and the list lemmas the other files share.
    - [RustInt]: machine integers, their text, UTF-8.
    - [Clap]: command lines; the clap crate is the class [Clap], its documented
      behaviour [ClapSpec], and [plain_clap] an implementation of it.
    - [Sha256], [Crypto]: an executable SHA-256, and [Sha256Hasher]
      (crypto.rs) over the class [Sha256FFI] of the BoringSSL functions.
    - [Common] (common.rs): [ChunkedSizeIter], the iterator behind every loop.
    - [Fsverity] (fsverity/common.rs, sys.rs): height and descriptor digest.
    - [Merkle]: the specification, fs-verity trees of contents, written from
      the documentation and independent of the code.
    - [Builder] (fsverity/builder.rs): [MerkleLeaves].
    - [File] (file.rs): the traits [ReadByChunk] and [RandomWrite] as classes,
      with the classes of laws that honest or well-typed storage obeys.
    - [Os], [LocalFile] (file/local_file.rs): files of the system.
    - [Fuse]: the types of the FUSE interface, mounting and the message loop.
    - [Poll]: the loop that waits for a mount, of the compilation worker and of
      the tests of zipfuse.
    - [FdServer] (fd_server/src/main.rs, fsverity.rs): [FdService], the binder
      interface [IVirtFdService] as a class, the command line.
    - [Verifier], [VerifierProps] (fsverity/verifier.rs, auth.rs): reading with
      verification.
    - [Editor], [EditorProps] (fsverity/editor.rs): writing with integrity.
      [EditorConc] runs threads that write and resize over the lock that a
      write takes for each block;
      [EditorTypes] types its state over arbitrary storage and schedules.
    - [RemoteFile] (file/remote_file.rs): files of a remote [IVirtFdService],
      for an arbitrary server and for an honest one.
    - [AuthFs], [AuthFsProps] (fusefs.rs): the FUSE handlers of authfs.
    - [AuthFsMain] (main.rs, loop_forever of fusefs.rs): options, the pool of
      files, and the program.
    - [AuthFsAnswers]: a total program logic for the handlers, from the calls of
      the service up; every request is answered.
    - [ZipInode] (inode.rs), [ZipFuse] and [ZipMain] (main.rs): zipfuse, its
      program and an application that reads through the mount.
    - [Compos], [ComposProps] (compos/src): the three programs of the compilation
      service and how their command lines fit the two servers; [ComposFlow]
      runs a task on the files these set up, from its requests to the caller's
      descriptors.
    - [VirtConfig] (config.rs, run_vm of crosvm.rs): configurations and the
      crosvm command line.
    - [VirtManager] (aidl.rs, crosvm.rs): the manager as a transition system,
      with handles, weak references and waiting threads.
    - [VmTool] (vm/src): the commands of the tool; [VmWait] (vm/src/run.rs,
      sync.rs): the wait of a foreground run, with its flag, callback and death
      recipient as interleaved steps.
    - [Daemons]: [main] of the three binder services, and how clients find them.
    - [Testing], [AuthfsTests], [BuilderTests], [ReaderTests], [ZipTests]: the unit tests of the
      crates, translated and run on the model, or proved for all data of the
      kind they use.

    Structs are records, enums inductive types; a method is a definition in the
    Module of its type, with [self] first.  Traits are classes; a trait's
    contract is a second class, of laws, against which its clients are
    proved, so that a hostile server and an honest one are two instances.
    State behind a lock or a descriptor is threaded by [M]; what a failed
    call did before it failed is kept.

    ** What is shown
    - Reading: a chunk handed out is the chunk of the contents whose digest was
      authenticated, for every behaviour of file storage, tree storage and
      server.  The one way out, stated with the messages themselves ([clash]), is
      that a message hashed by this very run differs from that of the contents at
      the same step and has the same SHA-256.  Honest storage is served, and a page
      of the stored tree that was tampered with breaks exactly the chunks under it;
      the walk stays inside the tree.  Lifted to the FUSE read.
      (The authenticator is an argument: authfs is still built with
      [FakeAuthenticator], which accepts every signature, so there the trusted
      contents are those of the root page served when the file was opened.)
    - Writing: on honest storage any sequence of writes and resizes refines
      the same sequence on a byte array and the digest is fs-verity's; on any
      storage the tree follows what was reported as written, unless an old block
      read back by that write clashes with the true one.  Concurrent writes
      and resizes refine a file changed by one block or one size at a time in
      the order of the schedule (a resize needs a build without debug
      assertions there: one of them fails when it comes between the blocks of a
      write), and disjoint writes commute; the state stays well-typed whatever the
      storage does.  Lifted to the server's files and to the FUSE write.
    - Availability: in a release build, with local and verified files of at most
      2^61 bytes, whatever a server answers, as long as it answers, preparing the
      files and every later request end in a value or an error; no handler panics,
      overflows or loops.  The one answer that is trusted is the count of a
      successful write, at least one byte and at most the buffer; the server of
      the repository keeps to it.
    - Server: what each request answers on every branch, on a system that may
      fail, fall short and change; no sequence of requests touches a file that was
      not given for writing.
    - File systems: isolation of inodes, read-only files, lookup and attributes,
      the pool built from the options, each inode of the kind, storage and size its
      option asks for, and served; for zipfuse the tree of inodes and complete
      listings in every reachable state, and, for an archive whose entries do not
      contradict each other, every file entry served and read back through the
      mount.
    - Compilation: for the descriptors of a call, the server serves and the task's
      authfs mounts exactly these, under their numbers; any sequence of reads,
      writes and truncations of the task then has the results and the effect it
      would have on the caller's files; the wait for the mount ends.
    - Manager: over all interleavings, distinct CIDs, exact lists, VMs killed
      exactly when nobody refers to them, callbacks once and in time; a
      daemonized VM lives until it is stopped; a foreground run that has
      registered in time returns once its VM or the manager has died, on every
      schedule, without a lost wakeup; crosvm is told what the configuration says.
    - Deviations: panics, leaks and places where the code does not do what its
      comments say, each as a theorem about the definitions.

    ** Bounds and fuel

    Integers are [Z] with the checks of a build with overflow checks, the
    default on this platform; [usize] has 64 bits.  Iterators and loops that
    are not structural take fuel derived from their data
    ([ChunkedSizeIter.try_fold] the number of bytes, [readdir_end] the number
    of entries, [poll] the timeout), and theorems show it is enough.
    [write_all_at] alone can loop for ever, when a write accepts no byte: its
    fuel is the class [WriteFuel], and the theorems that need it to return say
    so; more than a block's worth is enough.

    ** What is not modelled

    Code outside the repository is an argument or a class: BoringSSL, clap,
    the zip crate, binder and the service manager, mounting and the FUSE
    message loop, minijail, crosvm processes.  Logging and the text of errors
    are left out.  Memory is unbounded: no allocation fails.  A call of fd_server or zipfuse is atomic: the pool of
    fd_server never changes, and both file systems serve their requests from one
    thread, so that a panic ends the process and nobody meets a poisoned mutex.
    For the editor, which is shared by design, locks, poison and interleavings
    are modelled.  The unit tests that read files under testdata are proved for
    arbitrary contents with their tree instead of for these files.  The C++ and Java parts
    (microdroid, host-side tests) have no Rust code. *)

From Stdlib Require Export ZArith Lia ZifyClasses ZifyInst.
From Stdlib Require Strings.Byte.
From stdpp Require Export base strings numbers list_numbers gmap.
From stdpp Require Export list.

#[global] Open Scope Z_scope.

(** ** Outcomes of a Rust computation

    [Ok] and [Err] are the two variants of [Result].  [Panic] stands for an
    unwinding panic: a failed [assert!], an [unwrap] of [None], a slice index
    out of range, an arithmetic overflow.  [OutOfFuel] is never produced by
    the program: it marks a loop that used up the fuel of the model. *)
Inductive outcome (E A : Type) : Type :=
| Ok (a : A)
| Err (e : E)
| Panic
| OutOfFuel.
Arguments Ok {E A} a.
Arguments Err {E A} e.
Arguments Panic {E A}.
Arguments OutOfFuel {E A}.

#[global] Instance outcome_ret {E} : MRet (outcome E) := λ A a, Ok a.
#[global] Instance outcome_bind {E} : MBind (outcome E) := λ A B f m,
  match m with
  | Ok a => f a
  | Err e => Err e
  | Panic => Panic
  | OutOfFuel => OutOfFuel
  end.
#[global] Instance outcome_fmap {E} : FMap (outcome E) := λ A B f m, m ≫= λ a, Ok (f a).

(** [Result::map_err] and [Option::ok_or_else]. *)
Definition map_err {E E' A} (f : E → E') (m : outcome E A) : outcome E' A :=
  match m with
  | Ok a => Ok a
  | Err e => Err (f e)
  | Panic => Panic
  | OutOfFuel => OutOfFuel
  end.

Definition ok_or {E A} (o : option A) (e : E) : outcome E A :=
  match o with Some a => Ok a | None => Err e end.

(** [Option::unwrap] and [Option::expect]. *)
Definition unwrap {E A} (o : option A) : outcome E A :=
  match o with Some a => Ok a | None => Panic end.

(** [assert!], and [debug_assert!], which evaluates its condition only in a
    build with [cfg!(debug_assertions)]. *)
Class BuildMode := debug_assertions : bool.
Definition release : BuildMode := false.
Definition debug_build : BuildMode := true.
Definition rassert {E} (b : bool) : outcome E unit := if b then Ok tt else Panic.
Definition debug_assert {bm : BuildMode} {E} (cond : outcome E bool) : outcome E unit :=
  if debug_assertions then cond ≫= rassert else Ok tt.

(** ** Computations that read and change the world

    The state is kept when the computation fails: what a call did before its
    error is not undone. *)
Definition M (W E A : Type) : Type := W → outcome E A * W.

#[global] Instance M_ret {W E} : MRet (M W E) := λ A a w, (Ok a, w).
#[global] Instance M_bind {W E} : MBind (M W E) := λ A B f m w,
  match m w with
  | (Ok a, w') => f a w'
  | (Err e, w') => (Err e, w')
  | (Panic, w') => (Panic, w')
  | (OutOfFuel, w') => (OutOfFuel, w')
  end.

(** A computation that does not touch the world. *)
Definition lift {W E A} (m : outcome E A) : M W E A := λ w, (m, w).
Definition m_map_err {W E E' A} (f : E → E') (m : M W E A) : M W E' A :=
  λ w, let '(r, w') := m w in (map_err f r, w').
(** [r.expect(..)] *)
Definition m_expect {W E E' A} (m : M W E A) : M W E' A := λ w,
  let '(r, w) := m w in
  (match r with Ok a => Ok a | Err _ => Panic | Panic => Panic | OutOfFuel => OutOfFuel end, w).
Definition throw {W E A} (e : E) : M W E A := λ w, (Err e, w).
Definition get_state {W E} : M W E W := λ w, (Ok w, w).
Definition put_state {W E} (w : W) : M W E unit := λ _, (Ok tt, w).
(** Runs a computation on one component of the state. *)
Definition zoom {W V E A} (get : W → V) (put : V → W → W) (m : M V E A) : M W E A :=
  λ w, let '(r, v) := m (get w) in (r, put v w).

(** [return] inside a loop: the body ends early with a value or an error. *)
Inductive control (E A : Type) : Type :=
| Return (a : A)
| Raise (e : E).
Arguments Return {E A} a.
Arguments Raise {E A} e.
Definition catch_return {W E A} (m : M W (control E A) A) : M W E A := λ w,
  match m w with
  | (Ok a, w') => (Ok a, w')
  | (Err (Return a), w') => (Ok a, w')
  | (Err (Raise e), w') => (Err e, w')
  | (Panic, w') => (Panic, w')
  | (OutOfFuel, w') => (OutOfFuel, w')
  end.

(** Linear arithmetic with quotients and remainders. *)
Ltac divlia := Z.to_euclidean_division_equations; lia.

(** A condition that holds passes the assertion in every build. *)
Lemma debug_assert_true {bm : BuildMode} {E} : debug_assert (E := E) (Ok true) = Ok tt.
Proof. unfold debug_assert. by destruct debug_assertions. Qed.

Create HintDb rust.
#[export] Hint Unfold mret outcome_ret M_ret lift throw get_state put_state : rust.

Section monad_laws.
Context {W E : Type}.

Lemma bind_Ok_inv {A B} (m : outcome E A) (f : A → outcome E B) b :
  m ≫= f = Ok b → ∃ a, m = Ok a ∧ f a = Ok b.
Proof. destruct m; [|done..]. eauto. Qed.

Lemma bind_lift_Ok {A B} (a : A) (f : A → M W E B) w :
  (lift (Ok a) ≫= f) w = f a w.
Proof. done. Qed.

Lemma M_bind_Ok {A B} (m : M W E A) (f : A → M W E B) w a w' :
  m w = (Ok a, w') → (m ≫= f) w = f a w'.
Proof. unfold mbind, M_bind. by intros ->. Qed.

Lemma M_bind_Ok_inv {A B} (m : M W E A) (f : A → M W E B) w b w' :
  (m ≫= f) w = (Ok b, w') → ∃ a w1, m w = (Ok a, w1) ∧ f a w1 = (Ok b, w').
Proof.
  unfold mbind, M_bind. destruct (m w) as [[a|e| |] w1]; [|done..]. eauto.
Qed.

Lemma M_bind_assoc {A B C} (m : M W E A) (f : A → M W E B) (g : B → M W E C) w :
  ((m ≫= f) ≫= g) w = (m ≫= λ a, f a ≫= g) w.
Proof. unfold mbind, M_bind. by destruct (m w) as [[a|e| |] w1]. Qed.

Lemma mapM_Ok {A B} (f : A → outcome E B) (g : A → B) l :
  Forall (λ x, f x = Ok (g x)) l → mapM f l = Ok (g <$> l).
Proof. induction 1 as [|x l Hx _ IH]; [done|]. cbn [mapM]. rewrite Hx. simpl. by rewrite IH. Qed.

Lemma m_map_err_Ok_inv {E' A} (f : E → E') (m : M W E A) w a w' :
  m_map_err f m w = (Ok a, w') → m w = (Ok a, w').
Proof. unfold m_map_err. destruct (m w) as [[] ?]; naive_solver. Qed.

Lemma map_err_Ok_inv {E' A} (f : E → E') (m : outcome E A) a :
  map_err f m = Ok a → m = Ok a.
Proof. destruct m; naive_solver. Qed.
End monad_laws.

(** [?] on a hypothesis: split a chain of binds that ended in [Ok]. *)
Ltac inv_bind :=
  repeat match goal with
  | H : (_ ≫= _) = Ok _ |- _ =>
      let a := fresh "r" in let Ha := fresh "Hr" in
      apply bind_Ok_inv in H as (a & Ha & H)
  | H : (_ ≫= _) _ = (Ok _, _) |- _ =>
      let a := fresh "r" in let w := fresh "w" in let Ha := fresh "Hr" in
      apply M_bind_Ok_inv in H as (a & w & Ha & H)
  | H : lift _ _ = (Ok _, _) |- _ => unfold lift in H; simplify_eq
  | H : mret _ _ = (Ok _, _) |- _ => unfold mret, M_ret in H; simplify_eq
  | H : m_map_err _ _ _ = (Ok _, _) |- _ => apply m_map_err_Ok_inv in H
  | H : map_err _ _ = Ok _ |- _ => apply map_err_Ok_inv in H
  | H : (Ok _, _) = (Ok _, _) |- _ => simplify_eq
  | H : Ok _ = Ok _ |- _ => simplify_eq
  end.

(** ** Bytes *)
Abbreviation byte := Byte.byte.
Abbreviation zero := Byte.x00.
Abbreviation zlen l := (Z.of_nat (length l)).

#[global] Instance byte_eq_dec : EqDecision byte := Byte.byte_eq_dec.
#[global] Instance byte_inhabited : Inhabited byte := populate zero.

Definition byte_of_Z (z : Z) : byte := default zero (Byte.of_N (Z.to_N (z `mod` 256))).
Definition Z_of_byte (b : byte) : Z := Z.of_N (Byte.to_N b).

Lemma Z_of_byte_bound b : 0 ≤ Z_of_byte b < 256.
Proof. unfold Z_of_byte. pose proof (Byte.to_N_bounded b). lia. Qed.

Lemma Z_of_byte_of_Z z : Z_of_byte (byte_of_Z z) = z `mod` 256.
Proof.
  unfold Z_of_byte, byte_of_Z. assert (0 ≤ z `mod` 256 < 256) by (apply Z.mod_pos_bound; lia).
  destruct (Byte.of_N _) as [b|] eqn:Hb; simpl.
  - apply Byte.to_of_N in Hb. rewrite Hb. lia.
  - apply Byte.of_N_None_iff in Hb. lia.
Qed.

Lemma byte_of_Z_of_byte b : byte_of_Z (Z_of_byte b) = b.
Proof.
  unfold byte_of_Z. pose proof (Z_of_byte_bound b). rewrite Z.mod_small by done.
  unfold Z_of_byte. by rewrite N2Z.id, Byte.of_to_N.
Qed.

(** [uN::to_le_bytes]: [n] bytes, least significant first. *)
Fixpoint to_le_bytes (n : nat) (z : Z) : list byte :=
  match n with
  | O => []
  | S n => byte_of_Z z :: to_le_bytes n (z / 256)
  end.

Lemma length_to_le_bytes n z : length (to_le_bytes n z) = n.
Proof. revert z. induction n; simpl; congruence. Qed.

Lemma to_le_bytes_inj (n : nat) a b :
  0 ≤ a < 256 ^ Z.of_nat n → 0 ≤ b < 256 ^ Z.of_nat n → to_le_bytes n a = to_le_bytes n b → a = b.
Proof.
  revert a b. induction n as [|n IH]; intros a b Ha Hb; [simpl in *; lia|].
  rewrite Nat2Z.inj_succ, Z.pow_succ_r in Ha, Hb by lia. simpl. intros [= Hh Ht].
  apply (f_equal Z_of_byte) in Hh. rewrite !Z_of_byte_of_Z in Hh.
  apply IH in Ht; [..|split; [apply Z.div_pos|apply Z.div_lt_upper_bound]; lia];
    [|split; [apply Z.div_pos|apply Z.div_lt_upper_bound]; lia].
  rewrite (Z.div_mod a 256), (Z.div_mod b 256) by lia. lia.
Qed.

(** ** Slices and arrays *)

(** [&l[a..b]]: a range outside the slice panics. *)
Definition slice {E A} (l : list A) (a b : Z) : outcome E (list A) :=
  if (0 <=? a) && (a <=? b) && (b <=? zlen l)
  then Ok (take (Z.to_nat (b - a)) (drop (Z.to_nat a) l)) else Panic.

(** [buf[..n].copy_from_slice(&src[..n])] with [n] at most both lengths. *)
Definition copy_prefix {A} (n : nat) (src buf : list A) : list A :=
  take n src ++ drop n buf.

(** [[0u8; n]] and [vec![0; n]]. *)
Definition zeros (n : Z) : list byte := replicate (Z.to_nat n) zero.

(** [l] followed by zeros up to [n] bytes. *)
Definition pad_to (n : nat) (l : list byte) : list byte :=
  l ++ replicate (n - length l) zero.

(** [Vec::resize]. *)
Definition vec_resize {A} (n : nat) (x : A) (l : list A) : list A :=
  take n l ++ replicate (n - length l) x.

(** [slice::chunks]. *)
Fixpoint chunks_fuel {A} (fuel n : nat) (l : list A) : list (list A) :=
  match fuel with
  | O => []
  | S fuel =>
      match l with
      | [] => []
      | _ => take n l :: chunks_fuel fuel n (drop n l)
      end
  end.
Definition chunks {A} (n : nat) (l : list A) : list (list A) := chunks_fuel (length l) n l.

Create Rewrite HintDb len.
#[export] Hint Rewrite @length_app @length_take @length_drop @length_replicate
  @length_insert @length_fmap @length_seq @length_nil @length_cons : len.
(** Lengths, then arithmetic. *)
Ltac len := autorewrite with len in *; try lia.

Section slices.
Context {A : Type}.
Implicit Types (l : list A) (n i : nat).

Lemma slice_Ok {E} l a b :
  0 ≤ a → a ≤ b → b ≤ zlen l →
  slice (E := E) l a b = Ok (take (Z.to_nat (b - a)) (drop (Z.to_nat a) l)).
Proof. intros. unfold slice. rewrite !(proj2 (Z.leb_le _ _)) by lia. done. Qed.

Lemma slice_Ok_inv {E} l a b r :
  slice (E := E) l a b = Ok r →
  0 ≤ a ∧ a ≤ b ∧ b ≤ zlen l ∧ r = take (Z.to_nat (b - a)) (drop (Z.to_nat a) l).
Proof.
  unfold slice. destruct (Z.leb_spec 0 a), (Z.leb_spec a b), (Z.leb_spec b (zlen l));
    simpl; naive_solver.
Qed.

Lemma lookup_chunks_fuel fuel n l i :
  (0 < n)%nat → (length l ≤ fuel)%nat →
  chunks_fuel fuel n l !! i =
    if decide (i * n < length l)%nat then Some (take n (drop (i * n) l)) else None.
Proof.
  intros Hn. revert l i. induction fuel as [|fuel IH]; intros l i Hl.
  - destruct l; [|simpl in *; lia]. rewrite decide_False by (simpl; lia). done.
  - destruct l as [|x l]; [rewrite decide_False by (simpl; lia); done|].
    cbn [chunks_fuel]. remember (x :: l) as k eqn:Hk.
    assert (0 < length k)%nat by (subst; simpl; lia). clear Hk x l.
    destruct i as [|i]; cbn [lookup list_lookup].
    + rewrite decide_True by lia. by rewrite drop_0.
    + change (chunks_fuel fuel n (drop n k) !! i =
        if decide (S i * n < length k)%nat then Some (take n (drop (S i * n) k)) else None).
      rewrite IH by (rewrite length_drop; lia).
      rewrite length_drop, drop_drop. replace (n + i * n)%nat with (S i * n)%nat by lia.
      destruct (decide _), (decide _); try done; lia.
Qed.

Lemma lookup_chunks n l i :
  (0 < n)%nat →
  chunks n l !! i =
    if decide (i * n < length l)%nat then Some (take n (drop (i * n) l)) else None.
Proof. intros. by apply lookup_chunks_fuel. Qed.

Lemma lt_length_chunks n l i :
  (0 < n)%nat → (i < length (chunks n l) ↔ i * n < length l)%nat.
Proof.
  intros Hn. rewrite <- lookup_lt_is_Some, lookup_chunks by done.
  case_decide as Hi; [naive_solver|]. split; [by intros []|done].
Qed.

Lemma length_chunks n l :
  (0 < n)%nat → zlen (chunks n l) = (zlen l + Z.of_nat n - 1) / Z.of_nat n.
Proof.
  intros Hn. pose proof (lt_length_chunks n l (length (chunks n l) - 1) Hn).
  pose proof (lt_length_chunks n l (length (chunks n l)) Hn).
  apply Z.div_unique with (zlen l + Z.of_nat n - 1 - Z.of_nat n * zlen (chunks n l)); nia.
Qed.

Lemma chunks_nil n : chunks n ([] : list A) = [].
Proof. done. Qed.

Lemma chunks_small n l :
  (0 < length l ≤ n)%nat → chunks n l = [l].
Proof.
  intros Hl. apply list_eq. intros i. rewrite lookup_chunks by lia.
  destruct i as [|i].
  - rewrite decide_True, drop_0, take_ge by lia. done.
  - rewrite decide_False by nia. by destruct i.
Qed.

Lemma Forall_length_chunks n l :
  (0 < n)%nat → Forall (λ c, 0 < length c ≤ n)%nat (chunks n l).
Proof.
  intros Hn. apply Forall_lookup. intros i c. rewrite lookup_chunks by done.
  case_decide; [|done]. intros [= <-]. rewrite length_take, length_drop. lia.
Qed.

Lemma concat_chunks n l : (0 < n)%nat → concat (chunks n l) = l.
Proof.
  intros Hn. unfold chunks. assert (Hf : (length l ≤ length l)%nat) by lia.
  revert Hf. generalize (length l) at 2 3 as fuel. intros fuel. revert l.
  induction fuel as [|fuel IH]; intros l Hl.
  { destruct l; [done|simpl in *; lia]. }
  destruct l as [|x l]; [done|]. cbn [chunks_fuel concat].
  rewrite IH by (rewrite length_drop; simpl in *; lia). apply take_drop.
Qed.

Lemma lookup_vec_resize n (x : A) l i :
  vec_resize n x l !! i =
    if decide (i < n)%nat then Some (default x (l !! i)) else None.
Proof.
  unfold vec_resize. destruct (decide (i < n)%nat).
  - destruct (decide (i < length l)%nat).
    + rewrite lookup_app_l, lookup_take_lt by (rewrite ?length_take; lia).
      destruct (lookup_lt_is_Some_2 l i) as [y ->]; done.
    + rewrite lookup_app_r, length_take by (rewrite length_take; lia).
      rewrite (lookup_ge_None_2 l) by lia. apply lookup_replicate_2. lia.
  - apply lookup_ge_None_2. rewrite length_app, length_take, length_replicate. lia.
Qed.

Lemma length_vec_resize n (x : A) l : length (vec_resize n x l) = n.
Proof. unfold vec_resize. len. Qed.

Lemma length_copy_prefix n (src buf : list A) :
  (n ≤ length src)%nat → (n ≤ length buf)%nat →
  length (copy_prefix n src buf) = length buf.
Proof. intros. unfold copy_prefix. len. Qed.
End slices.
#[export] Hint Rewrite @length_vec_resize length_to_le_bytes : len.

(** ** File contents, read as an infinite sequence of bytes

    Past its end a file reads as zeros: that is how the last block is padded
    before it is hashed and how a hole reads back. *)
Definition byte_at (c : list byte) (k : nat) : byte := default zero (c !! k).

(** The [n] bytes of [c] from position [p], zeros past the end. *)
Definition window (c : list byte) (p n : nat) : list byte :=
  (λ j, byte_at c (p + j)) <$> seq 0 n.

(** A write at offset [p] (zeros fill a gap) and a change of size. *)
Definition overwrite (c : list byte) (p : nat) (b : list byte) : list byte :=
  match b with
  | [] => c
  | _ => window c 0 p ++ b ++ drop (p + length b) c
  end.
Definition set_length (c : list byte) (n : nat) : list byte := window c 0 n.

Section contents.
Implicit Types (c b : list byte).

Lemma length_window c p n : length (window c p n) = n.
Proof. unfold window. len. Qed.

Lemma lookup_window c p n j :
  window c p n !! j = if decide (j < n)%nat then Some (byte_at c (p + j)) else None.
Proof.
  unfold window. rewrite list_lookup_fmap. case_decide.
  - by rewrite lookup_seq_lt by lia.
  - rewrite lookup_ge_None_2 by (rewrite length_seq; lia). done.
Qed.

Lemma window_ext c1 c2 p1 p2 n :
  (∀ j, (j < n)%nat → byte_at c1 (p1 + j) = byte_at c2 (p2 + j)) →
  window c1 p1 n = window c2 p2 n.
Proof.
  intros H. apply list_eq. intros j. rewrite !lookup_window.
  case_decide; [by rewrite H|done].
Qed.

Lemma byte_at_ge c k : (length c ≤ k)%nat → byte_at c k = zero.
Proof. intros. unfold byte_at. by rewrite lookup_ge_None_2. Qed.

Lemma byte_at_Some c k x : c !! k = Some x → byte_at c k = x.
Proof. unfold byte_at. by intros ->. Qed.

Lemma lookup_byte_at c k : (k < length c)%nat → c !! k = Some (byte_at c k).
Proof. intros Hk. unfold byte_at. by destruct (lookup_lt_is_Some_2 c k Hk) as [x ->]. Qed.

Lemma byte_at_replicate n k : byte_at (replicate n zero) k = zero.
Proof.
  unfold byte_at. destruct (decide (k < n)%nat).
  - by rewrite lookup_replicate_2.
  - by rewrite lookup_ge_None_2 by (rewrite length_replicate; lia).
Qed.

Lemma byte_at_app c b k :
  byte_at (c ++ b) k =
    if decide (k < length c)%nat then byte_at c k else byte_at b (k - length c).
Proof.
  unfold byte_at. case_decide; [by rewrite lookup_app_l|by rewrite lookup_app_r by lia].
Qed.

Lemma byte_at_window c p n k :
  byte_at (window c p n) k = if decide (k < n)%nat then byte_at c (p + k) else zero.
Proof. unfold byte_at at 1. rewrite lookup_window. by case_decide. Qed.

Lemma byte_at_take c n k :
  byte_at (take n c) k = if decide (k < n)%nat then byte_at c k else zero.
Proof.
  unfold byte_at. case_decide; [by rewrite lookup_take_lt|].
  by rewrite lookup_take_ge by lia.
Qed.

Lemma byte_at_drop c n k : byte_at (drop n c) k = byte_at c (n + k).
Proof. unfold byte_at. by rewrite lookup_drop. Qed.

Lemma byte_at_ext c b :
  length c = length b → (∀ k, (k < length c)%nat → byte_at c k = byte_at b k) → c = b.
Proof.
  intros Hl H. apply list_eq. intros k. destruct (decide (k < length c)%nat).
  - rewrite !lookup_byte_at by lia. by rewrite H.
  - by rewrite !lookup_ge_None_2 by lia.
Qed.

Lemma pad_to_window n c : (length c ≤ n)%nat → pad_to n c = window c 0 n.
Proof.
  intros Hl. unfold pad_to. apply byte_at_ext; [rewrite length_window; len|].
  intros k _. rewrite byte_at_app, byte_at_replicate, byte_at_window.
  repeat case_decide; try done; [len|by rewrite byte_at_ge by lia].
Qed.

Lemma length_pad_to n c : (length c ≤ n)%nat → length (pad_to n c) = n.
Proof. intros. unfold pad_to. len. Qed.

Lemma pad_to_chunk n c p :
  pad_to n (take n (drop p c)) = window c p n.
Proof.
  rewrite pad_to_window by (rewrite length_take; lia).
  apply window_ext. intros j Hj.
  rewrite byte_at_take, decide_True by (simpl; lia). apply byte_at_drop.
Qed.

Lemma byte_at_overwrite c p b k :
  byte_at (overwrite c p b) k =
    if decide (p ≤ k < p + length b)%nat then byte_at b (k - p) else byte_at c k.
Proof.
  destruct b as [|x b]; [rewrite decide_False by (simpl; lia); done|].
  unfold overwrite. rewrite !byte_at_app, byte_at_window, byte_at_drop, length_window.
  repeat case_decide; try done; try lia; f_equal; lia.
Qed.

Lemma length_overwrite c p b :
  length (overwrite c p b) =
    if decide (b = []) then length c else Nat.max (length c) (p + length b).
Proof.
  destruct b as [|x b]; [done|]. unfold overwrite.
  rewrite decide_False by done. rewrite !length_app, length_window, length_drop. lia.
Qed.

Lemma byte_at_set_length c n k :
  byte_at (set_length c n) k = if decide (k < n)%nat then byte_at c k else zero.
Proof. apply byte_at_window. Qed.

Lemma length_set_length c n : length (set_length c n) = n.
Proof. apply length_window. Qed.

Lemma overwrite_app c p b1 b2 :
  overwrite (overwrite c p b1) (p + length b1) b2 = overwrite c p (b1 ++ b2).
Proof.
  apply byte_at_ext.
  - rewrite !length_overwrite, length_app.
    destruct b1; [rewrite !app_nil_l; simpl; by rewrite Nat.add_0_r|].
    rewrite (decide_False (P := (_ :: _) ++ _ = [])) by done. simpl. case_decide; subst; simpl; lia.
  - intros k _. rewrite !byte_at_overwrite, length_app, byte_at_app.
    repeat case_decide; try done; try lia; f_equal; lia.
Qed.
End contents.
#[export] Hint Rewrite length_window length_set_length : len.
