(* ===== verification/RustInt.v ===== *)
(** * Machine integers and their decimal text

    The fixed-width integer operations of Rust that the sources use: checked
    arithmetic on [u64] and [usize] (64 bits wide on the supported targets),
    saturating and wrapping operations, conversions, [leading_zeros],
    [FromStr] and [Display] for integers, and [str::split].  An overflowing
    operation panics, as it does in a build with overflow checks; the bounds
    theorems of the other files show where it cannot happen, and there the
    two build modes agree. *)
From Stdlib Require Import Ascii.
From S2P Require Import Prelude.

(** ** Widths *)
Definition u64_limit : Z := 2 ^ 64.
Definition is_u64 (z : Z) : Prop := 0 ≤ z < u64_limit.
Definition i64_max : Z := 2 ^ 63 - 1.
Definition i32_max : Z := 2 ^ 31 - 1.
Definition u32_limit : Z := 2 ^ 32.

(** Arithmetic tactics see the limits as numbers. *)
#[global] Program Instance zify_u64_limit : CstOp u64_limit := {| TCst := 18446744073709551616 |}.
Next Obligation. reflexivity. Qed.
Add Zify CstOp zify_u64_limit.
#[global] Program Instance zify_i64_max : CstOp i64_max := {| TCst := 9223372036854775807 |}.
Next Obligation. reflexivity. Qed.
Add Zify CstOp zify_i64_max.
#[global] Program Instance zify_i32_max : CstOp i32_max := {| TCst := 2147483647 |}.
Next Obligation. reflexivity. Qed.
Add Zify CstOp zify_i32_max.
#[global] Program Instance zify_u32_limit : CstOp u32_limit := {| TCst := 4294967296 |}.
Next Obligation. reflexivity. Qed.
Add Zify CstOp zify_u32_limit.

Section ops.
Context {E : Type}.

Definition u64_add (a b : Z) : outcome E Z := if a + b <? u64_limit then Ok (a + b) else Panic.
Definition u64_sub (a b : Z) : outcome E Z := if b <=? a then Ok (a - b) else Panic.
Definition u64_mul (a b : Z) : outcome E Z := if a * b <? u64_limit then Ok (a * b) else Panic.
Definition u64_div (a b : Z) : outcome E Z := if b =? 0 then Panic else Ok (a / b).
Definition u64_rem (a b : Z) : outcome E Z := if b =? 0 then Panic else Ok (a `mod` b).
Definition u64_pow (a n : Z) : outcome E Z := if a ^ n <? u64_limit then Ok (a ^ n) else Panic.
End ops.

Definition saturating_sub (a b : Z) : Z := Z.max 0 (a - b).
Definition u64_saturating_add (a b : Z) : Z := Z.min (a + b) (u64_limit - 1).

(** [u64::leading_zeros]. *)
Definition u64_leading_zeros (a : Z) : Z := if a =? 0 then 64 else 63 - Z.log2 a.

(** [i64::try_from] of a [u64], [u64::try_from] of an [i64], and the [as]
    casts, which wrap around. *)
Definition i64_try_from {E} (e : E) (a : Z) : outcome E Z :=
  if a <=? i64_max then Ok a else Err e.
Definition unsigned_try_from {E} (e : E) (a : Z) : outcome E Z :=
  if 0 <=? a then Ok a else Err e.
Definition as_u64 (a : Z) : Z := a `mod` u64_limit.
Definition as_i32 (a : Z) : Z :=
  let r := a `mod` u32_limit in if r <=? i32_max then r else r - u32_limit.

Section op_lemmas.
Context {E : Type}.

Lemma u64_add_Ok a b : a + b < u64_limit → u64_add (E := E) a b = Ok (a + b).
Proof. intros. unfold u64_add. by rewrite (proj2 (Z.ltb_lt _ _)). Qed.
Lemma u64_sub_Ok a b : b ≤ a → u64_sub (E := E) a b = Ok (a - b).
Proof. intros. unfold u64_sub. by rewrite (proj2 (Z.leb_le _ _)). Qed.
Lemma u64_mul_Ok a b : a * b < u64_limit → u64_mul (E := E) a b = Ok (a * b).
Proof. intros. unfold u64_mul. by rewrite (proj2 (Z.ltb_lt _ _)). Qed.
Lemma u64_pow_Ok a b : a ^ b < u64_limit → u64_pow (E := E) a b = Ok (a ^ b).
Proof. intros. unfold u64_pow. by rewrite (proj2 (Z.ltb_lt _ _)). Qed.
Lemma u64_div_Ok a b : b ≠ 0 → u64_div (E := E) a b = Ok (a / b).
Proof. intros. unfold u64_div. by rewrite (proj2 (Z.eqb_neq _ _)). Qed.
Lemma u64_rem_Ok a b : b ≠ 0 → u64_rem (E := E) a b = Ok (a `mod` b).
Proof. intros. unfold u64_rem. by rewrite (proj2 (Z.eqb_neq _ _)). Qed.

Lemma u64_add_Ok_inv a b r : u64_add (E := E) a b = Ok r → r = a + b ∧ a + b < u64_limit.
Proof. unfold u64_add. destruct (Z.ltb_spec (a + b) u64_limit); naive_solver. Qed.

Lemma i64_try_from_Ok (e : E) a : a ≤ i64_max → i64_try_from e a = Ok a.
Proof. intros. unfold i64_try_from. by rewrite (proj2 (Z.leb_le _ _)). Qed.
Lemma unsigned_try_from_Ok (e : E) a : 0 ≤ a → unsigned_try_from e a = Ok a.
Proof. intros. unfold unsigned_try_from. by rewrite (proj2 (Z.leb_le _ _)). Qed.
End op_lemmas.

Lemma as_i32_inj a b :
  0 ≤ a < u32_limit → 0 ≤ b < u32_limit → as_i32 a = as_i32 b → a = b.
Proof.
  intros Ha Hb. unfold as_i32. rewrite !Z.mod_small by done.
  unfold u32_limit, i32_max in *.
  destruct (Z.leb_spec a (2 ^ 31 - 1)), (Z.leb_spec b (2 ^ 31 - 1)); lia.
Qed.

Lemma as_i32_small a : 0 ≤ a ≤ i32_max → as_i32 a = a.
Proof.
  intros Ha. unfold as_i32, u32_limit, i32_max in *.
  rewrite Z.mod_small by lia. by rewrite (proj2 (Z.leb_le _ _)) by lia.
Qed.

(** Steps through the checked operations of a goal whose side conditions
    arithmetic settles. *)
Ltac u64_step :=
  first
    [ rewrite u64_add_Ok by lia | rewrite u64_sub_Ok by lia | rewrite u64_mul_Ok by lia
    | rewrite u64_div_Ok by lia | rewrite u64_rem_Ok by lia ].

(** ** Decimal text *)

(** The value of an ASCII digit. *)
Definition digit_of_ascii (a : Ascii.ascii) : option Z :=
  let n := Z.of_N (Ascii.N_of_ascii a) - 48 in
  if (0 <=? n) && (n <=? 9) then Some n else None.

Fixpoint parse_digits (acc : Z) (s : string) : option Z :=
  match s with
  | EmptyString => Some acc
  | String a s => d ← digit_of_ascii a; parse_digits (acc * 10 + d) s
  end.

(** [<int>::from_str]: an optional sign ([-] only for a signed type), then at
    least one digit, and a value in range. *)
Definition parse_int (signed : bool) (lo hi : Z) (s : string) : option Z :=
  match s with
  | EmptyString => None
  | String a rest =>
      let '(neg, digits) :=
        if Ascii.eqb a "+"%char then (false, rest)
        else if signed && Ascii.eqb a "-"%char then (true, rest)
        else (false, s) in
      match digits with
      | EmptyString => None
      | _ =>
          v ← parse_digits 0 digits;
          let v := if (neg : bool) then - v else v in
          if (lo <=? v) && (v <=? hi) then Some v else None
      end
  end.
Definition parse_u64 : string → option Z := parse_int false 0 (u64_limit - 1).
Definition parse_i32 : string → option Z := parse_int true (- 2 ^ 31) i32_max.
Definition parse_i64 : string → option Z := parse_int true (- 2 ^ 63) i64_max.

(** [Display] for integers. *)
Definition ascii_of_digit (d : Z) : Ascii.ascii := Ascii.ascii_of_N (Z.to_N (48 + d)).
Fixpoint show_digits (fuel : nat) (z : Z) (acc : string) : string :=
  match fuel with
  | O => acc
  | S fuel =>
      let acc := String (ascii_of_digit (z `mod` 10)) acc in
      if z <? 10 then acc else show_digits fuel (z / 10) acc
  end.
(** Twenty digits are enough for 64 bits. *)
Definition show_int (z : Z) : string :=
  if z <? 0 then String "-"%char (show_digits 20 (- z) "") else show_digits 20 z "".

(** [str::split] on one character: never empty. *)
Fixpoint split_on (sep : Ascii.ascii) (s : string) : list string :=
  match s with
  | EmptyString => [EmptyString]
  | String a s =>
      if Ascii.eqb a sep then EmptyString :: split_on sep s
      else match split_on sep s with
           | [] => [String a EmptyString]
           | w :: ws => String a w :: ws
           end
  end.

(** [str::from_utf8] on the bytes of a C string: is it well-formed UTF-8? *)
Definition is_cont (b : N) : bool := ((0x80 <=? b) && (b <=? 0xbf))%N.
Fixpoint utf8_fuel (fuel : nat) (bs : list N) : bool :=
  match fuel with
  | O => false
  | S fuel =>
      match bs with
      | [] => true
      | b :: bs =>
          if (b <? 0x80)%N then utf8_fuel fuel bs
          else
            match bs with
            | b1 :: bs =>
                if ((0xc2 <=? b) && (b <=? 0xdf))%N then is_cont b1 && utf8_fuel fuel bs
                else
                  match bs with
                  | b2 :: bs =>
                      let lo := if (b =? 0xe0)%N then 0xa0%N else 0x80%N in
                      let hi := if (b =? 0xed)%N then 0x9f%N else 0xbf%N in
                      if ((0xe0 <=? b) && (b <=? 0xef))%N
                      then ((lo <=? b1) && (b1 <=? hi))%N && is_cont b2 && utf8_fuel fuel bs
                      else
                        match bs with
                        | b3 :: bs =>
                            let lo := if (b =? 0xf0)%N then 0x90%N else 0x80%N in
                            let hi := if (b =? 0xf4)%N then 0x8f%N else 0xbf%N in
                            ((0xf0 <=? b) && (b <=? 0xf4))%N && ((lo <=? b1) && (b1 <=? hi))%N &&
                            is_cont b2 && is_cont b3 && utf8_fuel fuel bs
                        | [] => false
                        end
                  | [] => false
                  end
            | [] => false
            end
      end
  end.
Definition is_utf8 (s : string) : bool :=
  let bs := Ascii.N_of_ascii <$> String.list_ascii_of_string s in utf8_fuel (S (length bs)) bs.

(** ** Round trips between integers and text *)

(** A string of decimal digits, with no sign and no separator. *)
Fixpoint all_digits (s : string) : bool :=
  match s with
  | EmptyString => true
  | String a s => bool_decide (is_Some (digit_of_ascii a)) && all_digits s
  end.

Section decimal.
Implicit Types (s : string).

Lemma digit_of_ascii_of_digit d : 0 ≤ d < 10 → digit_of_ascii (ascii_of_digit d) = Some d.
Proof.
  intros Hd. unfold digit_of_ascii, ascii_of_digit. rewrite N_ascii_embedding by lia.
  replace (Z.of_N (Z.to_N (48 + d)) - 48) with d by lia.
  by rewrite !(proj2 (Z.leb_le _ _)) by lia.
Qed.

Lemma string_app_nil s : "" +:+ s = s.
Proof. done. Qed.
Lemma string_app_cons a s1 s2 : String a s1 +:+ s2 = String a (s1 +:+ s2).
Proof. done. Qed.

Lemma parse_digits_app acc s1 s2 :
  parse_digits acc (s1 +:+ s2) = parse_digits acc s1 ≫= λ v, parse_digits v s2.
Proof.
  revert acc. induction s1 as [|a s1 IH]; intros acc; [done|].
  rewrite string_app_cons. simpl. destruct (digit_of_ascii a); simpl; [apply IH|done].
Qed.

Lemma all_digits_app s1 s2 : all_digits (s1 +:+ s2) = all_digits s1 && all_digits s2.
Proof.
  induction s1 as [|a s1 IH]; [done|]. rewrite string_app_cons. simpl. rewrite IH.
  by destruct (bool_decide _).
Qed.

Lemma string_app_assoc s1 s2 s3 : s1 +:+ s2 +:+ s3 = (s1 +:+ s2) +:+ s3.
Proof. induction s1 as [|a s1 IH]; [done|]. by rewrite !string_app_cons, IH. Qed.

Lemma show_digits_acc fuel z s : show_digits fuel z s = show_digits fuel z "" +:+ s.
Proof.
  revert z s. induction fuel as [|fuel IH]; intros z s; [done|].
  cbn [show_digits]. destruct (z <? 10); [done|].
  rewrite (IH _ (String _ s)), (IH _ (String _ "")), <- string_app_assoc. done.
Qed.

Lemma show_digits_spec fuel z :
  0 ≤ z < 10 ^ Z.of_nat fuel →
  parse_digits 0 (show_digits fuel z "") = Some z ∧ all_digits (show_digits fuel z "") = true.
Proof.
  revert z. induction fuel as [|fuel IH]; intros z Hz; [simpl in *; split; [f_equal; lia|done]|].
  rewrite Nat2Z.inj_succ, Z.pow_succ_r in Hz by lia. cbn [show_digits].
  pose proof (Z.mod_pos_bound z 10 ltac:(lia)).
  pose proof (digit_of_ascii_of_digit (z `mod` 10) ltac:(lia)) as Hd.
  destruct (Z.ltb_spec z 10).
  - cbn [parse_digits all_digits]. rewrite Hd. simpl. rewrite Z.mod_small by lia.
    done.
  - rewrite show_digits_acc, parse_digits_app, all_digits_app.
    destruct (IH (z / 10)) as [-> ->]; [split; [apply Z.div_pos|apply Z.div_lt_upper_bound]; lia|].
    cbn [parse_digits all_digits mbind option_bind]. rewrite Hd. simpl.
    split; [f_equal; pose proof (Z.div_mod z 10); lia|done].
Qed.

Lemma show_digits_nonempty fuel z s : s ≠ "" → show_digits fuel z s ≠ "".
Proof.
  revert z s. induction fuel as [|fuel IH]; intros z s Hs; [done|].
  cbn [show_digits]. destruct (z <? 10); [done|by apply IH].
Qed.

Lemma show_digits_S_nonempty fuel z : show_digits (S fuel) z "" ≠ "".
Proof.
  cbn [show_digits]. destruct (z <? 10); [done|by apply show_digits_nonempty].
Qed.

Lemma parse_int_digits signed lo hi s v :
  all_digits s = true → s ≠ "" → parse_digits 0 s = Some v → lo ≤ v ≤ hi →
  parse_int signed lo hi s = Some v.
Proof.
  intros Hs Hne Hv Hb. destruct s as [|a s]; [done|]. unfold parse_int.
  simpl in Hs. apply andb_true_iff in Hs as [Ha%bool_decide_eq_true _].
  destruct (Ascii.eqb_spec a "+"); [subst; by destruct Ha|].
  destruct (Ascii.eqb_spec a "-"); [subst; by destruct Ha|].
  rewrite andb_false_r. rewrite Hv. simpl.
  by rewrite !(proj2 (Z.leb_le _ _)) by lia.
Qed.

Lemma parse_int_minus lo hi s v :
  s ≠ "" → parse_digits 0 s = Some v → lo ≤ - v ≤ hi →
  parse_int true lo hi (String "-" s) = Some (- v).
Proof.
  intros Hne Hv Hb. unfold parse_int. simpl. destruct s as [|a s]; [done|].
  rewrite Hv. simpl. by rewrite !(proj2 (Z.leb_le _ _)) by lia.
Qed.

(** Printing then parsing gives the number back, for every width used. *)
Lemma parse_show_int signed lo hi z :
  lo ≤ z ≤ hi → Z.abs z < 10 ^ 20 → (0 ≤ z ∨ signed = true) →
  parse_int signed lo hi (show_int z) = Some z.
Proof.
  intros Hb Habs Hs. unfold show_int. destruct (Z.ltb_spec z 0).
  - destruct Hs as [?| ->]; [lia|].
    destruct (show_digits_spec 20 (- z)) as [Hp _]; [change (Z.of_nat 20) with 20; lia|].
    replace z with (- - z) at 2 by lia.
    apply parse_int_minus; [apply show_digits_S_nonempty|done|lia].
  - destruct (show_digits_spec 20 z) as [Hp Hd]; [change (Z.of_nat 20) with 20; lia|].
    by apply parse_int_digits; [|apply show_digits_S_nonempty|..].
Qed.

Lemma split_on_app_sep sep s1 s2 :
  split_on sep (s1 +:+ String sep s2) = split_on sep s1 ++ split_on sep s2.
Proof.
  induction s1 as [|a s1 IH]; [rewrite string_app_nil; simpl; by rewrite Ascii.eqb_refl|].
  rewrite string_app_cons. simpl. rewrite IH. destruct (Ascii.eqb a sep); [done|].
  destruct (split_on sep s1) eqn:Hs; [|done].
  destruct s1 as [|b s1]; simpl in Hs; [done|].
  destruct (Ascii.eqb b sep); [done|]. by destruct (split_on sep s1).
Qed.

Lemma split_on_digits s : all_digits s = true → split_on ":" s = [s].
Proof.
  induction s as [|a s IH]; simpl; [done|].
  intros [Ha%bool_decide_eq_true Hs]%andb_true_iff.
  destruct (Ascii.eqb_spec a ":"); [subst; by destruct Ha|]. by rewrite IH.
Qed.

Lemma split_on_show_int z :
  Z.abs z < 10 ^ 20 → split_on ":" (show_int z) = [show_int z].
Proof.
  intros Habs. unfold show_int. destruct (Z.ltb_spec z 0).
  - destruct (show_digits_spec 20 (- z)) as [_ Hd]; [change (Z.of_nat 20) with 20; lia|].
    revert Hd. generalize (show_digits 20 (- z) ""). intros s Hd. simpl.
    by rewrite (split_on_digits _ Hd).
  - destruct (show_digits_spec 20 z) as [_ Hd]; [change (Z.of_nat 20) with 20; lia|].
    by rewrite (split_on_digits _ Hd).
Qed.

(** Digits are plain ASCII. *)
Lemma is_utf8_digits s : all_digits s = true → is_utf8 s = true.
Proof.
  unfold is_utf8. intros Hd.
  assert (∀ n, (length (String.list_ascii_of_string s) < n)%nat →
    utf8_fuel n (Ascii.N_of_ascii <$> String.list_ascii_of_string s) = true) as Hn.
  { revert Hd. induction s as [|a s IH]; intros Hd n Hl; simpl in *; [by destruct n; [lia|]|].
    destruct n as [|n]; [lia|]. apply andb_true_iff in Hd as [Ha%bool_decide_eq_true Hs].
    cbn [utf8_fuel].
    assert (Ascii.N_of_ascii a < 128)%N as Hlt.
    { unfold digit_of_ascii in Ha. destruct Ha as [z Ha]. revert Ha.
      generalize (Ascii.N_of_ascii a). intros m. case_match eqn:Hb; [|done].
      apply andb_true_iff in Hb as [?%Z.leb_le ?%Z.leb_le]. lia. }
    rewrite (proj2 (N.ltb_lt _ _) Hlt). apply IH; [done|lia]. }
  apply Hn. rewrite length_fmap. lia.
Qed.

Lemma is_utf8_show_int z : 0 ≤ z < 10 ^ 20 → is_utf8 (show_int z) = true.
Proof.
  intros Hz. unfold show_int. rewrite (proj2 (Z.ltb_ge _ _)) by lia.
  apply is_utf8_digits, show_digits_spec. change (Z.of_nat 20) with 20. lia.
Qed.
End decimal.
