(* ===== verification/Clap.v ===== *)
(** * Command lines

    The programs read their options with the clap crate.  [App] is what they
    declare, [Clap] the crate's parser, and [ClapSpec] its documented
    behaviour on plain command lines: positional arguments first, then flags and
    options with one value each, then what follows [--].  [plain_clap] is a
    parser that behaves so. *)
From Stdlib Require Import Ascii.
From S2P Require Import Prelude RustInt.

(** [clap::Arg]: [long] says that the argument is an option of its own name. *)
Record Arg := {
  with_name : string;
  long : bool;
  takes_value : bool;
  multiple : bool;
  use_delimiter : bool;
  required : bool;
  is_last : bool;
}.
Abbreviation App := (list Arg).

(** The combinations the programs declare. *)
Definition switch (name : string) : Arg :=
  {| with_name := name; long := true; takes_value := false; multiple := false; use_delimiter := false;
     required := false; is_last := false |}.
Definition option_values (name : string) : Arg :=
  {| with_name := name; long := true; takes_value := true; multiple := true; use_delimiter := false;
     required := false; is_last := false |}.
Definition option_list (name : string) : Arg :=
  {| with_name := name; long := true; takes_value := true; multiple := true; use_delimiter := true;
     required := false; is_last := false |}.
Definition required_option (name : string) : Arg :=
  {| with_name := name; long := true; takes_value := true; multiple := false; use_delimiter := false;
     required := true; is_last := false |}.
Definition required_positional (name : string) : Arg :=
  {| with_name := name; long := false; takes_value := true; multiple := false; use_delimiter := false;
     required := true; is_last := false |}.
Definition required_last (name : string) : Arg :=
  {| with_name := name; long := false; takes_value := true; multiple := true; use_delimiter := false;
     required := true; is_last := true |}.

Record Matches := {
  values_of : string → option (list string);
  is_present : string → bool;
}.
Definition value_of (m : Matches) (name : string) : option string := values_of m name ≫= head.

(** [App::get_matches]: [None] when the usage is wrong, and the program exits. *)
Class Clap := get_matches : App → list string → option Matches.

(** ** Plain command lines *)
Inductive Item := Flag (name : string) | Opt (name value : string).
#[global] Instance Item_eq_dec : EqDecision Item.
Proof. solve_decision. Defined.

Definition dashes (name : string) : string := "--" +:+ name.
Definition render (item : Item) : list string :=
  match item with Flag name => [dashes name] | Opt name value => [dashes name; value] end.
Definition command_line (bin : string) (positional : list string) (items : list Item)
    (rest : option (list string)) : list string :=
  bin :: positional ++ (items ≫= render) ++ match rest with Some rest => "--" :: rest | None => [] end.

Definition is_positional (a : Arg) : bool := negb (long a) && negb (is_last a).
Definition starts_with_dash (s : string) : bool :=
  match s with String a _ => Ascii.eqb a "-" | EmptyString => false end.
Fixpoint has_char (c : ascii) (s : string) : bool :=
  match s with EmptyString => false | String a s => Ascii.eqb a c || has_char c s end.

(** A word that can only be a value. *)
Definition plain_word (delimiter : bool) (s : string) : bool :=
  negb (bool_decide (s = "")) && negb (starts_with_dash s) && negb (delimiter && has_char "," s).

Definition item_ok (app : App) (item : Item) : bool :=
  match item with
  | Flag name => existsb (λ a, long a && bool_decide (with_name a = name) && negb (takes_value a)) app
  | Opt name value =>
      existsb (λ a, long a && bool_decide (with_name a = name) && takes_value a &&
                    plain_word (use_delimiter a) value) app
  end.

Definition item_name (item : Item) : string := match item with Flag name | Opt name _ => name end.
Definition item_value (name : string) (item : Item) : option string :=
  match item with
  | Flag _ => None
  | Opt name' value => if decide (name' = name) then Some value else None
  end.
Definition values (name : string) (items : list Item) : list string := omap (item_value name) items.

(** How often an argument is given. *)
Definition given (a : Arg) (items : list Item) (rest : option (list string)) : nat :=
  if long a then length (filter (λ i, item_name i = with_name a) items)
  else length (default [] rest).

Definition count_ok (items : list Item) (rest : option (list string)) (a : Arg) : bool :=
  is_positional a ||
  ((negb (required a) || bool_decide (given a items rest ≠ 0%nat)) &&
   (multiple a || bool_decide (given a items rest ≤ 1)%nat)).

(** The command line is one the program declares: known options with values,
    as many positional arguments as there are, what is required is there,
    and what is not multiple is there once. *)
Definition usage_ok (app : App) (positional : list string) (items : list Item)
    (rest : option (list string)) : bool :=
  forallb (λ a, negb (bool_decide (with_name a = ""))) app &&
  forallb (item_ok app) items &&
  forallb (plain_word false) positional &&
  bool_decide (length positional = length (filter (λ a, is_positional a = true) app)) &&
  forallb (count_ok items rest) app &&
  bool_decide (is_Some rest → Exists (λ a, is_last a = true) app).

Class ClapSpec (clap : Clap) := plain_usage app bin positional items rest :
  NoDup (with_name <$> app) →
  usage_ok app positional items rest = true →
  ∃ m, get_matches app (command_line bin positional items rest) = Some m ∧
    (∀ a, a ∈ app → long a = true → takes_value a = true →
       values_of m (with_name a) = match values (with_name a) items with [] => None | vs => Some vs end) ∧
    (∀ a, a ∈ app → long a = true → takes_value a = false →
       is_present m (with_name a) = bool_decide (Flag (with_name a) ∈ items)) ∧
    (∀ a k, filter (λ a, is_positional a = true) app !! k = Some a →
       values_of m (with_name a) = (λ v, [v]) <$> positional !! k) ∧
    (∀ a, a ∈ app → is_last a = true → long a = false → values_of m (with_name a) = rest).

(** ** A parser of plain command lines *)
Definition strip_dashes (t : string) : option string :=
  match t with
  | String a (String b name) => if Ascii.eqb a "-" && Ascii.eqb b "-" then Some name else None
  | _ => None
  end.

Definition find_arg (app : App) (name : string) : option Arg :=
  snd <$> list_find (λ a, with_name a = name) app.

(** Positional arguments, items, and what follows [--]. *)
Fixpoint scan (app : App) (tokens : list string) : option (list string * list Item * option (list string)) :=
  match tokens with
  | [] => Some ([], [], None)
  | t :: tokens =>
      if decide (t = "--") then Some ([], [], Some tokens)
      else
        match strip_dashes t with
        | None => '(ps, items, rest) ← scan app tokens; Some (t :: ps, items, rest)
        | Some name =>
            a ← find_arg app name;
            if takes_value a
            then match tokens with
                 | [] => None
                 | v :: tokens => '(ps, items, rest) ← scan app tokens; Some (ps, Opt name v :: items, rest)
                 end
            else '(ps, items, rest) ← scan app tokens; Some (ps, Flag name :: items, rest)
        end
  end.

Definition matches_of (app : App) (ps : list string) (items : list Item) (rest : option (list string))
    : Matches := {|
  values_of name :=
    a ← find_arg app name;
    if long a then match values name items with [] => None | vs => Some vs end
    else if is_last a then rest
    else '(k, _) ← list_find (λ a, with_name a = name) (filter (λ a, is_positional a = true) app);
         (λ v, [v]) <$> ps !! k;
  is_present name := bool_decide (Flag name ∈ items);
|}.

Definition plain_clap : Clap := λ app argv,
  '(ps, items, rest) ← scan app (tail argv); Some (matches_of app ps items rest).

Lemma find_arg_elem app a : NoDup (with_name <$> app) → a ∈ app → find_arg app (with_name a) = Some a.
Proof.
  intros Hnd Ha. unfold find_arg. induction app as [|b app IH]; [by apply not_elem_of_nil in Ha|].
  rewrite fmap_cons, NoDup_cons in Hnd. destruct Hnd as [Hb Hnd]. simpl.
  destruct (decide (with_name b = with_name a)) as [He|Hne].
  - apply elem_of_cons in Ha as [->|Ha]; [done|].
    destruct Hb. rewrite He. by apply list_elem_of_fmap_2.
  - apply elem_of_cons in Ha as [->|Ha]; [done|]. specialize (IH Hnd Ha).
    destruct (list_find _ app) as [[k c]|]; [|done]. simpl in *. done.
Qed.

Lemma NoDup_fmap_filter {A B} (f : A → B) (P : A → Prop) `{!∀ a, Decision (P a)} (l : list A) :
  NoDup (f <$> l) → NoDup (f <$> filter P l).
Proof.
  induction l as [|x l IH]; [done|]. rewrite fmap_cons, NoDup_cons, filter_cons. intros [Hx Hnd].
  case_decide; [|by auto]. rewrite fmap_cons, NoDup_cons. split; [|by auto].
  intros (y & Hy & Hin)%list_elem_of_fmap. destruct Hx. rewrite Hy.
  apply list_elem_of_fmap_2. by apply list_elem_of_filter in Hin as [_ ?].
Qed.

Lemma find_filter_elem (app : App) (P : Arg → Prop) `{!∀ a, Decision (P a)} k a :
  NoDup (with_name <$> app) → filter P app !! k = Some a →
  list_find (λ b, with_name b = with_name a) (filter P app) = Some (k, a).
Proof.
  intros Hnd Hk. apply list_find_Some. split; [done|]. split; [done|].
  pose proof (NoDup_fmap_filter with_name P app Hnd) as Hnd'.
  intros j b Hj Hjk Heq.
  assert (j = k); [|lia]. eapply (NoDup_lookup _ _ _ (with_name a) Hnd');
    rewrite list_lookup_fmap; [rewrite Hj; simpl; by f_equal|by rewrite Hk].
Qed.

Section scan.
Context (app : App) (Hnd : NoDup (with_name <$> app)).
Context (Hnames : Forall (λ a, with_name a ≠ "") app).

Lemma dashes_name name : name ≠ "" → dashes name ≠ "--" ∧ strip_dashes (dashes name) = Some name.
Proof. by destruct name. Qed.

Lemma scan_positional ps tokens r :
  forallb (plain_word false) ps = true → scan app tokens = Some ([], r.1, r.2) →
  scan app (ps ++ tokens) = Some (ps, r.1, r.2).
Proof.
  intros Hps Hr. induction ps as [|p ps IH]; [done|]. simpl in Hps.
  apply andb_true_iff in Hps as [Hp Hps]. cbn [Datatypes.app scan].
  rewrite decide_False by by intros ->.
  assert (strip_dashes p = None) as ->.
  { unfold plain_word in Hp. destruct p as [|a [|b p]]; try done. simpl in *.
    by destruct (Ascii.eqb a "-"). }
  by rewrite (IH Hps).
Qed.

Lemma scan_items items tail rest :
  forallb (item_ok app) items = true → scan app tail = Some ([], [], rest) →
  scan app ((items ≫= render) ++ tail) = Some ([], items, rest).
Proof.
  intros Hok Ht. induction items as [|i items IH]; [done|]. simpl in Hok.
  apply andb_true_iff in Hok as [Hi Hok]. specialize (IH Hok).
  rewrite bind_cons, <- (assoc_L (++)).
  assert (∃ a, a ∈ app ∧ with_name a = item_name i ∧
    takes_value a = match i with Flag _ => false | Opt _ _ => true end) as (a & Ha & Hn & Ht').
  { destruct i as [n|n v]; simpl in Hi; apply existsb_exists in Hi as (a & Ha%list_elem_of_In & Hb);
      exists a; rewrite !andb_true_iff, bool_decide_eq_true in Hb; split_and!; try done; try tauto.
    by destruct (takes_value a), Hb. }
  pose proof (find_arg_elem app a Hnd Ha) as Hfind.
  pose proof (proj1 (Forall_forall _ _) Hnames a Ha) as Hne. simpl in Hne. rewrite Hn in Hfind, Hne.
  destruct (dashes_name _ Hne) as [Hd Hs].
  destruct i as [n|n v]; cbn [render Datatypes.app scan item_name] in *; rewrite decide_False by done;
    rewrite Hs; cbn [mbind option_bind]; rewrite Hfind; cbn [mbind option_bind]; rewrite Ht', IH; done.
Qed.
End scan.

#[global] Instance plain_clap_spec : ClapSpec plain_clap.
Proof.
  intros app bin positional items rest Hnd Hok. unfold usage_ok in Hok.
  rewrite !andb_true_iff in Hok. destruct Hok as [[[[[Hnames Hitems] Hps] _] _] _].
  assert (Forall (λ a, with_name a ≠ "") app) as Hn.
  { apply Forall_forall. intros a Ha He. rewrite forallb_forall in Hnames.
    specialize (Hnames a (proj1 (list_elem_of_In _ _) Ha)). simpl in Hnames.
    rewrite bool_decide_true in Hnames by done. done. }
  exists (matches_of app positional items rest). split.
  { unfold get_matches, plain_clap, command_line. cbn [tail].
    rewrite (scan_positional app positional _ (items, rest)); [done|done|].
    apply scan_items; [done..|]. by destruct rest. }
  split_and!.
  - intros a Ha Hl Hv. simpl. rewrite find_arg_elem by done. simpl. by rewrite Hl.
  - intros a Ha Hl Hv. done.
  - intros a k Hk. assert (a ∈ app ∧ is_positional a = true) as [Ha Hp].
    { apply list_elem_of_lookup_2, list_elem_of_filter in Hk. tauto. }
    simpl. rewrite find_arg_elem by done. unfold is_positional in Hp.
    apply andb_true_iff in Hp as [Hl%negb_true_iff Hla%negb_true_iff]. cbn [mbind option_bind].
    rewrite Hl, Hla. by rewrite (find_filter_elem app _ k a).
  - intros a Ha Hla Hl. simpl. rewrite find_arg_elem by done. simpl. by rewrite Hl, Hla.
Qed.

(** ** Command lines built from groups of options *)

(** Options with all their values, then flags. *)
Definition items_of (groups : list (string * list string)) (flags : list string) : list Item :=
  (groups ≫= λ g, Opt g.1 <$> g.2) ++ (Flag <$> flags).

Lemma render_items_of groups flags :
  items_of groups flags ≫= render =
    (groups ≫= λ g, g.2 ≫= λ v, [dashes g.1; v]) ++ (dashes <$> flags).
Proof.
  unfold items_of. rewrite bind_app. f_equal.
  - induction groups as [|[n vs] groups IH]; [done|]. rewrite !bind_cons, bind_app, IH. f_equal.
    simpl. clear IH. induction vs as [|v vs IH]; [done|]. by rewrite fmap_cons, !bind_cons, IH.
  - induction flags as [|f flags IH]; [done|]. by rewrite !fmap_cons, bind_cons, IH.
Qed.

Lemma values_items_of n groups flags :
  values n (items_of groups flags) = groups ≫= λ g, if decide (g.1 = n) then g.2 else [].
Proof.
  unfold values, items_of. rewrite omap_app.
  assert (omap (item_value n) (Flag <$> flags) = []) as ->.
  { induction flags as [|f flags IH]; [done|]. by rewrite fmap_cons. }
  rewrite app_nil_r. induction groups as [|[m vs] groups IH]; [done|].
  rewrite !bind_cons, omap_app, IH. f_equal. simpl. clear IH.
  induction vs as [|v vs IH]; [by case_decide|]. rewrite fmap_cons. cbn [omap list_omap item_value].
  rewrite IH. by case_decide.
Qed.

Lemma given_items_of a groups flags rest :
  long a = true →
  given a (items_of groups flags) rest =
    (length (groups ≫= λ g, if decide (g.1 = with_name a) then g.2 else []) +
     length (filter (λ f, f = with_name a) flags))%nat.
Proof.
  intros Hl. unfold given. rewrite Hl. unfold items_of. rewrite filter_app, length_app. f_equal.
  - induction groups as [|[m vs] groups IH]; [done|]. rewrite !bind_cons, filter_app, !length_app, IH.
    f_equal. simpl. clear IH. induction vs as [|v vs IH]; [by case_decide|].
    rewrite fmap_cons, filter_cons. cbn [item_name]. repeat case_decide; simpl in *; congruence.
  - induction flags as [|f flags IH]; [done|]. rewrite fmap_cons, !filter_cons. cbn [item_name].
    case_decide; simpl; congruence.
Qed.

Lemma items_of_ok app groups flags :
  Forall (λ g, Forall (λ v, item_ok app (Opt g.1 v) = true) g.2) groups →
  Forall (λ f, item_ok app (Flag f) = true) flags →
  forallb (item_ok app) (items_of groups flags) = true.
Proof.
  intros Hg Hf. apply forallb_forall. intros i Hi%list_elem_of_In. unfold items_of in Hi.
  apply elem_of_app in Hi as [([n vs] & Hi & Hin)%list_elem_of_bind|(f & -> & Hin)%list_elem_of_fmap].
  - apply list_elem_of_fmap in Hi as (v & -> & Hv). rewrite Forall_forall in Hg.
    specialize (Hg _ Hin). simpl in Hg. rewrite Forall_forall in Hg. by apply Hg.
  - rewrite Forall_forall in Hf. by apply Hf.
Qed.

Lemma flag_items_of n groups flags : Flag n ∈ items_of groups flags ↔ n ∈ flags.
Proof.
  unfold items_of. rewrite elem_of_app, list_elem_of_bind, list_elem_of_fmap. split.
  - intros [(g & (v & ? & _)%list_elem_of_fmap & _)|(f & [= ->] & ?)]; done.
  - intros Hn. right. by exists n.
Qed.

(** A number is a plain word, alone or followed by anything. *)
Lemma show_digits_head fuel z acc : 0 ≤ z →
  ∃ d s, show_digits (S fuel) z acc = String (ascii_of_digit d) s ∧ 0 ≤ d < 10.
Proof.
  revert z acc. induction fuel as [|fuel IH]; intros z acc Hz;
    pose proof (Z.mod_pos_bound z 10 ltac:(lia)) as Hm.
  - simpl. exists (z `mod` 10). destruct (z <? 10); eexists; by split.
  - change (show_digits (S (S fuel)) z acc) with
      (if z <? 10 then String (ascii_of_digit (z `mod` 10)) acc
       else show_digits (S fuel) (z / 10) (String (ascii_of_digit (z `mod` 10)) acc)).
    destruct (z <? 10); [do 2 eexists; by split|]. apply IH. divlia.
Qed.

Lemma plain_word_number z s : 0 ≤ z → plain_word false (show_int z +:+ s) = true.
Proof.
  intros Hz. unfold show_int. rewrite (proj2 (Z.ltb_ge _ _)) by lia.
  destruct (show_digits_head 19 z "" Hz) as (d & t & -> & Hd). rewrite string_app_cons.
  unfold plain_word. rewrite bool_decide_false by done. simpl.
  assert (d = 0 ∨ d = 1 ∨ d = 2 ∨ d = 3 ∨ d = 4 ∨ d = 5 ∨ d = 6 ∨ d = 7 ∨ d = 8 ∨ d = 9) as Hin
    by lia.
  by destruct_or! Hin; subst.
Qed.

(** What a command line of groups gives. *)
Lemma group_matches {clap : Clap} `{!ClapSpec clap} app bin positional groups flags rest :
  NoDup (with_name <$> app) →
  usage_ok app positional (items_of groups flags) rest = true →
  ∃ m, get_matches app
         (bin :: positional ++ (groups ≫= λ g, g.2 ≫= λ v, [dashes g.1; v]) ++ (dashes <$> flags) ++
          match rest with Some rest => "--" :: rest | None => [] end) = Some m ∧
    (∀ a, a ∈ app → long a = true → takes_value a = true →
       default [] (values_of m (with_name a)) =
         groups ≫= λ g, if decide (g.1 = with_name a) then g.2 else []) ∧
    (∀ a, a ∈ app → long a = true → takes_value a = false →
       is_present m (with_name a) = bool_decide (with_name a ∈ flags)) ∧
    (∀ a k, filter (λ a, is_positional a = true) app !! k = Some a →
       values_of m (with_name a) = (λ v, [v]) <$> positional !! k) ∧
    (∀ a, a ∈ app → is_last a = true → long a = false → values_of m (with_name a) = rest).
Proof.
  intros Hnd Hok. destruct (plain_usage app bin positional _ _ Hnd Hok) as (m & Hm & Hv & Hf & Hp & Hl).
  exists m. split_and!; [|..|done|done].
  - rewrite <- Hm. unfold command_line. by rewrite render_items_of, <- (assoc_L (++)).
  - intros a Ha H1 H2. rewrite (Hv a Ha H1 H2), values_items_of. by destruct (groups ≫= _).
  - intros a Ha H1 H2. rewrite (Hf a Ha H1 H2). apply bool_decide_ext, flag_items_of.
Qed.
