(* ===== verification/Sha256.v ===== *)
(** * SHA-256, executable

    The hash function that BoringSSL provides to the program, written from
    FIPS 180-4 on words kept below 2^32.  The development is stated for any
    implementation of the crypto interface ([Crypto.Sha256FFI]); this file
    supplies the concrete one that shows its hypotheses can hold. *)
From S2P Require Import Prelude.

Module Sha256.
Local Open Scope N_scope.

Definition word32 (x : N) : N := N.land x 0xffffffff.
Definition rotr (n x : N) : N := N.lor (N.shiftr x n) (word32 (N.shiftl x (32 - n))).
Definition small_sigma0 (x : N) : N := N.lxor (N.lxor (rotr 7 x) (rotr 18 x)) (N.shiftr x 3).
Definition small_sigma1 (x : N) : N := N.lxor (N.lxor (rotr 17 x) (rotr 19 x)) (N.shiftr x 10).
Definition big_sigma0 (x : N) : N := N.lxor (N.lxor (rotr 2 x) (rotr 13 x)) (rotr 22 x).
Definition big_sigma1 (x : N) : N := N.lxor (N.lxor (rotr 6 x) (rotr 11 x)) (rotr 25 x).
Definition choose (x y z : N) : N := N.lxor (N.land x y) (N.land (N.lxor x 0xffffffff) z).
Definition majority (x y z : N) : N := N.lxor (N.lxor (N.land x y) (N.land x z)) (N.land y z).

(** The constants are the first 32 bits of the fractional parts of roots of the
    first primes: cube roots for the rounds, square roots for the start. *)
Definition is_prime (n : N) : bool :=
  forallb (λ d, negb (n mod N.of_nat d =? 0)) (seq 2 (N.to_nat n - 2)).
Definition primes (count bound : nat) : list N :=
  take count (filter (λ n, is_prime n = true) (N.of_nat <$> seq 2 bound)).
(** The integer cube root, one bit at a time from bit [n - 1] down. *)
Fixpoint cube_root (n : nat) (r x : N) : N :=
  match n with
  | O => r
  | S n => let r' := r + 2 ^ N.of_nat n in cube_root n (if r' * r' * r' <=? x then r' else r) x
  end.
Definition round_constants : list N := Eval vm_compute in
  (λ p, word32 (cube_root 40 0 (p * 2 ^ 96))) <$> primes 64 310.
Definition initial_hash : list N := Eval vm_compute in
  (λ p, word32 (N.sqrt (p * 2 ^ 64))) <$> primes 8 20.

(** The sixty-four rounds; [w] is the window of the next sixteen words of the
    message schedule. *)
Fixpoint rounds (ks w : list N) (st : N * N * N * N * N * N * N * N) :=
  match ks, w with
  | k :: ks, wt :: w' =>
      let '(a, b, c, d, e, f, g, h) := st in
      let t1 := word32 (h + big_sigma1 e + choose e f g + k + wt) in
      let t2 := word32 (big_sigma0 a + majority a b c) in
      let wn := word32 (small_sigma1 (nth 14 w 0) + nth 9 w 0 + small_sigma0 (nth 1 w 0) + wt) in
      rounds ks (w' ++ [wn]) (word32 (t1 + t2), a, b, c, word32 (d + t1), e, f, g)
  | _, _ => st
  end.

Definition compress (h w : list N) : list N :=
  match h with
  | [a; b; c; d; e; f; g; i] =>
      let '(a', b', c', d', e', f', g', i') :=
        rounds round_constants w (a, b, c, d, e, f, g, i) in
      [word32 (a + a'); word32 (b + b'); word32 (c + c'); word32 (d + d');
       word32 (e + e'); word32 (f + f'); word32 (g + g'); word32 (i + i')]
  | _ => h
  end.

Fixpoint words (l : list N) : list N :=
  match l with
  | a :: b :: c :: d :: l => (a * 0x1000000 + b * 0x10000 + c * 0x100 + d) :: words l
  | _ => []
  end.

Fixpoint blocks (n : nat) (w h : list N) : list N :=
  match n with
  | O => h
  | S n => blocks n (drop 16 w) (compress h (take 16 w))
  end.

Definition be_octets (n : nat) (x : N) : list N :=
  (λ i, N.land (N.shiftr x (8 * N.of_nat i)) 255) <$> reverse (seq 0 n).

Definition padded (l : list N) : list N :=
  let n := N.of_nat (length l) in
  l ++ [128] ++ replicate (N.to_nat ((119 - n mod 64) mod 64)) 0 ++ be_octets 8 (8 * n).

Definition sha256 (m : list byte) : list byte :=
  let w := words (padded (Byte.to_N <$> m)) in
  let h := blocks (length w / 16) w initial_hash in
  (λ o, byte_of_Z (Z.of_N o)) <$> (h ≫= be_octets 4).

Lemma length_compress h w : length (compress h w) = length h.
Proof.
  unfold compress. generalize (rounds round_constants w) as f. intros f.
  repeat match goal with |- context [match ?l with [] => _ | _ => _ end] => destruct l end;
    try reflexivity.
  by destruct (f _) as [[[[[[[? ?] ?] ?] ?] ?] ?] ?].
Qed.

Lemma length_blocks n w h : length (blocks n w h) = length h.
Proof.
  revert w h. induction n as [|n IH]; intros w h; simpl; [done|].
  by rewrite IH, length_compress.
Qed.

Lemma length_be_octets_bind h : length (h ≫= be_octets 4) = (4 * length h)%nat.
Proof.
  induction h as [|x h IH]; [done|]. rewrite bind_cons, length_app, IH.
  unfold be_octets. rewrite length_fmap, length_reverse, length_seq. simpl. lia.
Qed.

Lemma length_sha256 m : length (sha256 m) = 32%nat.
Proof. unfold sha256. by rewrite length_fmap, length_be_octets_bind, length_blocks. Qed.
End Sha256.
