(* ===== verification/Crypto.v ===== *)
(** * The hasher (authfs/src/crypto.rs)

    [Sha256Hasher] wraps three C functions of BoringSSL.  They are not part
    of the sources: [Sha256FFI] is their interface, [Sha256Spec] their
    documented behaviour, and [boringssl] the implementation by
    [Sha256.sha256] that meets it. *)
From S2P Require Import Prelude Sha256.

Inductive CryptoError := Unexpected (what : string).

(** The functions of [authfs_crypto_bindgen].  Each returns its C return
    value and the context it leaves behind. *)
Class Sha256FFI := {
  SHA256_CTX : Type;
  SHA256_Init : Z * SHA256_CTX;
  SHA256_Update : SHA256_CTX → list byte → Z * SHA256_CTX;
  SHA256_Final : SHA256_CTX → Z * list byte * SHA256_CTX;
}.

Definition HASH_SIZE : Z := 32.
#[global] Program Instance zify_HASH_SIZE : CstOp HASH_SIZE := {| TCst := 32 |}.
Next Obligation. reflexivity. Qed.
Add Zify CstOp zify_HASH_SIZE.

Definition HASH_OF_4096_ZEROS : list byte :=
  byte_of_Z <$>
    [0xad; 0x7f; 0xac; 0xb2; 0x58; 0x6f; 0xc6; 0xe9; 0x66; 0xc0; 0x04; 0xd7; 0xd1; 0xd1; 0x6b;
     0x02; 0x4f; 0x58; 0x05; 0xff; 0x7c; 0xb4; 0x7c; 0x7a; 0x85; 0xda; 0xbd; 0x8b; 0x48; 0x89;
     0x2c; 0xa7].

Module Sha256Hasher.
Section hasher.
Context `{!Sha256FFI}.

Record Sha256Hasher := { ctx : SHA256_CTX }.

Definition new : outcome CryptoError Sha256Hasher :=
  let '(ret, c) := SHA256_Init in
  if ret =? 0 then Err (Unexpected "SHA256_Init") else Ok {| ctx := c |}.

Definition update (self : Sha256Hasher) (data : list byte) : outcome CryptoError Sha256Hasher :=
  let '(ret, c) := SHA256_Update (ctx self) data in
  if ret =? 0 then Err (Unexpected "SHA256_Update") else Ok {| ctx := c |}.

Fixpoint update_from (self : Sha256Hasher) (iter : list (list byte))
    : outcome CryptoError Sha256Hasher :=
  match iter with
  | [] => Ok self
  | data :: iter => self ← update self data; update_from self iter
  end.

Definition finalize (self : Sha256Hasher) : outcome CryptoError (list byte) :=
  let '(ret, md, _) := SHA256_Final (ctx self) in
  if ret =? 0 then Err (Unexpected "SHA256_Final") else Ok md.
End hasher.
End Sha256Hasher.

(** What BoringSSL documents: every call returns one, [SHA256_Update] appends
    to the message and [SHA256_Final] writes its 32-byte digest.  The last
    law is the constant the program carries, checked by a test of the crate. *)
Class Sha256Spec {ffi : Sha256FFI} := {
  sha256 : list byte → list byte;
  absorbed : SHA256_CTX → list byte → Prop;
  SHA256_Init_spec : SHA256_Init.1 = 1 ∧ absorbed SHA256_Init.2 [];
  SHA256_Update_spec c m d :
    absorbed c m → (SHA256_Update c d).1 = 1 ∧ absorbed (SHA256_Update c d).2 (m ++ d);
  SHA256_Final_spec c m : absorbed c m → (SHA256_Final c).1 = (1, sha256 m);
  length_sha256 m : length (sha256 m) = Z.to_nat HASH_SIZE;
  sha256_zeros : sha256 (zeros 4096) = HASH_OF_4096_ZEROS;
}.

Section spec.
Context `{!Sha256FFI, !Sha256Spec}.
Import Sha256Hasher.

(** The hasher has absorbed the message [m]. *)
Definition hashing (h : Sha256Hasher) (m : list byte) : Prop := absorbed (ctx h) m.

Lemma new_spec : ∃ h, new = Ok h ∧ hashing h [].
Proof.
  unfold new, hashing. pose proof SHA256_Init_spec as [Hr Ha].
  destruct SHA256_Init as [r c]. simpl in *. subst. by exists {| ctx := c |}.
Qed.

Lemma update_spec h m d : hashing h m → ∃ h', update h d = Ok h' ∧ hashing h' (m ++ d).
Proof.
  unfold update, hashing. intros Ha. pose proof (SHA256_Update_spec _ _ d Ha) as [Hr Ha'].
  destruct (SHA256_Update _ _) as [r c]. simpl in *. subst. by exists {| ctx := c |}.
Qed.

Lemma update_from_spec h m ds :
  hashing h m → ∃ h', update_from h ds = Ok h' ∧ hashing h' (m ++ concat ds).
Proof.
  revert h m. induction ds as [|d ds IH]; intros h m Hh; simpl.
  - rewrite app_nil_r. eauto.
  - destruct (update_spec h m d Hh) as (h1 & -> & Hh1). simpl.
    destruct (IH _ _ Hh1) as (h2 & -> & Hh2). exists h2.
    by rewrite (assoc_L (++)).
Qed.

Lemma finalize_spec h m : hashing h m → finalize h = Ok (sha256 m).
Proof.
  unfold finalize, hashing. intros Ha. pose proof (SHA256_Final_spec _ _ Ha) as Hf.
  destruct (SHA256_Final _) as [[r md] c]. simpl in *. by simplify_eq.
Qed.

(** Two lists of messages clash when at some position they hold different
    messages with the same digest.  The messages are given, so that a clash is
    an explicit pair and not just one that must exist. *)
Definition clash (xs ys : list (list byte)) : Prop :=
  Exists (λ '(x, y), x ≠ y ∧ sha256 x = sha256 y) (zip xs ys).
#[global] Instance clash_dec xs ys : Decision (clash xs ys).
Proof. apply Exists_dec. intros [x y]. apply _. Defined.

Lemma same_digest_or_clash x y xs ys : sha256 x = sha256 y → x = y ∨ clash (x :: xs) (y :: ys).
Proof. intros Hxy. destruct (decide (x = y)); [by left|]. right. by apply Exists_cons_hd. Qed.

Lemma clash_tail x y xs ys : clash xs ys → clash (x :: xs) (y :: ys).
Proof. apply Exists_cons_tl. Qed.

Lemma clash_one x y : clash [x] [y] ↔ x ≠ y ∧ sha256 x = sha256 y.
Proof.
  split; [|intros; by apply Exists_cons_hd].
  intros [Hxy|Hnil]%Exists_cons; [done|by apply Exists_nil in Hnil].
Qed.

(** A run that hashes the right messages has no clash with them. *)
Lemma clash_irrefl xs : ¬ clash xs xs.
Proof.
  induction xs as [|x xs IH]; [by intros ?%Exists_nil|].
  intros [[Hne _]|Htl]%Exists_cons; [done|by apply IH].
Qed.
End spec.

(** Runs [new()?.update(..)?...finalize()?] in the goal. *)
Ltac hash_step :=
  match goal with
  | |- context [Sha256Hasher.new] =>
      let h := fresh "h" in let Hh := fresh "Hh" in
      destruct new_spec as (h & -> & Hh)
  | Hh : hashing ?h ?m |- context [Sha256Hasher.update ?h ?d] =>
      let h' := fresh "h" in let Hh' := fresh "Hh" in
      destruct (update_spec h m d Hh) as (h' & -> & Hh'); clear Hh; try clear h
  | Hh : hashing ?h ?m |- context [Sha256Hasher.update_from ?h ?d] =>
      let h' := fresh "h" in let Hh' := fresh "Hh" in
      destruct (update_from_spec h m d Hh) as (h' & -> & Hh'); clear Hh; try clear h
  | Hh : hashing ?h ?m |- context [Sha256Hasher.finalize ?h] =>
      rewrite (finalize_spec h m Hh); clear Hh; try clear h
  end; cbn [mbind outcome_bind].
Ltac hash_steps := repeat hash_step; rewrite ?app_nil_l, <- ?(assoc_L (++)).

(** ** The interface is implementable *)
Definition boringssl : Sha256FFI := {|
  SHA256_CTX := list byte;
  SHA256_Init := (1, []);
  SHA256_Update c d := (1, c ++ d);
  SHA256_Final c := (1, Sha256.sha256 c, []);
|}.

(** The test [sha256_of_4096_zeros] of the crate. *)
Lemma sha256_of_4096_zeros : Sha256.sha256 (zeros 4096) = HASH_OF_4096_ZEROS.
Proof. vm_compute. reflexivity. Qed.

Program Definition boringssl_spec : Sha256Spec (ffi := boringssl) := {|
  sha256 := Sha256.sha256;
  absorbed c m := c = m;
|}.
Next Obligation. done. Qed.
Next Obligation. simpl. by intros c m d ->. Qed.
Next Obligation. simpl. by intros c m ->. Qed.
Next Obligation. apply Sha256.length_sha256. Qed.
Next Obligation. apply sha256_of_4096_zeros. Qed.
