(* ===== verification/Common.v ===== *)
(** * Chunks and sizes (authfs/src/common.rs)

    [ChunkedSizeIter] cuts a byte range into the pieces that lie in one
    aligned block each.  Every loop of authfs over file contents is a fold
    over this iterator; [try_fold_ranges] turns such a fold into a fold over
    the list [ranges], whose shape is the inductive [chunking]. *)
From S2P Require Import Prelude RustInt.

(** Common block and page size in Linux. *)
Definition CHUNK_SIZE : Z := 4096.
#[global] Program Instance zify_CHUNK_SIZE : CstOp CHUNK_SIZE := {| TCst := 4096 |}.
Next Obligation. reflexivity. Qed.
Add Zify CstOp zify_CHUNK_SIZE.

Definition divide_roundup {E} (dividend divisor : Z) : outcome E Z :=
  s ← u64_add dividend divisor;
  s ← u64_sub s 1;
  u64_div s divisor.

Record ChunkedSizeIter := {
  remaining : Z;
  offset : Z;
  alignment : Z;
}.

Module ChunkedSizeIter.
Definition new (remaining offset alignment : Z) : ChunkedSizeIter :=
  {| remaining := remaining; offset := offset; alignment := alignment |}.

Definition next {E} (self : ChunkedSizeIter)
    : outcome E (option (Z * Z) * ChunkedSizeIter) :=
  if remaining self =? 0 then Ok (None, self)
  else
    in_block ← u64_rem (offset self) (alignment self);
    room ← u64_sub (alignment self) in_block;
    let chunk_data_size := Z.min (remaining self) room in
    let retval := (offset self, chunk_data_size) in
    offset' ← u64_add (offset self) chunk_data_size;
    Ok (Some retval,
        {| remaining := saturating_sub (remaining self) chunk_data_size;
           offset := offset';
           alignment := alignment self |}).

(** [Iterator::try_fold], and [for] with an accumulator.  Each element takes
    at least one byte, so [remaining + 1] calls of [next] are enough. *)
Fixpoint try_fold_fuel {W E A} (fuel : nat) (self : ChunkedSizeIter) (acc : A)
    (f : A → Z * Z → M W E A) : M W E A :=
  match fuel with
  | O => lift OutOfFuel
  | S fuel =>
      '(item, self) ← lift (next self);
      match item with
      | None => mret acc
      | Some item => acc ← f acc item; try_fold_fuel fuel self acc f
      end
  end.
Definition try_fold {W E A} (self : ChunkedSizeIter) (acc : A)
    (f : A → Z * Z → M W E A) : M W E A :=
  try_fold_fuel (S (Z.to_nat (remaining self))) self acc f.

(** [Iterator::collect]. *)
Definition collect {E} (self : ChunkedSizeIter) : outcome E (list (Z * Z)) :=
  (try_fold self [] (λ acc item, mret (acc ++ [item])) ()).1.
End ChunkedSizeIter.

(** ** The list of pieces *)

(** [chunking al off rem l]: the pieces [l] follow each other from [off], are
    not empty, add up to [rem] bytes, and each one ends at the end of its
    aligned block or at the end of the range. *)
Inductive chunking (al : Z) : Z → Z → list (Z * Z) → Prop :=
| chunking_nil off : chunking al off 0 []
| chunking_cons off rem l size :
    0 < rem →
    size = Z.min rem (al - off `mod` al) →
    chunking al (off + size) (rem - size) l →
    chunking al off rem ((off, size) :: l).

Fixpoint mfold {W E A B} (f : A → B → M W E A) (acc : A) (l : list B) : M W E A :=
  match l with
  | [] => mret acc
  | b :: l => acc ← f acc b; mfold f acc l
  end.

Section chunking.
Context (al : Z) (Hal : 0 < al).

Lemma chunking_size off rem l o s :
  chunking al off rem l → (o, s) ∈ l →
  off ≤ o ∧ 0 < s ∧ o + s ≤ off + rem ∧ s ≤ al - o `mod` al.
Proof.
  induction 1 as [|off rem l size Hr -> _ IH]; [by intros ?%not_elem_of_nil|].
  pose proof (Z.mod_pos_bound off al Hal).
  intros [[= -> ->]|Hin]%elem_of_cons; [lia|]. apply IH in Hin. lia.
Qed.

Lemma chunking_total off rem l :
  chunking al off rem l → foldr (λ p acc, p.2 + acc) 0 l = rem.
Proof. induction 1; simpl in *; lia. Qed.

(** A piece stays inside one aligned block. *)
Lemma chunking_one_block off rem l o s :
  chunking al off rem l → (o, s) ∈ l → o / al = (o + s - 1) / al.
Proof.
  intros Hc Hin. destruct (chunking_size _ _ _ _ _ Hc Hin) as (_ & Hs & _ & Hb).
  pose proof (Z.mod_pos_bound o al Hal). pose proof (Z.div_mod o al ltac:(lia)).
  apply Z.div_unique with (o `mod` al + s - 1); lia.
Qed.

(** Only the first piece can start inside a block. *)
Lemma chunking_aligned off rem l o s :
  chunking al off rem l → (o, s) ∈ l → o = off ∨ o `mod` al = 0.
Proof.
  induction 1 as [|off rem l size Hr -> Hc IH]; [by intros ?%not_elem_of_nil|].
  pose proof (Z.mod_pos_bound off al Hal).
  intros [[= -> ->]|Hin]%elem_of_cons; [by left|right].
  assert (rem - Z.min rem (al - off `mod` al) > 0) as Hgt.
  { inversion Hc; subst; [by apply not_elem_of_nil in Hin|lia]. }
  assert ((off + Z.min rem (al - off `mod` al)) `mod` al = 0) as Ha.
  { rewrite Z.min_r by lia. replace (off + (al - off `mod` al)) with ((off / al + 1) * al).
    - apply Z.mod_mul. lia.
    - pose proof (Z.div_mod off al ltac:(lia)). lia. }
  destruct (IH Hin) as [->|?]; done.
Qed.

Lemma next_piece {E} rem off :
  0 < rem → 0 ≤ off → off + rem < u64_limit → 
  let size := Z.min rem (al - off `mod` al) in
  ChunkedSizeIter.next (E := E) {| remaining := rem; offset := off; alignment := al |} =
    Ok (Some (off, size),
        {| remaining := rem - size; offset := off + size; alignment := al |}).
Proof.
  intros Hr Ho Hb size. unfold ChunkedSizeIter.next. simpl.
  pose proof (Z.mod_pos_bound off al Hal).
  rewrite (proj2 (Z.eqb_neq _ _)) by lia. rewrite u64_rem_Ok by lia. simpl.
  rewrite u64_sub_Ok by lia. simpl. fold size.
  rewrite u64_add_Ok by lia. simpl. unfold saturating_sub. by rewrite Z.max_r by lia.
Qed.

(** A fold over the iterator is a fold over a list of pieces; in particular
    it does not run out of fuel and the iterator does not overflow. *)
Lemma try_fold_fuel_ranges fuel off rem :
  0 ≤ rem → 0 ≤ off → off + rem < u64_limit → (Z.to_nat rem < fuel)%nat →
  ∃ l, chunking al off rem l ∧
    ∀ W E A (f : A → Z * Z → M W E A) acc w,
      ChunkedSizeIter.try_fold_fuel fuel
        {| remaining := rem; offset := off; alignment := al |} acc f w = mfold f acc l w.
Proof.
  revert off rem. induction fuel as [|fuel IH]; intros off rem Hr Ho Hb Hf; [lia|].
  destruct (decide (rem = 0)) as [->|Hne].
  { exists []. split; [constructor|done]. }
  pose proof (Z.mod_pos_bound off al Hal).
  destruct (IH (off + Z.min rem (al - off `mod` al)) (rem - Z.min rem (al - off `mod` al)))
    as (l & Hl & Hfold); [lia..|].
  exists ((off, Z.min rem (al - off `mod` al)) :: l). split; [econstructor; eauto; lia|].
  intros W E A f acc w. cbn [ChunkedSizeIter.try_fold_fuel mfold].
  rewrite next_piece by lia. rewrite bind_lift_Ok.
  unfold mbind, M_bind. destruct (f acc _ w) as [[a|e| |] w']; [apply Hfold|done..].
Qed.

Lemma try_fold_ranges off rem :
  0 ≤ rem → 0 ≤ off → off + rem < u64_limit →
  ∃ l, chunking al off rem l ∧
    ∀ W E A (f : A → Z * Z → M W E A) acc w,
      ChunkedSizeIter.try_fold (ChunkedSizeIter.new rem off al) acc f w = mfold f acc l w.
Proof. intros. apply try_fold_fuel_ranges; [done..|]. simpl. lia. Qed.
End chunking.

Lemma collect_mfold {E} (l acc : list (Z * Z)) :
  mfold (W := ()) (E := E) (λ acc item, mret (acc ++ [item])) acc l () = (Ok (acc ++ l), ()).
Proof.
  revert acc. induction l as [|x l IH]; intros acc; simpl; [by rewrite app_nil_r|].
  erewrite (M_bind_Ok (mret _)) by done. by rewrite IH, <- (assoc_L (++)).
Qed.

(** The pieces of a range, as the iterator lists them. *)
Definition pieces (off len : Z) : list (Z * Z) :=
  match ChunkedSizeIter.collect (E := unit) (ChunkedSizeIter.new len off CHUNK_SIZE) with
  | Ok l => l
  | _ => []
  end.

Lemma pieces_spec off len :
  0 ≤ len → 0 ≤ off → off + len < u64_limit →
  chunking CHUNK_SIZE off len (pieces off len) ∧
  ∀ W E A (f : A → Z * Z → M W E A) acc w,
    ChunkedSizeIter.try_fold (ChunkedSizeIter.new len off CHUNK_SIZE) acc f w =
      mfold f acc (pieces off len) w.
Proof.
  intros. destruct (try_fold_ranges CHUNK_SIZE ltac:(lia) off len) as (l & Hc & Hf); [done..|].
  unfold pieces, ChunkedSizeIter.collect. by rewrite Hf, collect_mfold.
Qed.

Lemma divide_roundup_Ok {E} a b :
  0 ≤ a → 0 < b → a + b < u64_limit → divide_roundup (E := E) a b = Ok ((a + b - 1) / b).
Proof.
  intros. unfold divide_roundup. rewrite u64_add_Ok by lia. simpl.
  rewrite u64_sub_Ok by lia. simpl. by rewrite u64_div_Ok by lia.
Qed.

(** The quotient rounded up is the least number of pieces that cover [a]. *)
Lemma roundup_bounds a b k : 0 ≤ a → 0 < b → (k = (a + b - 1) / b ↔ (k - 1) * b < a ≤ k * b).
Proof.
  intros. split.
  - intros ->. pose proof (Z.div_mod (a + b - 1) b). pose proof (Z.mod_pos_bound (a + b - 1) b). nia.
  - intros. apply Z.div_unique with (a + b - 1 - b * k); nia.
Qed.

(** ** Claims *)
Lemma chunking_positions al off rem l :
  0 < al → chunking al off rem l → 0 ≤ rem →
  (l ≫= λ '(o, s), seqZ o s) = seqZ off rem.
Proof.
  intros Hal. induction 1 as [|off rem l size Hr Hs _ IH]; intros Hrem; [done|].
  pose proof (Z.mod_pos_bound off al Hal). rewrite bind_cons, IH by lia.
  by rewrite <- seqZ_app by lia; f_equal; lia.
Qed.

(** C30: The chunk iterator cuts a byte range without loss.  It ends without overflow, its pieces
    list every position of the range once and in order, none is empty, each lies inside one
    aligned block, and a piece ends either on a block boundary or at the end of the range. *)
Theorem chunked_iter_partition {E} al off rem :
  0 < al → 0 ≤ rem → 0 ≤ off → off + rem < u64_limit →
  ∃ l, ChunkedSizeIter.collect (E := E) (ChunkedSizeIter.new rem off al) = Ok l ∧
    (l ≫= λ '(o, s), seqZ o s) = seqZ off rem ∧
    Forall (λ '(o, s), 0 < s ∧ o / al = (o + s - 1) / al ∧
                       (o + s = off + rem ∨ (o + s) `mod` al = 0)) l.
Proof.
  intros Hal Hr Ho Hb. destruct (try_fold_ranges al Hal off rem) as (l & Hc & Hf); [done..|].
  exists l. split.
  { unfold ChunkedSizeIter.collect. by rewrite Hf, collect_mfold. }
  split; [by apply (chunking_positions al)|].
  apply Forall_forall. intros [o s] Hin.
  destruct (chunking_size al Hal _ _ _ _ _ Hc Hin) as (_ & Hs & _).
  split; [done|]. split; [by apply (chunking_one_block al Hal off rem l)|].
  clear -Hal Hc Hin. induction Hc as [|off rem l size Hr -> Hc IH]; [by apply not_elem_of_nil in Hin|].
  pose proof (Z.mod_pos_bound off al Hal). apply elem_of_cons in Hin as [[= -> ->]|Hin].
  - destruct (decide (rem ≤ al - off `mod` al)); [left; lia|right].
    rewrite Z.min_r by lia. replace (off + (al - off `mod` al)) with ((off / al + 1) * al).
    + apply Z.mod_mul. lia.
    + pose proof (Z.div_mod off al ltac:(lia)). lia.
  - destruct (IH Hin); [left; lia|by right].
Qed.

Lemma chunked_iter_partition_witness :
  ∃ l, ChunkedSizeIter.collect (E := unit) (ChunkedSizeIter.new 5000 4000 4096) = Ok l ∧
    (l ≫= λ '(o, s), seqZ o s) = seqZ 4000 5000 ∧
    Forall (λ '(o, s), 0 < s ∧ o / 4096 = (o + s - 1) / 4096 ∧
                       (o + s = 4000 + 5000 ∨ (o + s) `mod` 4096 = 0)) l.
Proof. apply (chunked_iter_partition 4096 4000 5000); lia. Defined.
