(* ===== verification/Fsverity.v ===== *)
(** * fs-verity parameters and digest (authfs/src/fsverity/{common,sys}.rs)

    The errors of the I/O layer, the height of the Merkle tree and the
    descriptor that the fs-verity digest hashes. *)
From S2P Require Import Prelude RustInt Crypto Common.

(** ** [std::io::Error] and the errno values the sources use *)
Inductive ErrorKind := Other | InvalidData | InvalidInput | UnexpectedEof | WriteZero.
(** An OS error carries its number; any other error its kind.  The text of the
    message is left out: nothing inspects it. *)
Inductive io_error :=
| OsError (errno : Z)
| KindError (kind : ErrorKind).

Definition ENOENT : Z := 2.
Definition EIO : Z := 5.
Definition EBADF : Z := 9.
Definition EACCES : Z := 13.
Definition EINVAL : Z := 22.
Definition EFBIG : Z := 27.
Definition ENOSYS : Z := 38.
Definition ENODATA : Z := 61.
Definition EOVERFLOW : Z := 75.

#[global] Instance ErrorKind_eq_dec : EqDecision ErrorKind.
Proof. solve_decision. Defined.
#[global] Instance io_error_eq_dec : EqDecision io_error.
Proof. solve_decision. Defined.

Inductive FsverityError :=
| BadSignature
| InsufficientData (size : Z)
| CannotVerify
| Io (e : io_error)
| UnexpectedCryptoError (e : CryptoError)
| InvalidState.

(** ** sys.rs *)
Definition FS_VERITY_MAGIC : list byte :=
  byte_of_Z <$> [0x46; 0x53; 0x56; 0x65; 0x72; 0x69; 0x74; 0x79].
Definition FS_VERITY_VERSION : Z := 1.
Definition FS_VERITY_HASH_ALG_SHA256 : Z := 1.
Definition FS_VERITY_LOG_BLOCKSIZE : Z := 12.

(** ** common.rs *)
Definition log128_ceil {E} (num : Z) : outcome E (option Z) :=
  if num =? 0 then Ok None
  else
    n ← u64_sub num 1;
    bits ← u64_sub 64 (u64_leading_zeros n);
    k ← divide_roundup bits 7;
    Ok (Some k).

Definition hashes_per_node : Z := CHUNK_SIZE / HASH_SIZE.
#[global] Program Instance zify_hashes_per_node : CstOp hashes_per_node := {| TCst := 128 |}.
Next Obligation. reflexivity. Qed.
Add Zify CstOp zify_hashes_per_node.

Definition merkle_tree_height {E} (data_size : Z) : outcome E (option Z) :=
  hash_pages ← divide_roundup data_size (hashes_per_node * CHUNK_SIZE);
  log128_ceil hash_pages.

Section digest.
Context `{!Sha256FFI}.
Import Sha256Hasher.

Definition build_fsverity_digest (root_hash : list byte) (file_size : Z)
    : outcome CryptoError (list byte) :=
  h ← new;
  h ← update h (to_le_bytes 1 FS_VERITY_VERSION);
  h ← update h (to_le_bytes 1 FS_VERITY_HASH_ALG_SHA256);
  h ← update h (to_le_bytes 1 FS_VERITY_LOG_BLOCKSIZE);
  h ← update h (to_le_bytes 1 0);
  h ← update h (to_le_bytes 4 0);
  h ← update h (to_le_bytes 8 file_size);
  h ← update h root_hash;
  h ← update h (zeros 32);
  h ← update h (zeros 32);
  h ← update h (zeros 32);
  h ← update h (zeros 32);
  h ← update h (zeros 32);
  h ← update h (zeros 32);
  h ← update h (zeros 16);
  finalize h.
End digest.

(** ** The height of the tree *)

(** [k] is the height for [size] bytes: the root page covers the file and a
    tree one level lower would not. *)
Definition is_height (size : Z) (k : nat) : Prop :=
  size ≤ CHUNK_SIZE * 128 ^ (Z.of_nat k + 1) ∧ (k = O ∨ CHUNK_SIZE * 128 ^ Z.of_nat k < size).

Lemma pow128 k : 0 ≤ k → 128 ^ k = 2 ^ (7 * k).
Proof. intros. by rewrite Z.pow_mul_r by lia. Qed.

Lemma log128_ceil_spec {E} n :
  0 < n < u64_limit →
  ∃ k : nat, log128_ceil (E := E) n = Ok (Some (Z.of_nat k)) ∧
    n ≤ 128 ^ Z.of_nat k ∧ (k = O ∨ 128 ^ (Z.of_nat k - 1) < n).
Proof.
  intros Hn. unfold log128_ceil, u64_leading_zeros, u64_limit in *.
  rewrite (proj2 (Z.eqb_neq _ _)) by lia. rewrite u64_sub_Ok by lia. cbn [mbind outcome_bind].
  destruct (Z.eqb_spec (n - 1) 0).
  - exists O. change (Z.of_nat 0) with 0. split; [done|]. simpl. lia.
  - assert (Z.log2 (n - 1) < 64) by (apply Z.log2_lt_pow2; lia).
    pose proof (Z.log2_nonneg (n - 1)). rewrite u64_sub_Ok by lia.
    cbn [mbind outcome_bind]. rewrite divide_roundup_Ok by (unfold u64_limit; lia).
    cbn [mbind outcome_bind]. remember (64 - (63 - Z.log2 (n - 1))) as b eqn:Hb.
    remember ((b + 7 - 1) / 7) as k eqn:Hk. apply roundup_bounds in Hk; [|lia..].
    exists (Z.to_nat k). rewrite Z2Nat.id by lia. split; [done|].
    pose proof (Z.log2_spec (n - 1) ltac:(lia)) as [Hlo Hhi]. split.
    + rewrite pow128 by lia. assert (2 ^ Z.succ (Z.log2 (n - 1)) ≤ 2 ^ (7 * k));
        [apply Z.pow_le_mono_r|]; lia.
    + right. rewrite pow128 by lia. assert (2 ^ (7 * (k - 1)) ≤ 2 ^ Z.log2 (n - 1));
        [apply Z.pow_le_mono_r|]; lia.
Qed.

(** The largest size for which the height can be computed without overflow. *)
Definition max_height_size : Z := u64_limit - 2 ^ 19 - 1.
#[global] Program Instance zify_max_height_size : CstOp max_height_size := {| TCst := 18446744073709027327 |}.
Next Obligation. reflexivity. Qed.
Add Zify CstOp zify_max_height_size.

Lemma merkle_tree_height_spec {E} size :
  0 < size ≤ max_height_size →
  ∃ k : nat, merkle_tree_height (E := E) size = Ok (Some (Z.of_nat k)) ∧ is_height size k.
Proof.
  intros Hs. unfold max_height_size, u64_limit in Hs. unfold merkle_tree_height.
  change (hashes_per_node * CHUNK_SIZE) with 524288.
  rewrite divide_roundup_Ok by (unfold u64_limit; lia). cbn [mbind outcome_bind].
  remember ((size + 524288 - 1) / 524288) as p eqn:Hp. apply roundup_bounds in Hp; [|lia..].
  destruct (log128_ceil_spec (E := E) p) as (k & -> & Hle & Hgt); [unfold u64_limit; lia|].
  exists k. split; [done|]. unfold is_height, CHUNK_SIZE.
  rewrite Z.pow_add_r by lia. split; [lia|]. destruct Hgt as [Hgt|Hgt]; [by left|].
  destruct k as [|k]; [by left|right].
  replace (Z.of_nat (S k)) with (Z.of_nat k + 1) in * by lia.
  rewrite Z.pow_add_r by lia. replace (Z.of_nat k + 1 - 1) with (Z.of_nat k) in Hgt by lia. lia.
Qed.

Lemma is_height_unique size j k : is_height size j → is_height size k → j = k.
Proof.
  unfold is_height, CHUNK_SIZE. intros [Hj1 Hj2] [Hk1 Hk2].
  destruct (lt_eq_lt_dec j k) as [[Hlt|]|Hlt]; [|done|].
  - assert (128 ^ (Z.of_nat j + 1) ≤ 128 ^ Z.of_nat k) by (apply Z.pow_le_mono_r; lia). lia.
  - assert (128 ^ (Z.of_nat k + 1) ≤ 128 ^ Z.of_nat j) by (apply Z.pow_le_mono_r; lia). lia.
Qed.

(** ** The descriptor *)

(** [struct fsverity_descriptor] with the fields the program sets. *)
Definition descriptor (root_hash : list byte) (file_size : Z) : list byte :=
  to_le_bytes 1 FS_VERITY_VERSION ++ to_le_bytes 1 FS_VERITY_HASH_ALG_SHA256 ++
  to_le_bytes 1 FS_VERITY_LOG_BLOCKSIZE ++ to_le_bytes 1 0 ++ to_le_bytes 4 0 ++
  to_le_bytes 8 file_size ++ root_hash ++ zeros 208.

Section digest_spec.
Context `{!Sha256FFI, !Sha256Spec}.

Lemma build_fsverity_digest_spec root_hash file_size :
  build_fsverity_digest root_hash file_size = Ok (sha256 (descriptor root_hash file_size)).
Proof. unfold build_fsverity_digest. hash_steps. done. Qed.

Lemma descriptor_inj r1 s1 r2 s2 :
  length r1 = length r2 → is_u64 s1 → is_u64 s2 →
  descriptor r1 s1 = descriptor r2 s2 → r1 = r2 ∧ s1 = s2.
Proof.
  intros Hl Hs1 Hs2 Hd. unfold descriptor in Hd.
  do 5 apply app_inv_head in Hd.
  apply app_inj_1 in Hd as [Hs Hr]; [|by rewrite !length_to_le_bytes].
  apply app_inj_1 in Hr as [-> _]; [|done]. split; [done|].
  apply to_le_bytes_inj in Hs; done.
Qed.
End digest_spec.

(** ** The height as a least number *)

(** The height of the tree is the least that covers the file.  For every size that does not
    overflow, the logarithm computed with leading zeros is the number of levels such that the
    root page covers the file and a tree one level lower would not; an empty file has none. *)
Lemma merkle_tree_height_least {E} size :
  0 ≤ size ≤ max_height_size →
  if decide (size = 0) then merkle_tree_height (E := E) size = Ok None
  else ∃ k : nat, merkle_tree_height (E := E) size = Ok (Some (Z.of_nat k)) ∧
         ∀ j : nat, size ≤ CHUNK_SIZE * 128 ^ (Z.of_nat j + 1) ↔ (k ≤ j)%nat.
Proof.
  intros Hs. case_decide as Hz; [by rewrite Hz|].
  destruct (merkle_tree_height_spec (E := E) size) as (k & Hk & Hhi & Hlo); [lia|].
  exists k. split; [done|]. intros j. split.
  - intros Hj. destruct Hlo as [->|Hlo]; [lia|]. destruct (decide (k ≤ j)%nat); [done|].
    assert (128 ^ (Z.of_nat j + 1) ≤ 128 ^ Z.of_nat k) by (apply Z.pow_le_mono_r; lia). lia.
  - intros Hj. assert (128 ^ (Z.of_nat k + 1) ≤ 128 ^ (Z.of_nat j + 1)); [|lia].
    apply Z.pow_le_mono_r; lia.
Qed.

Lemma merkle_tree_height_least_example :
  if decide (524289 = 0) then merkle_tree_height (E := unit) 524289 = Ok None
  else ∃ k : nat, merkle_tree_height (E := unit) 524289 = Ok (Some (Z.of_nat k)) ∧
         ∀ j : nat, 524289 ≤ CHUNK_SIZE * 128 ^ (Z.of_nat j + 1) ↔ (k ≤ j)%nat.
Proof. apply (merkle_tree_height_least 524289). lia. Defined.
