(* ===== verification/Merkle.v ===== *)
(** * The fs-verity Merkle tree, as a specification

    The tree over a file's contents, defined from the fs-verity documentation
    and independently of the sources: data blocks are padded with zeros and
    hashed; the hashes are packed 128 to a page, the last page padded with
    zeros; pages are hashed in turn until one hash is left.  The builder and
    the verifier are proved against these definitions. *)
From S2P Require Import Prelude RustInt Crypto Common Fsverity.

(** Sizes as natural numbers: a block, a hash, the hashes of a page. *)
Definition csz : nat := Z.to_nat CHUNK_SIZE.
Definition hsz : nat := Z.to_nat HASH_SIZE.
Definition hpp : nat := Z.to_nat hashes_per_node.

Lemma csz_eq : Z.of_nat csz = 4096.
Proof. done. Qed.
Lemma hsz_eq : Z.of_nat hsz = 32.
Proof. done. Qed.
Lemma hpp_eq : Z.of_nat hpp = 128.
Proof. done. Qed.
#[global] Program Instance zify_csz : CstOp csz := {| TCst := 4096 |}.
Next Obligation. reflexivity. Qed.
Add Zify CstOp zify_csz.
#[global] Program Instance zify_hsz : CstOp hsz := {| TCst := 32 |}.
Next Obligation. reflexivity. Qed.
Add Zify CstOp zify_hsz.
#[global] Program Instance zify_hpp : CstOp hpp := {| TCst := 128 |}.
Next Obligation. reflexivity. Qed.
Add Zify CstOp zify_hpp.
#[global] Opaque csz hsz hpp.

Section merkle.
Context `{!Sha256FFI, !Sha256Spec}.
Implicit Types (c : list byte) (hs : list (list byte)).

(** The hash of each data block. *)
Definition leaf_hashes c : list (list byte) :=
  (λ b, sha256 (pad_to csz b)) <$> chunks csz c.

(** A page of hashes. *)
Definition page hs : list byte := pad_to csz (concat hs).
Definition pages hs : list (list byte) := page <$> chunks hpp hs.
Definition hash_pages hs : list (list byte) := sha256 <$> pages hs.

(** The hashes [k] levels above [hs]. *)
Definition level_up (k : nat) hs : list (list byte) := Nat.iter k hash_pages hs.

(** The root hash: one hash is its own root, no hash has the root of zeros. *)
Fixpoint reduce (fuel : nat) hs : list byte :=
  match hs with
  | [] => zeros HASH_SIZE
  | [h] => h
  | _ => match fuel with
         | O => zeros HASH_SIZE
         | S fuel => reduce fuel (hash_pages hs)
         end
  end.
Definition fsverity_root c : list byte := reduce (length (leaf_hashes c)) (leaf_hashes c).

(** The digest that gets signed. *)
Definition fsverity_digest c : list byte := sha256 (descriptor (fsverity_root c) (zlen c)).

(** ** Block and page arithmetic *)

Definition all_hashes hs : Prop := Forall (λ h, length h = hsz) hs.

Lemma length_leaf_hashes c : zlen (leaf_hashes c) = (zlen c + 4096 - 1) / 4096.
Proof.
  unfold leaf_hashes. rewrite length_fmap, length_chunks by lia. by rewrite csz_eq.
Qed.

Lemma lookup_leaf_hashes c i :
  leaf_hashes c !! i =
    if decide (i * csz < length c)%nat then Some (sha256 (window c (i * csz) csz)) else None.
Proof.
  unfold leaf_hashes. rewrite list_lookup_fmap, lookup_chunks by lia.
  case_decide; simpl; [by rewrite pad_to_chunk|done].
Qed.

Lemma all_hashes_leaf_hashes c : all_hashes (leaf_hashes c).
Proof. apply Forall_fmap, Forall_forall. intros b _. apply length_sha256. Qed.

Lemma all_hashes_hash_pages hs : all_hashes (hash_pages hs).
Proof. apply Forall_fmap, Forall_forall. intros b _. apply length_sha256. Qed.

Lemma all_hashes_level_up k hs : all_hashes hs → all_hashes (level_up k hs).
Proof. destruct k; [done|]. intros _. apply all_hashes_hash_pages. Qed.

Lemma length_hash_pages hs : zlen (hash_pages hs) = (zlen hs + 128 - 1) / 128.
Proof.
  unfold hash_pages, pages. rewrite !length_fmap, length_chunks by lia. by rewrite hpp_eq.
Qed.

Lemma length_level_up k hs :
  zlen (level_up k hs) = (zlen hs + 128 ^ Z.of_nat k - 1) / 128 ^ Z.of_nat k.
Proof.
  induction k as [|k IH].
  - change (128 ^ Z.of_nat 0) with 1. rewrite Z.div_1_r. simpl. lia.
  - simpl. fold (level_up k hs). rewrite length_hash_pages, IH.
    rewrite Nat2Z.inj_succ, Z.pow_succ_r by lia.
    assert (0 < 128 ^ Z.of_nat k) by (apply Z.pow_pos_nonneg; lia).
    remember ((zlen hs + 128 ^ Z.of_nat k - 1) / 128 ^ Z.of_nat k) as a eqn:Ha.
    remember ((a + 128 - 1) / 128) as b eqn:Hb.
    apply roundup_bounds in Ha; [|lia..]. assert (0 ≤ a) by nia.
    apply roundup_bounds in Hb; [|lia..]. apply roundup_bounds; [lia..|].
    assert ((b - 1) * 128 * 128 ^ Z.of_nat k ≤ (a - 1) * 128 ^ Z.of_nat k)
      by (apply Z.mul_le_mono_nonneg_r; lia).
    assert (a * 128 ^ Z.of_nat k ≤ b * 128 * 128 ^ Z.of_nat k)
      by (apply Z.mul_le_mono_nonneg_r; lia).
    lia.
Qed.

Lemma lookup_hash_pages hs i :
  hash_pages hs !! i =
    if decide (i * hpp < length hs)%nat
    then Some (sha256 (page (take hpp (drop (i * hpp) hs)))) else None.
Proof.
  unfold hash_pages, pages. rewrite !list_lookup_fmap, lookup_chunks by lia. by case_decide.
Qed.

Lemma length_concat_hashes hs : all_hashes hs → length (concat hs) = (length hs * hsz)%nat.
Proof. induction 1 as [|h hs Hh _ IH]; simpl; [done|]. rewrite length_app, Hh, IH. lia. Qed.

Lemma length_page hs :
  all_hashes hs → (length hs ≤ hpp)%nat → length (page hs) = csz.
Proof.
  intros Hh Hl. unfold page. apply length_pad_to. rewrite length_concat_hashes by done. nia.
Qed.

(** The hash at position [j] of a page. *)
Lemma page_lookup hs j h :
  all_hashes hs → hs !! j = Some h → take hsz (drop (j * hsz) (page hs)) = h.
Proof.
  intros Hh Hj. unfold page, pad_to.
  apply list_elem_of_split_length in Hj as (l1 & l2 & -> & ->).
  apply Forall_app in Hh as [Ht [Hlh _]%Forall_cons_1].
  rewrite concat_app. cbn [concat]. rewrite <- !(assoc_L (++)).
  rewrite drop_app_length' by (by rewrite length_concat_hashes).
  by rewrite take_app_length'.
Qed.

Lemma all_hashes_take n hs : all_hashes hs → all_hashes (take n hs).
Proof. apply Forall_take. Qed.
Lemma all_hashes_drop n hs : all_hashes hs → all_hashes (drop n hs).
Proof. apply Forall_drop. Qed.
#[local] Hint Resolve all_hashes_take all_hashes_drop all_hashes_level_up
  all_hashes_leaf_hashes all_hashes_hash_pages : core.

(** ** The root *)

Lemma reduce_level_up k fuel hs :
  128 ^ Z.of_nat k < zlen hs ≤ 128 ^ (Z.of_nat k + 1) → (k < fuel)%nat →
  level_up (S k) hs = [reduce fuel hs].
Proof.
  revert fuel hs. induction k as [|k IH]; intros fuel hs Hn Hf.
  - destruct fuel as [|fuel]; [lia|]. change (Z.of_nat 0) with 0 in Hn. simpl in Hn.
    pose proof (length_hash_pages hs) as Hl.
    assert (length (hash_pages hs) = 1%nat) as Hl1.
    { apply Nat2Z.inj. rewrite Hl. symmetry. apply roundup_bounds; lia. }
    destruct hs as [|h [|h' hs]]; [simpl in *; lia..|].
    cbn [reduce level_up Nat.iter nat_rect].
    destruct (hash_pages _) as [|x [|y l]]; try done. by destruct fuel.
  - destruct fuel as [|fuel]; [lia|].
    assert (128 ^ 1 ≤ 128 ^ Z.of_nat (S k)) by (apply Z.pow_le_mono_r; lia).
    destruct hs as [|h [|h' hs]]; [simpl in *; lia..|]. cbn [reduce].
    rewrite <- (IH fuel (hash_pages (h :: h' :: hs))); [|clear IH|lia].
    + unfold level_up. by rewrite <- Nat.iter_succ_r.
    + rewrite length_hash_pages. remember (zlen (h :: h' :: hs)) as n. clear Heqn.
      remember ((n + 128 - 1) / 128) as m eqn:Hm. apply roundup_bounds in Hm; [|lia..].
      rewrite Nat2Z.inj_succ in Hn. unfold Z.succ in Hn. rewrite !Z.pow_add_r in Hn by lia.
      rewrite Z.pow_add_r by lia. lia.
Qed.

(** A file of more than one block: the root is what the page levels end in. *)
Lemma fsverity_root_level_up c k :
  CHUNK_SIZE < zlen c → is_height (zlen c) k →
  level_up (S k) (leaf_hashes c) = [fsverity_root c].
Proof.
  unfold is_height, CHUNK_SIZE. intros Hc [Hhi Hlo].
  pose proof (length_leaf_hashes c) as Hn. apply roundup_bounds in Hn; [|lia..].
  rewrite Z.pow_add_r in Hhi by lia.
  assert (128 ^ Z.of_nat k < zlen (leaf_hashes c) ≤ 128 ^ (Z.of_nat k + 1)) as Hb.
  { rewrite Z.pow_add_r by lia. split; [|lia].
    destruct Hlo as [->|Hlo]; [change (128 ^ Z.of_nat 0) with 1|]; lia. }
  apply reduce_level_up; [done|].
  pose proof (Z.pow_gt_lin_r 128 (Z.of_nat k) ltac:(lia) ltac:(lia)). lia.
Qed.

Lemma fsverity_root_one c :
  0 < zlen c ≤ CHUNK_SIZE → fsverity_root c = sha256 (pad_to csz c).
Proof.
  intros Hc. unfold fsverity_root, leaf_hashes. rewrite chunks_small by lia. done.
Qed.
End merkle.
