(* ===== verification/Builder.v ===== *)
(** * The in-memory Merkle tree (authfs/src/fsverity/builder.rs)

    [MerkleLeaves] keeps the leaf hashes of a file that is being written and
    computes the fs-verity digest on request. *)
From S2P Require Import Prelude RustInt Crypto Common Fsverity Merkle.

Definition HASH_PER_PAGE : Z := CHUNK_SIZE / HASH_SIZE.
#[global] Program Instance zify_HASH_PER_PAGE : CstOp HASH_PER_PAGE := {| TCst := 128 |}.
Next Obligation. reflexivity. Qed.
Add Zify CstOp zify_HASH_PER_PAGE.

Record MerkleLeaves := {
  leaves : list (list byte);
  file_size : Z;
}.

(** [From<CryptoError> for FsverityError]. *)
Definition crypto_fsverity {A} (m : outcome CryptoError A) : outcome FsverityError A :=
  map_err UnexpectedCryptoError m.

Section ops.
Context `{!Sha256FFI}.
Import Sha256Hasher.

Definition hash_all_pages (source : list (list byte)) : outcome CryptoError (list (list byte)) :=
  mapM (λ chunk,
    let padding_bytes := (HASH_PER_PAGE - zlen chunk) * HASH_SIZE in
    h ← new;
    h ← update_from h chunk;
    h ← update h (zeros padding_bytes);
    finalize h) (chunks (Z.to_nat HASH_PER_PAGE) source).

(** [(1..=level).try_fold(hashes, |source, _| hash_all_pages(&source))]. *)
Fixpoint hash_levels (level : nat) (source : list (list byte))
    : outcome CryptoError (list (list byte)) :=
  match level with
  | O => Ok source
  | S level => source ← hash_all_pages source; hash_levels level source
  end.
End ops.

Module MerkleLeaves.
Section impl.
Context `{!Sha256FFI} {bm : BuildMode}.

Definition new : MerkleLeaves := {| leaves := []; file_size := 0 |}.

Definition resize {E} (self : MerkleLeaves) (new_file_size : Z) : outcome E MerkleLeaves :=
  leaves_size ← divide_roundup new_file_size CHUNK_SIZE;
  Ok {| leaves := vec_resize (Z.to_nat leaves_size) HASH_OF_4096_ZEROS (leaves self);
        file_size := new_file_size |}.

Definition update_hash {E} (self : MerkleLeaves) (index : Z) (hash : list byte) (size_at_least : Z)
    : outcome E MerkleLeaves :=
  index1 ← u64_add index 1;
  let ls := if zlen (leaves self) <? index1
            then vec_resize (Z.to_nat index1) HASH_OF_4096_ZEROS (leaves self)
            else leaves self in
  Ok {| leaves := <[Z.to_nat index := hash]> ls;
        file_size := if file_size self <? size_at_least then size_at_least else file_size self |}.

Definition is_index_valid (self : MerkleLeaves) (index : Z) : bool :=
  index <? zlen (leaves self).

Definition is_consistent (self : MerkleLeaves) (index : Z) (hash : list byte) : bool :=
  match leaves self !! Z.to_nat index with
  | Some element => bool_decide (element = hash)
  | None => false
  end.

Definition calculate_root_hash (self : MerkleLeaves) : outcome FsverityError (list byte) :=
  match leaves self with
  | [] =>
      debug_assert (Ok (file_size self =? 0));;
      Ok (zeros HASH_SIZE)
  | [leaf] =>
      debug_assert (Ok ((file_size self <=? CHUNK_SIZE) && (0 <? file_size self)));;
      Ok leaf
  | ls =>
      let n := zlen ls in
      debug_assert (last_byte ← u64_sub (file_size self) 1; Ok (last_byte / CHUNK_SIZE =? n));;
      size_for_equivalent ← u64_mul n CHUNK_SIZE;
      level ← merkle_tree_height size_for_equivalent ≫= unwrap;
      second_level ← crypto_fsverity (hash_all_pages ls);
      hashes ← crypto_fsverity (hash_levels (Z.to_nat level) second_level);
      match hashes with
      | [root] => Ok root
      | _ => Err InvalidState
      end
  end.

Definition calculate_fsverity_digest (self : MerkleLeaves) : outcome FsverityError (list byte) :=
  root_hash ← calculate_root_hash self;
  crypto_fsverity (build_fsverity_digest root_hash (file_size self)).
End impl.
End MerkleLeaves.

(** ** Invariant and abstraction *)

(** One leaf per block of the file. *)
Definition leaves_wf (t : MerkleLeaves) : Prop :=
  0 ≤ file_size t ∧ zlen (leaves t) = (file_size t + 4096 - 1) / 4096.

Section spec.
Context `{!Sha256FFI, !Sha256Spec}.

(** The tree holds the leaf hashes and the size of the contents [c]. *)
Definition represents (t : MerkleLeaves) (c : list byte) : Prop :=
  leaves t = leaf_hashes c ∧ file_size t = zlen c.

Lemma represents_wf t c : represents t c → leaves_wf t.
Proof. intros [Hl Hs]. split; [lia|]. by rewrite Hl, Hs, length_leaf_hashes. Qed.

(** ** Hashing pages *)

Lemma hash_all_pages_spec hs :
  all_hashes hs → hash_all_pages hs = Ok (hash_pages hs).
Proof.
  intros Hh. unfold hash_all_pages, hash_pages, pages.
  change (Z.to_nat HASH_PER_PAGE) with hpp.
  assert (Forall (λ ch, all_hashes ch ∧ (length ch ≤ hpp)%nat) (chunks hpp hs)) as Hc.
  { apply Forall_lookup. intros i ch. rewrite lookup_chunks by lia. case_decide; [|done].
    intros [= <-]. split; [by apply all_hashes_take, all_hashes_drop|].
    rewrite length_take. lia. }
  rewrite <- list_fmap_compose. apply mapM_Ok. eapply Forall_impl; [exact Hc|].
  intros ch [Hch Hlen]. hash_steps. simpl. do 2 f_equal. unfold page, pad_to. f_equal.
  unfold zeros. f_equal. rewrite length_concat_hashes by done. lia.
Qed.

Lemma hash_levels_spec k hs :
  all_hashes hs → hash_levels k hs = Ok (level_up k hs).
Proof.
  revert hs. induction k as [|k IH]; intros hs Hh; [done|]. cbn [hash_levels].
  rewrite hash_all_pages_spec by done. cbn [mbind outcome_bind].
  rewrite IH by apply all_hashes_hash_pages. unfold level_up. by rewrite <- Nat.iter_succ_r.
Qed.

(** ** The root hash *)

(** In a release build the root of any well-sized list of leaves is the
    reduction of the list: [InvalidState] is never returned. *)
Lemma calculate_root_hash_reduce t :
  all_hashes (leaves t) → zlen (leaves t) * CHUNK_SIZE ≤ max_height_size →
  MerkleLeaves.calculate_root_hash (bm := release) t = Ok (reduce (length (leaves t)) (leaves t)).
Proof.
  intros Hh Hb. unfold MerkleLeaves.calculate_root_hash.
  destruct (leaves t) as [|h [|h' hs]] eqn:Hls; [done..|].
  rewrite <- Hls in *. assert (2 ≤ zlen (leaves t)) by (rewrite Hls; simpl; lia).
  clear Hls h h' hs. unfold CHUNK_SIZE in *. cbn [mbind outcome_bind].
  unfold max_height_size, u64_limit in Hb. rewrite u64_mul_Ok by (unfold u64_limit; lia).
  cbn [mbind outcome_bind].
  destruct (merkle_tree_height_spec (E := FsverityError) (zlen (leaves t) * 4096))
    as (k & -> & [Hhi Hlo]); [unfold max_height_size, u64_limit; lia|].
  cbn [mbind outcome_bind unwrap]. rewrite hash_all_pages_spec by done.
  cbn [mbind outcome_bind crypto_fsverity map_err].
  rewrite Nat2Z.id, hash_levels_spec by apply all_hashes_hash_pages.
  cbn [mbind outcome_bind crypto_fsverity map_err].
  replace (level_up k (hash_pages (leaves t))) with (level_up (S k) (leaves t))
    by (unfold level_up; by rewrite Nat.iter_succ_r).
  unfold CHUNK_SIZE in *. rewrite (reduce_level_up k (length (leaves t))); [done|..].
  - destruct Hlo as [->|Hlo]; [change (128 ^ Z.of_nat 0) with 1|]; lia.
  - destruct Hlo as [->|Hlo]; [lia|].
    pose proof (Z.pow_gt_lin_r 128 (Z.of_nat k) ltac:(lia) ltac:(lia)). lia.
Qed.

Lemma calculate_fsverity_digest_represents t c :
  represents t c → zlen c + CHUNK_SIZE ≤ max_height_size →
  MerkleLeaves.calculate_fsverity_digest (bm := release) t = Ok (fsverity_digest c).
Proof.
  intros [Hl Hs] Hb. unfold MerkleLeaves.calculate_fsverity_digest, fsverity_digest, fsverity_root.
  rewrite calculate_root_hash_reduce; rewrite Hl.
  - cbn [mbind outcome_bind]. by rewrite build_fsverity_digest_spec, Hs.
  - apply all_hashes_leaf_hashes.
  - rewrite length_leaf_hashes. unfold CHUNK_SIZE in *.
    pose proof (Z.mul_div_le (zlen c + 4096 - 1) 4096). lia.
Qed.

(** ** Debug builds *)
Lemma calculate_root_hash_debug t :
  leaves_wf t → CHUNK_SIZE < file_size t →
  MerkleLeaves.calculate_root_hash (bm := debug_build) t = Panic.
Proof.
  intros [Hs Hw] Hbig. unfold CHUNK_SIZE in *. unfold MerkleLeaves.calculate_root_hash.
  apply roundup_bounds in Hw; [|lia..].
  destruct (leaves t) as [|h [|h' hs]] eqn:Hls; [simpl in *; lia..|].
  unfold debug_assert. cbn [debug_assertions debug_build].
  rewrite u64_sub_Ok by lia. cbn [mbind outcome_bind]. unfold rassert, CHUNK_SIZE.
  rewrite (proj2 (Z.eqb_neq _ _)); [done|].
  intros Heq. pose proof (Z.div_lt_upper_bound (file_size t - 1) 4096 (zlen (h :: h' :: hs))). lia.
Qed.

(** ** Updates *)

Lemma leaf_hashes_ext (l : list (list byte)) c :
  (∀ i, l !! i = if decide (i * csz < length c)%nat
                 then Some (sha256 (window c (i * csz) csz)) else None) →
  l = leaf_hashes c.
Proof. intros Hi. apply list_eq. intros i. by rewrite Hi, lookup_leaf_hashes. Qed.

Lemma window_past_end c p n : (length c ≤ p)%nat → window c p n = replicate n zero.
Proof.
  intros Hp. apply list_eq. intros j. rewrite lookup_window. case_decide.
  - rewrite byte_at_ge by lia. by rewrite lookup_replicate_2.
  - by rewrite lookup_ge_None_2 by (rewrite length_replicate; lia).
Qed.

Lemma sha256_hole c p : (length c ≤ p)%nat → sha256 (window c p csz) = HASH_OF_4096_ZEROS.
Proof. intros Hp. rewrite window_past_end by done. apply sha256_zeros. Qed.

(** The hash stored for block [i] by default. *)
Lemma default_leaf c i :
  default HASH_OF_4096_ZEROS (leaf_hashes c !! i) = sha256 (window c (i * csz) csz).
Proof.
  rewrite lookup_leaf_hashes. case_decide; simpl; [done|]. by rewrite sha256_hole by lia.
Qed.

Lemma lookup_update_hash {E} t idx h sz t' i :
  0 ≤ idx → MerkleLeaves.update_hash (E := E) t idx h sz = Ok t' →
  leaves t' !! i =
    if decide (i = Z.to_nat idx) then Some h
    else if decide (i < Nat.max (length (leaves t)) (S (Z.to_nat idx)))%nat
         then Some (default HASH_OF_4096_ZEROS (leaves t !! i)) else None.
Proof.
  intros Hidx. unfold MerkleLeaves.update_hash. intros Hu. inv_bind. subst.
  unfold u64_add in Hr. destruct (Z.ltb_spec (idx + 1) u64_limit); [|done]. simplify_eq. simpl.
  destruct (Z.ltb_spec (zlen (leaves t)) (idx + 1)).
  - rewrite list_lookup_insert, length_vec_resize, lookup_vec_resize.
    repeat case_decide; try done; lia.
  - rewrite list_lookup_insert. repeat case_decide; try done; try lia.
    + by destruct (lookup_lt_is_Some_2 (leaves t) i ltac:(lia)) as [? ->].
    + by rewrite lookup_ge_None_2 by lia.
Qed.
End spec.

(** ** Claims *)
Section claims.
Context `{!Sha256FFI, !Sha256Spec}.

(** C15: The builder computes the fs-verity digest.  When the leaves are those of some contents,
    the level-by-level reduction ends in exactly one hash, so [InvalidState] is not returned,
    nothing overflows, and the digest is that of the fs-verity definition of the contents. *)
Theorem builder_digest_is_fsverity t c :
  represents t c → zlen c + CHUNK_SIZE ≤ max_height_size →
  MerkleLeaves.calculate_root_hash (bm := release) t = Ok (fsverity_root c) ∧
  MerkleLeaves.calculate_fsverity_digest (bm := release) t = Ok (fsverity_digest c).
Proof.
  intros Hrep Hb. split; [|by apply calculate_fsverity_digest_represents].
  destruct Hrep as [Hl Hs]. unfold fsverity_root. rewrite <- Hl.
  apply calculate_root_hash_reduce; rewrite Hl; [apply all_hashes_leaf_hashes|].
  rewrite length_leaf_hashes. pose proof (Z.mul_div_le (zlen c + 4096 - 1) 4096). lia.
Qed.

(** C40: Debug builds cannot hash a file of more than one block.  The assertion on the number of
    leaves is off by one: it fails for every well-formed tree of two leaves or more. *)
Theorem builder_debug_assertion_fails t :
  leaves_wf t → CHUNK_SIZE < file_size t →
  MerkleLeaves.calculate_fsverity_digest (bm := debug_build) t = Panic.
Proof.
  intros Hw Hs. unfold MerkleLeaves.calculate_fsverity_digest.
  by rewrite calculate_root_hash_debug.
Qed.
End claims.

Section instances.
#[local] Existing Instances boringssl boringssl_spec.

Definition two_leaves : MerkleLeaves :=
  {| leaves := [HASH_OF_4096_ZEROS; HASH_OF_4096_ZEROS]; file_size := 8192 |}.

Lemma two_leaves_represents : represents two_leaves (zeros 8192).
Proof.
  split; [|unfold zeros; by rewrite length_replicate].
  apply leaf_hashes_ext. intros i.
  rewrite (window_ext (zeros 8192) [] (i * csz) (i * csz))
    by (intros; unfold zeros; by rewrite byte_at_replicate, byte_at_ge by (simpl; lia)).
  rewrite sha256_hole by (simpl; lia). unfold zeros. rewrite length_replicate.
  destruct i as [|[|i]]; case_decide; simpl; try done; lia.
Qed.

Lemma builder_digest_is_fsverity_witness :
  MerkleLeaves.calculate_root_hash (bm := release) two_leaves = Ok (fsverity_root (zeros 8192)) ∧
  MerkleLeaves.calculate_fsverity_digest (bm := release) two_leaves =
    Ok (fsverity_digest (zeros 8192)).
Proof.
  apply (builder_digest_is_fsverity two_leaves (zeros 8192)).
  - exact two_leaves_represents.
  - unfold zeros. rewrite length_replicate. lia.
Defined.

Lemma builder_debug_assertion_fails_witness :
  MerkleLeaves.calculate_fsverity_digest (bm := debug_build) two_leaves = Panic.
Proof.
  apply (builder_debug_assertion_fails two_leaves).
  - split; [simpl; lia|reflexivity].
  - reflexivity.
Defined.
End instances.
