(* ===== verification/File.v ===== *)
(** * The file traits (authfs/src/file.rs)

    [ReadByChunk] and [RandomWrite] are the interfaces between the verified
    layer and whatever stores the bytes.  [W] is the part of the world an
    implementation reads and changes: a remote service, local files, the
    lock-protected state of an editor.  The trait contracts are classes of
    laws, so that the clients are proved against them. *)
From S2P Require Import Prelude RustInt Crypto Common Fsverity Merkle.

(** [read_chunk(chunk_index, &mut buf)] returns the size read and the buffer
    it leaves behind. *)
Class ReadByChunk (W F : Type) :=
  read_chunk : F → Z → list byte → M W io_error (Z * list byte).

Class RandomWrite (W F : Type) := {
  write_at : F → list byte → Z → M W io_error Z;
  resize : F → Z → M W io_error unit;
}.

(** The provided method [write_all_at].  The loop ends only when the callee
    makes progress, so the model counts its iterations. *)
Section write_all.
Context {W F : Type} `{!RandomWrite W F}.

Fixpoint write_all_loop (fuel : nat) (self : F) (buf : list byte) (input_offset output_offset : Z)
    : M W io_error unit :=
  match fuel with
  | O => lift OutOfFuel
  | S fuel =>
      if input_offset <? zlen buf
      then
        rest ← lift (slice buf input_offset (zlen buf));
        size ← write_at self rest output_offset;
        input_offset ← lift (u64_add input_offset size);
        output_offset ← lift (u64_add output_offset size);
        write_all_loop fuel self buf input_offset output_offset
      else mret tt
  end.

Definition write_all_at (fuel : nat) (self : F) (buf : list byte) (offset : Z)
    : M W io_error unit :=
  write_all_loop fuel self buf 0 offset.
End write_all.

(** ** Contracts *)

(** What the type [&mut [u8; 4096]] and the size check of every reader give,
    whoever supplies the bytes: at most a buffer's worth is read, it goes to
    the front of the buffer and the rest of the buffer is left alone. *)
Class BufferReader (W F : Type) `{!ReadByChunk W F} :=
  read_chunk_prefix f i buf w size buf' w' :
    length buf = csz → read_chunk f i buf w = (Ok (size, buf'), w') →
    ∃ data, zlen data = size ∧ (length data ≤ csz)%nat ∧
            buf' = data ++ drop (length data) buf.

(** The documented contract on honest storage: chunk [i] of the contents, all
    of it but for the last, incomplete one.  [content] is defined for the
    files that are open. *)
Class HonestReader (W F : Type) `{!ReadByChunk W F} (content : F → W → option (list byte)) :=
  read_chunk_honest f i buf w c :
    content f w = Some c →
    length buf = csz → 0 ≤ i → zlen c ≤ i64_max → i * CHUNK_SIZE < zlen c →
    let chunk := take csz (drop (Z.to_nat i * csz) c) in
    read_chunk f i buf w = (Ok (zlen chunk, copy_prefix (length chunk) chunk buf), w).

(** "Reading beyond the file size (including empty file) should return 0." *)
Class ReadsNothingBeyond (W F : Type) `{!ReadByChunk W F} (content : F → W → option (list byte)) :=
  read_chunk_beyond f i buf w c :
    content f w = Some c → length buf = csz → 0 ≤ i → i * CHUNK_SIZE ≤ i64_max →
    zlen c ≤ i * CHUNK_SIZE → read_chunk f i buf w = (Ok (0, buf), w).

(** Honest storage: a write stores a non-empty prefix of a non-empty buffer,
    of a size that fits the service's [i32], at the offset; a resize truncates or extends with zeros. *)
Class HonestWriter (W F : Type) `{!RandomWrite W F} (content : F → W → option (list byte)) := {
  write_at_honest f buf off w c :
    content f w = Some c → buf ≠ [] → zlen buf ≤ i32_max → 0 ≤ off → off + zlen buf ≤ i64_max →
    ∃ n w', write_at f buf off w = (Ok (Z.of_nat n), w') ∧ (0 < n ≤ length buf)%nat ∧
            content f w' = Some (overwrite c (Z.to_nat off) (take n buf));
  resize_honest f n w c :
    content f w = Some c → 0 ≤ n ≤ i64_max →
    ∃ w', resize f n w = (Ok tt, w') ∧ content f w' = Some (set_length c (Z.to_nat n));
}.

Lemma zero_buffer_prefix data :
  (length data ≤ csz)%nat → data ++ drop (length data) (zeros CHUNK_SIZE) = pad_to csz data.
Proof. intros. unfold pad_to, zeros. by rewrite drop_replicate. Qed.

Lemma length_zero_buffer : length (zeros CHUNK_SIZE) = csz.
Proof. unfold zeros. by rewrite length_replicate. Qed.

(** On a zeroed buffer an honest read leaves the padded chunk. *)
Lemma read_chunk_honest_zeros {W F} `{!ReadByChunk W F} content `{!HonestReader W F content} f i w c :
  content f w = Some c → 0 ≤ i → zlen c ≤ i64_max → i * CHUNK_SIZE < zlen c →
  read_chunk f i (zeros CHUNK_SIZE) w =
    (Ok (zlen (take csz (drop (Z.to_nat i * csz) c)), window c (Z.to_nat i * csz) csz), w).
Proof.
  intros Hf Hi Hc Hb. rewrite (read_chunk_honest (content := content) _ _ _ _ c)
    by (try apply length_zero_buffer; done).
  rewrite <- pad_to_chunk. unfold copy_prefix.
  rewrite firstn_all. by rewrite zero_buffer_prefix by (rewrite length_take; lia).
Qed.

(** ** [write_all_at] *)
Section write_all_spec.
Context {W F : Type} `{!RandomWrite W F} (content : F → W → option (list byte)).
Context `{!HonestWriter W F content}.

Lemma write_all_loop_honest fuel f buf n off w c :
  content f w = Some c → zlen buf ≤ i32_max →
  (n ≤ length buf)%nat → 0 ≤ off → off + zlen buf ≤ i64_max → (length buf - n < fuel)%nat →
  ∃ w', write_all_loop fuel f buf (Z.of_nat n) (off + Z.of_nat n) w = (Ok tt, w') ∧
        content f w' = Some (overwrite c (Z.to_nat off + n) (drop n buf)).
Proof.
  revert n w c. induction fuel as [|fuel IH]; intros n w c Hc Hsz Hn Ho Hb Hf; [lia|].
  cbn [write_all_loop]. destruct (Z.ltb_spec (Z.of_nat n) (zlen buf)).
  - rewrite slice_Ok by lia. rewrite bind_lift_Ok.
    rewrite Nat2Z.id, take_ge by (rewrite length_drop; lia).
    destruct (write_at_honest (content := content) f (drop n buf) (off + Z.of_nat n) w c)
      as (k & w1 & Hw & Hk & Hc1); [done| |rewrite length_drop; lia| |rewrite length_drop; lia|].
    { intros Hnil. apply (f_equal length) in Hnil. rewrite length_drop in Hnil. simpl in *. lia. }
    { lia. }
    rewrite length_drop in Hk. rewrite (M_bind_Ok _ _ _ _ _ Hw).
    rewrite !u64_add_Ok, !bind_lift_Ok by lia.
    replace (Z.of_nat n + Z.of_nat k) with (Z.of_nat (n + k)) by lia.
    replace (off + Z.of_nat n + Z.of_nat k) with (off + Z.of_nat (n + k)) by lia.
    destruct (IH (n + k)%nat w1 _ Hc1) as (w2 & Hw2 & Hc2); [lia..|].
    exists w2. split; [done|]. rewrite Hc2. f_equal.
    replace (Z.to_nat (off + Z.of_nat n)) with (Z.to_nat off + n)%nat by lia.
    trans (overwrite c (Z.to_nat off + n)
             (take k (drop n buf) ++ drop k (drop n buf))); [|by rewrite take_drop].
    rewrite <- overwrite_app, drop_drop, length_take, length_drop. f_equal. lia.
  - exists w. split; [done|]. rewrite drop_ge by lia. done.
Qed.

(** The loop ends and stores the whole buffer when each call stores at least
    one byte. *)
Lemma write_all_at_honest fuel f buf off w c :
  content f w = Some c → zlen buf ≤ i32_max → 0 ≤ off → off + zlen buf ≤ i64_max →
  (length buf < fuel)%nat →
  ∃ w', write_all_at fuel f buf off w = (Ok tt, w') ∧
        content f w' = Some (overwrite c (Z.to_nat off) buf).
Proof.
  intros Hc Hsz Ho Hb Hf.
  destruct (write_all_loop_honest fuel f buf 0 off w c) as (w' & Hw & Hc'); [done|lia..|].
  exists w'. unfold write_all_at. rewrite Z.add_0_r, Nat.add_0_r in *. by rewrite drop_0 in Hc'.
Qed.
End write_all_spec.

(** A storage that accepts no byte is asked for ever. *)
Lemma write_all_stuck {W F} `{!RandomWrite W F} fuel (f : F) buf off (w : W) :
  buf ≠ [] → 0 ≤ off < u64_limit → (∀ b o, write_at f b o w = (Ok 0, w)) →
  write_all_at fuel f buf off w = (OutOfFuel, w).
Proof.
  intros Hb Ho Hw. unfold write_all_at. assert (0 < length buf)%nat by (destruct buf; [done|simpl; lia]).
  induction fuel as [|fuel IH]; [done|]. cbn [write_all_loop].
  rewrite (proj2 (Z.ltb_lt _ _)), slice_Ok, bind_lift_Ok by lia.
  rewrite (M_bind_Ok _ _ _ _ _ (Hw _ _)), !u64_add_Ok, !bind_lift_Ok by lia.
  by rewrite Z.add_0_r, Z.add_0_r.
Qed.
