(* ===== verification/Os.v ===== *)
(** * Operating-system files

    The part of [std::fs::File] and [std::os::unix::fs::FileExt] that the
    sources use, on open file descriptors.  [FileOps] is the interface, so
    that the code above it can be run against any behaviour of the system,
    I/O errors included; [file_table] is the ordinary behaviour, a table of
    open files with their contents. *)
From S2P Require Import Prelude RustInt Crypto Common Fsverity.

Class FileOps (W : Type) := {
  (** [file.metadata()?.len()] *)
  file_len : Z → M W io_error Z;
  (** [file.read_exact_at(&mut buf, offset)]: the bytes that fill a buffer of
      the given length *)
  read_exact_at : Z → Z → Z → M W io_error (list byte);
  (** [file.write_at(buf, offset)] *)
  file_write_at : Z → list byte → Z → M W io_error Z;
  (** [file.set_len(size)] *)
  file_set_len : Z → Z → M W io_error unit;
  (** [fcntl(fd, F_GETFD)]: negative for a descriptor that is not open *)
  fcntl_getfd : Z → W → Z;
  (** what dropping a [File] does to its descriptor *)
  close_fd : Z → W → W;
}.

(** What the types of these functions give: a buffer is filled, sizes are
    not negative. *)
Class FileOpsTyped (W : Type) `{!FileOps W} := {
  file_len_nonneg fd w n w' : file_len fd w = (Ok n, w') → 0 ≤ n;
  read_exact_at_length fd n off w bs w' :
    0 ≤ n → read_exact_at fd n off w = (Ok bs, w') → zlen bs = n;
}.

(** ** Files in memory *)
Abbreviation file_table := (gmap Z (list byte)).

#[global] Instance file_table_ops : FileOps file_table := {|
  file_len fd t :=
    (match t !! fd with Some c => Ok (zlen c) | None => Err (OsError EBADF) end, t);
  read_exact_at fd n off t :=
    (match t !! fd with
     | Some c =>
         if (0 <=? off) && (off + n <=? zlen c) then Ok (take (Z.to_nat n) (drop (Z.to_nat off) c))
         else if n =? 0 then Ok [] else Err (KindError UnexpectedEof)
     | None => Err (OsError EBADF)
     end, t);
  file_write_at fd buf off t :=
    match t !! fd with
    | Some c => (Ok (zlen buf), <[fd := overwrite c (Z.to_nat off) buf]> t)
    | None => (Err (OsError EBADF), t)
    end;
  file_set_len fd n t :=
    match t !! fd with
    | Some c => (Ok tt, <[fd := set_length c (Z.to_nat n)]> t)
    | None => (Err (OsError EBADF), t)
    end;
  fcntl_getfd fd t := if decide (is_Some (t !! fd)) then 0 else -1;
  close_fd fd t := delete fd t;
|}.

#[global] Instance file_table_typed : FileOpsTyped file_table.
Proof.
  split.
  - intros fd t n t'. cbn. case_match; naive_solver lia.
  - intros fd n off t bs t' Hn. cbn. destruct (t !! fd) as [c|]; [|done].
    destruct (Z.leb_spec 0 off), (Z.leb_spec (off + n) (zlen c)); simpl.
    { intros [= <- <-]. rewrite length_take, length_drop. lia. }
    all: destruct (Z.eqb_spec n 0); [|done]; by intros [= <- <-]; subst.
Qed.

(** The contents of an open file. *)
Definition fd_content (fd : Z) (t : file_table) : list byte := default [] (t !! fd).

Lemma read_exact_at_table fd n off t c :
  t !! fd = Some c → 0 ≤ n → 0 ≤ off → off + n ≤ zlen c →
  read_exact_at fd n off t = (Ok (take (Z.to_nat n) (drop (Z.to_nat off) c)), t).
Proof.
  intros Hc Hn Ho Hb. unfold read_exact_at, file_table_ops. rewrite Hc.
  by rewrite !(proj2 (Z.leb_le _ _)) by lia.
Qed.
