(* ===== verification/Fuse.v ===== *)
(** * The FUSE interface

    The types of [libc] and of the fuse crate's [FileSystem] trait that the two
    file systems, authfs and zipfuse, fill in. *)
From S2P Require Import Prelude RustInt Crypto Common Fsverity.

Definition S_IFREG : Z := 0x8000.
Definition S_IFDIR : Z := 0x4000.
Definition S_IRUSR : Z := 0x100.
Definition S_IWUSR : Z := 0x80.
Definition S_IXUSR : Z := 0x40.
Definition S_IXGRP : Z := 0x8.
Definition S_IXOTH : Z := 0x1.
Definition MS_RDONLY : Z := 1.
Definition MS_NOSUID : Z := 2.
Definition MS_NODEV : Z := 4.

(** The fields of [libc::stat64] that the sources set. *)
Record stat64 := {
  st_ino : Z; st_mode : Z; st_dev : Z; st_nlink : Z; st_uid : Z; st_gid : Z; st_rdev : Z;
  st_size : Z; st_blksize : Z; st_blocks : Z;
}.

(** [std::time::Duration::new], in nanoseconds. *)
Definition duration (secs nanos : Z) : Z := secs * 1000000000 + nanos.

Record Entry := { entry_inode : Z; generation : Z; attr : stat64; entry_timeout : Z; attr_timeout : Z }.
Inductive FsOption := WRITEBACK_CACHE.
Definition FsOptions : Type := list FsOption.
Inductive OpenOptions := KEEP_CACHE | CACHE_DIR | OPEN_EMPTY.

(** [io::Write] on a destination of type [O], and [Vec<u8>] as one. *)
Class Write (O : Type) := write : list byte → M O io_error Z.
#[global] Instance Vec_write : Write (list byte) := λ bytes out, (Ok (zlen bytes), out ++ bytes).

(** ** Mounting

    [fuse::mount] and [fuse::worker::start_message_loop], which runs the handlers
    of a file system of type [FS] until the connection fails, with the error
    type of the crate. *)
Inductive MountOption :=
| FD (fd : Z) | RootMode (mode : Z) | AllowOther | UserId (id : Z) | GroupId (id : Z) | MaxRead (n : Z).

Class FuseHost (W FS FuseError : Type) := {
  open_dev_fuse : M W io_error Z;
  mount : string → string → Z → list MountOption → M W io_error unit;
  start_message_loop : Z → Z → Z → FS → M W FuseError unit;
}.

(** A host that writes down what it is asked to do.  The device is descriptor 3;
    the mount and the loop end as they are told to. *)
Inductive FuseEvent (FS : Type) :=
| Mounted (point name : string) (flags : Z) (options : list MountOption)
| Looped (dev size1 size2 : Z) (fs : FS).
Arguments Mounted {FS} _ _ _ _.
Arguments Looped {FS} _ _ _ _.

Definition recording_host {FS} (mounts : outcome io_error unit) (loop_end : outcome io_error unit)
    : FuseHost (list (FuseEvent FS)) FS io_error := {|
  open_dev_fuse := mret 3;
  mount point name flags options := λ trace,
    match mounts with
    | Ok _ => (Ok tt, trace ++ [Mounted point name flags options])
    | r => (r, trace)
    end;
  start_message_loop dev size1 size2 fs := λ trace, (loop_end, trace ++ [Looped dev size1 size2 fs]);
|}.
