(* ===== verification/Poll.v ===== *)
(** * Waiting for a mount (compos/src/compsvc_worker.rs, zipfuse/src/main.rs)

    The worker of the compilation service and the tests of zipfuse start a file
    system in another process and poll until it is mounted.  The loop is the
    same in both; it ends because the clock goes on while it sleeps. *)
From S2P Require Import Prelude RustInt Crypto Common Fsverity.

(** The type [statfs] tells, [Instant::now] and [sleep], in milliseconds. *)
Class MountEnv (W : Type) := {
  statfs_type : string → M W io_error Z;
  instant_now : W → Z;
  sleep : Z → W → W;
}.

Section poll.
Context {W E : Type} `{!MountEnv W}.

(** [loop { if ready()? { break; } if start_time.elapsed() > timeout { bail!(..) } sleep(interval); }] *)
Fixpoint poll (fuel : nat) (ready : M W E bool) (interval timeout : Z) (late : E) (start_time : Z)
    : M W E unit :=
  match fuel with
  | O => lift OutOfFuel
  | S fuel =>
      is_ready ← ready;
      if (is_ready : bool) then mret tt
      else
        w ← get_state;
        if timeout <? instant_now w - start_time then throw late
        else
          put_state (sleep interval w);;
          poll fuel ready interval timeout late start_time
  end.

(** How a loop that began at [start] may end in [w']. *)
Definition polled (ready : M W E bool) (timeout : Z) (late : E) (start : Z) (r : outcome E unit)
    (w' : W) : Prop :=
  match r with
  | Ok _ => ∃ w, ready w = (Ok true, w')
  | Err e => (∃ w, ready w = (Err e, w')) ∨ (e = late ∧ timeout < instant_now w' - start)
  | Panic => ∃ w, ready w = (Panic, w')
  | OutOfFuel => False
  end.
End poll.

(** What the programs rely on: [statfs] returns, time does not go back, and
    [sleep] lasts at least as long as asked. *)
Class MountClock (W : Type) `{!MountEnv W} := {
  statfs_returns path w : (statfs_type path w).1 ≠ OutOfFuel;
  statfs_time path w : instant_now w ≤ instant_now (statfs_type path w).2;
  sleep_time d w : instant_now w + d ≤ instant_now (sleep d w);
}.

Section poll_spec.
Context {W E : Type} `{!MountEnv W, !MountClock W}.
Context (ready : M W E bool) (interval timeout : Z) (late : E).
Context (Hret : ∀ w, (ready w).1 ≠ OutOfFuel) (Htime : ∀ w, instant_now w ≤ instant_now (ready w).2).

(** After [k] sleeps the fuel that is left covers the rest of the timeout. *)
Lemma poll_ends (k fuel : nat) start w :
  (0 < fuel)%nat → 0 ≤ timeout → timeout < interval * (Z.of_nat fuel + Z.of_nat k - 1) →
  start + interval * Z.of_nat k ≤ instant_now w →
  let '(r, w') := poll fuel ready interval timeout late start w in polled ready timeout late start r w'.
Proof.
  revert k w. induction fuel as [|fuel IH]; intros k w Hf Ht Hlim Hnow; [lia|].
  cbn [poll]. unfold mbind, M_bind. specialize (Hret w). specialize (Htime w).
  destruct (ready w) as [[[]|e| |] w1] eqn:Hr; simpl in *;
    [by eexists| |by left; eexists|by eexists|done].
  unfold get_state, throw, put_state.
  destruct (Z.ltb_spec timeout (instant_now w1 - start)); [by right|].
  pose proof (sleep_time interval w1). destruct fuel as [|fuel]; [nia|].
  apply (IH (S k)); [lia..|nia].
Qed.
End poll_spec.

(** ** Polling [statfs] *)
Section statfs.
Context {W E : Type} `{!MountEnv W, !MountClock W}.
Context (path : string) (magic : Z) (failed : io_error → E) (interval timeout : Z) (late : E).

(** [statfs(path)?.filesystem_type() == magic] *)
Definition has_type : M W E bool :=
  m_map_err failed (ty ← statfs_type path; mret (ty =? magic)).

(** The file system is there, [statfs] has failed, or the time is up. *)
Definition mount_awaited (start : Z) (r : outcome E unit) (w' : W) : Prop :=
  match r with
  | Ok _ => ∃ w, statfs_type path w = (Ok magic, w')
  | Err e => (∃ e0 w, e = failed e0 ∧ statfs_type path w = (Err e0, w')) ∨
             (e = late ∧ timeout < instant_now w' - start)
  | Panic => ∃ w, statfs_type path w = (Panic, w')
  | OutOfFuel => False
  end.

Lemma has_type_run w :
  has_type w =
    let '(r, w') := statfs_type path w in
    (match r with
     | Ok ty => Ok (ty =? magic) | Err e => Err (failed e) | Panic => Panic | OutOfFuel => OutOfFuel
     end, w').
Proof. unfold has_type, m_map_err, mbind, M_bind. by destruct (statfs_type path w) as [[]]. Qed.

Lemma polled_awaited start r w' : polled has_type timeout late start r w' → mount_awaited start r w'.
Proof.
  unfold polled. destruct r as [[]|e| |]; [intros [w Hw]|intros [[w Hw]|Hlate]|intros [w Hw]|done].
  3: by right.
  all: rewrite has_type_run in Hw; destruct (statfs_type path w) as [[ty|e0| |] w1] eqn:Hs;
    simplify_eq; simpl.
  - exists w. rewrite Hs. do 2 f_equal. by apply Z.eqb_eq.
  - left. by exists e0, w.
  - by exists w.
Qed.

Lemma poll_statfs_ends fuel (w : W) :
  (0 < fuel)%nat → 0 ≤ timeout → timeout < interval * (Z.of_nat fuel - 1) →
  let '(r, w') := poll fuel has_type interval timeout late (instant_now w) w in
  mount_awaited (instant_now w) r w'.
Proof.
  intros Hf Ht Hlim. pose proof (poll_ends has_type interval timeout late) as Hp.
  specialize (Hp ltac:(intros w1; rewrite has_type_run; pose proof (statfs_returns path w1);
    by destruct (statfs_type path w1) as [[]])).
  specialize (Hp ltac:(intros w1; rewrite has_type_run; pose proof (statfs_time path w1);
    by destruct (statfs_type path w1) as [[]]) 0%nat fuel (instant_now w) w).
  destruct (poll _ _ _ _ _ _ _) as [r w']. apply polled_awaited, Hp; lia.
Qed.
End statfs.
