(* ===== verification/LocalFile.v ===== *)
(** * Local files read by chunks (authfs/src/file/local_file.rs) *)
From S2P Require Import Prelude RustInt Crypto Common Fsverity Merkle File Os.

Record LocalFileReader := { local_file : Z; local_size : Z }.

Module LocalFileReader.
Section impl.
Context {bm : BuildMode} {W : Type} `{!FileOps W}.

Definition new (file : Z) : M W io_error LocalFileReader :=
  size ← file_len file;
  mret {| local_file := file; local_size := size |}.

Definition len (self : LocalFileReader) : Z := local_size self.

Definition read_chunk (self : LocalFileReader) (chunk_index : Z) (buf : list byte)
    : M W io_error (Z * list byte) :=
  start ← lift (u64_mul chunk_index CHUNK_SIZE);
  if local_size self <=? start then mret (0, buf)
  else
    chunk_end ← lift (u64_add start CHUNK_SIZE);
    let fin := Z.min (local_size self) chunk_end in
    read_size ← lift (u64_sub fin start);
    lift (debug_assert (Ok (read_size <=? zlen buf)));;
    bytes ← read_exact_at (local_file self) read_size start;
    mret (read_size, bytes ++ drop (Z.to_nat read_size) buf).
End impl.
End LocalFileReader.

#[global] Instance LocalFileReader_read_chunk {bm : BuildMode} {W} `{!FileOps W}
  : ReadByChunk W LocalFileReader := LocalFileReader.read_chunk.

(** The reader obeys the buffer discipline on any system. *)
#[global] Instance LocalFileReader_buffer {bm : BuildMode} {W} `{!FileOps W, !FileOpsTyped W}
  : BufferReader W LocalFileReader.
Proof.
  intros f i buf w size buf' w' Hl Hr. unfold read_chunk, LocalFileReader_read_chunk in Hr.
  unfold LocalFileReader.read_chunk in Hr. inv_bind.
  destruct (Z.leb_spec (local_size f) r).
  { inv_bind. exists []. rewrite drop_0. simpl. split_and!; [done|lia|done]. }
  inv_bind.
  match goal with
  | Ha : u64_add _ _ = Ok _, Hs : u64_sub _ _ = Ok _ |- _ =>
      unfold u64_add in Ha; unfold u64_sub in Hs
  end.
  repeat case_match; simplify_eq. 
  match goal with He : read_exact_at _ _ _ _ = _ |- _ =>
    apply read_exact_at_length in He; [|lia] end.
  match goal with |- context [?b ++ drop _ buf] => exists b end. split_and!; [done|lia|]. do 2 f_equal. lia.
Qed.

(** Reading files of the ordinary kind gives their contents, as long as they
    keep the size they had when they were opened. *)
Definition local_content (f : LocalFileReader) (t : file_table) : option (list byte) :=
  c ← t !! local_file f; if zlen c =? local_size f then Some c else None.

Lemma local_content_Some f t c :
  t !! local_file f = Some c → local_size f = zlen c → local_content f t = Some c.
Proof. intros Hl Hs. unfold local_content. rewrite Hl, Hs. cbn [mbind option_bind]. by rewrite Z.eqb_refl. Qed.

#[global] Instance LocalFileReader_honest {bm : BuildMode}
  : HonestReader file_table LocalFileReader local_content.
Proof.
  intros f i buf w c Hc Hl Hi Hb Hib. cbv zeta. unfold local_content in Hc.
  destruct (w !! local_file f) as [c'|] eqn:Hf; [|done]. simpl in Hc.
  destruct (Z.eqb_spec (zlen c') (local_size f)) as [Hsz|]; [|done]. simplify_eq.
  unfold read_chunk, LocalFileReader_read_chunk, LocalFileReader.read_chunk.
  rewrite u64_mul_Ok by lia. rewrite bind_lift_Ok.
  destruct (Z.leb_spec (local_size f) (i * CHUNK_SIZE)).
  - lia.
  - rewrite u64_add_Ok, bind_lift_Ok by lia. rewrite u64_sub_Ok, bind_lift_Ok by lia.
    rewrite (proj2 (Z.leb_le _ _)) by lia.
    rewrite debug_assert_true, bind_lift_Ok.
    erewrite M_bind_Ok by (apply (read_exact_at_table _ _ _ _ c); [done|lia..]).
    unfold mret, M_ret, copy_prefix. rewrite firstn_all.
    replace (Z.to_nat (i * CHUNK_SIZE)) with (Z.to_nat i * csz)%nat by lia.
    remember (drop (Z.to_nat i * csz) c) as d eqn:Hd.
    assert (length d = length c - Z.to_nat i * csz)%nat by (subst d; by rewrite length_drop).
    assert (local_size f `min` (i * CHUNK_SIZE + CHUNK_SIZE) - i * CHUNK_SIZE =
      Z.of_nat (csz `min` length d)) as -> by lia.
    rewrite length_take, Nat2Z.id. do 4 f_equal. apply list_eq. intros j.
    destruct (decide (j < csz `min` length d)%nat); [by rewrite !lookup_take_lt by lia|].
    rewrite !lookup_ge_None_2; [done|rewrite length_take; lia..].
Qed.
