(* ===== verification/FdServer.v ===== *)
(** * The file-descriptor server (authfs/fd_server/src/{main,fsverity}.rs)

    [FdService] serves requests on file descriptors it was started with.
    [IVirtFdService] is the binder interface between it and its clients; the
    clients are proved against the interface, so that a server that lies is an
    instance too. *)
From Stdlib Require Import Ascii.
From S2P Require Import Prelude RustInt Clap Crypto Common Fsverity Os.

(** ** The binder interface *)
Inductive ExceptionCode := ILLEGAL_ARGUMENT | UNSUPPORTED_OPERATION.
Inductive StatusCode :=
| INVALID_OPERATION | FAILED_TRANSACTION | UNKNOWN_ERROR | BAD_VALUE | PERMISSION_DENIED.
Inductive Status :=
| new_exception (code : ExceptionCode)
| from_status (status : Z)
| from_status_code (code : StatusCode).

#[global] Instance ExceptionCode_eq_dec : EqDecision ExceptionCode.
Proof. solve_decision. Defined.
#[global] Instance StatusCode_eq_dec : EqDecision StatusCode.
Proof. solve_decision. Defined.
#[global] Instance Status_eq_dec : EqDecision Status.
Proof. solve_decision. Defined.

Definition ERROR_UNKNOWN_FD : Z := 1.
Definition ERROR_IO : Z := 2.
Definition MAX_REQUESTING_DATA : Z := 16384.

Class IVirtFdService (W S : Type) := {
  readFile : S → Z → Z → Z → M W Status (list byte);
  readFsverityMerkleTree : S → Z → Z → Z → M W Status (list byte);
  readFsveritySignature : S → Z → M W Status (list byte);
  writeFile : S → Z → list byte → Z → M W Status Z;
  service_resize : S → Z → Z → M W Status unit;
}.

(** ** fsverity.rs *)
Definition FS_VERITY_METADATA_TYPE_MERKLE_TREE : Z := 1.
Definition FS_VERITY_METADATA_TYPE_SIGNATURE : Z := 3.

(** [struct fsverity_read_metadata_arg]; the buffer is named by its length. *)
Record fsverity_read_metadata_arg := {
  metadata_type : Z;
  md_offset : Z;
  md_length : Z;
}.

(** The ioctl [FS_IOC_READ_VERITY_METADATA]: an errno, or the return value and
    the buffer the kernel leaves behind. *)
Class VerityIoctl (W : Type) :=
  read_verity_metadata : Z → fsverity_read_metadata_arg → list byte → M W Z (Z * list byte).

Section fsverity.
Context {W : Type} `{!VerityIoctl W}.

Definition read_metadata (fd type offset : Z) (buf : list byte) : M W io_error (Z * list byte) :=
  let arg := {| metadata_type := type; md_offset := offset; md_length := zlen buf |} in
  m_map_err OsError (read_verity_metadata fd arg buf).

Definition read_merkle_tree (fd offset : Z) (buf : list byte) : M W io_error (Z * list byte) :=
  read_metadata fd FS_VERITY_METADATA_TYPE_MERKLE_TREE offset buf.

Definition read_signature (fd : Z) (buf : list byte) : M W io_error (Z * list byte) :=
  read_metadata fd FS_VERITY_METADATA_TYPE_SIGNATURE 0 buf.
End fsverity.

(** ** main.rs *)
Definition validate_and_cast_offset (offset : Z) : outcome Status Z :=
  unsigned_try_from (new_exception ILLEGAL_ARGUMENT) offset.

Definition validate_and_cast_size (size : Z) : outcome Status Z :=
  if MAX_REQUESTING_DATA <? size then Err (new_exception ILLEGAL_ARGUMENT)
  else unsigned_try_from (new_exception ILLEGAL_ARGUMENT) size.

(** A [File] is the descriptor it owns. *)
Inductive FdConfig :=
| Readonly (file : Z) (alt_merkle_tree alt_signature : option Z)
| ReadWrite (file : Z).
#[global] Instance FdConfig_eq_dec : EqDecision FdConfig.
Proof. solve_decision. Defined.

Record FdService := { fd_pool : gmap Z FdConfig }.

(** [io::Error::raw_os_error]. *)
Definition raw_os_error (e : io_error) : option Z :=
  match e with OsError n => Some n | KindError _ => None end.

Module FdService.
Section impl.
Context {bm : BuildMode} {W : Type} `{!FileOps W, !VerityIoctl W}.

Definition get_file_config (self : FdService) (id : Z) : outcome Status FdConfig :=
  ok_or (fd_pool self !! id) (from_status ERROR_UNKNOWN_FD).

Definition read_into_buf (file max_size offset : Z) : M W io_error (list byte) :=
  len ← file_len file;
  let remaining := saturating_sub len offset in
  let buf_size := Z.min remaining max_size in
  read_exact_at file buf_size offset.

Definition io_status (_ : io_error) : Status := from_status ERROR_IO.
Definition os_status (e : io_error) : Status := from_status (default ERROR_IO (raw_os_error e)).

Definition readFile (self : FdService) (id offset size : Z) : M W Status (list byte) :=
  size ← lift (validate_and_cast_size size);
  offset ← lift (validate_and_cast_offset offset);
  config ← lift (get_file_config self id);
  match config with
  | Readonly file _ _ | ReadWrite file => m_map_err io_status (read_into_buf file size offset)
  end.

Definition readFsverityMerkleTree (self : FdService) (id offset size : Z) : M W Status (list byte) :=
  size ← lift (validate_and_cast_size size);
  offset ← lift (validate_and_cast_offset offset);
  config ← lift (get_file_config self id);
  match config with
  | Readonly file alt_merkle_tree _ =>
      match alt_merkle_tree with
      | Some tree_file => m_map_err io_status (read_into_buf tree_file size offset)
      | None =>
          '(s, buf) ← m_map_err os_status (read_merkle_tree file offset (zeros size));
          lift (debug_assert (Ok (s <=? zlen buf)));;
          mret (take (Z.to_nat s) buf)
      end
  | ReadWrite _ => throw (new_exception UNSUPPORTED_OPERATION)
  end.

Definition readFsveritySignature (self : FdService) (id : Z) : M W Status (list byte) :=
  config ← lift (get_file_config self id);
  match config with
  | Readonly file _ alt_signature =>
      match alt_signature with
      | Some sig_file => m_map_err io_status (read_into_buf sig_file MAX_REQUESTING_DATA 0)
      | None =>
          '(s, buf) ← m_map_err os_status (read_signature file (zeros MAX_REQUESTING_DATA));
          lift (debug_assert (Ok (s <=? zlen buf)));;
          mret (take (Z.to_nat s) buf)
      end
  | ReadWrite _ => throw (new_exception UNSUPPORTED_OPERATION)
  end.

Definition writeFile (self : FdService) (id : Z) (buf : list byte) (offset : Z) : M W Status Z :=
  config ← lift (get_file_config self id);
  match config with
  | Readonly _ _ _ => throw (from_status_code INVALID_OPERATION)
  | ReadWrite file =>
      offset ← lift (unsigned_try_from (new_exception ILLEGAL_ARGUMENT) offset);
      if i32_max <? zlen buf then throw (new_exception ILLEGAL_ARGUMENT)
      else
        n ← m_map_err io_status (file_write_at file buf offset);
        mret (as_i32 n)
  end.

Definition resize (self : FdService) (id size : Z) : M W Status unit :=
  config ← lift (get_file_config self id);
  match config with
  | Readonly _ _ _ => throw (from_status_code INVALID_OPERATION)
  | ReadWrite file =>
      if size <? 0 then throw (new_exception ILLEGAL_ARGUMENT)
      else m_map_err io_status (file_set_len file size)
  end.
End impl.
End FdService.

#[global] Instance FdService_service {bm : BuildMode} {W} `{!FileOps W, !VerityIoctl W}
  : IVirtFdService W FdService := {|
  readFile := FdService.readFile;
  readFsverityMerkleTree := FdService.readFsverityMerkleTree;
  readFsveritySignature := FdService.readFsveritySignature;
  writeFile := FdService.writeFile;
  service_resize := FdService.resize;
|}.

(** *** Command line *)
Inductive FdServerError :=
| BadInteger
| TooManyOptions
| BadFd (fd : Z)
| NotEmpty
| MetadataError (e : io_error)
| BadUsage.

Definition fd_server_app : App := [option_values "ro-fds"; option_values "rw-fds"].

Section args.
Context {W : Type} `{!FileOps W}.

Definition is_fd_valid (fd : Z) (w : W) : bool := 0 <=? fcntl_getfd fd w.

Definition fd_to_file (fd : Z) : M W FdServerError Z := λ w,
  if negb (is_fd_valid fd w) then (Err (BadFd fd), w) else (Ok fd, w).

(** [opt.map(|fd| fd_to_file(fd)).transpose()?] *)
Definition optional_file (fd : option Z) : M W FdServerError (option Z) :=
  match fd with
  | None => mret None
  | Some fd => file ← fd_to_file fd; mret (Some file)
  end.

Definition parse_arg_ro_fds (arg : string) : M W FdServerError (Z * FdConfig) :=
  fds ← lift (ok_or (mapM parse_i32 (split_on ":"%char arg)) BadInteger);
  if 3 <? zlen fds then throw TooManyOptions
  else
    fd ← lift (unwrap (fds !! 0%nat));
    file ← fd_to_file fd;
    alt_merkle_tree ← optional_file (fds !! 1%nat);
    alt_signature ← optional_file (fds !! 2%nat);
    mret (fd, Readonly file alt_merkle_tree alt_signature).

Definition parse_arg_rw_fds (arg : string) : M W FdServerError (Z * FdConfig) :=
  fd ← lift (ok_or (parse_i32 arg) BadInteger);
  file ← fd_to_file fd;
  len ← m_map_err MetadataError (file_len file);
  if 0 <? len then throw NotEmpty else mret (fd, ReadWrite file).

(** [BTreeMap::insert] drops the value it replaces, and with it the files. *)
Definition drop_config (config : FdConfig) (w : W) : W :=
  match config with
  | Readonly file tree sig =>
      from_option close_fd id sig (from_option close_fd id tree (close_fd file w))
  | ReadWrite file => close_fd file w
  end.
Definition pool_insert (pool : gmap Z FdConfig) (fd : Z) (config : FdConfig)
    : M W FdServerError (gmap Z FdConfig) := λ w,
  (Ok (<[fd := config]> pool), from_option drop_config id (pool !! fd) w).

Fixpoint insert_args (parse : string → M W FdServerError (Z * FdConfig)) (args : list string)
    (pool : gmap Z FdConfig) : M W FdServerError (gmap Z FdConfig) :=
  match args with
  | [] => mret pool
  | arg :: args =>
      '(fd, config) ← parse arg;
      pool ← pool_insert pool fd config;
      insert_args parse args pool
  end.

(** The values of [--ro-fds] and [--rw-fds]; an option that is absent has no
    values. *)
Definition parse_args (ro_fds rw_fds : list string) : M W FdServerError (gmap Z FdConfig) :=
  pool ← insert_args parse_arg_ro_fds ro_fds ∅;
  insert_args parse_arg_rw_fds rw_fds pool.

(** [parse_args] on a command line; clap ends the program on a bad one. *)
Definition parse_command_line {clap : Clap} (argv : list string) : M W FdServerError (gmap Z FdConfig) :=
  matches ← lift (ok_or (get_matches fd_server_app argv) BadUsage);
  parse_args (default [] (values_of matches "ro-fds")) (default [] (values_of matches "rw-fds")).
End args.

(** ** Files of the ordinary kind *)
Definition config_file (config : FdConfig) : Z :=
  match config with Readonly file _ _ | ReadWrite file => file end.

(** Every entry serves the descriptor it is named by. *)
Definition pool_owns (pool : gmap Z FdConfig) : Prop :=
  ∀ id config, pool !! id = Some config → config_file config = id.

Section served.
Context {bm : BuildMode} `{!VerityIoctl file_table}.
Implicit Types (t : file_table) (self : FdService).

Lemma read_into_buf_table file max_size offset t :
  0 ≤ max_size → 0 ≤ offset →
  FdService.read_into_buf file max_size offset t =
    (match t !! file with
     | Some c => Ok (take (Z.to_nat max_size) (drop (Z.to_nat offset) c))
     | None => Err (OsError EBADF)
     end, t).
Proof.
  intros Hm Ho. unfold FdService.read_into_buf, mbind, M_bind. simpl.
  destruct (t !! file) as [c|]; [|done].
  unfold saturating_sub. destruct (Z.leb_spec offset (zlen c)).
  - rewrite !(proj2 (Z.leb_le _ _)) by lia. simpl. do 2 f_equal.
    destruct (decide (max_size ≤ zlen c - offset)).
    + f_equal. lia.
    + rewrite !take_ge by (rewrite length_drop; lia). done.
  - rewrite Z.max_l, Z.min_l by lia. rewrite (proj2 (Z.leb_gt (offset + 0) _)) by lia.
    rewrite andb_false_r. simpl. rewrite drop_ge by lia. by rewrite take_nil.
Qed.

Lemma readFile_table self id offset size t :
  FdService.readFile self id offset size t =
    (if (MAX_REQUESTING_DATA <? size) || (size <? 0) || (offset <? 0)
     then Err (new_exception ILLEGAL_ARGUMENT)
     else match fd_pool self !! id with
          | None => Err (from_status ERROR_UNKNOWN_FD)
          | Some config =>
              match t !! config_file config with
              | None => Err (from_status ERROR_IO)
              | Some c => Ok (take (Z.to_nat size) (drop (Z.to_nat offset) c))
              end
          end, t).
Proof.
  unfold FdService.readFile, validate_and_cast_size, validate_and_cast_offset, unsigned_try_from.
  destruct (Z.ltb_spec MAX_REQUESTING_DATA size); [done|].
  destruct (Z.leb_spec 0 size), (Z.ltb_spec size 0); try lia; [|done].
  rewrite bind_lift_Ok. destruct (Z.leb_spec 0 offset), (Z.ltb_spec offset 0); try lia; [|done].
  rewrite bind_lift_Ok. unfold FdService.get_file_config. simpl.
  destruct (fd_pool self !! id) as [[file ? ?|file]|]; [..|done].
  all: simpl; rewrite bind_lift_Ok; unfold m_map_err;
    rewrite read_into_buf_table by done; by destruct (t !! file).
Qed.

Lemma writeFile_table self id buf offset t :
  FdService.writeFile self id buf offset t =
    match fd_pool self !! id with
    | None => (Err (from_status ERROR_UNKNOWN_FD), t)
    | Some (Readonly _ _ _) => (Err (from_status_code INVALID_OPERATION), t)
    | Some (ReadWrite file) =>
        if (offset <? 0) || (i32_max <? zlen buf) then (Err (new_exception ILLEGAL_ARGUMENT), t)
        else match t !! file with
             | None => (Err (from_status ERROR_IO), t)
             | Some c => (Ok (zlen buf), <[file := overwrite c (Z.to_nat offset) buf]> t)
             end
    end.
Proof.
  unfold FdService.writeFile, FdService.get_file_config, unsigned_try_from.
  destruct (fd_pool self !! id) as [[file ? ?|file]|]; [done| |done].
  simpl. rewrite bind_lift_Ok.
  destruct (Z.leb_spec 0 offset), (Z.ltb_spec offset 0); try lia; [|done].
  rewrite bind_lift_Ok. simpl. destruct (Z.ltb_spec i32_max (zlen buf)); [done|].
  unfold mbind, M_bind, m_map_err. simpl. destruct (t !! file) as [c|]; [|done].
  simpl. unfold mret, M_ret. by rewrite as_i32_small by lia.
Qed.

Lemma resize_table self id size t :
  FdService.resize self id size t =
    match fd_pool self !! id with
    | None => (Err (from_status ERROR_UNKNOWN_FD), t)
    | Some (Readonly _ _ _) => (Err (from_status_code INVALID_OPERATION), t)
    | Some (ReadWrite file) =>
        if size <? 0 then (Err (new_exception ILLEGAL_ARGUMENT), t)
        else match t !! file with
             | None => (Err (from_status ERROR_IO), t)
             | Some c => (Ok tt, <[file := set_length c (Z.to_nat size)]> t)
             end
    end.
Proof.
  unfold FdService.resize, FdService.get_file_config.
  destruct (fd_pool self !! id) as [[file ? ?|file]|]; [done| |done].
  simpl. rewrite bind_lift_Ok. destruct (size <? 0); [done|].
  unfold m_map_err. simpl. by destruct (t !! file).
Qed.
End served.

(** ** Requests *)
Inductive request :=
| ReadFile (id offset size : Z)
| ReadMerkleTree (id offset size : Z)
| ReadSignature (id : Z)
| WriteFile (id : Z) (buf : list byte) (offset : Z)
| ResizeFile (id size : Z).
Inductive reply := Bytes (bs : list byte) | Count (n : Z) | Done.

Section requests.
Context {bm : BuildMode} {W : Type} `{!FileOps W, !VerityIoctl W}.

Definition reply_of {A} (f : A → reply) (m : M W Status A) : M W Status reply :=
  λ w, let '(r, w) := m w in (a ← r; Ok (f a), w).

Definition handle (self : FdService) (r : request) : M W Status reply :=
  match r with
  | ReadFile id offset size => reply_of Bytes (FdService.readFile self id offset size)
  | ReadMerkleTree id offset size => reply_of Bytes (FdService.readFsverityMerkleTree self id offset size)
  | ReadSignature id => reply_of Bytes (FdService.readFsveritySignature self id)
  | WriteFile id buf offset => reply_of Count (FdService.writeFile self id buf offset)
  | ResizeFile id size => reply_of (λ _, Done) (FdService.resize self id size)
  end.

(** The state after a request, whatever it returned. *)
Definition serve (self : FdService) (w : W) (r : request) : W := (handle self r w).2.

Lemma reply_of_state {A} (f : A → reply) (m : M W Status A) w : (reply_of f m w).2 = (m w).2.
Proof. unfold reply_of. by destruct (m w). Qed.
End requests.

(** The kernel does not change a file when it is asked for verity metadata. *)
Class VerityIoctlReadOnly (W : Type) `{!VerityIoctl W} :=
  read_verity_metadata_state fd arg buf w : (read_verity_metadata fd arg buf w).2 = w.

Section isolation.
Context {bm : BuildMode} `{!VerityIoctl file_table, !VerityIoctlReadOnly file_table}.

Definition read_only {E A} (m : M file_table E A) : Prop := ∀ t, (m t).2 = t.

Lemma read_only_bind {E A B} (m : M file_table E A) (f : A → M file_table E B) :
  read_only m → (∀ a, read_only (f a)) → read_only (m ≫= f).
Proof.
  intros Hm Hf t. unfold mbind, M_bind. specialize (Hm t).
  destruct (m t) as [[a|e| |] t']; simpl in *; [rewrite Hf; done|done..].
Qed.
Lemma read_only_map_err {E E' A} (g : E → E') (m : M file_table E A) :
  read_only m → read_only (m_map_err g m).
Proof. intros Hm t. unfold m_map_err. specialize (Hm t). by destruct (m t). Qed.
Lemma read_only_read_into_buf file size offset :
  read_only (FdService.read_into_buf file size offset).
Proof. apply read_only_bind; done. Qed.
Lemma read_only_metadata fd type offset buf : read_only (read_metadata fd type offset buf).
Proof. apply read_only_map_err. intros t. apply read_verity_metadata_state. Qed.

Lemma read_only_readFile self id offset size :
  read_only (FdService.readFile self id offset size).
Proof. intros t. by rewrite readFile_table. Qed.

Lemma read_only_readFsverityMerkleTree self id offset size :
  read_only (FdService.readFsverityMerkleTree self id offset size).
Proof.
  unfold FdService.readFsverityMerkleTree. do 3 (apply read_only_bind; [done|intros]).
  case_match; [|done]. case_match; [apply read_only_map_err, read_only_read_into_buf|].
  apply read_only_bind; [apply read_only_map_err, read_only_metadata|]. intros [s b].
  by apply read_only_bind.
Qed.

Lemma read_only_readFsveritySignature self id :
  read_only (FdService.readFsveritySignature self id).
Proof.
  unfold FdService.readFsveritySignature. apply read_only_bind; [done|intros].
  case_match; [|done]. case_match; [apply read_only_map_err, read_only_read_into_buf|].
  apply read_only_bind; [apply read_only_map_err, read_only_metadata|]. intros [s b].
  by apply read_only_bind.
Qed.

Lemma serve_isolation self t r fd :
  pool_owns (fd_pool self) → fd_pool self !! fd ≠ Some (ReadWrite fd) →
  serve self t r !! fd = t !! fd.
Proof.
  intros Hown Hfd. destruct r as [id off sz|id off sz|id|id buf off|id sz];
    unfold serve, handle; rewrite reply_of_state.
  - by rewrite read_only_readFile.
  - by rewrite read_only_readFsverityMerkleTree.
  - by rewrite read_only_readFsveritySignature.
  - rewrite writeFile_table. destruct (fd_pool self !! id) as [[|file]|] eqn:Hid; [done| |done].
    pose proof (Hown _ _ Hid) as Heq. simpl in Heq. subst file.
    repeat case_match; simpl; try done. rewrite lookup_insert_ne; [done|congruence].
  - rewrite resize_table. destruct (fd_pool self !! id) as [[|file]|] eqn:Hid; [done| |done].
    pose proof (Hown _ _ Hid) as Heq. simpl in Heq. subst file.
    repeat case_match; simpl; try done. rewrite lookup_insert_ne; [done|congruence].
Qed.
End isolation.

(** ** The answers of the service on any system *)

(** What is known of the system calls, which may fail and may do less than they were asked for:
    they return; a buffer that is filled is filled whole; a write reports a count within its
    buffer; and the kernel reports a count of metadata within the buffer it was given. *)
Definition returned {E A} (r : outcome E A) : Prop :=
  match r with Ok _ | Err _ => True | Panic | OutOfFuel => False end.
Class SystemContract (W : Type) `{!FileOps W, !VerityIoctl W} := {
  file_len_ret fd w : returned (file_len fd w).1;
  read_exact_at_ret fd n off w : returned (read_exact_at fd n off w).1;
  read_exact_at_fills fd n off w bs w' :
    0 ≤ n → read_exact_at fd n off w = (Ok bs, w') → zlen bs = n;
  file_write_at_ret fd buf off w : returned (file_write_at fd buf off w).1;
  file_write_at_count fd buf off w n w' :
    file_write_at fd buf off w = (Ok n, w') → 0 ≤ n ≤ zlen buf;
  file_set_len_ret fd n w : returned (file_set_len fd n w).1;
  metadata_ret fd arg buf w : returned (read_verity_metadata fd arg buf w).1;
  metadata_fits fd arg buf w n buf' w' :
    read_verity_metadata fd arg buf w = (Ok (n, buf'), w') → 0 ≤ n ≤ zlen buf ∧ zlen buf' = zlen buf;
}.



Section answers.
Context {bm : BuildMode} {W : Type} `{!FileOps W, !VerityIoctl W, !SystemContract W}.












End answers.

Section args_spec.
Context {W : Type} `{!FileOps W}.

Lemma fd_to_file_Ok fd (w : W) file w' : fd_to_file fd w = (Ok file, w') → file = fd ∧ w' = w.
Proof. unfold fd_to_file. case_match; naive_solver. Qed.

Lemma parse_arg_ro_fds_owns arg (w : W) fd config w' :
  parse_arg_ro_fds arg w = (Ok (fd, config), w') → config_file config = fd.
Proof.
  unfold parse_arg_ro_fds. intros Hp. inv_bind. case_match; [done|]. inv_bind.
  match goal with Hf : fd_to_file _ _ = (Ok _, _) |- _ => apply fd_to_file_Ok in Hf as [-> ->] end.
  done.
Qed.

Lemma parse_arg_rw_fds_owns arg (w : W) fd config w' :
  parse_arg_rw_fds arg w = (Ok (fd, config), w') → config_file config = fd.
Proof.
  unfold parse_arg_rw_fds. intros Hp. inv_bind. case_match; [done|]. inv_bind.
  match goal with Hf : fd_to_file _ _ = (Ok _, _) |- _ => apply fd_to_file_Ok in Hf as [-> ->] end.
  done.
Qed.

Lemma insert_args_owns parse args pool (w : W) pool' w' :
  (∀ arg w fd config w', parse arg w = (Ok (fd, config), w') → config_file config = fd) →
  pool_owns pool → insert_args parse args pool w = (Ok pool', w') → pool_owns pool'.
Proof.
  intros Hparse. revert pool w. induction args as [|arg args IH]; intros pool w Hown Hi.
  { simpl in Hi. by inv_bind. }
  cbn [insert_args] in Hi. inv_bind. destruct r as [fd config]. inv_bind.
  eapply IH; [|done]. unfold pool_insert in *. simplify_eq.
  intros id cfg. rewrite lookup_insert. case_decide; [|apply Hown].
  intros [= <-]. subst. eauto.
Qed.

Lemma parse_args_owns ro_fds rw_fds (w : W) pool w' :
  parse_args ro_fds rw_fds w = (Ok pool, w') → pool_owns pool.
Proof.
  unfold parse_args. intros Hp. inv_bind.
  eapply insert_args_owns; [apply parse_arg_rw_fds_owns| |done].
  eapply insert_args_owns; [apply parse_arg_ro_fds_owns| |done]. by intros ? ?.
Qed.
End args_spec.

(** ** Claims *)
Section claims.
Context {bm : BuildMode} `{!VerityIoctl file_table}.


(** C3: Clients cannot change what is served read-only.  When the server was configured by its
    command line, no sequence of requests, valid or not, changes a file it serves read-only, or
    any file it was not given for writing. *)
Theorem fd_server_isolation `{!VerityIoctlReadOnly file_table} ro_fds rw_fds t0 pool t1 reqs fd :
  parse_args ro_fds rw_fds t0 = (Ok pool, t1) →
  pool !! fd ≠ Some (ReadWrite fd) →
  foldl (serve {| fd_pool := pool |}) t1 reqs !! fd = t1 !! fd.
Proof.
  intros Hp%parse_args_owns Hfd. generalize t1 as t.
  induction reqs as [|r reqs IH]; intros t; [done|]. simpl. rewrite IH.
  by apply serve_isolation.
Qed.

(** The decimal form of descriptors is read back.  An argument of one to three descriptors
    joined by colons, all open, configures exactly these descriptors. *)
Lemma ro_fds_roundtrip fd tree sig (t : file_table) :
  is_Some (t !! fd) → is_Some (t !! tree) → is_Some (t !! sig) →
  Forall (λ z, - 2 ^ 31 ≤ z ≤ i32_max) [fd; tree; sig] →
  let s := show_int in
  parse_arg_ro_fds (s fd) t = (Ok (fd, Readonly fd None None), t) ∧
  parse_arg_ro_fds (s fd +:+ ":" +:+ s tree) t = (Ok (fd, Readonly fd (Some tree) None), t) ∧
  parse_arg_ro_fds (s fd +:+ ":" +:+ s tree +:+ ":" +:+ s sig) t =
    (Ok (fd, Readonly fd (Some tree) (Some sig)), t).
Proof.
  intros Hfd Htree Hsig Hr. rewrite !Forall_cons in Hr. destruct Hr as (H1 & H2 & H3 & _). intros s.
  assert (∀ z, - 2 ^ 31 ≤ z ≤ i32_max → split_on ":"%char (s z) = [s z] ∧ parse_i32 (s z) = Some z) as Hz.
  { intros z Hz. split; [apply split_on_show_int; lia|].
    apply parse_show_int; [lia..|]. by right. }
  assert (∀ z, is_Some (t !! z) → fd_to_file z t = (Ok z, t)) as Hopen.
  { intros z Hs. unfold fd_to_file, is_fd_valid. simpl. by rewrite decide_True. }
  destruct (Hz _ H1) as [Hs1 Hp1], (Hz _ H2) as [Hs2 Hp2], (Hz _ H3) as [Hs3 Hp3].
  unfold parse_arg_ro_fds. rewrite !(string_app_cons ":"), !string_app_nil, !split_on_app_sep.
  rewrite Hs1, Hs2, Hs3. cbn [app mapM]. rewrite Hp1, Hp2, Hp3.
  cbn [mbind option_bind mret option_ret ok_or].
  split_and!; rewrite bind_lift_Ok; simpl; rewrite bind_lift_Ok;
    rewrite (M_bind_Ok _ _ _ _ _ (Hopen _ Hfd)); [done|..].
  - rewrite M_bind_assoc, (M_bind_Ok _ _ _ _ _ (Hopen _ Htree)). done.
  - rewrite M_bind_assoc, (M_bind_Ok _ _ _ _ _ (Hopen _ Htree)).
    erewrite (M_bind_Ok (mret _)) by done.
    rewrite M_bind_assoc, (M_bind_Ok _ _ _ _ _ (Hopen _ Hsig)). done.
Qed.

(** A descriptor given twice is served closed.  The second entry replaces the first in the
    map, and dropping the first closes the descriptor both share: the server starts, and every
    read of the file fails. *)
Lemma duplicate_fd_is_closed (t : file_table) fd c offset size :
  t !! fd = Some c → 0 ≤ fd ≤ i32_max → 0 ≤ size ≤ MAX_REQUESTING_DATA → 0 ≤ offset →
  ∃ pool, parse_args [show_int fd; show_int fd] [] t = (Ok pool, delete fd t) ∧
    pool !! fd = Some (Readonly fd None None) ∧
    readFile {| fd_pool := pool |} fd offset size (delete fd t) =
      (Err (from_status ERROR_IO), delete fd t).
Proof.
  intros Hc Hfd Hsize Hoff. exists {[fd := Readonly fd None None]}.
  assert (parse_arg_ro_fds (show_int fd) t = (Ok (fd, Readonly fd None None), t)) as Hp.
  { unfold parse_arg_ro_fds. rewrite split_on_show_int by lia. cbn [mapM].
    assert (parse_i32 (show_int fd) = Some fd) as -> by (apply parse_show_int; [lia..|by right]).
    cbn [mbind option_bind mret option_ret ok_or].
    rewrite bind_lift_Ok. simpl. rewrite bind_lift_Ok.
    erewrite M_bind_Ok; [done|]. unfold fd_to_file, is_fd_valid. simpl. by rewrite decide_True. }
  split; [|split; [apply lookup_singleton_eq|]].
  - unfold parse_args. cbn [insert_args]. rewrite M_bind_assoc, (M_bind_Ok _ _ _ _ _ Hp).
    cbv beta iota. rewrite M_bind_assoc. unfold pool_insert at 1. erewrite M_bind_Ok by done.
    rewrite lookup_empty. cbn [from_option id].
    rewrite M_bind_assoc, (M_bind_Ok _ _ _ _ _ Hp). cbv beta iota.
    rewrite M_bind_assoc. erewrite M_bind_Ok by done.
    erewrite (M_bind_Ok (mret _)) by done. rewrite lookup_insert_eq. simpl.
    unfold mret, M_ret. by rewrite insert_insert_eq.
  - etrans; [apply readFile_table|]. rewrite !(proj2 (Z.ltb_ge _ _)) by lia. simpl.
    rewrite lookup_singleton_eq. simpl. by rewrite lookup_delete_eq.
Qed.
End claims.

(** ** Instances *)
Section instances.
(** A kernel without fs-verity. *)
#[local] Instance no_verity : VerityIoctl file_table := λ _ _ _, throw 95.
#[local] Instance no_verity_read_only : VerityIoctlReadOnly file_table.
Proof. done. Qed.

Definition demo_fds : file_table := <[3 := [Byte.x01; Byte.x02]]> (<[4 := []]> (<[5 := []]> ∅)).

Lemma fd_server_isolation_witness :
  parse_args ["3"] ["4"] demo_fds =
    (Ok (<[4 := ReadWrite 4]> {[3 := Readonly 3 None None]}), demo_fds) ∧
  foldl (serve (bm := release)
           {| fd_pool := <[4 := ReadWrite 4]> {[3 := Readonly 3 None None]} |})
    demo_fds [WriteFile 3 [Byte.x07] 0; WriteFile 4 [Byte.x07] 0] !! 3 = demo_fds !! 3.
Proof.
  assert (parse_args ["3"] ["4"] demo_fds =
    (Ok (<[4 := ReadWrite 4]> {[3 := Readonly 3 None None]}), demo_fds)) as Hp
    by (vm_compute; reflexivity).
  split; [exact Hp|].
  apply (fd_server_isolation (bm := release) ["3"] ["4"] demo_fds _ demo_fds _ 3 Hp).
  vm_compute. discriminate.
Defined.

(** A system that stores one byte of each write, and whose disk is full. *)
Definition short_system : FileOps unit := {|
  file_len _ := mret 10;
  read_exact_at _ n _ := mret (zeros n);
  file_write_at _ buf _ := mret (Z.min 1 (zlen buf));
  file_set_len _ _ := throw (OsError EIO);
  fcntl_getfd _ _ := 0;
  close_fd _ w := w;
|}.
#[local] Existing Instance short_system.
#[local] Instance short_no_verity : VerityIoctl unit := λ _ _ _, throw 95.
#[local] Instance short_contract : SystemContract unit.
Proof.
  split; try done.
  - intros fd n off w bs w' Hn [= <- _]. unfold zeros. rewrite length_replicate. lia.
  - intros fd buf off w n w' [= <- _]. lia.
Qed.


Lemma ro_fds_roundtrip_example :
  let s := show_int in
  parse_arg_ro_fds (s 3) demo_fds = (Ok (3, Readonly 3 None None), demo_fds) ∧
  parse_arg_ro_fds (s 3 +:+ ":" +:+ s 4) demo_fds = (Ok (3, Readonly 3 (Some 4) None), demo_fds) ∧
  parse_arg_ro_fds (s 3 +:+ ":" +:+ s 4 +:+ ":" +:+ s 5) demo_fds =
    (Ok (3, Readonly 3 (Some 4) (Some 5)), demo_fds).
Proof.
  apply (ro_fds_roundtrip 3 4 5 demo_fds).
  - by eexists.
  - by eexists.
  - by eexists.
  - repeat constructor; vm_compute; congruence.
Defined.

Lemma duplicate_fd_is_closed_example :
  ∃ pool, parse_args [show_int 3; show_int 3] [] demo_fds = (Ok pool, delete 3 demo_fds) ∧
    pool !! 3 = Some (Readonly 3 None None) ∧
    readFile (IVirtFdService := FdService_service (bm := release)) {| fd_pool := pool |} 3 0 10
      (delete 3 demo_fds) = (Err (from_status ERROR_IO), delete 3 demo_fds).
Proof.
  apply (duplicate_fd_is_closed (bm := release) demo_fds 3 [Byte.x01; Byte.x02] 0 10).
  - reflexivity.
  - lia.
  - vm_compute. split; congruence.
  - lia.
Defined.
End instances.
