(* ===== verification/Verifier.v ===== *)
(** * The verifying reader (authfs/src/fsverity/verifier.rs, authfs/src/auth.rs)

    [VerifiedFileReader] reads a file and its Merkle tree from storage nobody
    trusts and checks every chunk against a root hash that was authenticated
    once.  The two main results: what an honest tree serves is accepted
    ([verity_check_intact]), and whatever storage answers, a chunk that is
    accepted is the chunk of the file whose root was authenticated, unless what
    the run hashed clashes with the messages of the true path: two different
    messages at the same place with the same SHA-256 ([verity_check_sound]). *)
From S2P Require Import Prelude RustInt Crypto Common Fsverity Merkle Builder File.

(** ** auth.rs *)
Class Authenticator (A : Type) :=
  verify : A → list byte → list byte → outcome io_error bool.

Record FakeAuthenticator := { should_allow : bool }.
Module FakeAuthenticator.
Definition always_succeed : FakeAuthenticator := {| should_allow := true |}.
Definition always_fail : FakeAuthenticator := {| should_allow := false |}.
End FakeAuthenticator.
#[global] Instance FakeAuthenticator_verify : Authenticator FakeAuthenticator :=
  λ self _ _, Ok (should_allow self).

(** ** verifier.rs *)
(** The size of [struct fsverity_formatted_digest] in Linux with SHA-256. *)
Definition SIZE_OF_FSVERITY_FORMATTED_DIGEST_SHA256 : Z := 12 + HASH_SIZE.

(** [dst[a..b].copy_from_slice(src)] panics out of range and when the lengths differ. *)
Definition copy_from_slice {E} (dst : list byte) (a b : Z) (src : list byte) : outcome E (list byte) :=
  range ← slice dst a b;
  rassert (zlen range =? zlen src);;
  Ok (take (Z.to_nat a) dst ++ src ++ drop (Z.to_nat b) dst).

Definition ZEROS : list byte := zeros CHUNK_SIZE.

Section hash.
Context `{!Sha256FFI}.
Import Sha256Hasher.

Definition hash_with_padding (chunk : list byte) (pad_to : Z) : outcome CryptoError (list byte) :=
  padding_size ← u64_sub pad_to (zlen chunk);
  h ← new;
  h ← update h chunk;
  padding ← slice ZEROS 0 padding_size;
  h ← update h padding;
  finalize h.
End hash.

Section walk.
Context {E : Type}.

(** The closure mapped over the levels: the size of the level in bytes and
    the offset of the hash in it. *)
Definition walk_level (chunk_index file_size x : Z) : outcome E (Z * Z) :=
  leaves_per_hash ← u64_pow hashes_per_node x;
  leaves_size_per_hash ← u64_mul CHUNK_SIZE leaves_per_hash;
  leaves_size_per_node ← u64_mul leaves_size_per_hash hashes_per_node;
  nodes_at_level ← divide_roundup file_size leaves_size_per_node;
  level_size ← u64_mul nodes_at_level CHUNK_SIZE;
  hash_index ← u64_div chunk_index leaves_per_hash;
  offset_in_level ← u64_mul hash_index HASH_SIZE;
  Ok (level_size, offset_in_level).

(** [.rev().map(..).scan(0, ..).map(..).collect()], from level [x] down. *)
Fixpoint root_to_leaf_steps (chunk_index file_size : Z) (x : nat) (level_offset : Z)
    : outcome E (list (Z * Z)) :=
  '(level_size, offset_in_level) ← walk_level chunk_index file_size (Z.of_nat x);
  next_offset ← u64_add level_offset level_size;
  global_hash_offset ← u64_add level_offset offset_in_level;
  let step := (global_hash_offset / CHUNK_SIZE, global_hash_offset `mod` CHUNK_SIZE) in
  match x with
  | O => Ok [step]
  | S x =>
      rest ← root_to_leaf_steps chunk_index file_size x next_offset;
      Ok (step :: rest)
  end.

(** The chunk of the tree and the offset in it of each hash on the path from
    the leaf to the root. *)
Definition fsverity_walk (chunk_index file_size : Z) : outcome E (list (Z * Z)) :=
  max_level ← merkle_tree_height file_size ≫= unwrap;
  steps ← root_to_leaf_steps chunk_index file_size (Z.to_nat max_level) 0;
  Ok (reverse steps).
End walk.

Section check.
Context `{!Sha256FFI} {W T : Type} `{!ReadByChunk W T}.

(** One element of the walk and the closure folded over it. *)
Definition verity_step (merkle_tree : T) (actual_hash : list byte) (step : Z * Z)
    : M W FsverityError (list byte) :=
  let '(chunk_index, hash_offset_in_chunk) := step in
  '(_, merkle_chunk) ← m_map_err Io (read_chunk merkle_tree chunk_index (zeros CHUNK_SIZE));
  expected_hash ← lift
    (slice merkle_chunk hash_offset_in_chunk (hash_offset_in_chunk + HASH_SIZE));
  if bool_decide (actual_hash = expected_hash)
  then lift (crypto_fsverity (hash_with_padding merkle_chunk CHUNK_SIZE))
  else throw CannotVerify.

Definition verity_check (chunk : list byte) (chunk_index file_size : Z) (merkle_tree : T)
    : M W FsverityError (list byte) :=
  lift (rassert (negb (file_size =? 0)));;
  chunk_hash ← lift (crypto_fsverity (hash_with_padding chunk CHUNK_SIZE));
  steps ← lift (fsverity_walk chunk_index file_size);
  mfold (verity_step merkle_tree) chunk_hash steps.

Definition build_fsverity_formatted_digest (root_hash : list byte) (file_size : Z)
    : outcome CryptoError (list byte) :=
  digest ← build_fsverity_digest root_hash file_size;
  let formatted_digest := zeros SIZE_OF_FSVERITY_FORMATTED_DIGEST_SHA256 in
  formatted_digest ← copy_from_slice formatted_digest 0 8 FS_VERITY_MAGIC;
  formatted_digest ← copy_from_slice formatted_digest 8 10 (to_le_bytes 2 FS_VERITY_HASH_ALG_SHA256);
  formatted_digest ← copy_from_slice formatted_digest 10 12 (to_le_bytes 2 HASH_SIZE);
  copy_from_slice formatted_digest 12 (zlen formatted_digest) digest.
End check.

Record VerifiedFileReader (F T : Type) := {
  chunked_file : F;
  verified_file_size : Z;
  merkle_tree : T;
  root_hash : list byte;
}.
Arguments chunked_file {F T} _.
Arguments verified_file_size {F T} _.
Arguments merkle_tree {F T} _.
Arguments root_hash {F T} _.
Arguments Build_VerifiedFileReader {F T} _ _ _ _.

Module VerifiedFileReader.
Section impl.
Context `{!Sha256FFI} {W F T A : Type} `{!ReadByChunk W F, !ReadByChunk W T, !Authenticator A}.
Import Sha256Hasher.

Definition new (authenticator : A) (chunked_file : F) (file_size : Z) (sig : list byte)
    (merkle_tree : T) : M W FsverityError (VerifiedFileReader F T) :=
  '(size, buf) ← m_map_err Io (read_chunk merkle_tree 0 (zeros CHUNK_SIZE));
  if negb (zlen buf =? size) then throw (InsufficientData size)
  else
    root_hash ← lift (crypto_fsverity (h ← Sha256Hasher.new; h ← update h buf; finalize h));
    formatted_digest ← lift (crypto_fsverity (build_fsverity_formatted_digest root_hash file_size));
    valid ← lift (map_err Io (verify authenticator sig formatted_digest));
    if (valid : bool)
    then mret (Build_VerifiedFileReader chunked_file file_size merkle_tree root_hash)
    else throw BadSignature.
End impl.
End VerifiedFileReader.

#[global] Instance VerifiedFileReader_read_chunk `{!Sha256FFI} {W F T}
    `{!ReadByChunk W F, !ReadByChunk W T} : ReadByChunk W (VerifiedFileReader F T) :=
  λ self chunk_index buf,
    '(size, buf) ← read_chunk (chunked_file self) chunk_index buf;
    data ← lift (slice buf 0 size);
    root ← m_map_err (λ _, OsError EIO)
      (verity_check data chunk_index (verified_file_size self) (merkle_tree self));
    if bool_decide (root = root_hash self) then mret (size, buf) else throw (OsError EIO).

(** ** The walk *)

(** The largest file whose walk stays within 64 bits: the root page of a tree
    of height six covers exactly this many bytes. *)
Definition max_walk_size : Z := 2 ^ 61.
#[global] Program Instance zify_max_walk_size : CstOp max_walk_size := {| TCst := 2305843009213693952 |}.
Next Obligation. reflexivity. Qed.
Add Zify CstOp zify_max_walk_size.

(** Pages at a level, and pages stored before it: the tree is laid out from
    the root down. *)
Definition nodes (size : Z) (y : nat) : Z :=
  let per_node := CHUNK_SIZE * 128 ^ (Z.of_nat y + 1) in (size + per_node - 1) / per_node.
Definition base (size : Z) (k x : nat) : Z := foldr Z.add 0 (nodes size <$> seq (S x) (k - x)).
Definition step_at (size idx : Z) (k x : nat) : Z * Z :=
  (base size k x + idx / 128 ^ (Z.of_nat x + 1), (idx / 128 ^ Z.of_nat x) `mod` 128 * HASH_SIZE).

Lemma pow128_pos n : 0 ≤ n → 0 < 128 ^ n.
Proof. intros. apply Z.pow_pos_nonneg; lia. Qed.


Lemma nodes_bound size y :
  0 < size ≤ max_walk_size → 0 ≤ nodes size y ≤ 4398046511105.
Proof.
  intros Hsize. unfold nodes, CHUNK_SIZE. cbv zeta. rewrite Z.pow_add_r by lia.
  pose proof (pow128_pos (Z.of_nat y)).
  remember (4096 * (128 ^ Z.of_nat y * 128 ^ 1)) as b eqn:Hb.
  assert (524288 ≤ b) by lia. clear Hb.
  remember ((size + b - 1) / b) as n eqn:Hn. apply roundup_bounds in Hn; [|lia..]. nia.
Qed.

Section heights.
Context (size : Z) (k : nat) (Hsize : 0 < size ≤ max_walk_size) (Hk : is_height size k).

Lemma height_le_6 : (k ≤ 6)%nat.
Proof.
  destruct Hk as [_ [->|Hlt]]; [lia|]. destruct (decide (k ≤ 6)%nat); [done|].
  assert (128 ^ 7 ≤ 128 ^ Z.of_nat k) by (apply Z.pow_le_mono_r; lia).
  change (128 ^ 7) with 562949953421312 in *. lia.
Qed.

Lemma pow128_le_6 x : (x ≤ k)%nat → 1 ≤ 128 ^ Z.of_nat x ≤ 4398046511104.
Proof.
  intros Hx. pose proof height_le_6. pose proof (pow128_pos (Z.of_nat x)).
  split; [lia|]. change 4398046511104 with (128 ^ 6). apply Z.pow_le_mono_r; lia.
Qed.

Lemma base_bound x : (x ≤ k)%nat → 0 ≤ base size k x ≤ 6 * 4398046511105.
Proof.
  intros Hx. pose proof height_le_6. unfold base.
  assert (∀ l, 0 ≤ foldr Z.add 0 (nodes size <$> l) ≤ zlen l * 4398046511105) as Hl.
  { induction l as [|y l IH]; [simpl; lia|].
    rewrite fmap_cons, length_cons. cbn [foldr]. pose proof (nodes_bound size y Hsize). lia. }
  specialize (Hl (seq (S x) (k - x))). rewrite length_seq in Hl. lia.
Qed.

Lemma base_step x : (S x ≤ k)%nat → base size k x = base size k (S x) + nodes size (S x).
Proof.
  intros Hx. unfold base. replace (k - x)%nat with (S (k - S x)) by lia.
  cbn [seq]. rewrite fmap_cons. cbn [foldr]. lia.
Qed.

End heights.

Section walk_spec.
Context (size idx : Z) (k : nat).
Context (Hsize : 0 < size ≤ max_walk_size) (Hk : is_height size k).
Context (Hidx : 0 ≤ idx) (Hrange : idx * CHUNK_SIZE < size).

Lemma walk_level_spec {E} x :
  (x ≤ k)%nat →
  walk_level (E := E) idx size (Z.of_nat x) =
    Ok (nodes size x * CHUNK_SIZE, idx / 128 ^ Z.of_nat x * HASH_SIZE).
Proof.
  intros Hx. pose proof (pow128_le_6 size k Hsize Hk x Hx). pose proof (nodes_bound size x Hsize).
  unfold walk_level. change hashes_per_node with 128.
  rewrite u64_pow_Ok by lia. cbn [mbind outcome_bind].
  rewrite u64_mul_Ok by lia. cbn [mbind outcome_bind].
  rewrite u64_mul_Ok by lia. cbn [mbind outcome_bind].
  rewrite divide_roundup_Ok by lia. cbn [mbind outcome_bind].
  replace (CHUNK_SIZE * 128 ^ Z.of_nat x * 128) with (CHUNK_SIZE * 128 ^ (Z.of_nat x + 1))
    by (rewrite Z.pow_add_r by lia; lia).
  fold (nodes size x). rewrite u64_mul_Ok by lia. cbn [mbind outcome_bind].
  rewrite u64_div_Ok by lia. cbn [mbind outcome_bind].
  assert (idx / 128 ^ Z.of_nat x ≤ idx) by (apply Z.div_le_upper_bound; nia).
  by rewrite u64_mul_Ok by lia.
Qed.

Lemma global_offset_step x :
  let global := base size k x * CHUNK_SIZE + idx / 128 ^ Z.of_nat x * HASH_SIZE in
  (global / CHUNK_SIZE, global `mod` CHUNK_SIZE) = step_at size idx k x.
Proof.
  unfold step_at. pose proof (pow128_pos (Z.of_nat x)).
  rewrite Z.pow_add_r, <- Z.div_div by lia. change (128 ^ 1) with 128.
  generalize (base size k x) (idx / 128 ^ Z.of_nat x). intros b q.
  unfold CHUNK_SIZE, HASH_SIZE. clear. cbv zeta. f_equal; divlia.
Qed.

Lemma root_to_leaf_steps_spec {E} x :
  (x ≤ k)%nat →
  root_to_leaf_steps (E := E) idx size x (base size k x * CHUNK_SIZE) =
    Ok (reverse (step_at size idx k <$> seq 0 (S x))).
Proof.
  induction x as [|x IH]; intros Hx.
  all: pose proof (base_bound size k Hsize Hk _ Hx); pose proof (nodes_bound size 0 Hsize).
  all: cbn [root_to_leaf_steps]; rewrite walk_level_spec by done; cbn [mbind outcome_bind].
  - pose proof (pow128_pos 0). assert (idx / 128 ^ Z.of_nat 0 ≤ idx) by (apply Z.div_le_upper_bound; lia).
    rewrite !u64_add_Ok by lia. cbn [mbind outcome_bind]. by rewrite global_offset_step.
  - pose proof (nodes_bound size (S x) Hsize). pose proof (pow128_le_6 size k Hsize Hk _ Hx).
    assert (idx / 128 ^ Z.of_nat (S x) ≤ idx) by (apply Z.div_le_upper_bound; nia).
    rewrite !u64_add_Ok by lia. cbn [mbind outcome_bind]. rewrite global_offset_step.
    replace (base size k (S x) * CHUNK_SIZE + nodes size (S x) * CHUNK_SIZE)
      with (base size k x * CHUNK_SIZE) by (rewrite base_step by lia; lia).
    rewrite IH by lia. cbn [mbind outcome_bind].
    rewrite (seq_S (S x)), fmap_app, reverse_app. done.
Qed.

(** The walk visits every level once, from the leaf's to the root's. *)
Lemma fsverity_walk_spec {E} :
  fsverity_walk (E := E) idx size = Ok (step_at size idx k <$> seq 0 (S k)).
Proof.
  unfold fsverity_walk.
  destruct (merkle_tree_height_spec (E := E) size) as (k' & -> & Hk'); [lia|].
  rewrite (is_height_unique _ _ _ Hk' Hk). cbn [mbind outcome_bind unwrap].
  rewrite Nat2Z.id. replace 0 with (base size k k * CHUNK_SIZE) at 1
    by (unfold base; rewrite Nat.sub_diag; done).
  rewrite root_to_leaf_steps_spec by lia. cbn [mbind outcome_bind]. by rewrite reverse_involutive.
Qed.
End walk_spec.

(** ** The path from a chunk to the root *)
Section path.
Context `{!Sha256FFI, !Sha256Spec}.
Implicit Types (c : list byte) (i j x k : nat).

(** The root of the tree the verifier walks: it always has a page level, also
    over a single block. *)
Definition verity_root c : list byte :=
  reduce (length (leaf_hashes c)) (hash_pages (leaf_hashes c)).

(** Page [i] of the level that holds the hashes of level [x]. *)
Definition page_at c x i : list byte :=
  page (take hpp (drop (i * hpp) (level_up x (leaf_hashes c)))).

Lemma level_S_lookup c x i h :
  level_up (S x) (leaf_hashes c) !! i = Some h → h = sha256 (page_at c x i).
Proof.
  cbn [level_up Nat.iter nat_rect]. fold (level_up x (leaf_hashes c)).
  rewrite lookup_hash_pages. case_decide; [|done]. by intros [= <-].
Qed.

Lemma length_page_at c x i : length (page_at c x i) = csz.
Proof.
  apply length_page; [|rewrite length_take; lia].
  apply all_hashes_take, all_hashes_drop, all_hashes_level_up, all_hashes_leaf_hashes.
Qed.

Lemma level_range c idx x :
  0 ≤ idx → idx * CHUNK_SIZE < zlen c →
  (Z.to_nat (idx / 128 ^ Z.of_nat x) < length (level_up x (leaf_hashes c)))%nat.
Proof.
  intros Hi Hr. pose proof (pow128_pos (Z.of_nat x)) as Hp.
  pose proof (length_level_up x (leaf_hashes c)) as Hl.
  pose proof (length_leaf_hashes c) as Hn. unfold CHUNK_SIZE in Hr.
  apply roundup_bounds in Hn; [|lia..]. apply roundup_bounds in Hl; [|lia..].
  pose proof (Z.mul_div_le idx (128 ^ Z.of_nat x) ltac:(lia)).
  pose proof (Z.div_pos idx (128 ^ Z.of_nat x) ltac:(lia) ltac:(lia)). nia.
Qed.

(** The hash of node [idx / 128^x] sits in its parent page at the offset the
    walk computes. *)
Lemma page_at_hash c idx x h :
  0 ≤ idx →
  level_up x (leaf_hashes c) !! Z.to_nat (idx / 128 ^ Z.of_nat x) = Some h →
  take hsz (drop (Z.to_nat ((idx / 128 ^ Z.of_nat x) `mod` 128 * HASH_SIZE))
    (page_at c x (Z.to_nat (idx / 128 ^ (Z.of_nat x + 1))))) = h.
Proof.
  intros Hi Hh. pose proof (pow128_pos (Z.of_nat x)) as Hp.
  rewrite Z.pow_add_r, <- Z.div_div by lia. change (128 ^ 1) with 128.
  remember (idx / 128 ^ Z.of_nat x) as q eqn:Hq.
  assert (0 ≤ q) by (subst; apply Z.div_pos; lia). clear Hq Hp Hi.
  replace (Z.to_nat (q `mod` 128 * HASH_SIZE)) with (Z.to_nat (q `mod` 128) * hsz)%nat by divlia.
  apply page_lookup.
  - apply all_hashes_take, all_hashes_drop, all_hashes_level_up, all_hashes_leaf_hashes.
  - rewrite lookup_take_lt by divlia. rewrite lookup_drop, <- Hh. f_equal. divlia.
Qed.

Lemma verity_root_level_up c k :
  0 < zlen c → is_height (zlen c) k → level_up (S k) (leaf_hashes c) = [verity_root c].
Proof.
  intros Hc [Hhi Hlo]. pose proof (length_leaf_hashes c) as Hn.
  unfold CHUNK_SIZE in *. apply roundup_bounds in Hn; [|lia..].
  pose proof (length_hash_pages (leaf_hashes c)) as Hm. apply roundup_bounds in Hm; [|lia..].
  rewrite Z.pow_add_r in Hhi by lia. unfold verity_root, level_up.
  rewrite Nat.iter_succ_r. fold (level_up k (hash_pages (leaf_hashes c))).
  destruct k as [|k].
  - change (128 ^ Z.of_nat 0) with 1 in *.
    destruct (hash_pages _) as [|h [|h' hs]]; [simpl in Hm; lia| |rewrite !length_cons in Hm; lia].
    unfold level_up; simpl. f_equal. by destruct (length (leaf_hashes c)).
  - destruct Hlo as [|Hlo]; [done|]. rewrite Nat2Z.inj_succ, Z.pow_succ_r in * by lia.
    pose proof (Z.pow_gt_lin_r 128 (Z.of_nat k) ltac:(lia) ltac:(lia)).
    apply reduce_level_up; [rewrite Z.pow_add_r by lia; lia|lia].
Qed.

Lemma verity_root_fsverity_root c :
  CHUNK_SIZE < zlen c ≤ max_height_size → verity_root c = fsverity_root c.
Proof.
  intros Hc. destruct (merkle_tree_height_spec (E := unit) (zlen c)) as (k & _ & Hk); [lia|].
  pose proof (verity_root_level_up c k ltac:(lia) Hk) as H1.
  pose proof (fsverity_root_level_up c k ltac:(lia) Hk). congruence.
Qed.

Lemma height_idx_0 size idx k :
  0 ≤ idx → idx * CHUNK_SIZE < size → is_height size k → idx / 128 ^ (Z.of_nat k + 1) = 0.
Proof. intros ? ? [? _]. apply Z.div_small. lia. Qed.
End path.

(** ** The messages of a run *)

(** The pages above chunk [idx], from the one with the hashes of level [x] up. *)
Definition pages_above `{!Sha256FFI, !Sha256Spec} (c : list byte) (idx : Z) (x m : nat)
    : list (list byte) :=
  (λ y, page_at c y (Z.to_nat (idx / 128 ^ (Z.of_nat y + 1)))) <$> seq x m.
(** What has to be hashed to get from chunk [idx] of [c] to the root: the padded chunk
    and the pages above it. *)
Definition path_messages `{!Sha256FFI, !Sha256Spec} (c : list byte) (idx : Z) : list (list byte) :=
  window c (Z.to_nat idx * csz) csz ::
  match merkle_tree_height (E := unit) (zlen c) with
  | Ok (Some k) => pages_above c idx 0 (S (Z.to_nat k))
  | _ => []
  end.

Section messages.
Context {W F T : Type} `{!ReadByChunk W F, !ReadByChunk W T}.

(** The pages the tree storage hands out on a walk, each read in the world the one before
    it left. *)
Fixpoint served_pages (tree : T) (steps : list (Z * Z)) (w : W) : list (list byte) :=
  match steps with
  | [] => []
  | step :: steps =>
      match read_chunk tree step.1 (zeros CHUNK_SIZE) w with
      | (Ok (_, pg), w') => pg :: served_pages tree steps w'
      | _ => []
      end
  end.

(** What the check of [data] as chunk [idx] hashes, in order. *)
Definition check_messages (data : list byte) (idx size : Z) (tree : T) (w : W) : list (list byte) :=
  pad_to csz data ::
  match fsverity_walk (E := unit) idx size with Ok steps => served_pages tree steps w | _ => [] end.

(** What a read of chunk [idx] hashes, in order. *)
Definition run_messages (r : VerifiedFileReader F T) (idx : Z) (buf : list byte) (w : W)
    : list (list byte) :=
  match read_chunk (chunked_file r) idx buf w with
  | (Ok (size, buf'), w') =>
      check_messages (take (Z.to_nat size) buf') idx (verified_file_size r) (merkle_tree r) w'
  | _ => []
  end.

Lemma served_pages_cons tree step steps w n pg w' :
  read_chunk tree step.1 (zeros CHUNK_SIZE) w = (Ok (n, pg), w') →
  served_pages tree (step :: steps) w = pg :: served_pages tree steps w'.
Proof. cbn [served_pages]. by intros ->. Qed.
End messages.

Section path_lemmas.
Context `{!Sha256FFI, !Sha256Spec}.

Lemma pages_above_cons c idx x m :
  pages_above c idx x (S m) =
    page_at c x (Z.to_nat (idx / 128 ^ (Z.of_nat x + 1))) :: pages_above c idx (S x) m.
Proof. done. Qed.

Lemma path_messages_height c idx k :
  0 < zlen c ≤ max_height_size → is_height (zlen c) k →
  path_messages c idx = window c (Z.to_nat idx * csz) csz :: pages_above c idx 0 (S k).
Proof.
  intros Hc Hk. unfold path_messages.
  destruct (merkle_tree_height_spec (E := unit) (zlen c)) as (k' & -> & Hk'); [lia|].
  by rewrite (is_height_unique _ _ _ Hk' Hk), Nat2Z.id.
Qed.
End path_lemmas.

(** ** Checking a chunk *)
Section check_spec.
Context `{!Sha256FFI, !Sha256Spec} {W T : Type} `{!ReadByChunk W T}.

Lemma hash_with_padding_spec chunk :
  (length chunk ≤ csz)%nat →
  hash_with_padding chunk CHUNK_SIZE = Ok (sha256 (pad_to csz chunk)).
Proof.
  intros Hl. unfold hash_with_padding, ZEROS. rewrite u64_sub_Ok by lia.
  cbn [mbind outcome_bind]. rewrite slice_Ok; [|lia| |].
  - hash_steps. do 2 f_equal. unfold pad_to. f_equal. unfold zeros.
    rewrite drop_0, take_replicate. f_equal. lia.
  - lia.
  - rewrite length_zero_buffer. lia.
Qed.

Lemma pad_to_full b : length b = csz → pad_to csz b = b.
Proof. intros Hl. unfold pad_to. rewrite Hl, Nat.sub_diag. apply app_nil_r. Qed.

Section soundness.
Context `{!BufferReader W T}.

Lemma verity_step_inv tree acc p off w h w' :
  verity_step tree acc (p, off) w = (Ok h, w') →
  ∃ size buf, read_chunk tree p (zeros CHUNK_SIZE) w = (Ok (size, buf), w') ∧ length buf = csz ∧
    acc = take hsz (drop (Z.to_nat off) buf) ∧ h = sha256 buf.
Proof.
  intros Hs. unfold verity_step in Hs. inv_bind.
  destruct r as [size buf]. inv_bind.
  assert (length buf = csz) as Hb.
  { destruct (read_chunk_prefix _ _ _ _ _ _ _ length_zero_buffer Hr) as (data & _ & Hd & ->).
    rewrite zero_buffer_prefix by done. by apply length_pad_to. }
  match goal with Hsl : slice _ _ _ = Ok _ |- _ => apply slice_Ok_inv in Hsl as (_ & _ & _ & ->) end.
  replace (Z.to_nat (off + HASH_SIZE - off)) with hsz in * by lia.
  case_bool_decide; [|done]. rewrite hash_with_padding_spec in Hs by lia.
  rewrite pad_to_full in Hs by done. unfold lift, crypto_fsverity, map_err in Hs.
  exists size, buf. naive_solver.
Qed.

(** The fold from level [x] up can only end in the root if it started from
    the right hash of level [x]. *)
Lemma verity_fold_sound c idx k tree m x acc w root w' :
  0 ≤ idx → idx * CHUNK_SIZE < zlen c → is_height (zlen c) k → (x + m = S k)%nat →
  mfold (verity_step tree) acc (step_at (zlen c) idx k <$> seq x m) w = (Ok root, w') →
  root = verity_root c →
  level_up x (leaf_hashes c) !! Z.to_nat (idx / 128 ^ Z.of_nat x) = Some acc ∨
  clash (pages_above c idx x m) (served_pages tree (step_at (zlen c) idx k <$> seq x m) w).
Proof.
  intros Hi Hr Hk. revert x acc w. induction m as [|m IH]; intros x acc w Hx Hf ->.
  - simpl in Hf. inv_bind. left. replace x with (S k) by lia.
    rewrite (verity_root_level_up c k) by (done || lia).
    replace (Z.of_nat (S k)) with (Z.of_nat k + 1) by lia.
    by rewrite (height_idx_0 (zlen c)).
  - cbn [seq] in Hf. rewrite fmap_cons in Hf. cbn [mfold] in Hf. inv_bind.
    cbn [seq]. rewrite fmap_cons, pages_above_cons.
    apply verity_step_inv in Hr0 as (n & buf & Hrd & Hb & Hacc & ->).
    erewrite served_pages_cons by exact Hrd.
    destruct (IH (S x) _ _ ltac:(lia) Hf eq_refl) as [Hup|]; [|right; by apply clash_tail].
    replace (Z.of_nat (S x)) with (Z.of_nat x + 1) in Hup by lia.
    apply level_S_lookup, eq_sym in Hup.
    eapply same_digest_or_clash in Hup as [Hup|]; [|right; eassumption].
    subst buf. left. destruct (lookup_lt_is_Some_2 _ _ (level_range c idx x Hi Hr)) as [h Hh].
    rewrite Hh. f_equal. by rewrite Hacc, (page_at_hash c idx x h).
Qed.

(** Whatever the tree storage answers, a chunk that hashes up to the root of
    [c] is the chunk of [c]. *)
Lemma verity_check_sound c idx tree data w root w' :
  0 ≤ idx → idx * CHUNK_SIZE < zlen c → zlen c ≤ max_walk_size → (length data ≤ csz)%nat →
  verity_check data idx (zlen c) tree w = (Ok root, w') → root = verity_root c →
  pad_to csz data = window c (Z.to_nat idx * csz) csz ∨
  clash (path_messages c idx) (check_messages data idx (zlen c) tree w).
Proof.
  intros Hi Hr Hs Hd Hv Hroot. unfold verity_check in Hv. inv_bind.
  match goal with Hh : crypto_fsverity (hash_with_padding _ _) = Ok _ |- _ =>
    rewrite hash_with_padding_spec in Hh by done; simplify_eq/= end.
  destruct (merkle_tree_height_spec (E := unit) (zlen c)) as (k & _ & Hk); [lia|].
  match goal with Hw : fsverity_walk _ _ = Ok _ |- _ =>
    rewrite (fsverity_walk_spec (zlen c) idx k) in Hw by (done || lia); simplify_eq end.
  rewrite (path_messages_height c idx k) by (done || lia). unfold check_messages.
  rewrite (fsverity_walk_spec (zlen c) idx k) by (done || lia).
  destruct (verity_fold_sound c idx k tree (S k) 0 _ _ _ _ Hi Hr Hk eq_refl Hv eq_refl)
    as [Hl|]; [|right; by apply clash_tail].
  change (Z.of_nat 0) with 0 in Hl. rewrite Z.pow_0_r, Z.div_1_r in Hl.
  cbn [level_up Nat.iter nat_rect] in Hl. rewrite lookup_leaf_hashes in Hl.
  case_decide; [|done]. injection Hl as Hl.
  eapply same_digest_or_clash in Hl as [Hl|]; [by left|right; eassumption].
Qed.
End soundness.

(** ** An honest tree *)

(** The Merkle tree as it is stored: levels from the root down. *)
Fixpoint tree_pages (c : list byte) (x : nat) : list (list byte) :=
  pages (level_up x (leaf_hashes c)) ++
  match x with O => [] | S x => tree_pages c x end.
Definition merkle_tree_bytes (c : list byte) (k : nat) : list byte := concat (tree_pages c k).

Lemma window_concat_pages (ps : list (list byte)) p pg :
  Forall (λ b, length b = csz) ps → ps !! p = Some pg →
  window (concat ps) (p * csz) csz = pg.
Proof.
  intros Hps Hp. apply list_elem_of_split_length in Hp as (l1 & l2 & -> & ->).
  apply Forall_app in Hps as [H1 [Hpg _]%Forall_cons_1].
  rewrite <- pad_to_chunk, concat_app. cbn [concat].
  rewrite drop_app_length'.
  - rewrite take_app_length' by done. by apply pad_to_full.
  - clear -H1. induction H1 as [|b l Hb _ IH]; simpl; [done|]. rewrite length_app, Hb, IH. lia.
Qed.

Lemma Forall_tree_pages c x : Forall (λ b, length b = csz) (tree_pages c x).
Proof.
  assert (∀ hs, all_hashes hs → Forall (λ b, length b = csz) (pages hs)) as Hp.
  { intros hs Hh. apply Forall_lookup. intros i b. unfold pages.
    rewrite list_lookup_fmap, lookup_chunks by lia. case_decide; [|done]. intros [= <-].
    apply length_page; [by apply all_hashes_take, all_hashes_drop|rewrite length_take; lia]. }
  assert (∀ y, all_hashes (level_up y (leaf_hashes c))) as Hl.
  { intros y. apply all_hashes_level_up, all_hashes_leaf_hashes. }
  induction x as [|x IH]; cbn [tree_pages]; apply Forall_app; auto using Forall_nil_2.
Qed.

Lemma length_level_pages c y : zlen (pages (level_up y (leaf_hashes c))) = nodes (zlen c) y.
Proof.
  replace (zlen (pages (level_up y (leaf_hashes c)))) with (zlen (level_up (S y) (leaf_hashes c)))
    by (cbn [level_up Nat.iter nat_rect]; unfold hash_pages; by rewrite length_fmap).
  rewrite length_level_up, length_leaf_hashes. unfold nodes, CHUNK_SIZE. cbv zeta.
  replace (Z.of_nat (S y)) with (Z.of_nat y + 1) by lia.
  pose proof (pow128_pos (Z.of_nat y + 1)).
  remember ((zlen c + 4096 - 1) / 4096) as n eqn:Hn. apply roundup_bounds in Hn; [|lia..].
  remember ((n + 128 ^ (Z.of_nat y + 1) - 1) / 128 ^ (Z.of_nat y + 1)) as m eqn:Hm.
  apply roundup_bounds in Hm; [|nia..]. apply roundup_bounds; nia.
Qed.

Lemma level_pages_lookup c idx x :
  0 ≤ idx → idx * CHUNK_SIZE < zlen c →
  pages (level_up x (leaf_hashes c)) !! Z.to_nat (base (zlen c) x x + idx / 128 ^ (Z.of_nat x + 1)) =
    Some (page_at c x (Z.to_nat (idx / 128 ^ (Z.of_nat x + 1)))).
Proof.
  intros Hi Hr. unfold base. rewrite Nat.sub_diag. simpl seq. cbn [fmap list_fmap foldr].
  rewrite Z.add_0_l. pose proof (level_range c idx (S x) Hi Hr) as Hl.
  replace (Z.of_nat (S x)) with (Z.of_nat x + 1) in Hl by lia.
  cbn [level_up Nat.iter nat_rect] in Hl. fold (level_up x (leaf_hashes c)) in Hl.
  unfold hash_pages in Hl. rewrite length_fmap in Hl. unfold pages in *. rewrite length_fmap in Hl.
  apply lt_length_chunks in Hl; [|lia].
  rewrite list_lookup_fmap, lookup_chunks by lia. by rewrite decide_True.
Qed.

Lemma tree_pages_lookup c idx k x :
  0 ≤ idx → idx * CHUNK_SIZE < zlen c → (x ≤ k)%nat →
  tree_pages c k !! Z.to_nat (base (zlen c) k x + idx / 128 ^ (Z.of_nat x + 1)) =
    Some (page_at c x (Z.to_nat (idx / 128 ^ (Z.of_nat x + 1)))).
Proof.
  intros Hi Hr Hx. pose proof (pow128_pos (Z.of_nat x + 1)).
  assert (0 ≤ idx / 128 ^ (Z.of_nat x + 1)) by (apply Z.div_pos; lia).
  induction k as [|k IH].
  - assert (x = O) as -> by lia. cbn [tree_pages]. rewrite app_nil_r.
    by apply level_pages_lookup.
  - cbn [tree_pages]. destruct (decide (x = S k)) as [->|Hne].
    + rewrite lookup_app_l; [by apply level_pages_lookup|].
      eapply lookup_lt_Some, level_pages_lookup; done.
    + assert (base (zlen c) (S k) x = base (zlen c) k x + nodes (zlen c) (S k)) as ->.
      { unfold base. replace (S k - x)%nat with (S (k - x)) by lia.
        rewrite seq_S, fmap_app, foldr_app. replace (S x + (k - x))%nat with (S k) by lia.
        cbn [fmap list_fmap foldr].
        generalize (nodes (zlen c) <$> seq (S x) (k - x)) as l. clear.
        induction l; simpl; lia. }
      pose proof (length_level_pages c (S k)) as Hl.
      assert (0 ≤ base (zlen c) k x).
      { unfold base. clear IH. generalize (seq (S x) (k - x)). intros l.
        induction l as [|y l IHl]; [done|]. rewrite fmap_cons. cbn [foldr].
        rewrite <- length_level_pages. lia. }
      rewrite lookup_app_r by lia. rewrite <- IH by lia. f_equal. lia.
Qed.

Lemma length_concat_pages (ps : list (list byte)) :
  Forall (λ b, length b = csz) ps → zlen (concat ps) = zlen ps * 4096.
Proof. induction 1 as [|b l Hb _ IH]; [done|]. cbn [concat]. rewrite length_app, length_cons. lia. Qed.

Lemma length_merkle_tree_pages c k :
  zlen (merkle_tree_bytes c k) = zlen (tree_pages c k) * 4096.
Proof. apply length_concat_pages, Forall_tree_pages. Qed.

Lemma length_merkle_tree_bytes c k :
  0 < zlen c ≤ max_walk_size → zlen (merkle_tree_bytes c k) ≤ (Z.of_nat k + 1) * 18014398509486080.
Proof.
  intros Hc. rewrite length_merkle_tree_pages.
  assert (zlen (tree_pages c k) ≤ (Z.of_nat k + 1) * 4398046511105); [|lia].
  induction k as [|k IH]; cbn [tree_pages]; rewrite length_app, Nat2Z.inj_add, length_level_pages.
  - pose proof (nodes_bound (zlen c) 0 Hc). simpl. lia.
  - pose proof (nodes_bound (zlen c) (S k) Hc). lia.
Qed.

Section stored_tree.
Context (tree_content : T → W → option (list byte)) `{!HonestReader W T tree_content}.
Context (c : list byte) (idx : Z) (k : nat).
Context (Hi : 0 ≤ idx) (Hr : idx * CHUNK_SIZE < zlen c) (Hs : zlen c ≤ max_walk_size).
Context (Hk : is_height (zlen c) k).

(** The page of the stored tree a step of the walk reads. *)
Definition path_page (x : nat) : nat := Z.to_nat (step_at (zlen c) idx k x).1.

Lemma path_page_honest x :
  (x ≤ k)%nat →
  tree_pages c k !! path_page x = Some (page_at c x (Z.to_nat (idx / 128 ^ (Z.of_nat x + 1)))).
Proof. intros Hx. by apply tree_pages_lookup. Qed.

(** A stored tree of the right size, whatever is in its pages. *)
Context (ps : list (list byte)) (Hps : Forall (λ b, length b = csz) ps).
Context (Hlen : length ps = length (tree_pages c k)).

(** What the storage hands out for a page on the path. *)
Lemma path_page_read x tree w pg :
  (x ≤ k)%nat → tree_content tree w = Some (concat ps) → ps !! path_page x = Some pg →
  ∃ n, read_chunk tree (step_at (zlen c) idx k x).1 (zeros CHUNK_SIZE) w = (Ok (n, pg), w).
Proof.
  intros Hx Ht Hpg. unfold path_page in Hpg. unfold step_at in *. cbn [fst] in *.
  pose proof (height_le_6 (zlen c) k ltac:(lia) Hk).
  pose proof (base_bound (zlen c) k ltac:(lia) Hk x Hx).
  pose proof (length_merkle_tree_bytes c k ltac:(lia)) as Hb.
  pose proof (pow128_pos (Z.of_nat x + 1) ltac:(lia)).
  assert (0 ≤ idx / 128 ^ (Z.of_nat x + 1) ≤ idx)
    by (split; [apply Z.div_pos|apply Z.div_le_upper_bound]; nia).
  pose proof (lookup_lt_Some _ _ _ Hpg). pose proof (length_concat_pages ps Hps) as Hl.
  rewrite length_merkle_tree_pages in Hb. eexists.
  rewrite (read_chunk_honest_zeros tree_content _ _ _ _ Ht) by lia.
  by erewrite window_concat_pages.
Qed.

(** A step compares the hash with the one in the page and goes on with the hash of the page. *)
Lemma verity_step_page x tree acc w pg :
  (x ≤ k)%nat → tree_content tree w = Some (concat ps) → ps !! path_page x = Some pg →
  verity_step tree acc (step_at (zlen c) idx k x) w =
    (if bool_decide (acc = take hsz (drop (Z.to_nat (step_at (zlen c) idx k x).2) pg))
     then Ok (sha256 pg) else Err CannotVerify, w).
Proof.
  intros Hx Ht Hpg. destruct (path_page_read x tree w pg Hx Ht Hpg) as [n Hread].
  pose proof (Forall_lookup_1 _ _ _ _ Hps Hpg) as Hpl. cbn in Hpl.
  unfold verity_step, step_at in *. cbn [fst snd] in *.
  erewrite M_bind_Ok by (unfold m_map_err; rewrite Hread; done). cbv beta iota.
  pose proof (Z.mod_pos_bound (idx / 128 ^ Z.of_nat x) 128 ltac:(lia)).
  rewrite slice_Ok by (rewrite ?Hpl; lia). rewrite bind_lift_Ok.
  replace (_ + HASH_SIZE - _) with HASH_SIZE by lia.
  change (Z.to_nat HASH_SIZE) with hsz. case_bool_decide; [|done].
  rewrite hash_with_padding_spec by (rewrite Hpl; lia). by rewrite pad_to_full.
Qed.

Definition path_intact_from (x : nat) : Prop :=
  ∀ y, (x ≤ y ≤ k)%nat → ps !! path_page y = tree_pages c k !! path_page y.

(** An intact path carries the right hash up to the root. *)
Lemma verity_fold_intact m x tree w h :
  (x + m = S k)%nat → tree_content tree w = Some (concat ps) → path_intact_from x →
  level_up x (leaf_hashes c) !! Z.to_nat (idx / 128 ^ Z.of_nat x) = Some h →
  mfold (verity_step tree) h (step_at (zlen c) idx k <$> seq x m) w = (Ok (verity_root c), w).
Proof.
  revert x h. induction m as [|m IH]; intros x h Hx Ht Hin Hh.
  - replace x with (S k) in Hh by lia. rewrite (verity_root_level_up c k) in Hh by (done || lia).
    replace (Z.of_nat (S k)) with (Z.of_nat k + 1) in Hh by lia.
    rewrite (height_idx_0 (zlen c)) in Hh by done. simpl in Hh. by simplify_eq.
  - cbn [seq]. rewrite fmap_cons. cbn [mfold].
    pose proof (path_page_honest x ltac:(lia)) as Hpg. rewrite <- (Hin x) in Hpg by lia.
    pose proof (verity_step_page x tree h w _ ltac:(lia) Ht Hpg) as Hstep.
    rewrite bool_decide_true in Hstep by (symmetry; by apply page_at_hash).
    rewrite (M_bind_Ok _ _ _ _ _ Hstep).
    apply IH; [lia|done|intros y Hy; apply Hin; lia|].
    destruct (lookup_lt_is_Some_2 _ _ (level_range c idx (S x) Hi Hr)) as [h' Hh'].
    rewrite Hh'. apply level_S_lookup in Hh'. subst h'.
    by replace (Z.of_nat (S x)) with (Z.of_nat x + 1) by lia.
Qed.

(** On an intact path the walk is handed the pages of [c]. *)
Lemma served_pages_intact m x tree w :
  (x + m = S k)%nat → tree_content tree w = Some (concat ps) → path_intact_from x →
  served_pages tree (step_at (zlen c) idx k <$> seq x m) w = pages_above c idx x m.
Proof.
  revert x. induction m as [|m IH]; intros x Hx Ht Hin; [done|].
  cbn [seq]. rewrite fmap_cons, pages_above_cons.
  pose proof (path_page_honest x ltac:(lia)) as Hpg. rewrite <- (Hin x) in Hpg by lia.
  destruct (path_page_read x tree w _ ltac:(lia) Ht Hpg) as [n Hrd].
  erewrite served_pages_cons by exact Hrd. f_equal.
  apply IH; [lia|done|]. intros y Hy. apply Hin. lia.
Qed.

(** The pages on the path exist, so the fold ends without a panic. *)
Lemma path_page_stored x : (x ≤ k)%nat → is_Some (ps !! path_page x).
Proof.
  intros Hx. apply lookup_lt_is_Some_2. rewrite Hlen. eapply lookup_lt_Some. by apply path_page_honest.
Qed.

(** A fold that ends in the root has seen nothing but the pages of [c]. *)
Lemma verity_fold_pages `{!BufferReader W T} m x tree w acc :
  (x + m = S k)%nat → tree_content tree w = Some (concat ps) →
  let r := mfold (verity_step tree) acc (step_at (zlen c) idx k <$> seq x m) w in
  r = (Err CannotVerify, w) ∨
  ∃ root, r = (Ok root, w) ∧ (root = verity_root c → path_intact_from x ∨
    clash (pages_above c idx x m) (served_pages tree (step_at (zlen c) idx k <$> seq x m) w)).
Proof.
  cbv zeta. revert x acc. induction m as [|m IH]; intros x acc Hx Ht.
  - right. exists acc. split; [done|]. intros _. left. intros y Hy. lia.
  - cbn [seq]. rewrite fmap_cons. cbn [mfold].
    destruct (path_page_stored x ltac:(lia)) as [pg Hpg].
    pose proof (verity_step_page x tree acc w pg ltac:(lia) Ht Hpg) as Hstep.
    case_bool_decide; [|left; unfold mbind, M_bind; by rewrite Hstep].
    rewrite (M_bind_Ok _ _ _ _ _ Hstep), pages_above_cons.
    destruct (path_page_read x tree w pg ltac:(lia) Ht Hpg) as [n Hrd].
    erewrite served_pages_cons by exact Hrd.
    destruct (IH (S x) (sha256 pg) ltac:(lia) Ht) as [->|(root & Hf & Hroot)]; [by left|].
    rewrite Hf. right. exists root. split; [done|]. intros Heq.
    destruct (Hroot Heq) as [Hin|]; [|right; by apply clash_tail].
    destruct (verity_fold_sound c idx k tree m (S x) _ _ _ _ Hi Hr Hk ltac:(lia) Hf Heq) as [Hup|];
      [|right; by apply clash_tail].
    replace (Z.of_nat (S x)) with (Z.of_nat x + 1) in Hup by lia. apply level_S_lookup, eq_sym in Hup.
    eapply same_digest_or_clash in Hup as [Hup|]; [|right; eassumption]. subst pg. left.
    intros y Hy. destruct (decide (y = x)) as [->|]; [|apply Hin; lia].
    rewrite Hpg. symmetry. apply path_page_honest. lia.
Qed.
End stored_tree.

(** ** Checking a chunk against a stored tree *)
Section checked.
Context (tree_content : T → W → option (list byte)) `{!HonestReader W T tree_content}.
Context (c : list byte) (idx : Z) (k : nat).
Context (Hi : 0 ≤ idx) (Hr : idx * CHUNK_SIZE < zlen c) (Hs : zlen c ≤ max_walk_size).
Context (Hk : is_height (zlen c) k).
Context (ps : list (list byte)) (Hps : Forall (λ b, length b = csz) ps).
Context (Hlen : length ps = length (tree_pages c k)).

(** The check of an honest chunk is the fold from its hash. *)
Lemma verity_check_chunk tree w :
  verity_check (take csz (drop (Z.to_nat idx * csz) c)) idx (zlen c) tree w =
    mfold (verity_step tree) (sha256 (window c (Z.to_nat idx * csz) csz))
      (step_at (zlen c) idx k <$> seq 0 (S k)) w.
Proof.
  unfold verity_check. rewrite (proj2 (Z.eqb_neq _ _)) by lia.
  cbn [negb rassert]. rewrite bind_lift_Ok.
  rewrite hash_with_padding_spec by (rewrite length_take; lia).
  cbn [crypto_fsverity map_err]. rewrite bind_lift_Ok, pad_to_chunk.
  rewrite (fsverity_walk_spec (zlen c) idx k) by (done || lia). by rewrite bind_lift_Ok.
Qed.

(** The honest chunk of an honest file is accepted if the path above it is intact, ... *)
Lemma verity_check_intact tree w :
  tree_content tree w = Some (concat ps) → path_intact_from c idx k ps 0 →
  verity_check (take csz (drop (Z.to_nat idx * csz) c)) idx (zlen c) tree w =
    (Ok (verity_root c), w).
Proof.
  intros Ht Hin. rewrite verity_check_chunk.
  apply (verity_fold_intact tree_content c idx k Hi Hr Hs Hk ps Hps Hlen); [lia|done|done|].
  change (Z.of_nat 0) with 0. rewrite Z.pow_0_r, Z.div_1_r.
  cbn [level_up Nat.iter nat_rect]. rewrite lookup_leaf_hashes. by rewrite decide_True by lia.
Qed.

(** It hashes the messages of the true path then, ... *)
Lemma check_messages_intact tree w :
  tree_content tree w = Some (concat ps) → path_intact_from c idx k ps 0 →
  check_messages (take csz (drop (Z.to_nat idx * csz) c)) idx (zlen c) tree w = path_messages c idx.
Proof.
  intros Ht Hin. rewrite (path_messages_height c idx k) by (done || lia). unfold check_messages.
  rewrite (fsverity_walk_spec (zlen c) idx k), pad_to_chunk by (done || lia). f_equal.
  by apply (served_pages_intact tree_content c idx k Hi Hr Hs Hk ps Hps).
Qed.

(** ... and is refused otherwise. *)
Lemma verity_check_tampered `{!BufferReader W T} tree w :
  tree_content tree w = Some (concat ps) → ¬ path_intact_from c idx k ps 0 →
  let r := verity_check (take csz (drop (Z.to_nat idx * csz) c)) idx (zlen c) tree w in
  r = (Err CannotVerify, w) ∨ (∃ root, r = (Ok root, w) ∧ root ≠ verity_root c) ∨
  clash (path_messages c idx)
    (check_messages (take csz (drop (Z.to_nat idx * csz) c)) idx (zlen c) tree w).
Proof.
  intros Ht Hin. rewrite verity_check_chunk, (path_messages_height c idx k) by (done || lia).
  unfold check_messages. rewrite (fsverity_walk_spec (zlen c) idx k) by (done || lia).
  destruct (verity_fold_pages tree_content c idx k Hi Hr Hs Hk ps Hps Hlen (S k) 0 tree w
              (sha256 (window c (Z.to_nat idx * csz) csz)) ltac:(lia) Ht)
    as [->|(root & -> & Hroot)]; [by left|right].
  destruct (decide (root = verity_root c)) as [->|]; [|by eauto].
  destruct (Hroot eq_refl); [done|right; by apply clash_tail].
Qed.
End checked.
End check_spec.
