(* ===== verification/Editor.v ===== *)
(** * The verified writer (authfs/src/fsverity/editor.rs)

    [VerifiedFileEditor] keeps the Merkle leaves of a new file in trusted
    memory while the bytes go to storage nobody trusts.  The state of the
    editor is the lock-protected tree and the storage's world.  Two groups of
    results: on honest storage the editor behaves as a file in memory and its
    digest is the fs-verity digest of that file; on any storage the tree
    follows what was written, as long as the file is not truncated in the
    middle of a block. *)
From S2P Require Import Prelude RustInt Crypto Common Fsverity Merkle Builder File.

(** [From<CryptoError> for io::Error]. *)
Definition crypto_io {A} (m : outcome CryptoError A) : outcome io_error A :=
  map_err (λ _, KindError Other) m.

(** [usize] is 64 bits wide on the supported targets. *)
Definition usize_limit : Z := u64_limit.
Definition debug_assert_usize_is_u64 {bm : BuildMode} {E} : outcome E unit :=
  debug_assert (Ok (usize_limit - 1 =? u64_limit - 1)).

Lemma usize_is_u64 {bm : BuildMode} {E} : debug_assert_usize_is_u64 (E := E) = Ok tt.
Proof. apply debug_assert_true. Qed.

(** How many calls of [write_at] the model lets [write_all_at] make. *)
Class WriteFuel := write_fuel : nat.

Record VerifiedFileEditor (F : Type) := { editor_file : F }.
Arguments editor_file {F} _.
Arguments Build_VerifiedFileEditor {F} _.

Module VerifiedFileEditor.
Section impl.
Context `{!Sha256FFI} {bm : BuildMode} {wf : WriteFuel} {W F : Type}.
Context `{!ReadByChunk W F, !RandomWrite W F}.
Import Sha256Hasher.

(** The tree behind the lock, and the world of the backing file. *)
Definition state : Type := MerkleLeaves * W.
Definition on_file {E A} : M W E A → M state E A := zoom snd (λ w s, (s.1, w)).
Definition get_tree {E} : M state E MerkleLeaves := λ s, (Ok s.1, s).
Definition put_tree {E} (t : MerkleLeaves) : M state E unit := λ s, (Ok tt, (t, s.2)).

Definition new (file : F) : VerifiedFileEditor F * MerkleLeaves :=
  (Build_VerifiedFileEditor file, MerkleLeaves.new).

Definition calculate_fsverity_digest (self : VerifiedFileEditor F) : M state io_error (list byte) :=
  tree ← get_tree;
  lift (map_err (λ _, KindError Other) (MerkleLeaves.calculate_fsverity_digest tree)).

Definition read_chunk (self : VerifiedFileEditor F) (chunk_index : Z) (buf : list byte)
    : M state io_error (Z * list byte) :=
  on_file (File.read_chunk (editor_file self) chunk_index buf).

Definition new_hash_for_incomplete_write (self : VerifiedFileEditor F) (source : list byte)
    (offset_from_alignment output_chunk_index : Z) (merkle_tree : MerkleLeaves)
    : M state io_error (list byte) :=
  orig_data ←
    (if MerkleLeaves.is_index_valid merkle_tree output_chunk_index
     then
       '(_, orig_data) ← read_chunk self output_chunk_index (zeros CHUNK_SIZE);
       hash ← lift (crypto_io (h ← Sha256Hasher.new; h ← update h orig_data; finalize h));
       if negb (MerkleLeaves.is_consistent merkle_tree output_chunk_index hash)
       then throw (KindError InvalidData)
       else mret orig_data
     else mret (zeros CHUNK_SIZE));
  head ← lift (slice orig_data 0 offset_from_alignment);
  tail_start ← lift (u64_add offset_from_alignment (zlen source));
  tail ← lift (slice orig_data tail_start (zlen orig_data));
  lift (crypto_io (
    h ← Sha256Hasher.new;
    h ← update h head;
    h ← update h source;
    h ← update h tail;
    finalize h)).

Definition new_chunk_hash (self : VerifiedFileEditor F) (source : list byte)
    (offset_from_alignment current_size output_chunk_index : Z) (merkle_tree : MerkleLeaves)
    : M state io_error (list byte) :=
  if current_size =? CHUNK_SIZE
  then lift (crypto_io (h ← Sha256Hasher.new; h ← update h source; finalize h))
  else new_hash_for_incomplete_write self source offset_from_alignment output_chunk_index
         merkle_tree.

Definition size (self : VerifiedFileEditor F) : M state io_error Z :=
  tree ← get_tree; mret (file_size tree).

(** The body of the loop over the pieces of a write.  It keeps the lock for
    its whole duration. *)
Definition write_piece (self : VerifiedFileEditor F) (buf : list byte) (offset : Z) (piece : Z * Z)
    : M state (control io_error Z) unit :=
  let '(output_offset, current_size) := piece in
  merkle_tree ← get_tree;
  offset_in_buf ← lift (u64_sub output_offset offset);
  source_end ← lift (u64_add offset_in_buf current_size);
  source ← lift (slice buf offset_in_buf source_end);
  let output_chunk_index := output_offset / CHUNK_SIZE in
  let offset_from_alignment := output_offset `mod` CHUNK_SIZE in
  let written := output_offset - offset in
  new_hash ← m_map_err (λ e, if 0 <? written then Return written else Raise e)
    (new_chunk_hash self source offset_from_alignment current_size output_chunk_index merkle_tree);
  m_map_err Raise (on_file (write_all_at write_fuel (editor_file self) source output_offset));;
  let size_at_least := u64_saturating_add offset (zlen buf) in
  merkle_tree ← lift (MerkleLeaves.update_hash merkle_tree output_chunk_index new_hash size_at_least);
  put_tree merkle_tree.

Definition write_at (self : VerifiedFileEditor F) (buf : list byte) (offset : Z)
    : M state io_error Z :=
  lift debug_assert_usize_is_u64;;
  catch_return (
    ChunkedSizeIter.try_fold (ChunkedSizeIter.new (zlen buf) offset CHUNK_SIZE) tt
      (λ _ piece, write_piece self buf offset piece);;
    mret (zlen buf)).

Definition resize (self : VerifiedFileEditor F) (size : Z) : M state io_error unit :=
  lift debug_assert_usize_is_u64;;
  merkle_tree ← get_tree;
  (if (size <? file_size merkle_tree) && (0 <? size `mod` CHUNK_SIZE)
   then
     let new_tail_size := size `mod` CHUNK_SIZE in
     let chunk_index := size / CHUNK_SIZE in
     if 0 <? new_tail_size
     then
       '(s, buf) ← read_chunk self chunk_index (zeros CHUNK_SIZE);
       lift (debug_assert (Ok (new_tail_size <=? s)));;
       kept ← lift (slice buf 0 new_tail_size);
       let tail := zeros (CHUNK_SIZE - new_tail_size) in
       new_hash ← lift (crypto_io (
         h ← Sha256Hasher.new; h ← update h kept; h ← update h tail; finalize h));
       merkle_tree ← lift (MerkleLeaves.update_hash merkle_tree chunk_index new_hash size);
       put_tree merkle_tree
     else mret tt
   else mret tt);;
  on_file (File.resize (editor_file self) size);;
  merkle_tree ← get_tree;
  merkle_tree ← lift (MerkleLeaves.resize merkle_tree size);
  put_tree merkle_tree.
End impl.
End VerifiedFileEditor.

#[global] Instance VerifiedFileEditor_read_chunk {W F} `{!ReadByChunk W F}
  : ReadByChunk (MerkleLeaves * W) (VerifiedFileEditor F) := VerifiedFileEditor.read_chunk.
#[global] Instance VerifiedFileEditor_write `{!Sha256FFI} {bm : BuildMode} {wf : WriteFuel} {W F}
    `{!ReadByChunk W F, !RandomWrite W F} : RandomWrite (MerkleLeaves * W) (VerifiedFileEditor F) := {|
  write_at := VerifiedFileEditor.write_at;
  resize := VerifiedFileEditor.resize;
|}.

(** ** What the computations leave alone *)
Section keeps.
Context `{!Sha256FFI} {bm : BuildMode} {wf : WriteFuel} {W F : Type}.
Context `{!ReadByChunk W F, !RandomWrite W F}.
Import VerifiedFileEditor.

Definition keeps_tree {E A} (m : M (MerkleLeaves * W) E A) : Prop := ∀ s, (m s).2.1 = s.1.

Lemma keeps_bind {E A B} (m : M (MerkleLeaves * W) E A) (f : A → M (MerkleLeaves * W) E B) :
  keeps_tree m → (∀ a, keeps_tree (f a)) → keeps_tree (m ≫= f).
Proof.
  intros Hm Hf s. unfold mbind, M_bind. specialize (Hm s).
  destruct (m s) as [[a|e| |] s'] eqn:Hs; simpl in *; [by rewrite Hf|done..].
Qed.
Lemma keeps_lift {E A} (m : outcome E A) : keeps_tree (lift m).
Proof. done. Qed.
Lemma keeps_throw {E A} (e : E) : keeps_tree (A := A) (throw e).
Proof. done. Qed.
Lemma keeps_ret {E A} (a : A) : keeps_tree (E := E) (mret a).
Proof. done. Qed.
Lemma keeps_get_tree {E} : keeps_tree (E := E) get_tree.
Proof. done. Qed.
Lemma keeps_on_file {E A} (m : M W E A) : keeps_tree (on_file m).
Proof. intros s. unfold on_file, zoom. by destruct (m s.2). Qed.
Lemma keeps_map_err {E E' A} (g : E → E') (m : M (MerkleLeaves * W) E A) :
  keeps_tree m → keeps_tree (m_map_err g m).
Proof. intros Hm s. unfold m_map_err. specialize (Hm s). by destruct (m s). Qed.
End keeps.

Create HintDb keeps.
#[export] Hint Resolve keeps_lift keeps_throw keeps_ret keeps_get_tree keeps_on_file
  keeps_map_err : keeps.
Ltac keeps_tree :=
  repeat (apply keeps_bind; [|intros]);
  repeat first [ case_match | apply keeps_bind; [|intros] | solve [auto with keeps] ].

(** ** One leaf per write *)
Section leaf.
Context `{!Sha256FFI, !Sha256Spec}.

(** The block after a write inside it. *)
Lemma splice_block c i a source :
  (a + length source ≤ csz)%nat →
  let orig := window c (i * csz) csz in
  take a orig ++ source ++ drop (a + length source) orig =
    window (overwrite c (i * csz + a) source) (i * csz) csz.
Proof.
  intros Ha orig. apply byte_at_ext.
  { subst orig. len. }
  intros k Hk. assert (k < csz)%nat by (subst orig; len).
  rewrite !byte_at_app, byte_at_take, byte_at_drop, byte_at_window, byte_at_overwrite.
  subst orig. rewrite !byte_at_window, length_take, length_window.
  repeat case_decide; try lia; try done; f_equal; lia.
Qed.

(** A full block does not depend on what was there. *)
Lemma full_block c i source :
  length source = csz → source = window (overwrite c (i * csz) source) (i * csz) csz.
Proof.
  intros Hs. pose proof (splice_block c i 0 source ltac:(lia)) as Hsp. simpl in Hsp.
  rewrite Nat.add_0_r in Hsp. rewrite <- Hsp.
  rewrite drop_ge by (rewrite length_window; lia). by rewrite app_nil_r.
Qed.

Lemma update_hash_leaves {E} t c i p b sz :
  leaves t = leaf_hashes c → b ≠ [] → (i * csz ≤ p)%nat → (p + length b ≤ i * csz + csz)%nat →
  Z.of_nat i + 1 < u64_limit →
  let c' := overwrite c p b in
  ∃ t', MerkleLeaves.update_hash (E := E) t (Z.of_nat i) (sha256 (window c' (i * csz) csz)) sz = Ok t' ∧
    leaves t' = leaf_hashes c' ∧ file_size t' = Z.max (file_size t) sz.
Proof.
  intros Hl Hb Hp He Hi c'.
  assert (0 < length b)%nat by (destruct b; [done|simpl; lia]).
  destruct (MerkleLeaves.update_hash t _ _ sz) as [t'|e| |] eqn:Hu.
  2-4: unfold MerkleLeaves.update_hash in Hu; rewrite (u64_add_Ok _ _ Hi) in Hu; done.
  exists t'. split; [done|]. split.
  - apply leaf_hashes_ext. intros j. rewrite (lookup_update_hash _ _ _ _ _ _ (Nat2Z.is_nonneg i) Hu).
    rewrite Nat2Z.id, Hl, default_leaf. subst c'. rewrite length_overwrite, (decide_False (P := b = [])) by done.
    pose proof (lt_length_chunks csz c j ltac:(lia)) as Hj.
    assert (length (leaf_hashes c) = length (chunks csz c)) as Hll
      by (unfold leaf_hashes; by rewrite length_fmap).
    destruct (decide (j = i)) as [->|Hne]; [by rewrite decide_True by nia|].
    rewrite (window_ext (overwrite c p b) c (j * csz) (j * csz)).
    + destruct (decide (j < _)%nat), (decide (j * csz < _)%nat); try done; nia.
    + intros k Hk. rewrite byte_at_overwrite, decide_False; [done|nia].
  - unfold MerkleLeaves.update_hash in Hu. rewrite (u64_add_Ok _ _ Hi) in Hu.
    simpl in Hu. simplify_eq. simpl. destruct (Z.ltb_spec (file_size t) sz); lia.
Qed.
End leaf.

(** ** Writes on storage nobody trusts *)
Section adversary.
Context `{!Sha256FFI, !Sha256Spec} {bm : BuildMode} {wf : WriteFuel} {W F : Type}.
Context `{!ReadByChunk W F, !RandomWrite W F, !BufferReader W F}.
Import VerifiedFileEditor.

Lemma new_chunk_hash_keeps (ed : VerifiedFileEditor F) source a n idx t :
  keeps_tree (W := W) (new_chunk_hash ed source a n idx t).
Proof.
  unfold new_chunk_hash. case_match; [auto with keeps|].
  unfold new_hash_for_incomplete_write, VerifiedFileEditor.read_chunk. keeps_tree.
Qed.

Lemma editor_read_block (ed : VerifiedFileEditor F) i (s : MerkleLeaves * W) n buf s' :
  VerifiedFileEditor.read_chunk ed i (zeros CHUNK_SIZE) s = (Ok (n, buf), s') → length buf = csz.
Proof.
  unfold VerifiedFileEditor.read_chunk, on_file, zoom.
  destruct (File.read_chunk _ _ _ _) as [r w] eqn:Hr. intros [= -> <-].
  destruct (read_chunk_prefix _ _ _ _ _ _ _ length_zero_buffer Hr) as (data & _ & Hd & ->).
  rewrite zero_buffer_prefix by done. by apply length_pad_to.
Qed.

(** The old block the storage hands out when [n] bytes of block [i] are written: blocks that
    are written as a whole and blocks beyond the end are not read back. *)
Definition old_block (ed : VerifiedFileEditor F) (i n : Z) (s : MerkleLeaves * W)
    : option (list byte) :=
  if (n =? CHUNK_SIZE) || negb (MerkleLeaves.is_index_valid s.1 i) then None
  else match VerifiedFileEditor.read_chunk ed i (zeros CHUNK_SIZE) s with
       | (Ok (_, block), _) => Some block
       | _ => None
       end.

(** The blocks the storage hands out during a write of the pieces [l], with their indices,
    each in the state the pieces before it left. *)
Fixpoint read_back (ed : VerifiedFileEditor F) (buf : list byte) (off : Z) (l : list (Z * Z))
    (s : MerkleLeaves * W) : list (Z * list byte) :=
  match l with
  | [] => []
  | (o, n) :: l =>
      let i := o / CHUNK_SIZE in
      option_list (pair i <$> old_block ed i n s) ++
      match write_piece ed buf off (o, n) s with
      | (Ok _, s') => read_back ed buf off l s'
      | _ => []
      end
  end.

(** One of these blocks is not that of [c] and has its SHA-256. *)
Definition block_clash (c : list byte) (blocks : list (Z * list byte)) : Prop :=
  Exists (λ '(i, block), clash [window c (Z.to_nat i * csz) csz] [block]) blocks.

(** The hash of a block is computed from its true contents, or the block the storage handed
    out clashes with them. *)
Lemma new_chunk_hash_sound (ed : VerifiedFileEditor F) source a i c (s : MerkleLeaves * W) h s' :
  leaves s.1 = leaf_hashes c → (a + length source ≤ csz)%nat →
  new_chunk_hash ed source (Z.of_nat a) (zlen source) (Z.of_nat i) s.1 s = (Ok h, s') →
  h = sha256 (window (overwrite c (i * csz + a) source) (i * csz) csz) ∨
  ∃ block, old_block ed (Z.of_nat i) (zlen source) s = Some block ∧
    clash [window c (i * csz) csz] [block].
Proof.
  intros Hl Ha Hn. unfold new_chunk_hash in Hn.
  destruct (Z.eqb_spec (zlen source) CHUNK_SIZE).
  { assert (a = O) as -> by lia. left. revert Hn. hash_steps. unfold lift. simpl. intros [= <- <-].
    rewrite Nat.add_0_r. f_equal. apply full_block. lia. }
  unfold new_hash_for_incomplete_write in Hn. inv_bind.
  assert (r = window c (i * csz) csz ∨ ∃ block, old_block ed (Z.of_nat i) (zlen source) s = Some block ∧
    clash [window c (i * csz) csz] [block]) as Horig.
  { unfold old_block. rewrite (proj2 (Z.eqb_neq _ _)) by done. cbn [orb].
    clear -Hl Hr BufferReader0 H. unfold MerkleLeaves.is_index_valid in *.
    destruct (Z.ltb_spec (Z.of_nat i) (zlen (leaves s.1))).
    - inv_bind. destruct r0 as [n buf]. cbn [negb]. rewrite Hr0. revert Hr. hash_steps.
      cbn [crypto_io map_err]. rewrite bind_lift_Ok. unfold MerkleLeaves.is_consistent.
      rewrite Nat2Z.id, Hl, lookup_leaf_hashes. case_decide; [|done].
      case_bool_decide as Heq; [|done]. intros [= <- <-].
      eapply same_digest_or_clash in Heq as [->|]; [by left|right; eauto].
    - inv_bind. left. rewrite Hl in *. pose proof (lt_length_chunks csz c i ltac:(lia)).
      unfold leaf_hashes in *. rewrite length_fmap in *.
      rewrite window_past_end by lia. done. }
  destruct Horig as [->|]; [|by right]. left.
  repeat match goal with
  | Hs : slice _ _ _ = Ok _ |- _ => apply slice_Ok_inv in Hs as (? & ? & ? & ->)
  | Hu : u64_add _ _ = Ok _ |- _ => unfold u64_add in Hu; case_match; simplify_eq
  end.
  match goal with Hc : crypto_io _ = Ok h |- _ => revert Hc end.
  hash_steps. cbn [crypto_io map_err]. intros [= <-].
  f_equal. rewrite <- splice_block by done. rewrite drop_0, length_window.
  rewrite (take_ge (drop _ _)) by (rewrite length_drop, length_window; lia).
  do 2 f_equal; f_equal; lia.
Qed.

(** A piece that fails leaves the tree as it was, and the count it returns is
    that of the pieces before it. *)
Definition fails_with (k0 : Z) {A} (m : M (MerkleLeaves * W) (control io_error Z) A) : Prop :=
  ∀ s, match m s with
       | (Ok _, _) => True
       | (r, s') => s'.1 = s.1 ∧ ∀ k, r = Err (Return k) → k = k0
       end.

Lemma fails_bind k0 {A B} (m : M (MerkleLeaves * W) (control io_error Z) A)
    (f : A → M (MerkleLeaves * W) (control io_error Z) B) :
  keeps_tree m → fails_with k0 m → (∀ a, fails_with k0 (f a)) → fails_with k0 (m ≫= f).
Proof.
  intros Hk Hm Hf s. unfold mbind, M_bind. specialize (Hk s). specialize (Hm s).
  destruct (m s) as [[a|e| |] s'] eqn:Hs; simpl in *.
  { specialize (Hf a s'). by rewrite <- Hk. }
  all: destruct Hm as [? Hm]; split; [done|]; intros k [=]; subst; by apply Hm.
Qed.

Lemma fails_map_err k0 {E A} (g : E → control io_error Z) (m : M (MerkleLeaves * W) E A) :
  keeps_tree m → (∀ e k, g e = Return k → k = k0) → fails_with k0 (m_map_err g m).
Proof.
  intros Hk Hg s. unfold m_map_err. specialize (Hk s).
  destruct (m s) as [[a|e| |] s']; simpl in *; try done.
  split; [done|]. intros k [= ?]. eauto.
Qed.

Lemma fails_lift k0 {A} (m : outcome (control io_error Z) A) :
  (∀ e, m ≠ Err e) → fails_with k0 (lift m).
Proof. intros Hm s. unfold lift. destruct m; try done. by destruct (Hm e). Qed.

Lemma write_piece_fail (ed : VerifiedFileEditor F) buf off o n :
  fails_with (o - off) (write_piece ed buf off (o, n)).
Proof.
  unfold write_piece.
  repeat (apply fails_bind;
    [auto using new_chunk_hash_keeps with keeps| |intros];
    [try (apply fails_lift; intros ?; unfold MerkleLeaves.update_hash, u64_sub, u64_add, slice;
          by repeat (case_match; try done))|]); try done.
  - apply fails_map_err; [apply new_chunk_hash_keeps|]. intros e k. case_match; congruence.
  - apply fails_map_err; [apply keeps_on_file|done].
Qed.

Lemma write_piece_Ok (ed : VerifiedFileEditor F) buf off o n c (s s' : MerkleLeaves * W) :
  leaves s.1 = leaf_hashes c → 0 ≤ off ≤ o → 0 < n ≤ CHUNK_SIZE - o `mod` CHUNK_SIZE →
  o + n ≤ off + zlen buf → off + zlen buf < u64_limit →
  write_piece ed buf off (o, n) s = (Ok tt, s') →
  leaves s'.1 = leaf_hashes (overwrite c (Z.to_nat o)
                  (take (Z.to_nat n) (drop (Z.to_nat (o - off)) buf))) ∧
  file_size s'.1 = Z.max (file_size s.1) (off + zlen buf) ∨
  ∃ block, old_block ed (o / CHUNK_SIZE) n s = Some block ∧
    clash [window c (Z.to_nat (o / CHUNK_SIZE) * csz) csz] [block].
Proof.
  intros Hl Ho Hn Hend Hlim. unfold write_piece.
  assert (get_tree (E := control io_error Z) s = (Ok s.1, s)) as Hg by done.
  rewrite (M_bind_Ok _ _ _ _ _ Hg). rewrite u64_sub_Ok, bind_lift_Ok by lia.
  rewrite u64_add_Ok, bind_lift_Ok by lia. rewrite slice_Ok, bind_lift_Ok by lia.
  replace (o - off + n - (o - off)) with n by lia.
  remember (take (Z.to_nat n) (drop (Z.to_nat (o - off)) buf)) as src eqn:Hsrc.
  assert (length src = Z.to_nat n) as Hlen by (subst src; rewrite length_take, length_drop; lia).
  pose proof (Z.mod_pos_bound o CHUNK_SIZE ltac:(lia)) as Hmod.
  pose proof (Z.div_mod o CHUNK_SIZE ltac:(lia)) as Hdm.
  assert (0 ≤ o / CHUNK_SIZE) as Hdiv by (apply Z.div_pos; lia).
  remember (o / CHUNK_SIZE) as q eqn:Hq. remember (o `mod` CHUNK_SIZE) as a eqn:Ha.
  assert (o - (CHUNK_SIZE * q + a) = 0) by lia. clear Hdm Hq Ha Hsrc.
  intros Hw. apply M_bind_Ok_inv in Hw as (h & s1 & Hh & Hw). inv_bind.
  replace n with (zlen src) in Hh by lia.
  rewrite <- (Z2Nat.id a), <- (Z2Nat.id q) in Hh by lia.
  apply (new_chunk_hash_sound _ _ _ _ c) in Hh as [->|Hcl]; [left| |done|lia].
  2: { right. rewrite Z2Nat.id in Hcl by lia. by replace (zlen src) with n in Hcl by lia. }
  replace (Z.to_nat q * csz + Z.to_nat a)%nat with (Z.to_nat o) in * by lia.
  destruct (update_hash_leaves (E := control io_error Z) s.1 c (Z.to_nat q) (Z.to_nat o) src
    (off + zlen buf)) as (t' & Hu & Hlt & Hst); [done|by destruct src; simpl in *; [lia|]|lia..|].
  rewrite Z2Nat.id in Hu by lia.
  match goal with Hu' : MerkleLeaves.update_hash _ _ _ (u64_saturating_add _ _) = Ok _ |- _ =>
    replace (u64_saturating_add off (zlen buf)) with (off + zlen buf) in Hu'
      by (unfold u64_saturating_add; lia); rewrite Hu in Hu'; simplify_eq end.
  match goal with H2 : put_tree _ _ = _ |- _ => unfold put_tree in H2; simplify_eq end.
  done.
Qed.

(** The first [n] bytes of a write have gone through the tree.  The recorded
    size is that of the whole write as soon as there are any. *)
Definition written (c : list byte) (off : Z) (buf : list byte) (size0 n : Z) (t : MerkleLeaves) : Prop :=
  leaves t = leaf_hashes (overwrite c (Z.to_nat off) (take (Z.to_nat n) buf)) ∧
  file_size t = if n =? 0 then size0 else Z.max size0 (off + zlen buf).

Lemma overwrite_take_app c off buf m k :
  (m ≤ length buf)%nat →
  overwrite (overwrite c off (take m buf)) (off + m) (take k (drop m buf)) =
    overwrite c off (take (m + k) buf).
Proof.
  intros Hm. rewrite <- take_take_drop, <- overwrite_app.
  by rewrite length_take, Nat.min_l.
Qed.

(** The pieces before [o] do not touch the block of [o]. *)
Lemma window_before c off buf o :
  0 ≤ off ≤ o → o = off ∨ o `mod` CHUNK_SIZE = 0 →
  window (overwrite c (Z.to_nat off) (take (Z.to_nat (o - off)) buf))
    (Z.to_nat (o / CHUNK_SIZE) * csz) csz = window c (Z.to_nat (o / CHUNK_SIZE) * csz) csz.
Proof.
  intros Ho Hal. pose proof (Z.div_mod o CHUNK_SIZE ltac:(lia)) as Hdm.
  assert (0 ≤ o / CHUNK_SIZE) by (apply Z.div_pos; lia).
  apply window_ext. intros j Hj. rewrite byte_at_overwrite, length_take.
  rewrite decide_False; [done|]. destruct Hal; nia.
Qed.

Lemma write_pieces_sound (ed : VerifiedFileEditor F) buf off c size0 o rem l
    (s : MerkleLeaves * W) r s' :
  chunking CHUNK_SIZE o rem l → 0 ≤ off ≤ o → o + rem = off + zlen buf →
  off + zlen buf < u64_limit →
  rem = 0 ∨ o = off ∨ o `mod` CHUNK_SIZE = 0 →
  written c off buf size0 (o - off) s.1 →
  mfold (λ _ piece, write_piece ed buf off piece) tt l s = (r, s') →
  (∃ n, o - off ≤ n ≤ zlen buf ∧ written c off buf size0 n s'.1 ∧
        (r = Ok tt → n = zlen buf) ∧ (∀ k, r = Err (Return k) → k = n)) ∨
  block_clash c (read_back ed buf off l s).
Proof.
  intros Hc. revert s. induction Hc as [o|o rem l n Hrem Hn Hc IH]; intros s Ho Hend Hlim Hal Hw Hf.
  { unfold mfold, mret, M_ret in Hf. simplify_eq. left. exists (o - off). split_and!; first [done|lia]. }
  cbn [mfold] in Hf. unfold mbind, M_bind in Hf.
  pose proof (Z.mod_pos_bound o CHUNK_SIZE ltac:(lia)).
  destruct (write_piece ed buf off (o, n) s) as [[[]|e| |] s1] eqn:Hp.
  2-4: pose proof (write_piece_fail ed buf off o n s) as Hfail; rewrite Hp in Hfail;
    destruct Hfail as [Heq Hret]; left; exists (o - off); injection Hf as <- <-; rewrite Heq;
    split_and!; try lia; try done; intros ? [=]; subst; by apply Hret.
  - destruct Hw as [Hwl Hws].
    cbn [read_back]. rewrite Hp. unfold block_clash. rewrite Exists_app.
    apply (write_piece_Ok _ _ _ _ _ _ _ _ Hwl) in Hp as [[Hl1 Hs1]|(block & -> & Hcl)]; [|right; left|lia..].
    2: { apply Exists_cons_hd. rewrite window_before in Hcl; [done|lia|lia]. }
    destruct (IH s1) as [(n' & Hn' & Hrest)|]; [lia..| | |done| |by right; right].
    + destruct (decide (rem = n)); [left; lia|right; right].
      replace n with (CHUNK_SIZE - o `mod` CHUNK_SIZE) by lia. clear. divlia.
    + split.
      * rewrite Hl1. f_equal. replace (Z.to_nat o) with (Z.to_nat off + Z.to_nat (o - off))%nat by lia.
        rewrite overwrite_take_app by lia. do 2 f_equal. lia.
      * rewrite Hs1, Hws. rewrite (proj2 (Z.eqb_neq (o + n - off) 0)) by lia. case_match; lia.
    + left. exists n'. split; [lia|done].
Qed.

(** Whatever the storage does, the tree after a write is the tree of the old
    contents with a prefix of the buffer written over them: all of it, or the
    count of bytes the call returned. *)
Lemma write_at_tracks (ed : VerifiedFileEditor F) buf off c (s : MerkleLeaves * W) r s' :
  leaves s.1 = leaf_hashes c → 0 ≤ off → off + zlen buf < u64_limit →
  VerifiedFileEditor.write_at ed buf off s = (r, s') →
  (∃ n, 0 ≤ n ≤ zlen buf ∧ written c off buf (file_size s.1) n s'.1 ∧
        (∀ k, r = Ok k → k = n)) ∨
  block_clash c (read_back ed buf off (pieces off (zlen buf)) s).
Proof.
  intros Hl Ho Hlim. unfold VerifiedFileEditor.write_at.
  rewrite usize_is_u64, bind_lift_Ok. intros Hw. unfold catch_return in Hw.
  destruct (pieces_spec off (zlen buf)) as (Hch & Hfold); [lia..|].
  unfold mbind, M_bind in Hw. rewrite Hfold in Hw.
  destruct (mfold (λ _ piece, write_piece ed buf off piece) tt (pieces off (zlen buf)) s) as [rf sf] eqn:Hmf.
  destruct (write_pieces_sound ed buf off c (file_size s.1) off (zlen buf) _ s rf sf Hch)
    as [(n & Hn & Hwr & Hok & Hret)|]; [lia..|by right; left| |done| |by right].
  { rewrite Z.sub_diag. split; [|done]. by rewrite Hl. }
  left. exists n. destruct rf as [[]|[k|e]| |]; simplify_eq/=.
  all: split_and!; [lia..|done|intros k' [=]; subst]; auto using Z.eq_sym.
Qed.
End adversary.

(** ** A change of size *)
Section size.
Context `{!Sha256FFI, !Sha256Spec} {bm : BuildMode}.

(** Resizing the tree, when the blocks that stay have the right hashes. *)
Lemma resize_leaves {E} t c n :
  zlen c = n → n + CHUNK_SIZE < u64_limit →
  (∀ i, (i * csz < length c)%nat → default HASH_OF_4096_ZEROS (leaves t !! i) =
        sha256 (window c (i * csz) csz)) →
  ∃ t', MerkleLeaves.resize (E := E) t n = Ok t' ∧ represents t' c.
Proof.
  intros <- Hlim Hblocks. unfold MerkleLeaves.resize.
  rewrite divide_roundup_Ok by lia. cbn [mbind outcome_bind]. eexists. split; [done|].
  remember ((zlen c + CHUNK_SIZE - 1) / CHUNK_SIZE) as m eqn:Hm.
  apply roundup_bounds in Hm; [|lia..]. split; simpl; [|done].
  apply leaf_hashes_ext. intros i. rewrite lookup_vec_resize.
  destruct (decide (i < Z.to_nat m)%nat), (decide (i * csz < length c)%nat); try done; try nia.
  by rewrite Hblocks.
Qed.

(** Blocks that a change of size does not touch. *)
Lemma window_set_length_same c n i :
  (length c ≤ n)%nat ∨ ((i + 1) * csz ≤ n)%nat →
  window (set_length c n) (i * csz) csz = window c (i * csz) csz.
Proof.
  intros Hn. apply window_ext. intros j Hj. rewrite byte_at_set_length.
  case_decide; [done|]. symmetry. apply byte_at_ge. destruct Hn; nia.
Qed.

Lemma represents_resize_keep {E} t c n :
  leaves t = leaf_hashes c → zlen c ≤ file_size t → 0 ≤ n → n + CHUNK_SIZE < u64_limit →
  file_size t ≤ n ∨ n `mod` CHUNK_SIZE = 0 →
  ∃ t', MerkleLeaves.resize (E := E) t n = Ok t' ∧ represents t' (set_length c (Z.to_nat n)).
Proof.
  intros Hl Hs Hn Hlim Hcase. apply resize_leaves; [rewrite length_set_length; lia|done|].
  rewrite length_set_length. intros i Hi. rewrite Hl, default_leaf, window_set_length_same; [done|].
  destruct Hcase as [?|Hmod]; [left; lia|right].
  pose proof (Z.div_mod n CHUNK_SIZE ltac:(lia)). nia.
Qed.

(** Truncation in the middle of a block: the blocks before it stay, and the
    hash stored for the last one is that of [c']. *)
Lemma represents_resize_cut {E} t c c' :
  leaves t = leaf_hashes c → zlen c' + CHUNK_SIZE < u64_limit →
  let i := (length c' / csz)%nat in
  (∀ j, (j < i)%nat → window c' (j * csz) csz = window c (j * csz) csz) →
  ∃ t1 t', MerkleLeaves.update_hash (E := E) t (zlen c' / CHUNK_SIZE)
             (sha256 (window c' (i * csz) csz)) (zlen c') = Ok t1 ∧
    MerkleLeaves.resize (E := E) t1 (zlen c') = Ok t' ∧ represents t' c'.
Proof.
  intros Hl Hlim i Hsame. set (n := zlen c') in *.
  assert (Z.of_nat i = n / CHUNK_SIZE) as Hi.
  { subst i n. rewrite Nat2Z.inj_div. done. }
  pose proof (Z.div_mod n CHUNK_SIZE ltac:(lia)).
  pose proof (Z.mod_pos_bound n CHUNK_SIZE ltac:(lia)).
  destruct (MerkleLeaves.update_hash t _ _ n) as [t1|e| |] eqn:Hu.
  2-4: unfold MerkleLeaves.update_hash in Hu; rewrite u64_add_Ok in Hu by lia; done.
  destruct (resize_leaves (E := E) t1 c' n) as (t' & Hr & Hrep); [lia..| |by exists t1, t'].
  intros j Hj. rewrite <- Hi in Hu.
  rewrite (lookup_update_hash _ _ _ _ _ _ (Nat2Z.is_nonneg i) Hu), Nat2Z.id.
  destruct (decide (j = i)) as [->|Hne]; [done|].
  assert (j < i)%nat by (subst n; nia).
  rewrite decide_True by lia. simpl. by rewrite Hl, default_leaf, Hsame.
Qed.

(** The contents cut to [n] bytes, with the part of the last block that stays
    replaced by the front of [buf]. *)
Definition cut_with (c : list byte) (n : Z) (buf : list byte) : list byte :=
  set_length c (Z.to_nat (n - n `mod` CHUNK_SIZE)) ++ take (Z.to_nat (n `mod` CHUNK_SIZE)) buf.

Lemma take_set_length c n : (n ≤ length c)%nat → take n c = set_length c n.
Proof.
  intros Hn. apply byte_at_ext; [rewrite length_set_length, length_take; lia|]. intros k Hk.
  rewrite length_take in Hk. rewrite byte_at_take, byte_at_set_length. by repeat case_decide.
Qed.

Lemma length_cut_with c n buf :
  0 ≤ n → length buf = csz → zlen (cut_with c n buf) = n.
Proof.
  intros Hn Hb. pose proof (Z.mod_pos_bound n CHUNK_SIZE ltac:(lia)).
  pose proof (Z.mod_le n CHUNK_SIZE ltac:(lia) ltac:(lia)). unfold cut_with.
  rewrite length_app, length_set_length, length_take. lia.
Qed.

Lemma cut_with_same c n i :
  0 ≤ n → i = Z.to_nat (n / CHUNK_SIZE) →
  cut_with c n (window c (i * csz) csz) = set_length c (Z.to_nat n).
Proof.
  intros Hn ->. pose proof (Z.mod_pos_bound n CHUNK_SIZE ltac:(lia)).
  pose proof (Z.div_mod n CHUNK_SIZE ltac:(lia)).
  assert (0 ≤ n / CHUNK_SIZE) by (apply Z.div_pos; lia).
  apply byte_at_ext.
  { apply Nat2Z.inj. rewrite length_cut_with, length_set_length by (rewrite ?length_window; lia). lia. }
  intros k _. unfold cut_with.
  rewrite byte_at_app, !byte_at_take, byte_at_window, !byte_at_set_length, length_set_length.
  repeat case_decide; try done; try lia. f_equal. lia.
Qed.

Lemma window_cut_last c n buf i :
  0 ≤ n → length buf = csz → i = Z.to_nat (n / CHUNK_SIZE) →
  window (cut_with c n buf) (i * csz) csz =
    take (Z.to_nat (n `mod` CHUNK_SIZE)) buf ++ zeros (CHUNK_SIZE - n `mod` CHUNK_SIZE).
Proof.
  intros Hn Hb ->. pose proof (Z.mod_pos_bound n CHUNK_SIZE ltac:(lia)).
  pose proof (Z.div_mod n CHUNK_SIZE ltac:(lia)).
  assert (0 ≤ n / CHUNK_SIZE) by (apply Z.div_pos; lia).
  apply byte_at_ext; [unfold zeros; len|]. intros k Hk. rewrite length_window in Hk.
  unfold cut_with, zeros. rewrite byte_at_window, decide_True by done.
  rewrite !byte_at_app, !byte_at_take, byte_at_replicate, !length_take, byte_at_set_length, length_set_length.
  repeat case_decide; try done; try lia. f_equal. lia.
Qed.

Lemma window_cut_before c n buf j :
  0 ≤ n → (j < Z.to_nat (n / CHUNK_SIZE))%nat →
  window (cut_with c n buf) (j * csz) csz = window c (j * csz) csz.
Proof.
  intros Hn Hj. pose proof (Z.mod_pos_bound n CHUNK_SIZE ltac:(lia)).
  pose proof (Z.div_mod n CHUNK_SIZE ltac:(lia)).
  apply window_ext. intros k Hk. unfold cut_with.
  rewrite byte_at_app, byte_at_set_length, length_set_length. repeat case_decide; done || nia.
Qed.
End size.

(** ** Truncation in the middle of a block *)
Section cut.
Context `{!Sha256FFI, !Sha256Spec} {bm : BuildMode} {wf : WriteFuel} {W F : Type}.
Context `{!ReadByChunk W F, !RandomWrite W F}.
Import VerifiedFileEditor.

Lemma on_file_Ok {E A} (m : M W E A) (s : MerkleLeaves * W) a w' :
  m s.2 = (Ok a, w') → on_file m s = (Ok a, (s.1, w')).
Proof. unfold on_file, zoom. by intros ->. Qed.

(** The last block is taken from the storage as it is. *)
Lemma resize_cut_run (ed : VerifiedFileEditor F) n c (s : MerkleLeaves * W) size buf w1 w2 :
  leaves s.1 = leaf_hashes c → 0 ≤ n < file_size s.1 → 0 < n `mod` CHUNK_SIZE → n ≤ i64_max →
  File.read_chunk (editor_file ed) (n / CHUNK_SIZE) (zeros CHUNK_SIZE) s.2 = (Ok (size, buf), w1) →
  length buf = csz → debug_assertions = false ∨ n `mod` CHUNK_SIZE ≤ size →
  File.resize (editor_file ed) n w1 = (Ok tt, w2) →
  ∃ t', VerifiedFileEditor.resize ed n s = (Ok tt, (t', w2)) ∧ represents t' (cut_with c n buf).
Proof.
  intros Hl Hn Hpos Hmax Hrd Hbuf Hdbg Hrs.
  pose proof (Z.mod_pos_bound n CHUNK_SIZE ltac:(lia)) as Hmod.
  assert (0 ≤ n / CHUNK_SIZE) by (apply Z.div_pos; lia).
  assert (zlen (cut_with c n buf) = n) as Hlen by (apply length_cut_with; lia).
  assert (length (cut_with c n buf) / csz = Z.to_nat (n / CHUNK_SIZE))%nat as Hi.
  { apply Nat2Z.inj. rewrite Nat2Z.inj_div, Hlen, Z2Nat.id by lia. done. }
  destruct (represents_resize_cut (E := io_error) s.1 c (cut_with c n buf) Hl)
    as (t1 & t' & Hu & Hr & Hrep'); [lia..| |].
  { intros j Hj. apply window_cut_before; lia. }
  exists t'. split; [|done]. rewrite Hlen, Hi, window_cut_last in * by (done || lia).
  unfold VerifiedFileEditor.resize. rewrite usize_is_u64, bind_lift_Ok.
  erewrite (M_bind_Ok get_tree) by done.
  rewrite (proj2 (Z.ltb_lt n _)), !(proj2 (Z.ltb_lt 0 _)) by lia. cbn [andb].
  rewrite M_bind_assoc. unfold read_chunk. erewrite M_bind_Ok by (by apply on_file_Ok).
  cbv beta iota. rewrite M_bind_assoc.
  assert (debug_assert (E := io_error) (Ok (n `mod` CHUNK_SIZE <=? size)) = Ok tt) as ->.
  { unfold debug_assert. destruct Hdbg as [->|Hle]; [done|].
    rewrite (proj2 (Z.leb_le _ _)) by done. by destruct debug_assertions. }
  rewrite bind_lift_Ok, M_bind_assoc, slice_Ok, bind_lift_Ok by lia. rewrite drop_0, Z.sub_0_r.
  hash_steps. cbn [crypto_io map_err]. rewrite M_bind_assoc, bind_lift_Ok, M_bind_assoc.
  rewrite Hu, bind_lift_Ok. erewrite (M_bind_Ok (put_tree _)) by done.
  erewrite M_bind_Ok by (apply on_file_Ok; exact Hrs).
  erewrite (M_bind_Ok get_tree) by done. cbn [fst]. by rewrite Hr, bind_lift_Ok.
Qed.
End cut.

(** ** Honest storage *)
Section honest.
Context `{!Sha256FFI, !Sha256Spec} {bm : BuildMode} {wf : WriteFuel} {W F : Type}.
Context `{!ReadByChunk W F, !RandomWrite W F}.
Context (content : F → W → option (list byte)).
Context `{!HonestReader W F content, !HonestWriter W F content}.
Import VerifiedFileEditor.

(** The storage holds [c] and the tree is that of [c]. *)
Definition editor_holds (ed : VerifiedFileEditor F) (s : MerkleLeaves * W) (c : list byte) : Prop :=
  represents s.1 c ∧ content (editor_file ed) s.2 = Some c.

Lemma editor_read_honest (ed : VerifiedFileEditor F) (s : MerkleLeaves * W) i c :
  content (editor_file ed) s.2 = Some c → zlen c ≤ i64_max → (i * csz < length c)%nat →
  VerifiedFileEditor.read_chunk ed (Z.of_nat i) (zeros CHUNK_SIZE) s =
    (Ok (zlen (take csz (drop (i * csz) c)), window c (i * csz) csz), s).
Proof.
  intros Hc Hlen Hi. unfold VerifiedFileEditor.read_chunk.
  erewrite on_file_Ok by (eapply (read_chunk_honest_zeros content); [exact Hc|lia..]).
  rewrite Nat2Z.id. by destruct s.
Qed.

Lemma new_chunk_hash_honest (ed : VerifiedFileEditor F) source a i t c (s : MerkleLeaves * W) :
  content (editor_file ed) s.2 = Some c → leaves t = leaf_hashes c →
  zlen c ≤ i64_max → (a + length source ≤ csz)%nat →
  new_chunk_hash ed source (Z.of_nat a) (zlen source) (Z.of_nat i) t s =
    (Ok (sha256 (window (overwrite c (i * csz + a) source) (i * csz) csz)), s).
Proof.
  intros Hc Hl Hlen Ha. unfold new_chunk_hash.
  destruct (Z.eqb_spec (zlen source) CHUNK_SIZE).
  { assert (a = O) as -> by lia. hash_steps. simpl. unfold lift. do 3 f_equal.
    rewrite Nat.add_0_r. apply full_block. lia. }
  unfold new_hash_for_incomplete_write.
  erewrite M_bind_Ok; [|instantiate (1 := s); instantiate (1 := window c (i * csz) csz)].
  - rewrite slice_Ok, bind_lift_Ok by (rewrite ?length_window; lia).
    rewrite u64_add_Ok, bind_lift_Ok by lia.
    rewrite slice_Ok, bind_lift_Ok by (rewrite ?length_window; lia).
    hash_steps. unfold lift. do 3 f_equal. rewrite <- splice_block by done.
    rewrite drop_0, length_window.
    rewrite (take_ge (drop _ _)) by (rewrite length_drop, length_window; lia).
    cbn [crypto_io map_err]. do 3 f_equal; [f_equal; lia|]. do 2 f_equal. lia.
  - unfold MerkleLeaves.is_index_valid, MerkleLeaves.is_consistent. rewrite Hl, Nat2Z.id.
    pose proof (lt_length_chunks csz c i ltac:(lia)).
    assert (length (leaf_hashes c) = length (chunks csz c)) by apply length_fmap.
    destruct (Z.ltb_spec (Z.of_nat i) (zlen (leaf_hashes c))).
    + erewrite M_bind_Ok by (apply editor_read_honest; [done..|lia]). cbv beta iota.
      hash_steps. cbn [crypto_io map_err]. rewrite bind_lift_Ok, lookup_leaf_hashes.
      rewrite decide_True by lia. by rewrite bool_decide_true.
    + rewrite window_past_end by lia. done.
Qed.

Lemma write_piece_honest (ed : VerifiedFileEditor F) buf off o n c (s : MerkleLeaves * W) :
  (csz < write_fuel)%nat →
  leaves s.1 = leaf_hashes c → content (editor_file ed) s.2 = Some c → zlen c ≤ i64_max →
  0 ≤ off ≤ o → 0 < n ≤ CHUNK_SIZE - o `mod` CHUNK_SIZE →
  o + n ≤ off + zlen buf → off + zlen buf ≤ i64_max →
  ∃ s', write_piece ed buf off (o, n) s = (Ok tt, s') ∧
    let c' := overwrite c (Z.to_nat o) (take (Z.to_nat n) (drop (Z.to_nat (o - off)) buf)) in
    leaves s'.1 = leaf_hashes c' ∧ file_size s'.1 = Z.max (file_size s.1) (off + zlen buf) ∧
    content (editor_file ed) s'.2 = Some c'.
Proof.
  intros Hfuel Hl Hc Hlen Ho Hn Hend Hlim. unfold write_piece.
  assert (get_tree (E := control io_error Z) s = (Ok s.1, s)) as Hg by done.
  rewrite (M_bind_Ok _ _ _ _ _ Hg). rewrite u64_sub_Ok, bind_lift_Ok by lia.
  rewrite u64_add_Ok, bind_lift_Ok by lia. rewrite slice_Ok, bind_lift_Ok by lia.
  replace (o - off + n - (o - off)) with n by lia.
  remember (take (Z.to_nat n) (drop (Z.to_nat (o - off)) buf)) as src eqn:Hsrc.
  assert (length src = Z.to_nat n) as Hsl by (subst src; rewrite length_take, length_drop; lia).
  pose proof (Z.mod_pos_bound o CHUNK_SIZE ltac:(lia)) as Hmod.
  pose proof (Z.div_mod o CHUNK_SIZE ltac:(lia)) as Hdm.
  assert (0 ≤ o / CHUNK_SIZE) as Hdiv by (apply Z.div_pos; lia).
  remember (o / CHUNK_SIZE) as q eqn:Hq. remember (o `mod` CHUNK_SIZE) as a eqn:Ha.
  pose proof (new_chunk_hash_honest ed src (Z.to_nat a) (Z.to_nat q) s.1 c s Hc Hl Hlen
    ltac:(lia)) as Hh.
  rewrite !Z2Nat.id in Hh by lia. replace (zlen src) with n in Hh by lia.
  replace (Z.to_nat q * csz + Z.to_nat a)%nat with (Z.to_nat o) in * by lia.
  erewrite M_bind_Ok by (unfold m_map_err; rewrite Hh; done).
  destruct (write_all_at_honest content write_fuel (editor_file ed) src o s.2 c)
    as (w' & Hw & Hcw); [done|lia..|].
  erewrite M_bind_Ok by (unfold m_map_err; rewrite (on_file_Ok _ _ _ _ Hw); done).
  destruct (update_hash_leaves (E := control io_error Z) s.1 c (Z.to_nat q) (Z.to_nat o) src
    (off + zlen buf)) as (t' & Hu & Hlt & Hst); [done|by destruct src; simpl in *; [lia|]|lia..|].
  rewrite Z2Nat.id in Hu by lia.
  replace (u64_saturating_add off (zlen buf)) with (off + zlen buf)
    by (unfold u64_saturating_add; lia).
  rewrite Hu, bind_lift_Ok. exists (t', w'). done.
Qed.

Lemma write_pieces_honest (ed : VerifiedFileEditor F) buf off c size0 o rem l (s : MerkleLeaves * W) :
  (csz < write_fuel)%nat →
  chunking CHUNK_SIZE o rem l → 0 ≤ off ≤ o → o + rem = off + zlen buf →
  off + zlen buf ≤ i64_max → zlen c ≤ i64_max →
  written c off buf size0 (o - off) s.1 →
  content (editor_file ed) s.2 =
    Some (overwrite c (Z.to_nat off) (take (Z.to_nat (o - off)) buf)) →
  ∃ s', mfold (λ _ piece, write_piece ed buf off piece) tt l s = (Ok tt, s') ∧
    written c off buf size0 (zlen buf) s'.1 ∧
    content (editor_file ed) s'.2 = Some (overwrite c (Z.to_nat off) buf).
Proof.
  intros Hfuel Hch. revert s.
  induction Hch as [o|o rem l n Hrem Hn Hch IH]; intros s Ho Hend Hlim Hlen Hw Hc.
  { exists s. replace (o - off) with (zlen buf) in * by lia.
    split_and!; [done..|]. by rewrite take_ge in Hc by lia. }
  pose proof (Z.mod_pos_bound o CHUNK_SIZE ltac:(lia)). destruct Hw as [Hwl Hws].
  destruct (write_piece_honest ed buf off o n _ s Hfuel Hwl Hc) as (s1 & Hp & Hl1 & Hs1 & Hc1);
    [rewrite length_overwrite, length_take; case_decide; lia|lia..|].
  replace (Z.to_nat o) with (Z.to_nat off + Z.to_nat (o - off))%nat in Hl1, Hc1 by lia.
  rewrite overwrite_take_app in Hl1, Hc1 by lia.
  replace (Z.to_nat (o - off) + Z.to_nat n)%nat with (Z.to_nat (o + n - off)) in Hl1, Hc1 by lia.
  destruct (IH s1) as (s2 & Hf & Hrest); [lia..| |done|].
  { split; [done|]. rewrite Hs1, Hws. rewrite (proj2 (Z.eqb_neq (o + n - off) 0)) by lia.
    case_match; lia. }
  exists s2. cbn [mfold]. by rewrite (M_bind_Ok _ _ _ _ _ Hp).
Qed.

(** A write on honest storage is a write to the file in memory. *)
Lemma write_at_holds (ed : VerifiedFileEditor F) buf off c (s : MerkleLeaves * W) :
  (csz < write_fuel)%nat → editor_holds ed s c → 0 ≤ off → off + zlen buf ≤ i64_max →
  zlen c ≤ i64_max →
  ∃ s', VerifiedFileEditor.write_at ed buf off s = (Ok (zlen buf), s') ∧
        editor_holds ed s' (overwrite c (Z.to_nat off) buf).
Proof.
  intros Hfuel [[Hl Hs] Hc] Ho Hlim Hlen. unfold VerifiedFileEditor.write_at.
  rewrite usize_is_u64, bind_lift_Ok. unfold catch_return.
  destruct (try_fold_ranges CHUNK_SIZE ltac:(lia) off (zlen buf)) as (l & Hch & Hfold); [lia..|].
  destruct (write_pieces_honest ed buf off c (file_size s.1) off (zlen buf) l s)
    as (s' & Hf & [Hwl Hws] & Hc'); [first [done|lia]..| | |].
  { rewrite Z.sub_diag. split; [by rewrite Hl|done]. }
  { by rewrite Z.sub_diag. }
  exists s'. erewrite M_bind_Ok by (by rewrite Hfold). split; [done|].
  split; [split|done].
  - rewrite Hwl. by rewrite take_ge by lia.
  - rewrite Hws, Hs, length_overwrite. destruct buf; simpl; [done|]. lia.
Qed.

(** A change of size, when the recorded size may be ahead of the contents: all that matters is
    what the read of the block that is cut gives. *)
Lemma resize_run (ed : VerifiedFileEditor F) n c (s : MerkleLeaves * W) :
  leaves s.1 = leaf_hashes c → zlen c ≤ file_size s.1 → content (editor_file ed) s.2 = Some c →
  0 ≤ n ≤ i64_max →
  (n < file_size s.1 → 0 < n `mod` CHUNK_SIZE →
   ∃ size, File.read_chunk (editor_file ed) (n / CHUNK_SIZE) (zeros CHUNK_SIZE) s.2 =
       (Ok (size, window c (Z.to_nat (n / CHUNK_SIZE) * csz) csz), s.2) ∧
     (debug_assertions = false ∨ n `mod` CHUNK_SIZE ≤ size)) →
  ∃ s', VerifiedFileEditor.resize ed n s = (Ok tt, s') ∧
        editor_holds ed s' (set_length c (Z.to_nat n)).
Proof.
  intros Hl Hs Hc Hn Hread.
  destruct (resize_honest (content := content) (editor_file ed) n s.2 c) as (w' & Hw & Hc');
    [done|lia|]. pose proof (Z.mod_pos_bound n CHUNK_SIZE ltac:(lia)) as Hmod.
  destruct ((n <? file_size s.1) && (0 <? n `mod` CHUNK_SIZE)) eqn:Hcut.
  - apply andb_true_iff in Hcut as [Hlt%Z.ltb_lt Hpos%Z.ltb_lt].
    destruct (Hread Hlt Hpos) as (size & Hrd & Hdbg).
    destruct (resize_cut_run ed n c s _ _ s.2 w' Hl ltac:(lia) Hpos ltac:(lia) Hrd)
      as (t' & Hr & Hrep'); [apply length_window|done|done|].
    exists (t', w'). split; [done|split; [|done]].
    by rewrite cut_with_same in Hrep' by (done || lia).
  - destruct (represents_resize_keep (E := io_error) s.1 c n Hl Hs) as (t' & Hr & Hrep'); [lia..| |].
    { apply andb_false_iff in Hcut as [Hge%Z.ltb_ge|Hz%Z.ltb_ge]; lia. }
    unfold VerifiedFileEditor.resize. rewrite usize_is_u64, bind_lift_Ok.
    erewrite (M_bind_Ok get_tree) by done. rewrite Hcut. erewrite (M_bind_Ok (mret tt)) by done.
    erewrite M_bind_Ok by (apply on_file_Ok; exact Hw).
    erewrite (M_bind_Ok get_tree) by done. cbn [fst]. rewrite Hr, bind_lift_Ok.
    by exists (t', w').
Qed.

(** A change of size on honest storage is one of the file in memory. *)
Lemma resize_holds (ed : VerifiedFileEditor F) n c (s : MerkleLeaves * W) :
  editor_holds ed s c → 0 ≤ n ≤ i64_max → zlen c ≤ i64_max →
  ∃ s', VerifiedFileEditor.resize ed n s = (Ok tt, s') ∧
        editor_holds ed s' (set_length c (Z.to_nat n)).
Proof.
  intros [[Hl Hs] Hc] Hn Hlen. apply resize_run; [done|lia|done|done|]. intros Hlt Hpos.
  pose proof (Z.div_mod n CHUNK_SIZE ltac:(lia)) as Hdm.
  assert (0 ≤ n / CHUNK_SIZE) as Hdiv by (apply Z.div_pos; lia).
  pose proof (Z.mod_pos_bound n CHUNK_SIZE ltac:(lia)).
  eexists. split; [apply (read_chunk_honest_zeros content); done || lia|].
  right. rewrite length_take, length_drop. lia.
Qed.

Lemma new_holds file (w : W) :
  content file w = Some [] → editor_holds (new file).1 ((new file).2, w) [].
Proof. done. Qed.
End honest.

(** ** Sequences of operations *)
Inductive editor_op :=
| WriteAt (buf : list byte) (offset : Z)
| Resize (size : Z).

(** A file in memory: what the editor promises to be. *)
Definition spec_op (c : list byte) (op : editor_op) : list byte :=
  match op with
  | WriteAt buf offset => overwrite c (Z.to_nat offset) buf
  | Resize size => set_length c (Z.to_nat size)
  end.
Definition op_in_range (op : editor_op) : Prop :=
  match op with
  | WriteAt buf offset => 0 ≤ offset ∧ offset + zlen buf ≤ i64_max
  | Resize size => 0 ≤ size ≤ i64_max
  end.
#[global] Instance op_in_range_dec op : Decision (op_in_range op).
Proof. destruct op; apply _. Defined.

Section run.
Context `{!Sha256FFI, !Sha256Spec} {wf : WriteFuel} {W F : Type}.
Context `{!ReadByChunk W F, !RandomWrite W F}.

Definition run_op {bm : BuildMode} (ed : VerifiedFileEditor F) (_ : unit) (op : editor_op)
    : M (MerkleLeaves * W) io_error unit :=
  match op with
  | WriteAt buf offset => _ ← VerifiedFileEditor.write_at ed buf offset; mret tt
  | Resize size => VerifiedFileEditor.resize ed size
  end.

Lemma spec_op_length c op :
  op_in_range op → zlen c ≤ i64_max → zlen (spec_op c op) ≤ i64_max.
Proof.
  destruct op; simpl; intros Hop Hc.
  - rewrite length_overwrite. case_decide; lia.
  - rewrite length_set_length. lia.
Qed.

Lemma spec_ops_length ops c :
  Forall op_in_range ops → zlen c ≤ i64_max → zlen (foldl spec_op c ops) ≤ i64_max.
Proof.
  intros Hops. revert c. induction Hops as [|op ops Hop _ IH]; intros c Hc; [done|].
  simpl. apply IH. by apply spec_op_length.
Qed.

Lemma run_ops_holds {bm : BuildMode} content `{!HonestReader W F content, !HonestWriter W F content}
    (ed : VerifiedFileEditor F) ops c s :
  (csz < write_fuel)%nat → Forall op_in_range ops → zlen c ≤ i64_max →
  editor_holds content ed s c →
  ∃ s', mfold (run_op ed) tt ops s = (Ok tt, s') ∧
        editor_holds content ed s' (foldl spec_op c ops).
Proof.
  intros Hfuel Hops. revert c s.
  induction Hops as [|op ops Hop _ IH]; intros c s Hc Hs; [by exists s|].
  assert (∃ s1, run_op ed tt op s = (Ok tt, s1) ∧ editor_holds content ed s1 (spec_op c op))
    as (s1 & Hr & Hs1).
  { destruct op as [buf off|n]; simpl in Hop |- *.
    - destruct (write_at_holds content ed buf off c s) as (s1 & Hw & Hs1); [done|done|lia..|].
      exists s1. by rewrite (M_bind_Ok _ _ _ _ _ Hw).
    - by apply resize_holds. }
  destruct (IH (spec_op c op) s1) as (s2 & Hf & Hs2); [by apply spec_op_length|done|].
  exists s2. cbn [mfold]. by rewrite (M_bind_Ok _ _ _ _ _ Hr).
Qed.

(** The contents, the size and the digest after a run from a new file. *)
Lemma run_ops_digest content `{!HonestReader W F content, !HonestWriter W F content} file ops w :
  (csz < write_fuel)%nat → Forall op_in_range ops → content file w = Some [] →
  let ed := (VerifiedFileEditor.new file).1 in
  let c := foldl spec_op [] ops in
  ∃ s', mfold (run_op (bm := release) ed) tt ops ((VerifiedFileEditor.new file).2, w) = (Ok tt, s') ∧
    content file s'.2 = Some c ∧
    VerifiedFileEditor.size ed s' = (Ok (zlen c), s') ∧
    VerifiedFileEditor.calculate_fsverity_digest (bm := release) ed s' = (Ok (fsverity_digest c), s').
Proof.
  intros Hfuel Hops Hnew ed c.
  destruct (run_ops_holds (bm := release) content ed ops [] (MerkleLeaves.new, w))
    as (s' & Hrun & Hrep & Hc); [done..|by apply (new_holds content)|].
  exists s'. split; [done|]. split; [done|].
  split; [unfold VerifiedFileEditor.size; erewrite (M_bind_Ok VerifiedFileEditor.get_tree) by done;
          by rewrite (proj2 Hrep)|].
  unfold VerifiedFileEditor.calculate_fsverity_digest.
  erewrite (M_bind_Ok VerifiedFileEditor.get_tree) by done.
  rewrite (calculate_fsverity_digest_represents _ _ Hrep); [done|].
  pose proof (spec_ops_length ops [] Hops ltac:(done)). lia.
Qed.

(** Growing, or shrinking to whole blocks, does not depend on the storage. *)
Lemma resize_tracks {bm : BuildMode} (ed : VerifiedFileEditor F) n c s r s' :
  represents s.1 c → 0 ≤ n → n + CHUNK_SIZE < u64_limit →
  file_size s.1 ≤ n ∨ n `mod` CHUNK_SIZE = 0 →
  VerifiedFileEditor.resize ed n s = (r, s') →
  (r = Ok tt ∧ represents s'.1 (set_length c (Z.to_nat n))) ∨ (r ≠ Ok tt ∧ s'.1 = s.1).
Proof.
  intros Hrep Hn Hlim Hcase. unfold VerifiedFileEditor.resize.
  rewrite usize_is_u64, bind_lift_Ok. erewrite (M_bind_Ok VerifiedFileEditor.get_tree) by done.
  destruct (represents_resize_keep (E := io_error) s.1 c n (proj1 Hrep) ltac:(destruct Hrep; lia) Hn Hlim Hcase)
    as (t' & Ht & Hrep').
  assert ((n <? file_size s.1) && (0 <? n `mod` CHUNK_SIZE) = false) as ->.
  { apply andb_false_iff. rewrite !Z.ltb_ge.
    pose proof (Z.mod_pos_bound n CHUNK_SIZE ltac:(lia)). lia. }
  erewrite (M_bind_Ok (mret tt)) by done. unfold VerifiedFileEditor.on_file, zoom, mbind, M_bind.
  destruct (resize _ _ _) as [[[]|e| |] w']; simpl; [|intros [= <- <-]; by right..].
  change (VerifiedFileEditor.get_tree (E := io_error) (s.1, w')) with
    (Ok (E := io_error) s.1, (s.1, w')). simpl. rewrite Ht.
  intros [= <- <-]. by left.
Qed.
End run.
