(* ===== verification/VerifierProps.v ===== *)
(** * What the verifying reader guarantees

    The theorems about [VerifiedFileReader]: a chunk that is handed out is the
    chunk of the signed file whatever the storage answers, honest storage is
    served, opening a file ties the reader to signed contents, and the walk of
    the tree stays in bounds. *)
From S2P Require Import Prelude RustInt Crypto Common Fsverity Merkle Builder File Os.
From S2P Require Import LocalFile Verifier.

Section reader.
Context `{!Sha256FFI, !Sha256Spec} {W F T : Type}.
Context `{!ReadByChunk W F, !ReadByChunk W T}.

(** The reader was opened on the contents [c]. *)
Definition authenticates (r : VerifiedFileReader F T) (c : list byte) : Prop :=
  root_hash r = verity_root c ∧ verified_file_size r = zlen c ∧ 0 < zlen c ≤ max_walk_size.

(** The bytes [data] at the front of the buffer, read for chunk [idx], are
    those of [c]: beyond [data] the chunk of [c] only has zeros. *)
Definition chunk_of (c : list byte) (idx : Z) (data : list byte) : Prop :=
  (length data ≤ csz)%nat ∧ pad_to csz data = window c (Z.to_nat idx * csz) csz.

Lemma read_chunk_accepted `{!BufferReader W F, !BufferReader W T}
    (r : VerifiedFileReader F T) c idx buf w n buf' w' :
  authenticates r c → 0 ≤ idx → idx * CHUNK_SIZE < zlen c → length buf = csz →
  read_chunk r idx buf w = (Ok (n, buf'), w') →
  (∃ data, zlen data = n ∧ buf' = data ++ drop (length data) buf ∧ chunk_of c idx data) ∨
  clash (path_messages c idx) (run_messages r idx buf w).
Proof.
  intros (Hroot & Hsize & Hlen) Hi Hr Hb Hread.
  unfold read_chunk, VerifiedFileReader_read_chunk in Hread. inv_bind.
  destruct r0 as [size b]. inv_bind. case_bool_decide as Heq; [|done]. inv_bind.
  destruct (read_chunk_prefix _ _ _ _ _ _ _ Hb Hr0) as (data & Hd & Hdl & ->).
  match goal with Hs : slice _ _ _ = Ok _ |- _ => apply slice_Ok_inv in Hs as (_ & _ & _ & ->) end.
  unfold run_messages. rewrite Hr0, Hsize.
  rewrite drop_0, take_app_length' in * by lia. rewrite Hsize in *.
  destruct (verity_check_sound c idx _ data _ _ _ Hi Hr ltac:(lia) Hdl ltac:(eassumption) ltac:(congruence))
    as [Hw|]; [left|by right].
  by exists data.
Qed.

(** ** Opening a file *)
Context {A : Type} `{!Authenticator A}.

(** What is signed: the digest behind the header of [struct fsverity_formatted_digest]. *)
Definition format_digest (digest : list byte) : list byte :=
  FS_VERITY_MAGIC ++ to_le_bytes 2 FS_VERITY_HASH_ALG_SHA256 ++ to_le_bytes 2 HASH_SIZE ++ digest.
Definition formatted_digest (root : list byte) (size : Z) : list byte :=
  format_digest (sha256 (descriptor root size)).

Lemma format_digest_inj d1 d2 : format_digest d1 = format_digest d2 → d1 = d2.
Proof. unfold format_digest. by intros Heq%app_inv_head%app_inv_head%app_inv_head. Qed.

Lemma build_fsverity_formatted_digest_spec root size :
  build_fsverity_formatted_digest root size = Ok (formatted_digest root size).
Proof.
  unfold build_fsverity_formatted_digest. rewrite build_fsverity_digest_spec. cbn [mbind outcome_bind].
  unfold formatted_digest, format_digest, copy_from_slice. pose proof (length_sha256 (descriptor root size)) as Hlen.
  generalize dependent (sha256 (descriptor root size)). intros d Hd.
  assert (zlen d = 32) as Hz by (rewrite Hd; done).
  rewrite Hz. vm_compute. repeat f_equal. apply app_nil_r.
Qed.

Lemma length_verity_root c : 0 < zlen c → length (verity_root c) = hsz.
Proof.
  intros Hc. unfold verity_root.
  assert (∀ fuel hs, all_hashes hs → length (reduce fuel hs) = hsz) as Hred.
  { induction fuel as [|fuel IH]; intros hs Hh; destruct Hh as [|h hs ? [|]]; try done.
    apply IH, all_hashes_hash_pages. }
  apply Hred, all_hashes_hash_pages.
Qed.

(** A reader that was opened holds the hash of the page it was given as the root's, and that
    root and the size were accepted by the authenticator. *)
Lemma new_accepted (auth : A) (file : F) size sig (tree : T) (w : W) r w' :
  VerifiedFileReader.new auth file size sig tree w = (Ok r, w') →
  ∃ pg, read_chunk tree 0 (zeros CHUNK_SIZE) w = (Ok (zlen pg, pg), w') ∧
    r = Build_VerifiedFileReader file size tree (sha256 pg) ∧
    verify auth sig (formatted_digest (sha256 pg) size) = Ok true.
Proof.
  intros Hnew. unfold VerifiedFileReader.new in Hnew. inv_bind.
  destruct r0 as [n buf]. destruct (Z.eqb_spec (zlen buf) n) as [<-|]; [|done].
  cbn [negb] in Hnew. inv_bind. revert Hnew.
  match goal with Hb : crypto_fsverity (build_fsverity_formatted_digest _ _) = Ok _ |- _ =>
    rewrite build_fsverity_formatted_digest_spec in Hb; simplify_eq/= end.
  match goal with Hh : crypto_fsverity (h ← Sha256Hasher.new; _) = Ok _ |- _ => revert Hh end.
  hash_steps. cbn [crypto_fsverity map_err]. intros [= <-] Hnew.
  match goal with Ha : verify _ _ _ = Ok ?v |- _ => destruct v; [|done] end.
  inv_bind. by exists buf.
Qed.

(** A formatted digest determines the root and the size. *)
Lemma formatted_digest_inj root size c :
  length root = hsz → is_u64 size → 0 < zlen c ≤ max_walk_size →
  formatted_digest root size = formatted_digest (verity_root c) (zlen c) →
  root = verity_root c ∧ size = zlen c ∨
  clash [descriptor (verity_root c) (zlen c)] [descriptor root size].
Proof.
  intros Hl Hu Hc Heq%format_digest_inj%eq_sym.
  eapply same_digest_or_clash in Heq as [Heq|]; [left|right; eassumption].
  by apply descriptor_inj in Heq as [-> ->];
    [|rewrite length_verity_root by lia; done|split; lia|done].
Qed.

(** ** Honest storage *)
Section served.
Context (content_f : F → W → option (list byte)) (content_t : T → W → option (list byte)).
Context `{!HonestReader W F content_f, !HonestReader W T content_t}.

(** A stored tree has as many pages as the tree of [c]; the path above a chunk is intact when
    the pages the walk reads are those of [c]. *)
Definition stored_tree (c : list byte) (k : nat) (ps : list (list byte)) : Prop :=
  Forall (λ b, length b = csz) ps ∧ length ps = length (tree_pages c k).
Definition path_intact (c : list byte) (k : nat) (ps : list (list byte)) (idx : Z) : Prop :=
  path_intact_from c idx k ps 0.

Lemma honest_tree_stored c k : stored_tree c k (tree_pages c k).
Proof. split; [apply Forall_tree_pages|done]. Qed.

(** With an honest file, only the check is left. *)
Lemma read_chunk_checked (r : VerifiedFileReader F T) c idx buf w :
  verified_file_size r = zlen c → content_f (chunked_file r) w = Some c → zlen c ≤ max_walk_size →
  0 ≤ idx → idx * CHUNK_SIZE < zlen c → length buf = csz →
  let chunk := take csz (drop (Z.to_nat idx * csz) c) in
  read_chunk r idx buf w =
    (root ← m_map_err (λ _, OsError EIO) (verity_check chunk idx (zlen c) (merkle_tree r));
     if bool_decide (root = root_hash r)
     then mret (zlen chunk, copy_prefix (length chunk) chunk buf) else throw (OsError EIO)) w.
Proof.
  intros Hsize Hf Hlen Hi Hr Hb chunk. unfold read_chunk, VerifiedFileReader_read_chunk.
  rewrite (M_bind_Ok _ _ _ _ _ (read_chunk_honest (content := content_f) _ _ _ _ _ Hf Hb Hi
    ltac:(lia) Hr)). cbv beta iota. fold chunk.
  assert (length chunk ≤ csz)%nat by (subst chunk; rewrite length_take; lia).
  rewrite slice_Ok, bind_lift_Ok by (rewrite ?length_copy_prefix; lia).
  rewrite Z.sub_0_r, Nat2Z.id, drop_0, Hsize. unfold copy_prefix.
  by rewrite firstn_all, take_app_length.
Qed.

(** What the read hashes then: the chunk of [c] and what the tree storage hands out. *)
Lemma run_messages_honest (r : VerifiedFileReader F T) c idx buf w :
  verified_file_size r = zlen c → content_f (chunked_file r) w = Some c → zlen c ≤ max_walk_size →
  0 ≤ idx → idx * CHUNK_SIZE < zlen c → length buf = csz →
  run_messages r idx buf w =
    check_messages (take csz (drop (Z.to_nat idx * csz) c)) idx (zlen c) (merkle_tree r) w.
Proof.
  intros Hsize Hf Hlen Hi Hr Hb. unfold run_messages.
  rewrite (read_chunk_honest (content := content_f) _ _ _ _ _ Hf Hb Hi ltac:(lia) Hr).
  rewrite Nat2Z.id, Hsize. unfold copy_prefix. by rewrite firstn_all, take_app_length.
Qed.

Section stored.
Context (r : VerifiedFileReader F T) (c : list byte) (k : nat) (ps : list (list byte)) (idx : Z).
Context (buf : list byte) (w : W).
Context (Ha : authenticates r c) (Hk : is_height (zlen c) k).
Context (Hf : content_f (chunked_file r) w = Some c) (Ht : content_t (merkle_tree r) w = Some (concat ps)).
Context (Hps : stored_tree c k ps).
Context (Hi : 0 ≤ idx) (Hr : idx * CHUNK_SIZE < zlen c) (Hb : length buf = csz).

Lemma read_chunk_intact :
  path_intact c k ps idx →
  let chunk := take csz (drop (Z.to_nat idx * csz) c) in
  read_chunk r idx buf w = (Ok (zlen chunk, copy_prefix (length chunk) chunk buf), w).
Proof.
  intros Hin chunk. destruct Ha as (Hroot & Hsize & Hc), Hps as [Hall Hlen].
  rewrite (read_chunk_checked r c) by (done || lia).
  erewrite M_bind_Ok by (unfold m_map_err;
    rewrite (verity_check_intact content_t c idx k) with (ps := ps) by (done || lia); done).
  by rewrite bool_decide_true by congruence.
Qed.

(** A read along an intact path has no clash with the contents. *)
Lemma run_messages_intact :
  path_intact c k ps idx → ¬ clash (path_messages c idx) (run_messages r idx buf w).
Proof.
  intros Hin. destruct Ha as (Hroot & Hsize & Hc), Hps as [Hall Hlen].
  rewrite (run_messages_honest r c) by (done || lia).
  rewrite (check_messages_intact content_t c idx k) with (ps := ps) by (done || lia).
  apply clash_irrefl.
Qed.

Lemma read_chunk_tampered `{!BufferReader W T} :
  ¬ path_intact c k ps idx → read_chunk r idx buf w = (Err (OsError EIO), w) ∨
  clash (path_messages c idx) (run_messages r idx buf w).
Proof.
  intros Hin. destruct Ha as (Hroot & Hsize & Hc), Hps as [Hall Hlen].
  rewrite (read_chunk_checked r c) by (done || lia). unfold mbind, M_bind, m_map_err.
  rewrite (run_messages_honest r c) by (done || lia).
  destruct (verity_check_tampered content_t c idx k ltac:(done) ltac:(done) ltac:(lia) Hk ps Hall Hlen
              (merkle_tree r) w Ht Hin) as [->|[(root & -> & Hne)|]]; [by left| |by right].
  left. cbn. by rewrite bool_decide_false by congruence.
Qed.
End stored.

(** The first page of a stored tree is the root's. *)
Lemma tree_root_page c k :
  0 < zlen c → is_height (zlen c) k →
  tree_pages c k !! 0%nat = Some (page_at c k 0) ∧ sha256 (page_at c k 0) = verity_root c.
Proof.
  intros Hc Hk. split.
  - pose proof (tree_pages_lookup c 0 k k ltac:(lia) ltac:(lia) ltac:(lia)) as Hl.
    rewrite Z.div_0_l in Hl by (pose proof (pow128_pos (Z.of_nat k + 1)); lia).
    unfold base in Hl. by rewrite Nat.sub_diag in Hl.
  - pose proof (verity_root_level_up c k Hc Hk) as Hl.
    symmetry. apply level_S_lookup. by rewrite Hl.
Qed.

(** Opening only looks at the root page; what is left is the signature. *)
Lemma new_stored (auth : A) (file : F) sig (tree : T) c k ps w :
  0 < zlen c ≤ max_walk_size → is_height (zlen c) k →
  content_t tree w = Some (concat ps) → stored_tree c k ps → ps !! 0%nat = tree_pages c k !! 0%nat →
  VerifiedFileReader.new auth file (zlen c) sig tree w =
    (valid ← lift (map_err Io (verify auth sig (formatted_digest (verity_root c) (zlen c))));
     if (valid : bool)
     then mret (Build_VerifiedFileReader file (zlen c) tree (verity_root c))
     else throw BadSignature) w.
Proof.
  intros Hc Hk Ht [Hall Hlen] Hp0. unfold VerifiedFileReader.new.
  destruct (tree_root_page c k ltac:(lia) Hk) as [Hp Hh]. rewrite <- Hp0 in Hp.
  pose proof (lookup_lt_Some _ _ _ Hp). pose proof (length_concat_pages ps Hall).
  pose proof (length_merkle_tree_pages c k).
  pose proof (length_merkle_tree_bytes c k Hc). pose proof (height_le_6 (zlen c) k Hc Hk).
  erewrite M_bind_Ok by (unfold m_map_err;
    rewrite (read_chunk_honest_zeros content_t _ 0 _ _ Ht) by lia; done). cbv beta iota.
  change (Z.to_nat 0 * csz)%nat with 0%nat. rewrite drop_0, length_window, length_take.
  rewrite (proj2 (Z.eqb_eq _ _)) by lia. cbn [negb].
  pose proof (window_concat_pages _ _ _ Hall Hp) as Hw. simpl in Hw. rewrite Hw.
  hash_steps. cbn [crypto_fsverity map_err]. rewrite bind_lift_Ok, Hh.
  rewrite build_fsverity_formatted_digest_spec. cbn [crypto_fsverity map_err].
  by rewrite bind_lift_Ok.
Qed.

(** The case in which both files are as they should be. *)
Lemma new_served (auth : A) (file : F) sig (tree : T) c k w :
  0 < zlen c ≤ max_walk_size → is_height (zlen c) k →
  content_t tree w = Some (merkle_tree_bytes c k) →
  verify auth sig (formatted_digest (verity_root c) (zlen c)) = Ok true →
  VerifiedFileReader.new auth file (zlen c) sig tree w =
    (Ok (Build_VerifiedFileReader file (zlen c) tree (verity_root c)), w).
Proof.
  intros Hc Hk Ht Hv. rewrite (new_stored _ _ _ _ _ k _ _ Hc Hk Ht) by auto using honest_tree_stored.
  by rewrite Hv.
Qed.

Lemma read_chunk_served (r : VerifiedFileReader F T) c k idx buf w :
  authenticates r c → is_height (zlen c) k →
  content_f (chunked_file r) w = Some c →
  content_t (merkle_tree r) w = Some (merkle_tree_bytes c k) →
  0 ≤ idx → idx * CHUNK_SIZE < zlen c → length buf = csz →
  let chunk := take csz (drop (Z.to_nat idx * csz) c) in
  read_chunk r idx buf w = (Ok (zlen chunk, copy_prefix (length chunk) chunk buf), w).
Proof.
  intros. apply (read_chunk_intact r c k (tree_pages c k)); try done. apply honest_tree_stored.
Qed.

(** A read of an honest file has no clash with its contents. *)
Lemma honest_run_no_clash (r : VerifiedFileReader F T) c k idx buf w :
  authenticates r c → is_height (zlen c) k →
  content_f (chunked_file r) w = Some c →
  content_t (merkle_tree r) w = Some (merkle_tree_bytes c k) →
  0 ≤ idx → idx * CHUNK_SIZE < zlen c → length buf = csz →
  ¬ clash (path_messages c idx) (run_messages r idx buf w).
Proof.
  intros. apply (run_messages_intact r c k (tree_pages c k)); try done. apply honest_tree_stored.
Qed.
End served.
End reader.

(** ** The reader's claims *)
Section claims.
Context `{!Sha256FFI, !Sha256Spec} {W F T : Type}.
Context `{!ReadByChunk W F, !ReadByChunk W T}.

(** C1: A verified read is authentic.  Once a reader is tied to contents [c], every chunk it
    returns is the chunk of [c] at that index, padded with zeros, however the storage of the
    file and of the tree behaves; otherwise this very read has hashed, at some step of its path to
    the root, a message that differs from that of [c] at that step and has the same SHA-256. *)
Theorem verified_read_sound `{!BufferReader W F, !BufferReader W T}
    (r : VerifiedFileReader F T) c idx buf w n buf' w' :
  authenticates r c → 0 ≤ idx → idx * CHUNK_SIZE < zlen c → length buf = csz →
  read_chunk r idx buf w = (Ok (n, buf'), w') →
  (∃ data, zlen data = n ∧ buf' = data ++ drop (length data) buf ∧ chunk_of c idx data) ∨
  clash (path_messages c idx) (run_messages r idx buf w).
Proof. apply read_chunk_accepted. Qed.

(** C13: Opening a file ties the reader to what was signed.  Under any authenticator, a reader
    that [new] returns has the hash of the page the tree storage gave as the root's, and the
    authenticator has accepted the signature for exactly that root and that size.  If what it
    accepted is the formatted digest of contents [c], the reader is tied to [c] and every chunk it
    returns is a chunk of [c], whatever the storage does later; otherwise the descriptors of the
    two clash, or the messages that read has hashed clash with those of [c]. *)
Theorem opened_file_authentic {A : Type} `{!Authenticator A}
    `{!BufferReader W F, !BufferReader W T}
    (auth : A) (file : F) size sig (tree : T) w r w1 :
  is_u64 size → VerifiedFileReader.new auth file size sig tree w = (Ok r, w1) →
  (∃ pg, read_chunk tree 0 (zeros CHUNK_SIZE) w = (Ok (CHUNK_SIZE, pg), w1) ∧
     r = Build_VerifiedFileReader file size tree (sha256 pg)) ∧
  verify auth sig (formatted_digest (root_hash r) size) = Ok true ∧
  ∀ c, 0 < zlen c ≤ max_walk_size →
    formatted_digest (root_hash r) size = formatted_digest (verity_root c) (zlen c) →
    authenticates r c ∧
    (∀ idx buf w2 n buf' w3,
       0 ≤ idx → idx * CHUNK_SIZE < size → length buf = csz →
       read_chunk r idx buf w2 = (Ok (n, buf'), w3) →
       (∃ data, zlen data = n ∧ buf' = data ++ drop (length data) buf ∧ chunk_of c idx data) ∨
       clash (path_messages c idx) (run_messages r idx buf w2)) ∨
    clash [descriptor (verity_root c) (zlen c)] [descriptor (root_hash r) size].
Proof.
  intros Hu Hnew. apply new_accepted in Hnew as (pg & Hrd & -> & Hv). cbn [root_hash].
  destruct (read_chunk_prefix _ _ _ _ _ _ _ length_zero_buffer Hrd) as (data & Hd & Hdl & Hpg).
  split.
  { exists pg. split; [|done]. rewrite Hrd. do 3 f_equal.
    rewrite Hpg, zero_buffer_prefix, length_pad_to by done. done. }
  split; [done|]. intros c Hc Heq.
  destruct (formatted_digest_inj _ _ c (length_sha256 pg) Hu Hc Heq) as [[Hroot ->]|]; [left|by right].
  assert (authenticates (Build_VerifiedFileReader file (zlen c) tree (sha256 pg)) c) as Ha by done.
  split; [done|]. intros * Hi Hr Hb Hread.
  by apply (read_chunk_accepted _ c idx buf w2 n buf' w3).
Qed.

(** C14: An honest file is opened and served.  If the storage holds contents [c] and their Merkle
    tree and the authenticator accepts the digest of [c], [new] succeeds with a reader tied to
    [c], and the read of any chunk in range succeeds and fills the buffer with exactly that
    chunk, leaving the storage as it was. *)
Theorem honest_file_served {A : Type} `{!Authenticator A} content_f content_t
    `{!HonestReader W F content_f, !HonestReader W T content_t}
    (auth : A) (file : F) sig (tree : T) c k w :
  0 < zlen c ≤ max_walk_size → is_height (zlen c) k →
  content_f file w = Some c → content_t tree w = Some (merkle_tree_bytes c k) →
  verify auth sig (formatted_digest (verity_root c) (zlen c)) = Ok true →
  ∃ r, VerifiedFileReader.new auth file (zlen c) sig tree w = (Ok r, w) ∧ authenticates r c ∧
    ∀ idx buf, 0 ≤ idx → idx * CHUNK_SIZE < zlen c → length buf = csz →
      let chunk := take csz (drop (Z.to_nat idx * csz) c) in
      read_chunk r idx buf w = (Ok (zlen chunk, copy_prefix (length chunk) chunk buf), w).
Proof.
  intros Hc Hk Hf Ht Hv. eexists. split; [by eapply (new_served content_t)|].
  assert (authenticates (Build_VerifiedFileReader file (zlen c) tree (verity_root c)) c) as Ha by done.
  split; [done|]. intros idx buf Hi Hr Hb.
  by apply (read_chunk_served content_f content_t _ c k).
Qed.

(** C8: Tampering with the stored tree breaks exactly the chunks under it.  Let a reader be tied to
    contents [c], let the file hold [c], and let the stored tree have the right number of pages but
    arbitrary ones.  If the pages the walk of a chunk visits are those of [c], the read returns
    exactly that chunk, whatever the other pages hold; if one of them is not, the read fails with
    [EIO] and returns nothing, unless a page it has hashed differs from that of [c] at the same
    step and has the same SHA-256. *)
Theorem tampered_tree_detected content_f content_t
    `{!HonestReader W F content_f, !HonestReader W T content_t, !BufferReader W T}
    (r : VerifiedFileReader F T) c k ps idx buf w :
  authenticates r c → is_height (zlen c) k → content_f (chunked_file r) w = Some c →
  content_t (merkle_tree r) w = Some (concat ps) → stored_tree c k ps →
  0 ≤ idx → idx * CHUNK_SIZE < zlen c → length buf = csz →
  let chunk := take csz (drop (Z.to_nat idx * csz) c) in
  (path_intact c k ps idx →
   read_chunk r idx buf w = (Ok (zlen chunk, copy_prefix (length chunk) chunk buf), w)) ∧
  (¬ path_intact c k ps idx →
   read_chunk r idx buf w = (Err (OsError EIO), w) ∨
   clash (path_messages c idx) (run_messages r idx buf w)).
Proof.
  intros Ha Hk Hf Ht Hps Hi Hr Hb chunk. split.
  - by apply (read_chunk_intact content_f content_t r c k ps).
  - by apply (read_chunk_tampered content_f content_t r c k ps).
Qed.
End claims.

(** ** Bounds of the walk *)
Section walk_bounds.

Lemma walk_level_overflow {E} idx size : walk_level (E := E) idx size 7 = Panic.
Proof. done. Qed.

Lemma height_above_walk size k :
  max_walk_size < size < u64_limit → is_height size k → k = 7%nat.
Proof.
  intros Hs [Hhi Hlo].
  assert (7 ≤ k)%nat.
  { destruct (decide (7 ≤ k)%nat); [done|].
    assert (128 ^ (Z.of_nat k + 1) ≤ 128 ^ 7) by (apply Z.pow_le_mono_r; lia).
    change (128 ^ 7) with 562949953421312 in *. lia. }
  destruct Hlo as [->|Hlo]; [lia|]. destruct (decide (k = 7)%nat); [done|].
  assert (128 ^ 8 ≤ 128 ^ Z.of_nat k) by (apply Z.pow_le_mono_r; lia).
  change (128 ^ 8) with 72057594037927936 in *. lia.
Qed.

Lemma step_in_tree `{!Sha256FFI, !Sha256Spec} c idx k x :
  0 ≤ idx → idx * CHUNK_SIZE < zlen c → (x ≤ k)%nat →
  let '(page, off) := step_at (zlen c) idx k x in
  page < zlen (tree_pages c k) ∧ 0 ≤ off ∧ off + HASH_SIZE ≤ CHUNK_SIZE.
Proof.
  intros Hi Hr Hx. unfold step_at. split.
  - pose proof (lookup_lt_Some _ _ _ (tree_pages_lookup c idx k x Hi Hr Hx)). lia.
  - pose proof (Z.mod_pos_bound (idx / 128 ^ Z.of_nat x) 128). lia.
Qed.
End walk_bounds.

Section walk_claims.
Context `{!Sha256FFI, !Sha256Spec}.

Lemma verity_root_one c :
  0 < zlen c ≤ CHUNK_SIZE → verity_root c = sha256 (page [sha256 (pad_to csz c)]).
Proof. intros Hc. unfold verity_root, leaf_hashes. by rewrite chunks_small by lia. Qed.

(** C26: The walk stays inside the tree.  For a file of at most 2^61 bytes and a chunk in range
    it visits one page per level, every page it names is a page of the stored tree and every
    hash lies inside its page, with no arithmetic overflow; for a larger file it panics. *)
Theorem fsverity_walk_bounds {E} c idx k :
  0 ≤ idx → idx * CHUNK_SIZE < zlen c → zlen c ≤ max_height_size → is_height (zlen c) k →
  if decide (zlen c ≤ max_walk_size) then
    ∃ steps, fsverity_walk (E := E) idx (zlen c) = Ok steps ∧ length steps = S k ∧
      Forall (λ '(page, off), 0 ≤ page < zlen (tree_pages c k) ∧
                              0 ≤ off ∧ off + HASH_SIZE ≤ CHUNK_SIZE) steps
  else fsverity_walk (E := E) idx (zlen c) = Panic.
Proof.
  intros Hi Hr Hmax Hk. case_decide as Hs.
  - eexists. split; [apply (fsverity_walk_spec _ _ k); done || lia|].
    split; [by rewrite length_fmap, length_seq|].
    apply Forall_fmap, Forall_forall. intros x Hx%list_elem_of_In%in_seq.
    pose proof (step_in_tree c idx k x Hi Hr ltac:(lia)) as Hst.
    pose proof (base_bound (zlen c) k ltac:(lia) Hk x ltac:(lia)).
    pose proof (pow128_pos (Z.of_nat x + 1) ltac:(lia)).
    assert (0 ≤ idx / 128 ^ (Z.of_nat x + 1)) by (apply Z.div_pos; lia).
    unfold step_at in *. simpl. lia.
  - unfold fsverity_walk.
    destruct (merkle_tree_height_spec (E := E) (zlen c)) as (k' & -> & Hk'); [lia|].
    rewrite (height_above_walk (zlen c) k') by (done || lia). done.
Qed.

(** C36: The two trees differ on files of one block.  Let an authenticator accept exactly the
    digest that [calculate_fsverity_digest] computes for contents [c], and let the storage hold the
    tree of [c] as the reader walks it.  Contents of more than one block are opened.  Contents of
    one block are refused with [BadSignature]: the builder, like fs-verity, takes the hash of the
    block as the root, while the reader hashes a page above it; the digests can only agree if the
    block is that page itself or if the two pairs of messages clash. *)
Theorem one_block_digest_mismatch {A W F T : Type} `{!Authenticator A}
    `{!ReadByChunk W T} content_t `{!HonestReader W T content_t}
    t c k digest (auth : A) (file : F) sig (tree : T) (w : W) :
  represents t c → 0 < zlen c ≤ max_walk_size → is_height (zlen c) k →
  MerkleLeaves.calculate_fsverity_digest (bm := release) t = Ok digest →
  (∀ formatted, verify auth sig formatted = Ok (bool_decide (formatted = format_digest digest))) →
  content_t tree w = Some (merkle_tree_bytes c k) →
  let opened := VerifiedFileReader.new auth file (zlen c) sig tree w in
  let block := pad_to csz c in
  let root_page := page [sha256 block] in
  (CHUNK_SIZE < zlen c →
   opened = (Ok (Build_VerifiedFileReader file (zlen c) tree (verity_root c)), w)) ∧
  (zlen c ≤ CHUNK_SIZE → block ≠ root_page →
   ¬ clash [root_page; descriptor (sha256 root_page) (zlen c)]
           [block; descriptor (sha256 block) (zlen c)] →
   opened = (Err BadSignature, w)).
Proof.
  intros Hrep Hc Hk Hd Hauth Ht opened block root_page. subst opened.
  rewrite (calculate_fsverity_digest_represents t c) in Hd by (done || lia). simplify_eq.
  rewrite (new_stored content_t _ _ _ _ _ k _ _ Hc Hk Ht), Hauth by auto using honest_tree_stored.
  cbn [map_err]. rewrite bind_lift_Ok. unfold formatted_digest, fsverity_digest. split.
  - intros Hbig. by rewrite verity_root_fsverity_root, bool_decide_true by (done || lia).
  - intros Hone Hne Hclash. rewrite bool_decide_false; [done|].
    rewrite fsverity_root_one, verity_root_one by (done || lia). fold block. fold root_page.
    intros Heq%format_digest_inj.
    destruct (decide (sha256 root_page = sha256 block)) as [Hs|Hs].
    { destruct Hclash. by apply Exists_cons_hd. }
    eapply (same_digest_or_clash _ _ [] []) in Heq as [Heq|Hcl].
    + apply descriptor_inj in Heq as [Heq _]; [done|by rewrite !length_sha256|split; lia..].
    + by apply Hclash, clash_tail.
Qed.
End walk_claims.

(** ** Instances

    Two local files, contents and tree, under SHA-256 itself, and an
    authenticator that knows one digest. *)
Section instances.
#[local] Existing Instances boringssl boringssl_spec release.

Definition demo : list byte := replicate 5000 Byte.x01.
Definition demo_file : LocalFileReader := {| local_file := 1; local_size := zlen demo |}.
Definition demo_tree : LocalFileReader :=
  {| local_file := 2; local_size := zlen (merkle_tree_bytes demo 0) |}.
Definition demo_table : file_table := <[1 := demo]> (<[2 := merkle_tree_bytes demo 0]> ∅).
Definition demo_reader : VerifiedFileReader LocalFileReader LocalFileReader :=
  Build_VerifiedFileReader demo_file (zlen demo) demo_tree (verity_root demo).

Record DigestAuthenticator := { accepted : list byte }.
#[global] Instance DigestAuthenticator_verify : Authenticator DigestAuthenticator :=
  λ self _ digest, Ok (bool_decide (digest = accepted self)).
Definition demo_auth : DigestAuthenticator :=
  {| accepted := formatted_digest (verity_root demo) (zlen demo) |}.

Lemma zlen_demo : zlen demo = 5000.
Proof. unfold demo. by rewrite length_replicate. Qed.

Lemma demo_authenticated : authenticates demo_reader demo.
Proof. split_and!; [done..| |]; rewrite zlen_demo; lia. Qed.

Lemma demo_height : is_height (zlen demo) 0.
Proof. rewrite zlen_demo. split; [|by left]. simpl. lia. Qed.

Lemma demo_file_content : local_content demo_file demo_table = Some demo.
Proof. by apply local_content_Some; [apply lookup_insert_eq|]. Qed.

Lemma demo_tree_content : local_content demo_tree demo_table = Some (merkle_tree_bytes demo 0).
Proof.
  apply local_content_Some; [|done]. unfold demo_table. simpl local_file.
  rewrite lookup_insert_ne by done. apply lookup_insert_eq.
Qed.

Lemma demo_served :
  read_chunk demo_reader 1 (zeros CHUNK_SIZE) demo_table =
    (Ok (904, copy_prefix 904 (replicate 904 Byte.x01) (zeros CHUNK_SIZE)), demo_table).
Proof.
  rewrite (read_chunk_served local_content local_content demo_reader demo 0);
    [|exact demo_authenticated|exact demo_height|exact demo_file_content|exact demo_tree_content
     |lia|rewrite zlen_demo; lia|apply length_zero_buffer].
  assert (take csz (drop (Z.to_nat 1 * csz) demo) = replicate 904 Byte.x01) as ->.
  { unfold demo. rewrite drop_replicate, take_replicate. done. }
  done.
Qed.

Lemma demo_opens :
  VerifiedFileReader.new demo_auth demo_file (zlen demo) [] demo_tree demo_table =
    (Ok demo_reader, demo_table).
Proof.
  apply (new_served local_content demo_auth demo_file [] demo_tree demo 0).
  - rewrite zlen_demo. lia.
  - exact demo_height.
  - exact demo_tree_content.
  - unfold verify, DigestAuthenticator_verify. by rewrite bool_decide_true.
Qed.

Lemma demo_no_clash :
  ¬ clash (path_messages demo 1) (run_messages demo_reader 1 (zeros CHUNK_SIZE) demo_table).
Proof.
  apply (honest_run_no_clash local_content local_content demo_reader demo 0);
    [exact demo_authenticated|exact demo_height|exact demo_file_content|exact demo_tree_content
    |lia|rewrite zlen_demo; lia|apply length_zero_buffer].
Qed.

Lemma verified_read_sound_witness :
  read_chunk demo_reader 1 (zeros CHUNK_SIZE) demo_table =
    (Ok (904, copy_prefix 904 (replicate 904 Byte.x01) (zeros CHUNK_SIZE)), demo_table) ∧
  ∃ data, zlen data = 904 ∧
    copy_prefix 904 (replicate 904 Byte.x01) (zeros CHUNK_SIZE) =
      data ++ drop (length data) (zeros CHUNK_SIZE) ∧ chunk_of demo 1 data.
Proof.
  split; [exact demo_served|].
  destruct (verified_read_sound demo_reader demo 1 (zeros CHUNK_SIZE) demo_table 904
    (copy_prefix 904 (replicate 904 Byte.x01) (zeros CHUNK_SIZE)) demo_table) as [Hok|Hclash].
  - exact demo_authenticated.
  - lia.
  - rewrite zlen_demo. lia.
  - apply length_zero_buffer.
  - exact demo_served.
  - exact Hok.
  - destruct (demo_no_clash Hclash).
Defined.

Lemma opened_file_authentic_witness :
  VerifiedFileReader.new demo_auth demo_file (zlen demo) [] demo_tree demo_table =
    (Ok demo_reader, demo_table) ∧
  verify demo_auth [] (formatted_digest (root_hash demo_reader) (zlen demo)) = Ok true ∧
  (authenticates demo_reader demo ∧
    (∀ idx buf w2 n buf' w3,
      0 ≤ idx → idx * CHUNK_SIZE < zlen demo → length buf = csz →
      read_chunk demo_reader idx buf w2 = (Ok (n, buf'), w3) →
      (∃ data, zlen data = n ∧ buf' = data ++ drop (length data) buf ∧ chunk_of demo idx data) ∨
      clash (path_messages demo idx) (run_messages demo_reader idx buf w2)) ∨
   clash [descriptor (verity_root demo) (zlen demo)]
         [descriptor (root_hash demo_reader) (zlen demo)]).
Proof.
  split; [exact demo_opens|].
  destruct (opened_file_authentic demo_auth demo_file (zlen demo) [] demo_tree
    demo_table demo_reader demo_table) as (_ & Hv & Hc).
  - rewrite zlen_demo. split; lia.
  - exact demo_opens.
  - split; [exact Hv|]. apply Hc; [rewrite zlen_demo; lia|done].
Defined.

Lemma demo_tree_pages : zlen (tree_pages demo 0) = 1.
Proof. cbn [tree_pages]. rewrite app_nil_r, length_level_pages, zlen_demo. reflexivity. Qed.

(** The tree of [demo], a single page, wiped. *)
Definition wiped_table : file_table := <[1 := demo]> (<[2 := concat [zeros 4096]]> ∅).

Lemma tampered_tree_detected_witness :
  let chunk := take csz (drop (Z.to_nat 1 * csz) demo) in
  (path_intact demo 0 [zeros 4096] 1 →
   read_chunk demo_reader 1 (zeros 4096) wiped_table =
     (Ok (zlen chunk, copy_prefix (length chunk) chunk (zeros 4096)), wiped_table)) ∧
  (¬ path_intact demo 0 [zeros 4096] 1 →
   read_chunk demo_reader 1 (zeros 4096) wiped_table = (Err (OsError EIO), wiped_table) ∨
   clash (path_messages demo 1) (run_messages demo_reader 1 (zeros 4096) wiped_table)).
Proof.
  apply (tampered_tree_detected local_content local_content demo_reader demo 0 [zeros 4096]).
  - exact demo_authenticated.
  - exact demo_height.
  - by apply local_content_Some; [apply lookup_insert_eq|].
  - apply local_content_Some.
    + unfold wiped_table. simpl local_file. rewrite lookup_insert_ne by done. apply lookup_insert_eq.
    + transitivity 4096; [|reflexivity].
      transitivity (zlen (tree_pages demo 0) * 4096); [apply length_merkle_tree_pages|].
      by rewrite demo_tree_pages.
  - split; [by repeat constructor|]. apply Nat2Z.inj. by rewrite demo_tree_pages.
  - lia.
  - rewrite zlen_demo. lia.
  - reflexivity.
Defined.

Lemma honest_file_served_witness :
  ∃ r, VerifiedFileReader.new demo_auth demo_file (zlen demo) [] demo_tree demo_table =
         (Ok r, demo_table) ∧ authenticates r demo ∧
    ∀ idx buf, 0 ≤ idx → idx * CHUNK_SIZE < zlen demo → length buf = csz →
      let chunk := take csz (drop (Z.to_nat idx * csz) demo) in
      read_chunk r idx buf demo_table =
        (Ok (zlen chunk, copy_prefix (length chunk) chunk buf), demo_table).
Proof.
  apply (honest_file_served local_content local_content demo_auth demo_file [] demo_tree demo 0
    demo_table).
  - rewrite zlen_demo. lia.
  - exact demo_height.
  - exact demo_file_content.
  - exact demo_tree_content.
  - unfold verify, DigestAuthenticator_verify. by rewrite bool_decide_true.
Defined.

Lemma fsverity_walk_bounds_witness :
  if decide (zlen demo ≤ max_walk_size) then
    ∃ steps, fsverity_walk (E := unit) 1 (zlen demo) = Ok steps ∧ length steps = 1%nat ∧
      Forall (λ '(page, off), 0 ≤ page < zlen (tree_pages demo 0) ∧
                              0 ≤ off ∧ off + HASH_SIZE ≤ CHUNK_SIZE) steps
  else fsverity_walk (E := unit) 1 (zlen demo) = Panic.
Proof.
  apply (fsverity_walk_bounds demo 1 0).
  - lia.
  - rewrite zlen_demo. lia.
  - rewrite zlen_demo. lia.
  - exact demo_height.
Defined.

(** A file of a single byte, written and read back. *)
Definition tiny : list byte := [Byte.x01].
Definition tiny_leaves : MerkleLeaves := {| leaves := leaf_hashes tiny; file_size := 1 |}.
Definition tiny_tree : LocalFileReader :=
  {| local_file := 2; local_size := zlen (merkle_tree_bytes tiny 0) |}.
Definition tiny_table : file_table := <[1 := tiny]> (<[2 := merkle_tree_bytes tiny 0]> ∅).
Definition tiny_auth : DigestAuthenticator := {| accepted := format_digest (fsverity_digest tiny) |}.

Lemma tiny_no_clash :
  let block := pad_to csz tiny in let root_page := page [sha256 block] in
  block ≠ root_page ∧
  ¬ clash [root_page; descriptor (sha256 root_page) 1] [block; descriptor (sha256 block) 1].
Proof. cbv zeta. split; eapply bool_decide_eq_true; vm_compute; reflexivity. Qed.

Lemma one_block_digest_mismatch_witness :
  VerifiedFileReader.new tiny_auth tt 1 [] tiny_tree tiny_table = (Err BadSignature, tiny_table).
Proof.
  destruct (one_block_digest_mismatch local_content tiny_leaves tiny 0 (fsverity_digest tiny)
    tiny_auth tt [] tiny_tree tiny_table) as [_ Hone].
  - done.
  - simpl. lia.
  - split; [simpl; lia|by left].
  - apply calculate_fsverity_digest_represents; [done|simpl; lia].
  - done.
  - apply local_content_Some; [|done]. unfold tiny_table. simpl local_file.
    rewrite lookup_insert_ne by done. apply lookup_insert_eq.
  - apply Hone; [simpl; lia|apply tiny_no_clash|apply tiny_no_clash].
Defined.
End instances.
