(* ===== verification/EditorProps.v ===== *)
(** * What the verified writer guarantees

    The theorems about [VerifiedFileEditor], and two storages to run it on:
    the in-memory file of the crate's tests, honest unless told to fail its
    reads, and a storage that answers what it likes. *)
From S2P Require Import Prelude RustInt Crypto Common Fsverity Merkle Builder File Editor.

(** ** The in-memory file of the tests *)
Record InMemoryEditor := { fail_read : bool }.

(** The state is the [RefCell] with the data. *)
#[global] Instance InMemoryEditor_read : ReadByChunk (list byte) InMemoryEditor :=
  λ self chunk_index buf,
    if fail_read self then throw (KindError Other)
    else
      data ← get_state;
      chunk ← lift (ok_or (chunks csz data !! Z.to_nat chunk_index) (KindError InvalidInput));
      mret (zlen chunk, copy_prefix (length chunk) chunk buf).

#[global] Instance InMemoryEditor_write : RandomWrite (list byte) InMemoryEditor := {|
  write_at self buf off :=
    fin ← lift (u64_add off (zlen buf));
    data ← get_state;
    let data := if zlen data <? fin then vec_resize (Z.to_nat fin) zero data else data in
    put_state (take (Z.to_nat off) data ++ buf ++ drop (Z.to_nat fin) data);;
    mret (zlen buf);
  resize self size :=
    data ← get_state;
    put_state (vec_resize (Z.to_nat size) zero data);;
    mret tt;
|}.

Definition memory_content (f : InMemoryEditor) (data : list byte) : option (list byte) :=
  if fail_read f then None else Some data.

Lemma vec_resize_set_length n data : vec_resize n zero data = set_length data n.
Proof.
  apply list_eq. intros i. unfold set_length.
  rewrite lookup_vec_resize, lookup_window. case_decide; done.
Qed.

#[global] Instance InMemoryEditor_buffer : BufferReader (list byte) InMemoryEditor.
Proof.
  intros f i buf w size buf' w' Hl. unfold read_chunk, InMemoryEditor_read.
  destruct (fail_read f); [done|]. intros Hr. inv_bind.
  unfold get_state in *. simplify_eq.
  match goal with Ho : ok_or (chunks csz ?d !! ?j) _ = Ok ?ch |- _ =>
    rewrite lookup_chunks in Ho by lia; case_decide; [|done]; simplify_eq/= end.
  eexists. split; [done|]. split; [rewrite length_take; lia|].
  unfold copy_prefix. by rewrite firstn_all.
Qed.

#[global] Instance InMemoryEditor_honest_read : HonestReader (list byte) InMemoryEditor memory_content.
Proof.
  intros f i buf w c Hc Hl Hi Hmax Hr chunk. unfold memory_content in Hc.
  unfold read_chunk, InMemoryEditor_read. destruct (fail_read f); [done|]. simplify_eq.
  erewrite (M_bind_Ok get_state) by done. rewrite lookup_chunks by lia.
  rewrite decide_True by lia. done.
Qed.

#[global] Instance InMemoryEditor_honest_write : HonestWriter (list byte) InMemoryEditor memory_content.
Proof.
  split.
  - intros f buf off w c Hc Hne _ Ho Hlim. unfold memory_content in *.
    destruct (fail_read f); [done|]. simplify_eq.
    assert (0 < length buf)%nat by (destruct buf; [done|simpl; lia]).
    exists (length buf). eexists. simpl. rewrite u64_add_Ok, bind_lift_Ok by lia.
    split; [done|]. split; [lia|]. simpl. f_equal. rewrite firstn_all.
    replace (Z.to_nat (off + zlen buf)) with (Z.to_nat off + length buf)%nat by lia.
    apply byte_at_ext.
    + rewrite length_overwrite, decide_False by done.
      destruct (Z.ltb_spec (zlen c) (off + zlen buf)); len.
    + intros k _. rewrite byte_at_overwrite, !byte_at_app, byte_at_take, byte_at_drop, length_take.
      destruct (Z.ltb_spec (zlen c) (off + zlen buf)); rewrite ?vec_resize_set_length in *;
        rewrite ?length_set_length, ?byte_at_set_length; repeat case_decide; try lia; try done;
        try (f_equal; lia); try (by rewrite byte_at_ge by lia).
  - intros f n w c Hc Hn. unfold memory_content in *.
    destruct (fail_read f); [done|]. simplify_eq. eexists. split; [done|].
    by rewrite vec_resize_set_length.
Qed.

(** ** A storage that tampers

    Every read gives the same block, whatever was written. *)
Record TamperedStorage := { served : list byte }.
#[global] Instance TamperedStorage_read : ReadByChunk unit TamperedStorage :=
  λ self _ buf, mret (zlen (served self), copy_prefix (length (served self)) (served self) buf).
#[global] Instance TamperedStorage_write : RandomWrite unit TamperedStorage := {|
  write_at self buf off := mret (zlen buf);
  resize self size := mret tt;
|}.

(** ** The writer's claims *)
Section claims.
Context `{!Sha256FFI, !Sha256Spec} {wf : WriteFuel} {W F : Type}.
Context `{!ReadByChunk W F, !RandomWrite W F}.

(** C2: The editor implements a file in memory.  On honest storage any sequence of writes and
    changes of size of a new file succeeds; afterwards the storage holds what a plain byte array
    would hold, the recorded size is its length, and the digest the editor computes is the
    fs-verity digest of these contents. *)
Theorem editor_refines_memory_file content `{!HonestReader W F content, !HonestWriter W F content}
    file ops w :
  (csz < write_fuel)%nat → Forall op_in_range ops → content file w = Some [] →
  let ed := (VerifiedFileEditor.new file).1 in
  let c := foldl spec_op [] ops in
  ∃ s', mfold (run_op (bm := release) ed) tt ops ((VerifiedFileEditor.new file).2, w) = (Ok tt, s') ∧
    content file s'.2 = Some c ∧
    VerifiedFileEditor.size ed s' = (Ok (zlen c), s') ∧
    VerifiedFileEditor.calculate_fsverity_digest (bm := release) ed s' = (Ok (fsverity_digest c), s').
Proof. by apply run_ops_digest. Qed.

(** C12: A write on storage nobody trusts.  Whatever the storage answers, when a write returns the
    tree in trusted memory is the tree of the old contents overwritten with exactly the bytes
    the call reports as written, all of the buffer when it reports its length; a failed call also
    leaves the tree of a prefix.  The only way around it is that one of the old blocks this very
    write has read back differs from the block of the old contents and has the same SHA-256. *)
Theorem editor_write_integrity {bm : BuildMode} `{!BufferReader W F}
    (ed : VerifiedFileEditor F) buf off c (s : MerkleLeaves * W) r s' :
  represents s.1 c → 0 ≤ off → off + zlen buf < u64_limit →
  VerifiedFileEditor.write_at ed buf off s = (r, s') →
  (∃ n, 0 ≤ n ≤ zlen buf ∧ (∀ k, r = Ok k → k = n) ∧
        leaves s'.1 = leaf_hashes (overwrite c (Z.to_nat off) (take (Z.to_nat n) buf)) ∧
        (n = 0 → s'.1 = s.1) ∧
        (r = Ok (zlen buf) → represents s'.1 (overwrite c (Z.to_nat off) buf))) ∨
  block_clash c (read_back ed buf off (pieces off (zlen buf)) s).
Proof.
  intros [Hl Hs] Ho Hlim Hw.
  apply (write_at_tracks _ _ _ c) in Hw as [(n & Hn & [Hwl Hws] & Hr)|]; [left|by right|done..].
  exists n. split; [lia|]. split; [done|]. split; [done|]. split.
  - intros ->. rewrite take_0 in Hwl. destruct (s'.1) as [l' z'], (s.1) as [l z]; simpl in *. congruence.
  - intros ->. pose proof (Hr _ eq_refl). subst n. split.
    + rewrite Hwl. by rewrite take_ge by lia.
    + rewrite Hws, Hs, length_overwrite. destruct buf; simpl; [done|]. lia.
Qed.

End claims.

Section tampered.
Context `{!Sha256FFI, !Sha256Spec} {wf : WriteFuel}.

(** C34: A change of size on storage nobody trusts.  When the file grows or is cut to whole
    blocks, a call that returns has moved the tree to that of the resized contents and a call
    that fails has left it alone, whatever the storage does.  A cut inside a block trusts the
    storage: the block that becomes the last one is read back and hashed without being checked
    against its known hash, so whatever bytes a storage serves for it end up under the digest. *)
Theorem editor_resize_integrity {bm : BuildMode} n c :
  0 ≤ n ≤ i64_max →
  if decide (zlen c ≤ n ∨ n `mod` CHUNK_SIZE = 0)
  then
    ∀ W F (rd : ReadByChunk W F) (wr : RandomWrite W F) (ed : VerifiedFileEditor F) s r s',
      represents s.1 c → VerifiedFileEditor.resize ed n s = (r, s') →
      (r = Ok tt ∧ represents s'.1 (set_length c (Z.to_nat n))) ∨ (r ≠ Ok tt ∧ s'.1 = s.1)
  else
    ∀ block t, length block = csz → represents t c →
      ∃ t', VerifiedFileEditor.resize (Build_VerifiedFileEditor {| served := block |}) n (t, tt) =
              (Ok tt, (t', tt)) ∧
        represents t' (take (Z.to_nat (n - n `mod` CHUNK_SIZE)) c ++
                       take (Z.to_nat (n `mod` CHUNK_SIZE)) block).
Proof.
  intros Hn. case_decide as Hcase.
  - intros W F rd wr ed s r s' Hrep. apply (resize_tracks ed n c); [done|lia..|].
    destruct Hrep as [_ ->]. lia.
  - intros block t Hb [Hl Hs]. pose proof (Z.mod_pos_bound n CHUNK_SIZE ltac:(lia)).
    pose proof (Z.mod_le n CHUNK_SIZE ltac:(lia) ltac:(lia)). rewrite take_set_length by lia.
    apply (resize_cut_run (Build_VerifiedFileEditor {| served := block |}) n c (t, tt) (zlen block)
      block tt tt); try done; [simpl; lia|lia|lia| |right; lia].
    unfold read_chunk, TamperedStorage_read, mret, M_ret, copy_prefix. simpl.
    rewrite firstn_all, drop_ge, app_nil_r by (rewrite length_zero_buffer; lia). done.
Qed.
End tampered.

(** ** Runs *)
Section instances.
#[local] Existing Instances boringssl boringssl_spec.
#[local] Instance demo_fuel : WriteFuel := 5000%nat.

Definition memory_file : InMemoryEditor := {| fail_read := false |}.
Definition ones (n : nat) : list byte := replicate n Byte.x01.

Definition demo_ops : list editor_op := [WriteAt (ones 10) 4091; Resize 4096; WriteAt (ones 3) 9000].

Lemma editor_refines_memory_file_witness :
  let ed := (VerifiedFileEditor.new memory_file).1 in
  let c := foldl spec_op [] demo_ops in
  Forall op_in_range demo_ops ∧
  ∃ s', mfold (run_op (bm := release) ed) tt demo_ops
          ((VerifiedFileEditor.new memory_file).2, []) = (Ok tt, s') ∧
    memory_content memory_file s'.2 = Some c ∧
    VerifiedFileEditor.size ed s' = (Ok (zlen c), s') ∧
    VerifiedFileEditor.calculate_fsverity_digest (bm := release) ed s' = (Ok (fsverity_digest c), s').
Proof.
  intros ed c.
  assert (Forall op_in_range demo_ops) as Hops by (repeat constructor; simpl; lia).
  split; [exact Hops|].
  apply (editor_refines_memory_file memory_content memory_file demo_ops []).
  - unfold write_fuel, demo_fuel. lia.
  - exact Hops.
  - reflexivity.
Defined.

(** A write of three bytes in the middle of a new file. *)
Definition demo_editor : VerifiedFileEditor InMemoryEditor := Build_VerifiedFileEditor memory_file.
Definition demo_write := VerifiedFileEditor.write_at (bm := release) demo_editor (ones 3) 7
  (MerkleLeaves.new, []).

Lemma editor_write_integrity_witness :
  demo_write.1 = Ok 3 ∧
  ∃ n, 0 ≤ n ≤ 3 ∧ (∀ k, demo_write.1 = Ok k → k = n) ∧
        leaves demo_write.2.1 = leaf_hashes (overwrite [] 7 (take (Z.to_nat n) (ones 3))) ∧
        (n = 0 → demo_write.2.1 = MerkleLeaves.new) ∧
        (demo_write.1 = Ok 3 → represents demo_write.2.1 (overwrite [] 7 (ones 3))).
Proof.
  split; [vm_compute; reflexivity|].
  destruct (editor_write_integrity (bm := release) demo_editor (ones 3) 7 [] (MerkleLeaves.new, [])
    demo_write.1 demo_write.2) as [Hok|Hclash].
  - split; reflexivity.
  - lia.
  - reflexivity.
  - unfold demo_write. apply surjective_pairing.
  - exact Hok.
  - inversion Hclash.
Defined.

Definition demo_tampered : VerifiedFileEditor TamperedStorage :=
  Build_VerifiedFileEditor {| served := ones 4096 |}.

(** Growing on a storage that serves only ones, and a cut after four bytes on it. *)
Lemma editor_resize_integrity_witness :
  let t := {| leaves := leaf_hashes (zeros 10); file_size := 10 |} in
  ((Ok (E := io_error) tt = Ok tt ∧
    represents {| leaves := [HASH_OF_4096_ZEROS; HASH_OF_4096_ZEROS]; file_size := 5000 |}
      (set_length [] 5000)) ∨
   (Ok (E := io_error) tt ≠ Ok tt ∧
    {| leaves := [HASH_OF_4096_ZEROS; HASH_OF_4096_ZEROS]; file_size := 5000 |} = MerkleLeaves.new)) ∧
  ∃ t', VerifiedFileEditor.resize (bm := release) demo_tampered 4 (t, tt) = (Ok tt, (t', tt)) ∧
        represents t' (ones 4).
Proof.
  split.
  - apply (editor_resize_integrity (bm := release) 5000 [] ltac:(lia) unit TamperedStorage _ _
      demo_tampered (MerkleLeaves.new, tt) (Ok tt)
      ({| leaves := [HASH_OF_4096_ZEROS; HASH_OF_4096_ZEROS]; file_size := 5000 |}, tt)).
    + split; reflexivity.
    + reflexivity.
  - apply (editor_resize_integrity (bm := release) 4 (zeros 10) ltac:(lia) (ones 4096)).
    + reflexivity.
    + split; reflexivity.
Defined.
End instances.

(** ** A write that stops half-way *)

(** A storage with room for one block: writes past it fail. *)
Record SmallStorage := { block_limit : Z }.
#[global] Instance SmallStorage_read : ReadByChunk unit SmallStorage :=
  λ _ _ _, throw (KindError Other).
#[global] Instance SmallStorage_write : RandomWrite unit SmallStorage := {|
  write_at self buf off :=
    if off + zlen buf <=? block_limit self then mret (zlen buf) else throw (OsError EFBIG);
  resize self size := mret tt;
|}.

Section partial.
Context `{!Sha256FFI, !Sha256Spec} {bm : BuildMode} {wf : WriteFuel}.
Definition small_editor : VerifiedFileEditor SmallStorage :=
  Build_VerifiedFileEditor {| block_limit := CHUNK_SIZE |}.

Lemma small_write_fits buf off :
  (1 < write_fuel)%nat → buf ≠ [] → 0 ≤ off → off + zlen buf ≤ CHUNK_SIZE →
  write_all_at write_fuel (editor_file small_editor) buf off tt = (Ok tt, tt).
Proof.
  intros Hf Hne Ho Hb. unfold write_all_at. destruct write_fuel as [|[|fuel]]; [lia..|].
  assert (0 < length buf)%nat by (destruct buf; [done|simpl; lia]).
  cbn [write_all_loop]. rewrite (proj2 (Z.ltb_lt _ _)) by lia.
  rewrite slice_Ok, bind_lift_Ok by lia. rewrite drop_0, take_ge by lia.
  cbn [write_at SmallStorage_write small_editor editor_file block_limit].
  rewrite (proj2 (Z.leb_le _ _)) by lia. erewrite (M_bind_Ok (mret _)) by done.
  rewrite !u64_add_Ok, !bind_lift_Ok by lia. by rewrite (proj2 (Z.ltb_ge _ _)) by lia.
Qed.

Lemma small_write_fails buf off :
  (0 < write_fuel)%nat → buf ≠ [] → CHUNK_SIZE ≤ off →
  write_all_at write_fuel (editor_file small_editor) buf off tt = (Err (OsError EFBIG), tt).
Proof.
  intros Hf Hne Ho. unfold write_all_at. destruct write_fuel as [|fuel]; [lia|].
  assert (0 < length buf)%nat by (destruct buf; [done|simpl; lia]).
  cbn [write_all_loop]. rewrite (proj2 (Z.ltb_lt _ _)) by lia.
  rewrite slice_Ok, bind_lift_Ok by lia. rewrite drop_0, take_ge by lia.
  cbn [write_at SmallStorage_write small_editor editor_file block_limit].
  by rewrite (proj2 (Z.leb_gt _ _)) by lia.
Qed.

(** The pieces of a write of one block and one byte. *)
Lemma chunking_block_and_byte l :
  chunking CHUNK_SIZE 0 (CHUNK_SIZE + 1) l → l = [(0, CHUNK_SIZE); (CHUNK_SIZE, 1)].
Proof.
  intros Hc. inversion Hc as [|o rem l1 sz Hr Hs Hc1]; subst.
  inversion Hc1 as [|o rem l2 sz Hr2 Hs2 Hc2]; subst.
  inversion Hc2 as [|o rem l3 sz Hr3 Hs3 Hc3]; subst; [done|]. by vm_compute in Hr3.
Qed.

Lemma small_first_piece (b1 : list byte) (b2 : byte) :
  length b1 = csz → (1 < write_fuel)%nat →
  ∃ t, VerifiedFileEditor.write_piece small_editor (b1 ++ [b2]) 0 (0, CHUNK_SIZE)
         (MerkleLeaves.new, tt) = (Ok tt, (t, tt)) ∧
       leaves t = leaf_hashes b1 ∧ file_size t = CHUNK_SIZE + 1.
Proof.
  intros Hb Hf. assert (b1 ≠ []) as Hne by (by intros ->).
  assert (zlen (b1 ++ [b2]) = CHUNK_SIZE + 1) as Hlen by (rewrite length_app; simpl; lia).
  assert (overwrite [] 0 b1 = b1) as Ho.
  { unfold overwrite. destruct b1; [done|]. rewrite drop_nil. by rewrite app_nil_r. }
  destruct (update_hash_leaves (E := control io_error Z) MerkleLeaves.new [] 0 0 b1
    (CHUNK_SIZE + 1)) as (t & Hu & Hlt & Hst); [done|done|lia..|].
  rewrite Ho in *. exists t. split; [|split; [done|rewrite Hst; simpl; lia]].
  unfold VerifiedFileEditor.write_piece. erewrite (M_bind_Ok VerifiedFileEditor.get_tree) by done.
  rewrite u64_sub_Ok, bind_lift_Ok by lia. rewrite u64_add_Ok, bind_lift_Ok by lia.
  rewrite slice_Ok, bind_lift_Ok by lia.
  rewrite drop_0, take_app_length' by lia.
  unfold VerifiedFileEditor.new_chunk_hash. rewrite Z.eqb_refl. hash_steps.
  erewrite M_bind_Ok by done.
  erewrite M_bind_Ok by (unfold m_map_err; rewrite (on_file_Ok _ _ tt tt)
    by (apply small_write_fits; done || lia); done).
  rewrite Hlen. cbn [fst]. change (u64_saturating_add 0 (CHUNK_SIZE + 1)) with (CHUNK_SIZE + 1).
  change (0 / CHUNK_SIZE) with (Z.of_nat 0).
  replace (window b1 (0 * csz) csz) with b1 in Hu; [by rewrite Hu, bind_lift_Ok|].
  change (0 * csz)%nat with 0%nat. rewrite <- pad_to_window by lia. unfold pad_to.
  by rewrite Hb, Nat.sub_diag, app_nil_r.
Qed.

Lemma small_second_piece (b1 : list byte) (b2 : byte) t :
  length b1 = csz → (1 < write_fuel)%nat → leaves t = leaf_hashes b1 →
  VerifiedFileEditor.write_piece small_editor (b1 ++ [b2]) 0 (CHUNK_SIZE, 1) (t, tt) =
    (Err (Raise (OsError EFBIG)), (t, tt)).
Proof.
  intros Hb Hf Hl.
  assert (zlen (b1 ++ [b2]) = CHUNK_SIZE + 1) as Hlen by (rewrite length_app; simpl; lia).
  unfold VerifiedFileEditor.write_piece. erewrite (M_bind_Ok VerifiedFileEditor.get_tree) by done.
  rewrite u64_sub_Ok, bind_lift_Ok by lia. rewrite u64_add_Ok, bind_lift_Ok by lia.
  rewrite slice_Ok, bind_lift_Ok by lia.
  rewrite drop_app_length' by lia. replace (CHUNK_SIZE - 0 + 1 - (CHUNK_SIZE - 0)) with 1 by lia.
  change (take (Z.to_nat 1) [b2]) with [b2].
  unfold VerifiedFileEditor.new_chunk_hash. rewrite (proj2 (Z.eqb_neq _ _)) by lia.
  unfold VerifiedFileEditor.new_hash_for_incomplete_write, MerkleLeaves.is_index_valid.
  cbn [fst]. rewrite Hl. pose proof (length_leaf_hashes b1) as Hll. rewrite Hb, csz_eq in Hll.
  rewrite Hll. change (CHUNK_SIZE / CHUNK_SIZE) with 1.
  change ((4096 + 4096 - 1) / 4096) with 1. rewrite Z.ltb_irrefl.
  rewrite Z_mod_same_full. 
  erewrite M_bind_Ok.
  2: { unfold m_map_err. erewrite (M_bind_Ok (mret _)) by done.
    rewrite slice_Ok, bind_lift_Ok by (rewrite ?length_zero_buffer; lia).
    rewrite u64_add_Ok, bind_lift_Ok by (simpl; lia).
    rewrite slice_Ok, bind_lift_Ok by (rewrite ?length_zero_buffer; simpl; lia).
    hash_steps. done. }
  unfold mbind, M_bind, m_map_err, VerifiedFileEditor.on_file, zoom.
  cbn [snd]. by rewrite small_write_fails by (done || lia).
Qed.

(** A write that fails after its first block leaves the recorded size ahead of the leaves:
    the size of the whole buffer is recorded with the first block, so the digest then covers a
    size for which there are no leaves. *)
Lemma editor_partial_write_size (b1 : list byte) (b2 : byte) :
  length b1 = csz → (1 < write_fuel)%nat →
  ∃ t, VerifiedFileEditor.write_at small_editor (b1 ++ [b2]) 0 (MerkleLeaves.new, tt) =
         (Err (OsError EFBIG), (t, tt)) ∧
       leaves t = leaf_hashes b1 ∧ file_size t = CHUNK_SIZE + 1 ∧ ¬ leaves_wf t.
Proof.
  intros Hb Hf. unfold VerifiedFileEditor.write_at. rewrite usize_is_u64, bind_lift_Ok.
  assert (zlen (b1 ++ [b2]) = CHUNK_SIZE + 1) as Hlen by (rewrite length_app; simpl; lia).
  destruct (try_fold_ranges CHUNK_SIZE ltac:(lia) 0 (zlen (b1 ++ [b2]))) as (l & Hch & Hfold); [lia..|].
  rewrite Hlen in Hch. apply chunking_block_and_byte in Hch as ->.
  destruct (small_first_piece b1 b2 Hb Hf) as (t & Hp1 & Hl & Hs). exists t. split.
  - unfold catch_return. unfold mbind at 1, M_bind at 1. rewrite Hfold. cbn [mfold].
    rewrite (M_bind_Ok _ _ _ _ _ Hp1). unfold mbind, M_bind.
    by rewrite small_second_piece by done.
  - split; [done|]. split; [done|]. intros [_ Hw]. rewrite Hl, Hs, length_leaf_hashes, Hb in Hw.
    by vm_compute in Hw.
Qed.
End partial.

Section partial_instance.
#[local] Existing Instances boringssl boringssl_spec.
#[local] Instance small_fuel : WriteFuel := 2%nat.
Lemma editor_partial_write_size_example :
  ∃ t, VerifiedFileEditor.write_at (bm := release) small_editor (ones 4096 ++ [Byte.x02]) 0
         (MerkleLeaves.new, tt) = (Err (OsError EFBIG), (t, tt)) ∧
       leaves t = leaf_hashes (ones 4096) ∧ file_size t = CHUNK_SIZE + 1 ∧ ¬ leaves_wf t.
Proof.
  apply (editor_partial_write_size (bm := release) (ones 4096) Byte.x02).
  - unfold ones. rewrite length_replicate. reflexivity.
  - unfold write_fuel, small_fuel. lia.
Defined.
End partial_instance.
