(* ===== verification/EditorConc.v ===== *)
(** * Concurrent calls on one file (authfs/src/fsverity/editor.rs)

    The tree of a [VerifiedFileEditor] is behind a read-write lock that
    [write_at] takes and drops once per block, so writes of several threads
    interleave between blocks.  The threads are modelled as a pool, each with
    what is left of its call; a step runs one thread up to the release of the
    lock.  [resize] holds the lock throughout and comes between the blocks of
    the writes.  Against it stands a file in memory whose threads have lists of
    blocks to write and sizes to set: the pool refines it step by step. *)
From S2P Require Import Prelude RustInt Crypto Common Fsverity Merkle Builder File Editor EditorProps.

(** The lock: free between steps, poisoned by a thread that panicked while it
    held it, or held for good by a thread that does not return. *)
Inductive lock_state := Unlocked | Poisoned | HeldForever.

(** A call in progress or its result. *)
Inductive editor_thread :=
| Writing (buf : list byte) (offset : Z) (pieces : ChunkedSizeIter)
| Resizing (size : Z)
| WriteReturned (r : outcome io_error Z)
| ResizeReturned (r : outcome io_error unit).

Record editor_pool (W : Type) := {
  tree_lock : lock_state;
  shared : MerkleLeaves * W;
  threads : list editor_thread;
}.
Arguments tree_lock {W} _.
Arguments shared {W} _.
Arguments threads {W} _.
Arguments Build_editor_pool {W} _ _ _.

(** The calls at their start. *)
Definition call_write (buf : list byte) (offset : Z) : editor_thread :=
  Writing buf offset (ChunkedSizeIter.new (zlen buf) offset CHUNK_SIZE).
Definition call_resize (size : Z) : editor_thread := Resizing size.
Definition call (op : editor_op) : editor_thread :=
  match op with
  | WriteAt buf off => call_write buf off
  | Resize size => call_resize size
  end.
(** What it returns when all goes well. *)
Definition success (op : editor_op) : editor_thread :=
  match op with
  | WriteAt buf _ => WriteReturned (Ok (zlen buf))
  | Resize _ => ResizeReturned (Ok tt)
  end.

Section steps.
Context `{!Sha256FFI} {bm : BuildMode} {wf : WriteFuel} {W F : Type}.
Context `{!ReadByChunk W F, !RandomWrite W F}.

(** What a computation that ran under the lock leaves of it. *)
Definition release_lock {E A} (r : outcome E A) : lock_state :=
  match r with
  | Panic => Poisoned
  | OutOfFuel => HeldForever
  | _ => Unlocked
  end.

(** One iteration of the loop of [write_at], or the whole of [resize]. *)
Definition thread_step (ed : VerifiedFileEditor F) (lock : lock_state) (s : MerkleLeaves * W)
    (t : editor_thread) : lock_state * (MerkleLeaves * W) * editor_thread :=
  match t with
  | Writing buf offset pieces =>
      match ChunkedSizeIter.next (E := io_error) pieces with
      | Ok (None, _) => (lock, s, WriteReturned (Ok (zlen buf)))
      | Ok (Some piece, pieces) =>
          match lock with
          | HeldForever => (lock, s, t)
          | Poisoned => (lock, s, WriteReturned Panic)
          | Unlocked =>
              let '(r, s) := VerifiedFileEditor.write_piece ed buf offset piece s in
              (release_lock r, s,
               match r with
               | Ok _ => Writing buf offset pieces
               | Err (Return n) => WriteReturned (Ok n)
               | Err (Raise e) => WriteReturned (Err e)
               | Panic => WriteReturned Panic
               | OutOfFuel => WriteReturned OutOfFuel
               end)
          end
      | Err e => (lock, s, WriteReturned (Err e))
      | Panic => (lock, s, WriteReturned Panic)
      | OutOfFuel => (lock, s, WriteReturned OutOfFuel)
      end
  | Resizing size =>
      match lock with
      | HeldForever => (lock, s, t)
      | Poisoned => (lock, s, ResizeReturned Panic)
      | Unlocked =>
          let '(r, s) := VerifiedFileEditor.resize ed size s in
          (release_lock r, s, ResizeReturned r)
      end
  | WriteReturned _ | ResizeReturned _ => (lock, s, t)
  end.

Definition pool_step (ed : VerifiedFileEditor F) (p : editor_pool W) (i : nat) : editor_pool W :=
  match threads p !! i with
  | None => p
  | Some t =>
      let '(lock, s, t) := thread_step ed (tree_lock p) (shared p) t in
      {| tree_lock := lock; shared := s; threads := <[i := t]> (threads p) |}
  end.

(** A run, as the sequence of the threads that are given a step. *)
Definition run_pool (ed : VerifiedFileEditor F) : editor_pool W → list nat → editor_pool W :=
  foldl (pool_step ed).

Definition start_calls (s : MerkleLeaves * W) (ops : list editor_op) : editor_pool W :=
  {| tree_lock := Unlocked; shared := s; threads := call <$> ops |}.
End steps.

Definition returned (t : editor_thread) : bool :=
  match t with WriteReturned _ | ResizeReturned _ => true | _ => false end.

(** ** The specification: a file changed one block or one size at a time *)

(** A buffer cut at the block boundaries of the file. *)
Fixpoint block_writes_fuel (fuel p : nat) (b : list byte) : list (nat * list byte) :=
  match fuel, b with
  | S fuel, _ :: _ =>
      let n := (csz - p `mod` csz)%nat in
      (p, take n b) :: block_writes_fuel fuel (p + n) (drop n b)
  | _, _ => []
  end.
Definition block_writes (p : nat) (b : list byte) : list (nat * list byte) :=
  block_writes_fuel (length b) p b.

Definition apply_write (c : list byte) (w : nat * list byte) : list byte := overwrite c w.1 w.2.

Inductive block_op := Patch (p : nat) (b : list byte) | SetLength (n : nat).
Definition apply_op (c : list byte) (o : block_op) : list byte :=
  match o with Patch p b => overwrite c p b | SetLength n => set_length c n end.
Definition patches (ws : list (nat * list byte)) : list block_op := (λ w, Patch w.1 w.2) <$> ws.

(** A call of the editor as changes of the file. *)
Definition block_ops (op : editor_op) : list block_op :=
  match op with
  | WriteAt buf off => patches (block_writes (Z.to_nat off) buf)
  | Resize size => [SetLength (Z.to_nat size)]
  end.

Record block_file := {
  contents : list byte;
  pending : list (list block_op);
}.
Definition block_step (f : block_file) (i : nat) : block_file :=
  match pending f !! i with
  | Some (o :: os) =>
      {| contents := apply_op (contents f) o; pending := <[i := os]> (pending f) |}
  | _ => f
  end.
Definition run_blocks : block_file → list nat → block_file := foldl block_step.
Definition start_blocks (c : list byte) (ops : list editor_op) : block_file :=
  {| contents := c; pending := block_ops <$> ops |}.

(** ** Cutting a buffer *)
Section cut.
Lemma block_room p : (0 < csz - p `mod` csz ≤ csz)%nat.
Proof. pose proof (Nat.mod_upper_bound p csz ltac:(lia)). lia. Qed.

Lemma block_writes_fuel_enough fuel p b :
  (length b ≤ fuel)%nat → block_writes_fuel fuel p b = block_writes p b.
Proof.
  unfold block_writes. remember (length b) as n eqn:Hn. revert fuel p b Hn.
  induction n as [n IH] using lt_wf_ind. intros fuel p b Hn Hf.
  destruct b as [|x b]; [by destruct fuel, n|].
  destruct fuel as [|fuel], n as [|n]; simpl in Hn; try lia. cbn [block_writes_fuel].
  pose proof (block_room p). f_equal.
  remember (drop (csz - p `mod` csz) (x :: b)) as d eqn:Hd.
  assert (length d ≤ n)%nat by (subst d; rewrite length_drop; simpl; lia).
  rewrite (IH (length d)) by (done || lia). symmetry. by apply IH; lia.
Qed.

Lemma block_writes_cons p b :
  b ≠ [] →
  block_writes p b =
    (p, take (csz - p `mod` csz) b) ::
    block_writes (p + (csz - p `mod` csz)) (drop (csz - p `mod` csz) b).
Proof.
  intros Hb. destruct b as [|x b]; [done|]. unfold block_writes at 1. cbn [length block_writes_fuel].
  f_equal. apply block_writes_fuel_enough. pose proof (block_room p).
  rewrite length_drop. simpl. lia.
Qed.

Lemma overwrite_nil c p : overwrite c p [] = c.
Proof. done. Qed.

Lemma apply_write_cons c p b ws :
  foldl apply_write c ((p, b) :: ws) = foldl apply_write (overwrite c p b) ws.
Proof. done. Qed.

(** The blocks together are the buffer. *)
Lemma apply_block_writes c p b : foldl apply_write c (block_writes p b) = overwrite c p b.
Proof.
  remember (length b) as n eqn:Hn. revert c p b Hn.
  induction n as [n IH] using lt_wf_ind. intros c p b ->.
  destruct (decide (b = [])) as [->|Hne]; [done|].
  pose proof (block_room p). assert (0 < length b)%nat by (destruct b; [done|simpl; lia]).
  rewrite block_writes_cons by done. generalize dependent (csz - p `mod` csz)%nat. intros m Hm.
  assert (length (drop m b) < length b)%nat as Hlt by (rewrite length_drop; lia).
  rewrite apply_write_cons.
  rewrite (IH _ Hlt _ _ _ eq_refl). destruct (decide (m ≤ length b)%nat).
  - pose proof (overwrite_app c p (take m b) (drop m b)) as Ho.
    by rewrite take_drop, length_take, Nat.min_l in Ho.
  - rewrite take_ge, drop_ge by lia. apply overwrite_nil.
Qed.

Lemma apply_patches c ws : foldl apply_op c (patches ws) = foldl apply_write c ws.
Proof. unfold patches. revert c. by induction ws as [|w ws IH]; intros c; [|apply IH]. Qed.

(** The changes of a call together are what it does to a file in memory. *)
Lemma apply_block_ops c op : foldl apply_op c (block_ops op) = spec_op c op.
Proof. destruct op as [buf off|n]; [|done]. simpl. by rewrite apply_patches, apply_block_writes. Qed.

(** Every block lies in the range of the buffer and is not empty. *)
Lemma block_writes_range p b q d :
  (q, d) ∈ block_writes p b → d ≠ [] ∧ (p ≤ q)%nat ∧ (q + length d ≤ p + length b)%nat.
Proof.
  remember (length b) as n eqn:Hn. revert p b Hn.
  induction n as [n IH] using lt_wf_ind. intros p b -> Hin.
  destruct (decide (b = [])) as [->|Hne]; [by apply not_elem_of_nil in Hin|].
  pose proof (block_room p). assert (0 < length b)%nat by (destruct b; [done|simpl; lia]).
  rewrite block_writes_cons in Hin by done. apply elem_of_cons in Hin as [[= -> ->]|Hin].
  - rewrite length_take. split_and!; [|lia..]. intros Hnil%(f_equal length).
    rewrite length_take in Hnil. simpl in Hnil. lia.
  - destruct (decide (length b ≤ csz - p `mod` csz)%nat).
    { rewrite drop_ge in Hin by done. by apply not_elem_of_nil in Hin. }
    assert (length (drop (csz - p `mod` csz) b) < length b)%nat as Hlt by (rewrite length_drop; lia).
    destruct (IH _ Hlt _ _ eq_refl Hin) as (? & ? & ?).
    rewrite length_drop in *. split_and!; [done|lia..].
Qed.
End cut.

(** ** The pool refines the file *)
Definition is_write (op : editor_op) : Prop := if op is WriteAt _ _ then True else False.
#[global] Instance is_write_dec op : Decision (is_write op).
Proof. destruct op; apply _. Defined.

Section refinement.
Context `{!Sha256FFI, !Sha256Spec} {bm : BuildMode} {wf : WriteFuel} {W F : Type}.
Context `{!ReadByChunk W F, !RandomWrite W F}.
Context (content : F → W → option (list byte)).
Context `{!HonestReader W F content, !HonestWriter W F content}.
Context (ed : VerifiedFileEditor F) (Hfuel : (csz < write_fuel)%nat).

(** What a call asks of the build and of the storage.  A change of size reads the block it cuts
    at the recorded size, which may be beyond the end of the contents while a write is under
    way: the storage must then serve nothing, and the assertion on the size of what was read
    must be compiled out. *)
Definition callable (op : editor_op) : Prop :=
  op_in_range op ∧
  (is_write op ∨ (debug_assertions = false ∧ ReadsNothingBeyond W F content)).

(** A thread of the pool and what the file in memory expects of it. *)
Definition thread_sim (op : editor_op) (t : editor_thread) (os : list block_op) : Prop :=
  match op with
  | WriteAt buf off =>
      ∃ k, 0 ≤ k ≤ zlen buf ∧
        t = Writing buf off {| remaining := zlen buf - k; offset := off + k; alignment := CHUNK_SIZE |} ∧
        os = patches (block_writes (Z.to_nat (off + k)) (drop (Z.to_nat k) buf))
  | Resize n => t = Resizing n ∧ os = [SetLength (Z.to_nat n)]
  end ∨
  (t = success op ∧ os = []).

(** The tree and the storage hold [c], up to the recorded size. *)
Definition holds_blocks (s : MerkleLeaves * W) (c : list byte) : Prop :=
  leaves s.1 = leaf_hashes c ∧ content (editor_file ed) s.2 = Some c ∧ zlen c ≤ i64_max.

Lemma call_sim op : op_in_range op → thread_sim op (call op) (block_ops op).
Proof.
  intros Ho. left. destruct op as [buf off|n]; [|done]. exists 0. split; [lia|].
  unfold call, call_write, ChunkedSizeIter.new. cbn [block_ops].
  by rewrite Z.sub_0_r, Z.add_0_r, drop_0.
Qed.

Lemma thread_sim_returned op t os :
  thread_sim op t os → returned t = true → t = success op ∧ os = [].
Proof. intros [Hs|Hs] Hr; [|done]. destruct op; [by destruct Hs as (? & _ & -> & _)|by destruct Hs as [-> _]]. Qed.

(** The next block of a write and the piece the iterator gives. *)
Lemma next_block buf off k :
  0 ≤ off → 0 ≤ k < zlen buf →
  let n := Z.min (zlen buf - k) (CHUNK_SIZE - (off + k) `mod` CHUNK_SIZE) in
  block_writes (Z.to_nat (off + k)) (drop (Z.to_nat k) buf) =
    (Z.to_nat (off + k), take (Z.to_nat n) (drop (Z.to_nat k) buf)) ::
    block_writes (Z.to_nat (off + (k + n))) (drop (Z.to_nat (k + n)) buf).
Proof.
  intros Ho Hk n. pose proof (Z.mod_pos_bound (off + k) CHUNK_SIZE ltac:(lia)).
  assert (drop (Z.to_nat k) buf ≠ []) as Hne.
  { intros Hd. apply (f_equal length) in Hd. rewrite length_drop in Hd. simpl in Hd. lia. }
  rewrite block_writes_cons by done.
  assert (Z.of_nat (csz - Z.to_nat (off + k) `mod` csz) = CHUNK_SIZE - (off + k) `mod` CHUNK_SIZE)
    as Hm.
  { assert (Z.of_nat (Z.to_nat (off + k) `mod` csz) = (off + k) `mod` CHUNK_SIZE) as Hmod
      by (rewrite Nat2Z.inj_mod, Z2Nat.id, csz_eq by lia; done).
    pose proof (Nat.mod_upper_bound (Z.to_nat (off + k)) csz ltac:(lia)). lia. }
  remember (csz - Z.to_nat (off + k) `mod` csz)%nat as m eqn:Hmm. rewrite drop_drop.
  destruct (decide (Z.of_nat m ≤ zlen buf - k)).
  - assert (m = Z.to_nat n) as -> by lia. f_equal. f_equal; [lia|f_equal; lia].
  - assert (Z.to_nat n = length (drop (Z.to_nat k) buf)) as -> by (rewrite length_drop; lia).
    rewrite firstn_all, take_ge by (rewrite length_drop; lia). f_equal.
    rewrite !drop_ge by lia. done.
Qed.

(** What a step of a call does to the recorded size. *)
Definition size_step (op : editor_op) (size size' : Z) (c c' : list byte) (os : list block_op) : Prop :=
  match op with
  | WriteAt buf off =>
      size' = Z.max size (off + zlen buf) ∧
      zlen c ≤ zlen c' ≤ Z.max (zlen c) (off + zlen buf) ∧
      (os = [] → off + zlen buf ≤ zlen c')
  | Resize _ => size' = zlen c'
  end.

Lemma write_step_sim buf off k s c :
  0 ≤ off → off + zlen buf ≤ i64_max → 0 ≤ k < zlen buf → holds_blocks s c →
  let it := {| remaining := zlen buf - k; offset := off + k; alignment := CHUNK_SIZE |} in
  ∃ o os s' t',
    patches (block_writes (Z.to_nat (off + k)) (drop (Z.to_nat k) buf)) = o :: os ∧
    thread_step ed Unlocked s (Writing buf off it) = (Unlocked, s', t') ∧
    thread_sim (WriteAt buf off) t' os ∧ holds_blocks s' (apply_op c o) ∧
    size_step (WriteAt buf off) (file_size s.1) (file_size s'.1) c (apply_op c o) os.
Proof.
  intros Ho Hlim Hk (Hl & Hc & Hlen) it. rewrite next_block by lia.
  pose proof (Z.mod_pos_bound (off + k) CHUNK_SIZE ltac:(lia)).
  unfold thread_step, it. rewrite next_piece by lia. cbv beta iota.
  remember (Z.min (zlen buf - k) (CHUNK_SIZE - (off + k) `mod` CHUNK_SIZE)) as n eqn:Hn.
  destruct (write_piece_honest content ed buf off (off + k) n c s)
    as (s' & -> & Hl' & Hs' & Hc'); [done|done|done|lia..|].
  replace (off + k - off) with k in Hl', Hc' by lia.
  eexists _, _, s', _. split; [done|]. split; [done|]. cbn [apply_op fst snd].
  assert (length (take (Z.to_nat n) (drop (Z.to_nat k) buf)) = Z.to_nat n) as Htl
    by (rewrite length_take, length_drop; lia).
  assert (take (Z.to_nat n) (drop (Z.to_nat k) buf) ≠ []) as Hne.
  { intros Hnil. rewrite Hnil in Htl. simpl in Htl. lia. }
  pose proof (length_overwrite c (Z.to_nat (off + k)) (take (Z.to_nat n) (drop (Z.to_nat k) buf)))
    as Hlo. rewrite decide_False in Hlo by done.
  split; [|split; [split_and!; [done..|lia]|split_and!; [done|lia..|]]].
  - left. exists (k + n). split; [lia|]. split; [|done]. f_equal. f_equal; lia.
  - intros Hnil. destruct (decide (k + n = zlen buf)); [lia|].
    rewrite next_block in Hnil by lia. done.
Qed.

Lemma resize_step_sim n s c :
  callable (Resize n) → holds_blocks s c → zlen c ≤ file_size s.1 →
  ∃ s', thread_step ed Unlocked s (Resizing n) = (Unlocked, s', ResizeReturned (Ok tt)) ∧
    holds_blocks s' (set_length c (Z.to_nat n)) ∧
    file_size s'.1 = zlen (set_length c (Z.to_nat n)).
Proof.
  intros [Hn [[]|[Hrel Hbeyond]]] (Hl & Hc & Hlen) Hsz. simpl in Hn.
  destruct (resize_run content ed n c s Hl Hsz Hc Hn) as (s' & Hs & [[Hl' Hs'] Hc']).
  - intros _ Hpos. assert (0 ≤ n / CHUNK_SIZE) by (apply Z.div_pos; lia).
    pose proof (Z.mul_div_le n CHUNK_SIZE ltac:(lia)).
    destruct (decide (n / CHUNK_SIZE * CHUNK_SIZE < zlen c)).
    + eexists. split; [apply (read_chunk_honest_zeros content); done|by left].
    + exists 0. rewrite (read_chunk_beyond (content := content) _ _ _ _ c)
        by (try apply length_zero_buffer; done || lia).
      split; [|by left]. by rewrite window_past_end by lia.
  - exists s'. unfold thread_step. rewrite Hs. split_and!; [done| |done].
    split_and!; [done|done|]. rewrite length_set_length. lia.
Qed.

(** What a step of one thread does. *)
Lemma thread_step_sim op t os s c :
  callable op → thread_sim op t os → holds_blocks s c → zlen c ≤ file_size s.1 →
  ∃ s' t', thread_step ed Unlocked s t = (Unlocked, s', t') ∧
    match os with
    | [] => s' = s ∧ t' = success op
    | o :: os =>
        thread_sim op t' os ∧ holds_blocks s' (apply_op c o) ∧
        size_step op (file_size s.1) (file_size s'.1) c (apply_op c o) os
    end.
Proof.
  intros Hop [Hsim|[-> ->]] Hh Hsz.
  2: { exists s, (success op). by destruct op. }
  destruct op as [buf off|n].
  - destruct Hsim as (k & Hk & -> & ->), Hop as [[Ho Hlim] _].
    destruct (decide (k = zlen buf)) as [->|Hne].
    { unfold thread_step, ChunkedSizeIter.next. cbn [remaining]. rewrite Z.sub_diag.
      rewrite drop_ge by lia. by eexists _, _. }
    destruct (write_step_sim buf off k s c) as (o & os & s' & t' & -> & Hst & Hres); [done|lia..|done|].
    by exists s', t'.
  - destruct Hsim as [-> ->]. destruct (resize_step_sim n s c Hop Hh Hsz) as (s' & Hst & Hh' & Hs').
    exists s', (ResizeReturned (Ok tt)). split; [done|]. split; [by right|done].
Qed.

(** The recorded size is the length of the contents, or the end of a write
    that is still under way. *)
Definition size_recorded (ops : list editor_op) (size : Z) (f : block_file) : Prop :=
  zlen (contents f) ≤ size ∧
  (size = zlen (contents f) ∨
   ∃ i buf off os, ops !! i = Some (WriteAt buf off) ∧ pending f !! i = Some os ∧ os ≠ [] ∧
     size = off + zlen buf).

Record pool_sim (ops : list editor_op) (p : editor_pool W) (f : block_file) : Prop := {
  sim_lock : tree_lock p = Unlocked;
  sim_holds : holds_blocks (shared p) (contents f);
  sim_threads : Forall3 thread_sim ops (threads p) (pending f);
  sim_size : size_recorded ops (file_size (shared p).1) f;
}.

Lemma size_recorded_step ops size size' f i op o os c' :
  size_recorded ops size f → ops !! i = Some op → pending f !! i = Some (o :: os) →
  size_step op size size' (contents f) c' os →
  size_recorded ops size' {| contents := c'; pending := <[i := os]> (pending f) |}.
Proof.
  intros [Hle Hsz] Hop Hp Hstep. unfold size_recorded. simpl.
  destruct op as [buf off|n]; [|simpl in Hstep; split; [lia|by left]].
  destruct Hstep as (-> & Hc & Hlast). split; [lia|].
  assert (i < length (pending f))%nat by (by eapply lookup_lt_Some).
  destruct (decide (off + zlen buf < size)).
  - destruct Hsz as [Hsz|(j & buf' & off' & os' & Hop' & Hp' & Hne' & Hsz)]; [left; lia|].
    destruct (decide (i = j)) as [->|Hij]; [simplify_eq; lia|].
    right. exists j, buf', off', os'. rewrite list_lookup_insert_ne by done. split_and!; [done..|lia].
  - destruct (decide (os = [])) as [->|Hws]; [left; specialize (Hlast eq_refl); lia|].
    right. exists i, buf, off, os. rewrite list_lookup_insert_eq by done. split_and!; [done..|lia].
Qed.

Lemma Forall3_insert_mr {A B C} (P : A → B → C → Prop) l k k' i x y z :
  Forall3 P l k k' → l !! i = Some x → P x y z → Forall3 P l (<[i := y]> k) (<[i := z]> k').
Proof.
  intros HF. revert i. induction HF as [|? ? ? ? ? ? ? ? IH]; intros [|i] Hx HP; simplify_eq/=.
  - by constructor.
  - constructor; [done|]. by apply IH.
Qed.

(** Every step of the pool is one of the file, under any schedule. *)
Lemma pool_step_sim ops p f i :
  Forall callable ops → pool_sim ops p f → pool_sim ops (pool_step ed p i) (block_step f i).
Proof.
  intros Hops [Hlock Hholds Hthr Hsize]. unfold pool_step, block_step.
  destruct (threads p !! i) as [t|] eqn:Ht.
  2: { destruct (pending f !! i) as [os|] eqn:Hp; [|done].
       apply (Forall3_lookup_r _ _ _ _ _ _ Hthr) in Hp as (? & ? & ? & ? & ?). congruence. }
  destruct (Forall3_lookup_m _ _ _ _ _ _ Hthr Ht) as (op & os & Hop & Hp & Hsim).
  pose proof (proj1 (Forall_lookup _ _) Hops _ _ Hop) as Hcall.
  destruct (thread_step_sim op t os (shared p) (contents f) Hcall Hsim Hholds (proj1 Hsize))
    as (s' & t' & Hs & Hos). rewrite Hp, Hlock, Hs. destruct os as [|o os].
  - destruct Hos as [-> ->]. split; simpl; [done|done| |done].
    rewrite <- (list_insert_id (pending f) i []) by done.
    eapply Forall3_insert_mr; [done..|]. by right.
  - destruct Hos as (Hsim' & Hholds' & Hstep). split; simpl; [done|done| |].
    + by eapply Forall3_insert_mr.
    + by eapply size_recorded_step.
Qed.

Lemma run_pool_sim ops schedule p f :
  Forall callable ops → pool_sim ops p f →
  pool_sim ops (run_pool ed p schedule) (run_blocks f schedule).
Proof.
  intros Hr. revert p f. induction schedule as [|i l IH]; intros p f Hs; [done|].
  apply IH. by apply pool_step_sim.
Qed.

Lemma start_calls_sim ops s c :
  Forall callable ops → editor_holds content ed s c → zlen c ≤ i64_max →
  pool_sim ops (start_calls s ops) (start_blocks c ops).
Proof.
  intros Hops [[Hl Hs] Hc] Hlen. split; [done|done| |].
  - simpl. induction Hops as [|op ops [Ho _] _ IH]; [constructor|].
    constructor; [by apply call_sim|done].
  - split; simpl; [lia|by left].
Qed.

(** Once every thread has returned the tree is that of the contents. *)
Lemma pool_sim_complete ops p f :
  pool_sim ops p f → Forall (λ t, returned t = true) (threads p) →
  represents (shared p).1 (contents f) ∧ Forall (λ os, os = []) (pending f).
Proof.
  intros [_ (Hl & _ & _) Hthr Hsz] Hret.
  assert (∀ i os, pending f !! i = Some os → os = []) as Hdone.
  { intros i os Hp. destruct (Forall3_lookup_r _ _ _ _ _ _ Hthr Hp) as (op & t & _ & Ht & Hs).
    apply (proj1 (Forall_lookup _ _) Hret) in Ht. by apply (thread_sim_returned op t). }
  split; [split; [done|]|by apply Forall_lookup].
  destruct Hsz as [_ [?|(i & buf & off & os & _ & Hp & Hne & _)]]; [done|].
  by apply Hdone in Hp.
Qed.

(** A thread that is given one step more than it has changes to make returns. *)
Lemma thread_progress ops schedule p f i op os :
  Forall callable ops → pool_sim ops p f → ops !! i = Some op → pending f !! i = Some os →
  threads p !! i = Some (success op) ∨ (length os < count_occ Nat.eq_dec schedule i)%nat →
  threads (run_pool ed p schedule) !! i = Some (success op).
Proof.
  intros Hops. revert p f os.
  induction schedule as [|j l IH]; intros p f os Hs Hop Hp Hgo; [destruct Hgo; [done|simpl in *; lia]|].
  pose proof (pool_step_sim ops p f j Hops Hs) as Hs'. destruct Hs as [Hlock Hholds Hthr Hsize].
  simpl in Hgo. destruct (Nat.eq_dec j i) as [->|Hne].
  - destruct (Forall3_lookup_l _ _ _ _ _ _ Hthr Hop) as (t & os' & Ht & Hp' & Hsim). simplify_eq.
    pose proof (proj1 (Forall_lookup _ _) Hops _ _ Hop) as Hcall.
    destruct (thread_step_sim op t os (shared p) (contents f) Hcall Hsim Hholds (proj1 Hsize))
      as (s' & t' & Hst & Hos).
    assert (i < length (threads p))%nat by (by eapply lookup_lt_Some).
    assert (i < length (pending f))%nat by (by eapply lookup_lt_Some).
    assert (threads (pool_step ed p i) !! i = Some t') as Ht'.
    { unfold pool_step. rewrite Ht, Hlock, Hst. simpl. by rewrite list_lookup_insert_eq. }
    destruct os as [|o os].
    + destruct Hos as [_ ->]. eapply (IH _ (block_step f i)); [done|done| |by left].
      unfold block_step. by rewrite Hp.
    + destruct Hgo as [Hgo|Hgo].
      { simplify_eq. by destruct (thread_sim_returned op (success op) (o :: os) Hsim) as [_ [=]]; destruct op. }
      apply (IH _ (block_step f i) os); [done|done| |right; simpl in Hgo; lia].
      unfold block_step. rewrite Hp. simpl. by rewrite list_lookup_insert_eq.
  - eapply (IH _ (block_step f j)); [done|done| |].
    + unfold block_step. repeat case_match; [done| |done]. simpl.
      by rewrite list_lookup_insert_ne.
    + destruct Hgo as [Hgo|Hgo]; [left|by right]. unfold pool_step. case_match; [|done].
      destruct (thread_step _ _ _ _) as [[? ?] ?]. simpl. by rewrite list_lookup_insert_ne.
Qed.
End refinement.

(** ** A thread alone is [write_at] *)
Section alone.
Context `{!Sha256FFI} {bm : BuildMode} {wf : WriteFuel} {W F : Type}.
Context `{!ReadByChunk W F, !RandomWrite W F}.
Context (ed : VerifiedFileEditor F).

Lemma run_alone lock (s : MerkleLeaves * W) t n lock' s' t' :
  thread_step ed lock s t = (lock', s', t') →
  run_pool ed (Build_editor_pool lock s [t]) (replicate (S n) O) =
    run_pool ed (Build_editor_pool lock' s' [t']) (replicate n O).
Proof.
  intros Ht. unfold run_pool. cbn [replicate foldl]. f_equal.
  unfold pool_step. simpl. by rewrite Ht.
Qed.

Lemma run_returned lock (s : MerkleLeaves * W) r n :
  run_pool ed (Build_editor_pool lock s [WriteReturned r]) (replicate n O) =
    Build_editor_pool lock s [WriteReturned r].
Proof. induction n as [|n IH]; [done|]. by erewrite run_alone. Qed.

(** What [catch_return] makes of the end of the loop. *)
Definition loop_result (buf : list byte) (r : outcome (control io_error Z) unit)
    : outcome io_error Z :=
  match r with
  | Ok _ => Ok (zlen buf)
  | Err (Return n) => Ok n
  | Err (Raise e) => Err e
  | Panic => Panic
  | OutOfFuel => OutOfFuel
  end.

Lemma next_err_free {E E'} it :
  match ChunkedSizeIter.next (E := E) it, ChunkedSizeIter.next (E := E') it with
  | Ok a, Ok b => a = b
  | Panic, Panic => True
  | _, _ => False
  end.
Proof.
  unfold ChunkedSizeIter.next, u64_rem, u64_sub, u64_add.
  repeat (case_match; simplify_eq/=; try done).
Qed.

Lemma run_loop buf off fuel it (s : MerkleLeaves * W) r s' :
  ChunkedSizeIter.try_fold_fuel fuel it tt
    (λ _ piece, VerifiedFileEditor.write_piece ed buf off piece) s = (r, s') → r ≠ OutOfFuel →
  ∃ lock, run_pool ed (Build_editor_pool Unlocked s [Writing buf off it]) (replicate fuel O) =
    Build_editor_pool lock s' [WriteReturned (loop_result buf r)].
Proof.
  revert it s. induction fuel as [|fuel IH]; intros it s Hf Hr; [by injection Hf as <- <-|].
  cbn [ChunkedSizeIter.try_fold_fuel] in Hf. unfold mbind, M_bind, lift in Hf.
  pose proof (next_err_free (E := io_error) (E' := control io_error Z) it) as Hn.
  destruct (thread_step ed Unlocked s (Writing buf off it)) as [[lock1 s1] t1] eqn:Ht.
  rewrite (run_alone _ _ _ _ _ _ _ Ht). unfold thread_step in Ht.
  destruct (ChunkedSizeIter.next (E := io_error) it) as [[[piece|] it1]|e| |],
    (ChunkedSizeIter.next (E := control io_error Z) it) as [[[piece'|] it1']|e'| |];
    simplify_eq/=; try (by eauto using run_returned);
    [|injection Hf as <- <-; eauto using run_returned].
  destruct (VerifiedFileEditor.write_piece ed buf off piece' s) as [[[]|[e|n]| |] s2];
    simplify_eq/=; eauto using run_returned.
Qed.

(** Scheduled alone, a writing thread ends with the result and in the state
    of [write_at]. *)
Lemma lone_writer buf off (s : MerkleLeaves * W) r s' :
  VerifiedFileEditor.write_at ed buf off s = (r, s') → r ≠ OutOfFuel →
  ∃ lock, run_pool ed (start_calls s [WriteAt buf off]) (replicate (S (length buf)) O) =
    Build_editor_pool lock s' [WriteReturned r].
Proof.
  unfold VerifiedFileEditor.write_at. rewrite usize_is_u64, bind_lift_Ok.
  unfold catch_return, mbind, M_bind, ChunkedSizeIter.try_fold. cbn [remaining ChunkedSizeIter.new].
  rewrite Nat2Z.id. intros Hw Hr. unfold start_calls, call, call_write. cbn [fmap list_fmap].
  match type of Hw with context [ChunkedSizeIter.try_fold_fuel ?n ?it ?a ?g s] =>
    destruct (ChunkedSizeIter.try_fold_fuel n it a g s) as [rf sf] eqn:Hf end.
  assert (r = loop_result buf rf ∧ s' = sf) as [-> ->].
  { destruct rf as [[]|[]| |]; unfold mret, M_ret in Hw; simplify_eq; done. }
  apply (run_loop _ _ _ _ _ _ _ Hf). by intros ->.
Qed.
End alone.

(** ** Writes that do not overlap *)
Section disjoint.
(** The ranges of two writes of a block file; a change of size is apart from nothing. *)
Definition apart (a b : block_op) : Prop :=
  match a, b with
  | Patch p x, Patch q y => (p + length x ≤ q)%nat ∨ (q + length y ≤ p)%nat
  | _, _ => False
  end.
Definition writes_apart (a b : list byte * Z) : Prop :=
  a.2 + zlen a.1 ≤ b.2 ∨ b.2 + zlen b.1 ≤ a.2.
#[global] Instance writes_apart_dec a b : Decision (writes_apart a b).
Proof. apply _. Defined.
Definition write_op (w : list byte * Z) : editor_op := WriteAt w.1 w.2.

Lemma apply_op_comm c a b :
  apart a b → apply_op (apply_op c a) b = apply_op (apply_op c b) a.
Proof.
  destruct a as [p x|n], b as [q y|m]; simpl; try done. intros Hd.
  apply byte_at_ext.
  - rewrite !length_overwrite. repeat case_decide; simplify_eq; lia.
  - intros k _. rewrite !byte_at_overwrite. repeat case_decide; done || lia.
Qed.

Lemma apply_ops_comm c os a :
  Forall (apart a) os → foldl apply_op (apply_op c a) os = apply_op (foldl apply_op c os) a.
Proof.
  intros Hos. revert c. induction Hos as [|b os Hb _ IH]; intros c; [done|].
  cbn [foldl]. by rewrite apply_op_comm, IH.
Qed.

(** Changes of different threads are apart. *)
Definition threads_apart (ts : list (list block_op)) : Prop :=
  ∀ i j os os' a b, i ≠ j → ts !! i = Some os → ts !! j = Some os' → a ∈ os → b ∈ os' → apart a b.

(** The contents if the threads finished one after the other. *)
Definition finished (f : block_file) : list byte := foldl apply_op (contents f) (concat (pending f)).

Lemma block_step_finished f i :
  threads_apart (pending f) →
  finished (block_step f i) = finished f ∧ threads_apart (pending (block_step f i)).
Proof.
  intros Ha. unfold block_step. destruct (pending f !! i) as [[|d ws]|] eqn:Hp; [done| |done].
  assert (i < length (pending f))%nat as Hi by (by eapply lookup_lt_Some).
  split.
  - unfold finished. simpl. rewrite <- (take_drop_middle _ _ _ Hp) at 2.
    rewrite insert_take_drop by done. rewrite !concat_app, !concat_cons.
    rewrite !foldl_app.
    rewrite apply_ops_comm; [done|]. apply Forall_forall. intros b Hb.
    apply list_elem_of_In, in_concat in Hb as (ws' & Hin & Hb%list_elem_of_In).
    apply list_elem_of_In, list_elem_of_lookup in Hin as [j Hj].
    assert (j < i)%nat by (apply lookup_lt_Some in Hj; rewrite length_take in Hj; lia).
    rewrite lookup_take_lt in Hj by done.
    eapply (Ha i j); [lia|done|done|by left|done].
  - intros j k wj wk a b Hjk Hj Hk Ha' Hb. simpl in Hj, Hk.
    apply list_lookup_insert_Some in Hj as [(<- & <- & _)|[Hij Hj]];
      apply list_lookup_insert_Some in Hk as [(<- & <- & _)|[Hik Hk]];
      eapply (Ha _ _ _ _ _ _ Hjk); try done; by right.
Qed.

Lemma run_blocks_finished f schedule :
  threads_apart (pending f) → finished (run_blocks f schedule) = finished f.
Proof.
  revert f. induction schedule as [|i l IH]; intros f Ha; [done|].
  destruct (block_step_finished f i Ha) as [Hf Ha']. rewrite <- Hf. by apply IH.
Qed.

Lemma start_blocks_apart c writes :
  Forall op_in_range (write_op <$> writes) →
  (∀ i j a b, i ≠ j → writes !! i = Some a → writes !! j = Some b → writes_apart a b) →
  threads_apart (pending (start_blocks c (write_op <$> writes))).
Proof.
  intros Hr Hw i j os os' a b Hij Hi Hj Ha Hb. simpl in Hi, Hj.
  rewrite Forall_fmap in Hr. rewrite <- list_fmap_compose in Hi, Hj.
  apply list_lookup_fmap_Some in Hi as ([b1 o1] & -> & Hi).
  apply list_lookup_fmap_Some in Hj as ([b2 o2] & -> & Hj).
  apply list_elem_of_fmap in Ha as ([p x] & -> & (_ & ? & ?)%block_writes_range).
  apply list_elem_of_fmap in Hb as ([q y] & -> & (_ & ? & ?)%block_writes_range).
  destruct (proj1 (Forall_lookup _ _) Hr _ _ Hi), (proj1 (Forall_lookup _ _) Hr _ _ Hj).
  specialize (Hw _ _ _ _ Hij Hi Hj). unfold writes_apart, apart in *. simpl in *. lia.
Qed.

Lemma start_blocks_finished c ops : finished (start_blocks c ops) = foldl spec_op c ops.
Proof.
  unfold finished. simpl. revert c. induction ops as [|op ops IH]; intros c; [done|].
  cbn [fmap list_fmap concat foldl]. by rewrite foldl_app, apply_block_ops, IH.
Qed.

Lemma finished_nil f : Forall (λ os, os = []) (pending f) → finished f = contents f.
Proof.
  intros Hp. unfold finished. replace (concat (pending f)) with (@nil block_op); [done|].
  induction Hp as [|os l -> _ IH]; done.
Qed.
End disjoint.

(** ** Claims *)
Section claims.
Context `{!Sha256FFI, !Sha256Spec} {wf : WriteFuel} {W F : Type}.
Context `{!ReadByChunk W F, !RandomWrite W F}.
Context (content : F → W → option (list byte)).
Context `{!HonestReader W F content, !HonestWriter W F content}.

Lemma calls_callable {bm : BuildMode} `{!ReadsNothingBeyond W F content} ops :
  Forall op_in_range ops → debug_assertions = false ∨ Forall is_write ops →
  Forall (callable content) ops.
Proof.
  intros Hr Hd. apply Forall_lookup. intros i op Hi. split; [by eapply Forall_lookup_1|].
  destruct Hd as [Hd|Hd]; [by right|left]. by eapply Forall_lookup_1.
Qed.

Lemma writes_callable {bm : BuildMode} writes :
  Forall op_in_range (write_op <$> writes) → Forall (callable content) (write_op <$> writes).
Proof. rewrite !Forall_fmap. intros Hr. eapply Forall_impl; [done|]. intros w ?. split; [done|by left]. Qed.

(** C9: Concurrent calls on one file.  A write takes the editor's lock once per block, a change
    of size once.  On honest storage that serves nothing beyond its end, and under any schedule
    of any number of threads that write or, in a build without debug assertions, change the
    size, the system refines a file in memory changed one block or one size at a time in the
    order of the schedule: the storage holds its contents after every step, the lock is never
    poisoned or kept, a thread that returns has succeeded, it returns after one step more than
    it has changes to make, and once all have returned the tree in trusted memory is that of
    the contents. *)
Theorem editor_concurrent_calls {bm : BuildMode} `{!ReadsNothingBeyond W F content}
    (ed : VerifiedFileEditor F) s c ops schedule :
  (csz < write_fuel)%nat → editor_holds content ed s c → zlen c ≤ i64_max →
  Forall op_in_range ops → debug_assertions = false ∨ Forall is_write ops →
  let p := run_pool ed (start_calls s ops) schedule in
  let f := run_blocks (start_blocks c ops) schedule in
  tree_lock p = Unlocked ∧
  content (editor_file ed) (shared p).2 = Some (contents f) ∧
  (∀ i op t, ops !! i = Some op → threads p !! i = Some t → returned t = true →
     t = success op ∧ pending f !! i = Some []) ∧
  (∀ i op, ops !! i = Some op →
     (length (block_ops op) < count_occ Nat.eq_dec schedule i)%nat →
     threads p !! i = Some (success op)) ∧
  (Forall (λ t, returned t = true) (threads p) → represents (shared p).1 (contents f)).
Proof.
  intros Hfuel Hs Hc Hr Hd p f. pose proof (calls_callable ops Hr Hd) as Hops.
  pose proof (start_calls_sim content ed Hfuel ops s c Hops Hs Hc) as Hstart.
  pose proof (run_pool_sim content ed Hfuel ops schedule _ _ Hops Hstart) as Hsim.
  fold p f in Hsim. pose proof Hsim as [Hlock (_ & Hcont & _) Hthr _]. split_and!; [done|done|..].
  - intros i op t Hop Ht Hret.
    destruct (Forall3_lookup_l _ _ _ _ _ _ Hthr Hop) as (t' & os & Ht' & -> & Hth). simplify_eq.
    by destruct (thread_sim_returned _ _ _ Hth Hret) as [-> ->].
  - intros i op Hop Hn.
    apply (thread_progress content ed Hfuel ops schedule _ _ i op (block_ops op) Hops Hstart Hop);
      [|by right]. simpl. by rewrite list_lookup_fmap, Hop.
  - intros Hret. by apply (pool_sim_complete content ed ops p f).
Qed.

(** C10: Concurrent writes that do not overlap.  Whatever the schedule, once all threads have
    returned the storage holds what the writes one after the other would have left, and the
    digest is the fs-verity digest of it, although the blocks of the writes were interleaved. *)
Theorem editor_disjoint_writes (ed : VerifiedFileEditor F) s c writes schedule :
  (csz < write_fuel)%nat → editor_holds content ed s c → zlen c ≤ i64_max →
  Forall op_in_range (write_op <$> writes) →
  (∀ i j a b, i ≠ j → writes !! i = Some a → writes !! j = Some b → writes_apart a b) →
  let p := run_pool (bm := release) ed (start_calls s (write_op <$> writes)) schedule in
  let c' := foldl spec_op c (write_op <$> writes) in
  Forall (λ t, returned t = true) (threads p) →
  content (editor_file ed) (shared p).2 = Some c' ∧
  VerifiedFileEditor.calculate_fsverity_digest (bm := release) ed (shared p) =
    (Ok (fsverity_digest c'), shared p).
Proof.
  intros Hfuel Hs Hc Hr Ha p c' Hret. remember (write_op <$> writes) as ops eqn:Hops.
  assert (Forall (callable (bm := release) content) ops) as Hcall
    by (subst; by apply writes_callable).
  pose proof (start_calls_sim content ed Hfuel ops s c Hcall Hs Hc) as Hstart.
  pose proof (run_pool_sim (bm := release) content ed Hfuel ops schedule _ _ Hcall Hstart) as Hsim.
  fold p in Hsim. destruct (pool_sim_complete _ _ _ _ _ Hsim Hret) as [Hrep Hnil].
  assert (threads_apart (pending (start_blocks c ops))) as Hap by (subst; by apply start_blocks_apart).
  pose proof (run_blocks_finished (start_blocks c ops) schedule Hap) as Hfin.
  rewrite start_blocks_finished, (finished_nil _ Hnil) in Hfin. fold c' in Hfin.
  destruct Hsim as [_ (_ & Hcont & Hlen) _ _]. rewrite Hfin in *. split; [done|].
  unfold VerifiedFileEditor.calculate_fsverity_digest.
  erewrite (M_bind_Ok VerifiedFileEditor.get_tree) by done.
  rewrite (calculate_fsverity_digest_represents _ _ Hrep) by lia. done.
Qed.
End claims.

(** ** An ideal storage *)
Inductive PlainFile := plain_file.
#[global] Instance PlainFile_read : ReadByChunk (list byte) PlainFile :=
  λ _ chunk_index buf,
    data ← get_state;
    let chunk := take csz (drop (Z.to_nat chunk_index * csz) data) in
    mret (zlen chunk, copy_prefix (length chunk) chunk buf).
#[global] Instance PlainFile_write : RandomWrite (list byte) PlainFile := {|
  write_at _ buf off := data ← get_state; put_state (overwrite data (Z.to_nat off) buf);; mret (zlen buf);
  resize _ size := data ← get_state; put_state (set_length data (Z.to_nat size));; mret tt;
|}.
Definition plain_content (_ : PlainFile) (data : list byte) : option (list byte) := Some data.

#[global] Instance PlainFile_honest_read : HonestReader (list byte) PlainFile plain_content.
Proof. by intros f i buf w c [= ->]. Qed.
#[global] Instance PlainFile_beyond : ReadsNothingBeyond (list byte) PlainFile plain_content.
Proof.
  intros f i buf w c [= ->] Hl Hi _ Hc. unfold read_chunk, PlainFile_read.
  erewrite (M_bind_Ok get_state) by done. by rewrite drop_ge by lia.
Qed.
#[global] Instance PlainFile_honest_write : HonestWriter (list byte) PlainFile plain_content.
Proof.
  split.
  - intros f buf off w c [= ->] Hne _ _ _. exists (length buf). eexists. split; [done|].
    rewrite firstn_all. split; [|done]. destruct buf; [done|simpl; lia].
  - intros f n w c [= ->] _. by eexists.
Qed.

Section conc_instances.
#[local] Existing Instances boringssl boringssl_spec.
#[local] Instance conc_fuel : WriteFuel := 5000%nat.
Definition plain_editor : VerifiedFileEditor PlainFile := Build_VerifiedFileEditor plain_file.

(** A write of two blocks, cut short between them by a change of size. *)
Definition demo_calls : list editor_op := [WriteAt (ones 4100) 10; Resize 4097; WriteAt (ones 3) 4200].
Definition demo_schedule : list nat := [0; 1; 2; 0; 2; 0]%nat.
(** Two writes that share a block. *)
Definition demo_writes : list (list byte * Z) := [(ones 4100, 10); (ones 3, 4200)].
Definition demo_interleaving : list nat := [0; 1; 0; 1; 0]%nat.

(** In a build with debug assertions a change of size can find the recorded size of a write
    ahead of the contents: the assertion on the tail fails and the lock is poisoned. *)
Example resize_between_blocks_panics :
  let p := run_pool (bm := debug_build) plain_editor
             (start_calls (MerkleLeaves.new, []) [WriteAt (ones 3) 4095; Resize 4097]) [0; 1; 0]%nat in
  tree_lock p = Poisoned ∧ threads p = [WriteReturned Panic; ResizeReturned Panic].
Proof. vm_compute. done. Qed.

Lemma length_ones n : length (ones n) = n.
Proof. apply length_replicate. Qed.
#[local] Opaque ones.

Lemma demo_writes_apart i j a b :
  i ≠ j → demo_writes !! i = Some a → demo_writes !! j = Some b → writes_apart a b.
Proof.
  intros Hij Ha Hb. unfold writes_apart.
  destruct i as [|[|i]], j as [|[|j]]; try done; injection Ha as <-; injection Hb as <-;
    cbn [fst snd]; rewrite !length_ones; lia.
Qed.

Lemma demo_fuel_enough : (csz < write_fuel)%nat.
Proof. unfold write_fuel, conc_fuel. lia. Qed.

Lemma editor_concurrent_calls_witness :
  let p := run_pool (bm := release) plain_editor (start_calls (MerkleLeaves.new, []) demo_calls)
             demo_schedule in
  let f := run_blocks (start_blocks [] demo_calls) demo_schedule in
  tree_lock p = Unlocked ∧
  plain_content (editor_file plain_editor) (shared p).2 = Some (contents f) ∧
  (∀ i op t, demo_calls !! i = Some op → threads p !! i = Some t → returned t = true →
     t = success op ∧ pending f !! i = Some []) ∧
  (∀ i op, demo_calls !! i = Some op →
     (length (block_ops op) < count_occ Nat.eq_dec demo_schedule i)%nat →
     threads p !! i = Some (success op)) ∧
  (Forall (λ t, returned t = true) (threads p) → represents (shared p).1 (contents f)).
Proof.
  apply (editor_concurrent_calls plain_content (bm := release) plain_editor (MerkleLeaves.new, []) []
    demo_calls demo_schedule).
  - exact demo_fuel_enough.
  - done.
  - simpl. lia.
  - repeat constructor; rewrite ?length_ones; lia.
  - by left.
Defined.

Lemma editor_disjoint_writes_witness :
  let p := run_pool (bm := release) demo_editor
             (start_calls (MerkleLeaves.new, []) (write_op <$> demo_writes)) demo_interleaving in
  let c' := foldl spec_op [] (write_op <$> demo_writes) in
  memory_content (editor_file demo_editor) (shared p).2 = Some c' ∧
  VerifiedFileEditor.calculate_fsverity_digest (bm := release) demo_editor (shared p) =
    (Ok (fsverity_digest c'), shared p).
Proof.
  apply (editor_disjoint_writes memory_content demo_editor (MerkleLeaves.new, []) []
    demo_writes demo_interleaving).
  - exact demo_fuel_enough.
  - done.
  - simpl. lia.
  - repeat constructor; cbn [fst snd]; rewrite ?length_ones; lia.
  - exact demo_writes_apart.
  - vm_compute. repeat constructor.
Defined.
End conc_instances.
