(* ===== verification/EditorTypes.v ===== *)
(** * The types of the verified writer (authfs/src/fsverity/editor.rs, builder.rs)

    What the Rust types of the editor's state promise, kept by every step of
    every call for a storage about which nothing at all is assumed: the leaves
    are arrays of 32 bytes, the recorded size is a [u64], the iterator of a
    write stays inside its buffer and a write never reports more bytes than
    it was given.  The rules for [triple] are those of a program logic whose
    assertion on the state is the invariant. *)
From S2P Require Import Prelude RustInt Crypto Common Fsverity Merkle Builder File Editor EditorProps.
From S2P Require Import EditorConc.

(** [m] keeps the invariant [P] of the state whatever its outcome, and a value
    it returns satisfies [Q]. *)
Section triple.
Context {S E : Type} (P : S → Prop).

Definition triple {A} (m : M S E A) (Q : A → Prop) : Prop :=
  ∀ s, P s → P (m s).2 ∧ ∀ a, (m s).1 = Ok a → Q a.

Lemma triple_bind {A B} (m : M S E A) (f : A → M S E B) Q R :
  triple m Q → (∀ a, Q a → triple (f a) R) → triple (m ≫= f) R.
Proof.
  intros Hm Hf s Hs. unfold mbind, M_bind. destruct (Hm s Hs) as [Hs' Ha].
  destruct (m s) as [[a|e| |] s'] eqn:Hms; simpl in *; try (by split).
  apply Hf; [by apply Ha|done].
Qed.

Lemma triple_lift {A} (m : outcome E A) (Q : A → Prop) : (∀ a, m = Ok a → Q a) → triple (lift m) Q.
Proof. intros Hm s Hs. by split. Qed.
Lemma triple_lift_eq {A} (m : outcome E A) : triple (lift m) (λ a, m = Ok a).
Proof. by apply triple_lift. Qed.
Lemma triple_ret {A} (a : A) (Q : A → Prop) : Q a → triple (mret a) Q.
Proof. intros Ha s Hs. split; [done|]. by intros ? [= <-]. Qed.
Lemma triple_throw {A} (e : E) (Q : A → Prop) : triple (throw e) Q.
Proof. intros s Hs. by split. Qed.
End triple.

Lemma triple_map_err {S E E' A} (P : S → Prop) (g : E → E') (m : M S E A) (Q : A → Prop) :
  triple P m Q → triple P (m_map_err g m) Q.
Proof.
  intros Hm s Hs. unfold m_map_err. destruct (Hm s Hs) as [Hs' Ha].
  destruct (m s) as [[a|e| |] s']; simpl in *; (split; [done|]); intros ? [=]; subst; auto.
Qed.

(** The Rust types: [Vec<[u8; 32]>] and [u64]. *)
Definition tree_typed (t : MerkleLeaves) : Prop := all_hashes (leaves t) ∧ is_u64 (file_size t).

Definition op_typed (op : editor_op) : Prop :=
  match op with
  | WriteAt buf off => is_u64 off ∧ zlen buf < u64_limit
  | Resize size => is_u64 size
  end.
Section typed.
Context `{!Sha256FFI, !Sha256Spec} {bm : BuildMode} {wf : WriteFuel} {W F : Type}.
Context `{!ReadByChunk W F, !RandomWrite W F}.
Import VerifiedFileEditor.

Definition state_typed (s : MerkleLeaves * W) : Prop := tree_typed s.1.
Definition is_hash (h : list byte) : Prop := length h = hsz.

Lemma zeros_hash_typed : is_hash HASH_OF_4096_ZEROS.
Proof. unfold is_hash. rewrite <- sha256_zeros. apply length_sha256. Qed.

Lemma vec_resize_typed n l : all_hashes l → all_hashes (vec_resize n HASH_OF_4096_ZEROS l).
Proof.
  intros Hl. unfold vec_resize. apply Forall_app. split; [by apply Forall_take|].
  apply Forall_replicate, zeros_hash_typed.
Qed.

Lemma update_hash_typed {E} t i h sz t' :
  tree_typed t → is_hash h → is_u64 sz → MerkleLeaves.update_hash (E := E) t i h sz = Ok t' →
  tree_typed t'.
Proof.
  intros [Hl Hs] Hh Hsz Hu. unfold MerkleLeaves.update_hash in Hu.
  apply bind_Ok_inv in Hu as (n & _ & [= <-]). split; simpl.
  - apply Forall_insert; [|done]. case_match; [by apply vec_resize_typed|done].
  - by case_match.
Qed.

Lemma resize_typed {E} t n t' :
  tree_typed t → is_u64 n → MerkleLeaves.resize (E := E) t n = Ok t' → tree_typed t'.
Proof.
  intros [Hl _] Hn Hr. unfold MerkleLeaves.resize in Hr. apply bind_Ok_inv in Hr as (k & _ & [= <-]).
  split; simpl; [by apply vec_resize_typed|done].
Qed.

Lemma triple_get_tree {E} : triple (E := E) state_typed get_tree tree_typed.
Proof. intros s Hs. split; [done|]. by intros a [= <-]. Qed.
Lemma triple_put_tree {E} t : tree_typed t → triple (E := E) state_typed (put_tree t) (λ _, True).
Proof. intros Ht s Hs. by split. Qed.
Lemma triple_on_file {E A} (m : M W E A) : triple state_typed (on_file m) (λ _, True).
Proof. intros s Hs. unfold on_file, zoom. by destruct (m s.2). Qed.
End typed.

Section editor_typed.
Context `{!Sha256FFI, !Sha256Spec} {bm : BuildMode} {wf : WriteFuel} {W F : Type}.
Context `{!ReadByChunk W F, !RandomWrite W F}.
Import VerifiedFileEditor.
Implicit Types (ed : VerifiedFileEditor F).

(** A computation whose result does not matter. *)
Lemma triple_lift_any {E A} (m : outcome E A) : triple (S := MerkleLeaves * W) state_typed (lift m) (λ _, True).
Proof. by apply triple_lift. Qed.

Lemma new_chunk_hash_typed ed source a n idx t :
  triple (state_typed (W := W)) (new_chunk_hash ed source a n idx t) is_hash.
Proof.
  assert (∀ m : list byte, is_hash (sha256 m)) as Hlen by apply length_sha256.
  unfold new_chunk_hash. case_match.
  - apply triple_lift. hash_steps. cbn [crypto_io map_err]. by intros h [= <-].
  - unfold new_hash_for_incomplete_write.
    eapply (triple_bind _ _ _ (λ _, True)).
    + case_match; [|by apply triple_ret].
      eapply triple_bind; [apply triple_on_file|]. intros [? orig] _.
      eapply triple_bind; [apply triple_lift_any|]. intros h _.
      case_match; [apply triple_throw|by apply triple_ret].
    + intros orig _. do 3 (eapply triple_bind; [apply triple_lift_any|intros ? _]).
      apply triple_lift. hash_steps. cbn [crypto_io map_err]. by intros h [= <-].
Qed.

Lemma saturating_add_typed a b : 0 ≤ a → 0 ≤ b → is_u64 (u64_saturating_add a b).
Proof. unfold is_u64, u64_saturating_add. lia. Qed.

Lemma write_piece_typed ed buf off piece :
  is_u64 off → triple (state_typed (W := W)) (write_piece ed buf off piece) (λ _, True).
Proof.
  intros Ho. unfold write_piece. destruct piece as [o n].
  eapply triple_bind; [apply triple_get_tree|]. intros t Ht.
  do 3 (eapply triple_bind; [apply triple_lift_any|intros ? _]).
  eapply triple_bind; [apply triple_map_err, new_chunk_hash_typed|]. intros h Hh.
  eapply triple_bind; [apply triple_map_err, triple_on_file|]. intros ? _.
  eapply triple_bind; [apply triple_lift_eq|]. intros t' Hu.
  apply triple_put_tree. apply (update_hash_typed _ _ _ _ _ Ht Hh) in Hu; [done|].
  unfold is_u64 in Ho. apply saturating_add_typed; lia.
Qed.

Lemma editor_resize_typed ed n :
  is_u64 n → triple (state_typed (W := W)) (VerifiedFileEditor.resize ed n) (λ _, True).
Proof.
  intros Hn. unfold VerifiedFileEditor.resize.
  eapply triple_bind; [apply triple_lift_any|]. intros ? _.
  eapply triple_bind; [apply triple_get_tree|]. intros t Ht.
  eapply (triple_bind _ _ _ (λ _, True)).
  - case_match; [|by apply triple_ret]. case_match; [|by apply triple_ret].
    eapply triple_bind; [apply triple_on_file|]. intros [? buf] _.
    do 2 (eapply triple_bind; [apply triple_lift_any|intros ? _]).
    eapply (triple_bind _ _ _ is_hash).
    { apply triple_lift. hash_steps. cbn [crypto_io map_err]. intros h [= <-]. apply length_sha256. }
    intros h Hh. eapply triple_bind; [apply triple_lift_eq|]. intros t' Hu.
    apply triple_put_tree. by apply (update_hash_typed _ _ _ _ _ Ht Hh Hn) in Hu.
  - intros ? _. eapply triple_bind; [apply triple_on_file|]. intros ? _.
    eapply triple_bind; [apply triple_get_tree|]. intros t1 Ht1.
    eapply triple_bind; [apply triple_lift_eq|]. intros t' Hu.
    apply triple_put_tree. by apply (resize_typed _ _ _ Ht1 Hn) in Hu.
Qed.

(** A digest has the length of a hash. *)
Lemma digest_typed ed (s : MerkleLeaves * W) d :
  (VerifiedFileEditor.calculate_fsverity_digest ed s).1 = Ok d → is_hash d.
Proof.
  unfold VerifiedFileEditor.calculate_fsverity_digest.
  erewrite (M_bind_Ok get_tree) by done. unfold MerkleLeaves.calculate_fsverity_digest, lift. simpl.
  destruct (MerkleLeaves.calculate_root_hash _) as [root|e| |]; [|done..]. simpl.
  rewrite build_fsverity_digest_spec. simpl. intros [= <-]. apply length_sha256.
Qed.
End editor_typed.

(** ** Every reachable state *)
(** A thread and the call it runs. *)
Definition thread_typed (op : editor_op) (t : editor_thread) : Prop :=
  match op, t with
  | WriteAt buf off, Writing buf' off' it =>
      buf' = buf ∧ off' = off ∧ alignment it = CHUNK_SIZE ∧ off ≤ offset it ∧ 0 ≤ remaining it ∧
      offset it + remaining it = off + zlen buf
  | WriteAt buf _, WriteReturned r => ∀ n, r = Ok n → 0 ≤ n ≤ zlen buf
  | Resize size, Resizing size' => size' = size
  | Resize _, ResizeReturned _ => True
  | _, _ => False
  end.

Section pool_typed.
Context `{!Sha256FFI, !Sha256Spec} {bm : BuildMode} {wf : WriteFuel} {W F : Type}.
Context `{!ReadByChunk W F, !RandomWrite W F}.
Context (ed : VerifiedFileEditor F).

Definition pool_typed (ops : list editor_op) (p : editor_pool W) : Prop :=
  tree_typed (shared p).1 ∧ Forall2 thread_typed ops (threads p).

Lemma next_typed {E} it piece it' :
  ChunkedSizeIter.next (E := E) it = Ok (Some piece, it') →
  alignment it = CHUNK_SIZE → 0 ≤ remaining it →
  alignment it' = CHUNK_SIZE ∧ 0 ≤ remaining it' ∧ offset it ≤ offset it' ∧
  offset it' + remaining it' = offset it + remaining it ∧
  piece.1 = offset it ∧ 0 < remaining it.
Proof.
  intros Hn Ha Hr. unfold ChunkedSizeIter.next in Hn. rewrite Ha in Hn.
  destruct (Z.eqb_spec (remaining it) 0); [done|]. rewrite u64_rem_Ok in Hn by lia. simpl in Hn.
  pose proof (Z.mod_pos_bound (offset it) CHUNK_SIZE ltac:(lia)).
  rewrite u64_sub_Ok in Hn by lia. simpl in Hn.
  apply bind_Ok_inv in Hn as (o' & Ho & [= <- <-]). apply u64_add_Ok_inv in Ho as [-> _].
  unfold saturating_sub. simpl. lia.
Qed.

Lemma thread_step_typed lock s t op lock' s' t' :
  op_typed op → tree_typed s.1 → thread_typed op t →
  thread_step ed lock s t = (lock', s', t') → tree_typed s'.1 ∧ thread_typed op t'.
Proof.
  intros Hop Hs Ht Hst. destruct op as [buf off|n], t as [b o it|n'|r|r]; simpl in Ht; try done.
  - destruct Ht as (-> & -> & Ha & Ho & Hr & Hsum). unfold thread_step in Hst.
    destruct (ChunkedSizeIter.next it) as [[[piece|] it']|e| |] eqn:Hn; simplify_eq; try done.
    2: { split; [done|]. intros k [= <-]. lia. }
    destruct (next_typed _ _ _ Hn Ha Hr) as (Ha' & Hr' & Ho' & Hsum' & Hp & Hpos).
    destruct lock; simplify_eq; [|done|by split_and!].
    destruct (write_piece_typed ed buf off piece (proj1 Hop) s Hs) as [Hs' _].
    destruct piece as [po pn]. simpl in Hp. subst po.
    pose proof (write_piece_fail ed buf off (offset it) pn s) as Hfail.
    destruct (VerifiedFileEditor.write_piece _ _ _ _ _) as [[[]|[k|e]| |] s1]; simplify_eq/=;
      (split; [done|]); try done.
    + split_and!; try done; lia.
    + destruct Hfail as [_ Hk]. intros n [= <-]. rewrite (Hk _ eq_refl). lia.
  - by simplify_eq/=.
  - subst. unfold thread_step in Hst. destruct lock; simplify_eq; try done.
    destruct (editor_resize_typed ed n Hop s Hs) as [Hs' _].
    by destruct (VerifiedFileEditor.resize ed n s); simplify_eq/=.
  - by simplify_eq/=.
Qed.

Lemma pool_step_typed ops p i :
  Forall op_typed ops → pool_typed ops p → pool_typed ops (pool_step ed p i).
Proof.
  intros Hops [Hs Ht]. unfold pool_step. destruct (threads p !! i) as [t|] eqn:Hi; [|done].
  destruct (thread_step ed _ _ t) as [[lock s] t'] eqn:Hst.
  destruct (Forall2_lookup_r _ _ _ _ _ Ht Hi) as (op & Hop & Hti).
  destruct (thread_step_typed _ _ _ op _ _ _ (proj1 (Forall_lookup _ _) Hops _ _ Hop) Hs Hti Hst).
  split; [done|]. simpl. rewrite <- (list_insert_id ops i op) by done. by apply Forall2_insert.
Qed.

Lemma start_calls_typed ops s :
  tree_typed s.1 → pool_typed ops (start_calls s ops).
Proof.
  intros Hs. split; [done|]. simpl. apply Forall2_fmap_r, Forall2_same_length_lookup_2; [done|].
  intros i op op' Ho Ho'. simplify_eq. destruct op as [buf off|n]; simpl; [|done].
  split_and!; try done; lia.
Qed.

(** C11: The state of the editor keeps its types.  For a storage about which nothing is assumed,
    any number of calls in progress and any schedule of them, with failures and panics: every
    leaf of the tree is a hash of 32 bytes and the size is a [u64]; the iterator of a write
    stays inside its buffer; a write that returns reports at most the bytes it was given; and a
    digest that is computed has 32 bytes. *)
Theorem editor_state_typed s ops schedule :
  tree_typed s.1 → Forall op_typed ops →
  let p := run_pool ed (start_calls s ops) schedule in
  tree_typed (shared p).1 ∧ Forall2 thread_typed ops (threads p) ∧
  ∀ d, (VerifiedFileEditor.calculate_fsverity_digest ed (shared p)).1 = Ok d → length d = hsz.
Proof.
  intros Hs Hops p. enough (pool_typed ops p) as [Ht Hthr]
    by (split_and!; [done..|]; intros d; apply digest_typed).
  subst p. pose proof (start_calls_typed ops s Hs) as Hstart. revert Hstart.
  generalize (start_calls s ops). induction schedule as [|i l IH]; intros p Hp; [done|].
  apply IH. by apply pool_step_typed.
Qed.
End pool_typed.

Section typed_instance.
#[local] Existing Instances boringssl boringssl_spec.
#[local] Instance typed_fuel : WriteFuel := 5000%nat.

(** A write and a change of size on a storage that serves what it likes. *)
Lemma editor_state_typed_witness :
  let p := run_pool (bm := release) demo_tampered
             (start_calls (MerkleLeaves.new, tt) [WriteAt (ones 10) 4090; Resize 4093])
             [0; 1; 0; 0]%nat in
  tree_typed (shared p).1 ∧
  Forall2 thread_typed [WriteAt (ones 10) 4090; Resize 4093] (threads p) ∧
  ∀ d, (VerifiedFileEditor.calculate_fsverity_digest (bm := release) demo_tampered (shared p)).1 =
         Ok d → length d = hsz.
Proof.
  apply (editor_state_typed (bm := release) demo_tampered (MerkleLeaves.new, tt)
    [WriteAt (ones 10) 4090; Resize 4093] [0; 1; 0; 0]%nat).
  - split; [constructor|unfold is_u64; simpl; lia].
  - repeat constructor; unfold is_u64; simpl; lia.
Defined.
End typed_instance.
