(* ===== verification/Testing.v ===== *)
(** * Unit tests as computations

    What the translated test modules share: a test runs in the state monad, a
    failed assertion panics, and the test passes when it returns. *)
From S2P Require Import Prelude RustInt.

Definition assert_eq {W E A} `{!EqDecision A} (left right : A) : M W E unit :=
  lift (rassert (bool_decide (left = right))).
Definition assert {W E} (cond : bool) : M W E unit := lift (rassert cond).
(** [r.is_err()] and [r.is_ok()] *)
Definition is_err {W E E' A} (m : M W E A) : M W E' bool := λ w,
  let '(r, w) := m w in
  (match r with Ok _ => Ok false | Err _ => Ok true | Panic => Panic | OutOfFuel => OutOfFuel end, w).
Definition is_ok {W E E' A} (m : M W E A) : M W E' bool := b ← is_err m; mret (negb b).

(** [r.unwrap()] and [assert!(r.is_ok())]: an error is a panic. *)
Definition expect_ok {E E' A} (m : outcome E A) : outcome E' A :=
  match m with Ok a => Ok a | Err _ => Panic | Panic => Panic | OutOfFuel => OutOfFuel end.

(** [[x; n]] *)
Definition bytes (x n : Z) : list byte := replicate (Z.to_nat n) (byte_of_Z x).

(** The test, started in [w], returns. *)
Definition passes {W E} (w : W) (test : M W E unit) : bool :=
  match (test w).1 with Ok _ => true | _ => false end.

Lemma assert_holds {W E} (cond : bool) (w : W) : cond = true → assert (E := E) cond w = (Ok tt, w).
Proof. by intros ->. Qed.
Lemma assert_eq_holds {W E A} `{!EqDecision A} (left right : A) (w : W) :
  left = right → assert_eq (E := E) left right w = (Ok tt, w).
Proof. intros ->. unfold assert_eq. by rewrite bool_decide_eq_true_2. Qed.
