(* ===== verification/RemoteFile.v ===== *)
(** * Remote files (authfs/src/file/remote_file.rs)

    The readers and the editor that forward to a file-descriptor service.
    They obey the buffer discipline for any service; over an honest
    [FdService] they are honest storage, which connects the writer's and the
    reader's theorems to the server's. *)
From S2P Require Import Prelude RustInt Crypto Common Fsverity Merkle Builder File Os FdServer.
From S2P Require Import Editor Verifier VerifierProps.

Section remote.
Context {W S : Type} `{!IVirtFdService W S}.

(** [io::Error::new(Other, e.get_description())] *)
Definition status_io (_ : Status) : io_error := KindError Other.

(** [let size = min(buf.len(), chunk.len()); buf[..size].copy_from_slice(&chunk[..size])] *)
Definition copy_chunk (chunk buf : list byte) : Z * list byte :=
  let size := Z.min (zlen buf) (zlen chunk) in
  (size, copy_prefix (Z.to_nat size) chunk buf).

Definition remote_read_chunk (service : S) (remote_fd chunk_index : Z) (buf : list byte)
    : M W io_error (Z * list byte) :=
  offset ← lift (u64_mul chunk_index CHUNK_SIZE);
  offset ← lift (i64_try_from (OsError EOVERFLOW) offset);
  chunk ← m_map_err status_io (readFile service remote_fd offset (as_i32 (zlen buf)));
  mret (copy_chunk chunk buf).
End remote.

Record RemoteFileReader (S : Type) := { reader_service : S; reader_fd : Z }.
Record RemoteMerkleTreeReader (S : Type) := { tree_service : S; tree_fd : Z }.
Record RemoteFileEditor (S : Type) := { editor_service : S; editor_fd : Z }.
Arguments reader_service {S} _.
Arguments reader_fd {S} _.
Arguments tree_service {S} _.
Arguments tree_fd {S} _.
Arguments editor_service {S} _.
Arguments editor_fd {S} _.

#[global] Instance RemoteFileReader_read {W S} `{!IVirtFdService W S}
  : ReadByChunk W (RemoteFileReader S) :=
  λ self chunk_index buf, remote_read_chunk (reader_service self) (reader_fd self) chunk_index buf.

#[global] Instance RemoteMerkleTreeReader_read {W S} `{!IVirtFdService W S}
  : ReadByChunk W (RemoteMerkleTreeReader S) :=
  λ self chunk_index buf,
    offset ← lift (u64_mul chunk_index CHUNK_SIZE);
    offset ← lift (i64_try_from (OsError EOVERFLOW) offset);
    chunk ← m_map_err status_io
      (readFsverityMerkleTree (tree_service self) (tree_fd self) offset (as_i32 (zlen buf)));
    mret (copy_chunk chunk buf).

#[global] Instance RemoteFileEditor_read {W S} `{!IVirtFdService W S}
  : ReadByChunk W (RemoteFileEditor S) :=
  λ self chunk_index buf, remote_read_chunk (editor_service self) (editor_fd self) chunk_index buf.

#[global] Instance RemoteFileEditor_write {W S} `{!IVirtFdService W S}
  : RandomWrite W (RemoteFileEditor S) := {|
  write_at self buf offset :=
    offset ← lift (i64_try_from (OsError EOVERFLOW) offset);
    size ← m_map_err status_io (writeFile (editor_service self) (editor_fd self) buf offset);
    mret (as_u64 size);
  resize self size :=
    size ← lift (i64_try_from (OsError EOVERFLOW) size);
    m_map_err status_io (service_resize (editor_service self) (editor_fd self) size);;
    mret tt;
|}.

(** ** Any service *)
Section any_service.
Context {W S : Type} `{!IVirtFdService W S}.

Lemma copy_chunk_prefix chunk buf :
  length buf = csz →
  ∃ data, zlen data = (copy_chunk chunk buf).1 ∧ (length data ≤ csz)%nat ∧
          (copy_chunk chunk buf).2 = data ++ drop (length data) buf.
Proof.
  intros Hl. exists (take (length buf `min` length chunk) chunk). unfold copy_chunk, copy_prefix. simpl.
  rewrite length_take. replace (Z.to_nat (zlen buf `min` zlen chunk)) with (length buf `min` length chunk)%nat by lia.
  split_and!; [lia..|]. do 2 f_equal. lia.
Qed.

#[global] Instance RemoteFileReader_buffer : BufferReader W (RemoteFileReader S).
Proof.
  intros f i buf w size buf' w' Hl Hr. unfold read_chunk, RemoteFileReader_read in Hr.
  unfold remote_read_chunk in Hr. inv_bind.
  apply (copy_chunk_prefix _ buf Hl).
Qed.

#[global] Instance RemoteFileEditor_buffer : BufferReader W (RemoteFileEditor S).
Proof.
  intros f. exact (RemoteFileReader_buffer {| reader_service := editor_service f; reader_fd := editor_fd f |}).
Qed.

#[global] Instance RemoteMerkleTreeReader_buffer : BufferReader W (RemoteMerkleTreeReader S).
Proof.
  intros f i buf w size buf' w' Hl Hr. unfold read_chunk, RemoteMerkleTreeReader_read in Hr.
  inv_bind.
  apply (copy_chunk_prefix _ buf Hl).
Qed.
End any_service.

(** ** An honest server *)
Section honest_server.
Context {bm : BuildMode} `{!VerityIoctl file_table}.

Definition remote_content (service : FdService) (fd : Z) (t : file_table) : option (list byte) :=
  config ← fd_pool service !! fd; t !! config_file config.
Definition remote_reader_content (f : RemoteFileReader FdService) : file_table → option (list byte) :=
  remote_content (reader_service f) (reader_fd f).

(** The Merkle tree is served when it was given in a file of its own. *)
Definition remote_tree_content (f : RemoteMerkleTreeReader FdService) (t : file_table)
    : option (list byte) :=
  config ← fd_pool (tree_service f) !! tree_fd f;
  match config with
  | Readonly _ (Some tree) _ => t !! tree
  | _ => None
  end.

(** A file that is open for writing. *)
Definition remote_editor_content (f : RemoteFileEditor FdService) (t : file_table)
    : option (list byte) :=
  config ← fd_pool (editor_service f) !! editor_fd f;
  match config with
  | ReadWrite file => t !! file
  | Readonly _ _ _ => None
  end.

Lemma copy_chunk_exact chunk buf :
  (length chunk ≤ length buf)%nat → copy_chunk chunk buf = (zlen chunk, copy_prefix (length chunk) chunk buf).
Proof. intros Hl. unfold copy_chunk. rewrite Z.min_r, Nat2Z.id by lia. done. Qed.

Lemma remote_read_chunk_honest service fd i buf t c :
  remote_content service fd t = Some c →
  length buf = csz → 0 ≤ i → i * CHUNK_SIZE ≤ i64_max →
  let chunk := take csz (drop (Z.to_nat i * csz) c) in
  remote_read_chunk service fd i buf t =
    (Ok (zlen chunk, copy_prefix (length chunk) chunk buf), t).
Proof.
  intros Hc Hl Hi Hmax chunk. unfold remote_content in Hc.
  destruct (fd_pool service !! fd) as [config|] eqn:Hpool; [|done]. simpl in Hc.
  unfold remote_read_chunk. rewrite u64_mul_Ok, bind_lift_Ok by lia.
  rewrite i64_try_from_Ok, bind_lift_Ok by lia. rewrite as_i32_small by lia.
  erewrite M_bind_Ok by (unfold m_map_err, readFile, FdService_service; rewrite readFile_table;
    unfold MAX_REQUESTING_DATA; rewrite !(proj2 (Z.ltb_ge _ _)) by lia; simpl;
    rewrite Hpool, Hc; done).
  replace (Z.to_nat (zlen buf)) with csz by lia.
  replace (Z.to_nat (i * CHUNK_SIZE)) with (Z.to_nat i * csz)%nat by lia.
  fold chunk. unfold mret, M_ret. rewrite copy_chunk_exact; [done|].
  subst chunk. rewrite length_take. lia.
Qed.

#[global] Instance RemoteFileReader_honest
  : HonestReader file_table (RemoteFileReader FdService) remote_reader_content.
Proof. intros f i buf t c Hc Hl Hi Hmax Hr. apply remote_read_chunk_honest; done || lia. Qed.

Lemma remote_editor_content_read f t c :
  remote_editor_content f t = Some c → remote_content (editor_service f) (editor_fd f) t = Some c.
Proof.
  unfold remote_editor_content, remote_content. destruct (_ !! _) as [[]|]; [done..].
Qed.

#[global] Instance RemoteFileEditor_honest_read
  : HonestReader file_table (RemoteFileEditor FdService) remote_editor_content.
Proof.
  intros f i buf t c Hc%remote_editor_content_read Hl Hi Hmax Hr.
  apply remote_read_chunk_honest; done || lia.
Qed.

(** The server answers a read beyond the end with no bytes. *)
#[global] Instance RemoteFileEditor_beyond
  : ReadsNothingBeyond file_table (RemoteFileEditor FdService) remote_editor_content.
Proof.
  intros f i buf t c Hc%remote_editor_content_read Hl Hi Hmax Hr.
  unfold read_chunk, RemoteFileEditor_read.
  rewrite (remote_read_chunk_honest _ _ _ _ _ c) by done. by rewrite drop_ge by lia.
Qed.

#[global] Instance RemoteMerkleTreeReader_honest
  : HonestReader file_table (RemoteMerkleTreeReader FdService) remote_tree_content.
Proof.
  intros f i buf t c Hc Hl Hi Hmax Hr chunk. unfold remote_tree_content in Hc.
  destruct (fd_pool (tree_service f) !! tree_fd f) as [[file [tree|] sig|]|] eqn:Hpool; try done.
  simpl in Hc. unfold read_chunk, RemoteMerkleTreeReader_read.
  rewrite u64_mul_Ok, bind_lift_Ok by lia.
  rewrite i64_try_from_Ok, bind_lift_Ok by lia. rewrite as_i32_small by lia.
  assert (FdService.readFsverityMerkleTree (tree_service f) (tree_fd f) (i * CHUNK_SIZE) (zlen buf) t
    = (Ok chunk, t)) as Hread.
  { unfold FdService.readFsverityMerkleTree, validate_and_cast_size, validate_and_cast_offset.
    unfold MAX_REQUESTING_DATA. rewrite (proj2 (Z.ltb_ge _ _)) by lia.
    rewrite !unsigned_try_from_Ok, !bind_lift_Ok by lia.
    unfold FdService.get_file_config. rewrite Hpool. simpl. rewrite bind_lift_Ok.
    unfold m_map_err. rewrite read_into_buf_table, Hc by lia. simpl. subst chunk. repeat f_equal; lia. }
  erewrite M_bind_Ok by (unfold m_map_err, readFsverityMerkleTree, FdService_service;
    rewrite Hread; done).
  unfold mret, M_ret. rewrite copy_chunk_exact; [done|]. subst chunk. rewrite length_take. lia.
Qed.

(** The same file with the rest of the table as it was in [t0]: what is proved of an editor over
    this content changes no other file. *)
Definition framed_content (t0 : file_table) (f : RemoteFileEditor FdService) (t : file_table)
    : option (list byte) :=
  config ← fd_pool (editor_service f) !! editor_fd f;
  match config with
  | ReadWrite file => c ← t !! file; if decide (t = <[file := c]> t0) then Some c else None
  | Readonly _ _ _ => None
  end.

Lemma framed_content_Some t0 f t c :
  framed_content t0 f t = Some c ↔
  ∃ file, fd_pool (editor_service f) !! editor_fd f = Some (ReadWrite file) ∧ t = <[file := c]> t0.
Proof.
  unfold framed_content. destruct (fd_pool (editor_service f) !! editor_fd f) as [[|file]|]; simpl;
    [split; [done|by intros (? & ? & _)]| |split; [done|by intros (? & ? & _)]].
  split.
  - destruct (t !! file) as [c'|] eqn:Hc; [|done]. simpl. case_decide; [|done].
    intros [= ->]. by exists file.
  - intros (? & [= <-] & ->). rewrite lookup_insert_eq. simpl. by rewrite decide_True.
Qed.

Lemma framed_content_weaken t0 f t c :
  framed_content t0 f t = Some c → remote_editor_content f t = Some c.
Proof.
  intros (file & Hp & ->)%framed_content_Some. unfold remote_editor_content.
  rewrite Hp. apply lookup_insert_eq.
Qed.
Lemma framed_content_self f t c :
  remote_editor_content f t = Some c → framed_content t f t = Some c.
Proof.
  unfold remote_editor_content. intros Hc. apply framed_content_Some.
  destruct (fd_pool (editor_service f) !! editor_fd f) as [[|file]|]; try done.
  exists file. split; [done|]. by rewrite insert_id.
Qed.

#[global] Instance RemoteFileEditor_framed_read t0
  : HonestReader file_table (RemoteFileEditor FdService) (framed_content t0).
Proof. intros f i buf t c Hc%framed_content_weaken. by apply RemoteFileEditor_honest_read. Qed.

#[global] Instance RemoteFileEditor_framed_write t0
  : HonestWriter file_table (RemoteFileEditor FdService) (framed_content t0).
Proof.
  split.
  - intros f buf off t c (file & Hpool & ->)%framed_content_Some Hne Hsz Ho Hlim.
    assert (0 < length buf)%nat by (destruct buf; [done|simpl; lia]).
    exists (length buf). eexists. simpl. rewrite i64_try_from_Ok, bind_lift_Ok by lia.
    split; [|split; [lia|]].
    + erewrite M_bind_Ok by (unfold m_map_err; rewrite writeFile_table, Hpool;
        rewrite !(proj2 (Z.ltb_ge _ _)) by lia; simpl; rewrite lookup_insert_eq; done).
      unfold mret, M_ret, as_u64. by rewrite Z.mod_small by lia.
    + rewrite firstn_all. apply framed_content_Some. exists file. by rewrite insert_insert_eq.
  - intros f n t c (file & Hpool & ->)%framed_content_Some Hn.
    eexists. simpl. rewrite i64_try_from_Ok, bind_lift_Ok by lia. split.
    + erewrite M_bind_Ok by (unfold m_map_err; rewrite resize_table, Hpool;
        rewrite (proj2 (Z.ltb_ge _ _)) by lia; rewrite lookup_insert_eq; done). done.
    + apply framed_content_Some. exists file. by rewrite insert_insert_eq.
Qed.

#[global] Instance RemoteFileEditor_honest_write
  : HonestWriter file_table (RemoteFileEditor FdService) remote_editor_content.
Proof.
  split.
  - intros f buf off t c Hc%framed_content_self Hne Hsz Ho Hlim.
    destruct (write_at_honest (content := framed_content t) f buf off t c) as (n & t' & Hw & Hn & Hc');
      [done..|]. exists n, t'. eauto using framed_content_weaken.
  - intros f n t c Hc%framed_content_self Hn.
    destruct (resize_honest (content := framed_content t) f n t c) as (t' & Hr & Hc'); [done..|].
    exists t'. eauto using framed_content_weaken.
Qed.
End honest_server.

(** ** Claims *)
Section claims.
Context `{!Sha256FFI, !Sha256Spec}.

(** C7: The writer, the remote file and the server together implement a file.  A new file edited
    through the service ends with the contents a plain byte array would have, in the server's
    file, and the digest computed in the trusted world is the fs-verity digest of these
    contents. *)
Theorem remote_editor_end_to_end {bm : BuildMode} {wf : WriteFuel} `{!VerityIoctl file_table}
    service fd file ops (t : file_table) :
  (csz < write_fuel)%nat → Forall op_in_range ops →
  fd_pool service !! fd = Some (ReadWrite file) → t !! file = Some [] →
  let remote := {| editor_service := service; editor_fd := fd |} in
  let ed := (VerifiedFileEditor.new remote).1 in
  let c := foldl spec_op [] ops in
  let run := mfold (run_op (bm := release) ed) tt ops ((VerifiedFileEditor.new remote).2, t) in
  ∃ s', run = (Ok tt, s') ∧ s'.2 !! file = Some c ∧
    VerifiedFileEditor.calculate_fsverity_digest (bm := release) ed s' = (Ok (fsverity_digest c), s').
Proof.
  intros Hfuel Hops Hpool Hf remote ed c run.
  destruct (run_ops_digest (remote_editor_content) remote ops t) as (s' & Hrun & Hc & _ & Hd);
    [done..| |].
  - unfold remote_editor_content. simpl. by rewrite Hpool.
  - exists s'. split; [exact Hrun|]. split; [|exact Hd].
    unfold remote_editor_content in Hc. simpl in Hc. by rewrite Hpool in Hc.
Qed.
End claims.

Section instances.
#[local] Existing Instances boringssl boringssl_spec release.
#[local] Instance no_fsverity : VerityIoctl file_table := λ _ _ _, throw 95.
#[local] Instance remote_fuel : WriteFuel := 5000%nat.

(** The demo contents and tree behind a server that was given both files. *)
Definition demo_service : FdService :=
  {| fd_pool := <[7 := ReadWrite 7]> {[1 := Readonly 1 (Some 2) None]} |}.
Definition demo_remote : VerifiedFileReader (RemoteFileReader FdService) (RemoteMerkleTreeReader FdService) :=
  Build_VerifiedFileReader {| reader_service := demo_service; reader_fd := 1 |} (zlen demo)
    {| tree_service := demo_service; tree_fd := 1 |} (verity_root demo).

Lemma demo_remote_tree :
  remote_tree_content {| tree_service := demo_service; tree_fd := 1 |} demo_table =
    Some (merkle_tree_bytes demo 0).
Proof.
  unfold remote_tree_content. cbn [tree_service tree_fd demo_service fd_pool].
  rewrite lookup_insert_ne, lookup_singleton_eq by done. cbn [mbind option_bind].
  unfold demo_table. rewrite lookup_insert_ne by done. apply lookup_insert_eq.
Qed.

Lemma remote_editor_end_to_end_witness :
  let ops := [WriteAt [Byte.x01; Byte.x02] 4095; Resize 4096] in
  let remote := {| editor_service := demo_service; editor_fd := 7 |} in
  let ed := (VerifiedFileEditor.new remote).1 in
  let c := foldl spec_op [] ops in
  let run := mfold (run_op ed) tt ops ((VerifiedFileEditor.new remote).2, {[7 := []]}) in
  ∃ s', run = (Ok tt, s') ∧ s'.2 !! 7 = Some c ∧
    VerifiedFileEditor.calculate_fsverity_digest ed s' = (Ok (fsverity_digest c), s').
Proof.
  intros ops. apply (remote_editor_end_to_end demo_service 7 7 ops {[7 := []]}).
  - unfold write_fuel, remote_fuel. lia.
  - repeat constructor; simpl; lia.
  - reflexivity.
  - reflexivity.
Defined.
End instances.
