(* ===== verification/AuthFs.v ===== *)
(** * The FUSE file system (authfs/src/fusefs.rs)

    [AuthFs] exposes a fixed pool of files by number.  Its state is the world
    of the backing files and, for every new file, the lock-protected tree of
    its editor. *)
From S2P Require Import Prelude RustInt Crypto Common Fsverity Merkle Builder File Os Fuse.
From S2P Require Import FdServer LocalFile Verifier Editor RemoteFile.

(** ** Constants and data *)
Definition O_ACCMODE : Z := 3.
Definition O_RDONLY : Z := 0.
Definition DEFAULT_METADATA_TIMEOUT : Z := duration 5 0.

Inductive FileConfig (S : Type) :=
| LocalVerifiedReadonlyFile (reader : VerifiedFileReader LocalFileReader LocalFileReader) (file_size : Z)
| LocalUnverifiedReadonlyFile (reader : LocalFileReader) (file_size : Z)
| RemoteVerifiedReadonlyFile
    (reader : VerifiedFileReader (RemoteFileReader S) (RemoteMerkleTreeReader S)) (file_size : Z)
| RemoteUnverifiedReadonlyFile (reader : RemoteFileReader S) (file_size : Z)
| RemoteVerifiedNewFile (editor : VerifiedFileEditor (RemoteFileEditor S)).
Arguments LocalVerifiedReadonlyFile {S} _ _.
Arguments LocalUnverifiedReadonlyFile {S} _ _.
Arguments RemoteVerifiedReadonlyFile {S} _ _.
Arguments RemoteUnverifiedReadonlyFile {S} _ _.
Arguments RemoteVerifiedNewFile {S} _.

Record AuthFs (S : Type) := {
  file_pool : gmap Z (FileConfig S);
  max_write : Z;
}.
Arguments file_pool {S} _.
Arguments max_write {S} _.

Inductive FileMode := ReadOnlyMode | ReadWriteMode.

(** The flags of [fuse::filesystem::SetattrValid]. *)
Record SetattrValid := {
  valid_MODE : bool; valid_UID : bool; valid_GID : bool; valid_SIZE : bool;
  valid_ATIME : bool; valid_MTIME : bool; valid_ATIME_NOW : bool; valid_MTIME_NOW : bool;
  valid_CTIME : bool;
}.

(** ** Free functions *)
Definition check_access_mode (flags mode : Z) : outcome io_error unit :=
  if Z.land flags O_ACCMODE =? mode then Ok tt else Err (OsError EACCES).

Definition blk_size : Z := CHUNK_SIZE.

Definition create_stat (ino file_size : Z) (file_mode : FileMode) : outcome io_error stat64 :=
  let mode := match file_mode with
              | ReadOnlyMode => Z.lor S_IFREG S_IRUSR
              | ReadWriteMode => Z.lor (Z.lor S_IFREG S_IRUSR) S_IWUSR
              end in
  size ← i64_try_from (OsError EFBIG) file_size;
  blocks ← divide_roundup file_size 512;
  blocks ← i64_try_from (OsError EFBIG) blocks;
  Ok {| st_ino := ino; st_mode := mode; st_dev := 0; st_nlink := 1; st_uid := 0; st_gid := 0;
        st_rdev := 0; st_size := size; st_blksize := blk_size; st_blocks := blocks |}.

Definition offset_to_chunk_index (offset : Z) : Z := offset / CHUNK_SIZE.

Section read_chunks.
Context {W O T : Type} `{!ReadByChunk W T, !Write O}.

(** The destination and the storage's world. *)
Definition on_sink {E A} : M O E A → M (O * W) E A := zoom fst (λ o s, (o, s.2)).
Definition on_world {E A} : M W E A → M (O * W) E A := zoom snd (λ w s, (s.1, w)).

Definition read_piece (file : T) (total : Z) (piece : Z * Z) : M (O * W) io_error Z :=
  let '(current_offset, planned_data_size) := piece in
  '(read_size, buf) ← on_world
    (read_chunk file (offset_to_chunk_index current_offset) (zeros CHUNK_SIZE));
  if read_size <? planned_data_size then throw (OsError ENODATA)
  else
    let start := current_offset `mod` CHUNK_SIZE in
    fin ← lift (u64_add start planned_data_size);
    bytes ← lift (slice buf start fin);
    s ← on_sink (write bytes);
    if negb (s =? planned_data_size) then throw (OsError EIO)
    else lift (u64_add total s).

Definition read_chunks (file : T) (file_size offset size : Z) : M (O * W) io_error Z :=
  let remaining := saturating_sub file_size offset in
  let size_to_read := Z.min size remaining in
  ChunkedSizeIter.try_fold (ChunkedSizeIter.new size_to_read offset CHUNK_SIZE) 0 (read_piece file).
End read_chunks.

(** ** The file system *)

(** The trees of the new files, by inode, and the world of the backends. *)
Definition fs_state (W : Type) : Type := gmap Z MerkleLeaves * W.

Module AuthFs.
Section impl.
Context `{!Sha256FFI} {bm : BuildMode} {wf : WriteFuel} {W S O : Type}.
Context `{!FileOps W, !IVirtFdService W S, !Write O}.

Definition new (file_pool : gmap Z (FileConfig S)) (max_write : Z) : AuthFs S :=
  {| file_pool := file_pool; max_write := max_write |}.

Definition get_file_config (self : AuthFs S) (inode : Z) : outcome io_error (FileConfig S) :=
  ok_or (file_pool self !! inode) (OsError ENOENT).

(** Runs a method of the editor of [inode] on its tree. *)
Definition tree_of (inode : Z) (st : fs_state W) : MerkleLeaves := default MerkleLeaves.new (st.1 !! inode).
Definition with_editor {E A} (inode : Z) (m : M (MerkleLeaves * W) E A) : M (fs_state W) E A :=
  zoom (λ st, (tree_of inode st, st.2)) (λ s st, (<[inode := s.1]> st.1, s.2)) m.

Definition max_buffer_size (self : AuthFs S) : Z := max_write self.

(** [init] asks for the write-back cache. *)
Definition init (self : AuthFs S) : outcome io_error FsOptions := Ok [WRITEBACK_CACHE].

Definition lookup (self : AuthFs S) (parent : Z) (name : string) : M (fs_state W) io_error Entry :=
  num ← lift (if is_utf8 name then Ok name else Err (OsError EINVAL));
  inode ← lift (ok_or (parse_u64 num) (OsError ENOENT));
  config ← lift (get_file_config self inode);
  st ← match config with
       | LocalVerifiedReadonlyFile _ file_size
       | LocalUnverifiedReadonlyFile _ file_size
       | RemoteUnverifiedReadonlyFile _ file_size
       | RemoteVerifiedReadonlyFile _ file_size => lift (create_stat inode file_size ReadOnlyMode)
       | RemoteVerifiedNewFile editor =>
           size ← with_editor inode (VerifiedFileEditor.size editor);
           lift (create_stat inode size ReadWriteMode)
       end;
  mret {| entry_inode := inode; generation := 0; attr := st;
          entry_timeout := DEFAULT_METADATA_TIMEOUT; attr_timeout := DEFAULT_METADATA_TIMEOUT |}.

Definition getattr (self : AuthFs S) (inode : Z) : M (fs_state W) io_error (stat64 * Z) :=
  config ← lift (get_file_config self inode);
  st ← match config with
       | LocalVerifiedReadonlyFile _ file_size
       | LocalUnverifiedReadonlyFile _ file_size
       | RemoteUnverifiedReadonlyFile _ file_size
       | RemoteVerifiedReadonlyFile _ file_size => lift (create_stat inode file_size ReadOnlyMode)
       | RemoteVerifiedNewFile editor =>
           size ← with_editor inode (VerifiedFileEditor.size editor);
           lift (create_stat inode size ReadWriteMode)
       end;
  mret (st, DEFAULT_METADATA_TIMEOUT).

Definition open (self : AuthFs S) (inode flags : Z) : outcome io_error (option Z * OpenOptions) :=
  config ← get_file_config self inode;
  (match config with
   | LocalVerifiedReadonlyFile _ _
   | LocalUnverifiedReadonlyFile _ _
   | RemoteVerifiedReadonlyFile _ _
   | RemoteUnverifiedReadonlyFile _ _ => check_access_mode flags O_RDONLY
   | RemoteVerifiedNewFile _ => Ok tt
   end);;
  Ok (None, KEEP_CACHE).

(** [read_chunks] of a file whose world is the backends', and of an editor. *)
Definition read_plain {T} `{!ReadByChunk W T} (reader : T) (file_size offset size : Z)
    : M (O * fs_state W) io_error Z :=
  zoom (λ s, (s.1, s.2.2)) (λ p s, (p.1, (s.2.1, p.2))) (read_chunks reader file_size offset size).
Definition read_editor (inode : Z) (editor : VerifiedFileEditor (RemoteFileEditor S))
    (file_size offset size : Z) : M (O * fs_state W) io_error Z :=
  zoom (λ s, (s.1, (tree_of inode s.2, s.2.2)))
       (λ p s, (p.1, (<[inode := p.2.1]> s.2.1, p.2.2)))
       (read_chunks editor file_size offset size).

Definition read (self : AuthFs S) (inode size offset : Z) : M (O * fs_state W) io_error Z :=
  config ← lift (get_file_config self inode);
  match config with
  | LocalVerifiedReadonlyFile reader file_size => read_plain reader file_size offset size
  | LocalUnverifiedReadonlyFile reader file_size => read_plain reader file_size offset size
  | RemoteVerifiedReadonlyFile reader file_size => read_plain reader file_size offset size
  | RemoteUnverifiedReadonlyFile reader file_size => read_plain reader file_size offset size
  | RemoteVerifiedNewFile editor =>
      file_size ← zoom snd (λ st s, (s.1, st)) (with_editor inode (VerifiedFileEditor.size editor));
      read_editor inode editor file_size offset size
  end.

(** [r.read_exact(&mut buf)] of a buffer of [size] bytes. *)
Definition read_exact (r : list byte) (size : Z) : outcome io_error (list byte) :=
  if size <=? zlen r then Ok (take (Z.to_nat size) r) else Err (KindError UnexpectedEof).

Definition write (self : AuthFs S) (inode : Z) (r : list byte) (size offset : Z)
    : M (fs_state W) io_error Z :=
  config ← lift (get_file_config self inode);
  match config with
  | RemoteVerifiedNewFile editor =>
      buf ← lift (read_exact r size);
      with_editor inode (VerifiedFileEditor.write_at editor buf offset)
  | _ => throw (OsError EBADF)
  end.

Definition setattr (self : AuthFs S) (inode : Z) (attr : stat64) (valid : SetattrValid)
    : M (fs_state W) io_error (stat64 * Z) :=
  config ← lift (get_file_config self inode);
  match config with
  | RemoteVerifiedNewFile editor =>
      size ← with_editor inode (VerifiedFileEditor.size editor);
      new_attr ← lift (create_stat inode size ReadWriteMode);
      new_attr ←
        (if valid_SIZE valid
         then
           lift (debug_assert (Ok (0 <=? st_size attr)));;
           with_editor inode (VerifiedFileEditor.resize editor (as_u64 (st_size attr)));;
           mret {| st_ino := st_ino new_attr; st_mode := st_mode new_attr; st_dev := st_dev new_attr;
                   st_nlink := st_nlink new_attr; st_uid := st_uid new_attr;
                   st_gid := st_gid new_attr; st_rdev := st_rdev new_attr;
                   st_size := st_size attr; st_blksize := st_blksize new_attr;
                   st_blocks := st_blocks new_attr |}
         else mret new_attr);
      if valid_MODE valid then throw (OsError ENOSYS)
      else if valid_UID valid then throw (OsError ENOSYS)
      else if valid_GID valid then throw (OsError ENOSYS)
      else mret (new_attr, DEFAULT_METADATA_TIMEOUT)
  | _ => throw (OsError EBADF)
  end.
End impl.
End AuthFs.
