(* ===== verification/AuthFsProps.v ===== *)
(** * What the file system guarantees

    Reads return the bytes of a verified file for every storage, unless a block
    was read whose messages clash with those of the file, and on honest storage they succeed; read-only files
    cannot be changed; an operation on one file leaves the trees of the others
    alone; and what a read of a new file does not guarantee. *)
From S2P Require Import Prelude RustInt Crypto Common Fsverity Merkle Builder File Os Fuse.
From S2P Require Import FdServer LocalFile Verifier VerifierProps Editor EditorProps.
From S2P Require Import RemoteFile AuthFs.

(** ** The loop of [read_chunks] *)
Section read_chunks_spec.
Context {W T : Type} `{!ReadByChunk W T}.
Implicit Types (c out : list byte).

(** The bytes a piece takes out of its block. *)
Lemma window_slice c o n :
  0 ≤ o → 0 < n ≤ CHUNK_SIZE - o `mod` CHUNK_SIZE → o + n ≤ zlen c →
  take (Z.to_nat n) (drop (Z.to_nat (o `mod` CHUNK_SIZE))
    (window c (Z.to_nat (o / CHUNK_SIZE) * csz) csz)) =
  take (Z.to_nat n) (drop (Z.to_nat o) c).
Proof.
  intros Ho Hn Hend. pose proof (Z.mod_pos_bound o CHUNK_SIZE ltac:(lia)).
  pose proof (Z.div_mod o CHUNK_SIZE ltac:(lia)).
  assert (0 ≤ o / CHUNK_SIZE) by (apply Z.div_pos; lia).
  apply byte_at_ext; [len|]. intros k Hk. rewrite !byte_at_take.
  case_decide; [|done]. rewrite !byte_at_drop, byte_at_window.
  rewrite decide_True by lia. f_equal. lia.
Qed.

Lemma take_drop_split c o n rem :
  0 ≤ o → 0 ≤ n ≤ rem →
  take (Z.to_nat n) (drop (Z.to_nat o) c) ++
    take (Z.to_nat (rem - n)) (drop (Z.to_nat (o + n)) c) =
  take (Z.to_nat rem) (drop (Z.to_nat o) c).
Proof.
  intros Ho Hn. replace (Z.to_nat (o + n)) with (Z.to_nat o + Z.to_nat n)%nat by lia.
  rewrite <- drop_drop, take_take_drop. f_equal. lia.
Qed.

(** The blocks a read of the pieces [l] asks for, each with the world it is read in. *)
Fixpoint block_reads (file : T) (l : list (Z * Z)) (w : W) : list (Z * W) :=
  match l with
  | [] => []
  | (o, _) :: l =>
      let i := o / CHUNK_SIZE in
      (i, w) :: block_reads file l (read_chunk file i (zeros CHUNK_SIZE) w).2
  end.

(** What is accepted block by block is accepted as a whole; [Bad] is the event
    that lets a wrong block through. *)
Lemma read_pieces_sound (Bad : Z → W → Prop) (file : T) c o rem l total out w total' out' w' :
  (∀ idx w n buf w', 0 ≤ idx → idx * CHUNK_SIZE < zlen c →
     read_chunk file idx (zeros CHUNK_SIZE) w = (Ok (n, buf), w') →
     buf = window c (Z.to_nat idx * csz) csz ∨ Bad idx w) →
  chunking CHUNK_SIZE o rem l → 0 ≤ o → 0 ≤ rem → o + rem ≤ zlen c →
  mfold (read_piece file) total l (out, w) = (Ok total', (out', w')) →
  (total' = total + rem ∧ out' = out ++ take (Z.to_nat rem) (drop (Z.to_nat o) c)) ∨
  Exists (λ '(i, w), Bad i w) (block_reads file l w).
Proof.
  intros Hblock Hc. revert total out w.
  induction Hc as [o|o rem l n Hrem Hn Hc IH]; intros total out w Ho Hr Hend Hf.
  { simpl in Hf. inv_bind. left. rewrite app_nil_r. split; [lia|done]. }
  pose proof (Z.mod_pos_bound o CHUNK_SIZE ltac:(lia)).
  pose proof (Z.div_mod o CHUNK_SIZE ltac:(lia)).
  assert (0 ≤ o / CHUNK_SIZE) by (apply Z.div_pos; lia).
  assert (0 < n ≤ CHUNK_SIZE - o `mod` CHUNK_SIZE ∧ n ≤ rem) as Hpiece by lia. clear Hn.
  cbn [mfold] in Hf. apply M_bind_Ok_inv in Hf as (t1 & [out1 w1] & Hp & Hf).
  assert (o - (CHUNK_SIZE * (o / CHUNK_SIZE) + o `mod` CHUNK_SIZE) = 0) by lia.
  unfold read_piece in Hp. apply M_bind_Ok_inv in Hp as ([rs buf] & [out2 w2] & Hrd & Hp).
  unfold on_world, zoom in Hrd. destruct (read_chunk _ _ _ _) as [r wr] eqn:Hread in Hrd.
  simpl in Hrd. simplify_eq. destruct (rs <? n); [done|]. inv_bind.
  unfold offset_to_chunk_index in *. cbn [block_reads]. cbn [snd] in Hread. rewrite Hread. cbn [snd].
  apply Hblock in Hread as [->|]; [|right; by apply Exists_cons_hd|done|lia].
  repeat match goal with
  | Hu : u64_add _ _ = Ok _ |- _ => apply u64_add_Ok_inv in Hu as [-> _]
  | Hs : slice _ _ _ = Ok _ |- _ => apply slice_Ok_inv in Hs as (_ & _ & _ & ->)
  end.
  unfold on_sink, zoom, write, Vec_write in *. simplify_eq/=.
  rewrite Z.add_simpl_l in *.
  rewrite window_slice in * by lia.
  destruct (negb _) eqn:Hneg; [done|]. apply negb_false_iff, Z.eqb_eq in Hneg.
  rewrite Hneg in *. unfold lift in Hp. injection Hp as Hp <- <-.
  apply u64_add_Ok_inv in Hp as [-> _].
  apply IH in Hf as [[-> ->]|]; [left|right; by apply Exists_cons_tl|lia..].
  split; [lia|]. rewrite <- (assoc_L (++)), take_drop_split by lia. done.
Qed.

Lemma read_pieces_honest (file : T) c o rem l total out w :
  (∀ idx, 0 ≤ idx → idx * CHUNK_SIZE < zlen c →
     read_chunk file idx (zeros CHUNK_SIZE) w =
       (Ok (zlen (take csz (drop (Z.to_nat idx * csz) c)), window c (Z.to_nat idx * csz) csz), w)) →
  chunking CHUNK_SIZE o rem l → 0 ≤ o → 0 ≤ rem → o + rem ≤ zlen c → 0 ≤ total →
  total + rem < u64_limit →
  mfold (read_piece file) total l (out, w) =
    (Ok (total + rem), (out ++ take (Z.to_nat rem) (drop (Z.to_nat o) c), w)).
Proof.
  intros Hblock Hc. revert total out.
  induction Hc as [o|o rem l n Hrem Hn Hc IH]; intros total out Ho Hr Hend Ht Hlim.
  { simpl. by rewrite app_nil_r, Z.add_0_r. }
  pose proof (Z.mod_pos_bound o CHUNK_SIZE ltac:(lia)).
  pose proof (Z.div_mod o CHUNK_SIZE ltac:(lia)).
  assert (0 ≤ o / CHUNK_SIZE) by (apply Z.div_pos; lia).
  assert (read_piece file total (o, n) (out, w) =
    (Ok (total + n), (out ++ take (Z.to_nat n) (drop (Z.to_nat o) c), w))) as Hp.
  { unfold read_piece, offset_to_chunk_index.
    erewrite M_bind_Ok by (unfold on_world, zoom; simpl; rewrite Hblock by lia; done).
    cbv beta iota. rewrite (proj2 (Z.ltb_ge _ _)) by (rewrite length_take, length_drop; lia).
    rewrite u64_add_Ok, bind_lift_Ok by lia.
    rewrite slice_Ok, bind_lift_Ok by (rewrite ?length_window; lia).
    rewrite Z.add_simpl_l, window_slice by lia.
    unfold mbind, M_bind, on_sink, zoom, write, Vec_write. simpl.
    rewrite length_take, length_drop. rewrite (proj2 (Z.eqb_eq _ _)) by lia. simpl.
    unfold lift. rewrite u64_add_Ok by lia. do 2 f_equal. lia. }
  cbn [mfold]. rewrite (M_bind_Ok _ _ _ _ _ Hp), IH by lia.
  rewrite <- (assoc_L (++)), take_drop_split by lia. do 2 f_equal. lia.
Qed.

(** The number of bytes a read of [size] bytes at [offset] is meant to give. *)
Definition bytes_to_read (file_size offset size : Z) : Z :=
  Z.min size (saturating_sub file_size offset).

Lemma read_chunks_sound (Bad : Z → W → Prop) (file : T) c offset size out w n out' w' :
  (∀ idx w n buf w', 0 ≤ idx → idx * CHUNK_SIZE < zlen c →
     read_chunk file idx (zeros CHUNK_SIZE) w = (Ok (n, buf), w') →
     buf = window c (Z.to_nat idx * csz) csz ∨ Bad idx w) →
  0 ≤ offset < u64_limit → 0 ≤ size < u32_limit → zlen c < u64_limit →
  read_chunks file (zlen c) offset size (out, w) = (Ok n, (out', w')) →
  (n = bytes_to_read (zlen c) offset size ∧
   out' = out ++ take (Z.to_nat n) (drop (Z.to_nat offset) c)) ∨
  Exists (λ '(i, w), Bad i w) (block_reads file (pieces offset (bytes_to_read (zlen c) offset size)) w).
Proof.
  intros Hblock Ho Hs Hc Hr. unfold read_chunks in Hr. fold (bytes_to_read (zlen c) offset size) in Hr.
  unfold bytes_to_read, saturating_sub in *. destruct (decide (offset < zlen c)) as [Hin|Hout].
  - destruct (pieces_spec offset (Z.min size (Z.max 0 (zlen c - offset))))
      as (Hch & Hf); [lia..|]. rewrite Hf in Hr.
    destruct (read_pieces_sound Bad file c offset _ _ _ _ _ _ _ _ Hblock Hch ltac:(lia) ltac:(lia)
      ltac:(lia) Hr) as [[Hn Hout]|]; [left|by right].
    rewrite Z.add_0_l in Hn. by subst n.
  - rewrite Z.max_l, Z.min_r in * by lia. left.
    unfold ChunkedSizeIter.try_fold in Hr. simpl in Hr.
    unfold mbind, M_bind, lift, ChunkedSizeIter.next in Hr. simpl in Hr. inv_bind.
    by rewrite app_nil_r.
Qed.

Lemma read_chunks_honest (file : T) c offset size out w :
  (∀ idx, 0 ≤ idx → idx * CHUNK_SIZE < zlen c →
     read_chunk file idx (zeros CHUNK_SIZE) w =
       (Ok (zlen (take csz (drop (Z.to_nat idx * csz) c)), window c (Z.to_nat idx * csz) csz), w)) →
  0 ≤ offset < u64_limit → 0 ≤ size < u32_limit → zlen c < u64_limit →
  let n := bytes_to_read (zlen c) offset size in
  read_chunks file (zlen c) offset size (out, w) =
    (Ok n, (out ++ take (Z.to_nat n) (drop (Z.to_nat offset) c), w)).
Proof.
  intros Hblock Ho Hs Hc n. unfold read_chunks. fold (bytes_to_read (zlen c) offset size). fold n.
  assert (n = bytes_to_read (zlen c) offset size) as Hn by done. clearbody n.
  unfold bytes_to_read, saturating_sub in Hn. destruct (decide (offset < zlen c)) as [Hin|Hout].
  - destruct (try_fold_ranges CHUNK_SIZE ltac:(lia) offset n) as (l & Hch & Hf); [lia..|].
    rewrite Hf. by rewrite (read_pieces_honest file c offset n l) by (done || lia).
  - assert (n = 0) as -> by lia. unfold ChunkedSizeIter.try_fold. simpl. by rewrite app_nil_r.
Qed.
End read_chunks_spec.

(** ** Blocks of the file kinds *)
Section blocks.
Context `{!Sha256FFI, !Sha256Spec}.

(** A read of block [idx] in the world [w] hashes something that clashes with [c]. *)
Definition block_read_clash {W F T} `{!ReadByChunk W F, !ReadByChunk W T}
    (r : VerifiedFileReader F T) (c : list byte) (idx : Z) (w : W) : Prop :=
  clash (path_messages c idx) (run_messages r idx (zeros CHUNK_SIZE) w).

(** A verified reader hands out right blocks, or what it hashed clashes. *)
Lemma verified_block {W F T} `{!ReadByChunk W F, !ReadByChunk W T, !BufferReader W F, !BufferReader W T}
    (r : VerifiedFileReader F T) c idx (w : W) n buf w' :
  authenticates r c → 0 ≤ idx → idx * CHUNK_SIZE < zlen c →
  read_chunk r idx (zeros CHUNK_SIZE) w = (Ok (n, buf), w') →
  buf = window c (Z.to_nat idx * csz) csz ∨ block_read_clash r c idx w.
Proof.
  intros Ha Hi Hr Hread.
  destruct (read_chunk_accepted r c idx _ w n buf w' Ha Hi Hr length_zero_buffer Hread)
    as [(data & _ & -> & Hl & Hw)|]; [left|by right].
  by rewrite zero_buffer_prefix.
Qed.

(** Reading an editor is reading its storage. *)
#[global] Instance VerifiedFileEditor_honest {W F} `{!ReadByChunk W F} content
    `{!HonestReader W F content} :
  HonestReader (MerkleLeaves * W) (VerifiedFileEditor F) (λ ed s, content (editor_file ed) s.2).
Proof.
  intros ed i buf s c Hc Hl Hi Hmax Hr chunk.
  unfold read_chunk, VerifiedFileEditor_read_chunk, VerifiedFileEditor.read_chunk.
  erewrite on_file_Ok by (by apply (read_chunk_honest (content := content) _ _ _ _ c)).
  by destruct s.
Qed.
End blocks.

(** ** The attributes of a file *)
Section attributes.
Context {W S : Type} `{!FileOps W, !IVirtFdService W S}.

(** What the [match]es of [lookup] and of [getattr] do, each in its own copy. *)
Definition stat_of_config (inode : Z) (config : FileConfig S) : M (fs_state W) io_error stat64 :=
  match config with
  | LocalVerifiedReadonlyFile _ file_size
  | LocalUnverifiedReadonlyFile _ file_size
  | RemoteUnverifiedReadonlyFile _ file_size
  | RemoteVerifiedReadonlyFile _ file_size => lift (create_stat inode file_size ReadOnlyMode)
  | RemoteVerifiedNewFile editor =>
      size ← AuthFs.with_editor inode (VerifiedFileEditor.size editor);
      lift (create_stat inode size ReadWriteMode)
  end.

Lemma lookup_stat (self : AuthFs S) parent name :
  AuthFs.lookup self parent name =
    (num ← lift (if is_utf8 name then Ok name else Err (OsError EINVAL));
     inode ← lift (ok_or (parse_u64 num) (OsError ENOENT));
     config ← lift (AuthFs.get_file_config self inode);
     st ← stat_of_config inode config;
     mret {| entry_inode := inode; generation := 0; attr := st;
             entry_timeout := DEFAULT_METADATA_TIMEOUT; attr_timeout := DEFAULT_METADATA_TIMEOUT |}).
Proof. reflexivity. Qed.

Lemma getattr_stat (self : AuthFs S) inode :
  AuthFs.getattr self inode =
    (config ← lift (AuthFs.get_file_config self inode);
     st ← stat_of_config inode config;
     mret (st, DEFAULT_METADATA_TIMEOUT)).
Proof. reflexivity. Qed.
End attributes.

(** ** Operations and the trees of other files *)
Section trees.
Context `{!Sha256FFI} {bm : BuildMode} {wf : WriteFuel} {W S : Type}.
Context `{!FileOps W, !IVirtFdService W S}.

(** An operation changes at most the tree of [inode]. *)
Definition touches_only {E A} (inode : Z) (m : M (fs_state W) E A) : Prop :=
  ∀ st j, j ≠ inode → (m st).2.1 !! j = st.1 !! j.

Lemma touches_bind {E A B} i (m : M (fs_state W) E A) (f : A → M (fs_state W) E B) :
  touches_only i m → (∀ a, touches_only i (f a)) → touches_only i (m ≫= f).
Proof.
  intros Hm Hf st j Hj. unfold mbind, M_bind. specialize (Hm st j Hj).
  destruct (m st) as [[a|e| |] st'] eqn:Hs; simpl in *; [by rewrite Hf|done..].
Qed.
Lemma touches_lift {E A} i (m : outcome E A) : touches_only i (lift m).
Proof. done. Qed.
Lemma touches_with_editor {E A} i (m : M (MerkleLeaves * W) E A) :
  touches_only i (AuthFs.with_editor i m).
Proof.
  intros st j Hj. unfold AuthFs.with_editor, zoom.
  destruct (m _) as [r [t w]]. simpl. by rewrite lookup_insert_ne.
Qed.

Lemma touches_stat i config : touches_only i (stat_of_config (W := W) (S := S) i config).
Proof. destruct config; simpl; try apply touches_lift. apply touches_bind; [apply touches_with_editor|done]. Qed.

Lemma touches_getattr (self : AuthFs S) i : touches_only i (AuthFs.getattr (W := W) self i).
Proof.
  rewrite getattr_stat. apply touches_bind; [apply touches_lift|]. intros config.
  apply touches_bind; [apply touches_stat|done].
Qed.

Lemma touches_write (self : AuthFs S) i r size off :
  touches_only i (AuthFs.write (W := W) self i r size off).
Proof.
  apply touches_bind; [apply touches_lift|]. intros [| | | |ed]; try done.
  apply touches_bind; [apply touches_lift|]. intros. apply touches_with_editor.
Qed.

Lemma touches_setattr (self : AuthFs S) i a valid :
  touches_only i (AuthFs.setattr (W := W) self i a valid).
Proof.
  apply touches_bind; [apply touches_lift|]. intros [| | | |ed]; try done.
  apply touches_bind; [apply touches_with_editor|]. intros.
  apply touches_bind; [apply touches_lift|]. intros.
  apply touches_bind; [|intros; by repeat case_match].
  case_match; [|done]. apply touches_bind; [apply touches_lift|]. intros.
  apply touches_bind; [apply touches_with_editor|done].
Qed.
End trees.

(** The attributes of a file whose size is representable. *)
Lemma create_stat_Ok ino size mode :
  0 ≤ size ≤ i64_max →
  ∃ a, create_stat ino size mode = Ok a ∧ st_size a = size ∧
       (st_blocks a - 1) * 512 < size ≤ st_blocks a * 512 ∧
       st_mode a = match mode with ReadOnlyMode => 0x8100 | ReadWriteMode => 0x8180 end.
Proof.
  intros Hs. unfold create_stat. rewrite i64_try_from_Ok by lia. cbn [mbind outcome_bind].
  rewrite divide_roundup_Ok by lia. cbn [mbind outcome_bind].
  remember ((size + 512 - 1) / 512) as b eqn:Hb. apply roundup_bounds in Hb; [|lia..].
  rewrite i64_try_from_Ok by lia. cbn [mbind outcome_bind].
  eexists. split; [done|]. simpl. split_and!; [done|lia|lia|by destruct mode].
Qed.

(** ** Claims *)
Section claims.
Context `{!Sha256FFI, !Sha256Spec} {bm : BuildMode} {wf : WriteFuel} {W S : Type}.
Context `{!FileOps W, !IVirtFdService W S}.

(** A read-only file whose reader is tied to [c]. *)
Definition authenticated (config : FileConfig S) (c : list byte) : Prop :=
  match config with
  | LocalVerifiedReadonlyFile reader file_size => authenticates reader c ∧ file_size = zlen c
  | RemoteVerifiedReadonlyFile reader file_size => authenticates reader c ∧ file_size = zlen c
  | _ => False
  end.

(** One of the blocks that [n] bytes at [offset] are read from hashes something that clashes
    with [c], in the world that read starts in. *)
Definition reader_clash {F T} `{!ReadByChunk W F, !ReadByChunk W T}
    (reader : VerifiedFileReader F T) (c : list byte) (offset n : Z) (w : W) : Prop :=
  Exists (λ '(i, w), block_read_clash reader c i w) (block_reads reader (pieces offset n) w).
Definition config_clash (config : FileConfig S) (c : list byte) (offset n : Z) (w : W) : Prop :=
  match config with
  | LocalVerifiedReadonlyFile reader _ => reader_clash reader c offset n w
  | RemoteVerifiedReadonlyFile reader _ => reader_clash reader c offset n w
  | _ => False
  end.

Lemma read_plain_sound {F T} `{!ReadByChunk W F, !ReadByChunk W T, !BufferReader W F, !BufferReader W T}
    (reader : VerifiedFileReader F T) c size offset out (st : fs_state W) n out' st' :
  authenticates reader c → 0 ≤ offset < u64_limit → 0 ≤ size < u32_limit →
  AuthFs.read_plain reader (zlen c) offset size (out, st) = (Ok n, (out', st')) →
  (n = Z.min size (Z.max 0 (zlen c - offset)) ∧
   out' = out ++ take (Z.to_nat n) (drop (Z.to_nat offset) c)) ∨
  reader_clash reader c offset (Z.min size (Z.max 0 (zlen c - offset))) st.2.
Proof.
  intros Ha Ho Hs Hr. unfold AuthFs.read_plain, zoom in Hr. simpl in Hr.
  destruct (read_chunks reader (zlen c) offset size (out, st.2)) as [r [o w]] eqn:Hrc.
  simpl in Hr. simplify_eq. pose proof Ha as (_ & _ & Hlen).
  apply (read_chunks_sound (block_read_clash reader c) reader c) in Hrc as [[Hn Hout]|];
    [by left|by right| |lia..].
  intros idx w1 n1 buf w2 Hi Hr1 Hread. exact (verified_block reader c idx w1 n1 buf w2 Ha Hi Hr1 Hread).
Qed.

(** C4: A FUSE read of a verified file is authentic.  For any service and any file system under
    it, any verified file, remote or local, and any request, a read that succeeds has returned
    exactly the bytes of the authenticated contents from the offset on, as many as asked for or
    as there are, and appended them to the reply; or one of the blocks this very request has read
    was let through by a message that differs from that of the contents at the same step of the
    path to the root and has the same SHA-256. *)
Theorem authfs_verified_read `{!FileOpsTyped W} (self : AuthFs S) inode config c size offset out
    (st : fs_state W) n out' st' :
  file_pool self !! inode = Some config → authenticated config c →
  0 ≤ offset < u64_limit → 0 ≤ size < u32_limit →
  AuthFs.read self inode size offset (out, st) = (Ok n, (out', st')) →
  (n = Z.min size (Z.max 0 (zlen c - offset)) ∧
   out' = out ++ take (Z.to_nat n) (drop (Z.to_nat offset) c)) ∨
  config_clash config c offset (Z.min size (Z.max 0 (zlen c - offset))) st.2.
Proof.
  intros Hp Ha Ho Hs Hr. unfold AuthFs.read, AuthFs.get_file_config in Hr. rewrite Hp in Hr.
  simpl in Hr. rewrite bind_lift_Ok in Hr.
  destruct config; try done; destruct Ha as [Ha ->]; exact (read_plain_sound _ c size offset out st n out' st' Ha Ho Hs Hr).
Qed.

(** Read-only files are refused by every handler that could change them. *)
Lemma readonly_refused (self : AuthFs S) inode config (st : fs_state W) :
  file_pool self !! inode = Some config → (∀ ed, config ≠ RemoteVerifiedNewFile ed) →
  (∀ flags, Z.land flags O_ACCMODE ≠ O_RDONLY → AuthFs.open self inode flags = Err (OsError EACCES)) ∧
  (∀ r size off, AuthFs.write self inode r size off st = (Err (OsError EBADF), st)) ∧
  (∀ a valid, AuthFs.setattr self inode a valid st = (Err (OsError EBADF), st)).
Proof.
  intros Hp Hc. unfold AuthFs.open, AuthFs.write, AuthFs.setattr, AuthFs.get_file_config.
  rewrite Hp. split_and!.
  - intros flags Hf. unfold check_access_mode. rewrite (proj2 (Z.eqb_neq _ _)) by done.
    destruct config; try done. by destruct (Hc editor).
  - intros. simpl. rewrite bind_lift_Ok. destruct config; try done. by destruct (Hc editor).
  - intros. simpl. rewrite bind_lift_Ok. destruct config; try done. by destruct (Hc editor).
Qed.

(** C31: Files are protected from requests that are not meant for them.  A read-only file
    cannot be opened for writing, and a write or a change of attributes is refused and changes
    nothing; and whatever the backends do, a write, a change of attributes or a query of one
    inode leaves the integrity state of every other inode as it was. *)
Theorem authfs_files_protected (self : AuthFs S) inode config (st : fs_state W) :
  file_pool self !! inode = Some config →
  ((∀ ed, config ≠ RemoteVerifiedNewFile ed) →
   (∀ flags, Z.land flags O_ACCMODE ≠ O_RDONLY → AuthFs.open self inode flags = Err (OsError EACCES)) ∧
   (∀ r size off, AuthFs.write self inode r size off st = (Err (OsError EBADF), st)) ∧
   (∀ a valid, AuthFs.setattr self inode a valid st = (Err (OsError EBADF), st))) ∧
  (∀ j, j ≠ inode →
   (∀ r size off, (AuthFs.write self inode r size off st).2.1 !! j = st.1 !! j) ∧
   (∀ a valid, (AuthFs.setattr self inode a valid st).2.1 !! j = st.1 !! j) ∧
   (AuthFs.getattr self inode st).2.1 !! j = st.1 !! j).
Proof.
  intros Hp. split; [by apply readonly_refused|]. intros j Hj. split_and!; intros.
  - by apply touches_write.
  - by apply touches_setattr.
  - by apply touches_getattr.
Qed.

End claims.

(** ** New files on an honest server *)
Section fs_states.
Context {W : Type}.
Implicit Types (st : fs_state W).

(** States with the same trees and the same backends. *)
Definition same_files st st' : Prop :=
  st'.2 = st.2 ∧ ∀ j, AuthFs.tree_of j st' = AuthFs.tree_of j st.
#[global] Instance same_files_refl : Reflexive same_files.
Proof. by intros st. Qed.
#[global] Instance same_files_trans : Transitive same_files.
Proof. intros x y z [H1 H2] [H3 H4]. split; [congruence|]. intros j. by rewrite H4. Qed.

Lemma tree_of_insert inode t trees (w : W) :
  AuthFs.tree_of inode (<[inode := t]> trees, w) = t.
Proof. unfold AuthFs.tree_of. simpl. by rewrite lookup_insert_eq. Qed.

Lemma same_files_insert inode st w :
  w = st.2 → same_files st (<[inode := AuthFs.tree_of inode st]> st.1, w).
Proof.
  intros ->. split; [done|]. intros j. destruct (decide (j = inode)) as [->|Hj];
    [apply tree_of_insert|]. unfold AuthFs.tree_of at 1. simpl. by rewrite lookup_insert_ne.
Qed.

Lemma with_editor_Ok {E A} inode (m : M (MerkleLeaves * W) E A) st r s' :
  m (AuthFs.tree_of inode st, st.2) = (r, s') →
  AuthFs.with_editor inode m st = (r, (<[inode := s'.1]> st.1, s'.2)).
Proof. unfold AuthFs.with_editor, zoom. by intros ->. Qed.

(** Asking an editor for its size changes nothing. *)
Lemma editor_size_Ok `{!Sha256FFI, !Sha256Spec} {F} (ed : VerifiedFileEditor F) inode st c :
  represents (AuthFs.tree_of inode st) c →
  ∃ st', AuthFs.with_editor inode (VerifiedFileEditor.size ed) st = (Ok (zlen c), st') ∧
         same_files st st'.
Proof.
  intros [_ Hsz].
  exists (<[inode := AuthFs.tree_of inode st]> st.1, st.2). split; [|by apply same_files_insert].
  apply (with_editor_Ok inode _ st _ (AuthFs.tree_of inode st, st.2)). by rewrite <- Hsz.
Qed.
End fs_states.

(** The size and the kind of a file in the pool. *)
Definition config_size {W S} (config : FileConfig S) (inode : Z) (st : fs_state W) : Z :=
  match config with
  | LocalVerifiedReadonlyFile _ size | LocalUnverifiedReadonlyFile _ size
  | RemoteVerifiedReadonlyFile _ size | RemoteUnverifiedReadonlyFile _ size => size
  | RemoteVerifiedNewFile _ => file_size (AuthFs.tree_of inode st)
  end.
Definition config_mode {S} (config : FileConfig S) : FileMode :=
  match config with RemoteVerifiedNewFile _ => ReadWriteMode | _ => ReadOnlyMode end.

Section lookup.
Context `{!Sha256FFI} {bm : BuildMode} {wf : WriteFuel} {W S : Type}.
Context `{!FileOps W, !IVirtFdService W S}.
Implicit Types (self : AuthFs S) (st : fs_state W).

(** The attributes of a file are computed without changing it. *)
Lemma stat_of_config_spec inode (config : FileConfig S) st :
  ∃ st', stat_of_config inode config st =
           (create_stat inode (config_size config inode st) (config_mode config), st') ∧
         same_files st st'.
Proof.
  destruct config as [r n|r n|r n|r n|ed]; try (by exists st).
  exists (<[inode := AuthFs.tree_of inode st]> st.1, st.2). split; [|by apply same_files_insert].
  cbn [stat_of_config]. erewrite M_bind_Ok; [reflexivity|].
  by apply (with_editor_Ok inode _ st _ (AuthFs.tree_of inode st, st.2)).
Qed.

(** C35: A file is found under the decimal form of its inode, with its attributes.  For every kind
    of file in the pool, looking up its number and asking for its attributes both succeed when
    its size is representable, agree, change nothing, and report that size, for a new file the
    current one, the number of 512-byte blocks that hold it and a mode that allows writing only
    for new files; a larger size is reported as EFBIG, and a number outside the pool as ENOENT. *)
Theorem authfs_lookup_number self parent inode config st :
  is_u64 inode → file_pool self !! inode = Some config →
  let size := config_size config inode st in
  0 ≤ size < u64_limit →
  (size ≤ i64_max →
   ∃ entry st', AuthFs.lookup self parent (show_int inode) st = (Ok entry, st') ∧ same_files st st' ∧
     AuthFs.getattr self inode st = (Ok (attr entry, DEFAULT_METADATA_TIMEOUT), st') ∧
     entry_inode entry = inode ∧ st_size (attr entry) = size ∧
     (st_blocks (attr entry) - 1) * 512 < size ≤ st_blocks (attr entry) * 512 ∧
     st_mode (attr entry) = match config_mode config with ReadOnlyMode => 0x8100 | _ => 0x8180 end) ∧
  (i64_max < size →
   ∃ st', AuthFs.lookup self parent (show_int inode) st = (Err (OsError EFBIG), st') ∧
          same_files st st') ∧
  (∀ k, is_u64 k → file_pool self !! k = None →
     AuthFs.lookup self parent (show_int k) st = (Err (OsError ENOENT), st)).
Proof.
  intros Hi Hp size Hs.
  assert (∀ k, is_u64 k → is_utf8 (show_int k) = true ∧ parse_u64 (show_int k) = Some k) as Hk.
  { intros k [Hk0 Hk]. split; [apply is_utf8_show_int; lia|].
    apply parse_show_int; [lia..|by left]. }
  destruct (stat_of_config_spec inode config st) as (st' & Hst & Hsame). fold size in Hst.
  split_and!; [intros Hmax..|intros k Hk0 Hnone]; rewrite lookup_stat, ?getattr_stat;
    unfold AuthFs.get_file_config.
  - destruct (Hk inode Hi) as [Hu Hpi], (create_stat_Ok inode size (config_mode config))
      as (a & Ha & Hsz & Hb & Hm); [lia|]. rewrite Ha in Hst. rewrite Hu, bind_lift_Ok, Hpi, Hp.
    cbn [ok_or]. rewrite !bind_lift_Ok, Hp. cbn [ok_or]. rewrite !bind_lift_Ok.
    rewrite !(M_bind_Ok _ _ _ _ _ Hst). eexists _, st'. split; [done|]. simpl. split_and!; done || lia.
  - destruct (Hk inode Hi) as [Hu Hpi]. unfold create_stat, i64_try_from in Hst.
    rewrite (proj2 (Z.leb_gt _ _)) in Hst by lia. exists st'. split; [|done].
    rewrite Hu, bind_lift_Ok, Hpi. cbn [ok_or]. rewrite bind_lift_Ok, Hp. cbn [ok_or]. rewrite bind_lift_Ok.
    unfold mbind, M_bind. by rewrite Hst.
  - destruct (Hk k Hk0) as [Hu Hpk]. rewrite Hu, bind_lift_Ok, Hpk. cbn [ok_or].
    by rewrite bind_lift_Ok, Hnone.
Qed.
End lookup.

Section new_file.
Context `{!Sha256FFI, !Sha256Spec} {bm : BuildMode} {wf : WriteFuel} `{!VerityIoctl file_table}.
Context (content : RemoteFileEditor FdService → file_table → option (list byte)).
Context `{!HonestReader file_table (RemoteFileEditor FdService) content}.
Context `{!HonestWriter file_table (RemoteFileEditor FdService) content}.
Implicit Types (st : fs_state file_table).

(** The tree and the server's file of [inode] hold [c]. *)
Definition inode_holds (ed : VerifiedFileEditor (RemoteFileEditor FdService)) (inode : Z) st
    (c : list byte) : Prop :=
  editor_holds content ed (AuthFs.tree_of inode st, st.2) c.

Lemma inode_holds_same ed inode st st' c :
  same_files st st' → inode_holds ed inode st c → inode_holds ed inode st' c.
Proof. intros [H1 H2]. unfold inode_holds. by rewrite H1, H2. Qed.

Lemma fs_write_holds (self : AuthFs FdService) inode ed st c buf off :
  (csz < write_fuel)%nat →
  file_pool self !! inode = Some (RemoteVerifiedNewFile ed) → inode_holds ed inode st c →
  0 ≤ off → off + zlen buf ≤ i64_max → zlen c ≤ i64_max →
  ∃ st', AuthFs.write self inode buf (zlen buf) off st = (Ok (zlen buf), st') ∧
         inode_holds ed inode st' (overwrite c (Z.to_nat off) buf).
Proof.
  intros Hf Hp Hh Ho Hlim Hc.
  destruct (write_at_holds content ed buf off c _ Hf Hh Ho Hlim Hc) as (s' & Hw & Hs').
  eexists. unfold AuthFs.write, AuthFs.get_file_config, AuthFs.read_exact. rewrite Hp.
  cbn [ok_or]. rewrite bind_lift_Ok, Z.leb_refl, bind_lift_Ok.
  rewrite Nat2Z.id, firstn_all. rewrite (with_editor_Ok _ _ _ _ _ Hw). split; [done|].
  unfold inode_holds. rewrite tree_of_insert. by destruct s'.
Qed.

Lemma fs_read_holds (self : AuthFs FdService) inode ed st c offset size out :
  file_pool self !! inode = Some (RemoteVerifiedNewFile ed) → inode_holds ed inode st c →
  zlen c ≤ i64_max → 0 ≤ offset < u64_limit → 0 ≤ size < u32_limit →
  let n := bytes_to_read (zlen c) offset size in
  ∃ st', AuthFs.read self inode size offset (out, st) =
           (Ok n, (out ++ take (Z.to_nat n) (drop (Z.to_nat offset) c), st')) ∧
         same_files st st'.
Proof.
  intros Hp Hh Hc Ho Hs n. unfold AuthFs.read, AuthFs.get_file_config. rewrite Hp. cbn [ok_or].
  rewrite bind_lift_Ok. destruct (editor_size_Ok ed inode st c (proj1 Hh)) as (st1 & Hsize & Hsame).
  erewrite M_bind_Ok by (unfold zoom at 1; cbn [snd]; rewrite Hsize; done). cbn [fst snd].
  pose proof (inode_holds_same _ _ _ _ _ Hsame Hh) as [_ Hcont].
  assert (read_chunks ed (zlen c) offset size (out, (AuthFs.tree_of inode st1, st1.2)) =
    (Ok n, (out ++ take (Z.to_nat n) (drop (Z.to_nat offset) c), (AuthFs.tree_of inode st1, st1.2))))
    as Hread.
  { apply read_chunks_honest; [|lia..]. intros idx Hi Hr.
    apply (read_chunk_honest_zeros (λ ed s, content (editor_file ed) s.2)); done. }
  eexists. unfold AuthFs.read_editor, zoom. cbn [fst snd]. rewrite Hread. cbn [fst snd].
  split; [done|]. etrans; [done|]. by apply same_files_insert.
Qed.

(** A change of the size by [setattr], refused afterwards when mode or owner were to be changed
    too.  The reply has the new size with the block count of the old one. *)
Lemma fs_resize_holds (self : AuthFs FdService) inode ed st c a valid :
  file_pool self !! inode = Some (RemoteVerifiedNewFile ed) → inode_holds ed inode st c →
  zlen c ≤ i64_max → 0 ≤ st_size a ≤ i64_max → valid_SIZE valid = true →
  ∃ st', inode_holds ed inode st' (set_length c (Z.to_nat (st_size a))) ∧
    if valid_MODE valid || valid_UID valid || valid_GID valid
    then AuthFs.setattr self inode a valid st = (Err (OsError ENOSYS), st')
    else ∃ a', AuthFs.setattr self inode a valid st = (Ok (a', DEFAULT_METADATA_TIMEOUT), st') ∧
               st_size a' = st_size a ∧ (st_blocks a' - 1) * 512 < zlen c ≤ st_blocks a' * 512.
Proof.
  intros Hp Hh Hc Hs Hv. unfold AuthFs.setattr, AuthFs.get_file_config. rewrite Hp. cbn [ok_or].
  rewrite bind_lift_Ok. destruct (editor_size_Ok ed inode st c (proj1 Hh)) as (st1 & Hsize & Hsame).
  rewrite (M_bind_Ok _ _ _ _ _ Hsize). pose proof (inode_holds_same _ _ _ _ _ Hsame Hh) as Hh1.
  destruct (create_stat_Ok inode (zlen c) ReadWriteMode) as (a' & -> & _ & Hb & _); [lia|].
  rewrite bind_lift_Ok, Hv.
  rewrite M_bind_assoc, (proj2 (Z.leb_le 0 _)), debug_assert_true, bind_lift_Ok by lia.
  unfold as_u64. rewrite Z.mod_small by lia.
  destruct (resize_holds content ed (st_size a) c _ Hh1 Hs Hc) as (s' & Hr & Hs').
  rewrite M_bind_assoc, (M_bind_Ok _ _ _ _ _ (with_editor_Ok _ _ _ _ _ Hr)).
  erewrite (M_bind_Ok (mret _)) by done. exists (<[inode := s'.1]> st1.1, s'.2). split.
  - unfold inode_holds. rewrite tree_of_insert. by destruct s'.
  - destruct (valid_MODE valid), (valid_UID valid), (valid_GID valid); try done.
    eexists. split; [done|]. simpl. split_and!; done || lia.
Qed.
End new_file.

Section new_file_claims.
Context `{!Sha256FFI, !Sha256Spec} {bm : BuildMode} {wf : WriteFuel} `{!VerityIoctl file_table}.

(** What is written to a new file is read back.  On an honest server a FUSE write stores the
    whole buffer, and any later read gives the bytes of the contents after that write, as many
    as asked for or as there are. *)
Theorem authfs_write_then_read (self : AuthFs FdService) inode ed st c buf off offset size out :
  (csz < write_fuel)%nat →
  file_pool self !! inode = Some (RemoteVerifiedNewFile ed) →
  inode_holds remote_editor_content ed inode st c →
  0 ≤ off → off + zlen buf ≤ i64_max → zlen c ≤ i64_max →
  0 ≤ offset < u64_limit → 0 ≤ size < u32_limit →
  let c' := overwrite c (Z.to_nat off) buf in
  let n := Z.min size (Z.max 0 (zlen c' - offset)) in
  ∃ st1 st2, AuthFs.write self inode buf (zlen buf) off st = (Ok (zlen buf), st1) ∧
    AuthFs.read self inode size offset (out, st1) =
      (Ok n, (out ++ take (Z.to_nat n) (drop (Z.to_nat offset) c'), st2)) ∧
    inode_holds remote_editor_content ed inode st2 c'.
Proof.
  intros Hf Hp Hh Ho Hlim Hc Hof Hs c' n.
  destruct (fs_write_holds remote_editor_content self inode ed st c buf off) as (st1 & Hw & Hh1); [done..|].
  assert (zlen c' ≤ i64_max) as Hc' by (subst c'; rewrite length_overwrite; case_decide; lia).
  destruct (fs_read_holds _ self inode ed st1 c' offset size out Hp Hh1 Hc' Hof Hs) as (st2 & Hr & Hsame).
  exists st1, st2. split_and!; [done|done|]. by eapply inode_holds_same.
Qed.

(** A change of several attributes is not all or nothing.  When the size is set together with
    the mode, the file is resized first and the call then reports ENOSYS. *)
Lemma authfs_setattr_resizes_then_fails (self : AuthFs FdService) inode ed st c a valid :
  file_pool self !! inode = Some (RemoteVerifiedNewFile ed) → inode_holds remote_editor_content ed inode st c →
  zlen c ≤ i64_max → 0 ≤ st_size a ≤ i64_max → valid_SIZE valid = true →
  valid_MODE valid = true ∨ valid_UID valid = true ∨ valid_GID valid = true →
  ∃ st', AuthFs.setattr self inode a valid st = (Err (OsError ENOSYS), st') ∧
         inode_holds remote_editor_content ed inode st' (set_length c (Z.to_nat (st_size a))).
Proof.
  intros Hp Hh Hc Hs Hv Hmode.
  destruct (fs_resize_holds remote_editor_content self inode ed st c a valid) as (st' & Hh' & Hset);
    [done..|]. exists st'. split; [|done].
  destruct Hmode as [Hm|[Hm|Hm]]; rewrite Hm in Hset; simpl in Hset;
    by rewrite ?orb_true_r in Hset.
Qed.
End new_file_claims.

(** ** What is not guaranteed *)

(** A server that answers every read with the same bytes. *)
Record LyingService := { answer : list byte }.
#[global] Instance LyingService_service {W} : IVirtFdService W LyingService := {|
  readFile self _ _ _ := mret (answer self);
  readFsverityMerkleTree self _ _ _ := mret (answer self);
  readFsveritySignature self _ := mret (answer self);
  writeFile self _ buf _ := mret (zlen buf);
  service_resize self _ _ := mret tt;
|}.

Lemma chunking_single off rem l :
  0 < rem ≤ CHUNK_SIZE - off `mod` CHUNK_SIZE → chunking CHUNK_SIZE off rem l → l = [(off, rem)].
Proof.
  intros Hr Hc. inversion Hc as [|o r l1 sz Hr1 Hs1 Hc1]; subst; [lia|].
  rewrite Z.min_l in * by lia. rewrite Z.sub_diag in Hc1.
  inversion Hc1; subst; [done|lia].
Qed.

Section not_guaranteed.
Context `{!Sha256FFI, !Sha256Spec} {bm : BuildMode} {wf : WriteFuel}.

(** C37: Reads of a new file are not verified.  The editor holds the tree of the contents it was
    given, but a read passes the server's answer through: a server that serves other bytes has
    them returned to the reader, while the digest still is that of the written contents. *)
Theorem authfs_new_file_read_unverified {W} `{!FileOps W} (self : AuthFs LyingService) inode block fd c
    size out (st : fs_state W) :
  length block = csz →
  file_pool self !! inode = Some (RemoteVerifiedNewFile
    (Build_VerifiedFileEditor {| editor_service := {| answer := block |}; editor_fd := fd |})) →
  represents (AuthFs.tree_of inode st) c → zlen c < u64_limit → 0 < size ≤ Z.min CHUNK_SIZE (zlen c) →
  ∃ st', AuthFs.read self inode size 0 (out, st) = (Ok size, (out ++ take (Z.to_nat size) block, st')) ∧
         represents (AuthFs.tree_of inode st') c.
Proof.
  intros Hb Hp Hrep Hlim Hs. unfold AuthFs.read, AuthFs.get_file_config. rewrite Hp. cbn [ok_or].
  rewrite bind_lift_Ok. set (ed := Build_VerifiedFileEditor _).
  assert (zoom snd (λ st0 s, (s.1, st0)) (AuthFs.with_editor inode (VerifiedFileEditor.size ed)) (out, st)
    = (Ok (zlen c), (out, (<[inode := AuthFs.tree_of inode st]> st.1, st.2)))) as Hsize.
  { unfold zoom, AuthFs.with_editor, VerifiedFileEditor.size. cbn [snd].
    unfold zoom. erewrite (M_bind_Ok VerifiedFileEditor.get_tree) by done.
    unfold mret, M_ret. simpl. by rewrite (proj2 Hrep). }
  rewrite (M_bind_Ok _ _ _ _ _ Hsize).
  set (st1 := (<[inode := AuthFs.tree_of inode st]> st.1, st.2) : fs_state W).
  assert (AuthFs.tree_of inode st1 = AuthFs.tree_of inode st) as Htree.
  { unfold AuthFs.tree_of, st1. simpl. by rewrite lookup_insert_eq. }
  assert (read_chunks ed (zlen c) 0 size (out, (AuthFs.tree_of inode st1, st1.2)) =
    (Ok size, (out ++ take (Z.to_nat size) block, (AuthFs.tree_of inode st1, st1.2)))) as Hread.
  { unfold read_chunks, saturating_sub. rewrite Z.min_l by lia.
    destruct (try_fold_ranges CHUNK_SIZE ltac:(lia) 0 size) as (l & Hch & Hf); [lia..|].
    rewrite Hf. rewrite (read_pieces_honest ed block 0 size l); [| |done|lia..].
    2: { intros idx Hi Hr. assert (idx = 0) as -> by lia.
      change (Z.to_nat 0 * csz)%nat with 0%nat. rewrite drop_0, take_ge, <- pad_to_window by lia.
      unfold pad_to. rewrite Hb, Nat.sub_diag, app_nil_r.
      unfold read_chunk, VerifiedFileEditor_read_chunk, VerifiedFileEditor.read_chunk.
      erewrite on_file_Ok; [by rewrite <- surjective_pairing|]. unfold read_chunk, RemoteFileEditor_read, remote_read_chunk.
      rewrite u64_mul_Ok, bind_lift_Ok by lia. rewrite i64_try_from_Ok, bind_lift_Ok by lia.
      erewrite M_bind_Ok by done. unfold mret, M_ret.
      change (answer _) with block. rewrite copy_chunk_exact by (rewrite length_zero_buffer; lia).
      unfold copy_prefix. rewrite firstn_all, drop_ge, app_nil_r by (rewrite length_zero_buffer; lia).
      by rewrite Hb. }
    by rewrite drop_0. }
  eexists. unfold AuthFs.read_editor, zoom. cbn [fst snd]. rewrite Hread. split; [done|].
  unfold AuthFs.tree_of at 1. simpl. rewrite lookup_insert_eq. simpl. by rewrite Htree.
Qed.

(** A file shorter than declared can read as zeros.  The check that enough data was read
    compares with the size of the piece and not with its end: when the backing file ends before
    the offset but holds at least as many bytes as are asked for, the read succeeds with zeros
    instead of ENODATA. *)
Lemma authfs_short_file_reads_zeros `{!VerityIoctl file_table} (self : AuthFs FdService) inode reader
    declared c offset size out (st : fs_state file_table) :
  file_pool self !! inode = Some (RemoteUnverifiedReadonlyFile reader declared) →
  remote_reader_content reader st.2 = Some c →
  0 < size ≤ zlen c → zlen c ≤ offset → offset + size ≤ CHUNK_SIZE → offset + size ≤ declared →
  AuthFs.read self inode size offset (out, st) = (Ok size, (out ++ zeros size, st)).
Proof.
  intros Hp Hc Hs Ho Hend Hdecl. unfold AuthFs.read, AuthFs.get_file_config. rewrite Hp. cbn [ok_or].
  rewrite bind_lift_Ok. unfold AuthFs.read_plain, zoom. cbn [fst snd].
  unfold read_chunks, saturating_sub. rewrite Z.min_l by lia.
  destruct (try_fold_ranges CHUNK_SIZE ltac:(lia) offset size) as (l & Hch & Hf); [lia..|].
  assert (offset `mod` CHUNK_SIZE = offset) as Hmod by (apply Z.mod_small; lia).
  apply chunking_single in Hch as ->; [|lia]. rewrite Hf. cbn [mfold].
  assert (read_piece reader 0 (offset, size) (out, st.2) = (Ok size, (out ++ zeros size, st.2))) as Hpiece.
  { unfold read_piece, offset_to_chunk_index. rewrite (Z.div_small offset) by lia. rewrite Hmod.
    erewrite M_bind_Ok by (unfold on_world, zoom; cbn [snd];
      rewrite (read_chunk_honest_zeros remote_reader_content _ 0 _ _ Hc) by lia; done).
    cbv beta iota. change (Z.to_nat 0 * csz)%nat with 0%nat. rewrite drop_0, length_take.
    rewrite (proj2 (Z.ltb_ge _ _)) by lia.
    rewrite u64_add_Ok, bind_lift_Ok by lia.
    rewrite slice_Ok, bind_lift_Ok by (rewrite ?length_window; lia).
    rewrite Z.add_simpl_l.
    assert (take (Z.to_nat size) (drop (Z.to_nat offset) (window c 0 csz)) = zeros size) as ->.
    { unfold zeros. apply byte_at_ext; [len|]. intros k Hk.
      rewrite byte_at_take, byte_at_drop, byte_at_window, byte_at_replicate.
      repeat case_decide; try done. apply byte_at_ge. lia. }
    unfold mbind, M_bind, on_sink, zoom, write, Vec_write, zeros. simpl.
    rewrite length_replicate. rewrite (proj2 (Z.eqb_eq _ _)) by lia. simpl.
    unfold lift. rewrite u64_add_Ok by lia. do 2 f_equal. lia. }
  rewrite (M_bind_Ok _ _ _ _ _ Hpiece). by destruct st.
Qed.
End not_guaranteed.

(** ** Instances *)
Section instances.
#[local] Existing Instances boringssl boringssl_spec release.
#[local] Instance fs_no_fsverity : VerityIoctl file_table := λ _ _ _, throw 95.
#[local] Instance fs_fuel : WriteFuel := 5000%nat.

Definition demo_new_file : VerifiedFileEditor (RemoteFileEditor FdService) :=
  Build_VerifiedFileEditor {| editor_service := demo_service; editor_fd := 7 |}.
Definition demo_unverified : RemoteFileReader FdService :=
  {| reader_service := demo_service; reader_fd := 7 |}.
Definition demo_fs : AuthFs FdService :=
  AuthFs.new (<[5 := RemoteVerifiedReadonlyFile demo_remote (zlen demo)]>
    (<[6 := RemoteVerifiedNewFile demo_new_file]>
      {[8 := RemoteUnverifiedReadonlyFile demo_unverified 4096]})) 65536.
Definition demo_fs_state : fs_state file_table := (∅, demo_table).
(** The server's writable file is empty, then two bytes long. *)
Definition empty_fs_state : fs_state file_table := (∅, {[7 := []]}).
Definition short_fs_state : fs_state file_table := (∅, {[7 := [Byte.x01; Byte.x02]]}).

Lemma demo_fs_5 : file_pool demo_fs !! 5 = Some (RemoteVerifiedReadonlyFile demo_remote (zlen demo)).
Proof. apply lookup_insert_eq. Qed.
Lemma demo_fs_6 : file_pool demo_fs !! 6 = Some (RemoteVerifiedNewFile demo_new_file).
Proof. unfold demo_fs. simpl file_pool. rewrite lookup_insert_ne by done. apply lookup_insert_eq. Qed.
Lemma demo_fs_8 : file_pool demo_fs !! 8 = Some (RemoteUnverifiedReadonlyFile demo_unverified 4096).
Proof.
  unfold demo_fs. simpl file_pool. rewrite !lookup_insert_ne by done. apply lookup_singleton_eq.
Qed.
Lemma demo_remote_authenticated : authenticates demo_remote demo.
Proof. split_and!; [done..| |]; rewrite zlen_demo; lia. Qed.
Lemma empty_holds : inode_holds remote_editor_content demo_new_file 6 empty_fs_state [].
Proof. by split. Qed.

Lemma demo_fs_read :
  AuthFs.read demo_fs 5 10 4995 ([], demo_fs_state) =
    (Ok 5, (replicate 5 Byte.x01, demo_fs_state)).
Proof.
  unfold AuthFs.read, AuthFs.get_file_config. rewrite demo_fs_5. cbn [ok_or]. rewrite bind_lift_Ok.
  unfold AuthFs.read_plain, zoom. cbn [fst snd demo_fs_state].
  rewrite (read_chunks_honest demo_remote demo 4995 10).
  - assert (bytes_to_read (zlen demo) 4995 10 = 5) as -> by (rewrite zlen_demo; done).
    assert (take (Z.to_nat 5) (drop (Z.to_nat 4995) demo) = replicate 5 Byte.x01) as ->; [|done].
    unfold demo. rewrite drop_replicate, take_replicate. done.
  - intros idx Hi Hr. pose proof demo_remote_authenticated as Ha.
    rewrite (read_chunk_served remote_reader_content remote_tree_content demo_remote demo 0);
      [|done|exact demo_height| |exact demo_remote_tree|done..|apply length_zero_buffer].
    + rewrite <- pad_to_chunk. unfold copy_prefix. rewrite firstn_all.
      by rewrite zero_buffer_prefix by (rewrite length_take; lia).
    + unfold remote_reader_content, remote_content. cbn [demo_remote chunked_file reader_service reader_fd demo_service fd_pool].
      rewrite lookup_insert_ne, lookup_singleton_eq by done. apply lookup_insert_eq.
  - lia.
  - lia.
  - rewrite zlen_demo. lia.
Qed.

Lemma authfs_verified_read_witness :
  AuthFs.read demo_fs 5 10 4995 ([], demo_fs_state) =
    (Ok 5, (replicate 5 Byte.x01, demo_fs_state)) ∧
  ((5 = Z.min 10 (Z.max 0 (zlen demo - 4995)) ∧
    replicate 5 Byte.x01 = [] ++ take (Z.to_nat 5) (drop (Z.to_nat 4995) demo)) ∨
   config_clash (RemoteVerifiedReadonlyFile demo_remote (zlen demo)) demo 4995
     (Z.min 10 (Z.max 0 (zlen demo - 4995))) demo_table).
Proof.
  split; [exact demo_fs_read|].
  apply (authfs_verified_read demo_fs 5 (RemoteVerifiedReadonlyFile demo_remote (zlen demo)) demo 10 4995
    [] demo_fs_state 5 _ demo_fs_state).
  - exact demo_fs_5.
  - split; [exact demo_remote_authenticated|reflexivity].
  - lia.
  - lia.
  - exact demo_fs_read.
Defined.

Lemma authfs_files_protected_witness :
  ((∀ flags, Z.land flags O_ACCMODE ≠ O_RDONLY → AuthFs.open demo_fs 5 flags = Err (OsError EACCES)) ∧
   (∀ r size off, AuthFs.write demo_fs 5 r size off demo_fs_state = (Err (OsError EBADF), demo_fs_state)) ∧
   (∀ a valid, AuthFs.setattr demo_fs 5 a valid demo_fs_state = (Err (OsError EBADF), demo_fs_state))) ∧
  (AuthFs.getattr demo_fs 5 demo_fs_state).2.1 !! 9 = demo_fs_state.1 !! 9.
Proof.
  destruct (authfs_files_protected demo_fs 5 (RemoteVerifiedReadonlyFile demo_remote (zlen demo))
    demo_fs_state demo_fs_5) as [Hro Hother].
  split; [apply Hro; discriminate|]. apply (Hother 9). lia.
Defined.

Lemma authfs_lookup_number_witness :
  ∃ entry st', AuthFs.lookup demo_fs 1 (show_int 5) demo_fs_state = (Ok entry, st') ∧
    same_files demo_fs_state st' ∧ entry_inode entry = 5 ∧ st_size (attr entry) = zlen demo ∧
    st_mode (attr entry) = 0x8100.
Proof.
  destruct (authfs_lookup_number demo_fs 1 5 (RemoteVerifiedReadonlyFile demo_remote (zlen demo))
    demo_fs_state) as [Hok _].
  - split; lia.
  - exact demo_fs_5.
  - cbn [config_size]. rewrite zlen_demo. lia.
  - destruct Hok as (e & st' & H1 & H2 & _ & H3 & H4 & _ & H5); [cbn [config_size]; rewrite zlen_demo; lia|].
    exists e, st'. split_and!; assumption.
Defined.

Lemma authfs_write_then_read_witness :
  let c' := overwrite [] (Z.to_nat 4095) [Byte.x01; Byte.x02] in
  let n := Z.min 100 (Z.max 0 (zlen c' - 4090)) in
  ∃ st1 st2,
    AuthFs.write demo_fs 6 [Byte.x01; Byte.x02] 2 4095 empty_fs_state = (Ok 2, st1) ∧
    AuthFs.read demo_fs 6 100 4090 ([], st1) =
      (Ok n, ([] ++ take (Z.to_nat n) (drop (Z.to_nat 4090) c'), st2)) ∧
    inode_holds remote_editor_content demo_new_file 6 st2 c'.
Proof.
  apply (authfs_write_then_read demo_fs 6 demo_new_file empty_fs_state [] [Byte.x01; Byte.x02] 4095
    4090 100 []).
  - unfold write_fuel, fs_fuel. lia.
  - exact demo_fs_6.
  - exact empty_holds.
  - lia.
  - vm_compute. discriminate.
  - vm_compute. discriminate.
  - lia.
  - lia.
Defined.

Definition demo_stat : stat64 := {| st_ino := 6; st_mode := 0; st_dev := 0; st_nlink := 0; st_uid := 0;
  st_gid := 0; st_rdev := 0; st_size := 4097; st_blksize := 0; st_blocks := 0 |}.
Definition size_and_mode : SetattrValid := {| valid_MODE := true; valid_UID := false; valid_GID := false;
  valid_SIZE := true; valid_ATIME := false; valid_MTIME := false; valid_ATIME_NOW := false;
  valid_MTIME_NOW := false; valid_CTIME := false |}.

Lemma authfs_setattr_resizes_then_fails_example :
  ∃ st', AuthFs.setattr demo_fs 6 demo_stat size_and_mode empty_fs_state = (Err (OsError ENOSYS), st') ∧
         inode_holds remote_editor_content demo_new_file 6 st' (set_length [] (Z.to_nat 4097)).
Proof.
  apply (authfs_setattr_resizes_then_fails demo_fs 6 demo_new_file empty_fs_state [] demo_stat
    size_and_mode).
  - exact demo_fs_6.
  - exact empty_holds.
  - vm_compute. discriminate.
  - simpl. lia.
  - reflexivity.
  - left. reflexivity.
Defined.

Definition lying_fs : AuthFs LyingService :=
  AuthFs.new {[6 := RemoteVerifiedNewFile (Build_VerifiedFileEditor
    {| editor_service := {| answer := replicate 4096 Byte.x07 |}; editor_fd := 7 |})]} 65536.

Lemma authfs_new_file_read_unverified_witness :
  ∃ st', AuthFs.read lying_fs 6 3 0
           ([], ({[6 := {| leaves := leaf_hashes (zeros 10); file_size := 10 |}]}, demo_table)) =
           (Ok 3, ([] ++ take (Z.to_nat 3) (replicate 4096 Byte.x07), st')) ∧
         represents (AuthFs.tree_of 6 st') (zeros 10).
Proof.
  apply (authfs_new_file_read_unverified lying_fs 6 (replicate 4096 Byte.x07) 7 (zeros 10) 3 []
    ({[6 := {| leaves := leaf_hashes (zeros 10); file_size := 10 |}]}, demo_table)).
  - rewrite length_replicate. reflexivity.
  - apply lookup_singleton_eq.
  - split; reflexivity.
  - reflexivity.
  - unfold zeros. rewrite length_replicate. lia.
Defined.

Lemma authfs_short_file_reads_zeros_example :
  AuthFs.read demo_fs 8 2 100 ([], short_fs_state) = (Ok 2, ([] ++ zeros 2, short_fs_state)).
Proof.
  apply (authfs_short_file_reads_zeros demo_fs 8 demo_unverified 4096 [Byte.x01; Byte.x02] 100 2 []
    short_fs_state).
  - exact demo_fs_8.
  - reflexivity.
  - simpl. lia.
  - simpl. lia.
  - lia.
  - lia.
Defined.
End instances.
