(* ===== verification/AuthFsMain.v ===== *)
(** * The authfs command line (authfs/src/main.rs)

    The options that name the files, and the pool of files built from them.
    The binder service, looked up by name, is an argument. *)
From Stdlib Require Import Ascii.
From S2P Require Import Prelude RustInt Clap Crypto Common Fsverity Merkle Builder File Os Fuse.
From S2P Require Import FdServer LocalFile Verifier VerifierProps Editor RemoteFile AuthFs.

(** Opening and reading local files by path. *)
Class PathOps (W : Type) := {
  open_path : string → M W io_error Z;
  read_to_end : Z → M W io_error (list byte);
}.

(** ** Options *)
Record OptionRemoteRoFile := {
  ro_ino : Z; ro_remote_id : Z; ro_file_size : Z; ro_certificate_path : string;
}.
Record OptionRemoteRoFileUnverified := { un_ino : Z; un_remote_id : Z; un_file_size : Z }.
Record OptionRemoteRwFile := { rw_ino : Z; rw_remote_id : Z }.
Record OptionLocalFileRo := {
  lo_ino : Z; lo_file_path : string; lo_merkle_tree_dump_path : string; lo_signature_path : string;
  lo_certificate_path : string;
}.
Record OptionLocalRoFileUnverified := { lu_ino : Z; lu_file_path : string }.

Record Args := {
  mount_point : string;
  remote_ro_file : list OptionRemoteRoFile;
  remote_ro_file_unverified : list OptionRemoteRoFileUnverified;
  remote_new_rw_file : list OptionRemoteRwFile;
  local_ro_file : list OptionLocalFileRo;
  local_ro_file_unverified : list OptionLocalRoFileUnverified;
  arg_debug : bool;
}.

Inductive AuthFsError :=
| InvalidOption
| ParseIntError
| FailedToReadSignature (e : Status)
| FsverityFailed (e : FsverityError)
| IoFailed (e : io_error)
| BadUsage.

Definition parse_or_err (m : option Z) : outcome AuthFsError Z := ok_or m ParseIntError.

Definition parse_remote_ro_file_option (option : string) : outcome AuthFsError OptionRemoteRoFile :=
  match split_on ":" option with
  | [s0; s1; s2; s3] =>
      ino ← parse_or_err (parse_u64 s0);
      remote_id ← parse_or_err (parse_i32 s1);
      file_size ← parse_or_err (parse_u64 s2);
      Ok {| ro_ino := ino; ro_remote_id := remote_id; ro_file_size := file_size;
            ro_certificate_path := s3 |}
  | _ => Err InvalidOption
  end.

Definition parse_remote_ro_file_unverified_option (option : string)
    : outcome AuthFsError OptionRemoteRoFileUnverified :=
  match split_on ":" option with
  | [s0; s1; s2] =>
      ino ← parse_or_err (parse_u64 s0);
      remote_id ← parse_or_err (parse_i32 s1);
      file_size ← parse_or_err (parse_u64 s2);
      Ok {| un_ino := ino; un_remote_id := remote_id; un_file_size := file_size |}
  | _ => Err InvalidOption
  end.

(** This one unwraps the integers. *)
Definition parse_remote_new_rw_file_option (option : string)
    : outcome AuthFsError OptionRemoteRwFile :=
  match split_on ":" option with
  | [s0; s1] =>
      ino ← unwrap (parse_u64 s0);
      remote_id ← unwrap (parse_i32 s1);
      Ok {| rw_ino := ino; rw_remote_id := remote_id |}
  | _ => Err InvalidOption
  end.

Definition parse_local_file_ro_option (option : string) : outcome AuthFsError OptionLocalFileRo :=
  match split_on ":" option with
  | [s0; s1; s2; s3; s4] =>
      ino ← parse_or_err (parse_u64 s0);
      Ok {| lo_ino := ino; lo_file_path := s1; lo_merkle_tree_dump_path := s2;
            lo_signature_path := s3; lo_certificate_path := s4 |}
  | _ => Err InvalidOption
  end.

Definition parse_local_ro_file_unverified_ro_option (option : string)
    : outcome AuthFsError OptionLocalRoFileUnverified :=
  match split_on ":" option with
  | [s0; s1] =>
      ino ← parse_or_err (parse_u64 s0);
      Ok {| lu_ino := ino; lu_file_path := s1 |}
  | _ => Err InvalidOption
  end.

(** What the [StructOpt] derive declares and reads; clap ends the program on a
    bad command line. *)
Definition authfs_app : App :=
  [required_positional "mount-point"; option_values "remote-ro-file";
   option_values "remote-ro-file-unverified"; option_values "remote-new-rw-file";
   option_values "local-ro-file"; option_values "local-ro-file-unverified"; switch "debug"].

Definition Args_from_args {clap : Clap} (argv : list string) : outcome AuthFsError Args :=
  m ← ok_or (get_matches authfs_app argv) BadUsage;
  let vec {A} (name : string) (parse : string → outcome AuthFsError A) : outcome AuthFsError (list A) :=
    mapM parse (default [] (values_of m name)) in
  mount_point ← unwrap (value_of m "mount-point");
  remote_ro_file ← vec "remote-ro-file" parse_remote_ro_file_option;
  remote_ro_file_unverified ← vec "remote-ro-file-unverified" parse_remote_ro_file_unverified_option;
  remote_new_rw_file ← vec "remote-new-rw-file" parse_remote_new_rw_file_option;
  local_ro_file ← vec "local-ro-file" parse_local_file_ro_option;
  local_ro_file_unverified ← vec "local-ro-file-unverified" parse_local_ro_file_unverified_ro_option;
  Ok {| mount_point := mount_point; remote_ro_file := remote_ro_file;
        remote_ro_file_unverified := remote_ro_file_unverified;
        remote_new_rw_file := remote_new_rw_file; local_ro_file := local_ro_file;
        local_ro_file_unverified := local_ro_file_unverified; arg_debug := is_present m "debug" |}.

(** What [main] ends with; [FuseError] is the error of the message loop. *)
Inductive MainError (FuseError : Type) :=
| NotStarted (e : AuthFsError)
| LoopFailed (e : FuseError)
| UnexpectedExit.
Arguments NotStarted {_} _.
Arguments LoopFailed {_} _.
Arguments UnexpectedExit {_}.

(** ** The pool *)
Section pool.
Context `{!Sha256FFI} {bm : BuildMode} {W S : Type}.
Context `{!FileOps W, !PathOps W, !IVirtFdService W S} (service : S).

Definition new_config_remote_verified_file (remote_id file_size : Z)
    : M W AuthFsError (FileConfig S) :=
  signature ← m_map_err FailedToReadSignature (readFsveritySignature service remote_id);
  reader ← m_map_err FsverityFailed
    (VerifiedFileReader.new FakeAuthenticator.always_succeed
       {| reader_service := service; reader_fd := remote_id |} file_size signature
       {| tree_service := service; tree_fd := remote_id |});
  mret (RemoteVerifiedReadonlyFile reader file_size).

Definition new_config_remote_unverified_file (remote_id file_size : Z)
    : M W AuthFsError (FileConfig S) :=
  mret (RemoteUnverifiedReadonlyFile {| reader_service := service; reader_fd := remote_id |} file_size).

Definition new_config_local_ro_file (protected_file merkle_tree_dump signature : string)
    : M W AuthFsError (FileConfig S) :=
  file ← m_map_err IoFailed (open_path protected_file);
  file_size ← m_map_err IoFailed (file_len file);
  file_reader ← m_map_err IoFailed (LocalFileReader.new file);
  tree_file ← m_map_err IoFailed (open_path merkle_tree_dump);
  merkle_tree_reader ← m_map_err IoFailed (LocalFileReader.new tree_file);
  sig_file ← m_map_err IoFailed (open_path signature);
  sig ← m_map_err IoFailed (read_to_end sig_file);
  reader ← m_map_err FsverityFailed
    (VerifiedFileReader.new FakeAuthenticator.always_succeed file_reader file_size sig
       merkle_tree_reader);
  mret (LocalVerifiedReadonlyFile reader file_size).

Definition new_config_local_ro_file_unverified (file_path : string) : M W AuthFsError (FileConfig S) :=
  file ← m_map_err IoFailed (open_path file_path);
  reader ← m_map_err IoFailed (LocalFileReader.new file);
  mret (LocalUnverifiedReadonlyFile reader (LocalFileReader.len reader)).

Definition new_config_remote_new_verified_file (remote_id : Z) : M W AuthFsError (FileConfig S) :=
  mret (RemoteVerifiedNewFile
    (VerifiedFileEditor.new {| editor_service := service; editor_fd := remote_id |}).1).

(** One of the loops: [for config in &args.xxx { file_pool.insert(config.ino, new_config(..)?); }] *)
Definition insert_configs {Opt} (ino : Opt → Z) (new_config : Opt → M W AuthFsError (FileConfig S))
    (pool : gmap Z (FileConfig S)) (opts : list Opt) : M W AuthFsError (gmap Z (FileConfig S)) :=
  mfold (λ pool opt, config ← new_config opt; mret (<[ino opt := config]> pool)) pool opts.

Definition prepare_file_pool (args : Args) : M W AuthFsError (gmap Z (FileConfig S)) :=
  pool ← insert_configs ro_ino
    (λ c, new_config_remote_verified_file (ro_remote_id c) (ro_file_size c)) ∅ (remote_ro_file args);
  pool ← insert_configs un_ino
    (λ c, new_config_remote_unverified_file (un_remote_id c) (un_file_size c)) pool
    (remote_ro_file_unverified args);
  pool ← insert_configs rw_ino
    (λ c, new_config_remote_new_verified_file (rw_remote_id c)) pool (remote_new_rw_file args);
  pool ← insert_configs lo_ino
    (λ c, new_config_local_ro_file (lo_file_path c) (lo_merkle_tree_dump_path c) (lo_signature_path c))
    pool (local_ro_file args);
  insert_configs lu_ino (λ c, new_config_local_ro_file_unverified (lu_file_path c)) pool
    (local_ro_file_unverified args).

(** ** Serving

    [fusefs::loop_forever] and [main]; the FUSE host has a state [T] of its own. *)
Context {T FuseError : Type} `{!FuseHost T (AuthFs S) FuseError}.

Definition loop_forever (file_pool : gmap Z (FileConfig S)) (mountpoint : string)
    : M T FuseError unit :=
  let max_read := 65536 in
  let max_write := 65536 in
  dev_fuse ← m_expect open_dev_fuse;
  m_expect (mount mountpoint "authfs" (Z.lor MS_NOSUID MS_NODEV)
    [FD dev_fuse; RootMode (Z.lor (Z.lor (Z.lor S_IFDIR S_IXUSR) S_IXGRP) S_IXOTH); AllowOther;
     UserId 0; GroupId 0; MaxRead max_read]);;
  start_message_loop dev_fuse max_write max_read (AuthFs.new file_pool max_write).

(** The logger is left out. *)
Definition main {clap : Clap} (argv : list string) : M (W * T) (MainError FuseError) unit :=
  args ← lift (map_err NotStarted (Args_from_args argv));
  file_pool ← zoom fst (λ w s, (w, s.2)) (m_map_err NotStarted (prepare_file_pool args));
  zoom snd (λ h s, (s.1, h)) (m_map_err LoopFailed (loop_forever file_pool (mount_point args)));;
  throw UnexpectedExit.
End pool.

(** ** Options and their text *)

(** A path that survives splitting at colons. *)
Definition no_colon (s : string) : Prop := split_on ":" s = [s].
#[global] Instance no_colon_dec s : Decision (no_colon s) := _.

(** [format!] with colons between the fields. *)
Definition join_colon (ss : list string) : string :=
  match ss with
  | [] => ""
  | s :: ss => foldl (λ acc s, acc +:+ String ":" s) s ss
  end.

Lemma split_on_join ss : ss ≠ [] → Forall no_colon ss → split_on ":" (join_colon ss) = ss.
Proof.
  intros Hne Hf. destruct Hf as [|s ss Hs Hss]; [done|]. cbn [join_colon].
  assert (∀ acc l, split_on ":" acc = l →
    split_on ":" (foldl (λ acc s, acc +:+ String ":" s) acc ss) = l ++ ss) as Hj.
  { clear Hne. induction Hss as [|s' ss Hs' _ IH]; intros acc l Hl; simpl; [by rewrite app_nil_r|].
    rewrite (IH _ (l ++ [s'])); [by rewrite <- (assoc_L (++))|].
    by rewrite split_on_app_sep, Hl, Hs'. }
  by rewrite (Hj s [s] Hs).
Qed.

Lemma no_colon_show_int z : Z.abs z < 10 ^ 20 → no_colon (show_int z).
Proof. apply split_on_show_int. Qed.

(** ** Claims *)

(** Options are read back from their text.  Every kind of file option, printed with colons
    between its fields, is parsed into the same fields; paths must not contain a colon. *)
Lemma options_roundtrip ino id size p1 p2 p3 p4 :
  is_u64 ino → - 2 ^ 31 ≤ id ≤ i32_max → is_u64 size → Forall no_colon [p1; p2; p3; p4] →
  let s := show_int in
  parse_remote_ro_file_option (join_colon [s ino; s id; s size; p1]) =
    Ok {| ro_ino := ino; ro_remote_id := id; ro_file_size := size; ro_certificate_path := p1 |} ∧
  parse_remote_ro_file_unverified_option (join_colon [s ino; s id; s size]) =
    Ok {| un_ino := ino; un_remote_id := id; un_file_size := size |} ∧
  parse_remote_new_rw_file_option (join_colon [s ino; s id]) =
    Ok {| rw_ino := ino; rw_remote_id := id |} ∧
  parse_local_file_ro_option (join_colon [s ino; p1; p2; p3; p4]) =
    Ok {| lo_ino := ino; lo_file_path := p1; lo_merkle_tree_dump_path := p2;
          lo_signature_path := p3; lo_certificate_path := p4 |} ∧
  parse_local_ro_file_unverified_ro_option (join_colon [s ino; p1]) =
    Ok {| lu_ino := ino; lu_file_path := p1 |}.
Proof.
  intros [Hi0 Hi] Hid [Hs0 Hs] Hp s. rewrite !Forall_cons in Hp. destruct Hp as (H1 & H2 & H3 & H4 & _).
  assert (no_colon (s ino) ∧ parse_u64 (s ino) = Some ino) as [Ci Pi].
  { split; [apply no_colon_show_int; lia|apply parse_show_int; [lia..|by left]]. }
  assert (no_colon (s size) ∧ parse_u64 (s size) = Some size) as [Cs Ps].
  { split; [apply no_colon_show_int; lia|apply parse_show_int; [lia..|by left]]. }
  assert (no_colon (s id) ∧ parse_i32 (s id) = Some id) as [Cd Pd].
  { split; [apply no_colon_show_int; lia|apply parse_show_int; [lia..|by right]]. }
  unfold parse_remote_ro_file_option, parse_remote_ro_file_unverified_option,
    parse_remote_new_rw_file_option, parse_local_file_ro_option,
    parse_local_ro_file_unverified_ro_option.
  rewrite !split_on_join by (done || (repeat constructor; done)).
  rewrite Pi, Pd, Ps. done.
Qed.

(** A malformed number in [--remote-new-rw-file] panics.  The other options report it as an
    error; this one unwraps the parse. *)
Lemma rw_option_panics s0 s1 s2 :
  Forall no_colon [s0; s1; s2] → parse_u64 s0 = None ∨ (is_Some (parse_u64 s0) ∧ parse_i32 s1 = None) →
  parse_remote_new_rw_file_option (join_colon [s0; s1]) = Panic ∧
  parse_remote_ro_file_unverified_option (join_colon [s0; s1; s2]) = Err ParseIntError.
Proof.
  intros Hp Hbad. rewrite !Forall_cons in Hp. destruct Hp as (H0 & H1 & H2 & _).
  unfold parse_remote_new_rw_file_option, parse_remote_ro_file_unverified_option.
  rewrite !split_on_join by (done || (repeat constructor; done)).
  destruct Hbad as [->|[[z ->] ->]]; done.
Qed.

(** ** The pool an option list asks for *)

(** The five kinds of options in one list, in the order their loops run. *)
Inductive file_option :=
| RemoteRo (o : OptionRemoteRoFile)
| RemoteUnverified (o : OptionRemoteRoFileUnverified)
| RemoteRw (o : OptionRemoteRwFile)
| LocalRo (o : OptionLocalFileRo)
| LocalUnverified (o : OptionLocalRoFileUnverified).

Definition file_options (args : Args) : list file_option :=
  (RemoteRo <$> remote_ro_file args) ++ (RemoteUnverified <$> remote_ro_file_unverified args) ++
  (RemoteRw <$> remote_new_rw_file args) ++ (LocalRo <$> local_ro_file args) ++
  (LocalUnverified <$> local_ro_file_unverified args).

Definition option_ino (o : file_option) : Z :=
  match o with
  | RemoteRo o => ro_ino o
  | RemoteUnverified o => un_ino o
  | RemoteRw o => rw_ino o
  | LocalRo o => lo_ino o
  | LocalUnverified o => lu_ino o
  end.

Section pool_spec.
Context `{!Sha256FFI, !Sha256Spec} {bm : BuildMode} {W S : Type}.
Context `{!FileOps W, !PathOps W, !IVirtFdService W S} (service : S).

(** The root of a reader is the hash of the page its tree storage gave when it was opened. *)
Definition root_from_storage {F T} `{!ReadByChunk W T} (r : VerifiedFileReader F T) : Prop :=
  ∃ w pg w', read_chunk (merkle_tree r) 0 (zeros CHUNK_SIZE) w = (Ok (zlen pg, pg), w') ∧
    root_hash r = sha256 pg.

(** The file an option asks for, kind, storage and size. *)
Definition asked_for (o : file_option) (config : FileConfig S) : Prop :=
  match o, config with
  | RemoteRo o, RemoteVerifiedReadonlyFile r file_size =>
      file_size = ro_file_size o ∧ verified_file_size r = file_size ∧ root_from_storage r ∧
      chunked_file r = {| reader_service := service; reader_fd := ro_remote_id o |} ∧
      merkle_tree r = {| tree_service := service; tree_fd := ro_remote_id o |}
  | RemoteUnverified o, RemoteUnverifiedReadonlyFile r file_size =>
      file_size = un_file_size o ∧ r = {| reader_service := service; reader_fd := un_remote_id o |}
  | RemoteRw o, RemoteVerifiedNewFile ed =>
      ed = Build_VerifiedFileEditor {| editor_service := service; editor_fd := rw_remote_id o |}
  | LocalRo o, LocalVerifiedReadonlyFile r file_size =>
      verified_file_size r = file_size ∧ root_from_storage r ∧
      (∃ w w1 w2, open_path (lo_file_path o) w = (Ok (local_file (chunked_file r)), w1) ∧
         file_len (local_file (chunked_file r)) w1 = (Ok file_size, w2)) ∧
      (∃ w w', open_path (lo_merkle_tree_dump_path o) w = (Ok (local_file (merkle_tree r)), w'))
  | LocalUnverified o, LocalUnverifiedReadonlyFile r file_size =>
      file_size = local_size r ∧ ∃ w w1 w2,
        open_path (lu_file_path o) w = (Ok (local_file r), w1) ∧
        file_len (local_file r) w1 = (Ok file_size, w2)
  | _, _ => False
  end.

(** The last option that names an inode decides what the file is; an inode that no option
    names is not in the pool. *)
Definition pool_of (opts : list file_option) (pool : gmap Z (FileConfig S)) : Prop :=
  ∀ i, match last (filter (λ o, option_ino o = i) opts) with
       | Some o => ∃ config, pool !! i = Some config ∧ asked_for o config
       | None => pool !! i = None
       end.
Definition pool_of_options (args : Args) (pool : gmap Z (FileConfig S)) : Prop :=
  pool_of (file_options args) pool.

Lemma pool_of_snoc opts o pool config :
  pool_of opts pool → asked_for o config → pool_of (opts ++ [o]) (<[option_ino o := config]> pool).
Proof.
  intros Hp Ho i. rewrite filter_app, filter_cons, filter_nil, lookup_insert.
  destruct (decide (option_ino o = i)) as [Hi|Hi].
  - rewrite last_snoc. eauto.
  - rewrite app_nil_r. apply Hp.
Qed.

Lemma insert_configs_pool {Opt} (wrap : Opt → file_option) new_config opts0 pool opts (w : W) pool' w' :
  (∀ o w config w', new_config o w = (Ok config, w') → asked_for (wrap o) config) →
  pool_of opts0 pool →
  insert_configs (λ o, option_ino (wrap o)) new_config pool opts w = (Ok pool', w') →
  pool_of (opts0 ++ (wrap <$> opts)) pool'.
Proof.
  intros Hnew. revert opts0 pool w. induction opts as [|o opts IH]; intros opts0 pool w Hp Hi.
  { unfold insert_configs in Hi. simpl in Hi. inv_bind. by rewrite fmap_nil, app_nil_r. }
  unfold insert_configs in Hi. cbn [mfold] in Hi. rewrite M_bind_assoc in Hi. inv_bind.
  rewrite fmap_cons, cons_middle, (assoc_L (++)). eapply IH; [|exact Hi].
  apply pool_of_snoc; [done|]. by eapply Hnew.
Qed.

(** Each constructor of a configuration builds what its option asks for. *)
Lemma new_config_remote_verified_asked o w config w' :
  new_config_remote_verified_file service (ro_remote_id o) (ro_file_size o) w = (Ok config, w') →
  asked_for (RemoteRo o) config.
Proof.
  unfold new_config_remote_verified_file. intros Hn. inv_bind.
  match goal with Hr : VerifiedFileReader.new _ _ _ _ _ _ = (Ok _, _) |- _ =>
    apply new_accepted in Hr as (pg & Hrd & -> & _) end.
  simpl. split_and!; try done. by exists w0, pg, w'.
Qed.

Lemma new_config_remote_unverified_asked o (w : W) config w' :
  new_config_remote_unverified_file service (un_remote_id o) (un_file_size o) w = (Ok config, w') →
  asked_for (RemoteUnverified o) config.
Proof. unfold new_config_remote_unverified_file. intros [= <- <-]. done. Qed.

Lemma new_config_remote_new_asked o (w : W) config w' :
  new_config_remote_new_verified_file service (rw_remote_id o) w = (Ok config, w') →
  asked_for (RemoteRw o) config.
Proof. unfold new_config_remote_new_verified_file. intros [= <- <-]. done. Qed.

Lemma new_config_local_ro_asked o w config w' :
  new_config_local_ro_file (lo_file_path o) (lo_merkle_tree_dump_path o) (lo_signature_path o) w =
    (Ok config, w') → asked_for (LocalRo o) config.
Proof.
  unfold new_config_local_ro_file, LocalFileReader.new. intros Hn. inv_bind.
  match goal with Hr : VerifiedFileReader.new _ _ _ _ _ _ = (Ok _, _) |- _ =>
    apply new_accepted in Hr as (pg & Hrd & -> & _) end.
  simpl. split_and!; eauto 10. unfold root_from_storage. eauto 10.
Qed.

Lemma new_config_local_unverified_asked o w config w' :
  new_config_local_ro_file_unverified (S := S) (lu_file_path o) w = (Ok config, w') →
  asked_for (LocalUnverified o) config.
Proof.
  unfold new_config_local_ro_file_unverified, LocalFileReader.new. intros Hn. inv_bind.
  simpl. split; [done|]. eauto.
Qed.

Lemma prepare_file_pool_exact args (w : W) pool w' :
  prepare_file_pool service args w = (Ok pool, w') → pool_of_options args pool.
Proof.
  unfold prepare_file_pool, pool_of_options, file_options. intros Hp.
  apply M_bind_Ok_inv in Hp as (p1 & w1 & H1 & Hp). apply M_bind_Ok_inv in Hp as (p2 & w2 & H2 & Hp).
  apply M_bind_Ok_inv in Hp as (p3 & w3 & H3 & Hp). apply M_bind_Ok_inv in Hp as (p4 & w4 & H4 & H5).
  apply (insert_configs_pool RemoteRo _ []) in H1;
    [|apply new_config_remote_verified_asked|intros i; apply lookup_empty].
  apply (insert_configs_pool RemoteUnverified _ _ _ _ _ _ _ new_config_remote_unverified_asked H1) in H2.
  apply (insert_configs_pool RemoteRw _ _ _ _ _ _ _ new_config_remote_new_asked H2) in H3.
  apply (insert_configs_pool LocalRo _ _ _ _ _ _ _ new_config_local_ro_asked H3) in H4.
  apply (insert_configs_pool LocalUnverified _ _ _ _ _ _ _ new_config_local_unverified_asked H4) in H5.
  by rewrite <- !(assoc_L (++)) in H5.
Qed.

(** What [main] asks of the FUSE host before it serves. *)
Definition authfs_mounted (mountpoint : string) : FuseEvent (AuthFs S) :=
  Mounted mountpoint "authfs" (Z.lor MS_NOSUID MS_NODEV)
    [FD 3; RootMode (Z.lor (Z.lor (Z.lor S_IFDIR S_IXUSR) S_IXGRP) S_IXOTH); AllowOther;
     UserId 0; GroupId 0; MaxRead 65536].

Lemma loop_forever_recorded pool point mounts loop_end :
  loop_forever (FuseHost0 := recording_host mounts loop_end) pool point [] =
    match mounts with
    | Ok _ => (loop_end, [authfs_mounted point; Looped 3 65536 65536 (AuthFs.new pool 65536)])
    | OutOfFuel => (OutOfFuel, [])
    | _ => (Panic, [])
    end.
Proof. unfold loop_forever, mbind, M_bind, m_expect. cbn. by destruct mounts. Qed.

(** C32: authfs serves exactly the files that were asked for.  However mounting and the message loop
    end, [main] does not return success.  Nothing is mounted only if the options cannot be read, a
    file cannot be opened or mounting fails.  Otherwise the pool is served, mounted [nosuid] and
    [nodev] at the mount point of the command line; each inode that an option names is the file the
    last of these options asks for (remote or local, verified against the root its tree storage
    gave, unverified, or new and verified, on the storage and with the size of the option), and
    there is no other inode. *)
Theorem authfs_main_serves {clap : Clap} argv (w : W) mounts loop_end r w' trace :
  main (FuseHost0 := recording_host mounts loop_end) service argv (w, []) = (r, (w', trace)) →
  r ≠ Ok tt ∧
  ((trace = [] ∧
    ¬ ∃ args pool w1, Args_from_args argv = Ok args ∧
        prepare_file_pool service args w = (Ok pool, w1) ∧ mounts = Ok tt) ∨
   ∃ args pool, Args_from_args argv = Ok args ∧
     prepare_file_pool service args w = (Ok pool, w') ∧ pool_of_options args pool ∧
     trace = [authfs_mounted (mount_point args); Looped 3 65536 65536 (AuthFs.new pool 65536)]).
Proof.
  unfold main, mbind, M_bind, lift. destruct (Args_from_args argv) as [args|e| |] eqn:Hargs; cbn;
    try (intros [= <- <- <-]; split; [done|left; split; [done|]]; by intros (? & ? & ? & ? & _)).
  unfold zoom, m_map_err. cbn.
  destruct (prepare_file_pool service args w) as [[pool|e| |] w1] eqn:Hpool; cbn;
    try (intros [= <- <- <-]; split; [done|left; split; [done|]];
         by intros (? & ? & ? & [= <-] & Hp & _); rewrite Hpool in Hp).
  rewrite loop_forever_recorded.
  destruct mounts as [[]|?| |], loop_end; cbn; intros [= <- <- <-]; split; try done;
    try (left; split; [done|]; by intros (? & ? & ? & _ & _ & ?)); right;
    exists args, pool; eauto using prepare_file_pool_exact.
Qed.
End pool_spec.

(** ** Instances *)
Section instances.
#[local] Existing Instances boringssl boringssl_spec release.
#[local] Instance main_no_fsverity : VerityIoctl file_table := λ _ _ _, throw 95.
#[local] Instance no_paths : PathOps file_table :=
  {| open_path _ := throw (OsError ENOENT); read_to_end _ := throw (OsError EBADF) |}.

Lemma options_roundtrip_example :
  let s := show_int in
  parse_remote_ro_file_option (join_colon [s 5; s 10; s 1234; "/cert"]) =
    Ok {| ro_ino := 5; ro_remote_id := 10; ro_file_size := 1234; ro_certificate_path := "/cert" |} ∧
  parse_remote_ro_file_unverified_option (join_colon [s 5; s 10; s 1234]) =
    Ok {| un_ino := 5; un_remote_id := 10; un_file_size := 1234 |} ∧
  parse_remote_new_rw_file_option (join_colon [s 5; s 10]) = Ok {| rw_ino := 5; rw_remote_id := 10 |} ∧
  parse_local_file_ro_option (join_colon [s 5; "/cert"; "/b"; "/c"; "/d"]) =
    Ok {| lo_ino := 5; lo_file_path := "/cert"; lo_merkle_tree_dump_path := "/b";
          lo_signature_path := "/c"; lo_certificate_path := "/d" |} ∧
  parse_local_ro_file_unverified_ro_option (join_colon [s 5; "/cert"]) =
    Ok {| lu_ino := 5; lu_file_path := "/cert" |}.
Proof.
  apply (options_roundtrip 5 10 1234 "/cert" "/b" "/c" "/d").
  - split; lia.
  - lia.
  - split; lia.
  - repeat constructor.
Defined.

Lemma rw_option_panics_example :
  parse_remote_new_rw_file_option (join_colon ["x"; "1"]) = Panic ∧
  parse_remote_ro_file_unverified_option (join_colon ["x"; "1"; "2"]) = Err ParseIntError.
Proof.
  apply (rw_option_panics "x" "1" "2").
  - repeat constructor.
  - left. reflexivity.
Defined.

(** The help text of the options names other options than there are. *)
Lemma documented_options_unknown :
  (λ option, Args_from_args (clap := plain_clap) ["authfs"; "/mnt"; option; "5:10"]) <$>
    ["--remote-verified-file"; "--remote-unverified-file"; "--remote-new-verified-file"] =
    replicate 3 (Err BadUsage).
Proof. vm_compute. reflexivity. Qed.

Definition demo_argv : list string :=
  ["authfs"; "/mnt"; "--remote-ro-file-unverified"; "5:10:100"; "--remote-new-rw-file"; "6:11"].

Lemma authfs_main_serves_witness :
  let service := {| fd_pool := ∅ |} in
  let run := main (clap := plain_clap)
    (FuseHost0 := recording_host (Ok tt) (Err (OsError EBADF))) service demo_argv (∅, []) in
  run.1 ≠ Ok tt ∧
  ∃ args pool, Args_from_args (clap := plain_clap) demo_argv = Ok args ∧
    prepare_file_pool service args ∅ = (Ok pool, run.2.1) ∧ pool_of_options service args pool ∧
    run.2.2 = [authfs_mounted (mount_point args); Looped 3 65536 65536 (AuthFs.new pool 65536)].
Proof.
  intros service run.
  destruct (authfs_main_serves (clap := plain_clap) service demo_argv ∅ (Ok tt) (Err (OsError EBADF))
              run.1 run.2.1 run.2.2) as [Hr [[Ht _]|Ht]].
  - subst run. destruct (main _ _ _) as [? [??]]. reflexivity.
  - exfalso. revert Ht. vm_compute. discriminate.
  - split; [exact Hr|exact Ht].
Defined.
End instances.
