(* ===== verification/AuthFsAnswers.v ===== *)
(** * The file system always answers (authfs/src)

    authfs runs where its server is not trusted, so it matters that no answer
    of the server can stop it: a panic in a handler ends a worker and poisons
    the lock it holds.  [returns] is a total program logic for handlers: the
    computation ends, with a value or an error, and never panics.  Every
    handler is put together from it, down to the calls of the service, about
    whose answers nothing is assumed except that a write reports a count
    between one and the length of the buffer.  That assumption is needed:
    [write_all_stuck], [remote_write_count_panics].  Memory is taken to be unbounded: a write far
    beyond the end of a file grows the list of leaves accordingly. *)
From S2P Require Import Prelude RustInt Crypto Common Fsverity Merkle Builder File Os Fuse Clap.
From S2P Require Import FdServer LocalFile Verifier VerifierProps Editor EditorProps EditorTypes.
From S2P Require Import RemoteFile AuthFs AuthFsProps AuthFsMain.

(** ** A logic of computations that return

    [m] keeps [P] and ends with an error or with a value that satisfies [Q]. *)
Section returns.
Context {S E : Type} (P : S → Prop).

Definition returns {A} (m : M S E A) (Q : A → Prop) : Prop :=
  ∀ s, P s → P (m s).2 ∧
    match (m s).1 with Ok a => Q a | Err _ => True | Panic | OutOfFuel => False end.

Lemma returns_bind {A B} (m : M S E A) (f : A → M S E B) Q R :
  returns m Q → (∀ a, Q a → returns (f a) R) → returns (m ≫= f) R.
Proof.
  intros Hm Hf s Hs. unfold mbind, M_bind. destruct (Hm s Hs) as [Hs' Ha].
  destruct (m s) as [[a|e| |] s']; simpl in *; try done. by apply Hf.
Qed.
Lemma returns_ret {A} (a : A) (Q : A → Prop) : Q a → returns (mret a) Q.
Proof. by intros Ha s Hs. Qed.
Lemma returns_lift {A} (a : A) (Q : A → Prop) : Q a → returns (lift (Ok a)) Q.
Proof. by intros Ha s Hs. Qed.
Lemma returns_throw {A} (e : E) (Q : A → Prop) : returns (throw e) Q.
Proof. by intros s Hs. Qed.
Lemma returns_bind_Ok {A B} (a : A) (f : A → M S E B) R :
  returns (f a) R → returns (lift (Ok a) ≫= f) R.
Proof. intros Hf. exact Hf. Qed.

(** A result that is [Ok] or [Err]. *)
Lemma returns_outcome {A} (m : outcome E A) (Q : A → Prop) :
  (∀ a, m = Ok a → Q a) → (∃ a, m = Ok a) ∨ (∃ e, m = Err e) → returns (lift m) Q.
Proof. intros HQ [[a ->]|[e ->]] s Hs; simpl; auto. Qed.

Lemma returns_mfold {A B} (f : A → B → M S E A) (Q : A → Prop) acc l :
  Q acc → (∀ a b, b ∈ l → Q a → returns (f a b) Q) → returns (mfold f acc l) Q.
Proof.
  revert acc. induction l as [|b l IH]; intros acc Hq Hf; cbn [mfold]; [by apply returns_ret|].
  eapply returns_bind; [apply Hf; [apply elem_of_cons; by left|done]|]. intros a Ha.
  apply IH; [done|]. intros a' b' Hb. apply Hf. apply elem_of_cons. by right.
Qed.
End returns.

Lemma returns_map_err {S E E' A} (P : S → Prop) (g : E → E') (m : M S E A) (Q : A → Prop) :
  returns P m Q → returns P (m_map_err g m) Q.
Proof.
  intros Hm s Hs. unfold m_map_err. destruct (Hm s Hs) as [Hs' Ha].
  by destruct (m s) as [[a|e| |] s'].
Qed.

Lemma returns_zoom {S V E A} (P : S → Prop) (P' : V → Prop) get put (m : M V E A) (Q : A → Prop) :
  (∀ s, P s → P' (get s)) → (∀ v s, P s → P' v → P (put v s)) →
  returns P' m Q → returns P (zoom get put m) Q.
Proof.
  intros Hget Hput Hm s Hs. unfold zoom. destruct (Hm (get s) (Hget s Hs)) as [Hv Ha].
  destruct (m (get s)) as [r v]. simpl in *. auto.
Qed.

Lemma returns_catch {S E A} (P : S → Prop) (m : M S (control E A) A) :
  returns P m (λ _, True) → returns P (catch_return m) (λ _, True).
Proof.
  intros Hm s Hs. unfold catch_return. destruct (Hm s Hs) as [Hs' Ha].
  by destruct (m s) as [[a|[a|e]| |] s'].
Qed.

(** A loop over the pieces of a range is a loop over a list of them. *)
Lemma returns_try_fold {S E A} (P : S → Prop) (f : A → Z * Z → M S E A) acc rem off (Q : A → Prop) :
  0 ≤ rem → 0 ≤ off → off + rem < u64_limit →
  (∀ l, chunking CHUNK_SIZE off rem l → returns P (mfold f acc l) Q) →
  returns P (ChunkedSizeIter.try_fold (ChunkedSizeIter.new rem off CHUNK_SIZE) acc f) Q.
Proof.
  intros Hr Ho Hlim Hl s Hs. destruct (try_fold_ranges CHUNK_SIZE ltac:(lia) off rem Hr Ho Hlim)
    as (l & Hc & Hf). rewrite Hf. by apply Hl.
Qed.

(** A computation on a state about which nothing is known. *)
Abbreviation answers m Q := (returns (λ _, True) m Q).

(** ** Storage that answers *)

(** Abbreviated for a state about which nothing is known. *)
Abbreviation anything := (λ _, True).

(** A read of a chunk below [limit] keeps the invariant [P] of the storage and
    returns a size that fits the buffer. *)
Class ReturningReader (W F : Type) `{!ReadByChunk W F} (P : W → Prop) (fine : F → Prop) (limit : F → Z) :=
  read_chunk_returns f i buf :
    fine f → length buf = csz → 0 ≤ i → i * CHUNK_SIZE < limit f →
    returns P (read_chunk f i buf) (λ p : Z * list byte, 0 ≤ p.1 ≤ CHUNK_SIZE ∧ length p.2 = csz).

(** A write of a non-empty buffer of the size of a chunk at most takes some of it. *)
Class ReturningWriter (W F : Type) `{!RandomWrite W F} := {
  write_at_returns f buf off :
    buf ≠ [] → zlen buf ≤ CHUNK_SIZE → is_u64 off →
    answers (write_at f buf off) (λ n, 0 < n ≤ zlen buf);
  resize_returns f n : is_u64 n → answers (resize f n) (λ _, True);
}.

(** The system's file operations return, whatever they answer, and files have at
    most 2^61 bytes. *)
Class FileOpsReturn (W : Type) `{!FileOps W} := {
  file_len_returns fd : answers (file_len fd) (λ n, 0 ≤ n ≤ max_walk_size);
  read_exact_at_returns fd n off : 0 ≤ n → answers (read_exact_at fd n off) (λ bs, zlen bs = n);
}.

(** The calls of the service return, whatever they answer; a write that succeeds reports at
    least one byte and at most the length of its buffer.  Both bounds are needed: with a count of
    zero [write_all_at] asks again for ever ([write_all_stuck]), with a negative one it overflows
    ([remote_write_count_panics]). *)
Class ServiceReturns (W S : Type) `{!IVirtFdService W S} := {
  readFile_returns s fd off n : answers (readFile s fd off n) (λ _, True);
  readFsveritySignature_returns s fd : answers (readFsveritySignature s fd) (λ _, True);
  readFsverityMerkleTree_returns s fd off n : answers (readFsverityMerkleTree s fd off n) (λ _, True);
  writeFile_returns s fd buf off :
    buf ≠ [] → zlen buf ≤ i32_max → answers (writeFile s fd buf off) (λ n, 0 < n ≤ zlen buf);
  service_resize_returns s fd n : answers (service_resize s fd n) (λ _, True);
}.

Lemma returns_try_from {S E} (P : S → Prop) (e : E) n :
  returns P (lift (i64_try_from e n)) (λ m, m = n ∧ n ≤ i64_max).
Proof.
  apply returns_outcome; unfold i64_try_from; destruct (Z.leb_spec n i64_max); naive_solver.
Qed.

#[global] Instance LocalFileReader_returns {bm : BuildMode} {W} `{!FileOps W, !FileOpsReturn W}
  : ReturningReader W LocalFileReader anything (λ f, local_size f ≤ max_walk_size) (λ _, u64_limit).
Proof.
  intros f i buf Hsz Hl Hi Hlim. unfold read_chunk, LocalFileReader_read_chunk, LocalFileReader.read_chunk.
  rewrite u64_mul_Ok by lia. apply returns_bind_Ok.
  destruct (Z.leb_spec (local_size f) (i * CHUNK_SIZE)); [apply returns_ret; simpl; lia|].
  rewrite u64_add_Ok by lia. apply returns_bind_Ok.
  rewrite u64_sub_Ok by lia. apply returns_bind_Ok.
  rewrite (proj2 (Z.leb_le _ _)), debug_assert_true by lia. apply returns_bind_Ok.
  eapply returns_bind; [apply read_exact_at_returns; lia|]. intros bs Hbs. cbv beta in Hbs. apply returns_ret. cbn [fst snd].
  split; [lia|]. rewrite length_app, length_drop. lia.
Qed.

Section remote_returns.
Context {W S : Type} `{!IVirtFdService W S, !ServiceReturns W S}.

Lemma copy_chunk_fits chunk buf :
  length buf = csz →
  0 ≤ (copy_chunk chunk buf).1 ≤ CHUNK_SIZE ∧ length (copy_chunk chunk buf).2 = csz.
Proof.
  intros Hl. destruct (copy_chunk_prefix chunk buf Hl) as (data & <- & Hd & ->).
  split; [lia|]. rewrite length_app, length_drop. lia.
Qed.

Lemma remote_read_chunk_returns (service : S) fd i buf :
  length buf = csz → 0 ≤ i → i * CHUNK_SIZE < u64_limit →
  answers (remote_read_chunk service fd i buf)
    (λ p : Z * list byte, 0 ≤ p.1 ≤ CHUNK_SIZE ∧ length p.2 = csz).
Proof.
  intros Hl Hi Hlim. unfold remote_read_chunk. rewrite u64_mul_Ok by lia. apply returns_bind_Ok.
  eapply returns_bind; [apply returns_try_from|]. intros off _.
  eapply returns_bind; [apply returns_map_err, readFile_returns|]. intros chunk _.
  apply returns_ret. by apply copy_chunk_fits.
Qed.

#[global] Instance RemoteFileReader_returns
  : ReturningReader W (RemoteFileReader S) anything (λ _, True) (λ _, u64_limit).
Proof. intros f i buf _. apply remote_read_chunk_returns. Qed.
#[global] Instance RemoteFileEditor_returns
  : ReturningReader W (RemoteFileEditor S) anything (λ _, True) (λ _, u64_limit).
Proof. intros f i buf _. apply remote_read_chunk_returns. Qed.
#[global] Instance RemoteMerkleTreeReader_returns
  : ReturningReader W (RemoteMerkleTreeReader S) anything (λ _, True) (λ _, u64_limit).
Proof.
  intros f i buf _ Hl Hi Hlim. unfold read_chunk, RemoteMerkleTreeReader_read.
  rewrite u64_mul_Ok by lia. apply returns_bind_Ok.
  eapply returns_bind; [apply returns_try_from|]. intros off _.
  eapply returns_bind; [apply returns_map_err, readFsverityMerkleTree_returns|]. intros chunk _.
  apply returns_ret. by apply copy_chunk_fits.
Qed.

#[global] Instance RemoteFileEditor_writes : ReturningWriter W (RemoteFileEditor S).
Proof.
  split.
  - intros f buf off Hb Hl Ho. unfold write_at, RemoteFileEditor_write.
    eapply returns_bind; [apply returns_try_from|]. intros o _.
    eapply returns_bind; [apply returns_map_err, writeFile_returns; [done|lia]|]. intros n Hn. cbv beta in Hn.
    apply returns_ret. unfold as_u64. rewrite Z.mod_small by lia. done.
  - intros f n Hn. unfold resize, RemoteFileEditor_write.
    eapply returns_bind; [apply returns_try_from|]. intros o _.
    eapply returns_bind; [apply returns_map_err, service_resize_returns|]. intros ? _.
    by apply returns_ret.
Qed.
End remote_returns.

(** ** The verifying reader *)
Section verified_returns.
Context `{!Sha256FFI, !Sha256Spec} {W F T : Type} `{!ReadByChunk W F, !ReadByChunk W T}.
Context (fine : F → Prop) `{!ReturningReader W F anything fine (λ _, u64_limit)}.
Context (fine_tree : T → Prop) `{!ReturningReader W T anything fine_tree (λ _, u64_limit)}.

Lemma hash_with_padding_Ok chunk :
  (length chunk ≤ csz)%nat → ∃ h, hash_with_padding chunk CHUNK_SIZE = Ok h.
Proof.
  intros Hl. unfold hash_with_padding. rewrite u64_sub_Ok by lia. cbn [mbind outcome_bind].
  hash_step. hash_step. rewrite slice_Ok by (unfold ZEROS; rewrite ?length_zero_buffer; lia).
  cbn [mbind outcome_bind]. hash_steps. eauto.
Qed.

(** The walk names a page below 2^52 and a hash inside it. *)
Definition step_fine (step : Z * Z) : Prop :=
  0 ≤ step.1 ∧ step.1 * CHUNK_SIZE < u64_limit ∧ 0 ≤ step.2 ∧ step.2 + HASH_SIZE ≤ CHUNK_SIZE.

Lemma walk_fine {E} idx size :
  0 < size ≤ max_walk_size → 0 ≤ idx → idx * CHUNK_SIZE < size →
  ∃ steps, fsverity_walk (E := E) idx size = Ok steps ∧ Forall step_fine steps.
Proof.
  intros Hs Hi Hr. destruct (merkle_tree_height_spec (E := E) size) as (k & _ & Hk); [lia|].
  exists (step_at size idx k <$> seq 0 (S k)). split; [by apply fsverity_walk_spec|].
  apply Forall_fmap, Forall_seq. intros x Hx. unfold step_at, step_fine, compose. simpl.
  pose proof (base_bound size k Hs Hk x ltac:(lia)). pose proof (pow128_pos (Z.of_nat x + 1)).
  pose proof (Z.div_pos idx (128 ^ (Z.of_nat x + 1)) ltac:(lia) ltac:(lia)).
  assert (idx / 128 ^ (Z.of_nat x + 1) ≤ idx) by (apply Z.div_le_upper_bound; nia).
  pose proof (Z.mod_pos_bound (idx / 128 ^ Z.of_nat x) 128 ltac:(lia)).
  lia.
Qed.

Lemma verity_step_returns tree h step :
  fine_tree tree → step_fine step → answers (verity_step tree h step) (λ _, True).
Proof.
  intros Ht (Hi & Hlim & Ho & Hend). destruct step as [i o]. unfold verity_step. cbn [fst snd] in *.
  eapply returns_bind.
  { apply returns_map_err, read_chunk_returns; [done|apply length_zero_buffer|done|lia]. }
  intros [n page] [_ Hp]. simpl in Hp. rewrite slice_Ok by lia. apply returns_bind_Ok.
  case_bool_decide; [|apply returns_throw].
  destruct (hash_with_padding_Ok page) as [h' ->]; [lia|]. by apply returns_lift.
Qed.

Lemma verity_check_returns chunk idx size tree :
  fine_tree tree → (length chunk ≤ csz)%nat → size ≤ max_walk_size → 0 ≤ idx →
  idx * CHUNK_SIZE < size → answers (verity_check chunk idx size tree) (λ _, True).
Proof.
  intros Ht Hl Hs Hi Hr. unfold verity_check. rewrite (proj2 (Z.eqb_neq _ _)) by lia. simpl.
  apply returns_bind_Ok. destruct (hash_with_padding_Ok chunk Hl) as [h ->]. apply returns_bind_Ok.
  destruct (walk_fine (E := FsverityError) idx size) as (steps & -> & Hsteps); [lia..|].
  apply returns_bind_Ok. apply returns_mfold; [done|]. intros a b Hb _.
  apply verity_step_returns; [done|]. by eapply Forall_forall.
Qed.

(** A verified file reads any of its chunks; the chunks of a file larger than
    2^61 bytes are left out, their walk overflows. *)
#[global] Instance VerifiedFileReader_returns
  : ReturningReader W (VerifiedFileReader F T) anything
      (λ r, fine (chunked_file r) ∧ fine_tree (merkle_tree r) ∧ verified_file_size r ≤ max_walk_size)
      verified_file_size.
Proof.
  intros r i buf (Hf & Ht & Hs) Hl Hi Hlim. unfold read_chunk, VerifiedFileReader_read_chunk.
  eapply returns_bind; [apply read_chunk_returns; done || lia|]. intros [n b] [Hn Hb]. simpl in *.
  rewrite slice_Ok by lia. apply returns_bind_Ok.
  eapply returns_bind.
  { apply returns_map_err, verity_check_returns; try done. rewrite length_take. lia. }
  intros root _. case_bool_decide; [by apply returns_ret|apply returns_throw].
Qed.
End verified_returns.

(** ** The loop of [read_chunks] *)
Section read_returns.
Context {W T : Type} `{!ReadByChunk W T} (P : W → Prop) (fine : T → Prop) (limit : T → Z).
Context `{!ReturningReader W T P fine limit}.

(** The reply so far and the storage. *)
Lemma read_piece_returns (file : T) total o n :
  fine file → 0 ≤ o < limit file → 0 < n ≤ CHUNK_SIZE - o `mod` CHUNK_SIZE →
  0 ≤ total → total + n < u64_limit →
  returns (λ s, P s.2) (read_piece (O := list byte) file total (o, n)) (λ t, t = total + n).
Proof.
  intros Hf Ho Hn Ht Hlim. pose proof (Z.mod_pos_bound o CHUNK_SIZE ltac:(lia)).
  pose proof (Z.div_mod o CHUNK_SIZE ltac:(lia)).
  assert (0 ≤ o / CHUNK_SIZE) by (apply Z.div_pos; lia).
  unfold read_piece, offset_to_chunk_index. eapply returns_bind.
  { apply (returns_zoom _ P); [done..|].
    apply read_chunk_returns; [done|apply length_zero_buffer|done|lia]. }
  intros [rs buf] [Hrs Hb]. cbn [fst snd] in *.
  destruct (rs <? n); [apply returns_throw|].
  rewrite u64_add_Ok by lia. apply returns_bind_Ok.
  rewrite slice_Ok by lia. apply returns_bind_Ok.
  eapply (returns_bind _ _ _ (λ s, s = n)).
  { intros [out w] Hp. split; [done|]. simpl. rewrite length_take, length_drop. lia. }
  intros s ->. rewrite Z.eqb_refl. simpl. rewrite u64_add_Ok by lia. by apply returns_lift.
Qed.

Lemma read_chunks_returns (file : T) file_size offset size :
  fine file → is_u64 file_size → file_size ≤ limit file → is_u64 offset → 0 ≤ size < u32_limit →
  returns (λ s, P s.2) (read_chunks (O := list byte) file file_size offset size) (λ _, True).
Proof.
  unfold is_u64. intros Hf Hfs Hl Ho Hs. unfold read_chunks, saturating_sub. cbv zeta.
  destruct (decide (offset < file_size)) as [Hin|Hout].
  2: { rewrite Z.max_l, Z.min_r by lia. intros s Hp. by split. }
  set (n := Z.min size _). apply returns_try_fold; [lia..|]. intros l Hc.
  enough (∀ total o rem l, chunking CHUNK_SIZE o rem l → 0 ≤ o → 0 ≤ rem → o + rem ≤ file_size →
    0 ≤ total → total + rem < u64_limit →
    returns (λ s, P s.2) (mfold (read_piece (O := list byte) file) total l) (λ _, True)) as Hloop.
  { apply (Hloop 0 offset n); [done|lia..]. }
  clear l Hc. intros total o rem l Hc. revert total.
  induction Hc as [o|o rem l k Hrem Hk Hc IH]; intros total Ho' Hr Hend Ht Hlim; cbn [mfold];
    [by apply returns_ret|]. pose proof (Z.mod_pos_bound o CHUNK_SIZE ltac:(lia)).
  eapply returns_bind; [apply read_piece_returns; done || lia|]. intros t ->. apply IH; lia.
Qed.
End read_returns.

(** ** Writes *)
Section write_returns.
Context {W F : Type} `{!RandomWrite W F, !ReturningWriter W F}.

Lemma write_all_loop_returns fuel (f : F) buf n off :
  zlen buf ≤ CHUNK_SIZE → (n ≤ length buf)%nat → 0 ≤ off → off + zlen buf < u64_limit →
  (length buf - n < fuel)%nat →
  answers (write_all_loop fuel f buf (Z.of_nat n) (off + Z.of_nat n)) (λ _, True).
Proof.
  revert n. induction fuel as [|fuel IH]; intros n Hsz Hn Ho Hlim Hf; [lia|]. cbn [write_all_loop].
  destruct (Z.ltb_spec (Z.of_nat n) (zlen buf)); [|by apply returns_ret].
  rewrite slice_Ok by lia. apply returns_bind_Ok.
  eapply returns_bind.
  { apply write_at_returns; unfold is_u64; [|rewrite length_take, length_drop; lia|lia].
    intros Hnil. apply (f_equal length) in Hnil. rewrite length_take, length_drop in Hnil. simpl in *. lia. }
  intros k Hk. cbv beta in Hk. rewrite length_take, length_drop in Hk.
  rewrite !u64_add_Ok by lia. do 2 apply returns_bind_Ok.
  replace (Z.of_nat n + k) with (Z.of_nat (n + Z.to_nat k)) by lia.
  replace (off + Z.of_nat n + k) with (off + Z.of_nat (n + Z.to_nat k)) by lia. apply IH; lia.
Qed.

Lemma write_all_at_returns fuel (f : F) buf off :
  zlen buf ≤ CHUNK_SIZE → 0 ≤ off → off + zlen buf < u64_limit → (csz < fuel)%nat →
  answers (write_all_at fuel f buf off) (λ _, True).
Proof.
  intros Hsz Ho Hlim Hf. unfold write_all_at. rewrite <- (Z.add_0_r off).
  apply (write_all_loop_returns fuel f buf 0); lia.
Qed.
End write_returns.

(** ** The verified writer *)
Section editor_returns.
Context `{!Sha256FFI, !Sha256Spec} {bm : BuildMode} {wf : WriteFuel} {W F : Type}.
Context `{!ReadByChunk W F, !RandomWrite W F, !ReturningWriter W F}.
Context `{!ReturningReader W F anything (λ _, True) (λ _, u64_limit)}.
Import VerifiedFileEditor.
Implicit Types (ed : VerifiedFileEditor F).

Abbreviation keeps_types m Q := (returns (state_typed (W := W)) m Q).

Lemma returns_get_tree {E} : keeps_types (get_tree (E := E)) tree_typed.
Proof. intros s Hs. by split. Qed.
Lemma returns_put_tree {E} t : tree_typed t → keeps_types (put_tree (E := E) t) (λ _, True).
Proof. intros Ht s Hs. by split. Qed.
Lemma returns_on_file {E A} (m : M W E A) Q : answers m Q → keeps_types (on_file m) Q.
Proof. intros Hm. by apply (returns_zoom _ (λ _, True)). Qed.

#[global] Instance VerifiedFileEditor_returns
  : ReturningReader (MerkleLeaves * W) (VerifiedFileEditor F) state_typed (λ _, True) (λ _, u64_limit).
Proof. intros ed i buf _ Hl Hi Hlim. by apply returns_on_file, read_chunk_returns. Qed.

Lemma editor_read_returns ed i :
  0 ≤ i → i * CHUNK_SIZE < u64_limit →
  keeps_types (VerifiedFileEditor.read_chunk ed i (zeros CHUNK_SIZE))
    (λ p : Z * list byte, 0 ≤ p.1 ≤ CHUNK_SIZE ∧ length p.2 = csz).
Proof.
  intros Hi Hlim. by apply returns_on_file, read_chunk_returns.
Qed.

Lemma new_chunk_hash_returns ed source a n idx t :
  0 ≤ a → a + zlen source ≤ CHUNK_SIZE → 0 ≤ idx → idx * CHUNK_SIZE < u64_limit →
  keeps_types (new_chunk_hash ed source a n idx t) is_hash.
Proof.
  intros Ha Hs Hi Hlim. assert (∀ m : list byte, is_hash (sha256 m)) as Hlen by apply length_sha256.
  unfold new_chunk_hash. destruct (n =? CHUNK_SIZE).
  { hash_steps. by apply returns_lift. }
  unfold new_hash_for_incomplete_write.
  eapply (returns_bind _ _ _ (λ orig, length orig = csz)).
  - destruct (MerkleLeaves.is_index_valid t idx); [|apply returns_ret, length_zero_buffer].
    eapply returns_bind; [by apply editor_read_returns|]. intros [? orig] [_ Ho]. cbn [fst snd] in Ho.
    hash_steps. apply returns_bind_Ok.
    destruct (negb _); [apply returns_throw|by apply returns_ret].
  - intros orig Ho. cbv beta in Ho. rewrite slice_Ok by lia. apply returns_bind_Ok.
    rewrite u64_add_Ok by lia. apply returns_bind_Ok. rewrite slice_Ok by lia. apply returns_bind_Ok.
    hash_steps. by apply returns_lift.
Qed.

Lemma update_hash_returns {E} t i h sz :
  tree_typed t → is_hash h → is_u64 sz → i + 1 < u64_limit →
  ∃ t', MerkleLeaves.update_hash (E := E) t i h sz = Ok t' ∧ tree_typed t'.
Proof.
  intros Ht Hh Hsz Hi. destruct (MerkleLeaves.update_hash t i h sz) as [t'|e| |] eqn:Hu;
    [by eauto using update_hash_typed|unfold MerkleLeaves.update_hash in Hu;
     by rewrite u64_add_Ok in Hu..].
Qed.

Lemma write_piece_returns ed buf off o n :
  (csz < write_fuel)%nat → is_u64 off → off + zlen buf < u64_limit →
  off ≤ o → 0 < n ≤ CHUNK_SIZE - o `mod` CHUNK_SIZE → o + n ≤ off + zlen buf →
  keeps_types (write_piece ed buf off (o, n)) (λ _, True).
Proof.
  unfold is_u64. intros Hf Hoff Hlim Ho Hn Hend. pose proof (Z.mod_pos_bound o CHUNK_SIZE ltac:(lia)).
  pose proof (Z.div_mod o CHUNK_SIZE ltac:(lia)).
  assert (0 ≤ o / CHUNK_SIZE) by (apply Z.div_pos; lia).
  unfold write_piece. eapply returns_bind; [apply returns_get_tree|]. intros t Ht.
  rewrite u64_sub_Ok by lia. apply returns_bind_Ok. rewrite u64_add_Ok by lia. apply returns_bind_Ok.
  rewrite slice_Ok by lia. apply returns_bind_Ok.
  set (source := take _ _). assert (zlen source = n).
  { subst source. rewrite length_take, length_drop. lia. }
  eapply returns_bind; [apply returns_map_err, new_chunk_hash_returns; lia|]. intros h Hh.
  eapply returns_bind; [apply returns_map_err, returns_on_file, write_all_at_returns; lia|].
  intros ? _. destruct (update_hash_returns (E := control io_error Z) t (o / CHUNK_SIZE) h
    (u64_saturating_add off (zlen buf)) Ht Hh) as (t' & -> & Ht'); [|lia|].
  { apply saturating_add_typed; lia. }
  apply returns_bind_Ok. by apply returns_put_tree.
Qed.

Lemma editor_write_returns ed buf off :
  (csz < write_fuel)%nat → is_u64 off → off + zlen buf < u64_limit →
  keeps_types (VerifiedFileEditor.write_at ed buf off) (λ _, True).
Proof.
  intros Hf Hoff Hlim. unfold VerifiedFileEditor.write_at. rewrite usize_is_u64.
  apply returns_bind_Ok, returns_catch. eapply (returns_bind _ _ _ (λ _, True)); [|by intros; apply returns_ret].
  apply returns_try_fold; [lia|apply Hoff|lia|]. intros l Hc. apply returns_mfold; [done|].
  intros [] [o n] Hin _. destruct (chunking_size CHUNK_SIZE ltac:(lia) _ _ _ _ _ Hc Hin)
    as (H1 & H2 & H3 & H4). apply write_piece_returns; done || lia.
Qed.

(** In a debug build a server that serves too little of the block that is cut
    makes the assertion fail, so these are release builds. *)
Lemma editor_resize_returns ed n :
  debug_assertions = false → 0 ≤ n → n + CHUNK_SIZE < u64_limit →
  keeps_types (VerifiedFileEditor.resize ed n) (λ _, True).
Proof.
  intros Hrel Hn Hlim. pose proof (Z.mod_pos_bound n CHUNK_SIZE ltac:(lia)).
  pose proof (Z.div_mod n CHUNK_SIZE ltac:(lia)). assert (0 ≤ n / CHUNK_SIZE) by (apply Z.div_pos; lia).
  assert (is_u64 n) as Hu by (unfold is_u64; lia).
  unfold VerifiedFileEditor.resize. rewrite usize_is_u64. apply returns_bind_Ok.
  eapply returns_bind; [apply returns_get_tree|]. intros t Ht.
  eapply (returns_bind _ _ _ (λ _, True)).
  - destruct (_ && _); [|by apply returns_ret]. destruct (0 <? n `mod` CHUNK_SIZE); [|by apply returns_ret].
    eapply returns_bind; [apply editor_read_returns; lia|]. intros [s buf] [_ Hb]. cbn [fst snd] in Hb.
    unfold debug_assert. rewrite Hrel. apply returns_bind_Ok.
    rewrite slice_Ok by lia. apply returns_bind_Ok. hash_steps. apply returns_bind_Ok.
    destruct (update_hash_returns (E := io_error) t (n / CHUNK_SIZE)
      (sha256 (take (Z.to_nat (n `mod` CHUNK_SIZE - 0)) (drop (Z.to_nat 0) buf) ++
         zeros (CHUNK_SIZE - n `mod` CHUNK_SIZE))) n Ht) as (t' & -> & Ht'); [apply length_sha256|done|lia|].
    apply returns_bind_Ok. by apply returns_put_tree.
  - intros ? _. eapply returns_bind; [by apply returns_on_file, resize_returns|]. intros ? _.
    eapply returns_bind; [apply returns_get_tree|]. intros t1 Ht1.
    destruct (MerkleLeaves.resize t1 n) as [t'|e| |] eqn:Hr;
      [|unfold MerkleLeaves.resize in Hr; by rewrite divide_roundup_Ok in Hr by lia..].
    apply returns_bind_Ok, returns_put_tree. by apply (resize_typed _ _ _ Ht1 Hu) in Hr.
Qed.
End editor_returns.

(** Side conditions on sizes. *)
Ltac fine := first [done | unfold is_u64; cbv beta; lia].

(** ** The handlers *)

(** A request as the kernel sends it, and what is replied. *)
Inductive fs_request :=
| LookupRequest (parent : Z) (name : string)
| GetattrRequest (inode : Z)
| OpenRequest (inode flags : Z)
| ReadRequest (inode size offset : Z)
| WriteRequest (inode : Z) (data : list byte) (size offset : Z)
| SetattrRequest (inode : Z) (attr : stat64) (valid : SetattrValid).

Inductive fs_reply :=
| EntryReply (entry : Entry)
| AttrReply (attr : stat64) (timeout : Z)
| OpenReply (handle : option Z) (options : OpenOptions)
| DataReply (count : Z) (data : list byte)
| CountReply (count : Z).

(** The types of the arguments: 64-bit offsets, 32-bit sizes, and a range that is
    written ends inside 64 bits; sizes to set are offsets of files. *)
Definition request_fine (r : fs_request) : Prop :=
  match r with
  | ReadRequest _ size offset => 0 ≤ size < u32_limit ∧ is_u64 offset
  | WriteRequest _ _ size offset => 0 ≤ size < u32_limit ∧ is_u64 offset ∧ offset + size < u64_limit
  | SetattrRequest _ attr valid => valid_SIZE valid = true → 0 ≤ st_size attr ≤ i64_max
  | _ => True
  end.

Section serve.
Context `{!Sha256FFI} {bm : BuildMode} {wf : WriteFuel} {W S : Type}.
Context `{!FileOps W, !IVirtFdService W S}.

(** Reads [size] bytes into a reply of their own. *)
Definition read_reply (self : AuthFs S) (inode size offset : Z) : M (fs_state W) io_error fs_reply :=
  λ st, let '(r, (out, st')) := AuthFs.read self inode size offset ([] : list byte, st) in
        (r ≫= λ n, Ok (DataReply n out), st').

Definition handle (self : AuthFs S) (request : fs_request) : M (fs_state W) io_error fs_reply :=
  match request with
  | LookupRequest parent name => e ← AuthFs.lookup self parent name; mret (EntryReply e)
  | GetattrRequest inode => '(a, t) ← AuthFs.getattr self inode; mret (AttrReply a t)
  | OpenRequest inode flags => '(h, o) ← lift (AuthFs.open self inode flags); mret (OpenReply h o)
  | ReadRequest inode size offset => read_reply self inode size offset
  | WriteRequest inode data size offset =>
      n ← AuthFs.write self inode data size offset; mret (CountReply n)
  | SetattrRequest inode attr valid =>
      '(a, t) ← AuthFs.setattr self inode attr valid; mret (AttrReply a t)
  end.

(** Requests one after the other; a panic, or a handler that does not return, ends
    the service. *)
Fixpoint serve (self : AuthFs S) (requests : list fs_request) (st : fs_state W)
    : list (outcome io_error fs_reply) * fs_state W :=
  match requests with
  | [] => ([], st)
  | request :: requests =>
      let '(reply, st) := handle self request st in
      match reply with
      | Ok _ | Err _ => let '(replies, st) := serve self requests st in (reply :: replies, st)
      | Panic | OutOfFuel => ([reply], st)
      end
  end.
End serve.

(** An answer: a value or an error number. *)
Definition answered {A} (r : outcome io_error A) : Prop :=
  match r with Ok _ | Err _ => True | Panic | OutOfFuel => False end.

(** Sizes are 64 bits wide, those of verified files are at most 2^61. *)
Definition config_fine {S} (config : FileConfig S) : Prop :=
  match config with
  | LocalVerifiedReadonlyFile r n =>
      local_size (chunked_file r) ≤ max_walk_size ∧ local_size (merkle_tree r) ≤ max_walk_size ∧
      verified_file_size r = n ∧ 0 ≤ n ≤ max_walk_size
  | LocalUnverifiedReadonlyFile r n => local_size r ≤ max_walk_size ∧ is_u64 n
  | RemoteVerifiedReadonlyFile r n => verified_file_size r = n ∧ 0 ≤ n ≤ max_walk_size
  | RemoteUnverifiedReadonlyFile r n => is_u64 n
  | RemoteVerifiedNewFile _ => True
  end.

(** The trees of all new files keep their types. *)
Definition trees_typed {W} (st : fs_state W) : Prop := ∀ inode, tree_typed (AuthFs.tree_of inode st).

Section handlers.
Context `{!Sha256FFI, !Sha256Spec} {bm : BuildMode} {wf : WriteFuel} {W S : Type}.
Context `{!FileOps W, !IVirtFdService W S, !FileOpsReturn W, !ServiceReturns W S}.
Context (Hrelease : debug_assertions = false) (Hfuel : (csz < write_fuel)%nat).
Context (self : AuthFs S) (Hpool : map_Forall (λ _, config_fine) (file_pool self)).

Abbreviation serves m Q := (returns (trees_typed (W := W)) m Q).

Lemma trees_typed_insert inode t trees (w w' : W) :
  trees_typed (trees, w) → tree_typed t → trees_typed (<[inode := t]> trees, w').
Proof.
  intros Hs Ht j. unfold AuthFs.tree_of. simpl. destruct (decide (j = inode)) as [->|Hj].
  - by rewrite lookup_insert_eq.
  - rewrite lookup_insert_ne by done. apply (Hs j).
Qed.

Lemma with_editor_returns {E A} inode (m : M (MerkleLeaves * W) E A) Q :
  returns state_typed m Q → serves (AuthFs.with_editor inode m) Q.
Proof.
  apply returns_zoom.
  - intros st Hs. apply Hs.
  - intros [t w] [trees w'] Hs Ht. by apply (trees_typed_insert _ _ _ w').
Qed.

Lemma get_file_config_returns inode : serves (lift (AuthFs.get_file_config self inode)) config_fine.
Proof.
  unfold AuthFs.get_file_config. destruct (file_pool self !! inode) as [config|] eqn:Hc.
  - apply returns_lift. by apply (Hpool inode).
  - apply returns_throw.
Qed.

Lemma create_stat_returns ino size mode : 0 ≤ size → serves (lift (create_stat ino size mode)) (λ _, True).
Proof.
  intros Hs. apply returns_outcome; [done|]. destruct (decide (size ≤ i64_max)).
  - destruct (create_stat_Ok ino size mode) as (a & -> & _); [lia|]. eauto.
  - right. unfold create_stat, i64_try_from. rewrite (proj2 (Z.leb_gt _ _)) by lia. eauto.
Qed.

Lemma editor_size_returns {F} inode (ed : VerifiedFileEditor F) :
  serves (AuthFs.with_editor inode (VerifiedFileEditor.size ed)) is_u64.
Proof. apply with_editor_returns. intros s Hs. split; [done|]. apply Hs. Qed.

Lemma stat_of_config_returns inode (config : FileConfig S) :
  config_fine config → serves (stat_of_config inode config) (λ _, True).
Proof.
  unfold config_fine, is_u64. destruct config; intros Hc; cbn [stat_of_config];
    try (apply create_stat_returns; lia).
  eapply returns_bind; [apply editor_size_returns|]. intros n [Hn _]. by apply create_stat_returns.
Qed.

(** A read of a file whose chunks below [limit] can be read. *)
Lemma read_plain_returns {T} `{!ReadByChunk W T} (fine : T → Prop) limit
    `{!ReturningReader W T anything fine limit} (reader : T) file_size offset size :
  fine reader → is_u64 file_size → file_size ≤ limit reader → is_u64 offset → 0 ≤ size < u32_limit →
  returns (λ s : list byte * fs_state W, trees_typed s.2)
    (AuthFs.read_plain reader file_size offset size) (λ _, True).
Proof.
  intros Hf Hfs Hl Ho Hs. apply (returns_zoom _ anything); [done|by intros [] [? []]|].
  by apply (read_chunks_returns anything fine limit).
Qed.

Lemma read_editor_returns inode (ed : VerifiedFileEditor (RemoteFileEditor S)) file_size offset size :
  is_u64 file_size → is_u64 offset → 0 ≤ size < u32_limit →
  returns (λ s : list byte * fs_state W, trees_typed s.2)
    (AuthFs.read_editor inode ed file_size offset size) (λ _, True).
Proof.
  intros Hfs Ho Hs. apply (returns_zoom _ (λ s, state_typed s.2)).
  - intros s Ht. apply Ht.
  - intros [o [t w]] [out [trees w']] Ht Hk. by apply (trees_typed_insert _ _ _ w').
  - apply (read_chunks_returns state_typed (λ _, True) (λ _, u64_limit)); try done.
    unfold is_u64 in Hfs. lia.
Qed.

(** ** Every handler *)
Lemma lookup_returns parent name : serves (AuthFs.lookup self parent name) (λ _, True).
Proof.
  rewrite lookup_stat. eapply (returns_bind _ _ _ (λ _, True)); [by case_match; [apply returns_lift|apply returns_throw]|].
  intros num _. eapply (returns_bind _ _ _ (λ _, True)).
  { destruct (parse_u64 num); [by apply returns_lift|apply returns_throw]. }
  intros inode _. eapply returns_bind; [apply get_file_config_returns|]. intros config Hc.
  eapply returns_bind; [by apply stat_of_config_returns|]. intros st _. by apply returns_ret.
Qed.

Lemma getattr_returns inode : serves (AuthFs.getattr self inode) (λ _, True).
Proof.
  rewrite getattr_stat. eapply returns_bind; [apply get_file_config_returns|]. intros config Hc.
  eapply returns_bind; [by apply stat_of_config_returns|]. intros st _. by apply returns_ret.
Qed.

Lemma open_returns inode flags : serves (lift (AuthFs.open self inode flags)) (λ _, True).
Proof.
  apply returns_outcome; [done|]. unfold AuthFs.open, AuthFs.get_file_config, check_access_mode.
  destruct (file_pool self !! inode) as [[]|]; simpl; try case_match; simpl; eauto.
Qed.

Lemma read_returns inode size offset :
  0 ≤ size < u32_limit → is_u64 offset →
  returns (λ s : list byte * fs_state W, trees_typed s.2) (AuthFs.read self inode size offset) (λ _, True).
Proof.
  intros Hs Ho. unfold AuthFs.read. eapply (returns_bind _ _ _ config_fine).
  { intros [out st] Ht. by apply (get_file_config_returns inode st). }
  unfold config_fine, is_u64. intros [r n|r n|r n|r n|ed] Hc.
  - apply (read_plain_returns _ verified_file_size); fine.
  - apply (read_plain_returns _ (λ _, u64_limit)); fine.
  - apply (read_plain_returns _ verified_file_size); fine.
  - apply (read_plain_returns (λ _, True) (λ _, u64_limit)); fine.
  - eapply (returns_bind _ _ _ is_u64).
    { apply (returns_zoom _ trees_typed); [done..|]. apply editor_size_returns. }
    intros n Hn. by apply read_editor_returns.
Qed.

Lemma write_returns inode data size offset :
  0 ≤ size < u32_limit → is_u64 offset → offset + size < u64_limit →
  serves (AuthFs.write self inode data size offset) (λ _, True).
Proof.
  intros Hs Ho Hlim. eapply returns_bind; [apply get_file_config_returns|].
  intros [r n|r n|r n|r n|ed] _; try apply returns_throw.
  unfold AuthFs.read_exact. destruct (Z.leb_spec size (zlen data)); [|apply returns_throw].
  apply returns_bind_Ok, with_editor_returns, editor_write_returns; try done. rewrite length_take. lia.
Qed.

Lemma setattr_returns inode attr valid :
  (valid_SIZE valid = true → 0 ≤ st_size attr ≤ i64_max) →
  serves (AuthFs.setattr self inode attr valid) (λ _, True).
Proof.
  intros Hs. eapply returns_bind; [apply get_file_config_returns|].
  intros [r n|r n|r n|r n|ed] _; try apply returns_throw.
  eapply returns_bind; [apply editor_size_returns|]. intros n [Hn _].
  eapply returns_bind; [by apply create_stat_returns|]. intros a _.
  eapply (returns_bind _ _ _ (λ _, True)).
  - destruct (valid_SIZE valid); [|by apply returns_ret]. specialize (Hs eq_refl).
    rewrite (proj2 (Z.leb_le _ _)), debug_assert_true by lia. apply returns_bind_Ok.
    unfold as_u64. rewrite Z.mod_small by lia.
    eapply returns_bind; [apply with_editor_returns, editor_resize_returns; done || lia|].
    intros ? _. by apply returns_ret.
  - intros a' _. repeat case_match; by first [apply returns_throw | apply returns_ret].
Qed.

Lemma handle_returns request : request_fine request → serves (handle self request) (λ _, True).
Proof.
  destruct request as [parent name|inode|inode flags|inode size off|inode data size off|inode a v];
    unfold request_fine, handle; intros Hr.
  - eapply returns_bind; [apply lookup_returns|]. intros; by apply returns_ret.
  - eapply returns_bind; [apply getattr_returns|]. intros []; by intros; apply returns_ret.
  - eapply returns_bind; [apply open_returns|]. intros []; by intros; apply returns_ret.
  - intros st Ht. destruct (read_returns inode size off (proj1 Hr) (proj2 Hr) ([], st) Ht) as [Ht' Ha].
    unfold read_reply. by destruct (AuthFs.read self _ _ _ _) as [[n|e| |] [out st']].
  - eapply returns_bind; [apply write_returns; apply Hr|]. intros; by apply returns_ret.
  - eapply returns_bind; [by apply setattr_returns|]. intros []; by intros; apply returns_ret.
Qed.

Lemma serve_answers requests st :
  trees_typed st → Forall request_fine requests →
  length (serve self requests st).1 = length requests ∧ Forall answered (serve self requests st).1 ∧
  trees_typed (serve self requests st).2.
Proof.
  intros Ht Hr. revert st Ht. induction Hr as [|r l Hr Hl IH]; intros st Ht; [by split_and!|].
  cbn [serve]. destruct (handle_returns r Hr st Ht) as [Ht' Ha].
  destruct (handle self r st) as [[a|e| |] st']; try done;
    destruct (IH st' Ht') as (Hlen & Hans & Ht2), (serve self l st') as [replies st2]; simpl in *;
    (split_and!; [by f_equal|by constructor|done]).
Qed.
End handlers.

(** ** The pool of [prepare_file_pool] *)

(** The sizes a command line gives: 64 bits wide, at most 2^61 for a file that is
    to be verified. *)
Definition args_fine (args : Args) : Prop :=
  Forall (λ c, 0 ≤ ro_file_size c ≤ max_walk_size) (remote_ro_file args) ∧
  Forall (λ c, is_u64 (un_file_size c)) (remote_ro_file_unverified args).

(** Local files are opened and read to the end, or not. *)
Class PathOpsReturn (W : Type) `{!PathOps W} := {
  open_path_returns path : answers (open_path path) (λ _, True);
  read_to_end_returns fd : answers (read_to_end fd) (λ _, True);
}.

Section pool_fine.
Context `{!Sha256FFI, !Sha256Spec} {bm : BuildMode} {W S : Type}.
Context `{!FileOps W, !PathOps W, !IVirtFdService W S}.
Context `{!FileOpsReturn W, !PathOpsReturn W, !ServiceReturns W S} (service : S).

Lemma verified_new_returns {F T} `{!ReadByChunk W F, !ReadByChunk W T} (fine : T → Prop)
    `{!ReturningReader W T anything fine (λ _, u64_limit)} (file : F) size sig (tree : T) :
  fine tree →
  answers (VerifiedFileReader.new FakeAuthenticator.always_succeed file size sig tree)
    (λ r, chunked_file r = file ∧ verified_file_size r = size ∧ merkle_tree r = tree).
Proof.
  intros Ht. unfold VerifiedFileReader.new. eapply returns_bind.
  { apply returns_map_err, read_chunk_returns; [done|apply length_zero_buffer|fine..]. }
  intros [n buf] _. destruct (negb _); [apply returns_throw|]. hash_steps. apply returns_bind_Ok.
  rewrite build_fsverity_formatted_digest_spec.
  do 2 apply returns_bind_Ok. by apply returns_ret.
Qed.

Lemma local_new_returns fd :
  answers (LocalFileReader.new fd) (λ r, 0 ≤ local_size r ≤ max_walk_size).
Proof. eapply returns_bind; [apply file_len_returns|]. intros n Hn. by apply returns_ret. Qed.

Lemma insert_configs_returns {Opt} ino (new_config : Opt → M W AuthFsError (FileConfig S)) pool opts :
  map_Forall (λ _, config_fine) pool → Forall (λ o, answers (new_config o) config_fine) opts →
  answers (insert_configs ino new_config pool opts) (map_Forall (λ _, config_fine)).
Proof.
  intros Hp Ho. apply returns_mfold; [done|]. intros p o Hin Hq.
  eapply returns_bind; [by eapply Forall_forall in Ho; [apply Ho|]|]. intros config Hc.
  apply returns_ret. by apply map_Forall_insert_2.
Qed.

Lemma new_config_local_returns file tree sig :
  answers (new_config_local_ro_file (S := S) file tree sig) config_fine.
Proof.
  eapply returns_bind; [apply returns_map_err, open_path_returns|]. intros fd _.
  eapply returns_bind; [apply returns_map_err, file_len_returns|]. intros n Hn. cbv beta in Hn.
  eapply returns_bind; [apply returns_map_err, local_new_returns|]. intros fr Hfr. cbv beta in Hfr.
  eapply returns_bind; [apply returns_map_err, open_path_returns|]. intros tfd _.
  eapply returns_bind; [apply returns_map_err, local_new_returns|]. intros tr Htr. cbv beta in Htr.
  eapply returns_bind; [apply returns_map_err, open_path_returns|]. intros sfd _.
  eapply returns_bind; [apply returns_map_err, read_to_end_returns|]. intros s _.
  eapply returns_bind; [apply returns_map_err, (verified_new_returns (λ f, local_size f ≤ max_walk_size)); lia|].
  intros r (Hf & Hs & Ht). apply returns_ret. unfold config_fine. rewrite Hf, Hs, Ht. split_and!; try done; lia.
Qed.

(** Preparing the pool returns, and what it returns is fine. *)
Lemma prepare_file_pool_returns args :
  args_fine args → answers (prepare_file_pool service args) (map_Forall (λ _, config_fine)).
Proof.
  intros [Hro Hun]. unfold prepare_file_pool.
  eapply returns_bind; [apply insert_configs_returns; [apply map_Forall_empty|]|intros p1 Hp1].
  { eapply Forall_impl; [exact Hro|]. intros o Ho.
    eapply returns_bind; [apply returns_map_err, readFsveritySignature_returns|]. intros sig _.
    eapply returns_bind; [by apply returns_map_err, (verified_new_returns (λ _, True))|].
    intros r (_ & Hr & _). by apply returns_ret. }
  eapply returns_bind; [apply insert_configs_returns; [done|]|intros p2 Hp2].
  { eapply Forall_impl; [exact Hun|]. intros o Ho. by apply returns_ret. }
  eapply returns_bind; [apply insert_configs_returns; [done|]|intros p3 Hp3].
  { apply Forall_true. intros o. by apply returns_ret. }
  eapply returns_bind; [apply insert_configs_returns; [done|]|intros p4 Hp4].
  { apply Forall_true. intros o. apply new_config_local_returns. }
  apply insert_configs_returns; [done|]. apply Forall_true. intros o.
  eapply returns_bind; [apply returns_map_err, open_path_returns|]. intros fd _.
  eapply returns_bind; [apply returns_map_err, local_new_returns|]. intros r Hr. cbv beta in Hr.
  apply returns_ret. unfold config_fine, LocalFileReader.len. split; [lia|fine].
Qed.
End pool_fine.

(** ** Claims *)
Lemma trees_typed_new {W} (w : W) : trees_typed (∅, w).
Proof.
  intros i. unfold AuthFs.tree_of. cbn [fst]. rewrite lookup_empty. split; [constructor|simpl; fine].
Qed.

Section claims.
Context `{!Sha256FFI, !Sha256Spec} {bm : BuildMode} {wf : WriteFuel} {W S : Type}.
Context `{!FileOps W, !PathOps W, !IVirtFdService W S}.
Context `{!FileOpsReturn W, !PathOpsReturn W, !ServiceReturns W S} (service : S).

(** C5: A server can stop authfs only by the count of a write.  In a release build, with local files
    and verified files of at most 2^61 bytes, whatever the calls of the service and of the file
    system under it answer, as long as they return and a successful write reports at least one byte
    and at most its buffer's length (a count of zero makes [write_all_at] loop, a negative one
    makes it panic): building the pool of files that the options name ends with a pool or an error,
    and every request of any sequence to it, lookups, attributes, opens, reads, writes and changes
    of size, is answered with a value or an error; no handler panics, overflows or loops, and so no
    lock is poisoned. *)
Theorem authfs_always_answers args requests (w : W) max_write :
  debug_assertions = false → (csz < write_fuel)%nat → args_fine args → Forall request_fine requests →
  match prepare_file_pool service args w with
  | (Ok pool, w') =>
      let '(replies, st) := serve (AuthFs.new pool max_write) requests (∅, w') in
      length replies = length requests ∧ Forall answered replies ∧
      ∀ inode, tree_typed (AuthFs.tree_of inode st)
  | (Err _, _) => True
  | (Panic, _) | (OutOfFuel, _) => False
  end.
Proof.
  intros Hrel Hfuel Hargs Hreq. destruct (prepare_file_pool_returns service args Hargs w I) as [_ Hp].
  destruct (prepare_file_pool service args w) as [[pool|e| |] w']; simpl in Hp; try done.
  pose proof (serve_answers Hrel Hfuel (AuthFs.new pool max_write) Hp requests (∅, w')
    (trees_typed_new w') Hreq) as Hs. by destruct (serve _ _ _).
Qed.
End claims.

(** ** What the count of a write is trusted with

    The count is a signed 32-bit number that becomes a [usize]: a negative one
    becomes nearly 2^64.  Added to the offset it overflows, unless the offset is
    so small that the sum fits, and then the write passes as complete. *)
Section counts.
Context {W S : Type} `{!IVirtFdService W S}.

Lemma remote_write_count fuel (f : RemoteFileEditor S) buf off n (w w' : W) :
  buf ≠ [] → zlen buf ≤ CHUNK_SIZE → 0 ≤ off ≤ i64_max → - 2 ^ 31 ≤ n < 0 →
  writeFile (editor_service f) (editor_fd f) buf off w = (Ok n, w') →
  write_all_at (2 + fuel) f buf off w = (if off <? - n then Ok tt else Panic, w').
Proof.
  intros Hb Hsz Ho Hn Hw. assert (0 < zlen buf) by (destruct buf; [done|simpl; lia]).
  unfold write_all_at. cbn [Nat.add write_all_loop].
  rewrite (proj2 (Z.ltb_lt 0 _)), slice_Ok, bind_lift_Ok by lia. rewrite drop_0, take_ge by lia.
  erewrite (M_bind_Ok (write_at _ _ _)).
  2: { unfold write_at, RemoteFileEditor_write. rewrite i64_try_from_Ok, bind_lift_Ok by lia.
       erewrite M_bind_Ok by (unfold m_map_err; rewrite Hw; done). done. }
  assert (as_u64 n = u64_limit + n) as ->.
  { unfold as_u64. symmetry. apply Z.mod_unique with (-1); lia. }
  rewrite (u64_add_Ok 0), bind_lift_Ok by lia. destruct (Z.ltb_spec off (- n)).
  - rewrite u64_add_Ok, bind_lift_Ok by lia. by rewrite (proj2 (Z.ltb_ge _ _)) by lia.
  - unfold u64_add. rewrite (proj2 (Z.ltb_ge (off + (u64_limit + n)) u64_limit)) by lia. reflexivity.
Qed.

(** A server that answers a write to a new file with a negative count makes the
    editor panic while it holds the lock of its tree. *)
Lemma remote_write_count_panics `{!Sha256FFI, !Sha256Spec} {bm : BuildMode} {wf : WriteFuel}
    (f : RemoteFileEditor S) buf off n (w w' : W) :
  (1 < write_fuel)%nat → buf ≠ [] → zlen buf ≤ CHUNK_SIZE → off `mod` CHUNK_SIZE = 0 →
  - n ≤ off ≤ i64_max → - 2 ^ 31 ≤ n < 0 →
  writeFile (editor_service f) (editor_fd f) buf off w = (Ok n, w') →
  VerifiedFileEditor.write_at (Build_VerifiedFileEditor f) buf off (MerkleLeaves.new, w) =
    (Panic, (MerkleLeaves.new, w')).
Proof.
  intros Hfuel Hb Hsz Hal Ho Hn Hw. assert (0 < zlen buf) by (destruct buf; [done|simpl; lia]).
  unfold VerifiedFileEditor.write_at. rewrite usize_is_u64, bind_lift_Ok.
  destruct (try_fold_ranges CHUNK_SIZE ltac:(lia) off (zlen buf)) as (l & Hc & Hf); [lia..|].
  apply chunking_single in Hc as ->; [|lia].
  unfold catch_return, mbind, M_bind. rewrite Hf. cbn [mfold]. unfold mbind, M_bind at 1.
  enough (VerifiedFileEditor.write_piece (Build_VerifiedFileEditor f) buf off (off, zlen buf)
    (MerkleLeaves.new, w) = (Panic, (MerkleLeaves.new, w'))) as -> by done.
  unfold VerifiedFileEditor.write_piece. erewrite (M_bind_Ok VerifiedFileEditor.get_tree) by done.
  rewrite u64_sub_Ok, bind_lift_Ok by lia. rewrite u64_add_Ok, bind_lift_Ok by lia.
  rewrite slice_Ok, bind_lift_Ok by lia. rewrite Z.sub_diag, drop_0, take_ge by lia.
  assert (∃ h, VerifiedFileEditor.new_chunk_hash (Build_VerifiedFileEditor f) buf (off `mod` CHUNK_SIZE)
    (zlen buf) (off / CHUNK_SIZE) MerkleLeaves.new (MerkleLeaves.new, w) = (Ok h, (MerkleLeaves.new, w)))
    as [h Hh].
  { unfold VerifiedFileEditor.new_chunk_hash. destruct (zlen buf =? CHUNK_SIZE); [hash_steps; by eexists|].
    unfold VerifiedFileEditor.new_hash_for_incomplete_write, MerkleLeaves.is_index_valid.
    rewrite (proj2 (Z.ltb_ge _ _)) by (simpl; apply Z.div_pos; lia).
    rewrite (M_bind_Ok (mret _) _ _ (zeros CHUNK_SIZE) (MerkleLeaves.new, w)) by done.
    rewrite Hal, slice_Ok, bind_lift_Ok by (rewrite ?length_zero_buffer; lia).
    rewrite u64_add_Ok, bind_lift_Ok by lia.
    rewrite slice_Ok, bind_lift_Ok by (rewrite ?length_zero_buffer; lia). hash_steps. by eexists. }
  cbn [fst snd]. erewrite M_bind_Ok by (unfold m_map_err; rewrite Hh; done).
  destruct write_fuel as [|[|fuel]] eqn:Hwf; [lia..|].
  unfold mbind, M_bind, m_map_err, VerifiedFileEditor.on_file, zoom. cbn [fst snd editor_file].
  pose proof (remote_write_count fuel f buf off n w w' Hb Hsz ltac:(lia) Hn Hw) as Hall.
  cbn [Nat.add] in Hall. rewrite Hall.
  by rewrite (proj2 (Z.ltb_ge _ _)) by lia.
Qed.
End counts.

(** ** The server of this repository meets the assumption *)

(** Writes and changes of size return; a write stores some of a non-empty buffer. *)
Class FileWritesReturn (W : Type) `{!FileOps W} := {
  file_write_at_returns fd buf off :
    buf ≠ [] → answers (file_write_at fd buf off) (λ n, 0 < n ≤ zlen buf);
  file_set_len_returns fd n : answers (file_set_len fd n) (λ _, True);
}.
(** The kernel fills at most the buffer it was given. *)
Class VerityIoctlReturns (W : Type) `{!VerityIoctl W} :=
  read_verity_metadata_returns fd arg buf :
    answers (read_verity_metadata fd arg buf) (λ p : Z * list byte, p.1 ≤ zlen p.2).

Section fd_service.
Context {bm : BuildMode} {W : Type} `{!FileOps W, !VerityIoctl W}.
Context `{!FileOpsReturn W, !FileWritesReturn W, !VerityIoctlReturns W}.

Lemma fd_config_returns (self : FdService) id :
  returns (S := W) anything (lift (FdService.get_file_config self id)) (λ _, True).
Proof.
  unfold FdService.get_file_config. destruct (fd_pool self !! id); [by apply returns_lift|apply returns_throw].
Qed.
Lemma validate_size_returns size :
  returns (S := W) anything (lift (validate_and_cast_size size)) (λ n, 0 ≤ n).
Proof.
  unfold validate_and_cast_size, unsigned_try_from.
  repeat case_match; first [apply returns_throw | apply returns_lift; lia].
Qed.
Lemma validate_offset_returns offset :
  returns (S := W) anything (lift (validate_and_cast_offset offset)) (λ n, 0 ≤ n).
Proof.
  unfold validate_and_cast_offset, unsigned_try_from.
  case_match; first [apply returns_throw | apply returns_lift; lia].
Qed.

Lemma read_into_buf_returns file size offset :
  0 ≤ size → answers (FdService.read_into_buf file size offset) (λ _, True).
Proof.
  intros Hs. eapply returns_bind; [apply file_len_returns|]. intros n Hn. cbv beta in Hn.
  intros w _. destruct (read_exact_at_returns file (Z.min (saturating_sub n offset) size) offset
    ltac:(unfold saturating_sub; lia) w I) as [_ Hr]. split; [done|].
  by destruct (read_exact_at _ _ _ _) as [[]].
Qed.

Lemma read_metadata_returns fd type offset buf :
  answers ('(s, buf) ← m_map_err FdService.os_status (read_metadata fd type offset buf);
           lift (debug_assert (Ok (s <=? zlen buf)));; mret (take (Z.to_nat s) buf)) (λ _, True).
Proof.
  eapply returns_bind; [apply returns_map_err, returns_map_err, read_verity_metadata_returns|].
  intros [s b] Hs. cbn [fst snd] in Hs. rewrite (proj2 (Z.leb_le _ _)), debug_assert_true by done.
  apply returns_bind_Ok. by apply returns_ret.
Qed.

#[global] Instance FdService_returns : ServiceReturns W FdService.
Proof.
  split; intros self fd; unfold readFile, readFsveritySignature, readFsverityMerkleTree, writeFile,
    service_resize, FdService_service.
  - intros off n. eapply returns_bind; [apply validate_size_returns|]. intros size Hs.
    eapply returns_bind; [apply validate_offset_returns|]. intros o Ho.
    eapply returns_bind; [apply fd_config_returns|]. intros [file ? ?|file] _;
      by apply returns_map_err, read_into_buf_returns.
  - eapply returns_bind; [apply fd_config_returns|]. intros [file ? [sig|]|file] _.
    + by apply returns_map_err, read_into_buf_returns.
    + apply read_metadata_returns.
    + apply returns_throw.
  - intros off n. eapply returns_bind; [apply validate_size_returns|]. intros size Hs.
    eapply returns_bind; [apply validate_offset_returns|]. intros o Ho.
    eapply returns_bind; [apply fd_config_returns|]. intros [file [tree|] ?|file] _.
    + by apply returns_map_err, read_into_buf_returns.
    + apply read_metadata_returns.
    + apply returns_throw.
  - intros buf off Hb Hl. eapply returns_bind; [apply fd_config_returns|].
    intros [file ? ?|file] _; [apply returns_throw|].
    eapply returns_bind; [apply validate_offset_returns|]. intros o Ho.
    rewrite (proj2 (Z.ltb_ge _ _)) by done.
    eapply returns_bind; [by apply returns_map_err, file_write_at_returns|]. intros n Hn. cbv beta in Hn.
    apply returns_ret. rewrite as_i32_small by lia. done.
  - intros n. eapply returns_bind; [apply fd_config_returns|].
    intros [file ? ?|file] _; [apply returns_throw|].
    case_match; [apply returns_throw|]. by apply returns_map_err, file_set_len_returns.
Qed.
End fd_service.

(** ** Instances *)
Section instances.
#[local] Existing Instances boringssl boringssl_spec release.
#[local] Instance answers_fuel : WriteFuel := 5000%nat.

(** Every local file has three bytes and every read gives zeros. *)
#[local] Instance zero_files : FileOps unit := {|
  file_len _ := mret 3;
  read_exact_at _ n _ := mret (zeros n);
  file_write_at _ buf _ := mret (zlen buf);
  file_set_len _ _ := mret tt;
  fcntl_getfd _ _ := 0;
  close_fd _ w := w;
|}.
#[local] Instance zero_paths : PathOps unit := {| open_path _ := mret 3; read_to_end _ := mret [] |}.
#[local] Instance zero_files_return : FileOpsReturn unit.
Proof.
  split.
  - intros fd. apply returns_ret. lia.
  - intros fd n off Hn. apply returns_ret. unfold zeros. rewrite length_replicate. lia.
Qed.
#[local] Instance zero_paths_return : PathOpsReturn unit.
Proof. split; intros; by apply returns_ret. Qed.
#[local] Instance lying_returns : ServiceReturns unit LyingService.
Proof.
  split; intros; try by apply returns_ret. apply returns_ret. destruct buf; [done|simpl; lia].
Qed.

(** A read-only file of the server, a new file and a local file. *)
Definition answers_args : Args := {|
  mount_point := "/mnt"; remote_ro_file := [];
  remote_ro_file_unverified := [{| un_ino := 5; un_remote_id := 10; un_file_size := u64_limit - 1 |}];
  remote_new_rw_file := [{| rw_ino := 6; rw_remote_id := 11 |}]; local_ro_file := [];
  local_ro_file_unverified := [{| lu_ino := 7; lu_file_path := "/etc/zero" |}]; arg_debug := false |}.
Definition answers_requests : list fs_request :=
  [LookupRequest 1 "6"; WriteRequest 6 (ones 10) 10 (i64_max - 3); ReadRequest 6 4294967295 0;
   SetattrRequest 6 demo_stat size_and_mode; ReadRequest 5 100 (u64_limit - 1); ReadRequest 7 100 1].

(** A server that serves one byte whatever it is asked for. *)
Lemma authfs_always_answers_witness :
  let service := {| answer := [Byte.x07] |} in
  (∃ pool, prepare_file_pool service answers_args tt = (Ok pool, tt)) ∧
  match prepare_file_pool service answers_args tt with
  | (Ok pool, w') =>
      let '(replies, st) := serve (AuthFs.new pool 65536) answers_requests (∅, w') in
      length replies = length answers_requests ∧ Forall answered replies ∧
      ∀ inode, tree_typed (AuthFs.tree_of inode st)
  | (Err _, _) => True
  | (Panic, _) | (OutOfFuel, _) => False
  end.
Proof.
  intros service. split; [by eexists|].
  apply (authfs_always_answers service answers_args answers_requests tt 65536).
  - reflexivity.
  - unfold write_fuel, answers_fuel. lia.
  - split; repeat constructor; simpl; lia.
  - repeat constructor; unfold is_u64; simpl; lia.
Defined.
End instances.
