(* ===== verification/ReaderTests.v ===== *)
(** * The unit tests of the readers (authfs/src/fsverity/verifier.rs, file/local_file.rs)

    These tests read the files under testdata.  They are translated over files
    opened by path, and proved for all contents of the kind the test data has:
    a test passes whatever the bytes are, as long as the stored tree is that of
    the contents (or, for the broken tree, differs from it in one page). *)
From S2P Require Import Prelude RustInt Crypto Common Fsverity Merkle File Os LocalFile Verifier.
From S2P Require Import VerifierProps AuthFsMain Testing.

(** Files that can be opened by path. *)
Class Paths := paths : gmap string Z.
#[global] Instance file_table_paths `{!Paths} : PathOps file_table := {|
  open_path p := lift (ok_or (paths !! p) (OsError ENOENT));
  read_to_end fd := λ t, (Ok (fd_content fd t), t);
|}.

Section tests.
Context `{!Sha256FFI} {bm : BuildMode} {W : Type} `{!FileOps W, !PathOps W}.

(** ** local_file.rs *)
Definition open_reader (path : string) : M W io_error LocalFileReader :=
  file ← open_path path;
  LocalFileReader.new file.

(** [let size = file_reader.read_chunk(index, &mut buf)?; assert_eq!(size, expected)] *)
Definition assert_chunk_size (file_reader : LocalFileReader) (index expected : Z) : M W io_error unit :=
  '(size, _) ← read_chunk file_reader index (zeros 4096);
  assert_eq size expected.

Definition test_read_4k_file : M W io_error unit :=
  file_reader ← open_reader "testdata/input.4k";
  assert_chunk_size file_reader 0 4096.

Definition test_read_4k1_file : M W io_error unit :=
  file_reader ← open_reader "testdata/input.4k1";
  assert_chunk_size file_reader 0 4096;;
  assert_chunk_size file_reader 1 1.

Definition test_read_4m_file : M W io_error unit :=
  file_reader ← open_reader "testdata/input.4m";
  mfold (λ _ index, assert_chunk_size file_reader (Z.of_nat index) 4096) tt
    (seq 0 (Z.to_nat (LocalFileReader.len file_reader / 4096))).

Definition test_read_beyond_file_size : M W io_error unit :=
  file_reader ← open_reader "testdata/input.4k";
  assert_chunk_size file_reader 1 0.

(** The file that [File::create] made is given by its descriptor. *)
Definition test_read_empty_file (temp_file : Z) : M W io_error unit :=
  file_reader ← LocalFileReader.new temp_file;
  assert_chunk_size file_reader 0 0.

(** ** verifier.rs *)
Definition total_chunk_number (file_size : Z) : outcome AuthFsError Z :=
  n ← u64_add file_size 4095; Ok (n / 4096).

Definition new_reader_with_fsverity (content_path merkle_tree_path signature_path : string)
    : M W AuthFsError (VerifiedFileReader LocalFileReader LocalFileReader * Z) :=
  file_reader ← m_map_err IoFailed (open_reader content_path);
  let file_size := LocalFileReader.len file_reader in
  merkle_tree ← m_map_err IoFailed (open_reader merkle_tree_path);
  sig_file ← m_map_err IoFailed (open_path signature_path);
  sig ← m_map_err IoFailed (read_to_end sig_file);
  reader ← m_map_err FsverityFailed
    (VerifiedFileReader.new FakeAuthenticator.always_succeed file_reader file_size sig merkle_tree);
  mret (reader, file_size).

Definition assert_read_ok (file_reader : VerifiedFileReader LocalFileReader LocalFileReader) (i : Z)
    : M W AuthFsError unit :=
  ok ← is_ok (read_chunk file_reader i (zeros 4096)); assert ok.
Definition assert_read_err (file_reader : VerifiedFileReader LocalFileReader LocalFileReader) (i : Z)
    : M W AuthFsError unit :=
  err ← is_err (read_chunk file_reader i (zeros 4096)); assert err.

(** The body the three tests of a full read share. *)
Definition verify_full_read (content_path merkle_tree_path signature_path : string)
    : M W AuthFsError unit :=
  '(file_reader, file_size) ← new_reader_with_fsverity content_path merkle_tree_path signature_path;
  n ← lift (total_chunk_number file_size);
  mfold (λ _ i, assert_read_ok file_reader (Z.of_nat i)) tt (seq 0 (Z.to_nat n)).

Definition fsverity_verify_full_read_4k : M W AuthFsError unit :=
  verify_full_read "testdata/input.4k" "testdata/input.4k.merkle_dump" "testdata/input.4k.fsv_sig".
Definition fsverity_verify_full_read_4k1 : M W AuthFsError unit :=
  verify_full_read "testdata/input.4k1" "testdata/input.4k1.merkle_dump" "testdata/input.4k1.fsv_sig".
Definition fsverity_verify_full_read_4m : M W AuthFsError unit :=
  verify_full_read "testdata/input.4m" "testdata/input.4m.merkle_dump" "testdata/input.4m.fsv_sig".

Definition fsverity_verify_bad_merkle_tree : M W AuthFsError unit :=
  '(file_reader, _) ← new_reader_with_fsverity "testdata/input.4m"
    "testdata/input.4m.merkle_dump.bad" "testdata/input.4m.fsv_sig";
  let num_hashes := 4096 / 32 in
  let last_index := num_hashes in
  mfold (λ _ i, assert_read_err file_reader (Z.of_nat i)) tt (seq 0 (Z.to_nat last_index));;
  assert_read_ok file_reader last_index.

Definition invalid_signature : M W AuthFsError unit :=
  file_reader ← m_map_err IoFailed (open_reader "testdata/input.4m");
  let file_size := LocalFileReader.len file_reader in
  merkle_tree ← m_map_err IoFailed (open_reader "testdata/input.4m.merkle_dump");
  sig_file ← m_map_err IoFailed (open_path "testdata/input.4m.fsv_sig");
  sig ← m_map_err IoFailed (read_to_end sig_file);
  err ← is_err (VerifiedFileReader.new FakeAuthenticator.always_fail file_reader file_size sig
                  merkle_tree);
  assert err.
End tests.

(** ** Running over a list of assertions *)
Lemma mfold_asserts {W E A} (f : A → M W E unit) l w :
  Forall (λ a, f a w = (Ok tt, w)) l → mfold (λ _, f) tt l w = (Ok tt, w).
Proof.
  induction 1 as [|a l Ha _ IH]; [done|]. cbn [mfold]. by rewrite (M_bind_Ok _ _ _ _ _ Ha).
Qed.

Lemma Forall_or_Exists {A} (P Q : A → Prop) l :
  (∀ a, a ∈ l → P a ∨ Q a) → Forall P l ∨ Exists Q l.
Proof.
  induction l as [|a l IH]; intros H; [by left; constructor|].
  destruct (H a) as [Ha|]; [by constructor| |by right; apply Exists_cons_hd].
  destruct IH as [Hl|]; [|by left; constructor|by right; apply Exists_cons_tl].
  intros b Hb. apply H. by constructor.
Qed.

(** ** The tests pass *)
Section passing.
Context `{!Sha256FFI, !Sha256Spec} {bm : BuildMode} `{!Paths}.
Implicit Types (t : file_table) (c : list byte).

(** The file at a path has contents [c]. *)
Definition holds_file (path : string) c t : Prop := ∃ fd, paths !! path = Some fd ∧ t !! fd = Some c.

Lemma new_reader_ok fd c t :
  t !! fd = Some c →
  LocalFileReader.new fd t = (Ok {| local_file := fd; local_size := zlen c |}, t).
Proof. intros Hc. unfold LocalFileReader.new, mbind, M_bind. cbn. by rewrite Hc. Qed.

Lemma open_reader_ok path c t :
  holds_file path c t →
  ∃ reader, open_reader path t = (Ok reader, t) ∧ local_content reader t = Some c ∧
    local_size reader = zlen c.
Proof.
  intros (fd & Hp & Hc). exists {| local_file := fd; local_size := zlen c |}.
  split; [|split; [by apply local_content_Some|done]].
  unfold open_reader, open_path, file_table_paths. rewrite Hp. cbn [ok_or]. rewrite bind_lift_Ok.
  by apply new_reader_ok.
Qed.

Lemma chunk_size_in_range reader c t i n :
  local_content reader t = Some c → zlen c ≤ i64_max → 0 ≤ i → i * 4096 < zlen c →
  n = Z.min 4096 (zlen c - i * 4096) → assert_chunk_size reader i n t = (Ok tt, t).
Proof.
  intros Hc Hlen Hi Hr ->. unfold assert_chunk_size.
  rewrite (M_bind_Ok _ _ _ _ _ (read_chunk_honest (content := local_content) _ _ _ _ _ Hc
    length_zero_buffer Hi Hlen ltac:(unfold CHUNK_SIZE; lia))).
  apply assert_eq_holds. rewrite length_take, length_drop. lia.
Qed.

Lemma chunk_size_beyond reader t i :
  0 ≤ i → local_size reader ≤ i * 4096 < u64_limit → assert_chunk_size reader i 0 t = (Ok tt, t).
Proof.
  intros Hi Hr. unfold assert_chunk_size, read_chunk, LocalFileReader_read_chunk.
  unfold LocalFileReader.read_chunk. rewrite u64_mul_Ok by (unfold CHUNK_SIZE; lia).
  unfold mbind, M_bind, lift. rewrite (proj2 (Z.leb_le _ _)) by (unfold CHUNK_SIZE; lia). done.
Qed.

(** Any files of these lengths will do. *)
Lemma local_file_tests_pass c4k c4k1 c4m temp_file t :
  holds_file "testdata/input.4k" c4k t → zlen c4k = 4096 →
  holds_file "testdata/input.4k1" c4k1 t → zlen c4k1 = 4097 →
  holds_file "testdata/input.4m" c4m t → zlen c4m = 4194304 → t !! temp_file = Some [] →
  Forall (λ test, test t = (Ok tt, t))
    [test_read_4k_file; test_read_4k1_file; test_read_4m_file; test_read_beyond_file_size;
     test_read_empty_file temp_file].
Proof.
  intros (r & Hr & Hc & Hs)%open_reader_ok Hl (r1 & Hr1 & Hc1 & Hs1)%open_reader_ok Hl1
    (rm & Hrm & Hcm & Hsm)%open_reader_ok Hlm Htmp.
  repeat apply Forall_cons_2; [..|by apply Forall_nil].
  - unfold test_read_4k_file. rewrite (M_bind_Ok _ _ _ _ _ Hr).
    by apply (chunk_size_in_range _ c4k); rewrite ?Hl.
  - unfold test_read_4k1_file. rewrite (M_bind_Ok _ _ _ _ _ Hr1).
    erewrite M_bind_Ok by (apply (chunk_size_in_range _ c4k1); rewrite ?Hl1; done).
    by apply (chunk_size_in_range _ c4k1); rewrite ?Hl1.
  - unfold test_read_4m_file. rewrite (M_bind_Ok _ _ _ _ _ Hrm). unfold LocalFileReader.len.
    rewrite Hsm, Hlm. apply mfold_asserts, Forall_forall. intros i Hi%elem_of_seq.
    change (Z.to_nat (4194304 / 4096)) with 1024%nat in Hi.
    apply (chunk_size_in_range _ c4m); rewrite ?Hlm; (done || lia).
  - unfold test_read_beyond_file_size. rewrite (M_bind_Ok _ _ _ _ _ Hr).
    apply chunk_size_beyond; rewrite ?Hs, ?Hl; (done || lia).
  - unfold test_read_empty_file. rewrite (M_bind_Ok _ _ _ _ _ (new_reader_ok _ _ _ Htmp)).
    by apply chunk_size_beyond.
Qed.

(** *** The verifier *)
Section verified.
Context (content_path tree_path sig_path : string) (c sig : list byte) (k : nat) (ps : list (list byte)).
Context (t : file_table) (Hc : 0 < zlen c ≤ max_walk_size) (Hk : is_height (zlen c) k).
Context (Hcontent : holds_file content_path c t) (Htree : holds_file tree_path (concat ps) t).
Context (Hsig : holds_file sig_path sig t).
Context (Hps : stored_tree c k ps) (Hroot : ps !! 0%nat = tree_pages c k !! 0%nat).

(** The reader is opened, tied to [c], on the two files as they are stored. *)
Lemma new_reader_opens :
  ∃ r, new_reader_with_fsverity content_path tree_path sig_path t = (Ok (r, zlen c), t) ∧
    authenticates r c ∧ local_content (chunked_file r) t = Some c ∧
    local_content (merkle_tree r) t = Some (concat ps).
Proof.
  destruct (open_reader_ok _ _ _ Hcontent) as (file & Hfile & Hfc & Hfs).
  destruct (open_reader_ok _ _ _ Htree) as (tree & Ht & Htc & _).
  destruct Hsig as (sfd & Hsp & Hsc).
  exists (Build_VerifiedFileReader file (zlen c) tree (verity_root c)). split; [|done].
  unfold new_reader_with_fsverity.
  erewrite M_bind_Ok by (unfold m_map_err; by rewrite Hfile).
  erewrite M_bind_Ok by (unfold m_map_err; by rewrite Ht).
  erewrite M_bind_Ok by (unfold m_map_err, open_path, file_table_paths, lift; by rewrite Hsp).
  erewrite M_bind_Ok by done. unfold LocalFileReader.len. rewrite Hfs.
  erewrite M_bind_Ok; [done|]. unfold m_map_err.
  by rewrite (new_stored local_content _ _ _ _ c k ps).
Qed.

Lemma read_ok_intact r i :
  authenticates r c → local_content (chunked_file r) t = Some c →
  local_content (merkle_tree r) t = Some (concat ps) →
  0 ≤ i → i * CHUNK_SIZE < zlen c → path_intact c k ps i → assert_read_ok r i t = (Ok tt, t).
Proof.
  intros Ha Hf Ht Hi Hr Hin. unfold assert_read_ok, is_ok, is_err, mbind, M_bind.
  by rewrite (read_chunk_intact local_content local_content r c k ps) by done.
Qed.

Lemma read_err_tampered r i :
  authenticates r c → local_content (chunked_file r) t = Some c →
  local_content (merkle_tree r) t = Some (concat ps) →
  0 ≤ i → i * CHUNK_SIZE < zlen c → ¬ path_intact c k ps i →
  assert_read_err r i t = (Ok tt, t) ∨ clash (path_messages c i) (run_messages r i (zeros 4096) t).
Proof.
  intros Ha Hf Ht Hi Hr Hin. unfold assert_read_err, is_err, mbind, M_bind.
  destruct (read_chunk_tampered local_content local_content r c k ps i (zeros 4096) t)
    as [->|]; try done; [apply _|by left|by right].
Qed.
End verified.

(** A full read passes for any contents stored with their tree, ... *)
Lemma verify_full_read_passes content_path tree_path sig_path c sig k t :
  0 < zlen c ≤ max_walk_size → is_height (zlen c) k →
  holds_file content_path c t → holds_file tree_path (merkle_tree_bytes c k) t →
  holds_file sig_path sig t →
  verify_full_read content_path tree_path sig_path t = (Ok tt, t).
Proof.
  intros Hc Hk Hcontent Htree Hsig. unfold verify_full_read.
  destruct (new_reader_opens content_path tree_path sig_path c sig k (tree_pages c k) t)
    as (r & Hnew & Ha & Hf & Ht); try done; [apply honest_tree_stored|].
  rewrite (M_bind_Ok _ _ _ _ _ Hnew). cbv beta iota. unfold total_chunk_number.
  rewrite u64_add_Ok by lia. cbn [mbind outcome_bind]. rewrite bind_lift_Ok.
  apply mfold_asserts, Forall_forall. intros i Hi%elem_of_seq.
  apply (read_ok_intact c k (tree_pages c k)); try done; [apply honest_tree_stored|lia|].
  unfold CHUNK_SIZE. pose proof (Z.mul_div_le (zlen c + 4095) 4096). lia.
Qed.

(** In a tree of two levels the root page comes first, then the leaf pages. *)
Lemma path_page_two_levels c i :
  0 < zlen c → is_height (zlen c) 1 →
  path_page c i 1 0 = Z.to_nat (1 + i / 128) ∧ path_page c i 1 1 = Z.to_nat (i / 16384).
Proof.
  intros Hc [Hhi _]. unfold path_page, step_at, base. split; [|done].
  change (seq 1 (1 - 0)) with [1%nat]. cbn [fmap list_fmap foldr fst]. do 2 f_equal.
  change (128 ^ (Z.of_nat 1 + 1)) with 16384 in Hhi. unfold CHUNK_SIZE in Hhi.
  unfold nodes, CHUNK_SIZE. change (128 ^ (Z.of_nat 1 + 1)) with 16384. cbv zeta. divlia.
Qed.

(** ... and with one leaf page replaced by another, exactly the 128 chunks under it fail, unless
    a read of one of them hashes something that clashes with the contents. *)
Lemma bad_merkle_tree_passes c sig bad t :
  0 < zlen c ≤ max_walk_size → is_height (zlen c) 1 → 128 * CHUNK_SIZE < zlen c →
  length bad = csz → tree_pages c 1 !! 1%nat ≠ Some bad →
  holds_file "testdata/input.4m" c t →
  holds_file "testdata/input.4m.merkle_dump.bad" (concat (<[1%nat := bad]> (tree_pages c 1))) t →
  holds_file "testdata/input.4m.fsv_sig" sig t →
  ∃ r, new_reader_with_fsverity "testdata/input.4m" "testdata/input.4m.merkle_dump.bad"
         "testdata/input.4m.fsv_sig" t = (Ok (r, zlen c), t) ∧
    (fsverity_verify_bad_merkle_tree t = (Ok tt, t) ∨
     Exists (λ i, clash (path_messages c (Z.of_nat i)) (run_messages r (Z.of_nat i) (zeros 4096) t))
       (seq 0 128)).
Proof.
  intros Hc Hk Hlong Hbad Hne Hcontent Htree Hsig.
  set (ps := <[1%nat := bad]> (tree_pages c 1)) in *.
  assert (stored_tree c 1 ps) as Hps.
  { split; [|by apply length_insert]. apply Forall_insert; [apply Forall_tree_pages|done]. }
  destruct (new_reader_opens _ _ _ c sig 1 ps t Hc Hk Hcontent Htree Hsig Hps)
    as (r & Hnew & Ha & Hf & Ht); [by apply list_lookup_insert_ne|].
  exists r. split; [done|].
  unfold fsverity_verify_bad_merkle_tree. rewrite (M_bind_Ok _ _ _ _ _ Hnew). cbv beta iota zeta.
  change (4096 / 32) with 128. change (Z.to_nat 128) with 128%nat.
  destruct (Forall_or_Exists (λ i, assert_read_err r (Z.of_nat i) t = (Ok tt, t))
    (λ i, clash (path_messages c (Z.of_nat i)) (run_messages r (Z.of_nat i) (zeros 4096) t)) (seq 0 128))
    as [Herr|]; [|left|by right].
  - intros i Hi%elem_of_seq. apply (read_err_tampered c 1 ps); try done; [lia..|].
    intros Hin. specialize (Hin 0%nat ltac:(lia)).
    destruct (path_page_two_levels c (Z.of_nat i)) as [Hp0 _]; [lia|done|].
    rewrite Hp0, Z.div_small in Hin by lia. change (Z.to_nat (1 + 0)) with 1%nat in Hin.
    apply Hne. rewrite <- Hin. apply list_lookup_insert_eq.
    pose proof (path_page_honest c 0 1 ltac:(lia) ltac:(lia) 0 ltac:(lia)) as Hlt%lookup_lt_Some.
    by rewrite (proj1 (path_page_two_levels c 0 ltac:(lia) Hk)) in Hlt.
  - rewrite (M_bind_Ok _ _ _ _ _ (mfold_asserts _ _ _ Herr)).
    apply (read_ok_intact c 1 ps); try done.
    destruct (path_page_two_levels c 128) as [Hp0 Hp1]; [lia|done|].
    intros y Hy. apply list_lookup_insert_ne.
    destruct (decide (y = 0)%nat) as [->|]; [by rewrite Hp0|]. replace y with 1%nat by lia. by rewrite Hp1.
Qed.

(** A signature that is not accepted is an error, whatever the files hold. *)
Lemma invalid_signature_passes c sig k t :
  0 < zlen c ≤ max_walk_size → is_height (zlen c) k →
  holds_file "testdata/input.4m" c t →
  holds_file "testdata/input.4m.merkle_dump" (merkle_tree_bytes c k) t →
  holds_file "testdata/input.4m.fsv_sig" sig t →
  invalid_signature t = (Ok tt, t).
Proof.
  intros Hc Hk Hcontent Htree (sfd & Hsp & Hsc).
  destruct (open_reader_ok _ _ _ Hcontent) as (file & Hfile & Hfc & Hfs).
  destruct (open_reader_ok _ _ _ Htree) as (tree & Ht & Htc & _). unfold invalid_signature.
  erewrite M_bind_Ok by (unfold m_map_err; by rewrite Hfile).
  erewrite M_bind_Ok by (unfold m_map_err; by rewrite Ht).
  erewrite M_bind_Ok by (unfold m_map_err, open_path, file_table_paths, lift; by rewrite Hsp).
  erewrite M_bind_Ok by done. unfold LocalFileReader.len. rewrite Hfs. unfold is_err, mbind, M_bind.
  by rewrite (new_stored local_content _ _ _ _ c k (tree_pages c k)) by (done || apply honest_tree_stored).
Qed.
End passing.
