(* ===== verification/ZipInode.v ===== *)
(** * The inode table of zipfuse (zipfuse/src/inode.rs)

    A table of files and directories built once from a zip archive.  The zip
    crate is an interface: [ZipFile] is what the sources ask of an entry. *)
From Stdlib Require Import Ascii.
From S2P Require Import Prelude RustInt Crypto Common Fsverity Fuse.

(** ** The archive *)
Inductive ZipError := CannotReadEntry (index : Z) | InvalidName | DotDotNotAllowed.

(** [enclosed_name] is the list of components of the path, [None] for a path
    that leaves the archive; [contents] is what [read_to_end] gives. *)
Record ZipFile := {
  enclosed_name : option (list string);
  is_file : bool;
  unix_mode : option Z;
  zip_size : Z;
  contents : outcome io_error (list byte);
}.

Class ZipArchive (A : Type) := {
  archive_len : A → nat;
  by_index : A → nat → outcome ZipError ZipFile;
  (** [From<ZipError> for io::Error] *)
  io_from_zip : ZipError → io_error;
}.

(** An archive all of whose entries can be read. *)
#[global] Instance ZipFile_list : ZipArchive (list ZipFile) := {|
  archive_len := length;
  by_index archive i := ok_or (archive !! i) (CannotReadEntry (Z.of_nat i));
  io_from_zip _ := KindError UnexpectedEof;
|}.

(** ** Inodes *)
Definition INVALID : Z := 0.
Definition ROOT : Z := 1.

Inductive InodeKind := DirectoryKind | FileKind.
#[global] Instance InodeKind_eq_dec : EqDecision InodeKind.
Proof. solve_decision. Defined.

Record DirectoryEntry := { dir_inode : Z; kind : InodeKind }.

Inductive InodeDataData :=
| Directory (entries : gmap string DirectoryEntry)
| File (zip_index : nat).

Record InodeData := { size : Z; mode : Z; data : InodeDataData }.

(** [CString::new(bytes).unwrap()]: a name with a NUL byte panics. *)
Fixpoint has_nul (s : string) : bool :=
  match s with
  | EmptyString => false
  | String a s => Ascii.eqb a "000" || has_nul s
  end.
Definition cstring_new (s : string) : outcome ZipError string := if has_nul s then Panic else Ok s.

Module InodeData.
Definition is_dir (self : InodeData) : bool :=
  match data self with Directory _ => true | File _ => false end.
Definition get_directory (self : InodeData) : option (gmap string DirectoryEntry) :=
  match data self with Directory hash => Some hash | File _ => None end.
Definition get_zip_index (self : InodeData) : option nat :=
  match data self with File zip_index => Some zip_index | Directory _ => None end.
Definition new_dir (mode : Z) : InodeData := {| mode := mode; size := 0; data := Directory ∅ |}.
Definition new_file (zip_index : nat) (zip_file : ZipFile) : InodeData :=
  {| mode := default 0 (unix_mode zip_file); size := zip_size zip_file; data := File zip_index |}.
Definition add_to_directory (self : InodeData) (name : string) (entry : DirectoryEntry)
    : outcome ZipError InodeData :=
  match data self with
  | Directory hashtable =>
      rassert (bool_decide (hashtable !! name = None));;
      Ok {| mode := mode self; size := size self; data := Directory (<[name := entry]> hashtable) |}
  | File _ => Panic
  end.
End InodeData.

Record InodeTable := { table : list InodeData }.

Definition DEFAULT_DIR_MODE : Z := Z.lor S_IRUSR S_IXUSR.

(** [Vec::get]; an index is never negative. *)
Definition vec_get {A} (l : list A) (i : Z) : option A := if 0 <=? i then l !! Z.to_nat i else None.

Module InodeTable.
Definition get (self : InodeTable) (inode : Z) : option InodeData :=
  if inode =? INVALID then None else vec_get (table self) inode.

(** [*self.get_mut(inode).unwrap() = ...] *)
Definition set (self : InodeTable) (inode : Z) (data : InodeData) : InodeTable :=
  {| table := <[Z.to_nat inode := data]> (table self) |}.

Definition put (self : InodeTable) (data : InodeData) : Z * InodeTable :=
  (zlen (table self), {| table := table self ++ [data] |}).

Definition find (self : InodeTable) (parent : Z) (name : string) : outcome ZipError (option Z) :=
  data ← unwrap (get self parent);
  directory ← unwrap (InodeData.get_directory data);
  Ok (dir_inode <$> directory !! name).

Definition add (self : InodeTable) (parent : Z) (name : string) (data : InodeData)
    : outcome ZipError (Z * InodeTable) :=
  existing ← find self parent name;
  rassert (bool_decide (existing = None));;
  let kind := if InodeData.is_dir data then DirectoryKind else FileKind in
  let '(inode, self) := put self data in
  parent_data ← unwrap (get self parent);
  parent_data ← InodeData.add_to_directory parent_data name {| dir_inode := inode; kind := kind |};
  Ok (inode, set self parent parent_data).

(** The body of the [while let] loop over the components of a path: the inode of
    the component, which is made if it is missing. *)
Definition add_component (i : nat) (file : ZipFile) (parent : Z) (name : string) (is_leaf : bool)
    (self : InodeTable) : outcome ZipError (Z * InodeTable) :=
  if bool_decide (name = "..") then Err DotDotNotAllowed
  else
    let is_file := is_file file && is_leaf in
    name ← cstring_new name;
    found ← find self parent name;
    match found with
    | Some parent =>
        if negb is_file && is_leaf
        then
          inode ← unwrap (get self parent);
          Ok (parent, set self parent {| mode := default 0 (unix_mode file); size := size inode;
                                         data := data inode |})
        else Ok (parent, self)
    | None =>
        let inode :=
          if is_file then InodeData.new_file i file
          else if is_leaf then InodeData.new_dir (default DEFAULT_DIR_MODE (unix_mode file))
          else InodeData.new_dir DEFAULT_DIR_MODE in
        add self parent name inode
    end.

(** The loop; the last component is the leaf. *)
Fixpoint add_path (i : nat) (file : ZipFile) (parent : Z) (path : list string) (self : InodeTable)
    : outcome ZipError InodeTable :=
  match path with
  | [] => Ok self
  | name :: rest =>
      '(parent, self) ← add_component i file parent name (bool_decide (rest = [])) self;
      add_path i file parent rest self
  end.

(** One round of [for i in 0..archive.len()]. *)
Definition add_entry {A} `{!ZipArchive A} (archive : A) (self : InodeTable) (i : nat)
    : outcome ZipError InodeTable :=
  file ← by_index archive i;
  path ← ok_or (enclosed_name file) InvalidName;
  add_path i file ROOT path self.

Fixpoint add_entries {A} `{!ZipArchive A} (archive : A) (indices : list nat) (self : InodeTable)
    : outcome ZipError InodeTable :=
  match indices with
  | [] => Ok self
  | i :: indices => self ← add_entry archive self i; add_entries archive indices self
  end.

(** The table with the invalid inode and the root. *)
Definition with_root : outcome ZipError InodeTable :=
  let '(invalid, t) := put {| table := [] |} (InodeData.new_dir 0) in
  rassert (INVALID =? invalid);;
  let '(root, t) := put t (InodeData.new_dir 0) in
  rassert (ROOT =? root);;
  Ok t.

Definition from_zip {A} `{!ZipArchive A} (archive : A) : outcome ZipError InodeTable :=
  t ← with_root;
  add_entries archive (seq 0 (archive_len archive)) t.
End InodeTable.

(** ** Links *)
Implicit Types (t : InodeTable) (p ino : Z) (name : string) (path : list string).

(** The entry [name] of directory [p]. *)
Definition link t p name : option DirectoryEntry :=
  d ← InodeTable.get t p; dir ← InodeData.get_directory d; dir !! name.

(** The inode a path leads to. *)
Fixpoint resolve t p path : option Z :=
  match path with
  | [] => Some p
  | name :: path => e ← link t p name; resolve t (dir_inode e) path
  end.

Definition kind_of (d : InodeData) : InodeKind :=
  if InodeData.is_dir d then DirectoryKind else FileKind.

(** The table is a tree: the root is a directory; an entry points to a later
    inode of the recorded kind; every inode but the root has exactly one
    entry that names it. *)
Record table_wf t : Prop := {
  wf_root : ∃ r, InodeTable.get t ROOT = Some r ∧ InodeData.is_dir r = true;
  wf_entry p name e : link t p name = Some e →
    p < dir_inode e ∧ ROOT < dir_inode e ∧
    ∃ d, InodeTable.get t (dir_inode e) = Some d ∧ kind e = kind_of d;
  wf_parent ino d : ROOT < ino → InodeTable.get t ino = Some d →
    ∃ p name e, link t p name = Some e ∧ dir_inode e = ino;
  wf_unique p1 n1 e1 p2 n2 e2 : link t p1 n1 = Some e1 → link t p2 n2 = Some e2 →
    dir_inode e1 = dir_inode e2 → p1 = p2 ∧ n1 = n2;
}.

(** [t'] has everything [t] has, but for modes. *)
Record extends t t' : Prop := {
  ext_len : zlen (table t) ≤ zlen (table t');
  ext_link p name e : link t p name = Some e → link t' p name = Some e;
  ext_data ino d : InodeTable.get t ino = Some d →
    ∃ d', InodeTable.get t' ino = Some d' ∧ size d' = size d ∧
          InodeData.get_zip_index d' = InodeData.get_zip_index d;
}.

#[global] Instance extends_preorder : PreOrder extends.
Proof.
  split.
  - intros t. split; [done|done|]. intros ino d Hd. by exists d.
  - intros t1 t2 t3 [L1 E1 D1] [L2 E2 D2]. split; [lia|by auto|].
    intros ino d Hd. destruct (D1 _ _ Hd) as (d2 & Hd2 & Hs2 & Hz2).
    destruct (D2 _ _ Hd2) as (d3 & Hd3 & Hs3 & Hz3). exists d3. split; [done|]. split; congruence.
Qed.

Lemma resolve_extends t t' p path ino :
  extends t t' → resolve t p path = Some ino → resolve t' p path = Some ino.
Proof.
  intros He. revert p. induction path as [|name path IH]; intros p; [done|]. simpl.
  destruct (link t p name) as [e|] eqn:Hl; [|done]. simpl. rewrite (ext_link _ _ He _ _ _ Hl).
  simpl. apply IH.
Qed.

Lemma resolve_app t p path1 path2 :
  resolve t p (path1 ++ path2) = resolve t p path1 ≫= λ ino, resolve t ino path2.
Proof.
  revert p. induction path1 as [|name path1 IH]; intros p; [done|]. simpl.
  destruct (link t p name); simpl; [apply IH|done].
Qed.

(** A path leads down the table, so two paths to one inode are equal. *)
Lemma resolve_ge t p path ino :
  table_wf t → resolve t p path = Some ino → p ≤ ino ∧ (path ≠ [] → p < ino ∧ ROOT < ino).
Proof.
  intros Hw. revert p. induction path as [|name path IH]; intros p; simpl.
  - intros [= ->]. split; [lia|done].
  - destruct (link t p name) as [e|] eqn:Hl; [|done]. simpl.
    destruct (wf_entry _ Hw _ _ _ Hl) as (Hlt & Hr & _). intros [Hle _]%IH.
    split; [lia|]. intros _. lia.
Qed.

Lemma resolve_inj t path1 path2 ino :
  table_wf t → resolve t ROOT path1 = Some ino → resolve t ROOT path2 = Some ino → path1 = path2.
Proof.
  intros Hw. revert path2 ino. induction path1 as [|n1 path1 IH] using rev_ind; intros path2 ino H1 H2.
  - simpl in H1. simplify_eq. destruct path2 as [|n2 path2]; [done|].
    apply resolve_ge in H2 as [_ Hlt]; [|done]. destruct Hlt; [done|lia].
  - destruct path2 as [|n2 path2 _] using rev_ind.
    { simpl in H2. simplify_eq. apply resolve_ge in H1 as [_ Hlt]; [|done].
      destruct Hlt; [by destruct path1|lia]. }
    rewrite resolve_app in H1, H2.
    destruct (resolve t ROOT path1) as [p1|] eqn:R1; [|done]. simpl in H1.
    destruct (resolve t ROOT path2) as [p2|] eqn:R2; [|done]. simpl in H2.
    destruct (link t p1 n1) as [e1|] eqn:L1; [|done]. destruct (link t p2 n2) as [e2|] eqn:L2; [|done].
    simpl in *. destruct (wf_unique _ Hw _ _ _ _ _ _ L1 L2) as [-> ->]; [congruence|].
    f_equal. by eapply IH.
Qed.

(** ** What the operations do to the table *)
Lemma get_Some_range t ino d : InodeTable.get t ino = Some d → 0 < ino < zlen (table t).
Proof.
  unfold InodeTable.get, vec_get, INVALID. destruct (Z.eqb_spec ino 0); [done|].
  destruct (Z.leb_spec 0 ino); [|done]. intros Hl%lookup_lt_Some. lia.
Qed.

Lemma get_put t d ino :
  0 < zlen (table t) →
  InodeTable.get (InodeTable.put t d).2 ino =
    if decide (ino = zlen (table t)) then Some d else InodeTable.get t ino.
Proof.
  intros Hlen. unfold InodeTable.get, InodeTable.put, vec_get, INVALID. simpl.
  destruct (Z.eqb_spec ino 0); [by rewrite decide_False by lia|].
  destruct (Z.leb_spec 0 ino); [|by rewrite decide_False by lia]. case_decide.
  - subst. rewrite Nat2Z.id. by apply list_lookup_middle.
  - destruct (decide (Z.to_nat ino < length (table t))%nat).
    + by rewrite lookup_app_l.
    + rewrite !lookup_ge_None_2; [done|lia|]. rewrite length_app. simpl. lia.
Qed.

Lemma get_set t p d d0 ino :
  InodeTable.get t p = Some d0 →
  InodeTable.get (InodeTable.set t p d) ino = if decide (ino = p) then Some d else InodeTable.get t ino.
Proof.
  intros Hp. pose proof (get_Some_range _ _ _ Hp). unfold InodeTable.get, InodeTable.set, vec_get, INVALID.
  simpl. destruct (Z.eqb_spec ino 0); [by rewrite decide_False by lia|].
  destruct (Z.leb_spec 0 ino); [|by rewrite decide_False by lia].
  rewrite list_lookup_insert. repeat case_decide; try done; lia.
Qed.

(** [find] is [link], for a directory. *)
Lemma find_link t p name found :
  InodeTable.find t p name = Ok found → found = dir_inode <$> link t p name.
Proof.
  unfold InodeTable.find, link. destruct (InodeTable.get t p) as [d|]; [|done]. simpl.
  destruct (InodeData.get_directory d); [|done]. simpl. by intros [= <-].
Qed.

(** A change of mode. *)
Lemma set_mode_spec t p d m :
  InodeTable.get t p = Some d →
  let t' := InodeTable.set t p {| mode := m; size := size d; data := data d |} in
  (∀ q name, link t' q name = link t q name) ∧
  (∀ ino d', InodeTable.get t ino = Some d' → ∃ d2, InodeTable.get t' ino = Some d2 ∧
     size d2 = size d' ∧ data d2 = data d') ∧
  (∀ ino d', InodeTable.get t' ino = Some d' → ∃ d2, InodeTable.get t ino = Some d2 ∧
     size d2 = size d' ∧ data d2 = data d') ∧
  zlen (table t') = zlen (table t).
Proof.
  intros Hp t'.
  assert (∀ ino, InodeTable.get t' ino =
    if decide (ino = p) then Some {| mode := m; size := size d; data := data d |}
    else InodeTable.get t ino) as Hg by (intros; by eapply get_set).
  split_and!.
  - intros q name. unfold link. rewrite Hg. case_decide as Hq; [|done]. subst q. rewrite Hp. done.
  - intros ino d' Hd. rewrite Hg. case_decide; [|by eauto]. subst. simplify_eq. by eauto.
  - intros ino d'. rewrite Hg. case_decide; [|by eauto]. intros [= <-]. subst. by eauto.
  - subst t'. simpl. by rewrite length_insert.
Qed.

Definition new_entry (d : InodeData) (ino : Z) : DirectoryEntry :=
  {| dir_inode := ino; kind := kind_of d |}.

Lemma add_inv t p name d ino t' :
  0 < zlen (table t) → InodeTable.add t p name d = Ok (ino, t') →
  ∃ dp dir, InodeTable.get t p = Some dp ∧ InodeData.get_directory dp = Some dir ∧
    dir !! name = None ∧ ino = zlen (table t) ∧
    t' = InodeTable.set (InodeTable.put t d).2 p
      {| mode := mode dp; size := size dp; data := Directory (<[name := new_entry d ino]> dir) |}.
Proof.
  intros Hlen. unfold InodeTable.add, InodeTable.find.
  destruct (InodeTable.get t p) as [dp|] eqn:Hp; [|done]. cbn [mbind outcome_bind unwrap].
  destruct (InodeData.get_directory dp) as [dir|] eqn:Hdir; [|done]. cbn [mbind outcome_bind unwrap].
  destruct (dir !! name) eqn:Hname; [done|]. cbn [fmap option_fmap option_map rassert].
  rewrite bool_decide_true by done. cbn [mbind outcome_bind].
  pose proof (get_Some_range _ _ _ Hp).
  pose proof (get_put t d p Hlen) as Hgp. rewrite decide_False, Hp in Hgp by lia.
  unfold InodeTable.put in *. cbn [snd] in Hgp. rewrite Hgp. cbn [mbind outcome_bind unwrap].
  unfold InodeData.get_directory in Hdir. unfold InodeData.add_to_directory.
  destruct (data dp) as [hash|] eqn:Hdata; [|done]. simplify_eq. rewrite Hname.
  rewrite bool_decide_true by done. cbn [mbind outcome_bind rassert]. intros [= <- <-].
  exists dp, dir. split_and!; try done. unfold InodeData.get_directory. by rewrite Hdata.
Qed.

Section add.
Context t p name (d : InodeData) ino t' (Hlen : 0 < zlen (table t)).
Context (Hempty : ∀ n dir, InodeData.get_directory d = Some dir → dir !! n = None).
Context (Hadd : InodeTable.add t p name d = Ok (ino, t')).

Lemma add_fresh : ino = zlen (table t) ∧ 0 < p < ino ∧ link t p name = None ∧
  zlen (table t') = zlen (table t) + 1.
Proof.
  destruct (add_inv _ _ _ _ _ _ Hlen Hadd) as (dp & dir & Hp & Hdir & Hn & -> & ->).
  pose proof (get_Some_range _ _ _ Hp). split; [done|]. split; [lia|]. split.
  - unfold link. rewrite Hp. simpl. rewrite Hdir. done.
  - simpl. rewrite length_insert, length_app. simpl. lia.
Qed.

Lemma add_get i :
  InodeTable.get t' i =
    if decide (i = ino) then Some d
    else if decide (i = p) then
      (λ dp, {| mode := mode dp; size := size dp;
                data := Directory (<[name := new_entry d ino]>
                          (default ∅ (InodeData.get_directory dp))) |}) <$> InodeTable.get t p
    else InodeTable.get t i.
Proof.
  destruct (add_inv _ _ _ _ _ _ Hlen Hadd) as (dp & dir & Hp & Hdir & Hn & -> & ->).
  pose proof (get_Some_range _ _ _ Hp).
  assert (InodeTable.get (InodeTable.put t d).2 p = Some dp) as Hp'
    by (rewrite get_put by done; by rewrite decide_False by lia).
  rewrite (get_set _ _ _ dp) by done. rewrite Hp. cbn [fmap option_fmap option_map].
  rewrite Hdir. cbn [default from_option id].
  case_decide; [subst; by rewrite decide_False by lia|]. by rewrite get_put.
Qed.

Lemma add_link q n :
  link t' q n = if decide (q = p ∧ n = name) then Some (new_entry d ino) else link t q n.
Proof.
  destruct (add_inv _ _ _ _ _ _ Hlen Hadd) as (dp & dir & Hp & Hdir & Hn & Hi & _).
  pose proof (get_Some_range _ _ _ Hp). unfold link at 1. rewrite add_get.
  destruct (decide (q = ino)) as [->|Hq].
  - simpl. rewrite decide_False by (intros [? _]; lia).
    assert (link t ino n = None) as ->.
    { unfold link. destruct (InodeTable.get t ino) eqn:Hg; [|done].
      apply get_Some_range in Hg. lia. }
    destruct (InodeData.get_directory d) as [dir'|] eqn:Hd; [|done]. simpl. by apply Hempty.
  - destruct (decide (q = p)) as [->|Hqp]; [|by rewrite decide_False by tauto].
    rewrite Hp. unfold link. rewrite Hp. simpl. rewrite Hdir. simpl. rewrite lookup_insert.
    case_decide; [by rewrite decide_True|].
    by rewrite decide_False by (intros [_ ?]; congruence).
Qed.

Lemma add_extends : extends t t'.
Proof.
  destruct (add_inv _ _ _ _ _ _ Hlen Hadd) as (dp & dir & Hp & Hdir & Hn & Hi & _).
  destruct add_fresh as (_ & Hpi & Hnone & Hlen'). split; [lia|..].
  - intros q n e Hl. rewrite add_link. case_decide as Hd; [|done]. destruct Hd as [-> ->]. congruence.
  - intros i di Hd. rewrite add_get. pose proof (get_Some_range _ _ _ Hd).
    rewrite decide_False by lia. case_decide; [|by eauto]. subst i. rewrite Hd. simpl.
    assert (di = dp) as -> by congruence.
    eexists. split; [done|]. split; [done|]. unfold InodeData.get_zip_index.
    unfold InodeData.get_directory in Hdir. simpl. by destruct (data dp).
Qed.

Lemma add_wf : table_wf t → table_wf t'.
Proof.
  intros Hw. destruct (add_inv _ _ _ _ _ _ Hlen Hadd) as (dp & dir & Hp & Hdir & Hn & Hi & _).
  destruct add_fresh as (_ & Hpi & Hnone & Hlen').
  assert (∀ i di, InodeTable.get t i = Some di →
    ∃ d2, InodeTable.get t' i = Some d2 ∧ kind_of d2 = kind_of di) as Hkind.
  { intros i di Hd. rewrite add_get. pose proof (get_Some_range _ _ _ Hd).
    rewrite decide_False by lia. case_decide; [|by eauto]. subst i. rewrite Hd. simpl.
    assert (di = dp) as -> by congruence. eexists. split; [done|].
    unfold kind_of, InodeData.is_dir. simpl.
    unfold InodeData.get_directory in Hdir. by destruct (data dp). }
  split.
  - destruct (wf_root _ Hw) as (r & Hr & Hd). destruct (Hkind _ _ Hr) as (r2 & Hr2 & Hk).
    exists r2. split; [done|]. unfold kind_of in Hk. rewrite Hd in Hk. by destruct (InodeData.is_dir r2).
  - intros q n e. rewrite add_link. case_decide as Hc.
    + destruct Hc as [-> ->]. intros [= <-]. simpl. pose proof (wf_root _ Hw) as (r & Hr & _).
      apply get_Some_range in Hr. split; [lia|]. split; [lia|]. exists d. split; [|done].
      rewrite add_get. by rewrite decide_True.
    + intros Hl. destruct (wf_entry _ Hw _ _ _ Hl) as (H1 & H2 & d' & Hd' & Hk).
      split; [done|]. split; [done|]. destruct (Hkind _ _ Hd') as (d2 & Hd2 & Hk2).
      exists d2. split; [done|congruence].
  - intros i di Hr Hd. destruct (decide (i = ino)) as [->|Hne].
    + exists p, name, (new_entry d ino). split; [|done]. rewrite add_link. by rewrite decide_True.
    + rewrite add_get, decide_False in Hd by done.
      assert (∃ d0, InodeTable.get t i = Some d0) as [d0 Hd0].
      { case_decide; [subst; eauto|eauto]. }
      destruct (wf_parent _ Hw _ _ Hr Hd0) as (q & n & e & Hl & He).
      exists q, n, e. split; [|done]. by apply (ext_link _ _ add_extends).
  - assert (∀ q n e, link t q n = Some e → dir_inode e ≠ ino) as Hold.
    { intros q n e Hl. destruct (wf_entry _ Hw _ _ _ Hl) as (_ & _ & d' & Hd' & _).
      apply get_Some_range in Hd'. lia. }
    intros p1 n1 e1 p2 n2 e2. rewrite !add_link.
    destruct (decide (p1 = p ∧ n1 = name)) as [[-> ->]|], (decide (p2 = p ∧ n2 = name)) as [[-> ->]|].
    + done.
    + intros [= <-] Hl He. simpl in He. by apply Hold in Hl.
    + intros Hl [= <-] He. simpl in He. by apply Hold in Hl.
    + apply (wf_unique _ Hw).
Qed.
End add.

Lemma add_get_back t p name (d : InodeData) ino t' i d2 :
  0 < zlen (table t) → InodeTable.add t p name d = Ok (ino, t') → InodeTable.get t' i = Some d2 →
  (i = ino ∧ d2 = d) ∨
  ∃ d1, InodeTable.get t i = Some d1 ∧ size d2 = size d1 ∧
        InodeData.get_zip_index d2 = InodeData.get_zip_index d1.
Proof.
  intros Hlen Hadd. rewrite (add_get _ _ _ _ _ _ Hlen Hadd).
  destruct (add_inv _ _ _ _ _ _ Hlen Hadd) as (dp & dir & Hp & Hdir & _).
  case_decide as Hi; [intros [= <-]; by left|]. case_decide as Hp'; [|by right; eauto].
  subst i. rewrite Hp. simpl. intros [= <-]. right. exists dp. split; [done|]. split; [done|].
  unfold InodeData.get_zip_index, InodeData.get_directory in *. simpl. by destruct (data dp).
Qed.

Lemma add_get_mode t p name (d : InodeData) ino t' i d2 :
  0 < zlen (table t) → InodeTable.add t p name d = Ok (ino, t') → InodeTable.get t' i = Some d2 →
  (i = ino ∧ d2 = d) ∨
  ∃ d1, InodeTable.get t i = Some d1 ∧ mode d2 = mode d1 ∧
        InodeData.get_zip_index d2 = InodeData.get_zip_index d1.
Proof.
  intros Hlen Hadd Hd2. destruct (add_get_back _ _ _ _ _ _ _ _ Hlen Hadd Hd2) as [|(d1 & H1 & _ & Hz)];
    [by left|right]. exists d1. split; [done|]. split; [|done].
  destruct (add_inv _ _ _ _ _ _ Hlen Hadd) as (dp & dir & Hp & _ & _ & -> & _).
  pose proof (get_Some_range _ _ _ H1). rewrite (add_get _ _ _ _ _ _ Hlen Hadd), decide_False in Hd2 by lia.
  case_decide; [|congruence]. subst i. rewrite Hp in Hd2. simpl in Hd2. by simplify_eq.
Qed.

Section set_mode.
Context t p (d : InodeData) (m : Z) (Hp : InodeTable.get t p = Some d).
Let t' := InodeTable.set t p {| mode := m; size := size d; data := data d |}.

Lemma set_mode_extends : extends t t'.
Proof.
  destruct (set_mode_spec t p d m Hp) as (Hl & Hf & _ & Hlen). split; [subst t'; lia|..].
  - intros q n e Hq. by rewrite Hl.
  - intros i di Hd. destruct (Hf _ _ Hd) as (d2 & H2 & Hs & Hdata). exists d2.
    unfold InodeData.get_zip_index. by rewrite Hdata.
Qed.

Lemma set_mode_wf : table_wf t → table_wf t'.
Proof.
  intros Hw. destruct (set_mode_spec t p d m Hp) as (Hl & Hf & Hb & Hlen). split.
  - destruct (wf_root _ Hw) as (r & Hr & Hd). destruct (Hf _ _ Hr) as (r2 & Hr2 & _ & Hdata).
    exists r2. split; [done|]. unfold InodeData.is_dir in *. by rewrite Hdata.
  - intros q n e. rewrite Hl. intros He. destruct (wf_entry _ Hw _ _ _ He) as (H1 & H2 & d' & Hd' & Hk).
    destruct (Hf _ _ Hd') as (d2 & Hd2 & _ & Hdata). split; [done|]. split; [done|].
    exists d2. split; [done|]. rewrite Hk. unfold kind_of, InodeData.is_dir. by rewrite Hdata.
  - intros i di Hr Hd. destruct (Hb _ _ Hd) as (d2 & Hd2 & _).
    destruct (wf_parent _ Hw _ _ Hr Hd2) as (q & n & e & He & Heq). exists q, n, e. by rewrite Hl.
  - intros p1 n1 e1 p2 n2 e2. rewrite !Hl. apply (wf_unique _ Hw).
Qed.
End set_mode.

Lemma resolve_get t p path ino :
  table_wf t → is_Some (InodeTable.get t p) → resolve t p path = Some ino →
  is_Some (InodeTable.get t ino).
Proof.
  intros Hw. revert p. induction path as [|name path IH]; intros p Hp; simpl; [by intros [= ->]|].
  destruct (link t p name) as [e|] eqn:Hl; [|done]. simpl. apply IH.
  destruct (wf_entry _ Hw _ _ _ Hl) as (_ & _ & d & Hd & _). by eexists.
Qed.

(** ** Paths of the archive *)
Section archive.
Context {A : Type} `{!ZipArchive A} (archive : A).

(** Every file inode serves an entry of the archive, with its size, under the
    path of the entry. *)
Definition file_origin (n : nat) t : Prop :=
  ∀ ino d j, InodeTable.get t ino = Some d → InodeData.get_zip_index d = Some j →
    ∃ f path, by_index archive j = Ok f ∧ enclosed_name f = Some path ∧ is_file f = true ∧
      resolve t ROOT path = Some ino ∧ size d = zip_size f ∧ (j < n)%nat.

Lemma file_origin_step n t t' :
  extends t t' →
  (∀ ino d2, InodeTable.get t' ino = Some d2 →
     (∃ d1, InodeTable.get t ino = Some d1 ∧ size d2 = size d1 ∧
            InodeData.get_zip_index d2 = InodeData.get_zip_index d1) ∨
     InodeData.get_zip_index d2 = None ∨
     ∃ j f path, InodeData.get_zip_index d2 = Some j ∧ by_index archive j = Ok f ∧
       enclosed_name f = Some path ∧ is_file f = true ∧ resolve t' ROOT path = Some ino ∧
       size d2 = zip_size f ∧ (j < n)%nat) →
  file_origin n t → file_origin n t'.
Proof.
  intros He Hback Ho ino d2 j Hd Hj.
  destruct (Hback _ _ Hd) as [(d1 & H1 & Hs & Hz)|[?|(j' & f & path & Hj' & Hrest)]]; [|congruence|].
  - rewrite Hz in Hj. destruct (Ho _ _ _ H1 Hj) as (f & path & H2 & H3 & H4 & Hr & H5 & H6).
    exists f, path. split_and!; [done..| |congruence|done]. by eapply resolve_extends.
  - simplify_eq. by exists f, path.
Qed.

Definition new_inode (i : nat) (file : ZipFile) (is_leaf : bool) : InodeData :=
  if is_file file && is_leaf then InodeData.new_file i file
  else if is_leaf then InodeData.new_dir (default DEFAULT_DIR_MODE (unix_mode file))
  else InodeData.new_dir DEFAULT_DIR_MODE.

Lemma new_inode_empty i file is_leaf n dir :
  InodeData.get_directory (new_inode i file is_leaf) = Some dir → dir !! n = None.
Proof.
  unfold new_inode. repeat case_match; simpl; try done; intros [= <-]; apply lookup_empty.
Qed.

Lemma add_component_spec i file prefix name rest parent t p' t' :
  by_index archive i = Ok file → enclosed_name file = Some (prefix ++ name :: rest) →
  table_wf t → file_origin (S i) t → resolve t ROOT prefix = Some parent →
  InodeTable.add_component i file parent name (bool_decide (rest = [])) t = Ok (p', t') →
  table_wf t' ∧ extends t t' ∧ file_origin (S i) t' ∧ resolve t' ROOT (prefix ++ [name]) = Some p'.
Proof.
  intros Hby Hname Hw Ho Hres Hadd.
  pose proof (wf_root _ Hw) as (rt & Hroot & _). apply get_Some_range in Hroot.
  assert (0 < zlen (table t)) as Hlen by lia.
  unfold InodeTable.add_component in Hadd. case_bool_decide; [done|].
  unfold cstring_new in Hadd. destruct (has_nul name); [done|]. cbn [mbind outcome_bind] in Hadd.
  apply bind_Ok_inv in Hadd as (found & Hf%find_link & Hadd). subst found.
  rewrite resolve_app.
  destruct (link t parent name) as [e|] eqn:Hl; cbn [fmap option_fmap option_map] in Hadd.
  - assert (p' = dir_inode e ∧ table_wf t' ∧ extends t t' ∧ file_origin (S i) t')
      as (-> & Hw1 & He1 & Ho1).
    { destruct (negb _ && _) in Hadd; [|by simplify_eq].
      apply bind_Ok_inv in Hadd as (d & Hd & Hadd).
      destruct (InodeTable.get t (dir_inode e)) as [d0|] eqn:Hg; [|done].
      simpl in Hd. simplify_eq. pose proof (set_mode_extends _ _ _ (default 0 (unix_mode file)) Hg) as He.
      split; [done|]. split; [by apply set_mode_wf|]. split; [done|].
      eapply file_origin_step; [done| |done]. intros ino d2 Hd2. left.
      destruct (set_mode_spec _ _ _ (default 0 (unix_mode file)) Hg) as (_ & _ & Hb & _).
      destruct (Hb _ _ Hd2) as (d3 & H3 & Hs & Hdata). exists d3.
      unfold InodeData.get_zip_index. by rewrite Hdata. }
    split_and!; try done. rewrite (resolve_extends _ _ _ _ _ He1 Hres). simpl.
    by rewrite (ext_link _ _ He1 _ _ _ Hl).
  - fold (new_inode i file (bool_decide (rest = []))) in Hadd.
    pose proof (new_inode_empty i file (bool_decide (rest = []))) as Hempty.
    pose proof (add_wf _ _ _ _ _ _ Hlen Hempty Hadd Hw) as Hw1.
    pose proof (add_extends _ _ _ _ _ _ Hlen Hempty Hadd) as He1.
    assert (resolve t' ROOT (prefix ++ [name]) = Some p') as Hnew.
    { rewrite resolve_app, (resolve_extends _ _ _ _ _ He1 Hres). simpl.
      rewrite (add_link _ _ _ _ _ _ Hlen Hempty Hadd), decide_True by done. done. }
    rewrite resolve_app in Hnew. split_and!; try done.
    eapply file_origin_step; [done| |done]. intros ino d2 Hd2.
    destruct (add_get_back _ _ _ _ _ _ _ _ Hlen Hadd Hd2) as [[-> ->]|Hback]; [|by left].
    right. unfold new_inode. destruct (is_file file) eqn:Hfile, (bool_decide_reflect (rest = []));
      cbn [andb]; try (left; done).
    right. exists i, file, (prefix ++ [name]). subst rest. rewrite resolve_app.
    split_and!; try done. lia.
Qed.

Lemma add_path_spec i file path parent prefix t t' :
  by_index archive i = Ok file → enclosed_name file = Some (prefix ++ path) →
  table_wf t → file_origin (S i) t → resolve t ROOT prefix = Some parent →
  InodeTable.add_path i file parent path t = Ok t' →
  table_wf t' ∧ extends t t' ∧ file_origin (S i) t' ∧
  is_Some (resolve t' ROOT (prefix ++ path)).
Proof.
  intros Hby. revert parent prefix t.
  induction path as [|name rest IH]; intros parent prefix t Hname Hw Ho Hres Hadd.
  { simpl in Hadd. simplify_eq. rewrite app_nil_r in *. split_and!; [done..|by eexists]. }
  cbn [InodeTable.add_path] in Hadd. apply bind_Ok_inv in Hadd as ([p' t1] & Hc & Hadd).
  destruct (add_component_spec _ _ _ _ _ _ _ _ _ Hby Hname Hw Ho Hres Hc) as (Hw1 & He1 & Ho1 & Hr1).
  assert (prefix ++ name :: rest = (prefix ++ [name]) ++ rest) as Heq by by rewrite <- (assoc_L (++)).
  rewrite Heq in *. destruct (IH p' (prefix ++ [name]) t1) as (Hw2 & He2 & Ho2 & Hr2); [done..|].
  split_and!; [done|by etrans|done|done].
Qed.

(** An archive without broken entries: every entry can be read, its name can be a
    path, no file lies on the path to another entry, and no path is both a file's and a
    directory's. *)
Definition good_name name : Prop := name ≠ ".." ∧ has_nul name = false.
Record archive_ok : Prop := {
  ok_entry i : (i < archive_len archive)%nat →
    ∃ file path, by_index archive i = Ok file ∧ enclosed_name file = Some path ∧ Forall good_name path;
  ok_files i j f g (p q : list string) :
    by_index archive i = Ok f → by_index archive j = Ok g → is_file f = true →
    enclosed_name f = Some p → enclosed_name g = Some (p ++ q) → q = [];
  ok_kinds i j f g (p : list string) :
    by_index archive i = Ok f → by_index archive j = Ok g →
    enclosed_name f = Some p → enclosed_name g = Some p → is_file f = is_file g;
}.

(** What is on the way of a path is a directory. *)
Lemma parent_is_directory i file prefix name rest parent t n :
  archive_ok → by_index archive i = Ok file → enclosed_name file = Some (prefix ++ name :: rest) →
  table_wf t → file_origin n t → resolve t ROOT prefix = Some parent →
  ∃ d dir, InodeTable.get t parent = Some d ∧ data d = Directory dir.
Proof.
  intros Hok Hby Hname Hw Ho Hres. pose proof (wf_root _ Hw) as (r & Hr & _).
  assert (is_Some (InodeTable.get t parent)) as [d Hd] by by eapply resolve_get.
  exists d. destruct (data d) as [dir|j] eqn:Hdata; [by exists dir|]. exfalso.
  assert (InodeData.get_zip_index d = Some j) as Hj by (unfold InodeData.get_zip_index; by rewrite Hdata).
  destruct (Ho _ _ _ Hd Hj) as (f & path & H1 & H2 & H3 & H4 & _).
  assert (path = prefix) as -> by by eapply resolve_inj.
  by discriminate (ok_files Hok _ _ _ _ _ _ H1 Hby H3 H2 Hname).
Qed.

Lemma add_component_total i file prefix name rest parent t n :
  archive_ok → by_index archive i = Ok file → enclosed_name file = Some (prefix ++ name :: rest) →
  good_name name → table_wf t → file_origin n t → resolve t ROOT prefix = Some parent →
  ∃ r, InodeTable.add_component i file parent name (bool_decide (rest = [])) t = Ok r.
Proof.
  intros Hok Hby Hname [Hdots Hnul] Hw Ho Hres.
  destruct (parent_is_directory _ _ _ _ _ _ _ _ Hok Hby Hname Hw Ho Hres) as (d & dir & Hd & Hdata).
  pose proof (get_Some_range _ _ _ Hd).
  unfold InodeTable.add_component. rewrite bool_decide_false by done. unfold cstring_new.
  rewrite Hnul. cbn [mbind outcome_bind].
  assert (InodeTable.find t parent name = Ok (dir_inode <$> dir !! name)) as Hfind.
  { unfold InodeTable.find. rewrite Hd. cbn. unfold InodeData.get_directory. by rewrite Hdata. }
  rewrite Hfind. cbn [mbind outcome_bind].
  destruct (dir !! name) as [e|] eqn:He; cbn [fmap option_fmap option_map].
  - assert (link t parent name = Some e) as Hl.
    { unfold link. rewrite Hd. cbn. unfold InodeData.get_directory. by rewrite Hdata. }
    destruct (wf_entry _ Hw _ _ _ Hl) as (_ & _ & d' & Hd' & _). rewrite Hd'.
    destruct (negb _ && _); eexists; reflexivity.
  - unfold InodeTable.add. rewrite Hfind. cbn [fmap option_fmap option_map mbind outcome_bind].
    rewrite (bool_decide_true (@None Z = None)) by done. cbn [rassert mbind outcome_bind].
    match goal with |- context [InodeTable.put t ?x] => pose proof (get_put t x parent) as Hput end.
    rewrite decide_False, Hd in Hput by lia. unfold InodeTable.put in *. cbn [snd] in Hput.
    rewrite Hput by lia. cbn [unwrap mbind outcome_bind]. unfold InodeData.add_to_directory.
    rewrite Hdata, He, (bool_decide_true (@None DirectoryEntry = None)) by done. cbn [rassert mbind outcome_bind]. by eexists.
Qed.

Lemma add_path_total i file path parent prefix t :
  archive_ok → by_index archive i = Ok file → enclosed_name file = Some (prefix ++ path) →
  Forall good_name path → table_wf t → file_origin (S i) t → resolve t ROOT prefix = Some parent →
  ∃ t', InodeTable.add_path i file parent path t = Ok t'.
Proof.
  intros Hok Hby Hname Hgood. revert parent prefix t Hname.
  induction Hgood as [|name rest Hg _ IH]; intros parent prefix t Hname Hw Ho Hres; [by eexists|].
  destruct (add_component_total _ _ _ _ _ _ _ _ Hok Hby Hname Hg Hw Ho Hres) as [[p' t1] Hc].
  destruct (add_component_spec _ _ _ _ _ _ _ _ _ Hby Hname Hw Ho Hres Hc) as (Hw1 & He1 & Ho1 & Hr1).
  cbn [InodeTable.add_path]. rewrite Hc. cbn [mbind outcome_bind].
  apply (IH p' (prefix ++ [name])); [by rewrite <- (assoc_L (++))|done..].
Qed.

(** The paths of the first entries lead somewhere. *)
Definition paths_resolve (n : nat) t : Prop :=
  ∀ i file path, (i < n)%nat → by_index archive i = Ok file → enclosed_name file = Some path →
    is_Some (resolve t ROOT path).

Lemma file_origin_mono n n' t : (n ≤ n')%nat → file_origin n t → file_origin n' t.
Proof.
  intros Hn Ho ino d j Hd Hj. destruct (Ho _ _ _ Hd Hj) as (f & path & H1 & H2 & H3 & H4 & H5 & H6).
  exists f, path. split_and!; try done. lia.
Qed.

Lemma add_entries_spec k n t t' :
  table_wf t → file_origin k t → paths_resolve k t →
  InodeTable.add_entries archive (seq k n) t = Ok t' →
  table_wf t' ∧ file_origin (k + n) t' ∧ paths_resolve (k + n) t'.
Proof.
  revert k t. induction n as [|n IH]; intros k t Hw Ho Hp Hadd.
  { simpl in Hadd. simplify_eq. by rewrite Nat.add_0_r. }
  cbn [seq InodeTable.add_entries] in Hadd. apply bind_Ok_inv in Hadd as (t1 & Ht1 & Hadd).
  unfold InodeTable.add_entry in Ht1. apply bind_Ok_inv in Ht1 as (file & Hby & Ht1).
  apply bind_Ok_inv in Ht1 as (path & Hpath & Ht1).
  destruct (enclosed_name file) as [path'|] eqn:Hname; [|done]. simpl in Hpath. simplify_eq.
  destruct (add_path_spec k file path ROOT [] t t1) as (Hw1 & He1 & Ho1 & Hr1); [done..| |done|done|].
  { eapply file_origin_mono; [|done]. lia. }
  destruct (IH (S k) t1) as (Hw2 & Ho2 & Hp2); [done|done| |done|].
  - intros i f q Hi Hf Hq. destruct (decide (i = k)) as [->|Hne].
    + assert (f = file) as -> by congruence. assert (q = path) as -> by congruence. done.
    + destruct (Hp i f q) as [ino Hino]; [lia|done|done|]. exists ino. by eapply resolve_extends.
  - replace (k + S n)%nat with (S k + n)%nat by lia. done.
Qed.

Lemma add_entries_total k n t :
  archive_ok → (k + n ≤ archive_len archive)%nat → table_wf t → file_origin k t → paths_resolve k t →
  ∃ t', InodeTable.add_entries archive (seq k n) t = Ok t'.
Proof.
  intros Hok. revert k t. induction n as [|n IH]; intros k t Hk Hw Ho Hp; [by eexists|].
  destruct (ok_entry Hok k) as (file & path & Hby & Hname & Hgood); [lia|].
  assert (file_origin (S k) t) as Ho' by (eapply file_origin_mono; [|done]; lia).
  destruct (add_path_total k file path ROOT [] t) as [t1 Ht1]; [done..|].
  assert (InodeTable.add_entries archive (seq k 1) t = Ok t1) as H1.
  { cbn [seq InodeTable.add_entries]. unfold InodeTable.add_entry. rewrite Hby. cbn [mbind outcome_bind].
    rewrite Hname. cbn [ok_or mbind outcome_bind]. by rewrite Ht1. }
  destruct (add_entries_spec k 1 t t1) as (Hw1 & Ho1 & Hp1); [done..|].
  rewrite Nat.add_1_r in *. destruct (IH (S k) t1) as [t' Ht']; [lia|done..|]. exists t'.
  cbn [seq InodeTable.add_entries] in *. apply bind_Ok_inv in H1 as (t2 & -> & [= ->]). done.
Qed.

(** ** Kinds and modes of the entries of a sound archive *)

(** A directory is the root or lies on the path of an entry, and at its end only if the entry
    is not a file. *)
Definition dir_origin t : Prop :=
  ∀ ino d, InodeTable.get t ino = Some d → InodeData.get_zip_index d = None →
    ino = ROOT ∨
    ∃ i f path q, by_index archive i = Ok f ∧ enclosed_name f = Some (path ++ q) ∧
      resolve t ROOT path = Some ino ∧ (q = [] → is_file f = false).

(** The inode of a file has the mode of its entry. *)
Definition file_modes t : Prop :=
  ∀ ino d j f, InodeTable.get t ino = Some d → InodeData.get_zip_index d = Some j →
    by_index archive j = Ok f → mode d = default 0 (unix_mode f).

(** What an inode has to be for the entry [i] whose path leads to it. *)
Definition entry_kind (i : nat) (file : ZipFile) path (d : InodeData) : Prop :=
  if is_file file && negb (bool_decide (path = []))
  then ∃ j, InodeData.get_zip_index d = Some j ∧ (j ≤ i)%nat
  else InodeData.get_zip_index d = None.

Lemma dir_origin_step t t' :
  extends t t' →
  (∀ ino d2, InodeTable.get t' ino = Some d2 → InodeData.get_zip_index d2 = None →
     (∃ d1, InodeTable.get t ino = Some d1 ∧ InodeData.get_zip_index d1 = None) ∨
     ∃ i f path q, by_index archive i = Ok f ∧ enclosed_name f = Some (path ++ q) ∧
       resolve t' ROOT path = Some ino ∧ (q = [] → is_file f = false)) →
  dir_origin t → dir_origin t'.
Proof.
  intros He Hback Ho ino d2 Hd Hz. destruct (Hback _ _ Hd Hz) as [(d1 & H1 & Hz1)|]; [|by right].
  destruct (Ho _ _ H1 Hz1) as [|(i & f & path & q & Hf & Hn & Hr & Hq)]; [by left|right].
  exists i, f, path, q. split_and!; try done. by eapply resolve_extends.
Qed.

(** The inode a path already leads to is of the kind of the entry. *)
Lemma found_kind i file path ino d t n :
  archive_ok → by_index archive i = Ok file → enclosed_name file = Some path → path ≠ [] →
  table_wf t → file_origin n t → dir_origin t →
  resolve t ROOT path = Some ino → InodeTable.get t ino = Some d →
  is_file file = bool_decide (is_Some (InodeData.get_zip_index d)).
Proof.
  intros Hok Hby Hname Hne Hw Ho Hdo Hres Hd. destruct (InodeData.get_zip_index d) as [j|] eqn:Hj.
  - rewrite bool_decide_true by done.
    destruct (Ho _ _ _ Hd Hj) as (f & path' & H1 & H2 & H3 & H4 & _).
    assert (path' = path) as -> by by eapply resolve_inj.
    rewrite (ok_kinds Hok _ _ _ _ _ Hby H1 Hname H2). done.
  - rewrite bool_decide_false by (by intros []). apply not_true_is_false. intros Hfile.
    destruct (Hdo _ _ Hd Hj) as [->|(k & f & path' & q & H1 & H2 & H3 & H4)].
    { apply resolve_ge in Hres as [_ Hlt]; [|done]. destruct (Hlt Hne). lia. }
    assert (path' = path) as -> by by eapply resolve_inj.
    pose proof (ok_files Hok _ _ _ _ _ _ Hby H1 Hfile Hname H2). subst q. rewrite app_nil_r in H2.
    pose proof (ok_kinds Hok _ _ _ _ _ Hby H1 Hname H2). rewrite H4 in *; [congruence|done].
Qed.

Lemma add_component_kinds i file prefix name rest parent t p' t' :
  archive_ok → by_index archive i = Ok file → enclosed_name file = Some (prefix ++ name :: rest) →
  table_wf t → file_origin (S i) t → dir_origin t → file_modes t →
  resolve t ROOT prefix = Some parent →
  InodeTable.add_component i file parent name (bool_decide (rest = [])) t = Ok (p', t') →
  dir_origin t' ∧ file_modes t' ∧
  (rest = [] → ∃ d, InodeTable.get t' p' = Some d ∧ entry_kind i file (prefix ++ [name]) d).
Proof.
  intros Hok Hby Hname Hw Ho Hdo Hfm Hres Hadd.
  pose proof (add_component_spec _ _ _ _ _ _ _ _ _ Hby Hname Hw Ho Hres Hadd) as (_ & He & Ho' & Hres').
  pose proof (wf_root _ Hw) as (rt & Hroot & _). apply get_Some_range in Hroot.
  assert (0 < zlen (table t)) as Hlen by lia.
  unfold InodeTable.add_component in Hadd. case_bool_decide; [done|].
  unfold cstring_new in Hadd. destruct (has_nul name); [done|]. cbn [mbind outcome_bind] in Hadd.
  apply bind_Ok_inv in Hadd as (found & Hf%find_link & Hadd). subst found.
  unfold entry_kind. rewrite (bool_decide_false (prefix ++ [name] = [])), andb_true_r by (by destruct prefix).
  destruct (link t parent name) as [e|] eqn:Hl; cbn [fmap option_fmap option_map] in Hadd.
  - destruct (wf_entry _ Hw _ _ _ Hl) as (_ & _ & d0 & Hd0 & _).
    assert (resolve t ROOT (prefix ++ [name]) = Some (dir_inode e)) as Hr0.
    { rewrite resolve_app, Hres. cbn. by rewrite Hl. }
    assert (rest = [] → is_file file = bool_decide (is_Some (InodeData.get_zip_index d0))) as Hkind.
    { intros ->. eapply (found_kind i file (prefix ++ [name])); try done. by destruct prefix. }
    assert (∀ d, InodeData.get_zip_index d = InodeData.get_zip_index d0 →
      InodeTable.get t' (dir_inode e) = Some d → rest = [] →
      if is_file file then ∃ j, InodeData.get_zip_index d = Some j ∧ (j ≤ i)%nat
      else InodeData.get_zip_index d = None) as Hleaf.
    { intros d Hz Hd Hr. rewrite (Hkind Hr), <- Hz.
      destruct (InodeData.get_zip_index d) as [j|] eqn:Hj.
      - rewrite bool_decide_true by done. exists j. split; [done|].
        destruct (Ho' _ _ _ Hd Hj) as (? & ? & _ & _ & _ & _ & _ & Hlt). lia.
      - by rewrite bool_decide_false by (by intros []). }
    rewrite Hd0 in Hadd. destruct (is_file file) eqn:Hfile, (bool_decide_reflect (rest = [])) as [Hr|Hr];
      cbn [andb negb unwrap mbind outcome_bind] in Hadd; simplify_eq;
      try (split_and!; [done|done|]; intros ?; exists d0; split; [done|]; by apply Hleaf).
    destruct (set_mode_spec _ _ _ (default 0 (unix_mode file)) Hd0) as (_ & Hfw & Hb & _). split_and!.
    + eapply dir_origin_step; [done| |done]. intros ino d2 Hd2 Hz. left.
      destruct (Hb _ _ Hd2) as (d3 & H3 & _ & Hdata). exists d3. split; [done|].
      unfold InodeData.get_zip_index in *. by rewrite Hdata.
    + intros ino d2 j f Hd2 Hj Hf. rewrite (get_set _ _ _ _ _ Hd0) in Hd2.
      case_decide; [|by eapply Hfm]. exfalso. simplify_eq. specialize (Hkind eq_refl).
      unfold InodeData.get_zip_index in *. cbn [data] in Hj. rewrite Hj in Hkind. done.
    + intros _. eexists. rewrite (get_set _ _ _ _ _ Hd0), decide_True by done. split; [done|].
      apply Hleaf; [done| |done]. by rewrite (get_set _ _ _ _ _ Hd0), decide_True.
  - fold (new_inode i file (bool_decide (rest = []))) in Hadd.
    pose proof (add_fresh _ _ _ _ _ _ Hlen Hadd) as (-> & _).
    assert (InodeTable.get t' (zlen (table t)) = Some (new_inode i file (bool_decide (rest = [])))) as Hnew
      by (rewrite (add_get _ _ _ _ _ _ Hlen Hadd); by rewrite decide_True).
    split_and!.
    + eapply dir_origin_step; [done| |done]. intros ino d2 Hd2 Hz.
      destruct (add_get_back _ _ _ _ _ _ _ _ Hlen Hadd Hd2) as [[-> ->]|(d1 & H1 & _ & Hz1)];
        [right|left; exists d1; split; [done|by rewrite <- Hz1]].
      exists i, file, (prefix ++ [name]), rest. rewrite <- (assoc_L (++)). split_and!; try done.
      intros ->. unfold new_inode in Hz. rewrite bool_decide_true, andb_true_r in Hz by done.
      by destruct (is_file file).
    + intros ino d2 j f Hd2 Hj Hf.
      destruct (add_get_mode _ _ _ _ _ _ _ _ Hlen Hadd Hd2) as [[-> ->]|(d1 & H1 & Hm & Hz1)];
        [|rewrite Hm; by eapply Hfm; [|rewrite <- Hz1|]].
      unfold new_inode in *. destruct (is_file file && _); [|by case_match].
      injection Hj as <-. rewrite Hby in Hf. by injection Hf as <-.
    + intros ->. eexists. split; [exact Hnew|]. unfold new_inode.
      rewrite bool_decide_true, andb_true_r by done. destruct (is_file file); [by exists i|done].
Qed.

Lemma add_path_kinds i file path parent prefix t t' :
  archive_ok → by_index archive i = Ok file → enclosed_name file = Some (prefix ++ path) →
  table_wf t → file_origin (S i) t → dir_origin t → file_modes t →
  resolve t ROOT prefix = Some parent → InodeTable.add_path i file parent path t = Ok t' →
  dir_origin t' ∧ file_modes t' ∧
  (path ≠ [] → ∃ ino d, resolve t' ROOT (prefix ++ path) = Some ino ∧
     InodeTable.get t' ino = Some d ∧ entry_kind i file (prefix ++ path) d).
Proof.
  intros Hok Hby. revert parent prefix t.
  induction path as [|name rest IH]; intros parent prefix t Hname Hw Ho Hdo Hfm Hres Hadd.
  { simpl in Hadd. by simplify_eq. }
  cbn [InodeTable.add_path] in Hadd. apply bind_Ok_inv in Hadd as ([p' t1] & Hc & Hadd).
  destruct (add_component_spec _ _ _ _ _ _ _ _ _ Hby Hname Hw Ho Hres Hc) as (Hw1 & He1 & Ho1 & Hr1).
  destruct (add_component_kinds _ _ _ _ _ _ _ _ _ Hok Hby Hname Hw Ho Hdo Hfm Hres Hc)
    as (Hdo1 & Hfm1 & Hleaf).
  assert (prefix ++ name :: rest = (prefix ++ [name]) ++ rest) as Heq by by rewrite <- (assoc_L (++)).
  rewrite Heq in *. destruct (IH p' (prefix ++ [name]) t1) as (Hdo2 & Hfm2 & Hk2); [done..|].
  split_and!; [done..|]. intros _. destruct (decide (rest = [])) as [->|Hr]; [|by apply Hk2].
  simpl in Hadd. simplify_eq. rewrite app_nil_r. destruct (Hleaf eq_refl) as (d & Hd & Hk). eauto.
Qed.

Definition entries_served (n : nat) t : Prop :=
  ∀ i file path, (i < n)%nat → by_index archive i = Ok file → enclosed_name file = Some path →
    ∃ ino d, resolve t ROOT path = Some ino ∧ InodeTable.get t ino = Some d ∧ entry_kind i file path d.

Lemma entries_served_extends n t t' : extends t t' → entries_served n t → entries_served n t'.
Proof.
  intros He Hs i file path Hi Hby Hname. destruct (Hs _ _ _ Hi Hby Hname) as (ino & d & Hr & Hd & Hk).
  destruct (ext_data _ _ He _ _ Hd) as (d' & Hd' & _ & Hz). exists ino, d'.
  split; [by eapply resolve_extends|]. split; [done|]. unfold entry_kind in *. by rewrite Hz.
Qed.

Lemma add_entries_kinds k n t t' :
  archive_ok → table_wf t → file_origin k t → dir_origin t → file_modes t → entries_served k t →
  InodeTable.add_entries archive (seq k n) t = Ok t' → file_modes t' ∧ entries_served (k + n) t'.
Proof.
  intros Hok. revert k t. induction n as [|n IH]; intros k t Hw Ho Hdo Hfm Hs Hadd.
  { simpl in Hadd. simplify_eq. by rewrite Nat.add_0_r. }
  cbn [seq InodeTable.add_entries] in Hadd. apply bind_Ok_inv in Hadd as (t1 & Ht1 & Hadd).
  unfold InodeTable.add_entry in Ht1. apply bind_Ok_inv in Ht1 as (file & Hby & Ht1).
  apply bind_Ok_inv in Ht1 as (path & Hpath & Ht1).
  destruct (enclosed_name file) as [path'|] eqn:Hname; [|done]. simpl in Hpath. simplify_eq.
  assert (file_origin (S k) t) as Ho' by (eapply file_origin_mono; [|done]; lia).
  destruct (add_path_spec k file path ROOT [] t t1) as (Hw1 & He1 & Ho1 & Hr1); [done..|].
  destruct (add_path_kinds k file path ROOT [] t t1) as (Hdo1 & Hfm1 & Hk1); [done..|].
  replace (k + S n)%nat with (S k + n)%nat by lia. apply (IH (S k) t1); try done.
  intros i f q Hi Hf Hq. destruct (decide (i = k)) as [->|Hne].
  - assert (f = file) as -> by congruence. assert (q = path) as -> by congruence.
    destruct (decide (path = [])) as [->|Hne]; [|by apply Hk1].
    destruct (wf_root _ Hw1) as (r & Hr & Hdir). exists ROOT, r. split; [done|]. split; [done|].
    unfold entry_kind. rewrite bool_decide_true, andb_false_r by done.
    unfold InodeData.get_zip_index, InodeData.is_dir in *. by destruct (data r).
  - apply (entries_served_extends k _ _ He1 Hs); [lia|done|done].
Qed.

Lemma with_root_wf t : InodeTable.with_root = Ok t → table_wf t ∧ file_origin 0 t.
Proof.
  intros Ht. vm_compute in Ht. simplify_eq.
  assert (∀ p name, link {| table := [InodeData.new_dir 0; InodeData.new_dir 0] |} p name = None) as Hl.
  { intros p name. unfold link, InodeTable.get, vec_get.
    destruct (p =? INVALID); [done|]. destruct (0 <=? p); [|done]. cbn [table].
    destruct (Z.to_nat p) as [|[|n]]; simpl; [apply lookup_empty..|done]. }
  split.
  - split; try (intros * Hl'; by rewrite Hl in Hl').
    + by eexists.
    + intros ino d Hr Hd. apply get_Some_range in Hd. simpl in Hd. unfold ROOT in Hr. lia.
  - intros ino d j Hd Hj. exfalso. revert Hd Hj. unfold InodeTable.get, vec_get.
    destruct (ino =? INVALID); [done|]. destruct (0 <=? ino); [|done]. cbn [table].
    destruct (Z.to_nat ino) as [|[|n]]; simpl; [by intros [= <-]..|done].
Qed.

Lemma from_zip_total : archive_ok → ∃ t, InodeTable.from_zip archive = Ok t.
Proof.
  intros Hok. unfold InodeTable.from_zip.
  assert (∃ t0, InodeTable.with_root = Ok t0) as [t0 H0] by (by eexists).
  rewrite H0. cbn [mbind outcome_bind]. apply with_root_wf in H0 as [Hw Ho].
  apply add_entries_total; [done|lia|done|done|]. intros i file path Hi. lia.
Qed.

Lemma from_zip_served t :
  archive_ok → InodeTable.from_zip archive = Ok t →
  file_modes t ∧ entries_served (archive_len archive) t.
Proof.
  intros Hok Ht. unfold InodeTable.from_zip in Ht. apply bind_Ok_inv in Ht as (t0 & H0 & Ht).
  pose proof (with_root_wf _ H0) as [Hw Ho].
  apply (add_entries_kinds 0 (archive_len archive) t0 t); try done.
  - intros ino d Hd _. left. apply get_Some_range in Hd as Hr. vm_compute in H0. simplify_eq.
    simpl in Hr. unfold ROOT. lia.
  - intros ino d j f Hd Hj. by destruct (Ho _ _ _ Hd Hj) as (? & ? & _ & _ & _ & _ & _ & ?%Nat.nlt_0_r).
  - intros i file path Hi. lia.
Qed.

Lemma from_zip_spec t :
  InodeTable.from_zip archive = Ok t →
  table_wf t ∧ file_origin (archive_len archive) t ∧ paths_resolve (archive_len archive) t.
Proof.
  unfold InodeTable.from_zip. intros Ht. apply bind_Ok_inv in Ht as (t0 & H0 & Ht).
  apply with_root_wf in H0 as [Hw Ho].
  destruct (add_entries_spec 0 (archive_len archive) t0 t) as (Hw1 & Ho1 & Hp1); try done.
  intros i file path Hi. lia.
Qed.

End archive.

(** ** Claims *)
Section claims.
Context {A : Type} `{!ZipArchive A} (archive : A).

(** C24: The inode table is a tree.  Whatever the archive holds, a table that is built has a
    directory as its root, every directory entry names a later inode of the recorded kind, and
    every other inode is named by exactly one entry of one directory. *)
Theorem zip_table_is_tree t : InodeTable.from_zip archive = Ok t → table_wf t.
Proof. intros Ht. by destruct (from_zip_spec archive t Ht). Qed.

(** C17: A sound archive is served whole.  When every entry can be read, no name is [..] or holds a
    NUL byte, no file lies on the path to another entry and no path is both a file's and a
    directory's, building the table returns a table: nothing panics.  The path of every file entry
    then leads from the root to a file inode, which serves the first file entry with that path, with
    its size and its mode; the path of every other entry leads to a directory. *)
Theorem zip_sound_archive_served :
  archive_ok archive →
  ∃ t, InodeTable.from_zip archive = Ok t ∧
    ∀ i file path, (i < archive_len archive)%nat → by_index archive i = Ok file →
      enclosed_name file = Some path →
      ∃ ino d, resolve t ROOT path = Some ino ∧ InodeTable.get t ino = Some d ∧
        if is_file file && negb (bool_decide (path = []))
        then ∃ j f, data d = File j ∧ (j ≤ i)%nat ∧ by_index archive j = Ok f ∧
               enclosed_name f = Some path ∧ is_file f = true ∧ size d = zip_size f ∧
               mode d = default 0 (unix_mode f)
        else InodeData.is_dir d = true.
Proof.
  intros Hok. destruct (from_zip_total archive Hok) as [t Ht]. exists t. split; [done|].
  intros i file path Hi Hby Hname. destruct (from_zip_spec archive t Ht) as (Hw & Ho & _).
  destruct (from_zip_served archive t Hok Ht) as [Hfm Hs].
  destruct (Hs _ _ _ Hi Hby Hname) as (ino & d & Hr & Hd & Hk). exists ino, d.
  split; [done|]. split; [done|]. unfold entry_kind in Hk. case_match.
  - destruct Hk as (j & Hj & Hle). destruct (Ho _ _ _ Hd Hj) as (f & path' & H1 & H2 & H3 & H4 & H5 & _).
    assert (path' = path) as -> by by eapply resolve_inj.
    exists j, f. split_and!; try done; [|by eapply Hfm].
    unfold InodeData.get_zip_index in Hj. destruct (data d); congruence.
  - unfold InodeData.get_zip_index, InodeData.is_dir in *. by destruct (data d).
Qed.
End claims.

(** An archive that uses a file as a directory crashes the server.  When one entry is a file
    and a later entry's path goes through it, building the table panics instead of reporting an
    error. *)
Lemma zip_file_used_as_directory_panics a b fa fb :
  a ≠ ".." → b ≠ ".." → has_nul a = false → has_nul b = false →
  enclosed_name fa = Some [a] → is_file fa = true → enclosed_name fb = Some [a; b] →
  InodeTable.from_zip [fa; fb] = Panic.
Proof.
  intros Ha Hb Na Nb Hfa Hf Hfb. unfold InodeTable.from_zip.
  change InodeTable.with_root with
    (Ok (E := ZipError) {| table := [InodeData.new_dir 0; InodeData.new_dir 0] |}).
  cbn [mbind outcome_bind archive_len ZipFile_list length seq InodeTable.add_entries].
  unfold InodeTable.add_entry. cbn [by_index ZipFile_list lookup list_lookup ok_or mbind outcome_bind].
  rewrite Hfa, Hfb. cbn [ok_or mbind outcome_bind InodeTable.add_path].
  unfold InodeTable.add_component, cstring_new.
  rewrite (bool_decide_false (a = "..")), (bool_decide_false (b = "..")) by done. rewrite Na, Nb, Hf.
  change (bool_decide ([] = [])) with true. change (bool_decide ([b] = [])) with false.
  cbn [andb negb mbind outcome_bind].
  set (t0 := {| table := [InodeData.new_dir 0; InodeData.new_dir 0] |}).
  set (t1 := {| table := [InodeData.new_dir 0;
    {| mode := 0; size := 0;
       data := Directory (<[a := {| dir_inode := 2; kind := FileKind |}]> ∅) |};
    InodeData.new_file 0 fa] |}).
  assert (InodeTable.find t0 ROOT a = Ok None) as -> by reflexivity. cbn [mbind outcome_bind].
  assert (InodeTable.add t0 ROOT a (InodeData.new_file 0 fa) = Ok (2, t1)) as -> by reflexivity.
  cbn [mbind outcome_bind].
  assert (InodeTable.find t1 ROOT a = Ok (Some 2)) as ->.
  { change (InodeTable.find t1 ROOT a) with
      (Ok (E := ZipError)
         (dir_inode <$> <[a := {| dir_inode := 2; kind := FileKind |}]> (∅ : gmap _ _) !! a)).
    by rewrite lookup_insert_eq. }
  cbn [mbind outcome_bind]. rewrite andb_false_r. reflexivity.
Qed.

(** ** A small archive *)
Definition example_entry (path : list string) (file : bool) (bytes : list byte) : ZipFile :=
  {| enclosed_name := Some path; is_file := file; unix_mode := Some 0x1a4; zip_size := zlen bytes;
     contents := Ok bytes |}.

Definition example_archive : list ZipFile :=
  [example_entry ["dir"; "a"] true [Byte.x01; Byte.x02]; example_entry ["dir"] false [];
   example_entry ["b"] true [Byte.x03]].

Definition example_table : InodeTable :=
  match InodeTable.from_zip example_archive with Ok t => t | _ => {| table := [] |} end.

Lemma example_from_zip : InodeTable.from_zip example_archive = Ok example_table.
Proof. vm_compute. reflexivity. Qed.

Lemma zip_table_is_tree_witness :
  InodeTable.from_zip example_archive = Ok example_table ∧ table_wf example_table.
Proof.
  split; [exact example_from_zip|]. apply (zip_table_is_tree example_archive). exact example_from_zip.
Defined.

Lemma example_archive_ok : archive_ok example_archive.
Proof.
  split.
  - intros i Hi. simpl in Hi. destruct i as [|[|[|i]]]; [do 2 eexists..|lia];
      (split; [done|]; split; [done|]; repeat constructor; done).
  - intros i j f g p q. unfold by_index, ZipFile_list.
    destruct i as [|[|[|i]]], j as [|[|[|j]]]; simpl; try done;
      intros [= <-] [= <-]; simpl; try done; intros _ [= <-] [=]; done.
  - intros i j f g p. unfold by_index, ZipFile_list.
    destruct i as [|[|[|i]]], j as [|[|[|j]]]; simpl; try done;
      intros [= <-] [= <-]; simpl; try done; intros [= <-] [=]; done.
Qed.

Lemma zip_sound_archive_served_witness :
  archive_ok example_archive ∧
  ∃ t, InodeTable.from_zip example_archive = Ok t ∧
    ∃ ino d j f, resolve t ROOT ["b"] = Some ino ∧ InodeTable.get t ino = Some d ∧
      data d = File j ∧ (j ≤ 2)%nat ∧ by_index example_archive j = Ok f ∧
      enclosed_name f = Some ["b"] ∧ size d = zip_size f ∧ mode d = default 0 (unix_mode f).
Proof.
  split; [exact example_archive_ok|].
  destruct (zip_sound_archive_served example_archive example_archive_ok) as (t & Ht & Hp).
  exists t. split; [exact Ht|].
  destruct (Hp 2%nat (example_entry ["b"] true [Byte.x03]) ["b"])
    as (ino & d & Hr & Hd & (j & f & H1 & H2 & H3 & H4 & _ & H5 & H6));
    [simpl; lia|reflexivity|reflexivity|]. exists ino, d, j, f. split_and!; assumption.
Defined.

Lemma zip_file_used_as_directory_panics_example :
  InodeTable.from_zip [example_entry ["a"] true []; example_entry ["a"; "b"] true []] = Panic.
Proof. by apply (zip_file_used_as_directory_panics "a" "b"). Defined.
