(* ===== verification/ZipFuse.v ===== *)
(** * The zip file system (zipfuse/src/main.rs)

    A read-only FUSE file system over the inode table of an archive.  The state
    is the [ZipFuse] struct; its two maps of open buffers change.  The order
    in which a [HashMap] is walked and the size of the fuse crate's
    [Dirent] are parameters. *)
From Stdlib Require Import Ascii.
From S2P Require Import Prelude RustInt Crypto Common Fsverity Fuse ZipInode.

(** ** Data *)

Record OpenFileBuf := { file_open_count : Z; file_buf : list byte }.
Record OpenDirBuf := { dir_open_count : Z; dir_buf : list (string * DirectoryEntry) }.

Record ZipFuse (A : Type) := {
  zip_archive : A;
  inode_table : InodeTable;
  open_files : gmap Z OpenFileBuf;
  open_dirs : gmap Z OpenDirBuf;
}.
Arguments zip_archive {A} _.
Arguments inode_table {A} _.
Arguments open_files {A} _.
Arguments open_dirs {A} _.

(** The part of [fuse::filesystem::DirEntry] that is filled in. *)
Inductive DirType := DT_DIR | DT_REG.
Record DirEntry := { ino : Z; offset : Z; type_ : DirType; name : string }.

Record DirIter := { inner : list (string * DirectoryEntry); iter_offset : Z; cur : Z }.

(** [HashMap::iter]: every entry once, in some order. *)
Class HashIter := {
  hash_iter : gmap string DirectoryEntry → list (string * DirectoryEntry);
  hash_iter_perm m : hash_iter m ≡ₚ map_to_list m;
}.
(** [size_of::<fuse::sys::Dirent>()] *)
Class DirentLayout := dirent_size : Z.

Definition ebadf : io_error := OsError EBADF.
Definition timeout_max : Z := duration (u64_limit - 1) (1000000000 - 1).

(** [+= 1] on a [u32] counter. *)
Definition u32_incr {E} (a : Z) : outcome E Z := if a + 1 <? u32_limit then Ok (a + 1) else Panic.
(** [checked_sub(1)] *)
Definition checked_pred (a : Z) : option Z := if 1 <=? a then Some (a - 1) else None.

Module ZipFuse.
Section impl.
Context {A : Type} `{!ZipArchive A, !HashIter, !DirentLayout}.
Implicit Types (self : ZipFuse A).

Definition new (z : A) : outcome ZipError (ZipFuse A) :=
  it ← InodeTable.from_zip z;
  Ok {| zip_archive := z; inode_table := it; open_files := ∅; open_dirs := ∅ |}.

Definition find_inode self (inode : Z) : outcome io_error InodeData :=
  ok_or (InodeTable.get (inode_table self) inode) ebadf.

Definition stat_from self (inode : Z) : outcome io_error stat64 :=
  inode_data ← find_inode self inode;
  nlink ← match InodeData.get_directory inode_data with
          | Some directory => u64_add 2 (Z.of_nat (base.size directory))
          | None => Ok 1
          end;
  let mode := Z.lor (if InodeData.is_dir inode_data then S_IFDIR else S_IFREG) (mode inode_data) in
  Ok {| st_dev := 0; st_nlink := nlink; st_ino := inode; st_mode := mode; st_uid := 0; st_gid := 0;
        st_size := (if size inode_data <=? i64_max then size inode_data else i64_max);
        st_rdev := 0; st_blksize := 0; st_blocks := 0 |}.

Definition lookup self (parent : Z) (name : string) : outcome io_error Entry :=
  inode ← find_inode self parent;
  directory ← ok_or (InodeData.get_directory inode) ebadf;
  match directory !! name with
  | Some e =>
      attr ← stat_from self (dir_inode e);
      Ok {| entry_inode := dir_inode e; generation := 0; attr := attr;
            attr_timeout := timeout_max; entry_timeout := timeout_max |}
  | None => Err (OsError ENOENT)
  end.

Definition getattr self (inode : Z) : outcome io_error (stat64 * Z) :=
  st ← stat_from self inode;
  Ok (st, timeout_max).

Definition set_open_files (files : gmap Z OpenFileBuf) self : ZipFuse A :=
  {| zip_archive := zip_archive self; inode_table := inode_table self; open_files := files;
     open_dirs := open_dirs self |}.
Definition set_open_dirs (dirs : gmap Z OpenDirBuf) self : ZipFuse A :=
  {| zip_archive := zip_archive self; inode_table := inode_table self;
     open_files := open_files self; open_dirs := dirs |}.

Definition open (inode : Z) : M (ZipFuse A) io_error (option Z * OpenOptions) :=
  self ← get_state;
  let handle := inode in
  (match open_files self !! handle with
   | Some ofb =>
       if file_open_count ofb =? 0 then throw ebadf
       else
         n ← lift (u32_incr (file_open_count ofb));
         put_state (set_open_files
           (<[handle := {| file_open_count := n; file_buf := file_buf ofb |}]> (open_files self)) self)
   | None =>
       inode_data ← lift (find_inode self inode);
       zip_index ← lift (ok_or (InodeData.get_zip_index inode_data) ebadf);
       zip_file ← lift (map_err io_from_zip (by_index (zip_archive self) zip_index));
       (* [Vec::with_capacity(inode_data.size as usize)] panics on a capacity overflow *)
       lift (rassert (size inode_data <=? i64_max));;
       buf ← lift (contents zip_file);
       put_state (set_open_files
         (<[handle := {| file_open_count := 1; file_buf := buf |}]> (open_files self)) self)
   end);;
  mret (Some handle, OPEN_EMPTY).

Definition release (inode : Z) : M (ZipFuse A) io_error unit :=
  self ← get_state;
  let handle := inode in
  match open_files self !! handle with
  | Some ofb =>
      n ← lift (ok_or (checked_pred (file_open_count ofb)) ebadf);
      if n =? 0 then put_state (set_open_files (delete handle (open_files self)) self)
      else mret tt
  | None => throw ebadf
  end.

(** The bytes are handed to the writer [w]; the buffers are only read. *)
Definition read {O} `{!Write O} self (handle size offset : Z) : M O io_error Z :=
  ofb ← lift (ok_or (open_files self !! handle) ebadf);
  if file_open_count ofb =? 0 then throw ebadf
  else
    let start := offset in
    fin ← lift (u64_add start size);
    let fin := Z.min fin (zlen (file_buf ofb)) in
    bytes ← lift (slice (file_buf ofb) start fin);
    write bytes.

Definition opendir (inode : Z) : M (ZipFuse A) io_error (option Z * OpenOptions) :=
  self ← get_state;
  let handle := inode in
  (match open_dirs self !! handle with
   | Some odb =>
       if dir_open_count odb =? 0 then throw ebadf
       else
         n ← lift (u32_incr (dir_open_count odb));
         put_state (set_open_dirs
           (<[handle := {| dir_open_count := n; dir_buf := dir_buf odb |}]> (open_dirs self)) self)
   | None =>
       inode_data ← lift (find_inode self inode);
       directory ← lift (ok_or (InodeData.get_directory inode_data) ebadf);
       (* the names are copied; a [CString] holds no NUL byte, so [CString::new] succeeds *)
       put_state (set_open_dirs
         (<[handle := {| dir_open_count := 1; dir_buf := hash_iter directory |}]> (open_dirs self)) self)
   end);;
  mret (Some handle, CACHE_DIR).

Definition releasedir (inode : Z) : M (ZipFuse A) io_error unit :=
  self ← get_state;
  let handle := inode in
  match open_dirs self !! handle with
  | Some odb =>
      n ← lift (ok_or (checked_pred (dir_open_count odb)) ebadf);
      if n =? 0 then put_state (set_open_dirs (delete handle (open_dirs self)) self)
      else mret tt
  | None => throw ebadf
  end.

(** The space an entry is estimated to take, rounded to 8 bytes. *)
Definition entry_size (name : string) : outcome io_error Z :=
  s ← u64_add dirent_size (Z.of_nat (String.length name));
  s ← u64_add s 7;
  Ok (Z.land s (Z.lnot 7)).

(** The [while] loop: the index after the last entry that is returned.  Every
    round moves [fin] to the next entry, so [length buf] rounds are enough. *)
Fixpoint readdir_end (fuel : nat) (buf : list (string * DirectoryEntry)) (size estimate fin : Z)
    : outcome io_error Z :=
  match fuel with
  | O => OutOfFuel
  | S fuel =>
      if (estimate <? size) && (fin <? zlen buf)
      then
        '(name, _) ← unwrap (vec_get buf fin);
        s ← entry_size name;
        estimate ← u64_add estimate s;
        readdir_end fuel buf size estimate (fin + 1)
      else Ok fin
  end.

Definition readdir self (inode size offset : Z) : outcome io_error DirIter :=
  let handle := inode in
  odb ← ok_or (open_dirs self !! handle) ebadf;
  if dir_open_count odb =? 0 then Err ebadf
  else
    let buf := dir_buf odb in
    let start := offset in
    fin ← readdir_end (S (length buf)) buf size 0 start;
    new_buf ← slice buf start fin;
    Ok {| inner := new_buf; iter_offset := offset; cur := 0 |}.
End impl.
End ZipFuse.

Module DirIter.
Definition next (self : DirIter) : outcome io_error (option DirEntry * DirIter) :=
  if zlen (inner self) <=? cur self then Ok (None, self)
  else
    '(name, entry) ← unwrap (vec_get (inner self) (cur self));
    let self := {| inner := inner self; iter_offset := iter_offset self; cur := cur self + 1 |} in
    offset ← u64_add (iter_offset self) (cur self);
    Ok (Some {| ino := dir_inode entry; offset := offset;
                type_ := match kind entry with DirectoryKind => DT_DIR | FileKind => DT_REG end;
                name := name |}, self).
End DirIter.

(** ** Steps and reachable states *)
Section reachability.
Context {A : Type} `{!ZipArchive A, !HashIter, !DirentLayout}.
Implicit Types (s : ZipFuse A).

(** One request that may change the state, whatever it answers. *)
Inductive step : ZipFuse A → ZipFuse A → Prop :=
| step_open inode s r s' : ZipFuse.open inode s = (r, s') → step s s'
| step_release inode s r s' : ZipFuse.release inode s = (r, s') → step s s'
| step_opendir inode s r s' : ZipFuse.opendir inode s = (r, s') → step s s'
| step_releasedir inode s r s' : ZipFuse.releasedir inode s = (r, s') → step s s'.

Definition reachable (z : A) s : Prop := ∃ s0, ZipFuse.new z = Ok s0 ∧ rtc step s0 s.

(** What an open handle holds. *)
Definition file_handle_ok s (h : Z) (ofb : OpenFileBuf) : Prop :=
  1 ≤ file_open_count ofb ∧
  ∃ d i f, InodeTable.get (inode_table s) h = Some d ∧ InodeData.get_zip_index d = Some i ∧
    by_index (zip_archive s) i = Ok f ∧ contents f = Ok (file_buf ofb).
Definition dir_handle_ok s (h : Z) (odb : OpenDirBuf) : Prop :=
  1 ≤ dir_open_count odb ∧
  ∃ d dir, InodeTable.get (inode_table s) h = Some d ∧ InodeData.get_directory d = Some dir ∧
    dir_buf odb = hash_iter dir.

Record zf_inv (z : A) s : Prop := {
  inv_archive : zip_archive s = z;
  inv_table : InodeTable.from_zip z = Ok (inode_table s);
  inv_files : map_Forall (file_handle_ok s) (open_files s);
  inv_dirs : map_Forall (dir_handle_ok s) (open_dirs s);
}.

(** The state after a change of one of the maps. *)
Lemma inv_set_files z s files :
  zf_inv z s → map_Forall (file_handle_ok s) files → zf_inv z (ZipFuse.set_open_files files s).
Proof. by intros [Ha Ht Hf Hd] Hf'. Qed.
Lemma inv_set_dirs z s dirs :
  zf_inv z s → map_Forall (dir_handle_ok s) dirs → zf_inv z (ZipFuse.set_open_dirs dirs s).
Proof. by intros [Ha Ht Hf Hd] Hd'. Qed.

(** A step leaves the state or applies one of those changes. *)
Lemma open_inv z inode s r s' : zf_inv z s → ZipFuse.open inode s = (r, s') → zf_inv z s'.
Proof.
  intros Hi. pose proof (inv_files _ _ Hi) as Hf. unfold ZipFuse.open.
  unfold mbind, M_bind, get_state, mret, M_ret, lift, throw, put_state. cbn.
  destruct (open_files s !! inode) as [ofb|] eqn:Ho.
  - destruct (Hf _ _ Ho) as [Hc Hh]. destruct (Z.eqb_spec (file_open_count ofb) 0); [by intros [= <- <-]|].
    unfold u32_incr. destruct (_ <? u32_limit); intros [= <- <-]; [|done].
    apply inv_set_files; [done|]. apply map_Forall_insert_2; [|done]. split; [simpl; lia|done].
  - destruct (ZipFuse.find_inode s inode) as [d|e| |] eqn:Hd; try by intros [= <- <-].
    destruct (InodeData.get_zip_index d) as [i|] eqn:Hz; cbn; [|by intros [= <- <-]].
    destruct (by_index (zip_archive s) i) as [f|e| |] eqn:Hb; cbn; try by intros [= <- <-].
    unfold rassert. destruct (size d <=? i64_max); [|by intros [= <- <-]].
    destruct (contents f) as [bytes|e| |] eqn:Hc; intros [= <- <-]; try done.
    apply inv_set_files; [done|]. apply map_Forall_insert_2; [|done]. split; [done|].
    exists d, i, f. split_and!; try done. revert Hd. unfold ZipFuse.find_inode.
    destruct (InodeTable.get _ _); [|done]. by intros [= ->].
Qed.

Lemma release_inv z inode s r s' : zf_inv z s → ZipFuse.release inode s = (r, s') → zf_inv z s'.
Proof.
  intros Hi. pose proof (inv_files _ _ Hi) as Hf. unfold ZipFuse.release.
  unfold mbind, M_bind, get_state, mret, M_ret, lift, throw, put_state. cbn.
  destruct (open_files s !! inode) as [ofb|]; [|by intros [= <- <-]].
  destruct (checked_pred _) as [n|]; cbn; [|by intros [= <- <-]].
  destruct (n =? 0); intros [= <- <-]; [|done].
  apply inv_set_files; [done|]. by apply map_Forall_delete.
Qed.

Lemma opendir_inv z inode s r s' : zf_inv z s → ZipFuse.opendir inode s = (r, s') → zf_inv z s'.
Proof.
  intros Hi. pose proof (inv_dirs _ _ Hi) as Hf. unfold ZipFuse.opendir.
  unfold mbind, M_bind, get_state, mret, M_ret, lift, throw, put_state. cbn.
  destruct (open_dirs s !! inode) as [odb|] eqn:Ho.
  - destruct (Hf _ _ Ho) as [Hc Hh]. destruct (Z.eqb_spec (dir_open_count odb) 0); [by intros [= <- <-]|].
    unfold u32_incr. destruct (_ <? u32_limit); intros [= <- <-]; [|done].
    apply inv_set_dirs; [done|]. apply map_Forall_insert_2; [|done]. split; [simpl; lia|done].
  - unfold ZipFuse.find_inode. destruct (InodeTable.get _ inode) as [d|] eqn:Hd; cbn; [|by intros [= <- <-]].
    destruct (InodeData.get_directory d) as [dir|] eqn:Hz; cbn; intros [= <- <-]; [|done].
    apply inv_set_dirs; [done|]. apply map_Forall_insert_2; [|done]. split; [done|].
    by exists d, dir.
Qed.

Lemma releasedir_inv z inode s r s' : zf_inv z s → ZipFuse.releasedir inode s = (r, s') → zf_inv z s'.
Proof.
  intros Hi. pose proof (inv_dirs _ _ Hi) as Hf. unfold ZipFuse.releasedir.
  unfold mbind, M_bind, get_state, mret, M_ret, lift, throw, put_state. cbn.
  destruct (open_dirs s !! inode) as [odb|]; [|by intros [= <- <-]].
  destruct (checked_pred _) as [n|]; cbn; [|by intros [= <- <-]].
  destruct (n =? 0); intros [= <- <-]; [|done].
  apply inv_set_dirs; [done|]. by apply map_Forall_delete.
Qed.

Lemma step_inv z s s' : zf_inv z s → step s s' → zf_inv z s'.
Proof.
  intros Hi Hs. destruct Hs;
    [by eapply open_inv|by eapply release_inv|by eapply opendir_inv|by eapply releasedir_inv].
Qed.

Lemma reachable_inv z s : reachable z s → zf_inv z s.
Proof.
  intros (s0 & Hnew & Hsteps). apply bind_Ok_inv in Hnew as (t & Ht & [= <-]).
  assert (zf_inv z {| zip_archive := z; inode_table := t; open_files := ∅; open_dirs := ∅ |}) as Hi
    by (split; simpl; [done|done|apply map_Forall_empty..]).
  revert Hi. induction Hsteps as [|s1 s2 s3 H12 _ IH]; [done|]. intros Hi. apply IH. by eapply step_inv.
Qed.
End reachability.

(** ** Walking a path *)
Section walking.
Context {A : Type} `{!ZipArchive A, !HashIter, !DirentLayout}.
Implicit Types (s : ZipFuse A).

(** The kernel's walk: one [lookup] for every component. *)
Fixpoint walk s (p : Z) (path : list string) : outcome io_error Z :=
  match path with
  | [] => Ok p
  | name :: path => e ← ZipFuse.lookup s p name; walk s (entry_inode e) path
  end.

Lemma lookup_link s p name e :
  ZipFuse.lookup s p name = Ok e →
  ∃ de, link (inode_table s) p name = Some de ∧ dir_inode de = entry_inode e.
Proof.
  unfold ZipFuse.lookup, ZipFuse.find_inode, link. destruct (InodeTable.get _ p) as [d|]; [|done]. cbn.
  destruct (InodeData.get_directory d) as [dir|]; [|done]. cbn.
  destruct (dir !! name) as [de|]; [|done]. intros Hst. apply bind_Ok_inv in Hst as (st & _ & [= <-]).
  by exists de.
Qed.

Lemma walk_resolve s p path ino : walk s p path = Ok ino → resolve (inode_table s) p path = Some ino.
Proof.
  revert p. induction path as [|name path IH]; intros p; simpl; [by intros [= ->]|].
  intros Hw. apply bind_Ok_inv in Hw as (e & He & Hw). apply lookup_link in He as (de & -> & He).
  simpl. rewrite He. by apply IH.
Qed.

(** A directory has no more entries than the table has inodes. *)
Lemma directory_size t p d dir :
  table_wf t → InodeTable.get t p = Some d → InodeData.get_directory d = Some dir →
  (base.size dir ≤ length (table t))%nat.
Proof.
  intros Hw Hp Hd.
  assert (∀ n e, dir !! n = Some e → link t p n = Some e) as Hl.
  { intros n e He. unfold link. rewrite Hp. simpl. rewrite Hd. done. }
  rewrite <- length_map_to_list.
  rewrite <- (length_fmap (λ ne, Z.to_nat (dir_inode ne.2)) (map_to_list dir)).
  rewrite <- (length_seq (length (table t)) 0).
  apply submseteq_length, NoDup_submseteq.
  - apply NoDup_fmap_2_strong; [|apply NoDup_map_to_list].
    intros [n1 e1] [n2 e2] H1%elem_of_map_to_list H2%elem_of_map_to_list Heq. simpl in Heq.
    pose proof (Hl _ _ H1) as L1. pose proof (Hl _ _ H2) as L2.
    destruct (wf_entry _ Hw _ _ _ L1) as (_ & R1 & _). destruct (wf_entry _ Hw _ _ _ L2) as (_ & R2 & _).
    unfold ROOT in *. destruct (wf_unique _ Hw _ _ _ _ _ _ L1 L2) as [_ ->]; [lia|]. congruence.
  - intros k ([n e] & -> & He%elem_of_map_to_list)%list_elem_of_fmap.
    destruct (wf_entry _ Hw _ _ _ (Hl _ _ He)) as (_ & R & d' & Hd' & _).
    apply get_Some_range in Hd'. apply elem_of_seq. simpl. lia.
Qed.

Lemma stat_from_ok s inode d :
  table_wf (inode_table s) → zlen (table (inode_table s)) + 2 < u64_limit →
  InodeTable.get (inode_table s) inode = Some d →
  ∃ st, ZipFuse.stat_from s inode = Ok st ∧ st_ino st = inode ∧
    st_size st = Z.min (size d) i64_max ∧
    st_mode st = Z.lor (if InodeData.is_dir d then S_IFDIR else S_IFREG) (mode d).
Proof.
  intros Hw Hlen Hd. unfold ZipFuse.stat_from, ZipFuse.find_inode. rewrite Hd. cbn.
  assert (∃ n, match InodeData.get_directory d with
               | Some directory => u64_add (E := io_error) 2 (Z.of_nat (base.size directory))
               | None => Ok 1 end = Ok n) as [n ->].
  { destruct (InodeData.get_directory d) as [dir|] eqn:Hdir; [|by eexists].
    pose proof (directory_size _ _ _ _ Hw Hd Hdir). rewrite u64_add_Ok by lia. by eexists. }
  cbn. eexists. split; [done|]. simpl. split_and!; try done.
  destruct (Z.leb_spec (size d) i64_max); lia.
Qed.

Lemma resolve_walk s p path ino :
  table_wf (inode_table s) → zlen (table (inode_table s)) + 2 < u64_limit →
  resolve (inode_table s) p path = Some ino → walk s p path = Ok ino.
Proof.
  intros Hw Hlen. revert p. induction path as [|name path IH]; intros p; simpl; [by intros [= ->]|].
  destruct (link (inode_table s) p name) as [de|] eqn:Hl; [|done]. simpl. intros Hr.
  destruct (wf_entry _ Hw _ _ _ Hl) as (_ & _ & d & Hd & _).
  destruct (stat_from_ok s (dir_inode de) d) as (st & Hst & _); [done..|].
  revert Hl. unfold link, ZipFuse.lookup, ZipFuse.find_inode.
  destruct (InodeTable.get (inode_table s) p) as [dp|]; [|done]. cbn.
  destruct (InodeData.get_directory dp) as [dir|]; [|done]. cbn. intros ->. rewrite Hst. cbn.
  by apply IH.
Qed.
End walking.

(** ** Listing a directory *)
Section listing.
Context {A : Type} `{!ZipArchive A, !HashIter, !DirentLayout}.
Implicit Types (s : ZipFuse A) (buf : list (string * DirectoryEntry)).

(** The entries an iterator that starts at [off] yields for [buf]. *)
Definition entries_from (off : Z) buf : list DirEntry :=
  imap (λ k ne, {| ino := dir_inode ne.2; offset := off + Z.of_nat k + 1;
                   type_ := match kind ne.2 with DirectoryKind => DT_DIR | FileKind => DT_REG end;
                   name := ne.1 |}) buf.

(** [next] until it answers [None]. *)
Fixpoint drain (fuel : nat) (it : DirIter) : outcome io_error (list DirEntry) :=
  match fuel with
  | O => OutOfFuel
  | S fuel =>
      '(e, it) ← DirIter.next it;
      match e with
      | Some e => es ← drain fuel it; Ok (e :: es)
      | None => Ok []
      end
  end.

(** The kernel's loop: it takes at least one of the entries it is given, as
    many as it likes, and goes on at the offset of the last one it took. *)
Fixpoint list_dir (fuel : nat) (accept : Z → nat) s (inode size off : Z)
    : outcome io_error (list DirEntry) :=
  match fuel with
  | O => OutOfFuel
  | S fuel =>
      it ← ZipFuse.readdir s inode size off;
      es ← drain (S (length (inner it))) it;
      match es with
      | [] => Ok []
      | _ =>
          let es := take (S (accept off)) es in
          rest ← list_dir fuel accept s inode size (off + zlen es);
          Ok (es ++ rest)
      end
  end.

Lemma entries_from_cons off ne buf :
  entries_from off (ne :: buf) =
    {| ino := dir_inode ne.2; offset := off + 1;
       type_ := match kind ne.2 with DirectoryKind => DT_DIR | FileKind => DT_REG end;
       name := ne.1 |} :: entries_from (off + 1) buf.
Proof.
  unfold entries_from. rewrite imap_cons. f_equal; [f_equal; lia|].
  apply imap_ext. intros k x _. simpl. f_equal. lia.
Qed.

Lemma entries_from_length off buf : length (entries_from off buf) = length buf.
Proof. apply length_imap. Qed.

Lemma entries_from_take off n buf : take n (entries_from off buf) = entries_from off (take n buf).
Proof.
  revert n off. induction buf as [|ne buf IH]; intros [|n] off; try done.
  rewrite firstn_cons, !entries_from_cons. cbn [take]. by rewrite IH.
Qed.

Lemma entries_from_app off buf1 buf2 :
  entries_from off (buf1 ++ buf2) = entries_from off buf1 ++ entries_from (off + zlen buf1) buf2.
Proof.
  revert off. induction buf1 as [|ne buf1 IH]; intros off; [simpl; f_equal; lia|].
  cbn [app]. rewrite !entries_from_cons, IH. cbn [app length]. do 3 f_equal. lia.
Qed.

Lemma drain_spec fuel l off k :
  (k ≤ length l)%nat → (length l - k < fuel)%nat → off + zlen l < u64_limit →
  drain fuel {| inner := l; iter_offset := off; cur := Z.of_nat k |} =
    Ok (entries_from (off + Z.of_nat k) (drop k l)).
Proof.
  revert k. induction fuel as [|fuel IH]; intros k Hk Hf Hoff; [lia|].
  cbn [drain]. unfold DirIter.next. cbn [inner cur iter_offset].
  destruct (Z.leb_spec (zlen l) (Z.of_nat k)).
  { rewrite drop_ge by lia. done. }
  unfold vec_get. rewrite (proj2 (Z.leb_le _ _)), Nat2Z.id by lia.
  destruct (lookup_lt_is_Some_2 l k) as [[n e] Hne]; [lia|]. rewrite Hne. cbn [unwrap mbind outcome_bind].
  rewrite u64_add_Ok by lia. cbn [mbind outcome_bind].
  replace (Z.of_nat k + 1) with (Z.of_nat (S k)) by lia. rewrite IH by lia. cbn [mbind outcome_bind].
  rewrite (drop_S l (n, e) k Hne). rewrite entries_from_cons. simpl fst. simpl snd. f_equal. f_equal.
  - f_equal. lia.
  - f_equal. lia.
Qed.

(** Names and the layout are small: nothing overflows. *)
Definition names_bounded buf : Prop := Forall (λ ne, Z.of_nat (String.length ne.1) < 2 ^ 32) buf.

Lemma entry_size_spec n :
  0 ≤ dirent_size < 2 ^ 32 → Z.of_nat (String.length n) < 2 ^ 32 →
  ∃ k, ZipFuse.entry_size n = Ok k ∧ 0 ≤ k < 2 ^ 34.
Proof.
  intros Hd Hn. unfold ZipFuse.entry_size, u64_limit in *.
  rewrite u64_add_Ok by (unfold u64_limit; lia). cbn [mbind outcome_bind].
  rewrite u64_add_Ok by (unfold u64_limit; lia). cbn [mbind outcome_bind].
  eexists. split; [done|]. set (x := dirent_size + _ + 7).
  assert (Z.land x (Z.lnot 7) = x / 2 ^ 3 * 2 ^ 3) as ->.
  { rewrite <- Z.ldiff_land. change 7 with (Z.ones 3). rewrite Z.ldiff_ones_r by lia.
    rewrite Z.shiftl_mul_pow2, Z.shiftr_div_pow2 by lia. done. }
  subst x. change (2 ^ 3) with 8. split; divlia.
Qed.

Lemma readdir_end_spec fuel buf size est fin :
  0 ≤ dirent_size < 2 ^ 32 → names_bounded buf → 0 ≤ size < u32_limit → 0 ≤ est →
  0 ≤ fin ≤ zlen buf → zlen buf - fin < Z.of_nat fuel →
  ∃ fin', ZipFuse.readdir_end fuel buf size est fin = Ok fin' ∧ fin ≤ fin' ≤ zlen buf ∧
    (est < size → fin < zlen buf → fin < fin').
Proof.
  intros Hd Hn Hs. revert est fin. induction fuel as [|fuel IH]; intros est fin He Hfin Hf; [lia|].
  cbn [ZipFuse.readdir_end]. destruct (Z.ltb_spec est size), (Z.ltb_spec fin (zlen buf)); cbn [andb];
    try (exists fin; split; [done|]; lia).
  unfold vec_get. rewrite (proj2 (Z.leb_le _ _)) by lia.
  destruct (lookup_lt_is_Some_2 buf (Z.to_nat fin)) as [[n e] Hne]; [lia|].
  rewrite Hne. cbn [unwrap mbind outcome_bind].
  pose proof (Forall_lookup_1 _ _ _ _ Hn Hne) as Hlen. simpl in Hlen.
  destruct (entry_size_spec n) as (k & -> & Hk); [done..|]. cbn [mbind outcome_bind].
  unfold u32_limit in Hs. rewrite u64_add_Ok by (unfold u64_limit; lia). cbn [mbind outcome_bind].
  destruct (IH (est + k) (fin + 1)) as (fin' & -> & Hr & _); [lia..|]. exists fin'. split; [done|]. lia.
Qed.

Lemma readdir_spec s inode size off odb :
  0 ≤ dirent_size < 2 ^ 32 → names_bounded (dir_buf odb) → 0 < size < u32_limit →
  open_dirs s !! inode = Some odb → dir_open_count odb ≠ 0 → (off ≤ length (dir_buf odb))%nat →
  ∃ n, ZipFuse.readdir s inode size (Z.of_nat off) =
      Ok {| inner := take n (drop off (dir_buf odb)); iter_offset := Z.of_nat off; cur := 0 |} ∧
    (off + n ≤ length (dir_buf odb))%nat ∧ (off < length (dir_buf odb) → 0 < n)%nat.
Proof.
  intros Hd Hn Hs Hodb Hc Hoff. unfold ZipFuse.readdir. rewrite Hodb. cbn [ok_or mbind outcome_bind].
  rewrite (proj2 (Z.eqb_neq _ _)) by done.
  destruct (readdir_end_spec (S (length (dir_buf odb))) (dir_buf odb) size 0 (Z.of_nat off))
    as (fin & -> & Hfin & Hpos); [done|done|lia|lia|lia|lia|].
  cbn [mbind outcome_bind]. unfold slice. rewrite !(proj2 (Z.leb_le _ _)) by lia.
  cbn [andb mbind outcome_bind]. exists (Z.to_nat (fin - Z.of_nat off)). rewrite Nat2Z.id.
  split; [done|]. lia.
Qed.

Lemma list_dir_spec fuel accept s inode size off odb :
  0 ≤ dirent_size < 2 ^ 32 → names_bounded (dir_buf odb) → 0 < size < u32_limit →
  open_dirs s !! inode = Some odb → dir_open_count odb ≠ 0 → (off ≤ length (dir_buf odb))%nat →
  zlen (dir_buf odb) < u64_limit → (length (dir_buf odb) - off < fuel)%nat →
  list_dir fuel accept s inode size (Z.of_nat off) =
    Ok (entries_from (Z.of_nat off) (drop off (dir_buf odb))).
Proof.
  intros Hd Hn Hs Hodb Hc Hoff Hlen Hf. revert off Hoff Hf.
  induction fuel as [|fuel IH]; intros off Hoff Hf; [lia|]. cbn [list_dir].
  destruct (readdir_spec s inode size off odb) as (n & -> & Hb & Hpos); [done..|].
  cbn [mbind outcome_bind inner]. set (l := take n (drop off (dir_buf odb))).
  assert (length l = n) as Hl by (subst l; rewrite length_take, length_drop; lia).
  change 0 with (Z.of_nat 0) at 1. rewrite (drain_spec (S (length l)) l (Z.of_nat off) 0) by lia.
  rewrite drop_0, Z.add_0_r. cbn [mbind outcome_bind].
  destruct (decide (off = length (dir_buf odb))) as [Heq|Hne].
  { assert (l = []) as -> by (apply length_zero_iff_nil; lia). rewrite drop_ge by lia. done. }
  destruct (entries_from (Z.of_nat off) l) as [|e0 es0] eqn:Hes.
  { apply (f_equal length) in Hes. rewrite entries_from_length in Hes. simpl in Hes. lia. }
  rewrite <- Hes. cbv zeta. rewrite entries_from_take, entries_from_length.
  set (m := Nat.min (S (accept (Z.of_nat off))) n).
  assert (take (S (accept (Z.of_nat off))) l = take m (drop off (dir_buf odb))) as ->.
  { subst l m. rewrite take_take. f_equal. }
  rewrite length_take, length_drop.
  replace (Z.of_nat off + Z.of_nat (m `min` (length (dir_buf odb) - off)))
    with (Z.of_nat (off + m)) by lia.
  rewrite IH by lia. cbn [mbind outcome_bind]. f_equal.
  assert (drop off (dir_buf odb) = take m (drop off (dir_buf odb)) ++ drop (off + m) (dir_buf odb)) as Hsplit
    by by rewrite <- drop_drop, take_drop.
  rewrite Hsplit at 2. rewrite entries_from_app. do 2 f_equal.
  rewrite length_take, length_drop. lia.
Qed.
End listing.

(** ** Claims *)
Section claims.
Context {A : Type} `{!ZipArchive A, !HashIter, !DirentLayout} (z : A).
Implicit Types (s : ZipFuse A).

(** A buffer that is held at least twice. *)
Definition file_shared (h : Z) (buf : list byte) s : Prop :=
  ∃ b, open_files s !! h = Some b ∧ 2 ≤ file_open_count b ∧ file_buf b = buf.
Definition dir_shared (h : Z) (buf : list (string * DirectoryEntry)) s : Prop :=
  ∃ b, open_dirs s !! h = Some b ∧ 2 ≤ dir_open_count b ∧ dir_buf b = buf.

Ltac unfold_handlers :=
  unfold ZipFuse.open, ZipFuse.release, ZipFuse.opendir, ZipFuse.releasedir;
  unfold mbind, M_bind, get_state, mret, M_ret, lift, throw, put_state; cbn.

Lemma open_shares s h b r s' :
  open_files s !! h = Some b → 1 ≤ file_open_count b → ZipFuse.open h s = (Ok r, s') →
  file_shared h (file_buf b) s'.
Proof.
  intros Hb Hc. unfold_handlers. rewrite Hb.
  destruct (_ =? 0); [done|]. unfold u32_incr. destruct (_ <? u32_limit); [|done].
  intros [= <- <-]. eexists. simpl. rewrite lookup_insert_eq. split_and!; [done|simpl; lia|done].
Qed.
Lemma opendir_shares s h b r s' :
  open_dirs s !! h = Some b → 1 ≤ dir_open_count b → ZipFuse.opendir h s = (Ok r, s') →
  dir_shared h (dir_buf b) s'.
Proof.
  intros Hb Hc. unfold_handlers. rewrite Hb.
  destruct (_ =? 0); [done|]. unfold u32_incr. destruct (_ <? u32_limit); [|done].
  intros [= <- <-]. eexists. simpl. rewrite lookup_insert_eq. split_and!; [done|simpl; lia|done].
Qed.

Lemma release_shared s h buf : file_shared h buf s → ZipFuse.release h s = (Ok tt, s).
Proof.
  intros (b & Hb & Hc & _). unfold_handlers. rewrite Hb. unfold checked_pred.
  rewrite (proj2 (Z.leb_le _ _)) by lia. cbn. by rewrite (proj2 (Z.eqb_neq _ _)) by lia.
Qed.
Lemma releasedir_shared s h buf : dir_shared h buf s → ZipFuse.releasedir h s = (Ok tt, s).
Proof.
  intros (b & Hb & Hc & _). unfold_handlers. rewrite Hb. unfold checked_pred.
  rewrite (proj2 (Z.leb_le _ _)) by lia. cbn. by rewrite (proj2 (Z.eqb_neq _ _)) by lia.
Qed.

(** Handlers of other inodes, or of the other kind, do not touch a buffer. *)
Lemma handlers_frame s h j :
  (j ≠ h → open_files (ZipFuse.open j s).2 !! h = open_files s !! h ∧
           open_files (ZipFuse.release j s).2 !! h = open_files s !! h ∧
           open_dirs (ZipFuse.opendir j s).2 !! h = open_dirs s !! h ∧
           open_dirs (ZipFuse.releasedir j s).2 !! h = open_dirs s !! h) ∧
  open_dirs (ZipFuse.open j s).2 = open_dirs s ∧ open_dirs (ZipFuse.release j s).2 = open_dirs s ∧
  open_files (ZipFuse.opendir j s).2 = open_files s ∧
  open_files (ZipFuse.releasedir j s).2 = open_files s.
Proof.
  unfold_handlers.
  split_and!; [intros Hj; split_and!|..]; repeat (case_match; simplify_eq/=; try done);
    by rewrite ?lookup_insert_ne, ?lookup_delete_ne.
Qed.

Lemma step_shares s s' h :
  step s s' →
  (∀ buf, file_shared h buf s → file_shared h buf s') ∧
  (∀ buf, dir_shared h buf s → dir_shared h buf s').
Proof.
  intros Hs. destruct Hs as [j s r s' Hj|j s r s' Hj|j s r s' Hj|j s r s' Hj];
    destruct (handlers_frame s h j) as (Hne & Hd1 & Hd2 & Hf1 & Hf2);
    rewrite Hj in *; simpl in *; unfold file_shared, dir_shared in *;
    (split; intros buf; [try (by rewrite ?Hf1, ?Hf2)|try (by rewrite ?Hd1, ?Hd2)]);
    (destruct (decide (j = h)) as [->|Hjh]; [|destruct (Hne Hjh) as (E1 & E2 & E3 & E4);
       by rewrite ?E1, ?E2, ?E3, ?E4]); intros (b & Hb & Hc & <-).
  - destruct r as [r|e| |]; [apply (open_shares s h b r s' Hb); [lia|done]|..];
      revert Hj; unfold_handlers; rewrite Hb; repeat case_match; intros; simplify_eq; eauto.
  - rewrite (release_shared s h (file_buf b)) in Hj by by exists b. simplify_eq. by exists b.
  - destruct r as [r|e| |]; [apply (opendir_shares s h b r s' Hb); [lia|done]|..];
      revert Hj; unfold_handlers; rewrite Hb; repeat case_match; intros; simplify_eq; eauto.
  - rewrite (releasedir_shared s h (dir_buf b)) in Hj by by exists b. simplify_eq. by exists b.
Qed.

(** What a read of an open file gives, with 64-bit arithmetic. *)
Lemma read_open_file s h ofb size offset out :
  open_files s !! h = Some ofb → 1 ≤ file_open_count ofb → 0 ≤ offset → 0 ≤ size →
  let bytes := take (Z.to_nat size) (drop (Z.to_nat offset) (file_buf ofb)) in
  ZipFuse.read s h size offset out =
    if (offset + size <? u64_limit) && (offset <=? zlen (file_buf ofb))
    then (Ok (zlen bytes), out ++ bytes) else (Panic, out).
Proof.
  intros Hofb Hc Hoff Hsz. cbv zeta. unfold ZipFuse.read. rewrite Hofb. cbn [ok_or]. rewrite bind_lift_Ok.
  rewrite (proj2 (Z.eqb_neq _ _)) by lia. unfold u64_add.
  destruct (Z.ltb_spec (offset + size) u64_limit); [|done]. cbn [andb].
  rewrite bind_lift_Ok. unfold slice.
  destruct (Z.leb_spec offset (zlen (file_buf ofb))).
  - rewrite !(proj2 (Z.leb_le _ _)) by lia. cbn [andb]. rewrite bind_lift_Ok.
    unfold write, Vec_write. do 2 f_equal.
    + f_equal. rewrite !length_take, !length_drop. lia.
    + destruct (decide (offset + size ≤ zlen (file_buf ofb))).
      * do 2 f_equal. lia.
      * rewrite !(take_ge (drop _ _)); [done|rewrite length_drop; lia..].
  - rewrite (proj2 (Z.leb_gt offset _)) by lia. by rewrite andb_false_r.
Qed.

(** C16: Reads are the archive's data.  In every state the file system can reach, reading an open
    file that a path leads to delivers exactly the requested range of the decompressed contents of
    a file entry of the archive with that very path, cut at the end of the file; a read that starts
    beyond the end of the file panics. *)
Theorem zipfuse_read_content s path h ofb offset size (out : list byte) :
  reachable z s → walk s ROOT path = Ok h → open_files s !! h = Some ofb → 0 ≤ offset → 0 ≤ size →
  ∃ i f data, by_index z i = Ok f ∧ enclosed_name f = Some path ∧ is_file f = true ∧
    contents f = Ok data ∧
    let bytes := take (Z.to_nat size) (drop (Z.to_nat offset) data) in
    ZipFuse.read s h size offset out =
      if (offset + size <? u64_limit) && (offset <=? zlen data)
      then (Ok (zlen bytes), out ++ bytes) else (Panic, out).
Proof.
  intros Hreach Hwalk Hofb Hoff Hsz. pose proof (reachable_inv _ _ Hreach) as [<- Ht Hf _].
  destruct (Hf _ _ Hofb) as (Hc & d & i & f & Hd & Hi & Hby & Hcont).
  destruct (from_zip_spec _ _ Ht) as (Hw & Ho & _). apply walk_resolve in Hwalk.
  destruct (Ho _ _ _ Hd Hi) as (f' & path' & H1 & H2 & H3 & H4 & H5 & _).
  exists i, f', (file_buf ofb). split; [done|].
  split; [rewrite H2; f_equal; by eapply resolve_inj|]. split; [done|]. split; [congruence|].
  apply read_open_file; [done|lia..].
Qed.

(** C39: Releasing never frees a shared buffer.  Once a file that is open has been opened again,
    its buffer is in memory for good: in every state that any later sequence of requests leads
    to it is still held, and a [release] of it succeeds and changes nothing, however many there
    are, since the decremented count is never written back.  The same holds for directories. *)
Theorem zipfuse_release_leaks s h r s1 s' :
  reachable z s → rtc step s1 s' →
  (∀ b, open_files s !! h = Some b → ZipFuse.open h s = (Ok r, s1) →
     file_shared h (file_buf b) s' ∧ ZipFuse.release h s' = (Ok tt, s')) ∧
  (∀ b, open_dirs s !! h = Some b → ZipFuse.opendir h s = (Ok r, s1) →
     dir_shared h (dir_buf b) s' ∧ ZipFuse.releasedir h s' = (Ok tt, s')).
Proof.
  intros Hreach Hrun. pose proof (reachable_inv _ _ Hreach) as Hi.
  assert ((∀ buf, file_shared h buf s1 → file_shared h buf s') ∧
          (∀ buf, dir_shared h buf s1 → dir_shared h buf s')) as [Hf Hd].
  { clear -Hrun. induction Hrun as [|s1 s2 s3 H12 _ [IHf IHd]]; [done|].
    destruct (step_shares s1 s2 h H12) as [Hf Hd]. split; intros buf Hb; auto. }
  split; intros b Hb Ho.
  - destruct (inv_files _ _ Hi _ _ Hb) as [Hc _].
    pose proof (Hf _ (open_shares s h b r s1 Hb Hc Ho)) as Hs. split; [done|]. by eapply release_shared.
  - destruct (inv_dirs _ _ Hi _ _ Hb) as [Hc _].
    pose proof (Hd _ (opendir_shares s h b r s1 Hb Hc Ho)) as Hs. split; [done|]. by eapply releasedir_shared.
Qed.

(** C25: Listing a directory is complete.  However many entries the kernel takes from each answer,
    repeating [readdir] from the offset of the last entry taken ends after at most one call per
    entry and one more, and lists every entry of the directory exactly once, with its inode, type
    and offset. *)
Theorem zipfuse_listing_complete s h odb d dir accept size :
  reachable z s → open_dirs s !! h = Some odb →
  InodeTable.get (inode_table s) h = Some d → InodeData.get_directory d = Some dir →
  0 ≤ dirent_size < 2 ^ 32 → names_bounded (map_to_list dir) → Z.of_nat (base.size dir) < u64_limit →
  0 < size < u32_limit →
  ∃ buf, buf ≡ₚ map_to_list dir ∧
    list_dir (S (base.size dir)) accept s h size 0 = Ok (entries_from 0 buf).
Proof.
  intros Hreach Hodb Hd Hdir Hl Hn Hlen Hs. pose proof (reachable_inv _ _ Hreach) as [_ _ _ Hdirs].
  destruct (Hdirs _ _ Hodb) as (Hc & d' & dir' & Hd' & Hdir' & Hbuf).
  assert (dir' = dir) as -> by congruence. pose proof (hash_iter_perm dir) as Hp. rewrite <- Hbuf in Hp.
  assert (length (dir_buf odb) = base.size dir) as Hsize by by rewrite Hp, length_map_to_list.
  exists (dir_buf odb). split; [done|]. change 0 with (Z.of_nat 0) at 1.
  rewrite (list_dir_spec _ _ _ _ _ _ odb); rewrite ?Hsize; try done; try lia.
  unfold names_bounded. by rewrite Hp.
Qed.
End claims.

(** ** A small file system *)
#[local] Instance example_hash_iter : HashIter := {| hash_iter := map_to_list; hash_iter_perm _ := reflexivity _ |}.
#[local] Instance example_dirent : DirentLayout := 24.

Definition example_fs0 : ZipFuse (list ZipFile) :=
  {| zip_archive := example_archive; inode_table := example_table; open_files := ∅; open_dirs := ∅ |}.
(** ["dir/a"] is inode 3: opened once, then twice; the root is open too. *)
Definition example_fs1 : ZipFuse (list ZipFile) := (ZipFuse.open 3 example_fs0).2.
Definition example_fs2 : ZipFuse (list ZipFile) := (ZipFuse.open 3 example_fs1).2.
Definition example_fs3 : ZipFuse (list ZipFile) := (ZipFuse.opendir ROOT example_fs2).2.

Lemma example_fs0_reachable : reachable example_archive example_fs0.
Proof.
  exists example_fs0. split; [|done]. unfold ZipFuse.new. by rewrite example_from_zip.
Qed.

Lemma example_fs3_reachable : reachable example_archive example_fs3.
Proof.
  destruct example_fs0_reachable as (s0 & Hnew & Hs). exists s0. split; [done|].
  etrans; [exact Hs|]. apply (rtc_l _ _ example_fs1); [by eapply (step_open 3), surjective_pairing|].
  apply (rtc_l _ _ example_fs2); [by eapply (step_open 3), surjective_pairing|].
  apply rtc_once. by eapply (step_opendir ROOT), surjective_pairing.
Qed.

Lemma zipfuse_read_content_witness :
  ∃ i f data, by_index example_archive i = Ok f ∧ enclosed_name f = Some ["dir"; "a"] ∧
    is_file f = true ∧ contents f = Ok data ∧
    ZipFuse.read (O := list byte) example_fs3 3 10 1 [] =
      if (1 + 10 <? u64_limit) && (1 <=? zlen data)
      then (Ok (zlen (take 10 (drop 1 data))), take 10 (drop 1 data)) else (Panic, []).
Proof.
  apply (zipfuse_read_content example_archive example_fs3 ["dir"; "a"] 3
           {| file_open_count := 2; file_buf := [Byte.x01; Byte.x02] |} 1 10 []);
    [exact example_fs3_reachable|vm_compute; reflexivity..|lia|lia].
Defined.

Lemma zipfuse_release_leaks_witness :
  file_shared 3 [Byte.x01; Byte.x02] example_fs3 ∧ ZipFuse.release 3 example_fs3 = (Ok tt, example_fs3).
Proof.
  destruct (zipfuse_release_leaks example_archive example_fs1 3 (Some 3, OPEN_EMPTY) example_fs2 example_fs3)
    as [Hfile _].
  - destruct example_fs0_reachable as (s0 & Hnew & Hs). exists s0. split; [exact Hnew|].
    etrans; [exact Hs|]. apply rtc_once. by eapply (step_open 3), surjective_pairing.
  - apply rtc_once. by eapply (step_opendir ROOT), surjective_pairing.
  - apply (Hfile {| file_open_count := 1; file_buf := [Byte.x01; Byte.x02] |}); vm_compute; reflexivity.
Defined.

Definition example_root : gmap string DirectoryEntry :=
  default ∅ (InodeTable.get example_table ROOT ≫= InodeData.get_directory).

Lemma zipfuse_listing_complete_witness :
  ∃ buf, buf ≡ₚ map_to_list example_root ∧
    list_dir (S (base.size example_root)) (λ _, 0%nat) example_fs3 ROOT 4096 0 = Ok (entries_from 0 buf).
Proof.
  apply (zipfuse_listing_complete example_archive example_fs3 ROOT
           {| dir_open_count := 1; dir_buf := map_to_list example_root |}
           {| mode := 0; size := 0; data := Directory example_root |} example_root).
  - exact example_fs3_reachable.
  - vm_compute. reflexivity.
  - vm_compute. reflexivity.
  - reflexivity.
  - vm_compute. split; [discriminate|reflexivity].
  - apply (bool_decide_unpack _). vm_compute. exact I.
  - vm_compute. reflexivity.
  - vm_compute. split; reflexivity.
Defined.
