(* ===== verification/ZipMain.v ===== *)
(** * The zipfuse program (zipfuse/src/main.rs)

    The command line, the mount and the start of the message loop, and what
    an application that reads through the mount is given. *)
From S2P Require Import Prelude RustInt Clap Crypto Common Fsverity Fuse ZipInode ZipFuse.

(** Opening the archive by its path: the file, then [zip::ZipArchive::new]. *)
Class ZipReader (W A : Type) := {
  open_zip_file : string → M W io_error Z;
  ZipArchive_new : Z → M W ZipError A;
}.

Inductive ZipMainError (FuseError : Type) :=
| BadUsage
| IoFailed (e : io_error)
| ZipFailed (e : ZipError)
| LoopFailed (e : FuseError).
Arguments BadUsage {_}.
Arguments IoFailed {_} _.
Arguments ZipFailed {_} _.
Arguments LoopFailed {_} _.

Definition MAX_READ : Z := Z.shiftl 1 20.
Definition MAX_WRITE : Z := Z.shiftl 1 13.

(** [init] asks for nothing beyond the defaults of the fuse crate. *)
Definition init {A} (self : ZipFuse A) : outcome io_error FsOptions := Ok [].

Section program.
Context {clap : Clap} {W A T FuseError : Type}.
Context `{!ZipArchive A, !ZipReader W A, !FuseHost T (ZipFuse A) FuseError}.

(** The FUSE host has a state of its own beside that of the files. *)
Definition on_files {E B} : M W E B → M (W * T) E B := zoom fst (λ w s, (w, s.2)).
Definition on_host {E B} : M T E B → M (W * T) E B := zoom snd (λ t s, (s.1, t)).

(** [ZipFuse::new] from the path of the archive. *)
Definition ZipFuse_new (zip_file : string) : M W (ZipMainError FuseError) (ZipFuse A) :=
  f ← m_map_err IoFailed (open_zip_file zip_file);
  z ← m_map_err ZipFailed (ZipArchive_new f);
  lift (map_err ZipFailed (ZipFuse.new z)).

Definition run_fuse (zip_file mount_point : string) : M (W * T) (ZipMainError FuseError) unit :=
  dev_fuse ← on_host (m_map_err IoFailed open_dev_fuse);
  on_host (m_map_err IoFailed (mount mount_point "zipfuse" (Z.lor (Z.lor MS_NOSUID MS_NODEV) MS_RDONLY)
    [FD dev_fuse; RootMode (Z.lor (Z.lor (Z.lor S_IFDIR S_IXUSR) S_IXGRP) S_IXOTH); AllowOther;
     UserId 0; GroupId 0; MaxRead MAX_READ]));;
  fs ← on_files (ZipFuse_new zip_file);
  on_host (m_map_err LoopFailed (start_message_loop dev_fuse MAX_READ MAX_WRITE fs)).

Definition zipfuse_app : App := [required_positional "ZIPFILE"; required_positional "MOUNTPOINT"].

Definition main (argv : list string) : M (W * T) (ZipMainError FuseError) unit :=
  matches ← lift (ok_or (get_matches zipfuse_app argv) BadUsage);
  zip_file ← lift (unwrap (value_of matches "ZIPFILE"));
  mount_point ← lift (unwrap (value_of matches "MOUNTPOINT"));
  run_fuse zip_file mount_point.
End program.

(** ** Starting *)
Section starting.
Context {W A : Type} `{!ZipArchive A, !ZipReader W A}.

Definition zipfuse_mounted (point : string) : FuseEvent (ZipFuse A) :=
  Mounted point "zipfuse" (Z.lor (Z.lor MS_NOSUID MS_NODEV) MS_RDONLY)
    [FD 3; RootMode (Z.lor (Z.lor (Z.lor S_IFDIR S_IXUSR) S_IXGRP) S_IXOTH); AllowOther;
     UserId 0; GroupId 0; MaxRead MAX_READ].

(** The mount comes first: an archive that cannot be opened or is rejected leaves the mount
    behind, with nobody to serve it; else the file system of the archive is served. *)
Lemma run_fuse_recorded zip_file point loop_end (w : W) :
  run_fuse (FuseHost0 := recording_host (Ok tt) loop_end) zip_file point (w, []) =
    let '(r, w') := ZipFuse_new (A := A) (FuseError := io_error) zip_file w in
    match r with
    | Ok fs => (map_err LoopFailed loop_end,
                (w', [zipfuse_mounted point; Looped 3 MAX_READ MAX_WRITE fs]))
    | Err e => (Err e, (w', [zipfuse_mounted point]))
    | Panic => (Panic, (w', [zipfuse_mounted point]))
    | OutOfFuel => (OutOfFuel, (w', [zipfuse_mounted point]))
    end.
Proof.
  unfold run_fuse, on_host, on_files, zoom, mbind, M_bind, m_map_err. cbn.
  destruct (ZipFuse_new zip_file w) as [[fs|e| |] w']; cbn; done.
Qed.
End starting.

(** ** Reading through the mount *)
Section client.
Context {A : Type} `{!ZipArchive A, !HashIter, !DirentLayout}.
Implicit Types (s : ZipFuse A).

(** Reads of [size] bytes, one after the other, until one is empty. *)
Fixpoint read_all (fuel : nat) s (h size offset : Z) : outcome io_error (list byte) :=
  match fuel with
  | O => OutOfFuel
  | S fuel =>
      let '(r, bytes) := ZipFuse.read s h size offset [] in
      n ← r;
      if n =? 0 then Ok []
      else rest ← read_all fuel s h size (offset + n); Ok (bytes ++ rest)
  end.

(** [fs::read]: the path is looked up, the file opened, read to its end and closed. *)
Definition fs_read (fuel : nat) (size : Z) (path : list string) : M (ZipFuse A) io_error (list byte) :=
  self ← get_state;
  h ← lift (walk self ROOT path);
  ZipFuse.open h;;
  self ← get_state;
  data ← lift (read_all fuel self h size 0);
  ZipFuse.release h;;
  mret data.

Lemma read_all_S fuel s h size offset :
  read_all (S fuel) s h size offset =
    let '(r, bytes) := ZipFuse.read s h size offset [] in
    n ← r;
    if n =? 0 then Ok [] else rest ← read_all fuel s h size (offset + n); Ok (bytes ++ rest).
Proof. done. Qed.

Lemma read_all_spec s h ofb size n offset :
  open_files s !! h = Some ofb → 1 ≤ file_open_count ofb → 0 < size → 0 ≤ offset →
  offset ≤ zlen (file_buf ofb) → zlen (file_buf ofb) + size < u64_limit →
  zlen (file_buf ofb) - offset ≤ Z.of_nat n * size →
  read_all (S n) s h size offset = Ok (drop (Z.to_nat offset) (file_buf ofb)).
Proof.
  intros Hofb Hc Hsz Hoff Hle Hlim. revert offset Hoff Hle. induction n as [|n IH]; intros offset Hoff Hle Hn;
    rewrite read_all_S, (read_open_file _ _ ofb) by (done || lia);
    rewrite (proj2 (Z.ltb_lt _ _)), (proj2 (Z.leb_le _ _)) by lia; cbn [andb];
    unfold mbind, outcome_bind; cbn [app]; rewrite length_take, length_drop.
  - rewrite (proj2 (Z.eqb_eq _ _)) by lia. by rewrite drop_ge by lia.
  - case Z.eqb_spec; intros Hend; [by rewrite drop_ge by lia|].
    rewrite IH by lia. f_equal. destruct (decide (offset + size ≤ zlen (file_buf ofb))).
    + replace (Z.to_nat (offset + _)) with (Z.to_nat offset + Z.to_nat size)%nat by lia.
      by rewrite <- drop_drop, take_drop.
    + rewrite (drop_ge _ (Z.to_nat (offset + _))) by lia.
      by rewrite app_nil_r, take_ge by (rewrite length_drop; lia).
Qed.

(** The file system after a file was opened, read and closed again: as it was if the file was
    not open, and with one more on its count if it was, since closing does not store the
    decremented count. *)
Definition after_read (h : Z) s : ZipFuse A :=
  match open_files s !! h with
  | None => s
  | Some ofb =>
      ZipFuse.set_open_files
        (<[h := {| file_open_count := file_open_count ofb + 1; file_buf := file_buf ofb |}]>
           (open_files s)) s
  end.

(** A count that can still be incremented. *)
Definition can_reopen (h : Z) s : Prop :=
  ∀ ofb, open_files s !! h = Some ofb → file_open_count ofb + 1 < u32_limit.

Lemma open_release z s h d j f data :
  zf_inv z s → InodeTable.get (inode_table s) h = Some d → InodeData.get_zip_index d = Some j →
  by_index z j = Ok f → contents f = Ok data → ZipInode.size d ≤ i64_max → can_reopen h s →
  ∃ s' ofb, ZipFuse.open h s = (Ok (Some h, OPEN_EMPTY), s') ∧
    open_files s' !! h = Some ofb ∧ 1 ≤ file_open_count ofb ∧ file_buf ofb = data ∧
    ZipFuse.release h s' = (Ok tt, after_read h s).
Proof.
  intros [Hz _ Hfiles _] Hd Hj Hf Hdata Hsize Hre. unfold can_reopen, after_read in *.
  unfold ZipFuse.open, ZipFuse.release, mbind, M_bind, get_state, lift, put_state, ZipFuse.find_inode.
  destruct (open_files s !! h) as [ofb|] eqn:Hopen.
  - destruct (Hfiles _ _ Hopen) as (Hc & d' & i' & f' & Hd' & Hi' & Hf' & Hcont).
    rewrite (proj2 (Z.eqb_neq _ _)) by lia. unfold u32_incr.
    rewrite (proj2 (Z.ltb_lt _ _)) by (by apply Hre). do 2 eexists. split; [reflexivity|].
    split; [apply lookup_insert_eq|]. cbn [file_open_count file_buf open_files ZipFuse.set_open_files].
    split; [lia|]. split; [congruence|]. rewrite lookup_insert_eq.
    cbn [file_open_count]. unfold checked_pred. rewrite (proj2 (Z.leb_le _ _)) by lia. cbn.
    by rewrite (proj2 (Z.eqb_neq _ _)) by lia.
  - exists (ZipFuse.set_open_files (<[h := {| file_open_count := 1; file_buf := data |}]> (open_files s)) s).
    eexists. split_and!; [|apply lookup_insert_eq|done|done|].
    + rewrite Hd. cbn. rewrite Hj. cbn. rewrite Hz, Hf. cbn.
      rewrite (proj2 (Z.leb_le _ _)) by done. cbn. by rewrite Hdata.
    + cbn. rewrite lookup_insert_eq. cbn. rewrite delete_insert_id by done. by destruct s.
Qed.

Lemma fs_read_spec z s path h d j f data size n :
  zf_inv z s → walk s ROOT path = Ok h → InodeTable.get (inode_table s) h = Some d →
  InodeData.get_zip_index d = Some j → by_index z j = Ok f → contents f = Ok data →
  ZipInode.size d ≤ i64_max → can_reopen h s →
  0 < size → zlen data + size < u64_limit → zlen data ≤ Z.of_nat n * size →
  fs_read (S n) size path s = (Ok data, after_read h s).
Proof.
  intros Hi Hw Hd Hj Hf Hdata Hsize Hre Hs Hlim Hle.
  destruct (open_release z s h d j f data) as (s' & ofb & Ho & Hofb & Hc & <- & Hrel); try done.
  unfold fs_read, mbind, M_bind, get_state, lift. rewrite Hw, Ho.
  rewrite (read_all_spec _ _ _ _ _ _ Hofb) by lia. by rewrite Hrel.
Qed.

(** C33: Every file is read back through the mount.  For a sound archive and in every reachable
    state, the components of the path of a file entry lead to a file, the first file entry with that
    path; [getattr] answers with its number, its size and a regular file's mode.  An application that
    opens the path, reads it in pieces of any size until a read is empty, and closes it, gets
    exactly the contents of that entry, in one read per piece and one more.  It leaves the file
    system as it was if the file was not open; if it was, the count of its buffer is one higher. *)
Theorem zipfuse_file_read_back z s i file path :
  archive_ok z → reachable z s → zlen (table (inode_table s)) + 2 < u64_limit →
  (i < archive_len z)%nat → by_index z i = Ok file → enclosed_name file = Some path →
  is_file file = true → path ≠ [] →
  ∃ h j f st, walk s ROOT path = Ok h ∧ (j ≤ i)%nat ∧ by_index z j = Ok f ∧
    enclosed_name f = Some path ∧ is_file f = true ∧
    ZipFuse.getattr s h = Ok (st, timeout_max) ∧ st_ino st = h ∧
    st_size st = Z.min (zip_size f) i64_max ∧ st_mode st = Z.lor S_IFREG (default 0 (unix_mode f)) ∧
    ∀ data size n, contents f = Ok data → zip_size f ≤ i64_max → can_reopen h s →
      0 < size → zlen data + size < u64_limit → zlen data ≤ Z.of_nat n * size →
      fs_read (S n) size path s = (Ok data, after_read h s).
Proof.
  intros Hok Hreach Hlen Hi Hby Hname Hfile Hne. pose proof (reachable_inv _ _ Hreach) as Hinv.
  pose proof Hinv as [Hz Ht _ _]. destruct (from_zip_spec _ _ Ht) as (Hw & Ho & _).
  destruct (from_zip_served _ _ Hok Ht) as [Hfm Hs].
  destruct (Hs _ _ _ Hi Hby Hname) as (h & d & Hr & Hd & Hk).
  unfold entry_kind in Hk. rewrite Hfile, bool_decide_false in Hk by done.
  destruct Hk as (j & Hj & Hle). destruct (Ho _ _ _ Hd Hj) as (f & path' & H1 & H2 & H3 & H4 & H5 & _).
  assert (path' = path) as -> by by eapply resolve_inj.
  destruct (stat_from_ok s h d) as (st & Hst & Hino & Hsize & Hmode); [done..|].
  assert (InodeData.is_dir d = false) as Hdir
    by (unfold InodeData.get_zip_index, InodeData.is_dir in *; by destruct (data d)).
  exists h, j, f, st. split_and!; try done.
  - by apply resolve_walk.
  - unfold ZipFuse.getattr. by rewrite Hst.
  - by rewrite Hsize, H5.
  - rewrite Hmode, Hdir. f_equal. by eapply Hfm.
  - intros bytes size n Hdata Hmax Hre Hs0 Hlim Hn.
    apply (fs_read_spec z s path h d j f); try done; [by apply resolve_walk|by rewrite H5].
Qed.
End client.

(** ** A small file system *)
Section example.
#[local] Existing Instances example_hash_iter example_dirent.

(** ["b"] is the third entry and not open; it is read two bytes at a time. *)
Lemma zipfuse_file_read_back_witness :
  ∃ h j f st, walk example_fs3 ROOT ["b"] = Ok h ∧ (j ≤ 2)%nat ∧ by_index example_archive j = Ok f ∧
    enclosed_name f = Some ["b"] ∧ is_file f = true ∧
    ZipFuse.getattr example_fs3 h = Ok (st, timeout_max) ∧ st_ino st = h ∧
    st_size st = Z.min (zip_size f) i64_max ∧ st_mode st = Z.lor S_IFREG (default 0 (unix_mode f)) ∧
    ∀ data size n, contents f = Ok data → zip_size f ≤ i64_max → can_reopen h example_fs3 →
      0 < size → zlen data + size < u64_limit → zlen data ≤ Z.of_nat n * size →
      fs_read (S n) size ["b"] example_fs3 = (Ok data, after_read h example_fs3).
Proof.
  apply (zipfuse_file_read_back example_archive example_fs3 2 (example_entry ["b"] true [Byte.x03]));
    [exact example_archive_ok|exact example_fs3_reachable|vm_compute; reflexivity|simpl; lia
    |reflexivity|reflexivity|reflexivity|discriminate].
Defined.

Example read_back_runs : fs_read 2 2 ["b"] example_fs3 = (Ok [Byte.x03], example_fs3).
Proof. vm_compute. reflexivity. Qed.
End example.
