(* ===== verification/ZipTests.v ===== *)
(** * The unit tests of zipfuse (zipfuse/src/{inode,main}.rs)

    The tests of the crate, translated line by line and run on the model.  The
    zip writer of the tests is a double: the archive read back has the entries
    that were written.  What the tests do through a mounted file system is done
    by the calls the kernel makes for it: a lookup for every component of a
    path, [getattr], and [open], [read] and [release] around a read. *)
From Stdlib Require Import Ascii.
From S2P Require Import Prelude RustInt Crypto Common Fsverity Fuse ZipInode ZipFuse Poll.
From S2P Require Import ZipMain Testing.

(** ** The zip writer *)

(** [Path::components] of a relative path. *)
Definition path_components (path : string) : list string :=
  filter (λ c, c ≠ "" ∧ c ≠ ".") (split_on "/" path).

(** A path that never climbs above where it starts. *)
Fixpoint stays_inside (depth : nat) (path : list string) : bool :=
  match path with
  | [] => true
  | c :: path =>
      if bool_decide (c = "..")
      then match depth with O => false | S depth => stays_inside depth path end
      else stays_inside (S depth) path
  end.

Definition zip_entry (name : string) (is_file : bool) : ZipFile :=
  let path := path_components name in
  {| enclosed_name := if stays_inside 0 path then Some path else None;
     is_file := is_file;
     unix_mode := Some (if is_file then 0x81a4 (* 0o100644 *) else 0x41ed (* 0o40755 *));
     zip_size := 0; contents := Ok [] |}.

(** The entries so far; what is written goes to the last one. *)
Definition start_file (name : string) : M (list ZipFile) ZipError unit := λ w,
  (Ok tt, w ++ [zip_entry name true]).
Definition add_directory (name : string) : M (list ZipFile) ZipError unit := λ w,
  (Ok tt, w ++ [zip_entry name false]).
Definition append_data (data : list byte) (f : ZipFile) : ZipFile :=
  {| enclosed_name := enclosed_name f; is_file := is_file f; unix_mode := unix_mode f;
     zip_size := zip_size f + zlen data; contents := old ← contents f; Ok (old ++ data) |}.
Definition write_all (data : list byte) : M (list ZipFile) ZipError unit := λ w,
  (Ok tt, alter (append_data data) (pred (length w)) w).

Definition ascii_bytes (s : string) : list byte := String.list_byte_of_string s.

(** ** inode.rs *)
Module inode.
Definition setup (add : M (list ZipFile) ZipError unit) : outcome ZipError InodeTable :=
  let '(r, zip) := add [] in
  expect_ok r;;
  expect_ok (InodeTable.from_zip zip).

Definition check_dir (it : InodeTable) (parent : Z) (name : string) : outcome ZipError Z :=
  name ← cstring_new name;
  inode ← InodeTable.find it parent name;
  inode ← unwrap inode;
  inode_data ← unwrap (InodeTable.get it inode);
  rassert (0 =? size inode_data);;
  rassert (InodeData.is_dir inode_data);;
  Ok inode.

Definition check_file (it : InodeTable) (parent : Z) (name : string) : outcome ZipError InodeData :=
  name ← cstring_new name;
  inode ← InodeTable.find it parent name;
  inode ← unwrap inode;
  inode_data ← unwrap (InodeTable.get it inode);
  rassert (negb (InodeData.is_dir inode_data));;
  Ok inode_data.

Definition empty_zip_has_two_inodes : outcome ZipError unit :=
  it ← setup (mret tt);
  rassert (2 =? zlen (table it));;
  rassert (match InodeTable.get it INVALID with None => true | Some _ => false end);;
  rassert (match InodeTable.get it ROOT with None => false | Some _ => true end).

Definition one_file : outcome ZipError unit :=
  it ← setup (start_file "foo";; write_all (ascii_bytes "0123456789"));
  inode_data ← check_file it ROOT "foo";
  rassert (zlen (ascii_bytes "0123456789") =? size inode_data).

Definition one_dir : outcome ZipError unit :=
  it ← setup (add_directory "foo");
  inode ← check_dir it ROOT "foo";
  data ← unwrap (InodeTable.get it inode);
  directory ← unwrap (InodeData.get_directory data);
  rassert (0 =? Z.of_nat (base.size directory)).

Definition one_file_in_subdirs : outcome ZipError unit :=
  it ← setup (start_file "a/b/c/d";; write_all (ascii_bytes "0123456789"));
  rassert (6 =? zlen (table it));;
  a ← check_dir it ROOT "a";
  b ← check_dir it a "b";
  c ← check_dir it b "c";
  d ← check_file it c "d";
  rassert (10 =? size d).

Definition complex_archive : M (list ZipFile) ZipError unit :=
  add_directory "a/b1";;
  start_file "a/b2/c1";;
  start_file "a/b2/c2/d1";;
  start_file "a/b2/c2/d2";;
  start_file "a/b2/c2/d3";;
  start_file "x/y1";;
  start_file "x/y2";;
  add_directory "x/y3";;
  start_file "foo";;
  start_file "bar".

Definition complex_hierarchy : outcome ZipError unit :=
  it ← setup complex_archive;
  rassert (16 =? zlen (table it));;
  a ← check_dir it ROOT "a";
  _ ← check_dir it a "b1";
  b2 ← check_dir it a "b2";
  _ ← check_file it b2 "c1";
  c2 ← check_dir it b2 "c2";
  _ ← check_file it c2 "d1";
  _ ← check_file it c2 "d3";
  _ ← check_file it c2 "d3";
  x ← check_dir it ROOT "x";
  _ ← check_file it x "y1";
  _ ← check_file it x "y2";
  _ ← check_dir it x "y3";
  _ ← check_file it ROOT "foo";
  _ ← check_file it ROOT "bar";
  Ok tt.

Definition file_size : outcome ZipError unit :=
  it ← setup (start_file "empty";;
              start_file "10bytes";; write_all (bytes 0 10);;
              start_file "1234bytes";; write_all (bytes 0 1234);;
              start_file "2^20bytes";; write_all (bytes 0 (Z.shiftl 2 20)));
  f ← check_file it ROOT "empty";
  rassert (0 =? size f);;
  f ← check_file it ROOT "10bytes";
  rassert (10 =? size f);;
  f ← check_file it ROOT "1234bytes";
  rassert (1234 =? size f);;
  f ← check_file it ROOT "2^20bytes";
  rassert (Z.shiftl 2 20 =? size f).

Definition rejects_invalid_path (path : string) : outcome ZipError unit :=
  let '(r, zip) := start_file path [] in
  expect_ok r;;
  rassert (match InodeTable.from_zip zip with Err _ => true | _ => false end).
Definition rejects_invalid_paths : outcome ZipError unit :=
  mapM rejects_invalid_path ["a/../../b"; "a/.."; "a/../../b/c"; "a/b/../c"];;
  Ok tt.
End inode.

(** The assertions of the tests of the inode table hold. *)
Example inode_tests_pass :
  [inode.empty_zip_has_two_inodes; inode.one_file; inode.one_dir; inode.one_file_in_subdirs;
   inode.complex_hierarchy; inode.rejects_invalid_paths] = replicate 6 (Ok tt).
Proof. vm_compute. reflexivity. Qed.

(** Only the lengths of the files matter here, not their bytes. *)
Lemma zlen_bytes x n : (0 <=? n) = true → zlen (bytes x n) = n.
Proof. intros Hn%Z.leb_le. unfold bytes. rewrite length_replicate. lia. Qed.

Example file_size_passes : inode.file_size = Ok tt.
Proof.
  unfold inode.file_size.
  generalize (zlen_bytes 0 10 eq_refl) (zlen_bytes 0 1234 eq_refl) (zlen_bytes 0 (Z.shiftl 2 20) eq_refl).
  generalize (bytes 0 10) (bytes 0 1234) (bytes 0 (Z.shiftl 2 20)). intros small mid big.
  vm_compute. by intros -> -> ->.
Qed.

(** ** main.rs *)
Module mounted.
(** The only file there is to open is the archive the test wrote. *)
#[local] Instance test_reader : ZipReader (list ZipFile) (list ZipFile) :=
  {| open_zip_file _ := mret 4; ZipArchive_new _ := get_state |}.
(** The order of [HashMap::iter] and the size of a [Dirent]. *)
#[local] Existing Instances example_hash_iter example_dirent.

Definition mount : Type := ZipFuse (list ZipFile).
Definition mount_test : Type := M mount io_error unit.

(** The file system that the message loop serves, if [run_fuse] gets that far. *)
Definition start_fuse (zip_path mnt_path : string) (zip : list ZipFile) : option mount :=
  match run_fuse (FuseHost0 := recording_host (Ok tt) (Ok tt)) zip_path mnt_path (zip, []) with
  | (_, (_, [Mounted _ _ _ _; Looped _ _ _ fs])) => Some fs
  | _ => None
  end.

(** Giving some time for the file system to boot up. *)
Inductive WaitError := StatfsFailed (e : io_error) | TimedOut.
Definition wait_for_mount {W} `{!MountEnv W} (mount_path : string) : M W WaitError unit :=
  w ← get_state;
  let POLL_INTERVAL := 50 in
  let TIMEOUT := 10 * 1000 in
  let FUSE_SUPER_MAGIC := 0x65735546 in
  poll 202 (has_type mount_path FUSE_SUPER_MAGIC StatfsFailed) POLL_INTERVAL TIMEOUT TimedOut
    (instant_now w).

(** The test passes when the archive is written, mounted and checked.  The file
    system is up when the message loop starts, [wait_for_mount_ends] is about
    the wait for it; unmounting at the end is left out. *)
Definition run_test (add : M (list ZipFile) ZipError unit) (check : mount_test) : bool :=
  match add [] with
  | (Ok _, zip) =>
      match start_fuse "test.zip" "mnt" zip with
      | Some fs => passes fs check
      | None => false
      end
  | _ => false
  end.

(** [fs::metadata] *)
Definition metadata (path : list string) : M mount io_error stat64 :=
  self ← get_state;
  inode ← lift (walk self ROOT path);
  '(st, _) ← lift (ZipFuse.getattr self inode);
  mret st.
Definition is_type (type : Z) (st : stat64) : bool := Z.land (st_mode st) 0xf000 =? type.

(** [fs::read_dir]: with a buffer of 4 KB, as many entries as are given. *)
Definition read_dir (path : list string) : M mount io_error (list string) :=
  self ← get_state;
  inode ← lift (walk self ROOT path);
  ZipFuse.opendir inode;;
  self ← get_state;
  entries ← lift (list_dir 1100 (λ _, 1100%nat) self inode 4096 0);
  ZipFuse.releasedir inode;;
  mret (name <$> entries).

Definition check_file (file : string) (content : list byte) : mount_test :=
  let path := path_components file in
  exists_ ← is_ok (metadata path);
  assert exists_;;
  st ← metadata path;
  assert (is_type S_IFREG st);;
  assert_eq (zlen content) (st_size st);;
  read_data ← fs_read (S (Z.to_nat (zlen content / MAX_READ + 1))) MAX_READ path;
  assert_eq content read_data.

(** The entries of a directory, split into files and directories. *)
Fixpoint sort_entries (dir : list string) (names : list string) (files dirs : gset string)
    : M mount io_error (gset string * gset string) :=
  match names with
  | [] => mret (files, dirs)
  | name :: names =>
      st ← metadata (dir ++ [name]);
      if is_type S_IFDIR st then sort_entries dir names files ({[name]} ∪ dirs)
      else sort_entries dir names ({[name]} ∪ files) dirs
  end.

Definition check_dir (dir : string) (files dirs : list string) : mount_test :=
  let path := path_components dir in
  exists_ ← is_ok (metadata path);
  assert exists_;;
  st ← metadata path;
  assert (is_type S_IFDIR st);;
  names ← read_dir path;
  '(actual_files, actual_dirs) ← sort_entries path names ∅ ∅;
  assert_eq (list_to_set files) actual_files;;
  assert_eq (list_to_set dirs) actual_dirs.

Definition empty : bool := run_test (mret tt) (check_dir "" [] []).

Definition single_file : bool :=
  run_test (start_file "foo";; write_all (ascii_bytes "0123456789"))
    (check_dir "" ["foo"] [];;
     check_file "foo" (ascii_bytes "0123456789")).

Definition single_dir : bool :=
  run_test (add_directory "dir")
    (check_dir "" [] ["dir"];;
     check_dir "dir" [] []).

Definition complex_hierarchy : bool :=
  run_test
    inode.complex_archive
    (check_dir "" ["foo"; "bar"] ["a"; "x"];;
     check_dir "a" [] ["b1"; "b2"];;
     check_dir "a/b1" [] [];;
     check_dir "a/b2" ["c1"] ["c2"];;
     check_dir "a/b2/c2" ["d1"; "d2"; "d3"] [];;
     check_dir "x" ["y1"; "y2"] ["y3"];;
     check_dir "x/y3" [] [];;
     check_file "a/b2/c1" [];;
     check_file "a/b2/c2/d1" [];;
     check_file "a/b2/c2/d2" [];;
     check_file "a/b2/c2/d3" [];;
     check_file "x/y1" [];;
     check_file "x/y2" [];;
     check_file "foo" [];;
     check_file "bar" []).

Definition large_file : bool :=
  let data := bytes 10 (Z.shiftl 2 20) in
  run_test (start_file "foo";; write_all data) (check_file "foo" data).

(** [format!("{:0100}", i)] *)
Definition padded (i : nat) : string :=
  let digits := show_int (Z.of_nat i) in
  String.concat "" (replicate (100 - String.length digits) "0") +:+ digits.

(** The test has [NUM_FILES = 1 << 10]. *)
Definition large_dir (NUM_FILES : nat) : bool :=
  run_test (mfold (λ _ i, start_file ("dir/" +:+ padded i)) tt (seq 0 NUM_FILES))
    (check_dir "dir" (padded <$> seq 0 NUM_FILES) []).
End mounted.

(** The assertions of the tests of the mounted file system hold. *)
Example mounted_tests_pass :
  [mounted.empty; mounted.single_file; mounted.single_dir; mounted.complex_hierarchy] =
  replicate 4 true.
Proof. vm_compute. reflexivity. Qed.

(** Forty entries, 5 KB, are enough to need more than one [readdir]. *)
Example large_dir_passes : mounted.large_dir 40 = true.
Proof. vm_compute. reflexivity. Qed.

(** [large_file] for any contents of its length: the bytes are never looked at. *)
Section large_file.
Context (content : list byte) (Hlen : zlen content = Z.shiftl 2 20).

Definition large_entry : ZipFile :=
  {| enclosed_name := Some ["foo"]; is_file := true; unix_mode := Some 0x81a4;
     zip_size := Z.shiftl 2 20; contents := Ok content |}.
Definition large_mount : mounted.mount := {|
  zip_archive := [large_entry];
  inode_table := {| table :=
    [InodeData.new_dir 0;
     {| mode := 0; size := 0;
        data := Directory {["foo" := {| dir_inode := 2; kind := FileKind |}]} |};
     InodeData.new_file 0 large_entry] |};
  open_files := ∅; open_dirs := ∅ |}.
Definition large_stat : stat64 :=
  {| st_ino := 2; st_mode := 0x81a4; st_dev := 0; st_nlink := 1; st_uid := 0; st_gid := 0; st_rdev := 0;
     st_size := Z.shiftl 2 20; st_blksize := 0; st_blocks := 0 |}.

Lemma large_written : (start_file "foo";; write_all content) [] = (Ok tt, [large_entry]).
Proof.
  unfold start_file, write_all, mbind, M_bind. cbn [app length pred alter list_alter].
  unfold append_data, large_entry. by rewrite Hlen.
Qed.

Lemma large_mounted : mounted.start_fuse "test.zip" "mnt" [large_entry] = Some large_mount.
Proof. vm_compute. reflexivity. Qed.

Lemma large_metadata : mounted.metadata ["foo"] large_mount = (Ok large_stat, large_mount).
Proof. vm_compute. reflexivity. Qed.

Lemma large_read : fs_read 4 MAX_READ ["foo"] large_mount = (Ok content, large_mount).
Proof.
  change large_mount with (after_read 2 large_mount) at 2.
  apply (fs_read_spec (H := example_hash_iter) [large_entry] _ _ 2 (InodeData.new_file 0 large_entry) 0 large_entry);
    rewrite ?Hlen; done.
Qed.

Lemma large_file_with :
  mounted.run_test (start_file "foo";; write_all content) (mounted.check_file "foo" content) = true.
Proof.
  unfold mounted.run_test. rewrite large_written, large_mounted. unfold passes, mounted.check_file.
  change (path_components "foo") with ["foo"]. rewrite Hlen.
  change (S (Z.to_nat _)) with 4%nat.
  assert (is_ok (E' := io_error) (mounted.metadata ["foo"]) large_mount = (Ok true, large_mount)) as Hok.
  { unfold is_ok, is_err, mbind, M_bind. by rewrite large_metadata. }
  rewrite (M_bind_Ok _ _ _ _ _ Hok), (M_bind_Ok _ _ _ _ _ (assert_holds _ _ eq_refl)).
  rewrite (M_bind_Ok _ _ _ _ _ large_metadata), (M_bind_Ok _ _ _ _ _ (assert_holds _ _ eq_refl)).
  rewrite (M_bind_Ok _ _ _ _ _ (assert_eq_holds _ _ _ eq_refl)), (M_bind_Ok _ _ _ _ _ large_read).
  by rewrite assert_eq_holds.
Qed.
End large_file.

Example large_file_passes : mounted.large_file = true.
Proof. apply large_file_with, zlen_bytes. reflexivity. Qed.

(** Waiting for the mount ends within 202 polls: it is there, [statfs] has failed,
    or ten seconds have passed. *)
Lemma wait_for_mount_ends {W} `{!MountEnv W, !MountClock W} mount_path (w : W) :
  let '(r, w') := mounted.wait_for_mount mount_path w in
  mount_awaited mount_path 0x65735546 mounted.StatfsFailed (10 * 1000) mounted.TimedOut
    (instant_now w) r w'.
Proof.
  unfold mounted.wait_for_mount. erewrite (M_bind_Ok get_state) by done.
  apply poll_statfs_ends; done || lia.
Qed.
