(* ===== verification/Compos.v ===== *)
(** * The compilation service (compos/src/{pvm_exec,compsvc,compsvc_worker}.rs)

    [pvm_exec] starts an [fd_server] for the caller's descriptors and asks
    [compsvc], inside the VM, to run a task; [compsvc] starts a worker, which
    mounts [authfs] so that the task finds the same descriptors.  The three
    programs and the two servers talk through command lines.  The jail, the
    clock and the binder service are interfaces. *)
From Stdlib Require Import Ascii.
From S2P Require Import Prelude RustInt Clap Crypto Common Fsverity Merkle Builder File Os Fuse Poll.
From S2P Require Import FdServer LocalFile Verifier Editor RemoteFile AuthFs AuthFsMain.

(** ** Interfaces *)

(** [minijail::Error] *)
Inductive JailError := ReturnCode (code : Z) | Killed (signal : Z) | OtherJailError.

(** [Minijail]: a program run in a jail, with the descriptors it inherits; the
    jail is a handle to wait for it or to kill it. *)
Class Minijail (W : Type) := {
  jail_new : M W JailError Z;
  jail_namespace_vfs : Z → W → W;
  jail_run : Z → string → list Z → list string → M W JailError unit;
  jail_run_remap : Z → string → list (Z * Z) → list string → M W JailError unit;
  jail_wait : Z → M W JailError unit;
  jail_kill : Z → M W JailError unit;
}.

(** A call whose [Result] is matched on. *)
Definition m_result {W E E' A} (m : M W E A) : M W E' (A + E) := λ w,
  match m w with
  | (Ok a, w) => (Ok (inl a), w)
  | (Err e, w) => (Ok (inr e), w)
  | (Panic, w) => (Panic, w)
  | (OutOfFuel, w) => (OutOfFuel, w)
  end.

(** [scopeguard::guard(jail, |jail| jail.kill())]: the jail is killed at the end
    of the scope, whatever ended it. *)
Definition with_guard {W E A} `{!Minijail W} (jail : Z) (body : M W E A) : M W E A := λ w,
  let '(r, w) := body w in (r, (jail_kill jail w).2).

(** The parts of [InputFdAnnotation], [OutputFdAnnotation] and [Metadata]. *)
Record InputFdAnnotation := { input_fd : Z; input_file_size : Z }.
Record OutputFdAnnotation := { output_fd : Z }.
Record Metadata := {
  input_fd_annotations : list InputFdAnnotation;
  output_fd_annotations : list OutputFdAnnotation;
}.

Class ICompService (W S : Type) := execute : S → list string → Metadata → M W Status Z.

(** [vec![1, 2]] when debugging. *)
Definition debug_fds (debuggable : bool) : list Z := if debuggable then [1; 2] else [].

(** ** pvm_exec.rs *)
Module PvmExec.
Definition FD_SERVER_BIN : string := "/apex/com.android.virt/bin/fd_server".

Inductive Error :=
| ParseIntError | Errno | BadFd (fd : Z) | IoError (e : io_error) | Jail (e : JailError)
| BinderCallFailed (e : Status) | Usage.

Record Config := { args : list string; metadata : Metadata; debuggable : bool }.

Definition app : App :=
  [option_list "in-fd"; option_list "out-fd"; switch "debug"; required_last "args"].

(** The command line and the descriptors of the server. *)
Definition fd_server_args (metadata : Metadata) : list string :=
  FD_SERVER_BIN ::
  (input_fd_annotations metadata ≫= λ m, ["--ro-fds"; show_int (input_fd m)]) ++
  (output_fd_annotations metadata ≫= λ m, ["--rw-fds"; show_int (output_fd m)]).
Definition inheritable_fds (metadata : Metadata) (debuggable : bool) : list Z :=
  debug_fds debuggable ++ (input_fd <$> input_fd_annotations metadata) ++
  (output_fd <$> output_fd_annotations metadata).

Section impl.
Context {clap : Clap} {W S : Type} `{!FileOps W, !Minijail W, !ICompService W S}.

Definition spawn_fd_server (metadata : Metadata) (debuggable : bool) : M W Error Z :=
  jail ← m_map_err Jail jail_new;
  m_map_err Jail (jail_run jail FD_SERVER_BIN (inheritable_fds metadata debuggable)
                    (fd_server_args metadata));;
  mret jail.

(** [nix] turns the result [-1] of [fcntl] into an error. *)
Definition is_fd_valid (fd : Z) : M W Error bool := λ w,
  let retval := fcntl_getfd fd w in
  (if retval =? -1 then Err Errno else Ok (0 <=? retval), w).

Definition parse_arg_fd (arg : string) : M W Error Z :=
  fd ← lift (ok_or (parse_i32 arg) ParseIntError);
  valid ← is_fd_valid fd;
  if negb valid then throw (BadFd fd) else mret fd.

Definition parse_in_fd (arg : string) : M W Error InputFdAnnotation :=
  fd ← parse_arg_fd arg;
  file_size ← m_map_err IoError (file_len fd);
  mret {| input_fd := fd; input_file_size := file_size |}.
Definition parse_out_fd (arg : string) : M W Error OutputFdAnnotation :=
  fd ← parse_arg_fd arg;
  mret {| output_fd := fd |}.

Definition parse_args (argv : list string) : M W Error Config :=
  matches ← lift (ok_or (get_matches app argv) Usage);
  inputs ← mapM parse_in_fd (default [] (values_of matches "in-fd"));
  outputs ← mapM parse_out_fd (default [] (values_of matches "out-fd"));
  args ← lift (unwrap (values_of matches "args"));
  mret {| args := args;
          metadata := {| input_fd_annotations := inputs; output_fd_annotations := outputs |};
          debuggable := is_present matches "debug" |}.

(** The exit code of the program. *)
Definition main (service : S) (argv : list string) : M W Error Z :=
  config ← parse_args argv;
  fd_server_jail ← spawn_fd_server (metadata config) (debuggable config);
  exit_code ← with_guard fd_server_jail
    (m_map_err BinderCallFailed (execute service (args config) (metadata config)));
  if 0 <? exit_code then mret exit_code else mret 0.
End impl.
End PvmExec.

(** ** compsvc.rs *)
Record CompService := { worker_bin : string; task_bin : string; service_debuggable : bool }.

Module CompService.
Definition WORKER_BIN : string := "/system/bin/compsvc_worker".
Definition AUTHFS_MOUNTPOINT : string := "/data/local/tmp/authfs_mnt".

Definition in_fd_arg (a : InputFdAnnotation) : string :=
  show_int (input_fd a) +:+ ":" +:+ show_int (input_file_size a).

Definition build_worker_args {E} (self : CompService) (args : list string) (metadata : Metadata)
    : outcome E (list string) :=
  rest ← slice args 1 (zlen args);
  Ok ([WORKER_BIN; "--authfs-root"; AUTHFS_MOUNTPOINT] ++
      (input_fd_annotations metadata ≫= λ a, ["--in-fd"; in_fd_arg a]) ++
      (output_fd_annotations metadata ≫= λ a, ["--out-fd"; show_int (output_fd a)]) ++
      (if service_debuggable self then ["--debug"] else []) ++
      ["--"; task_bin self] ++ rest).

Section impl.
Context {clap : Clap} {W : Type} `{!Minijail W}.

Definition run_worker_in_jail_and_wait (self : CompService) (args : list string) : M W JailError unit :=
  jail ← jail_new;
  w ← get_state;
  put_state (jail_namespace_vfs jail w);;
  jail_run jail (worker_bin self) (debug_fds (service_debuggable self)) args;;
  jail_wait jail.

Definition execute (self : CompService) (args : list string) (metadata : Metadata) : M W Status Z :=
  worker_args ← lift (build_worker_args self args metadata);
  result ← m_result (run_worker_in_jail_and_wait self worker_args);
  match result with
  | inl _ => mret 0
  | inr (ReturnCode _) => throw (from_status_code FAILED_TRANSACTION)
  | inr _ => throw (from_status_code UNKNOWN_ERROR)
  end.

Definition app : App := [switch "debug"; required_positional "task_bin"].
Definition parse_args (argv : list string) : option (outcome unit CompService) :=
  matches ← get_matches app argv;
  Some (task_bin ← unwrap (value_of matches "task_bin");
        Ok {| task_bin := task_bin; worker_bin := WORKER_BIN;
              service_debuggable := is_present matches "debug" |}).
End impl.
End CompService.

#[global] Instance CompService_service {W} `{!Minijail W} : ICompService W CompService :=
  CompService.execute.

(** ** compsvc_worker.rs *)

(** Opening a file by path; the clock and [statfs] are those of [Poll]. *)
Class WorkerEnv (W : Type) := open_file : string → bool → M W io_error Z.

Module Worker.
Definition AUTHFS_BIN : string := "/apex/com.android.virt/bin/authfs".
Definition AUTHFS_SETUP_POLL_INTERVAL_MS : Z := 50.
Definition AUTHFS_SETUP_TIMEOUT_SEC : Z := 10 * 1000.
Definition FUSE_SUPER_MAGIC : Z := 0x65735546.

Inductive Error :=
| InvalidArgument | ParseIntError | IoError (e : io_error) | TimeOut | Jail (e : JailError) | Usage.

Record InFdAnnotation := { in_fd : Z; file_size : Z }.
Record OutFdAnnotation := { out_fd : Z }.
Record Config := {
  authfs_root : string;
  in_fds : list InFdAnnotation;
  out_fds : list OutFdAnnotation;
  args : list string;
  debuggable : bool;
}.

Definition app : App :=
  [required_option "authfs-root"; option_values "in-fd"; option_values "out-fd"; switch "debug";
   required_last "args"].

(** [arg.find(':')] and the two sides of the first colon. *)
Fixpoint split_at_colon (arg : string) : option (string * string) :=
  match arg with
  | EmptyString => None
  | String a rest =>
      if Ascii.eqb a ":" then Some ("", rest)
      else '(fd, size) ← split_at_colon rest; Some (String a fd, size)
  end.

Definition parse_in_fd (arg : string) : outcome Error InFdAnnotation :=
  '(fd, size) ← ok_or (split_at_colon arg) InvalidArgument;
  fd ← ok_or (parse_i32 fd) ParseIntError;
  file_size ← ok_or (parse_u64 size) ParseIntError;
  Ok {| in_fd := fd; file_size := file_size |}.
Definition parse_out_fd (arg : string) : outcome Error OutFdAnnotation :=
  fd ← ok_or (parse_i32 arg) ParseIntError;
  Ok {| out_fd := fd |}.

Definition parse_args {clap : Clap} (argv : list string) : outcome Error Config :=
  matches ← ok_or (get_matches app argv) Usage;
  authfs_root ← unwrap (value_of matches "authfs-root");
  in_fds ← mapM parse_in_fd (default [] (values_of matches "in-fd"));
  out_fds ← mapM parse_out_fd (default [] (values_of matches "out-fd"));
  args ← unwrap (values_of matches "args");
  Ok {| authfs_root := authfs_root; in_fds := in_fds; out_fds := out_fds; args := args;
        debuggable := is_present matches "debug" |}.

(** The command line of authfs. *)
Definition in_fd_option (conf : InFdAnnotation) : string :=
  show_int (in_fd conf) +:+ ":" +:+ show_int (in_fd conf) +:+ ":" +:+ show_int (file_size conf).
Definition out_fd_option (conf : OutFdAnnotation) : string :=
  show_int (out_fd conf) +:+ ":" +:+ show_int (out_fd conf).
Definition authfs_args (config : Config) : list string :=
  [AUTHFS_BIN; authfs_root config] ++
  (in_fds config ≫= λ conf, ["--remote-ro-file-unverified"; in_fd_option conf]) ++
  (out_fds config ≫= λ conf, ["--remote-new-rw-file"; out_fd_option conf]).

Section impl.
Context {clap : Clap} {W : Type} `{!Minijail W, !MountEnv W, !WorkerEnv W}.

Definition is_fuse (path : string) : M W io_error bool :=
  filesystem_type ← statfs_type path;
  mret (filesystem_type =? FUSE_SUPER_MAGIC).

Definition spawn_authfs (config : Config) : M W Error Z :=
  jail ← m_map_err Jail jail_new;
  m_map_err Jail (jail_run jail AUTHFS_BIN (debug_fds (debuggable config)) (authfs_args config));;
  mret jail.

(** The timeout is reached after at most 201 sleeps. *)
Definition wait_until_authfs_ready (authfs_root : string) : M W Error unit :=
  w ← get_state;
  poll 202 (m_map_err IoError (is_fuse authfs_root)) AUTHFS_SETUP_POLL_INTERVAL_MS
    AUTHFS_SETUP_TIMEOUT_SEC TimeOut (instant_now w).

Definition open_authfs_file (authfs_root : string) (basename : Z) (writable : bool) : M W io_error Z :=
  open_file (authfs_root +:+ "/" +:+ show_int basename) writable.

(** A [File] with the descriptor the task is to see it under. *)
Definition open_authfs_files_for_mapping (config : Config) : M W io_error (list (Z * Z)) :=
  ins ← mapM (λ conf, file ← open_authfs_file (authfs_root config) (in_fd conf) false;
                      mret (file, in_fd conf)) (in_fds config);
  outs ← mapM (λ conf, file ← open_authfs_file (authfs_root config) (out_fd conf) true;
                       mret (file, out_fd conf)) (out_fds config);
  mret (ins ++ outs).

Definition spawn_jailed_task (config : Config) (fd_mapping : list (Z * Z)) : M W Error Z :=
  jail ← m_map_err Jail jail_new;
  let preserve_fds := fd_mapping ++ (if debuggable config then [(1, 1); (2, 2)] else []) in
  bin ← lift (unwrap (args config !! 0%nat));
  m_map_err Jail (jail_run_remap jail bin preserve_fds (args config));;
  mret jail.

(** The exit code of the program. *)
Definition main (argv : list string) : M W Error Z :=
  config ← lift (parse_args argv);
  authfs_jail ← spawn_authfs config;
  jail_result ← with_guard authfs_jail (
    wait_until_authfs_ready (authfs_root config);;
    fd_mapping ← m_map_err IoError (open_authfs_files_for_mapping config);
    jail ← spawn_jailed_task config fd_mapping;
    m_result (jail_wait jail));
  match jail_result with
  | inl _ => mret 0
  | inr (ReturnCode exit_code) => mret exit_code
  | inr e => throw (Jail e)
  end.
End impl.
End Worker.
