(* ===== verification/ComposProps.v ===== *)
(** * What the compilation service guarantees

    The command lines that the programs build for one another are read back as
    they were meant, so that every descriptor of the caller is served by the
    file-descriptor server and appears, under the same number, in the file
    system of the task; and the wait for that file system ends. *)
From Stdlib Require Import Ascii.
From S2P Require Import Prelude RustInt Clap Crypto Common Fsverity Merkle Builder File Os Fuse Poll.
From S2P Require Import FdServer LocalFile Verifier Editor RemoteFile AuthFs AuthFsMain Compos.

(** Descriptors and sizes as the system has them, every descriptor once. *)
Definition is_fd (fd : Z) : Prop := 0 ≤ fd ≤ i32_max.
Record metadata_ok (md : Metadata) : Prop := {
  ok_inputs : Forall (λ a, is_fd (input_fd a) ∧ 0 ≤ input_file_size a ≤ i64_max) (input_fd_annotations md);
  ok_outputs : Forall (λ a, is_fd (output_fd a)) (output_fd_annotations md);
  ok_distinct : NoDup ((input_fd <$> input_fd_annotations md) ++ (output_fd <$> output_fd_annotations md));
}.

(** ** Numbers in command lines *)
Lemma show_fd_digits fd : 0 ≤ fd < 10 ^ 20 → all_digits (show_int fd) = true.
Proof.
  intros Hfd. unfold show_int. rewrite (proj2 (Z.ltb_ge _ _)) by lia.
  by destruct (show_digits_spec 20 fd) as [_ ?]; [change (Z.of_nat 20) with 20; lia|].
Qed.

Lemma parse_show_i32 fd : is_fd fd → parse_i32 (show_int fd) = Some fd.
Proof. unfold is_fd, i32_max. intros. apply parse_show_int; unfold i32_max; [lia..|by right]. Qed.
Lemma parse_show_u64 z : 0 ≤ z ≤ i64_max → parse_u64 (show_int z) = Some z.
Proof. unfold i64_max. intros. apply parse_show_int; unfold u64_limit; [lia..|left; lia]. Qed.
Lemma is_fd_size fd : is_fd fd → 0 ≤ fd ≤ i64_max.
Proof. unfold is_fd, i32_max, i64_max. lia. Qed.
Lemma size_small z : 0 ≤ z ≤ i64_max → 0 ≤ z < 10 ^ 20.
Proof. unfold i64_max. lia. Qed.

#[export] Hint Resolve is_fd_size size_small parse_show_i32 parse_show_u64 : rust.

Lemma split_at_colon_digits s1 s2 :
  all_digits s1 = true → Worker.split_at_colon (s1 +:+ String ":" s2) = Some (s1, s2).
Proof.
  induction s1 as [|a s1 IH]; [done|]. rewrite string_app_cons. simpl.
  intros [Ha%bool_decide_eq_true Hs]%andb_true_iff.
  destruct (Ascii.eqb_spec a ":"); [subst; by destruct Ha|]. by rewrite (IH Hs).
Qed.

Lemma mapM_fmap_Ok {E A B C} (f : B → outcome E C) (s : A → B) (g : A → C) l :
  Forall (λ x, f (s x) = Ok (g x)) l → mapM f (s <$> l) = Ok (g <$> l).
Proof. induction 1 as [|x l Hx _ IH]; [done|]. rewrite fmap_cons. cbn [mapM]. rewrite Hx. simpl. by rewrite IH. Qed.

Lemma parse_in_fd_arg a :
  is_fd (input_fd a) → 0 ≤ input_file_size a ≤ i64_max →
  Worker.parse_in_fd (CompService.in_fd_arg a) =
    Ok {| Worker.in_fd := input_fd a; Worker.file_size := input_file_size a |}.
Proof.
  intros Hfd Hsz. unfold Worker.parse_in_fd, CompService.in_fd_arg.
  rewrite (string_app_cons ":"), string_app_nil, split_at_colon_digits by auto using show_fd_digits with rust.
  cbn [ok_or mbind outcome_bind]. rewrite parse_show_i32, parse_show_u64 by done. done.
Qed.

Lemma split_on_number z : 0 ≤ z ≤ i64_max → split_on ":" (show_int z) = [show_int z].
Proof. unfold i64_max. intros. apply split_on_show_int. lia. Qed.

Lemma parse_in_fd_option fd size :
  is_fd fd → 0 ≤ size ≤ i64_max →
  parse_remote_ro_file_unverified_option
      (Worker.in_fd_option {| Worker.in_fd := fd; Worker.file_size := size |}) =
    Ok {| un_ino := fd; un_remote_id := fd; un_file_size := size |}.
Proof.
  intros Hfd Hsz. unfold parse_remote_ro_file_unverified_option, Worker.in_fd_option.
  cbn [Worker.in_fd Worker.file_size].
  rewrite !(string_app_cons ":"), !string_app_nil, !split_on_app_sep, !split_on_number
    by auto with rust. cbn [app].
  rewrite !parse_show_u64, parse_show_i32 by auto with rust. done.
Qed.

Lemma parse_out_fd_option fd :
  is_fd fd →
  parse_remote_new_rw_file_option (Worker.out_fd_option {| Worker.out_fd := fd |}) =
    Ok {| rw_ino := fd; rw_remote_id := fd |}.
Proof.
  intros Hfd. unfold parse_remote_new_rw_file_option, Worker.out_fd_option. cbn [Worker.out_fd].
  rewrite !(string_app_cons ":"), !string_app_nil, !split_on_app_sep, !split_on_number
    by auto with rust. cbn [app].
  rewrite parse_show_u64, parse_show_i32 by auto with rust. done.
Qed.

(** ** Command lines read back *)
Lemma bind_fmap_list {A B C} (f : A → B) (g : B → list C) l : (f <$> l) ≫= g = l ≫= λ a, g (f a).
Proof. induction l as [|a l IH]; [done|]. by rewrite fmap_cons, !bind_cons, IH. Qed.

(** A group of numbers is a group of plain words. *)
Lemma plain_numbers {A} app name (f : A → Z) (s : A → string) l :
  (∀ v, plain_word false v = true → item_ok app (Opt name v) = true) →
  Forall (λ a, 0 ≤ f a) l →
  Forall (λ v, item_ok app (Opt name v) = true) ((λ a, show_int (f a) +:+ s a) <$> l).
Proof.
  intros Hok Hl. apply Forall_fmap. eapply Forall_impl; [done|]. intros a Ha.
  by apply Hok, plain_word_number.
Qed.

Lemma slice_tail {E} (x : string) l : slice (E := E) (x :: l) 1 (zlen (x :: l)) = Ok l.
Proof.
  unfold slice. rewrite (proj2 (Z.leb_le _ _)), (proj2 (Z.leb_le 1 _)), Z.leb_refl by (simpl; lia).
  cbn [andb]. change (drop (Z.to_nat 1) (x :: l)) with l. f_equal. apply take_ge. simpl length. lia.
Qed.

Lemma string_app_nil_r s : s +:+ "" = s.
Proof. induction s as [|a s IH]; [done|]. by rewrite string_app_cons, IH. Qed.

Section roundtrip.
Context {clap : Clap} `{!ClapSpec clap}.

Lemma fd_server_matches md :
  metadata_ok md →
  ∃ m, get_matches fd_server_app (PvmExec.fd_server_args md) = Some m ∧
    default [] (values_of m "ro-fds") = (λ a, show_int (input_fd a)) <$> input_fd_annotations md ∧
    default [] (values_of m "rw-fds") = (λ a, show_int (output_fd a)) <$> output_fd_annotations md.
Proof.
  intros [Hin Hout _].
  set (groups := [("ro-fds", (λ a, show_int (input_fd a) +:+ "") <$> input_fd_annotations md);
                  ("rw-fds", (λ a, show_int (output_fd a) +:+ "") <$> output_fd_annotations md)]).
  destruct (group_matches fd_server_app PvmExec.FD_SERVER_BIN [] groups [] None) as (m & Hm & Hv & _).
  - apply (bool_decide_unpack _). by vm_compute.
  - unfold usage_ok. rewrite items_of_ok; [|repeat constructor|constructor].
    + reflexivity.
    + apply (plain_numbers _ _ input_fd (λ _, "")); [intros v Hw; simpl; by rewrite Hw|].
      eapply Forall_impl; [done|]. by intros a [[? _] _].
    + apply (plain_numbers _ _ output_fd (λ _, "")); [intros v Hw; simpl; by rewrite Hw|].
      eapply Forall_impl; [done|]. by intros a [? _].
  - exists m. split_and!.
    + rewrite <- Hm. f_equal. unfold PvmExec.fd_server_args. subst groups. simpl.
      rewrite !app_nil_r, !bind_fmap_list. do 2 f_equal; apply list_bind_ext; try done; intros a;
        by rewrite string_app_nil_r.
    + pose proof (Hv (option_values "ro-fds") ltac:(by repeat constructor) eq_refl eq_refl) as Hn.
      simpl in Hn. rewrite Hn, app_nil_r. apply list_fmap_ext. intros ? a _. by rewrite string_app_nil_r.
    + pose proof (Hv (option_values "rw-fds") ltac:(by repeat constructor) eq_refl eq_refl) as Hn.
      simpl in Hn. rewrite Hn, app_nil_r. apply list_fmap_ext. intros ? a _. by rewrite string_app_nil_r.
Qed.

(** What the worker reads from the command line of the service. *)
Definition worker_config (svc : CompService) (rest : list string) (md : Metadata) : Worker.Config :=
  {| Worker.authfs_root := CompService.AUTHFS_MOUNTPOINT;
     Worker.in_fds := (λ a, {| Worker.in_fd := input_fd a; Worker.file_size := input_file_size a |})
                      <$> input_fd_annotations md;
     Worker.out_fds := (λ a, {| Worker.out_fd := output_fd a |}) <$> output_fd_annotations md;
     Worker.args := task_bin svc :: rest;
     Worker.debuggable := service_debuggable svc |}.

(** The options and flags of that command line. *)
Definition worker_outs md : list string := (λ a, show_int (output_fd a) +:+ "") <$> output_fd_annotations md.
Definition worker_groups md : list (string * list string) :=
  [("authfs-root", [CompService.AUTHFS_MOUNTPOINT]);
   ("in-fd", CompService.in_fd_arg <$> input_fd_annotations md); ("out-fd", worker_outs md)].
Definition worker_flags (svc : CompService) : list string :=
  if service_debuggable svc then ["debug"] else [].

Lemma worker_usage svc rest md :
  metadata_ok md →
  usage_ok Worker.app [] (items_of (worker_groups md) (worker_flags svc)) (Some (task_bin svc :: rest)) = true.
Proof.
  intros [Hin Hout _]. unfold usage_ok. rewrite items_of_ok.
  - cbn [Worker.app forallb with_name]. unfold count_ok.
    rewrite !given_items_of by done. unfold worker_groups, worker_flags. cbn.
    destruct (service_debuggable svc); reflexivity.
  - repeat constructor.
    + apply (plain_numbers _ _ input_fd (λ a, ":" +:+ show_int (input_file_size a)));
        [intros v Hw; simpl; by rewrite Hw|].
      eapply Forall_impl; [done|]. by intros a [[? _] _].
    + apply (plain_numbers _ _ output_fd (λ _, "")); [intros v Hw; simpl; by rewrite Hw|].
      eapply Forall_impl; [done|]. by intros a [? _].
  - unfold worker_flags. by destruct (service_debuggable svc); repeat constructor.
Qed.

Lemma worker_line svc arg0 rest md :
  CompService.build_worker_args (E := Status) svc (arg0 :: rest) md =
    Ok (CompService.WORKER_BIN :: [] ++ (worker_groups md ≫= λ g, g.2 ≫= λ v, [dashes g.1; v]) ++
        (dashes <$> worker_flags svc) ++ "--" :: task_bin svc :: rest).
Proof.
  unfold CompService.build_worker_args. rewrite slice_tail. cbn [mbind outcome_bind]. f_equal.
  unfold worker_groups, worker_flags, worker_outs. simpl. rewrite app_nil_r, !bind_fmap_list.
  do 3 f_equal. rewrite <- (assoc_L (++)). f_equal. f_equal.
  - apply list_bind_ext; [|done]. intros a. by rewrite string_app_nil_r.
  - by destruct (service_debuggable svc).
Qed.

Lemma worker_reads_back svc arg0 rest md :
  metadata_ok md →
  ∃ worker_args, CompService.build_worker_args (E := Status) svc (arg0 :: rest) md = Ok worker_args ∧
    Worker.parse_args worker_args = Ok (worker_config svc rest md).
Proof.
  intros Hmd. pose proof Hmd as [Hin Hout _]. eexists. split; [apply worker_line|].
  destruct (group_matches Worker.app CompService.WORKER_BIN [] (worker_groups md) (worker_flags svc)
    (Some (task_bin svc :: rest))) as (m & Hm & Hv & Hf & _ & Hl);
    [apply (bool_decide_unpack _); by vm_compute|by apply worker_usage|].
  unfold Worker.parse_args. rewrite Hm. cbn [ok_or mbind outcome_bind].
  pose proof (Hv (required_option "authfs-root") ltac:(by repeat constructor) eq_refl eq_refl) as Hroot.
  pose proof (Hv (option_values "in-fd") ltac:(by repeat constructor) eq_refl eq_refl) as Hi.
  pose proof (Hv (option_values "out-fd") ltac:(by repeat constructor) eq_refl eq_refl) as Ho.
  pose proof (Hf (switch "debug") ltac:(by repeat constructor) eq_refl eq_refl) as Hd.
  pose proof (Hl (required_last "args") ltac:(by repeat constructor) eq_refl eq_refl) as Ha.
  simpl in Hroot, Hi, Ho, Hd, Ha. rewrite app_nil_r in Hi, Ho. rewrite Hi, Ho, Ha, Hd.
  assert (value_of m "authfs-root" = Some CompService.AUTHFS_MOUNTPOINT) as ->.
  { unfold value_of. destruct (values_of m "authfs-root"); simpl in Hroot; by simplify_eq/=. }
  cbn [unwrap mbind outcome_bind].
  erewrite (mapM_fmap_Ok Worker.parse_in_fd CompService.in_fd_arg). 2:{
    eapply Forall_impl; [exact Hin|]. intros a [Hfd Hsz]. by apply parse_in_fd_arg. }
  cbn [mbind outcome_bind]. unfold worker_outs.
  erewrite (mapM_fmap_Ok Worker.parse_out_fd _ (λ a, {| Worker.out_fd := output_fd a |})). 2:{
    eapply Forall_impl; [exact Hout|]. intros a Hfd. rewrite string_app_nil_r.
    unfold Worker.parse_out_fd. by rewrite parse_show_i32. }
  cbn [mbind outcome_bind]. unfold worker_config. do 2 f_equal. unfold worker_flags.
  by destruct (service_debuggable svc).
Qed.

(** The options of the authfs that the worker starts. *)
Definition authfs_groups svc rest md : list (string * list string) :=
  [("remote-ro-file-unverified", Worker.in_fd_option <$> Worker.in_fds (worker_config svc rest md));
   ("remote-new-rw-file", Worker.out_fd_option <$> Worker.out_fds (worker_config svc rest md))].

Lemma authfs_usage svc rest md :
  metadata_ok md →
  usage_ok authfs_app [CompService.AUTHFS_MOUNTPOINT] (items_of (authfs_groups svc rest md) []) None = true.
Proof.
  intros [Hin Hout _]. unfold usage_ok. rewrite items_of_ok; [|repeat constructor|constructor].
  - cbn [authfs_app forallb with_name]. unfold count_ok. by rewrite (given_items_of (switch "debug")).
  - unfold worker_config. cbn [fst snd Worker.in_fds]. rewrite <- list_fmap_compose.
    apply (plain_numbers authfs_app _ input_fd (λ a, ":" +:+ show_int (input_fd a) +:+ ":" +:+
      show_int (input_file_size a))); [intros v Hw; simpl; by rewrite Hw|].
    eapply Forall_impl; [done|]. by intros a [[? _] _].
  - unfold worker_config. cbn [fst snd Worker.out_fds]. rewrite <- list_fmap_compose.
    apply (plain_numbers authfs_app _ output_fd (λ a, ":" +:+ show_int (output_fd a)));
      [intros v Hw; simpl; by rewrite Hw|].
    eapply Forall_impl; [done|]. by intros a [? _].
Qed.

Lemma authfs_reads_back svc rest md :
  metadata_ok md →
  ∃ args, Args_from_args (Worker.authfs_args (worker_config svc rest md)) = Ok args ∧
    args = {| mount_point := CompService.AUTHFS_MOUNTPOINT; remote_ro_file := [];
              remote_ro_file_unverified :=
                (λ a, {| un_ino := input_fd a; un_remote_id := input_fd a;
                         un_file_size := input_file_size a |}) <$> input_fd_annotations md;
              remote_new_rw_file :=
                (λ a, {| rw_ino := output_fd a; rw_remote_id := output_fd a |})
                <$> output_fd_annotations md;
              local_ro_file := []; local_ro_file_unverified := []; arg_debug := false |}.
Proof.
  intros Hmd. pose proof Hmd as [Hin Hout _]. eexists. split; [|reflexivity].
  destruct (group_matches authfs_app Worker.AUTHFS_BIN [CompService.AUTHFS_MOUNTPOINT]
    (authfs_groups svc rest md) [] None) as (m & Hm & Hv & Hf & Hp & _);
    [apply (bool_decide_unpack _); by vm_compute|by apply authfs_usage|].
  unfold Args_from_args.
  match type of Hm with _ _ ?argv = _ => match goal with |- context [get_matches _ ?argv'] =>
    assert (argv' = argv) as -> end end.
  { unfold authfs_groups, Worker.authfs_args, worker_config. simpl.
    by rewrite !app_nil_r, !bind_fmap_list. }
  rewrite Hm. cbn [ok_or mbind outcome_bind].
  assert (∀ name, option_values name ∈ authfs_app →
    default [] (values_of m name) =
      authfs_groups svc rest md ≫= λ g, if decide (g.1 = name) then g.2 else []) as Hvals
    by (intros name Ha; by apply (Hv (option_values name))).
  pose proof (Hp (required_positional "mount-point") 0%nat eq_refl) as Hmp.
  pose proof (Hf (switch "debug") ltac:(by repeat constructor) eq_refl eq_refl) as Hd.
  simpl in Hmp, Hd. unfold value_of. rewrite Hmp, Hd. cbn [mbind option_bind head unwrap outcome_bind].
  rewrite !Hvals by (by repeat constructor). simpl. rewrite !app_nil_r.
  unfold worker_config. cbn [Worker.in_fds Worker.out_fds].
  rewrite <- !list_fmap_compose.
  erewrite (mapM_fmap_Ok parse_remote_ro_file_unverified_option). 2:{
    eapply Forall_impl; [exact Hin|]. intros a [Hfd Hsz]. by apply parse_in_fd_option. }
  cbn [mbind outcome_bind].
  erewrite (mapM_fmap_Ok parse_remote_new_rw_file_option). 2:{
    eapply Forall_impl; [exact Hout|]. intros a Hfd. by apply parse_out_fd_option. }
  reflexivity.
Qed.
End roundtrip.

(** ** The pools of the two servers *)

(** The pool after one entry for each descriptor. *)
Definition insert_all {A V} (key : A → Z) (value : A → V) (l : list A) (pool : gmap Z V) : gmap Z V :=
  foldl (λ pool a, <[key a := value a]> pool) pool l.

Lemma insert_all_lookup {A V} (key : A → Z) (value : A → V) l pool a :
  NoDup (key <$> l) → a ∈ l → insert_all key value l pool !! key a = Some (value a).
Proof.
  revert pool. induction l as [|b l IH]; intros pool Hnd Ha; [by apply not_elem_of_nil in Ha|].
  rewrite fmap_cons, NoDup_cons in Hnd. destruct Hnd as [Hb Hnd]. cbn [insert_all foldl].
  apply elem_of_cons in Ha as [->|Ha]; [|by apply IH]. clear IH.
  assert (∀ pool, pool !! key b = Some (value b) → key b ∉ key <$> l →
    insert_all key value l pool !! key b = Some (value b)) as Hkeep.
  { clear. induction l as [|c l IH]; intros pool Hp Hn; [done|]. cbn [insert_all foldl].
    rewrite fmap_cons, not_elem_of_cons in Hn. apply IH; [|tauto].
    rewrite lookup_insert_ne by (intros He; by destruct Hn). done. }
  apply Hkeep; [apply lookup_insert_eq|done].
Qed.

Lemma insert_all_other {A V} (key : A → Z) (value : A → V) l pool i :
  i ∉ key <$> l → insert_all key value l pool !! i = pool !! i.
Proof.
  revert pool. induction l as [|b l IH]; intros pool Hi; [done|].
  rewrite fmap_cons, not_elem_of_cons in Hi. cbn [insert_all foldl].
  change (foldl _ ?p l) with (insert_all key value l p). rewrite IH by tauto.
  apply lookup_insert_ne. intros ?. by destruct Hi.
Qed.

Section pools.
Implicit Types (t : file_table).

Lemma insert_args_all {A} (parse : string → M file_table FdServerError (Z * FdConfig)) (key : A → Z)
    (value : A → FdConfig) l pool t :
  Forall (λ a, parse (show_int (key a)) t = (Ok (key a, value a), t)) l →
  NoDup (key <$> l) → (∀ a, a ∈ l → pool !! key a = None) →
  insert_args parse ((λ a, show_int (key a)) <$> l) pool t = (Ok (insert_all key value l pool), t).
Proof.
  intros Hl. revert pool. induction Hl as [|a l Ha Hl IH]; intros pool Hnd Hnone; [done|].
  rewrite fmap_cons in *. apply NoDup_cons in Hnd as [Hn Hnd]. cbn [insert_args].
  rewrite (M_bind_Ok _ _ _ _ _ Ha).
  assert (pool_insert (W := file_table) pool (key a) (value a) t =
          (Ok (<[key a := value a]> pool), t)) as Hp.
  { unfold pool_insert. by rewrite (Hnone a) by constructor. }
  rewrite (M_bind_Ok _ _ _ _ _ Hp). apply IH; [done|].
  intros b Hb. rewrite lookup_insert_ne; [apply Hnone; by constructor|].
  intros He. destruct Hn. rewrite He. by apply list_elem_of_fmap_2.
Qed.

(** The descriptors of the caller: open, and the outputs empty. *)
Definition fds_open (md : Metadata) t : Prop :=
  Forall (λ a, is_Some (t !! input_fd a)) (input_fd_annotations md) ∧
  Forall (λ a, t !! output_fd a = Some []) (output_fd_annotations md).

Definition served_pool (md : Metadata) : gmap Z FdConfig :=
  insert_all output_fd (λ a, ReadWrite (output_fd a)) (output_fd_annotations md)
    (insert_all input_fd (λ a, Readonly (input_fd a) None None) (input_fd_annotations md) ∅).

Lemma fd_server_pool {clap : Clap} `{!ClapSpec clap} md t :
  metadata_ok md → fds_open md t →
  parse_command_line (PvmExec.fd_server_args md) t = (Ok (served_pool md), t).
Proof.
  intros Hok [Ho1 Ho2]. destruct (fd_server_matches md Hok) as (m & Hm & Hro & Hrw).
  destruct Hok as [Hin Hout Hnd]. apply NoDup_app in Hnd as (Hnd1 & Hdis & Hnd2).
  unfold parse_command_line. rewrite Hm. cbn [ok_or]. rewrite bind_lift_Ok, Hro, Hrw.
  unfold parse_args.
  assert (∀ fd, is_fd fd → - 2 ^ 31 ≤ fd ≤ i32_max) as Hrange by (unfold is_fd, i32_max; lia).
  rewrite (M_bind_Ok _ _ _ (insert_all input_fd (λ a, Readonly (input_fd a) None None)
    (input_fd_annotations md) ∅) t).
  - apply insert_args_all; [|done|].
    + apply Forall_forall. intros a Ha. rewrite Forall_forall in Ho2, Hout.
      specialize (Hout a Ha). specialize (Ho2 a Ha). unfold parse_arg_rw_fds.
      rewrite parse_show_i32 by done. cbn [ok_or]. rewrite bind_lift_Ok.
      assert (fd_to_file (W := file_table) (output_fd a) t = (Ok (output_fd a), t)) as Hf.
      { unfold fd_to_file, is_fd_valid. simpl. by rewrite decide_True by by eexists. }
      rewrite (M_bind_Ok _ _ _ _ _ Hf). unfold mbind, M_bind, m_map_err. simpl. by rewrite Ho2.
    + intros a Ha. rewrite insert_all_other; [apply lookup_empty|].
      intros Hi. apply (Hdis _ Hi). by apply list_elem_of_fmap_2.
  - apply insert_args_all; [|done|intros; apply lookup_empty].
    apply Forall_forall. intros a Ha. rewrite Forall_forall in Ho1, Hin.
    destruct (Hin a Ha) as [Hfd _]. specialize (Ho1 a Ha).
    destruct (ro_fds_roundtrip (input_fd a) (input_fd a) (input_fd a) t) as [Hr _]; [done..| |done].
    repeat constructor; by apply Hrange.
Qed.
End pools.

Section authfs_pool.
Context `{!Sha256FFI} {bm : BuildMode} {W S : Type}.
Context `{!FileOps W, !PathOps W, !IVirtFdService W S} (service : S).

Lemma insert_configs_all {Opt} (ino : Opt → Z) new_config (value : Opt → FileConfig S) pool opts (w : W) :
  (∀ opt w, new_config opt w = (Ok (value opt), w)) →
  insert_configs ino new_config pool opts w = (Ok (insert_all ino value opts pool), w).
Proof.
  intros Hnew. revert pool. induction opts as [|opt opts IH]; intros pool; [done|].
  unfold insert_configs in *. cbn [mfold]. rewrite M_bind_assoc, (M_bind_Ok _ _ _ _ _ (Hnew opt w)).
  erewrite (M_bind_Ok (mret _)) by done. apply IH.
Qed.

(** The files of the task. *)
Definition input_config (a : InputFdAnnotation) : FileConfig S :=
  RemoteUnverifiedReadonlyFile {| reader_service := service; reader_fd := input_fd a |} (input_file_size a).
Definition output_config (a : OutputFdAnnotation) : FileConfig S :=
  RemoteVerifiedNewFile
    (VerifiedFileEditor.new {| editor_service := service; editor_fd := output_fd a |}).1.
Definition mounted_pool (md : Metadata) : gmap Z (FileConfig S) :=
  insert_all output_fd output_config (output_fd_annotations md)
    (insert_all input_fd input_config (input_fd_annotations md) ∅).

Lemma insert_all_fmap {A B V} (f : A → B) (key : B → Z) (value : B → V) l pool :
  insert_all key value (f <$> l) pool = insert_all (λ a, key (f a)) (λ a, value (f a)) l pool.
Proof. unfold insert_all. apply foldl_fmap. Qed.

Lemma authfs_pool {clap : Clap} `{!ClapSpec clap} svc rest md (w : W) :
  metadata_ok md →
  ∃ args, Args_from_args (Worker.authfs_args (worker_config svc rest md)) = Ok args ∧
    prepare_file_pool service args w = (Ok (mounted_pool md), w).
Proof.
  intros Hok. destruct (authfs_reads_back svc rest md Hok) as (args & Hargs & ->).
  eexists. split; [done|]. unfold prepare_file_pool.
  cbn [remote_ro_file remote_ro_file_unverified remote_new_rw_file local_ro_file local_ro_file_unverified].
  erewrite (M_bind_Ok (insert_configs _ _ _ [])) by done.
  erewrite M_bind_Ok by (by apply (insert_configs_all _ _ (λ c, RemoteUnverifiedReadonlyFile
    {| reader_service := service; reader_fd := un_remote_id c |} (un_file_size c)))).
  erewrite M_bind_Ok by (by apply (insert_configs_all _ _ (λ c, RemoteVerifiedNewFile
    (VerifiedFileEditor.new {| editor_service := service; editor_fd := rw_remote_id c |}).1))).
  erewrite (M_bind_Ok (insert_configs _ _ _ [])) by done.
  unfold insert_configs. cbn [mfold]. unfold mret, M_ret. by rewrite !insert_all_fmap.
Qed.
End authfs_pool.

(** Every descriptor is in both pools under its own number. *)
Lemma pools_lookup `{!Sha256FFI} {S : Type} (service : S) md :
  metadata_ok md →
  (∀ a, a ∈ input_fd_annotations md →
     served_pool md !! input_fd a = Some (Readonly (input_fd a) None None) ∧
     mounted_pool service md !! input_fd a = Some (input_config service a)) ∧
  (∀ a, a ∈ output_fd_annotations md →
     served_pool md !! output_fd a = Some (ReadWrite (output_fd a)) ∧
     mounted_pool service md !! output_fd a = Some (output_config service a)).
Proof.
  intros Hok. pose proof (ok_distinct _ Hok) as Hnd. apply NoDup_app in Hnd as (Hnd1 & Hdis & Hnd2).
  split; intros a Hin; unfold served_pool, mounted_pool.
  - assert (input_fd a ∉ output_fd <$> output_fd_annotations md)
      by by apply Hdis, list_elem_of_fmap_2.
    rewrite !(insert_all_other output_fd) by done. by rewrite !insert_all_lookup.
  - by rewrite !insert_all_lookup.
Qed.

(** ** Claims *)

(** C18: The task finds exactly the caller's files.  For the open descriptors of a call, each named
    once and the outputs empty: the worker reads back from its command line what the service was
    asked for, with the service's own program in front; the server that [pvm_exec] starts serves
    every input read-only and every output for writing; and the authfs that the worker mounts has
    under each descriptor's number the remote file of that number, inputs with their size, outputs
    as verified new files.  No other file is in either pool. *)
Theorem compos_files_connected {clap : Clap} `{!ClapSpec clap, !Sha256FFI} {bm : BuildMode} {W S : Type}
    `{!FileOps W, !PathOps W, !IVirtFdService W S}
    (svc : CompService) arg0 rest md t (service : S) (w : W) :
  metadata_ok md → fds_open md t →
  ∃ worker_args config args served mounted,
    CompService.build_worker_args (E := Status) svc (arg0 :: rest) md = Ok worker_args ∧
    Worker.parse_args worker_args = Ok config ∧
    Worker.args config = task_bin svc :: rest ∧
    Args_from_args (Worker.authfs_args config) = Ok args ∧
    prepare_file_pool service args w = (Ok mounted, w) ∧
    parse_command_line (PvmExec.fd_server_args md) t = (Ok served, t) ∧
    (∀ a, a ∈ input_fd_annotations md →
       served !! input_fd a = Some (Readonly (input_fd a) None None) ∧
       mounted !! input_fd a = Some (input_config service a)) ∧
    (∀ a, a ∈ output_fd_annotations md →
       served !! output_fd a = Some (ReadWrite (output_fd a)) ∧
       mounted !! output_fd a = Some (output_config service a)) ∧
    (∀ i, i ∉ input_fd <$> input_fd_annotations md → i ∉ output_fd <$> output_fd_annotations md →
       served !! i = None ∧ mounted !! i = None).
Proof.
  intros Hok Hopen. destruct (worker_reads_back svc arg0 rest md Hok) as (wargs & Hw & Hp).
  destruct (authfs_pool service svc rest md w Hok) as (args & Ha & Hpool).
  exists wargs, (worker_config svc rest md), args, (served_pool md), (mounted_pool service md).
  pose proof (fd_server_pool md t Hok Hopen) as Hs. destruct (pools_lookup service md Hok) as [Hi Ho].
  split_and!; try done. intros i Hi1 Hi2. unfold served_pool, mounted_pool.
  rewrite !(insert_all_other output_fd), !(insert_all_other input_fd) by done.
  by rewrite !lookup_empty.
Qed.

Section wait.
Context {W : Type} `{!MountEnv W, !MountClock W}.

(** How a wait that began at [start] may end in [w']. *)
Definition wait_result (root : string) (start : Z) (r : outcome Worker.Error unit) (w' : W) : Prop :=
  match r with
  | Ok _ => ∃ w, statfs_type root w = (Ok Worker.FUSE_SUPER_MAGIC, w')
  | Err Worker.TimeOut => Worker.AUTHFS_SETUP_TIMEOUT_SEC < instant_now w' - start
  | Err (Worker.IoError e) => ∃ w, statfs_type root w = (Err e, w')
  | Panic => ∃ w, statfs_type root w = (Panic, w')
  | Err _ | OutOfFuel => False
  end.

(** C28: Waiting for authfs ends.  However [statfs] answers, the worker stops waiting after at most
    202 polls: it has seen the mounted file system, or failed to ask, or more than ten seconds have
    passed since it began. *)
Theorem worker_wait_ends root (w : W) :
  let '(r, w') := Worker.wait_until_authfs_ready root w in wait_result root (instant_now w) r w'.
Proof.
  unfold Worker.wait_until_authfs_ready. erewrite (M_bind_Ok get_state) by done.
  pose proof (poll_statfs_ends root Worker.FUSE_SUPER_MAGIC Worker.IoError
    Worker.AUTHFS_SETUP_POLL_INTERVAL_MS Worker.AUTHFS_SETUP_TIMEOUT_SEC Worker.TimeOut 202 w) as Hp.
  unfold Worker.is_fuse. fold (has_type (W := W) root Worker.FUSE_SUPER_MAGIC Worker.IoError).
  destruct (poll _ _ _ _ _ _ _) as [[[]|e| |] w']; specialize (Hp ltac:(lia) ltac:(done) ltac:(done));
    [done| |done..].
  by destruct Hp as [(e0 & w1 & -> & Hs)|[-> Hlate]]; [eexists|].
Qed.
End wait.

(** ** Instances *)
Section instances.
#[local] Existing Instances boringssl release plain_clap.
#[local] Instance demo_no_verity : VerityIoctl file_table := λ _ _ _, throw 95.
#[local] Instance demo_paths : PathOps file_table :=
  {| open_path _ := throw (OsError ENOENT); read_to_end _ := throw (OsError EBADF) |}.

Definition demo_metadata : Metadata := {|
  input_fd_annotations := [{| input_fd := 3; input_file_size := 5 |}; {| input_fd := 7; input_file_size := 0 |}];
  output_fd_annotations := [{| output_fd := 4 |}] |}.
Definition demo_service : CompService :=
  {| worker_bin := CompService.WORKER_BIN; task_bin := "/system/bin/dex2oat"; service_debuggable := true |}.
Definition demo_table : file_table := {[ 3 := zeros 5; 4 := []; 7 := [] ]}.

Lemma demo_metadata_ok : metadata_ok demo_metadata.
Proof.
  split.
  - repeat constructor; simpl; unfold i32_max, i64_max; lia.
  - repeat constructor; simpl; unfold i32_max; lia.
  - apply (bool_decide_unpack _). by vm_compute.
Qed.

Lemma demo_fds_open : fds_open demo_metadata demo_table.
Proof. split; repeat constructor; by eexists. Qed.

Lemma compos_files_connected_witness :
  ∃ worker_args config args served mounted,
    CompService.build_worker_args (E := Status) demo_service ["sh"; "-v"] demo_metadata = Ok worker_args ∧
    Worker.parse_args worker_args = Ok config ∧
    Worker.args config = ["/system/bin/dex2oat"; "-v"] ∧
    Args_from_args (Worker.authfs_args config) = Ok args ∧
    prepare_file_pool {| fd_pool := ∅ |} args demo_table = (Ok mounted, demo_table) ∧
    parse_command_line (PvmExec.fd_server_args demo_metadata) demo_table = (Ok served, demo_table) ∧
    served !! 3 = Some (Readonly 3 None None) ∧ served !! 4 = Some (ReadWrite 4).
Proof.
  destruct (compos_files_connected (S := FdService) demo_service "sh" ["-v"] demo_metadata demo_table
              {| fd_pool := ∅ |} demo_table demo_metadata_ok demo_fds_open)
    as (wa & c & a & s & m & H1 & H2 & H3 & H4 & H5 & H6 & H7 & H8 & _).
  exists wa, c, a, s, m. split_and!; try assumption.
  - apply (H7 {| input_fd := 3; input_file_size := 5 |}). constructor.
  - apply (H8 {| output_fd := 4 |}). constructor.
Defined.

(** A clock and a file system that is mounted after three seconds. *)
#[local] Instance demo_env : MountEnv Z := {|
  statfs_type _ w := (Ok (if 3000 <=? w then Worker.FUSE_SUPER_MAGIC else 0), w);
  instant_now w := w;
  sleep d w := w + d;
|}.
#[local] Instance demo_clock : MountClock Z.
Proof. split; simpl; [done|lia|lia]. Qed.

Lemma worker_wait_ends_witness :
  Worker.wait_until_authfs_ready (W := Z) "/mnt" 0 = (Ok tt, 3000) ∧
  wait_result (W := Z) "/mnt" 0 (Ok tt) 3000.
Proof.
  assert (Worker.wait_until_authfs_ready (W := Z) "/mnt" 0 = (Ok tt, 3000)) as Hw by reflexivity.
  split; [exact Hw|]. pose proof (worker_wait_ends "/mnt" (0 : Z)) as Hr. rewrite Hw in Hr. exact Hr.
Defined.
End instances.
