(* ===== verification/ComposFlow.v ===== *)
(** * The files of a compilation task, end to end

    A task names the caller's files by descriptor number under the mount point.
    Its requests go through the authfs that the worker mounted, the binder
    calls of the remote files and the server that [pvm_exec] started, to the
    descriptors of the caller.  Here the chain is run as a whole, on the pools
    that the command lines set up: it behaves as one table of files. *)
From S2P Require Import Prelude RustInt Clap Crypto Common Fsverity Merkle Builder File Os Fuse.
From S2P Require Import FdServer LocalFile Verifier Editor RemoteFile AuthFs AuthFsProps AuthFsMain.
From S2P Require Import Compos ComposProps.

(** ** The task and its files *)
Inductive task_call :=
| TaskRead (fd size offset : Z)
| TaskWrite (fd : Z) (buf : list byte) (offset : Z)
| TaskTruncate (fd size : Z).

(** What a call gives: a count and the bytes read. *)
Definition task_result : Type := Z * list byte.

Definition FUSE_ROOT_ID : Z := 1.
Definition O_RDWR : Z := 2.
(** [ftruncate]: only the size is valid. *)
Definition size_attr (size : Z) : stat64 :=
  {| st_ino := 0; st_mode := 0; st_dev := 0; st_nlink := 0; st_uid := 0; st_gid := 0; st_rdev := 0;
     st_size := size; st_blksize := 0; st_blocks := 0 |}.
Definition size_valid : SetattrValid := {| valid_MODE := false; valid_UID := false; valid_GID := false;
  valid_SIZE := true; valid_ATIME := false; valid_MTIME := false; valid_ATIME_NOW := false;
  valid_MTIME_NOW := false; valid_CTIME := false |}.

Section task.
Context `{!Sha256FFI} {bm : BuildMode} {wf : WriteFuel} {W S : Type}.
Context `{!FileOps W, !IVirtFdService W S}.

Definition task_open (fs : AuthFs S) (fd flags : Z) : M (fs_state W) io_error Z :=
  entry ← AuthFs.lookup fs FUSE_ROOT_ID (show_int fd);
  lift (AuthFs.open fs (entry_inode entry) flags);;
  mret (entry_inode entry).

(** The reply of a read, in a buffer of its own. *)
Definition task_read (fs : AuthFs S) (inode size offset : Z) : M (fs_state W) io_error task_result :=
  λ st, let '(r, (out, st)) := AuthFs.read fs inode size offset ([], st) in
        (n ← r; Ok (n, out), st).

Definition run_call (fs : AuthFs S) (call : task_call) : M (fs_state W) io_error task_result :=
  match call with
  | TaskRead fd size offset => inode ← task_open fs fd O_RDONLY; task_read fs inode size offset
  | TaskWrite fd buf offset =>
      inode ← task_open fs fd O_RDWR;
      n ← AuthFs.write fs inode buf (zlen buf) offset;
      mret (n, [])
  | TaskTruncate fd size =>
      inode ← task_open fs fd O_RDWR;
      AuthFs.setattr fs inode (size_attr size) size_valid;;
      mret (0, [])
  end.

Fixpoint run_task (fs : AuthFs S) (calls : list task_call) : M (fs_state W) io_error (list task_result) :=
  match calls with
  | [] => mret []
  | call :: calls => r ← run_call fs call; rs ← run_task fs calls; mret (r :: rs)
  end.
End task.

(** The specification: the caller's own files. *)
Definition spec_call (t : file_table) (call : task_call) : task_result * file_table :=
  match call with
  | TaskRead fd size offset =>
      let data := take (Z.to_nat size) (drop (Z.to_nat offset) (fd_content fd t)) in
      ((zlen data, data), t)
  | TaskWrite fd buf offset =>
      ((zlen buf, []), <[fd := overwrite (fd_content fd t) (Z.to_nat offset) buf]> t)
  | TaskTruncate fd size => ((0, []), <[fd := set_length (fd_content fd t) (Z.to_nat size)]> t)
  end.
Fixpoint spec_task (t : file_table) (calls : list task_call) : list task_result * file_table :=
  match calls with
  | [] => ([], t)
  | call :: calls =>
      let '(r, t) := spec_call t call in
      let '(rs, t) := spec_task t calls in
      (r :: rs, t)
  end.

(** The calls a task can expect to succeed: reads of its files, changes of its outputs. *)
Definition is_input (md : Metadata) (fd : Z) : Prop := fd ∈ input_fd <$> input_fd_annotations md.
Definition is_output (md : Metadata) (fd : Z) : Prop := fd ∈ output_fd <$> output_fd_annotations md.
Definition call_ok (md : Metadata) (call : task_call) : Prop :=
  match call with
  | TaskRead fd size offset =>
      (is_input md fd ∨ is_output md fd) ∧ 0 ≤ size < u32_limit ∧ 0 ≤ offset < u64_limit
  | TaskWrite fd buf offset => is_output md fd ∧ 0 ≤ offset ∧ offset + zlen buf ≤ i64_max
  | TaskTruncate fd size => is_output md fd ∧ 0 ≤ size ≤ i64_max
  end.
#[global] Instance call_ok_dec md call : Decision (call_ok md call).
Proof. destruct call; unfold call_ok, is_input, is_output; apply _. Defined.

(** The caller states the size of every input truly. *)
Definition sizes_true (md : Metadata) (t : file_table) : Prop :=
  Forall (λ a, zlen (fd_content (input_fd a) t) = input_file_size a) (input_fd_annotations md).

(** ** The chain *)
Section chain.
Context `{!Sha256FFI, !Sha256Spec} {bm : BuildMode} {wf : WriteFuel} `{!VerityIoctl file_table}.
Context (Hfuel : (csz < write_fuel)%nat) (md : Metadata) (Hmd : metadata_ok md) (max_write : Z).
Implicit Types (t : file_table) (st : fs_state file_table).

Definition task_service : FdService := {| fd_pool := served_pool md |}.
Definition task_fs : AuthFs FdService := AuthFs.new (mounted_pool task_service md) max_write.
Definition output_editor (fd : Z) : VerifiedFileEditor (RemoteFileEditor FdService) :=
  (VerifiedFileEditor.new {| editor_service := task_service; editor_fd := fd |}).1.

Record task_state t st : Prop := {
  state_table : st.2 = t;
  state_inputs : ∀ a, a ∈ input_fd_annotations md →
    ∃ c, t !! input_fd a = Some c ∧ zlen c = input_file_size a;
  state_outputs : ∀ fd, is_output md fd →
    ∃ c, t !! fd = Some c ∧ zlen c ≤ i64_max ∧ represents (AuthFs.tree_of fd st) c;
}.

Lemma task_state_same t st st' : same_files st st' → task_state t st → task_state t st'.
Proof.
  intros [Hw Htr] [Ht Hi Ho]. split; [by rewrite Hw|done|]. intros fd Hfd. rewrite Htr. by apply Ho.
Qed.

Lemma fd_number fd : is_fd fd → is_utf8 (show_int fd) = true ∧ parse_u64 (show_int fd) = Some fd.
Proof. intros Hfd. split; [apply is_utf8_show_int|]; eauto with rust. Qed.

Lemma is_output_pools fd :
  is_output md fd →
  is_fd fd ∧ fd_pool task_service !! fd = Some (ReadWrite fd) ∧
  file_pool task_fs !! fd = Some (RemoteVerifiedNewFile (output_editor fd)).
Proof.
  intros (a & -> & Ha)%list_elem_of_fmap.
  destruct (proj2 (pools_lookup task_service md Hmd) a Ha) as [Hs Hm].
  split; [by apply (proj1 (Forall_forall _ _) (ok_outputs _ Hmd))|done].
Qed.

(** A file is found and opened without being changed. *)
Lemma task_open_Ok fd config flags st :
  is_fd fd → file_pool task_fs !! fd = Some config → 0 ≤ config_size config fd st ≤ i64_max →
  config_mode config = ReadWriteMode ∨ Z.land flags O_ACCMODE = O_RDONLY →
  ∃ st', task_open task_fs fd flags st = (Ok fd, st') ∧ same_files st st'.
Proof.
  intros Hfd Hpool Hsz Hfl. destruct (fd_number fd Hfd) as [Hu Hp].
  destruct (stat_of_config_spec fd config st) as (st' & Hst & Hsame).
  destruct (create_stat_Ok fd (config_size config fd st) (config_mode config) Hsz) as (s & Hs & _).
  rewrite Hs in Hst. exists st'. split; [|done].
  unfold task_open. rewrite lookup_stat. unfold AuthFs.open, AuthFs.get_file_config, check_access_mode.
  rewrite Hu, M_bind_assoc, bind_lift_Ok, Hp, M_bind_assoc. cbn [ok_or]. rewrite bind_lift_Ok.
  rewrite M_bind_assoc, Hpool. cbn [ok_or]. rewrite bind_lift_Ok.
  rewrite M_bind_assoc, (M_bind_Ok _ _ _ _ _ Hst). unfold mbind, M_bind, mret, M_ret, lift.
  cbn [entry_inode]. rewrite Hpool. cbn [ok_or outcome_bind].
  destruct config; cbn [config_mode] in Hfl; try done; destruct Hfl as [|Hfl]; try done; by rewrite Hfl.
Qed.

Lemma open_input a st :
  a ∈ input_fd_annotations md →
  ∃ st', task_open task_fs (input_fd a) O_RDONLY st = (Ok (input_fd a), st') ∧ same_files st st'.
Proof.
  intros Ha. destruct (proj1 (Forall_forall _ _) (ok_inputs _ Hmd) a Ha) as [Hfd Hsz].
  apply (task_open_Ok _ (input_config task_service a)); [done| |done|by right].
  by apply (pools_lookup task_service md Hmd).
Qed.

Lemma open_output t fd flags st :
  is_output md fd → task_state t st →
  ∃ st', task_open task_fs fd flags st = (Ok fd, st') ∧ same_files st st'.
Proof.
  intros Hfd Hst. destruct (is_output_pools fd Hfd) as (Hr & _ & Hpool), (state_outputs _ _ Hst fd Hfd)
    as (c & _ & Hlen & [_ Hsz]).
  apply (task_open_Ok _ _ _ _ Hr Hpool); [cbn [config_size]; lia|by left].
Qed.

(** The editor of an output, with every other file as it is. *)
Lemma output_holds t fd st :
  is_output md fd → task_state t st →
  ∃ c, fd_content fd t = c ∧ zlen c ≤ i64_max ∧
       inode_holds (framed_content t) (output_editor fd) fd st c.
Proof.
  intros Hfd Hst. destruct (state_outputs _ _ Hst fd Hfd) as (c & Hc & Hlen & Hrep).
  exists c. unfold fd_content. rewrite Hc. split_and!; [done..|]. split; [done|]. simpl.
  rewrite (state_table _ _ Hst). apply framed_content_Some. exists fd.
  by destruct (is_output_pools fd Hfd) as (_ & Hp & _); rewrite insert_id.
Qed.

(** A change of one output. *)
Lemma output_changed t fd st st' c' :
  is_output md fd → task_state t st → zlen c' ≤ i64_max →
  inode_holds (framed_content t) (output_editor fd) fd st' c' →
  (∀ j, j ≠ fd → st'.1 !! j = st.1 !! j) → task_state (<[fd := c']> t) st'.
Proof.
  intros Hfd Hst Hlen [Hrep (file & Hp & Ht)%framed_content_Some] Hother.
  destruct (is_output_pools fd Hfd) as (_ & Hp' & _).
  change (fd_pool task_service !! fd = Some (ReadWrite file)) in Hp. rewrite Hp' in Hp. injection Hp as <-.
  split; [done|..].
  - intros a Ha. destruct (state_inputs _ _ Hst a Ha) as (c & Hc & Hl). exists c. split; [|done].
    rewrite lookup_insert_ne; [done|]. intros ->.
    destruct (proj1 (pools_lookup task_service md Hmd) a Ha) as [Hs _].
    simpl in Hp'. by rewrite Hs in Hp'.
  - intros j Hj. destruct (decide (j = fd)) as [->|Hne].
    + exists c'. by rewrite lookup_insert_eq.
    + destruct (state_outputs _ _ Hst j Hj) as (c & Hc & Hl & Hr). exists c.
      rewrite lookup_insert_ne by done. split_and!; [done..|]. unfold AuthFs.tree_of.
      by rewrite Hother.
Qed.

Lemma bytes_to_read_data (c : list byte) size offset :
  0 ≤ size → 0 ≤ offset →
  let n := bytes_to_read (zlen c) offset size in
  let data := take (Z.to_nat size) (drop (Z.to_nat offset) c) in
  n = zlen data ∧ take (Z.to_nat n) (drop (Z.to_nat offset) c) = data.
Proof.
  intros Hs Ho n data. assert (n = zlen data) as Hn.
  { subst n data. unfold bytes_to_read, saturating_sub. rewrite length_take, length_drop. lia. }
  split; [done|]. rewrite Hn, Nat2Z.id. subst data. rewrite length_take.
  destruct (decide (Z.to_nat size ≤ length (drop (Z.to_nat offset) c))%nat).
  - by rewrite Nat.min_l.
  - by rewrite Nat.min_r, firstn_all, take_ge by lia.
Qed.

Lemma read_call_spec t st fd size offset :
  call_ok md (TaskRead fd size offset) → task_state t st →
  let data := take (Z.to_nat size) (drop (Z.to_nat offset) (fd_content fd t)) in
  ∃ st', run_call task_fs (TaskRead fd size offset) st = (Ok (zlen data, data), st') ∧
         same_files st st'.
Proof.
  intros ([Hfd|Hfd] & Hs & Ho) Hst data; cbn [run_call].
  - apply list_elem_of_fmap in Hfd as (a & -> & Ha). 
    destruct (open_input a st Ha) as (st1 & Hop & Hsame). rewrite (M_bind_Ok _ _ _ _ _ Hop).
    pose proof (task_state_same _ _ _ Hsame Hst) as Hst1.
    destruct (state_inputs _ _ Hst a Ha) as (c & Hc & Hl).
    destruct (proj1 (Forall_forall _ _) (ok_inputs _ Hmd) a Ha) as [_ Hsz].
    destruct (proj1 (pools_lookup task_service md Hmd) a Ha) as [Hserved Hm].
    unfold task_read, AuthFs.read, AuthFs.get_file_config. cbn [file_pool task_fs AuthFs.new].
    rewrite Hm. cbn [ok_or]. rewrite bind_lift_Ok. unfold AuthFs.read_plain, zoom. cbn [input_config fst snd].
    assert (fd_content (input_fd a) t = c) as Hfa by (unfold fd_content; by rewrite Hc).
    subst data. rewrite Hfa. destruct (bytes_to_read_data c size offset) as [Hn Hd]; [lia..|].
    rewrite <- Hl, (read_chunks_honest _ c); [|intros idx Hi Hr|lia..].
    + rewrite Hd, Hn. exists st1. cbn [fst snd]. by destruct st1.
    + apply (read_chunk_honest_zeros remote_reader_content); [|done|lia|done].
      unfold remote_reader_content, remote_content. simpl. rewrite Hserved. simpl.
      by rewrite (state_table _ _ Hst1).
  - destruct (open_output t fd O_RDONLY st Hfd Hst) as (st1 & Hop & Hsame).
    rewrite (M_bind_Ok _ _ _ _ _ Hop). pose proof (task_state_same _ _ _ Hsame Hst) as Hst1.
    destruct (output_holds t fd st1 Hfd Hst1) as (c & Hc & Hl & Hh).
    destruct (is_output_pools fd Hfd) as (_ & _ & Hpool).
    destruct (fs_read_holds _ task_fs fd _ st1 c offset size [] Hpool Hh Hl Ho Hs) as (st2 & Hrd & Hsame2).
    destruct (bytes_to_read_data c size offset) as [Hn Hd]; [lia..|].
    unfold task_read. rewrite Hrd, Hd, Hn. exists st2. subst data. rewrite Hc.
    split; [done|by etrans].
Qed.

Lemma run_call_spec t st call :
  call_ok md call → task_state t st →
  ∃ st', run_call task_fs call st = (Ok (spec_call t call).1, st') ∧
         task_state (spec_call t call).2 st'.
Proof.
  intros Hok Hst. destruct call as [fd size offset|fd buf offset|fd size].
  - destruct (read_call_spec t st fd size offset Hok Hst) as (st' & Hr & Hsame).
    exists st'. split; [done|]. by eapply task_state_same.
  - destruct Hok as (Hfd & Ho & Hlim). cbn [run_call spec_call fst snd].
    destruct (open_output t fd O_RDWR st Hfd Hst) as (st1 & Hop & Hsame).
    rewrite (M_bind_Ok _ _ _ _ _ Hop). pose proof (task_state_same _ _ _ Hsame Hst) as Hst1.
    destruct (output_holds t fd st1 Hfd Hst1) as (c & -> & Hl & Hh), (is_output_pools fd Hfd) as (_ & _ & Hpool).
    destruct (fs_write_holds _ task_fs fd _ st1 c buf offset Hfuel Hpool Hh Ho Hlim Hl) as (st2 & Hw & Hh2).
    rewrite (M_bind_Ok _ _ _ _ _ Hw). exists st2. split; [done|].
    apply (output_changed t fd st1 st2); [done..| |done|].
    + rewrite length_overwrite. case_decide; lia.
    + intros j Hj. pose proof (touches_write task_fs fd buf (zlen buf) offset st1 j Hj) as Htw.
      by rewrite Hw in Htw.
  - destruct Hok as (Hfd & Hs). cbn [run_call spec_call fst snd].
    destruct (open_output t fd O_RDWR st Hfd Hst) as (st1 & Hop & Hsame).
    rewrite (M_bind_Ok _ _ _ _ _ Hop). pose proof (task_state_same _ _ _ Hsame Hst) as Hst1.
    destruct (output_holds t fd st1 Hfd Hst1) as (c & -> & Hl & Hh), (is_output_pools fd Hfd) as (_ & _ & Hpool).
    destruct (fs_resize_holds _ task_fs fd _ st1 c (size_attr size) size_valid Hpool Hh Hl Hs eq_refl)
      as (st2 & Hh2 & a' & Hset & _).
    rewrite (M_bind_Ok _ _ _ _ _ Hset). exists st2. split; [done|].
    apply (output_changed t fd st1 st2); [done..| |done|].
    + rewrite length_set_length. lia.
    + intros j Hj. pose proof (touches_setattr task_fs fd (size_attr size) size_valid st1 j Hj) as Htw.
      by rewrite Hset in Htw.
Qed.

Lemma run_task_spec calls t st :
  Forall (call_ok md) calls → task_state t st →
  ∃ st', run_task task_fs calls st = (Ok (spec_task t calls).1, st') ∧
         task_state (spec_task t calls).2 st'.
Proof.
  intros Hok. revert t st. induction Hok as [|call calls Hc _ IH]; intros t st Hst; [by exists st|].
  destruct (run_call_spec t st call Hc Hst) as (st1 & Hr & Hst1). cbn [run_task spec_task].
  rewrite (M_bind_Ok _ _ _ _ _ Hr). destruct (spec_call t call) as [r t1]. simpl in *.
  destruct (IH t1 st1 Hst1) as (st2 & Hr2 & Hst2). rewrite (M_bind_Ok _ _ _ _ _ Hr2).
  destruct (spec_task t1 calls) as [rs t2]. by exists st2.
Qed.

Lemma task_state_start t : fds_open md t → sizes_true md t → task_state t (∅, t).
Proof.
  intros [Hi Ho] Hs. split; [done|..].
  - intros a Ha. destruct (proj1 (Forall_forall _ _) Hi a Ha) as [c Hc]. exists c. split; [done|].
    rewrite <- (proj1 (Forall_forall _ _) Hs a Ha). unfold fd_content. by rewrite Hc.
  - intros fd (a & -> & Ha)%list_elem_of_fmap. exists [].
    rewrite (proj1 (Forall_forall _ _) Ho a Ha). split_and!; done.
Qed.
End chain.

(** ** The command line of [pvm_exec] *)
Section caller.
Context {clap : Clap}.
Implicit Types (t : file_table).

(** Open descriptors have numbers and sizes that the system gives out. *)
Definition table_ok t : Prop := map_Forall (λ fd c, is_fd fd ∧ zlen c ≤ i64_max) t.

Lemma mapM_table {A B} (f : A → M file_table PvmExec.Error B) (P : B → Prop) l t r t1 :
  (∀ a b t1, f a t = (Ok b, t1) → t1 = t ∧ P b) →
  mapM f l t = (Ok r, t1) → t1 = t ∧ Forall P r.
Proof.
  intros Hf. revert r. induction l as [|a l IH]; intros r Hm; cbn [mapM] in Hm; inv_bind; [done|].
  match goal with Ha : f a _ = (Ok _, _) |- _ => apply Hf in Ha as [-> HP] end.
  match goal with Hl : mapM f l _ = (Ok _, _) |- _ => apply IH in Hl as [-> Hr] end.
  split; [done|]. by constructor.
Qed.

Lemma parse_arg_fd_open arg t fd t1 :
  PvmExec.parse_arg_fd arg t = (Ok fd, t1) → t1 = t ∧ is_Some (t !! fd).
Proof.
  unfold PvmExec.parse_arg_fd. destruct (parse_i32 arg) as [z|]; [|done]. cbn [ok_or].
  rewrite bind_lift_Ok. unfold PvmExec.is_fd_valid, mbind, M_bind. simpl.
  destruct (decide (is_Some (t !! z))); simpl; [|done]. by intros [= <- <-].
Qed.

(** What [pvm_exec] tells the service of its descriptors is true. *)
Lemma pvm_exec_metadata argv t config t1 :
  PvmExec.parse_args argv t = (Ok config, t1) →
  t1 = t ∧
  Forall (λ a, ∃ c, t !! input_fd a = Some c ∧ zlen c = input_file_size a)
    (input_fd_annotations (PvmExec.metadata config)) ∧
  Forall (λ a, is_Some (t !! output_fd a)) (output_fd_annotations (PvmExec.metadata config)).
Proof.
  unfold PvmExec.parse_args. intros Hp. inv_bind.
  match goal with Hi : mapM PvmExec.parse_in_fd _ ?t = _ |- _ =>
    apply (mapM_table _ (λ a, ∃ c, t !! input_fd a = Some c ∧ zlen c = input_file_size a))
      in Hi as [-> Hin] end.
  - match goal with Ho : mapM PvmExec.parse_out_fd _ ?t = _ |- _ =>
      apply (mapM_table _ (λ a, is_Some (t !! output_fd a))) in Ho as [-> Hout] end; [by split_and!|].
    intros arg a t' Ha. unfold PvmExec.parse_out_fd in Ha. inv_bind.
    match goal with Hf : PvmExec.parse_arg_fd _ _ = _ |- _ => by apply parse_arg_fd_open in Hf end.
  - intros arg a t' Ha. unfold PvmExec.parse_in_fd in Ha. inv_bind.
    match goal with Hf : PvmExec.parse_arg_fd _ _ = _ |- _ => apply parse_arg_fd_open in Hf as [-> [c Hc]] end.
    simpl in *. rewrite Hc in *. simplify_eq. split; [done|]. by exists c.
Qed.

Lemma pvm_exec_ok argv t config t1 :
  PvmExec.parse_args argv t = (Ok config, t1) → table_ok t →
  let md := PvmExec.metadata config in
  NoDup ((input_fd <$> input_fd_annotations md) ++ (output_fd <$> output_fd_annotations md)) →
  Forall (λ a, fd_content (output_fd a) t = []) (output_fd_annotations md) →
  t1 = t ∧ metadata_ok md ∧ fds_open md t ∧ sizes_true md t.
Proof.
  intros (-> & Hi & Ho)%pvm_exec_metadata Ht md Hnd Hempty. split; [done|]. split_and!.
  - split; [| |done].
    + eapply Forall_impl; [exact Hi|]. intros a (c & Hc & <-). destruct (Ht _ _ Hc). split; [done|lia].
    + eapply Forall_impl; [exact Ho|]. intros a [c Hc]. by destruct (Ht _ _ Hc).
  - split; [eapply Forall_impl; [exact Hi|]; intros a (c & Hc & _); by exists c|].
    rewrite !Forall_forall in *. intros a Ha. specialize (Hempty a Ha). destruct (Ho a Ha) as [c Hc].
    unfold fd_content in Hempty. rewrite Hc in *. by rewrite <- Hempty.
  - eapply Forall_impl; [exact Hi|]. intros a (c & Hc & Hsz). unfold fd_content. by rewrite Hc.
Qed.
End caller.

(** ** Claim *)

(** C6: A task works on the caller's own files.  Take a command line that [pvm_exec] accepts, with
    every descriptor once and empty outputs; the command lines that the programs hand to one
    another for it; the server and the file system that they set up; and any sequence of reads,
    writes and truncations by descriptor number, each a lookup, an open and a request.  Every
    call succeeds with the result that the same call on the caller's table of files has, the
    table ends as those calls leave it, and no other file in it has changed; and the digest that
    authfs computes for an output is the fs-verity digest of what the caller then has. *)
Theorem compos_task_files {clap : Clap} `{!ClapSpec clap, !Sha256FFI, !Sha256Spec} {bm : BuildMode}
    {wf : WriteFuel} `{!VerityIoctl file_table, !PathOps file_table}
    (svc : CompService) argv exec t t1 max_write calls :
  (csz < write_fuel)%nat → table_ok t → PvmExec.parse_args argv t = (Ok exec, t1) →
  let md := PvmExec.metadata exec in
  PvmExec.args exec ≠ [] →
  NoDup ((input_fd <$> input_fd_annotations md) ++ (output_fd <$> output_fd_annotations md)) →
  Forall (λ a, fd_content (output_fd a) t = []) (output_fd_annotations md) →
  Forall (call_ok md) calls →
  ∃ worker_args config args served mounted st',
    parse_command_line (PvmExec.fd_server_args md) t1 = (Ok served, t) ∧
    CompService.build_worker_args (E := Status) svc (PvmExec.args exec) md = Ok worker_args ∧
    Worker.parse_args worker_args = Ok config ∧
    Args_from_args (Worker.authfs_args config) = Ok args ∧
    prepare_file_pool {| fd_pool := served |} args t = (Ok mounted, t) ∧
    run_task (AuthFs.new mounted max_write) calls (∅, t) = (Ok (spec_task t calls).1, st') ∧
    st'.2 = (spec_task t calls).2 ∧
    ∀ a, a ∈ output_fd_annotations md →
      ∃ ed, mounted !! output_fd a = Some (RemoteVerifiedNewFile ed) ∧
        let s := (AuthFs.tree_of (output_fd a) st', st'.2) in
        VerifiedFileEditor.calculate_fsverity_digest (bm := release) ed s =
          (Ok (fsverity_digest (fd_content (output_fd a) st'.2)), s).
Proof.
  intros Hfuel Ht Hexec md Hargs Hnd Hempty Hcalls.
  destruct (pvm_exec_ok argv t exec t1 Hexec Ht Hnd Hempty) as (-> & Hmd & Hopen & Hsizes).
  destruct (PvmExec.args exec) as [|arg0 rest]; [done|].
  destruct (worker_reads_back svc arg0 rest md Hmd) as (wargs & Hw & Hp).
  destruct (authfs_pool (task_service md) svc rest md t Hmd) as (args & Ha & Hpool).
  destruct (run_task_spec Hfuel md Hmd max_write calls t (∅, t) Hcalls (task_state_start md t Hopen Hsizes))
    as (st' & Hrun & Hst).
  exists wargs, (worker_config svc rest md), args, (served_pool md), (mounted_pool (task_service md) md), st'.
  split_and!; [by apply fd_server_pool|done|done|done|done|done|apply Hst|].
  intros a Hin. assert (is_output md (output_fd a)) as Hfd by by apply list_elem_of_fmap_2.
  exists (output_editor md (output_fd a)). split; [by apply (pools_lookup (task_service md) md Hmd)|].
  destruct (state_outputs _ _ _ Hst _ Hfd) as (c & Hc & Hlen & Hrep).
  unfold VerifiedFileEditor.calculate_fsverity_digest.
  erewrite (M_bind_Ok VerifiedFileEditor.get_tree) by done. unfold lift. cbn [fst].
  rewrite (calculate_fsverity_digest_represents _ _ Hrep) by lia.
  unfold fd_content. by rewrite (state_table _ _ _ Hst), Hc.
Qed.

Section instances.
#[local] Existing Instances boringssl boringssl_spec release plain_clap.
#[local] Instance flow_no_verity : VerityIoctl file_table := λ _ _ _, throw 95.
#[local] Instance flow_paths : PathOps file_table :=
  {| open_path _ := throw (OsError ENOENT); read_to_end _ := throw (OsError EBADF) |}.
#[local] Instance flow_fuel : WriteFuel := 5000%nat.

(** Copies an input to the output, extends it and reads it back. *)
Definition demo_task : list task_call :=
  [TaskRead 3 65536 0; TaskWrite 4 (zeros 5) 0; TaskTruncate 4 5000; TaskRead 4 10 4090].

Definition demo_argv : list string :=
  ["pvm_exec"; "--in-fd"; "3"; "--in-fd"; "7"; "--out-fd"; "4"; "--"; "sh"; "-v"].
Definition demo_exec : PvmExec.Config :=
  {| PvmExec.args := ["sh"; "-v"]; PvmExec.metadata := demo_metadata; PvmExec.debuggable := false |}.

Lemma compos_task_files_witness :
  ∃ worker_args config args served mounted st',
    parse_command_line (PvmExec.fd_server_args demo_metadata) ComposProps.demo_table =
      (Ok served, ComposProps.demo_table) ∧
    CompService.build_worker_args (E := Status) ComposProps.demo_service ["sh"; "-v"] demo_metadata =
      Ok worker_args ∧
    Worker.parse_args worker_args = Ok config ∧
    Args_from_args (Worker.authfs_args config) = Ok args ∧
    prepare_file_pool {| fd_pool := served |} args ComposProps.demo_table =
      (Ok mounted, ComposProps.demo_table) ∧
    run_task (AuthFs.new mounted 65536) demo_task (∅, ComposProps.demo_table) =
      (Ok [(5, zeros 5); (5, []); (0, []); (10, zeros 10)], st') ∧
    st'.2 !! 4 = Some (zeros 5000).
Proof.
  destruct (compos_task_files ComposProps.demo_service demo_argv demo_exec ComposProps.demo_table
              ComposProps.demo_table 65536 demo_task)
    as (wa & c & a & s & m & st' & H1 & H2 & H3 & H4 & H5 & H6 & H7 & _).
  - unfold write_fuel, flow_fuel. lia.
  - apply (bool_decide_unpack _). by vm_compute.
  - vm_compute. reflexivity.
  - discriminate.
  - apply (bool_decide_unpack _). by vm_compute.
  - repeat constructor.
  - apply (bool_decide_unpack _). by vm_compute.
  - exists wa, c, a, s, m, st'. split_and!; try assumption.
    rewrite H7. vm_compute. reflexivity.
Defined.
End instances.
