(* ===== verification/VirtConfig.v ===== *)
(** * VM configurations and the crosvm command line (virtmanager/src/{config,crosvm}.rs)

    What a configuration may say, and the command line that [run_vm] builds
    from it.  Reading the JSON file is serde's. *)
From Stdlib Require Import Ascii.
From S2P Require Import Prelude RustInt Clap.

Record DiskImage := { image : string; writable : bool }.
Record VmConfig := {
  kernel : option string;
  initrd : option string;
  params : option string;
  bootloader : option string;
  disks : list DiskImage;
}.

Inductive ConfigError := NoBootloaderOrKernel | BootloaderAndKernel.

Module VmConfig.
Definition validate (self : VmConfig) : outcome ConfigError unit :=
  if bool_decide (bootloader self = None) && bool_decide (kernel self = None)
  then Err NoBootloaderOrKernel
  else if negb (bool_decide (bootloader self = None)) &&
          (negb (bool_decide (kernel self = None)) || negb (bool_decide (initrd self = None)))
  then Err BootloaderAndKernel
  else Ok tt.
End VmConfig.

Definition CROSVM_PATH : string := "/apex/com.android.virt/bin/crosvm".

(** [if let Some(value) = option { command.arg(name).arg(value); }] *)
Definition opt_arg (name : string) (value : option string) : list string :=
  match value with Some value => [name; value] | None => [] end.
Definition disk_arg (disk : DiskImage) : list string :=
  [if writable disk then "--rwdisk" else "--disk"; image disk].

(** The arguments of the command; [log] says that a log file takes the console. *)
Definition crosvm_args (config : VmConfig) (cid : Z) (log : bool) : list string :=
  ["run"; "--disable-sandbox"; "--cid"; show_int cid] ++
  (if log then [] else ["--serial=type=sink"]) ++
  opt_arg "--bios" (bootloader config) ++
  opt_arg "--initrd" (initrd config) ++
  opt_arg "--params" (params config) ++
  (disks config ≫= disk_arg) ++
  match kernel config with Some kernel => [kernel] | None => [] end.

(** [run_vm], up to the spawn of the command; the configuration is checked first. *)
Definition run_vm (config : VmConfig) (cid : Z) (log : bool)
    : outcome ConfigError (string * list string) :=
  VmConfig.validate config;;
  Ok (CROSVM_PATH, crosvm_args config cid log).

(** ** The command line determines the configuration *)

(** The options that take a value, without the kernel, which comes last. *)
Definition option_args (config : VmConfig) : list string :=
  opt_arg "--bios" (bootloader config) ++ opt_arg "--initrd" (initrd config) ++
  opt_arg "--params" (params config) ++ (disks config ≫= disk_arg).
Definition kernel_arg (config : VmConfig) : list string :=
  match kernel config with Some kernel => [kernel] | None => [] end.
Definition console_arg (log : bool) : list string := if log then [] else ["--serial=type=sink"].

Lemma crosvm_args_parts config cid log :
  crosvm_args config cid log =
    ["run"; "--disable-sandbox"; "--cid"; show_int cid] ++ console_arg log ++
    option_args config ++ kernel_arg config.
Proof. unfold crosvm_args, option_args. by rewrite <- !(assoc_L (++)). Qed.

Lemma length_disk_args l : length (l ≫= disk_arg) = (2 * length l)%nat.
Proof. induction l as [|d l IH]; [done|]. rewrite bind_cons, length_app, IH. simpl. lia. Qed.

(** The options come in pairs. *)
Lemma length_option_args config : ∃ n, length (option_args config) = (2 * n)%nat.
Proof.
  unfold option_args. rewrite !length_app, length_disk_args.
  assert (∀ name o, ∃ k, length (opt_arg name o) = (2 * k)%nat) as Ho
    by (intros name [v|]; [by exists 1%nat|by exists 0%nat]).
  destruct (Ho "--bios" (bootloader config)) as [b ->], (Ho "--initrd" (initrd config)) as [i ->],
    (Ho "--params" (params config)) as [p ->]. exists (b + i + p + length (disks config))%nat. lia.
Qed.

Lemma disk_args_inj l1 l2 : (l1 ≫= disk_arg) = (l2 ≫= disk_arg) → l1 = l2.
Proof.
  revert l2. induction l1 as [|[img w] l1 IH]; intros [|[img' w'] l2]; rewrite ?bind_cons; [done..|].
  intros Heq. simpl in Heq. injection Heq as Hw -> Hl. f_equal; [f_equal|by apply IH].
  by destruct w, w'.
Qed.

Definition valid (config : VmConfig) : Prop :=
  (bootloader config = None ↔ is_Some (kernel config)) ∧
  (is_Some (bootloader config) → initrd config = None).

(** [validate] fails on exactly the other configurations. *)
Lemma validate_spec config :
  match VmConfig.validate config with
  | Ok _ => valid config
  | Err NoBootloaderOrKernel => bootloader config = None ∧ kernel config = None
  | Err BootloaderAndKernel =>
      is_Some (bootloader config) ∧ (is_Some (kernel config) ∨ is_Some (initrd config))
  | _ => False
  end.
Proof.
  unfold VmConfig.validate, valid. destruct config as [[k|] [i|] p [b|] d]; simpl;
    repeat split; (by eauto) || (by intros []).
Qed.

Lemma option_args_inj c1 c2 :
  option_args c1 = option_args c2 →
  bootloader c1 = bootloader c2 ∧ initrd c1 = initrd c2 ∧ params c1 = params c2 ∧ disks c1 = disks c2.
Proof.
  unfold option_args. destruct c1 as [k1 i1 p1 b1 d1], c2 as [k2 i2 p2 b2 d2]; simpl. intros Heq.
  assert (∀ l x, head (l ≫= disk_arg) = Some x → x = "--rwdisk" ∨ x = "--disk") as Hd.
  { intros [|[img []] l] x; simpl; intros [=]; subst; [by left|by right]. }
  destruct b1, b2, i1, i2, p1, p2; simplify_eq/=; split_and!; try done;
    first [by apply disk_args_inj|exfalso;
      match goal with He : @eq (list string) _ _ |- _ =>
        apply (f_equal head) in He; simpl in He;
        first [destruct (Hd _ _ He)|destruct (Hd _ _ (eq_sym He))]; discriminate end].
Qed.

(** With the parity of the rest, which tells a kernel from a bootloader. *)
Lemma option_kernel_inj c1 c2 :
  option_args c1 ++ kernel_arg c1 = option_args c2 ++ kernel_arg c2 → c1 = c2.
Proof.
  intros Heq. destruct (length_option_args c1) as [n1 H1], (length_option_args c2) as [n2 H2].
  assert (length (kernel_arg c1) = length (kernel_arg c2)) as Hk.
  { apply (f_equal length) in Heq. rewrite !length_app in Heq. unfold kernel_arg in *.
    destruct (kernel c1), (kernel c2); simpl in *; lia. }
  apply app_inj_2 in Heq as [(Hb & Hi & Hp & Hd)%option_args_inj Hkern]; [|done].
  unfold kernel_arg in *. destruct c1, c2; simpl in *; subst. f_equal. by repeat case_match; simplify_eq.
Qed.

Lemma console_inj log1 log2 c1 c2 :
  valid c1 → valid c2 →
  console_arg log1 ++ option_args c1 ++ kernel_arg c1 = console_arg log2 ++ option_args c2 ++ kernel_arg c2 →
  log1 = log2 ∧ c1 = c2.
Proof.
  assert (∀ c1 c2, valid c2 →
    option_args c1 ++ kernel_arg c1 ≠ "--serial=type=sink" :: option_args c2 ++ kernel_arg c2) as Hno.
  { intros [k1 i1 p1 b1 d1] [k2 i2 p2 b2 d2] [Hv _] Heq. unfold option_args, kernel_arg in Heq; simpl in *.
    destruct b1; [done|]. destruct i1; [done|]. destruct p1; [done|].
    destruct d1 as [|[img []] d1]; [|done..]. simpl in Heq.
    destruct k1 as [k1|]; [|done]. injection Heq as -> Hnil. symmetry in Hnil.
    apply app_eq_nil in Hnil as [Ho Hk]. destruct k2; [done|]. destruct b2; [done|].
    by destruct (proj1 Hv eq_refl). }
  intros Hv1 Hv2 Heq. destruct log1, log2; simpl in Heq.
  - split; [done|by apply option_kernel_inj].
  - by destruct (Hno c1 c2 Hv2).
  - by destruct (Hno c2 c1 Hv1).
  - injection Heq as Heq. split; [done|by apply option_kernel_inj].
Qed.

Lemma show_int_inj z1 z2 : 0 ≤ z1 < u32_limit → 0 ≤ z2 < u32_limit → show_int z1 = show_int z2 → z1 = z2.
Proof.
  intros H1 H2 Heq. assert (∀ z, 0 ≤ z < u32_limit →
    parse_int false 0 (u32_limit - 1) (show_int z) = Some z) as Hp.
  { intros z Hz. apply parse_show_int; unfold u32_limit in *; lia || by left. }
  pose proof (Hp z1 H1) as Hp1. rewrite Heq, (Hp z2 H2) in Hp1. congruence.
Qed.

(** The position of the disks among the arguments. *)
Definition disk_position (config : VmConfig) (log : bool) : nat :=
  (if log then 4 else 5) + length (opt_arg "--bios" (bootloader config)) +
  length (opt_arg "--initrd" (initrd config)) + length (opt_arg "--params" (params config)).

Lemma crosvm_disk config cid log i d :
  disks config !! i = Some d →
  take 2 (drop (disk_position config log + 2 * i) (crosvm_args config cid log)) =
    [if writable d then "--rwdisk" else "--disk"; image d].
Proof.
  intros Hi. unfold crosvm_args, disk_position.
  apply list_elem_of_split_length in Hi as (l1 & l2 & -> & ->).
  rewrite bind_app, bind_cons, <- length_disk_args.
  set (head := ["run"; "--disable-sandbox"; "--cid"; show_int cid] ++
    (if log then [] else ["--serial=type=sink"]) ++ opt_arg "--bios" (bootloader config) ++
    opt_arg "--initrd" (initrd config) ++ opt_arg "--params" (params config) ++ (l1 ≫= disk_arg)).
  match goal with |- take 2 (drop ?n ?l) = _ =>
    replace l with (head ++ disk_arg d ++ (l2 ≫= disk_arg) ++
      match kernel config with Some kernel => [kernel] | None => [] end)
      by (unfold head; by rewrite <- !(assoc_L (++)));
    replace n with (length head) by (unfold head; rewrite !length_app; destruct log; simpl; lia) end.
  by rewrite drop_app_length.
Qed.

(** C27: The command line says what the configuration says.  A configuration that names both a
    bootloader and a kernel or ramdisk, or neither bootloader nor kernel, starts nothing.  Any other
    starts crosvm with the CID; every disk is passed in order, with [--rwdisk] if the configuration
    has it writable and with [--disk] if not; a bootloader follows [--bios], a ramdisk [--initrd],
    the parameters [--params], and the kernel comes last.  Nothing is lost or confused, whatever
    the paths are: another CID, another choice of the log or another configuration gives another
    command line. *)
Theorem crosvm_command_faithful config cid log :
  0 ≤ cid < u32_limit →
  match run_vm config cid log with
  | Ok (bin, args) =>
      valid config ∧ bin = CROSVM_PATH ∧
      take 4 args = ["run"; "--disable-sandbox"; "--cid"; show_int cid] ∧
      (log = false → args !! 4%nat = Some "--serial=type=sink") ∧
      (∀ i d, disks config !! i = Some d →
         take 2 (drop (disk_position config log + 2 * i) args) =
           [if writable d then "--rwdisk" else "--disk"; image d]) ∧
      let first := if log then 4%nat else 5%nat in
      (∀ b, bootloader config = Some b → take 2 (drop first args) = ["--bios"; b]) ∧
      (∀ r, initrd config = Some r → take 2 (drop first args) = ["--initrd"; r]) ∧
      (∀ p, params config = Some p →
         take 2 (drop (disk_position config log - 2) args) = ["--params"; p]) ∧
      (∀ k, kernel config = Some k → last args = Some k) ∧
      (∀ config' cid' log', 0 ≤ cid' < u32_limit → run_vm config' cid' log' = Ok (bin, args) →
         config' = config ∧ cid' = cid ∧ log' = log)
  | Err NoBootloaderOrKernel => bootloader config = None ∧ kernel config = None
  | Err BootloaderAndKernel =>
      is_Some (bootloader config) ∧ (is_Some (kernel config) ∨ is_Some (initrd config))
  | _ => False
  end.
Proof.
  intros Hcid. unfold run_vm at 1. pose proof (validate_spec config) as Hv.
  destruct (VmConfig.validate config) as [[]|e| |]; cbn [mbind outcome_bind]; [|by destruct e|done..].
  split_and!; try done.
  - by destruct log.
  - intros i d. apply crosvm_disk.
  - intros b Hb. unfold crosvm_args. rewrite Hb. by destruct log.
  - intros r Hr. destruct Hv as [_ Hv]. unfold crosvm_args.
    destruct (bootloader config); [by rewrite Hv in Hr|]. rewrite Hr. by destruct log.
  - intros p Hp. unfold crosvm_args, disk_position. rewrite Hp.
    by destruct log, (bootloader config), (initrd config).
  - intros k Hk. rewrite crosvm_args_parts. unfold kernel_arg. rewrite Hk, !(assoc_L (++)). apply last_snoc.
  - intros config' cid' log' Hcid' Hrun. unfold run_vm in Hrun. pose proof (validate_spec config') as Hv'.
    destruct (VmConfig.validate config') as [[]|e| |]; [|done..]. cbn [mbind outcome_bind] in Hrun.
    assert (crosvm_args config' cid' log' = crosvm_args config cid log) as Hargs by congruence.
    rewrite !crosvm_args_parts in Hargs. simpl in Hargs. injection Hargs as Hshow Hrest.
    apply show_int_inj in Hshow; [|done..]. by destruct (console_inj _ _ _ _ Hv' Hv Hrest).
Qed.

Lemma crosvm_command_faithful_witness :
  let config := {| kernel := Some "--rwdisk"; initrd := Some "/vm/initrd"; params := None;
                   bootloader := None;
                   disks := [{| image := "/vm/a"; writable := true |};
                             {| image := "/vm/b"; writable := false |}] |} in
  let args := ["run"; "--disable-sandbox"; "--cid"; "10"; "--serial=type=sink"; "--initrd"; "/vm/initrd";
               "--rwdisk"; "/vm/a"; "--disk"; "/vm/b"; "--rwdisk"] in
  run_vm config 10 false = Ok (CROSVM_PATH, args) ∧
  ∀ config' cid' log', 0 ≤ cid' < u32_limit → run_vm config' cid' log' = Ok (CROSVM_PATH, args) →
    config' = config ∧ cid' = 10 ∧ log' = false.
Proof.
  intros config args. split; [reflexivity|].
  assert (Hr := crosvm_command_faithful config 10 false).
  destruct Hr as (_ & _ & _ & _ & _ & _ & _ & _ & _ & Hr); [split; reflexivity || discriminate|exact Hr].
Defined.
