(* ===== verification/VirtManager.v ===== *)
(** * The virtualization manager (virtmanager/src/{aidl,crosvm}.rs)

    The world is the state of the manager and all VM instances it has started,
    with what the references to them are: binder handles held by clients, those
    the manager holds, and the thread that waits for the crosvm process.
    An instance is named by its place in the list; a handle that is passed to
    [debugHoldVmRef] is one of these, and not some other object that a debug
    caller might pass off as a VM.  Requests, the ends of
    processes and the steps of the waiting threads interleave freely. *)
From Stdlib Require Import Ascii.
From S2P Require Import Prelude RustInt Clap Crypto Common Fsverity Os FdServer VirtConfig.

(** ** Data *)
Definition FIRST_GUEST_CID : Z := 10.
Definition DEBUG_ALLOWED_UIDS : list Z := [0; 2000].

(** How far the thread in [VmInstance::monitor] is: it waits for crosvm, has
    stored [running = false], or has called the callbacks and ended. *)
Inductive Monitor := Waiting | Stopped | Finished.
#[global] Instance Monitor_eq_dec : EqDecision Monitor.
Proof. solve_decision. Defined.

Record VmInstance := {
  cid : Z;
  requester_uid : Z;
  requester_sid : string;
  requester_debug_pid : Z;
  running : bool;
  callbacks : list Z;
  (* the child process, the thread and the handles of clients *)
  child_killed : bool;
  child_exited : bool;
  monitor : Monitor;
  handles : nat;
  died_calls : list Z;
}.

Record State := { next_cid : Z; weak_vms : list nat; debug_held_vms : list nat }.
Record World := { state : State; instances : list VmInstance }.

Record VirtualMachineDebugInfo := {
  info_cid : Z; info_requesterUid : Z; info_requesterSid : string; info_requesterPid : Z;
  info_running : bool;
}.

(** The caller of a binder method. *)
Record Caller := { calling_uid : Z; calling_sid : option string; calling_pid : Z }.

Implicit Types (w : World) (v : VmInstance) (i : nat).

(** ** References *)
Definition held i w : nat := length (filter (λ j, j = i) (debug_held_vms (state w))).
(** The strong references to the binder object of [i]. *)
Definition binder_refs i w : nat := (default 0%nat (handles <$> instances w !! i) + held i w)%nat.
(** [Weak::strong_count]: the binder object and the thread each hold the [Arc]. *)
Definition strong_count i w : nat :=
  match instances w !! i with
  | None => 0
  | Some v => ((if decide (binder_refs i w = 0) then 0 else 1) +
               (if decide (monitor v = Finished) then 0 else 1))%nat
  end.

Definition set_state (s : State) w : World := {| state := s; instances := instances w |}.
Definition alter_vm (f : VmInstance → VmInstance) i w : World :=
  {| state := state w; instances := alter f i (instances w) |}.

(** The fields that change. *)
Definition update v (running : bool) (callbacks : list Z) (child_killed child_exited : bool)
    (monitor : Monitor) (handles : nat) (died_calls : list Z) : VmInstance :=
  {| cid := cid v; requester_uid := requester_uid v; requester_sid := requester_sid v;
     requester_debug_pid := requester_debug_pid v; running := running; callbacks := callbacks;
     child_killed := child_killed; child_exited := child_exited; monitor := monitor;
     handles := handles; died_calls := died_calls |}.
Definition with_handles (n : nat) v : VmInstance :=
  update v (running v) (callbacks v) (child_killed v) (child_exited v) (monitor v) n (died_calls v).

Module VmInstance.
(** [VmInstance::new]; the thread that [start] spawns waits, and the caller of
    [start] makes the first handle. *)
Definition new (cid requester_uid : Z) (requester_sid : string) (requester_debug_pid : Z) : VmInstance :=
  {| cid := cid; requester_uid := requester_uid; requester_sid := requester_sid;
     requester_debug_pid := requester_debug_pid; running := true; callbacks := [];
     child_killed := false; child_exited := false; monitor := Waiting; handles := 0; died_calls := [] |}.

(** [monitor], up to and with the store to [running]. *)
Definition monitor_stop v : VmInstance :=
  update v false (callbacks v) (child_killed v) (child_exited v) Stopped (handles v) (died_calls v).
(** [callback_on_died] under the lock of the callbacks, then the thread ends. *)
Definition monitor_finish v : VmInstance :=
  update v (running v) (callbacks v) (child_killed v) (child_exited v) Finished (handles v)
    (died_calls v ++ callbacks v).
Definition kill v : VmInstance :=
  update v (running v) (callbacks v) true (child_exited v) (monitor v) (handles v) (died_calls v).
(** The crosvm process ends. *)
Definition exit v : VmInstance :=
  update v (running v) (callbacks v) (child_killed v) true (monitor v) (handles v) (died_calls v).
(** [VirtualMachineCallbacks::add] *)
Definition add_callback (callback : Z) v : VmInstance :=
  update v (running v) (callbacks v ++ [callback]) (child_killed v) (child_exited v) (monitor v)
    (handles v) (died_calls v).
End VmInstance.

Module State.
Definition default : State := {| next_cid := FIRST_GUEST_CID; weak_vms := []; debug_held_vms := [] |}.

(** [self.vms.iter().filter_map(Weak::upgrade)] *)
Definition vms w : list VmInstance :=
  omap (λ i, if decide (strong_count i w = 0%nat) then None else instances w !! i) (weak_vms (state w)).

Definition add_vm (vm : nat) w : World :=
  let self := state w in
  set_state {| next_cid := next_cid self;
               weak_vms := filter (λ i, strong_count i w ≠ 0%nat) (weak_vms self) ++ [vm];
               debug_held_vms := debug_held_vms self |} w.

Definition debug_hold_vm (vm : nat) w : World :=
  let self := state w in
  set_state {| next_cid := next_cid self; weak_vms := weak_vms self;
               debug_held_vms := debug_held_vms self ++ [vm] |} w.

(** [Vec::swap_remove]: the last element takes the place of the removed one. *)
Definition swap_remove {A} (l : list A) (pos : nat) : list A :=
  match last l with
  | Some x => if decide (S pos = length l) then take pos l
              else take (length l - 1) (<[pos := x]> l)
  | None => l
  end.

(** [vm.getCid() == Ok(cid)] for the handle of [i]. *)
Definition getCid i w : option Z := as_i32 ∘ cid <$> instances w !! i.
Definition debug_drop_vm (cid : Z) w : option nat * World :=
  let self := state w in
  match list_find (λ i, getCid i w = Some cid) (debug_held_vms self) with
  | Some (pos, i) =>
      (Some i, set_state {| next_cid := next_cid self; weak_vms := weak_vms self;
                            debug_held_vms := swap_remove (debug_held_vms self) pos |} w)
  | None => (None, w)
  end.

Definition allocate_cid : M World Status Z := λ w,
  let self := state w in
  if next_cid self + 1 <? u32_limit
  then (Ok (next_cid self), set_state {| next_cid := next_cid self + 1; weak_vms := weak_vms self;
                                         debug_held_vms := debug_held_vms self |} w)
  else (Err (from_status_code UNKNOWN_ERROR), w).
End State.

(** What the code outside the manager does with a request: cloning the log
    descriptor, reading the configuration, spawning crosvm. *)
Record VmRequest := {
  log_fd : option bool;
  loaded : option VmConfig;
  spawned : string → list string → bool;
}.

Definition debug_access_allowed (caller : Caller) : bool :=
  bool_decide (calling_uid caller ∈ DEBUG_ALLOWED_UIDS).

(** A new instance, whose thread runs. *)
Definition push_vm v : M World Status nat := λ w,
  (Ok (length (instances w)), {| state := state w; instances := instances w ++ [v] |}).

(** [start_vm] and [VmInstance::start] *)
Definition start_vm (req : VmRequest) (cid uid : Z) (sid : string) (pid : Z) : M World Status nat :=
  config ← lift (ok_or (loaded req) (from_status_code BAD_VALUE));
  '(bin, args) ← lift (map_err (λ _, from_status_code UNKNOWN_ERROR)
    (run_vm config cid (bool_decide (is_Some (log_fd req)))));
  if negb (spawned req bin args) then throw (from_status_code UNKNOWN_ERROR)
  else push_vm (VmInstance.new cid uid sid pid).

Module VirtualMachine.
(** [create]: the binder object around the instance, with its first handle. *)
Definition create (instance : nat) w : World := alter_vm (with_handles 1) instance w.
Definition isRunning i w : option bool := running <$> instances w !! i.
Definition registerCallback i (callback : Z) : World → World := alter_vm (VmInstance.add_callback callback) i.
(** A client lets go of a handle; the last one drops the binder object, which
    kills the VM. *)
Definition release i w : World :=
  let w := alter_vm (λ v, with_handles (handles v - 1) v) i w in
  if decide (binder_refs i w = 0%nat) then alter_vm VmInstance.kill i w else w.
Definition clone i : World → World := alter_vm (λ v, with_handles (S (handles v)) v) i.
End VirtualMachine.

Module VirtManager.
(** The handle that is returned is the first one. *)
Definition startVm (caller : Caller) (req : VmRequest) : M World Status nat :=
  lift (match log_fd req with
        | Some false => Err (from_status_code UNKNOWN_ERROR)
        | _ => Ok tt
        end);;
  sid ← lift (match calling_sid caller with
              | Some sid => if is_utf8 sid then Ok sid else Err (from_status_code BAD_VALUE)
              | None => Err (from_status_code UNKNOWN_ERROR)
              end);
  cid ← State.allocate_cid;
  instance ← start_vm req cid (calling_uid caller) sid (calling_pid caller);
  w ← get_state;
  put_state (VirtualMachine.create instance (State.add_vm instance w));;
  mret instance.

Definition debug_info v : VirtualMachineDebugInfo :=
  {| info_cid := as_i32 (cid v); info_requesterUid := as_i32 (requester_uid v);
     info_requesterSid := requester_sid v; info_requesterPid := requester_debug_pid v;
     info_running := running v |}.

Definition debugListVms (caller : Caller) : M World Status (list VirtualMachineDebugInfo) :=
  if negb (debug_access_allowed caller) then throw (from_status_code PERMISSION_DENIED)
  else w ← get_state; mret (debug_info <$> State.vms w).

Definition debugHoldVmRef (caller : Caller) (vmref : nat) : M World Status unit :=
  if negb (debug_access_allowed caller) then throw (from_status_code PERMISSION_DENIED)
  else w ← get_state; put_state (State.debug_hold_vm vmref w).

(** The reference moves from the manager to the caller. *)
Definition debugDropVmRef (caller : Caller) (cid : Z) : M World Status (option nat) :=
  if negb (debug_access_allowed caller) then throw (from_status_code PERMISSION_DENIED)
  else
    w ← get_state;
    match State.debug_drop_vm cid w with
    | (Some i, w') =>
        put_state (alter_vm (λ v, with_handles (S (handles v)) v) i w');;
        mret (Some i)
    | (None, _) => mret None
    end.
End VirtManager.

(** ** Steps *)
Definition has_handle i w : Prop := ∃ v, instances w !! i = Some v ∧ handles v ≠ 0%nat.

Inductive step : World → World → Prop :=
| step_start caller req w r w' : VirtManager.startVm caller req w = (r, w') → step w w'
| step_list caller w r w' : VirtManager.debugListVms caller w = (r, w') → step w w'
| step_hold caller i w r w' :
    has_handle i w → VirtManager.debugHoldVmRef caller i w = (r, w') → step w w'
| step_drop caller cid w r w' : VirtManager.debugDropVmRef caller cid w = (r, w') → step w w'
| step_register i callback w : has_handle i w → step w (VirtualMachine.registerCallback i callback w)
| step_clone i w : has_handle i w → step w (VirtualMachine.clone i w)
| step_release i w : has_handle i w → step w (VirtualMachine.release i w)
| step_exit i w : step w (alter_vm VmInstance.exit i w)
(** [wait] returns when the process has ended, or with an error. *)
| step_monitor_stop i v w :
    instances w !! i = Some v → monitor v = Waiting → step w (alter_vm VmInstance.monitor_stop i w)
| step_monitor_finish i v w :
    instances w !! i = Some v → monitor v = Stopped → step w (alter_vm VmInstance.monitor_finish i w).

Definition initial : World := {| state := State.default; instances := [] |}.
Definition reachable w : Prop := rtc step initial w.

(** ** The invariant *)

(** An instance with [refs] handles: it has been killed if and only if no handle
    is left; the thread stores [running] first and calls back once. *)
Definition vm_ok (refs : nat) v : Prop :=
  (child_killed v = true ↔ refs = 0%nat) ∧
  running v = bool_decide (monitor v = Waiting) ∧
  match monitor v with
  | Waiting | Stopped => died_calls v = []
  | Finished => died_calls v `prefix_of` callbacks v
  end.

Record vm_inv w : Prop := {
  inv_next : FIRST_GUEST_CID ≤ next_cid (state w) < u32_limit;
  inv_cid i v : instances w !! i = Some v → FIRST_GUEST_CID ≤ cid v < next_cid (state w);
  inv_order i j v v' : instances w !! i = Some v → instances w !! j = Some v' → (i < j)%nat →
    cid v < cid v';
  inv_weak : weak_vms (state w) `sublist_of` seq 0 (length (instances w));
  inv_live i : strong_count i w ≠ 0%nat → i ∈ weak_vms (state w);
  inv_held : Forall (λ i, (i < length (instances w))%nat) (debug_held_vms (state w));
  inv_vm i v : instances w !! i = Some v → vm_ok (binder_refs i w) v;
}.

(** One instance changes. *)
Lemma alter_vm_lookup f i w j :
  instances (alter_vm f i w) !! j = if decide (j = i) then f <$> instances w !! i else instances w !! j.
Proof.
  simpl. case_decide; [subst; apply list_lookup_alter_eq|by apply list_lookup_alter_ne].
Qed.

Lemma alter_vm_refs f i w j : j ≠ i → binder_refs j (alter_vm f i w) = binder_refs j w.
Proof. intros Hj. unfold binder_refs. by rewrite alter_vm_lookup, decide_False. Qed.

Lemma alter_vm_count f i w j : j ≠ i → strong_count j (alter_vm f i w) = strong_count j w.
Proof.
  intros Hj. unfold strong_count. rewrite alter_vm_lookup, decide_False by done.
  by rewrite alter_vm_refs.
Qed.

Lemma alter_vm_refs_same f i w j :
  (∀ v, handles (f v) = handles v) → binder_refs j (alter_vm f i w) = binder_refs j w.
Proof.
  intros Hh. unfold binder_refs. rewrite alter_vm_lookup. case_decide; [|done]. subst.
  destruct (instances w !! i); simpl; [by rewrite Hh|done].
Qed.

Lemma strong_count_zero i w v :
  instances w !! i = Some v → strong_count i w = 0%nat ↔ binder_refs i w = 0%nat ∧ monitor v = Finished.
Proof. intros Hv. unfold strong_count. rewrite Hv. repeat case_decide; split; try done; by intros []. Qed.

Lemma alter_inv f i w :
  vm_inv w → (∀ v, cid (f v) = cid v) →
  (∀ v, instances w !! i = Some v →
     vm_ok (binder_refs i (alter_vm f i w)) (f v) ∧
     (binder_refs i w = 0%nat → binder_refs i (alter_vm f i w) = 0%nat) ∧
     (monitor v = Finished → monitor (f v) = Finished)) →
  vm_inv (alter_vm f i w).
Proof.
  intros Hi Hcid Hok.
  assert (∀ j v', instances (alter_vm f i w) !! j = Some v' →
    ∃ v, instances w !! j = Some v ∧ cid v' = cid v) as Hback.
  { intros j v'. rewrite alter_vm_lookup. case_decide; [|by eauto]. subst.
    destruct (instances w !! i) as [v|]; [|done]. intros [= <-]. by exists v. }
  split.
  - apply (inv_next _ Hi).
  - intros j v' Hj. destruct (Hback _ _ Hj) as (v & Hv & ->). by apply (inv_cid _ Hi j).
  - intros j k v1 v2 H1 H2 Hjk. destruct (Hback _ _ H1) as (u1 & Hu1 & ->).
    destruct (Hback _ _ H2) as (u2 & Hu2 & ->). by apply (inv_order _ Hi j k).
  - simpl. rewrite length_alter. apply (inv_weak _ Hi).
  - intros j Hj. apply (inv_live _ Hi). destruct (decide (j = i)) as [->|Hne];
      [|by rewrite alter_vm_count in Hj].
    intros Hz. apply Hj. destruct (instances w !! i) as [v|] eqn:Hv.
    + destruct (Hok v eq_refl) as (_ & Hr & Hm). apply (strong_count_zero i w v Hv) in Hz as [Hz1 Hz2].
      apply (strong_count_zero i _ (f v)); [by rewrite alter_vm_lookup, decide_True, Hv|]. auto.
    + unfold strong_count. by rewrite alter_vm_lookup, decide_True, Hv.
  - simpl. rewrite length_alter. apply (inv_held _ Hi).
  - intros j v'. destruct (decide (j = i)) as [->|Hne].
    + rewrite alter_vm_lookup, decide_True by done. destruct (instances w !! i) as [v|]; [|done].
      intros [= <-]. by apply Hok.
    + rewrite alter_vm_lookup, decide_False, alter_vm_refs by done. apply (inv_vm _ Hi).
Qed.

(** A change that leaves the handles alone. *)
Lemma alter_inv_same f i w :
  vm_inv w → (∀ v, cid (f v) = cid v) → (∀ v, handles (f v) = handles v) →
  (∀ v refs, instances w !! i = Some v → vm_ok refs v →
     vm_ok refs (f v) ∧ (monitor v = Finished → monitor (f v) = Finished)) →
  vm_inv (alter_vm f i w).
Proof.
  intros Hi Hcid Hh Hok. apply alter_inv; [done..|]. intros v Hv. rewrite alter_vm_refs_same by done.
  destruct (Hok v (binder_refs i w) Hv) as [? ?]; [by apply (inv_vm _ Hi)|]. auto.
Qed.

(** ** Every step preserves it *)
Lemma register_inv i callback w : vm_inv w → vm_inv (VirtualMachine.registerCallback i callback w).
Proof.
  intros Hi. apply alter_inv_same; [done..|]. intros v refs Hv (Hk & Hr & Hm).
  split; [|done]. split; [done|]. split; [done|]. simpl. destruct (monitor v); [done..|].
  etrans; [done|]. by eexists.
Qed.

Lemma exit_inv i w : vm_inv w → vm_inv (alter_vm VmInstance.exit i w).
Proof. intros Hi. by apply alter_inv_same. Qed.

Lemma monitor_stop_inv i v w :
  instances w !! i = Some v → monitor v = Waiting → vm_inv w →
  vm_inv (alter_vm VmInstance.monitor_stop i w).
Proof.
  intros Hv Hm Hi. apply alter_inv_same; [done..|]. intros v' refs Hv' (Hk & Hr & Hd).
  assert (v' = v) as -> by congruence. rewrite Hm in Hd. split; [done|]. by rewrite Hm.
Qed.

Lemma monitor_finish_inv i v w :
  instances w !! i = Some v → monitor v = Stopped → vm_inv w →
  vm_inv (alter_vm VmInstance.monitor_finish i w).
Proof.
  intros Hv Hm Hi. apply alter_inv_same; [done..|]. intros v' refs Hv' (Hk & Hr & Hd).
  assert (v' = v) as -> by congruence. rewrite Hm in Hd, Hr. split; [|done].
  split; [done|]. split; [done|]. simpl. by rewrite Hd.
Qed.

Lemma alter_refs_eq f i w v :
  instances w !! i = Some v → binder_refs i (alter_vm f i w) = (handles (f v) + held i w)%nat.
Proof. intros Hv. unfold binder_refs. rewrite alter_vm_lookup, decide_True, Hv by done. done. Qed.

Lemma clone_inv i w : has_handle i w → vm_inv w → vm_inv (VirtualMachine.clone i w).
Proof.
  intros (v & Hv & Hh) Hi. apply alter_inv; [done..|]. intros v' Hv'.
  assert (v' = v) as -> by congruence. pose proof (inv_vm _ Hi i v Hv) as (Hk & Hr & Hd).
  assert (binder_refs i w = (handles v + held i w)%nat) as Hrefs.
  { unfold binder_refs. by rewrite Hv. }
  rewrite (alter_refs_eq _ _ _ _ Hv). cbn [with_handles update handles].
  split; [|split; [lia|done]]. split; [|done]. cbn. rewrite Hk. lia.
Qed.

Lemma release_alter i w v :
  instances w !! i = Some v →
  VirtualMachine.release i w =
    alter_vm (λ v, if decide (handles v - 1 + held i w = 0)%nat
                   then VmInstance.kill (with_handles (handles v - 1) v)
                   else with_handles (handles v - 1) v) i w.
Proof.
  intros Hv. unfold VirtualMachine.release. rewrite (alter_refs_eq _ _ _ _ Hv).
  cbn [with_handles update handles]. unfold alter_vm. cbn [state instances].
  destruct (decide (handles v - 1 + held i w = 0)%nat) as [Hz|Hz]; f_equal.
  - rewrite list_alter_alter_eq. apply list_alter_ext; [|done].
    intros v' Hv'. assert (v' = v) as -> by congruence. by rewrite decide_True.
  - apply list_alter_ext; [|done].
    intros v' Hv'. assert (v' = v) as -> by congruence. by rewrite decide_False.
Qed.

Lemma vm_release_inv i w : has_handle i w → vm_inv w → vm_inv (VirtualMachine.release i w).
Proof.
  intros (v & Hv & Hh) Hi. rewrite (release_alter i w v Hv).
  apply alter_inv; [done|by intros u; case_decide|]. intros v' Hv'.
  assert (v' = v) as -> by congruence. pose proof (inv_vm _ Hi i v Hv) as (Hk & Hr & Hd).
  assert (binder_refs i w = (handles v + held i w)%nat) as Hrefs.
  { unfold binder_refs. by rewrite Hv. }
  rewrite (alter_refs_eq _ _ _ _ Hv). destruct (decide (handles v - 1 + held i w = 0)%nat) as [Hz|Hz].
  - cbn [with_handles update handles VmInstance.kill]. split; [|split; [lia|done]].
    split; [cbn; lia|done].
  - cbn [with_handles update handles]. split; [|split; [lia|done]]. split; [|done]. cbn. rewrite Hk. lia.
Qed.

(** A change of the held references alone. *)
Lemma held_inv w s :
  vm_inv w → next_cid s = next_cid (state w) → weak_vms s = weak_vms (state w) →
  Forall (λ i, (i < length (instances w))%nat) (debug_held_vms s) →
  (∀ i, binder_refs i (set_state s w) = 0%nat ↔ binder_refs i w = 0%nat) →
  vm_inv (set_state s w).
Proof.
  intros Hi Hn Hw Hh Hrefs. split; simpl; rewrite ?Hn, ?Hw; try by destruct Hi.
  - intros i Hs. apply (inv_live _ Hi). intros Hz. apply Hs. revert Hz. unfold strong_count. simpl.
    destruct (instances w !! i); [|done]. repeat case_decide; try done; exfalso; by rewrite Hrefs in *.
  - intros i v Hv. destruct (inv_vm _ Hi i v Hv) as [Hk Hr]. split; [|done]. by rewrite Hrefs.
Qed.

Lemma held_eq i w s : held i (set_state s w) = length (filter (λ j, j = i) (debug_held_vms s)).
Proof. done. Qed.

Lemma hold_inv i w : has_handle i w → vm_inv w → vm_inv (State.debug_hold_vm i w).
Proof.
  intros (v & Hv & Hh) Hi. apply held_inv; [done|done|done|..].
  - simpl. apply Forall_app. split; [apply (inv_held _ Hi)|]. repeat constructor.
    by eapply lookup_lt_Some.
  - intros j. unfold binder_refs. rewrite held_eq. cbn [set_state instances debug_held_vms].
    rewrite filter_app, length_app. fold (held j w). rewrite filter_cons, filter_nil.
    case_decide; simpl; [subst j; rewrite Hv; simpl; lia|lia].
Qed.

(** [swap_remove] takes out one element. *)
Lemma swap_remove_perm {A} (l : list A) pos x :
  l !! pos = Some x → l ≡ₚ x :: State.swap_remove l pos.
Proof.
  intros Hx. pose proof (lookup_lt_Some _ _ _ Hx) as Hlt. unfold State.swap_remove.
  destruct l as [|y0 l0] using rev_ind; [done|]. clear IHl0. rewrite last_snoc.
  rewrite length_app in *. simpl in *. case_decide as Hp.
  - assert (pos = length l0) as -> by lia. rewrite lookup_app_r, Nat.sub_diag in Hx by lia.
    simpl in Hx. simplify_eq. rewrite take_app_length. by rewrite (comm (++)).
  - rewrite Nat.add_sub. rewrite lookup_app_l in Hx by lia. rewrite insert_app_l by lia.
    rewrite take_app_length' by by rewrite length_insert.
    rewrite <- (take_drop_middle l0 pos x) at 1 by done.
    rewrite insert_take_drop by lia. rewrite (comm (++) _ [y0]). simpl.
    by rewrite <- !Permutation_middle, (Permutation_swap y0 x).
Qed.

Lemma filter_perm_length {A} (P : A → Prop) `{!∀ a, Decision (P a)} (l l' : list A) :
  l ≡ₚ l' → length (filter P l) = length (filter P l').
Proof. intros Hp. by rewrite Hp. Qed.

Lemma drop_inv cid w r w' :
  vm_inv w → State.debug_drop_vm cid w = (Some r, w') →
  vm_inv (alter_vm (λ v, with_handles (S (handles v)) v) r w').
Proof.
  intros Hi. unfold State.debug_drop_vm.
  destruct (list_find _ (debug_held_vms (state w))) as [[pos i]|] eqn:Hf; [|done].
  intros [= <- <-]. apply list_find_Some in Hf as (Hpos & Hcid & _).
  pose proof (swap_remove_perm _ _ _ Hpos) as Hperm.
  assert (held i w = S (length (filter (λ j, j = i) (State.swap_remove (debug_held_vms (state w)) pos))))
    as Hheld.
  { unfold held. rewrite (filter_perm_length _ _ _ Hperm), filter_cons, decide_True by done. done. }
  set (s := {| next_cid := _; weak_vms := _; debug_held_vms := _ |}).
  change (vm_inv (set_state s (alter_vm (λ v, with_handles (S (handles v)) v) i w))).
  assert (∀ v, instances w !! i = Some v → binder_refs i w = (handles v + held i w)%nat) as Hrefs.
  { intros v Hv. unfold binder_refs. by rewrite Hv. }
  apply held_inv; [|done|done|..].
  - apply alter_inv; [done..|]. intros v Hv. destruct (inv_vm _ Hi i v Hv) as [Hk Hr].
    rewrite (alter_refs_eq _ _ _ _ Hv). cbn [with_handles update handles].
    split; [|split; [rewrite (Hrefs v Hv); lia|done]]. split; [|done].
    cbn. rewrite Hk, (Hrefs v Hv). lia.
  - simpl. rewrite length_alter. pose proof (inv_held _ Hi) as Hh. rewrite Hperm in Hh.
    by apply Forall_cons in Hh as [_ Hh].
  - intros j. unfold binder_refs. rewrite held_eq. cbn [set_state instances debug_held_vms].
    destruct (decide (j = i)) as [->|Hne].
    + rewrite alter_vm_lookup, decide_True by done.
      destruct (lookup_lt_is_Some_2 (instances w) i) as [v Hv].
      { pose proof (inv_held _ Hi) as Hh. by apply (Forall_lookup_1 _ _ _ _ Hh Hpos). }
      rewrite Hv. simpl. lia.
    + rewrite alter_vm_lookup, decide_False by done. change (held j (alter_vm _ _ w)) with (held j w).
      unfold held. rewrite (filter_perm_length _ _ _ Hperm), filter_cons, decide_False by congruence. done.
Qed.

(** A new VM: the instance, its weak reference and its first handle. *)
Lemma new_vm_inv w c uid sid pid :
  vm_inv w → next_cid (state w) + 1 < u32_limit → c = next_cid (state w) →
  vm_inv (alter_vm (with_handles 1) (length (instances w))
    (State.add_vm (length (instances w))
      {| state := {| next_cid := c + 1; weak_vms := weak_vms (state w);
                     debug_held_vms := debug_held_vms (state w) |};
         instances := instances w ++ [VmInstance.new c uid sid pid] |})).
Proof.
  intros Hi Hc ->. set (n := length (instances w)). set (v0 := VmInstance.new _ _ _ _).
  set (w1 := {| state := _; instances := instances w ++ [v0] |}).
  pose proof (inv_next _ Hi) as Hnext.
  assert (instances (alter_vm (with_handles 1) n (State.add_vm n w1)) = instances w ++ [with_handles 1 v0])
    as Hinst.
  { simpl. subst n. by rewrite alter_app_r_alt, Nat.sub_diag by lia. }
  assert (∀ i, (i < n)%nat → binder_refs i w1 = binder_refs i w ∧ strong_count i w1 = strong_count i w) as Hold.
  { intros i Hlt. assert (instances w1 !! i = instances w !! i) as Hl by by apply lookup_app_l.
    assert (binder_refs i w1 = binder_refs i w) as Hr by (unfold binder_refs; by rewrite Hl).
    split; [done|]. unfold strong_count. by rewrite Hl, Hr. }
  set (w2 := alter_vm (with_handles 1) n (State.add_vm n w1)) in *.
  assert (∀ i v, instances w2 !! i = Some v →
    (i < n)%nat ∧ instances w !! i = Some v ∨ i = n ∧ v = with_handles 1 v0) as Hcases.
  { intros i v. rewrite Hinst. intros [[? ?]|[-> <-]]%lookup_snoc_Some; auto. }
  assert (∀ i, (i < n)%nat → binder_refs i w2 = binder_refs i w ∧ strong_count i w2 = strong_count i w) as Hold2.
  { intros i Hlt. subst w2. rewrite alter_vm_refs, alter_vm_count by lia. apply Hold, Hlt. }
  split.
  - change (FIRST_GUEST_CID ≤ next_cid (state w) + 1 < u32_limit). lia.
  - intros i v Hv. change (next_cid (state w2)) with (next_cid (state w) + 1).
    destruct (Hcases _ _ Hv) as [[_ Hv']|[_ ->]]; [|simpl; lia]. pose proof (inv_cid _ Hi _ _ Hv'). lia.
  - intros i j v v' Hv Hv' Hij. destruct (Hcases _ _ Hv') as [[Hj Hv2']|[-> ->]].
    + destruct (Hcases _ _ Hv) as [[_ Hv2]|[-> _]]; [|lia]. by apply (inv_order _ Hi i j).
    + destruct (Hcases _ _ Hv) as [[_ Hv2]|[-> _]]; [|lia]. simpl. by apply (inv_cid _ Hi i).
  - rewrite Hinst, length_app. fold n. simpl. rewrite Nat.add_1_r, seq_S. simpl.
    apply sublist_app; [|done]. etrans; [apply sublist_filter|]. apply (inv_weak _ Hi).
  - intros i Hs. change (weak_vms (state w2)) with
      (filter (λ i, strong_count i w1 ≠ 0%nat) (weak_vms (state w)) ++ [n]).
    apply elem_of_app. destruct (decide (i < n)%nat) as [Hlt|Hge].
    + left. destruct (Hold i Hlt) as [_ H1]. destruct (Hold2 i Hlt) as [_ H2]. rewrite H2 in Hs.
      apply list_elem_of_filter. rewrite H1. split; [done|]. by apply (inv_live _ Hi).
    + right. unfold strong_count in Hs. destruct (instances w2 !! i) as [v|] eqn:Hv; [|done].
      destruct (Hcases _ _ Hv) as [[? _]|[-> _]]; [done|]. constructor.
  - rewrite Hinst. eapply Forall_impl; [apply (inv_held _ Hi)|]. intros i Hlt. simpl in *.
    rewrite length_app. simpl. lia.
  - intros i v Hv. destruct (Hcases _ _ Hv) as [[Hlt Hv']|[-> ->]].
    + destruct (Hold2 i Hlt) as [-> _]. by apply (inv_vm _ Hi).
    + unfold binder_refs. rewrite Hv. split; [simpl; lia|done].
Qed.

Lemma start_inv caller req w r w' : vm_inv w → VirtManager.startVm caller req w = (r, w') → vm_inv w'.
Proof.
  intros Hi. unfold VirtManager.startVm, start_vm, State.allocate_cid, push_vm, VirtualMachine.create.
  unfold mbind, M_bind, lift, throw, get_state, put_state, mret, M_ret.
  destruct (match log_fd req with Some false => _ | _ => _ end); try by intros [= <- <-].
  destruct (match calling_sid caller with Some sid => _ | None => _ end) as [sid|e| |];
    try by intros [= <- <-].
  destruct (Z.ltb_spec (next_cid (state w) + 1) u32_limit) as [Hc|Hc]; [|by intros [= <- <-]].
  assert (vm_inv (set_state {| next_cid := next_cid (state w) + 1; weak_vms := weak_vms (state w);
                               debug_held_vms := debug_held_vms (state w) |} w)) as Hskip.
  { pose proof (inv_next _ Hi). split; simpl; try by destruct Hi.
    - lia.
    - intros i v Hv. pose proof (inv_cid _ Hi i v Hv). lia. }
  destruct (ok_or (loaded req) _) as [config|e| |]; try by intros [= <- <-].
  destruct (map_err _ _) as [[bin args]|e| |]; try by intros [= <- <-].
  destruct (negb _); [by intros [= <- <-]|]. intros [= <- <-]. by apply new_vm_inv.
Qed.

Lemma vm_step_inv w w' : vm_inv w → step w w' → vm_inv w'.
Proof.
  intros Hi Hs. destruct Hs as [caller req w r w' Hs|caller w r w' Hs|caller i w r w' Hh Hs
    |caller cid w r w' Hs|i cb w Hh|i w Hh|i w Hh|i w|i v w Hv Hm|i v w Hv Hm].
  - by eapply start_inv.
  - revert Hs. unfold VirtManager.debugListVms. destruct (negb _); by intros [= <- <-].
  - revert Hs. unfold VirtManager.debugHoldVmRef. destruct (negb _); intros [= <- <-]; [done|].
    by apply hold_inv.
  - revert Hs. unfold VirtManager.debugDropVmRef. destruct (negb _); [by intros [= <- <-]|].
    unfold mbind, M_bind, get_state, put_state, mret, M_ret.
    destruct (State.debug_drop_vm cid w) as [[i|] w1] eqn:Hd; intros [= <- <-]; [|done].
    by eapply drop_inv.
  - by apply register_inv.
  - by apply clone_inv.
  - by apply vm_release_inv.
  - by apply exit_inv.
  - by eapply monitor_stop_inv.
  - by eapply monitor_finish_inv.
Qed.

Lemma initial_inv : vm_inv initial.
Proof. by split. Qed.

Lemma vm_reachable_inv w : reachable w → vm_inv w.
Proof.
  unfold reachable. generalize initial_inv. generalize initial as w0.
  intros w0 H0 Hr. revert H0. induction Hr as [|w1 w2 w3 H12 _ IH]; [done|].
  intros Hi. apply IH. by eapply vm_step_inv.
Qed.

(** ** How an instance evolves *)
Record evolves v v' : Prop := {
  ev_cid : cid v' = cid v;
  ev_callbacks : callbacks v `prefix_of` callbacks v';
  ev_finished : monitor v = Finished → monitor v' = Finished ∧ died_calls v' = died_calls v;
  ev_told : monitor v ≠ Finished → monitor v' = Finished → callbacks v `prefix_of` died_calls v';
}.

#[global] Instance evolves_preorder : PreOrder evolves.
Proof.
  split; [by intros v; split|]. intros v1 v2 v3 [C1 P1 F1 T1] [C2 P2 F2 T2]. split.
  - congruence.
  - by etrans.
  - intros Hm. destruct (F1 Hm) as [Hm2 Hd2]. destruct (F2 Hm2) as [Hm3 Hd3]. split; congruence.
  - intros Hn Hm3. destruct (decide (monitor v2 = Finished)) as [Hm2|Hn2].
    + destruct (F2 Hm2) as [_ ->]. by apply T1.
    + etrans; [done|]. by apply T2.
Qed.

Lemma alter_evolves f i w j v :
  (∀ v, instances w !! i = Some v → evolves v (f v)) → instances w !! j = Some v →
  ∃ v', instances (alter_vm f i w) !! j = Some v' ∧ evolves v v'.
Proof.
  intros Hf Hv. rewrite alter_vm_lookup. case_decide; [|by exists v]. subst. rewrite Hv.
  exists (f v). split; [done|]. by apply Hf.
Qed.

Lemma start_evolves caller req w r w' j v :
  VirtManager.startVm caller req w = (r, w') → instances w !! j = Some v →
  instances w' !! j = Some v.
Proof.
  unfold VirtManager.startVm, start_vm, State.allocate_cid, push_vm, VirtualMachine.create.
  unfold mbind, M_bind, lift, throw, get_state, put_state, mret, M_ret.
  destruct (match log_fd req with Some false => _ | _ => _ end); try by intros [= <- <-].
  destruct (match calling_sid caller with Some sid => _ | None => _ end) as [sid|e| |];
    try by intros [= <- <-].
  destruct (next_cid (state w) + 1 <? u32_limit); [|by intros [= <- <-]].
  destruct (ok_or (loaded req) _) as [config|e| |]; try by intros [= <- <-].
  destruct (map_err _ _) as [[bin args]|e| |]; try by intros [= <- <-].
  destruct (negb _); [by intros [= <- <-]|]. intros [= <- <-] Hv.
  pose proof (lookup_lt_Some _ _ _ Hv). rewrite alter_vm_lookup, decide_False by (simpl; lia).
  simpl. by apply lookup_app_l_Some.
Qed.

Lemma step_evolves w w' j v :
  vm_inv w → step w w' → instances w !! j = Some v → ∃ v', instances w' !! j = Some v' ∧ evolves v v'.
Proof.
  intros Hi Hs Hj. destruct Hs as [caller req w r w' Hs|caller w r w' Hs|caller i w r w' Hh Hs
    |caller cid w r w' Hs|i cb w Hh|i w Hh|i w Hh|i w|i u w Hv Hm|i u w Hv Hm].
  - exists v. split; [by eapply start_evolves|done].
  - revert Hs. unfold VirtManager.debugListVms. destruct (negb _); intros [= <- <-]; by exists v.
  - revert Hs. unfold VirtManager.debugHoldVmRef. destruct (negb _); intros [= <- <-]; by exists v.
  - revert Hs. unfold VirtManager.debugDropVmRef, State.debug_drop_vm.
    destruct (negb _); [intros [= <- <-]; by exists v|].
    unfold mbind, M_bind, get_state, put_state, mret, M_ret.
    destruct (list_find _ _) as [[pos i]|]; intros [= <- <-]; [|by exists v].
    by apply alter_evolves.
  - apply alter_evolves; [|done]. intros u _. split; [done|by apply prefix_app_r|done|done].
  - by apply alter_evolves.
  - destruct Hh as (u & Hu & _). rewrite (release_alter i w u Hu). apply alter_evolves; [|done].
    intros u' _. by destruct (decide _).
  - by apply alter_evolves.
  - apply alter_evolves; [|done]. intros u' Hu. assert (u' = u) as -> by congruence.
    split; try done. by rewrite Hm.
  - apply alter_evolves; [|done]. intros u' Hu. assert (u' = u) as -> by congruence.
    split; try done; [by rewrite Hm|]. intros _ _.
    destruct (inv_vm _ Hi _ _ Hu) as (_ & _ & Hd). rewrite Hm in Hd. simpl. by rewrite Hd.
Qed.

Lemma steps_evolve w w' j v :
  vm_inv w → rtc step w w' → instances w !! j = Some v → ∃ v', instances w' !! j = Some v' ∧ evolves v v'.
Proof.
  intros Hi Hr. revert v Hi. induction Hr as [|w1 w2 w3 H12 _ IH]; intros v Hi Hv; [by exists v|].
  destruct (step_evolves _ _ _ _ Hi H12 Hv) as (v2 & Hv2 & He).
  destruct (IH v2) as (v3 & Hv3 & He3); [by eapply vm_step_inv|done|].
  exists v3. split; [done|by etrans].
Qed.

(** ** What a start gives *)
Lemma startVm_Ok caller req w i w' :
  VirtManager.startVm caller req w = (Ok i, w') →
  next_cid (state w) + 1 < u32_limit ∧ i = length (instances w) ∧
  ∃ uid sid pid, instances w' = instances w ++ [with_handles 1 (VmInstance.new (next_cid (state w)) uid sid pid)] ∧
    next_cid (state w') = next_cid (state w) + 1 ∧ debug_held_vms (state w') = debug_held_vms (state w).
Proof.
  unfold VirtManager.startVm, start_vm, State.allocate_cid, push_vm, VirtualMachine.create.
  unfold mbind, M_bind, lift, throw, get_state, put_state, mret, M_ret.
  destruct (match log_fd req with Some false => _ | _ => _ end); [|done..].
  destruct (match calling_sid caller with Some sid => _ | None => _ end) as [sid|e| |]; [|done..].
  destruct (Z.ltb_spec (next_cid (state w) + 1) u32_limit); [|done].
  destruct (ok_or (loaded req) _) as [config|e| |]; [|done..].
  destruct (map_err _ _) as [[bin args]|e| |]; [|done..].
  destruct (negb _); [done|]. intros [= <- <-]. split; [done|]. split; [done|].
  exists (calling_uid caller), sid, (calling_pid caller). simpl.
  by rewrite alter_app_r_alt, Nat.sub_diag by lia.
Qed.

(** ** Claims *)

(** C20: CIDs identify VMs.  In every state that any interleaving of requests, process ends and
    thread steps can reach, two VMs never have the same CID and no CID is below the first guest
    CID; a start that succeeds gives a CID above all earlier ones, and when the CIDs run out every
    start fails. *)
Theorem virtmanager_cids_unique w :
  reachable w →
  (∀ i j v v', instances w !! i = Some v → instances w !! j = Some v' → cid v = cid v' → i = j) ∧
  (∀ i v, instances w !! i = Some v → FIRST_GUEST_CID ≤ cid v < u32_limit - 1) ∧
  (∀ caller req i w', VirtManager.startVm caller req w = (Ok i, w') →
     ∃ v, instances w' !! i = Some v ∧ instances w !! i = None ∧
       ∀ j v', instances w !! j = Some v' → cid v' < cid v) ∧
  (next_cid (state w) = u32_limit - 1 →
     ∀ caller req i w', VirtManager.startVm caller req w ≠ (Ok i, w')).
Proof.
  intros Hi%vm_reachable_inv. pose proof (inv_next _ Hi). split_and!.
  - intros i j v v' Hv Hv' Hc. destruct (Nat.lt_trichotomy i j) as [Hlt|[?|Hlt]]; [|done|].
    + pose proof (inv_order _ Hi _ _ _ _ Hv Hv' Hlt). lia.
    + pose proof (inv_order _ Hi _ _ _ _ Hv' Hv Hlt). lia.
  - intros i v Hv. pose proof (inv_cid _ Hi _ _ Hv). lia.
  - intros caller req i w' (_ & -> & uid & sid & pid & Hinst & _)%startVm_Ok.
    eexists. split; [rewrite Hinst; by apply list_lookup_middle|]. split; [by apply lookup_ge_None_2|].
    intros j v' Hv'. simpl. by apply (inv_cid _ Hi j).
  - intros Hend caller req i w' (Hlt & _)%startVm_Ok. lia.
Qed.

(** The VMs that a strong reference is left to, in the order they were started. *)
Definition live_vms w : list VmInstance :=
  omap (λ i, if decide (strong_count i w = 0%nat) then None else instances w !! i)
    (seq 0 (length (instances w))).

Lemma omap_sublist {A B} (f : A → option B) (l k : list A) :
  l `sublist_of` k → NoDup k → (∀ x, x ∈ k → is_Some (f x) → x ∈ l) → omap f l = omap f k.
Proof.
  induction 1 as [|x l k Hs IH|x l k Hs IH]; intros Hnd Hin; [done|..];
    apply NoDup_cons in Hnd as [Hx Hnd].
  - cbn [omap list_omap]. rewrite IH; [done|done|]. intros y Hy Hf.
    assert (y ∈ x :: l) as [->|Hyl]%elem_of_cons by (apply Hin; [by constructor|done]); done.
  - cbn [omap list_omap]. destruct (f x) eqn:Hf.
    + destruct Hx. eapply elem_of_sublist; [|done]. apply Hin; [constructor|by eexists].
    + apply IH; [done|]. intros y Hy. apply Hin. by constructor.
Qed.

Lemma elem_of_live_vms w i v :
  instances w !! i = Some v → strong_count i w ≠ 0%nat → v ∈ live_vms w.
Proof.
  intros Hv Hs. apply list_elem_of_omap. exists i. split; [|by rewrite decide_False].
  apply elem_of_seq. apply lookup_lt_Some in Hv. lia.
Qed.

(** C21: The list of VMs is exact, and kept from other users.  A caller with UID 0 or 2000 gets, in
    every reachable state, one entry for each VM that a handle or its waiting thread still refers
    to, in the order of their start, however the list was cleaned up: every running VM, and also
    VMs that have stopped as long as somebody holds them, each with a flag that tells which.  Any
    other caller gets PERMISSION_DENIED from every debug method and changes nothing.  (The interface
    documents the running VMs and the shell user only.) *)
Theorem virtmanager_debug_list w caller :
  reachable w →
  if decide (calling_uid caller = 0 ∨ calling_uid caller = 2000)
  then VirtManager.debugListVms caller w = (Ok (VirtManager.debug_info <$> live_vms w), w) ∧
       (∀ i v, instances w !! i = Some v → running v = true ∨ handles v ≠ 0%nat → v ∈ live_vms w)
  else VirtManager.debugListVms caller w = (Err (from_status_code PERMISSION_DENIED), w) ∧
       (∀ i, VirtManager.debugHoldVmRef caller i w = (Err (from_status_code PERMISSION_DENIED), w)) ∧
       (∀ c, VirtManager.debugDropVmRef caller c w = (Err (from_status_code PERMISSION_DENIED), w)).
Proof.
  intros Hi%vm_reachable_inv. unfold VirtManager.debugListVms, VirtManager.debugHoldVmRef, VirtManager.debugDropVmRef.
  unfold debug_access_allowed, DEBUG_ALLOWED_UIDS. case_decide as Hu.
  2: { by rewrite bool_decide_false by (rewrite !elem_of_cons, elem_of_nil; tauto). }
  rewrite bool_decide_true by (rewrite !elem_of_cons; tauto). cbn [negb]. split.
  - unfold mbind, M_bind, get_state, mret, M_ret. do 2 f_equal. f_equal. unfold State.vms, live_vms. apply omap_sublist.
    + apply (inv_weak _ Hi).
    + apply NoDup_seq.
    + intros i _. case_decide; [by intros []|]. intros _. by apply (inv_live _ Hi).
  - intros i v Hv Hcase. apply (elem_of_live_vms w i v Hv).
    destruct (inv_vm _ Hi _ _ Hv) as (_ & Hrun & _). unfold strong_count, binder_refs. rewrite Hv.
    destruct Hcase as [Hr|Hn].
    + rewrite Hr in Hrun. symmetry in Hrun. apply bool_decide_eq_true in Hrun.
      rewrite Hrun, (decide_False (P := Waiting = Finished)) by done. lia.
    + rewrite decide_False by (simpl; lia). lia.
Qed.

(** C19: The life of a VM.  Whatever happens after a VM [v] is seen in a reachable state, its
    process is killed exactly when no handle to it is left, with the clients or with the manager;
    while it counts as running no callback has been called; once its thread has ended, the
    callbacks that were called are the first ones registered, each once, among them every callback
    registered before the thread called them, and none is called later. *)
Theorem virtmanager_vm_life w w' i v :
  reachable w → rtc step w w' → instances w !! i = Some v →
  ∃ v', instances w' !! i = Some v' ∧ cid v' = cid v ∧
    (child_killed v' = true ↔ binder_refs i w' = 0%nat) ∧
    (running v' = true → died_calls v' = []) ∧
    (monitor v' = Finished → died_calls v' `prefix_of` callbacks v') ∧
    (monitor v ≠ Finished → monitor v' = Finished → callbacks v `prefix_of` died_calls v') ∧
    (monitor v = Finished → died_calls v' = died_calls v).
Proof.
  intros Hr Hs Hv. pose proof (vm_reachable_inv _ Hr) as Hi.
  destruct (steps_evolve _ _ _ _ Hi Hs Hv) as (v' & Hv' & [Hc Hp Hf Ht]). exists v'.
  assert (vm_inv w') as Hi' by (apply vm_reachable_inv; unfold reachable in *; by etrans).
  destruct (inv_vm _ Hi' _ _ Hv') as (Hk & Hrun & Hd).
  split; [done|]. split; [done|]. split; [done|]. split; [|split; [|split; [done|]]].
  - rewrite Hrun. intros Hb%bool_decide_eq_true. by rewrite Hb in Hd.
  - intros Hm. by rewrite Hm in Hd.
  - intros Hm. by destruct (Hf Hm).
Qed.

(** ** A run *)
Definition shell : Caller := {| calling_uid := 2000; calling_sid := Some "u:r:shell:s0"; calling_pid := 7 |}.
Definition demo_request : VmRequest := {|
  log_fd := None;
  loaded := Some {| kernel := None; initrd := None; params := None; bootloader := Some "/vm/boot";
                    disks := [{| image := "/vm/disk"; writable := false |}] |};
  spawned _ _ := true |}.
Definition demo_world : World := (VirtManager.startVm shell demo_request initial).2.
(** The VM dies after a callback was registered, and another one is registered too late. *)
Definition demo_dead : World :=
  VirtualMachine.registerCallback 0 2 (alter_vm VmInstance.monitor_finish 0
    (alter_vm VmInstance.monitor_stop 0 (alter_vm VmInstance.exit 0
      (VirtualMachine.registerCallback 0 1 demo_world)))).

Lemma demo_reachable : reachable demo_world.
Proof. apply rtc_once. by eapply (step_start shell demo_request), surjective_pairing. Qed.

Lemma demo_steps : rtc step demo_world demo_dead.
Proof.
  eapply rtc_l; [apply (step_register 0 1); by eexists|].
  eapply rtc_l; [apply (step_exit 0)|]. eapply rtc_l; [by eapply (step_monitor_stop 0)|].
  eapply rtc_l; [by eapply (step_monitor_finish 0)|].
  apply rtc_once. apply (step_register 0 2). by eexists.
Qed.

Lemma virtmanager_cids_unique_witness :
  reachable demo_world ∧
  ∀ i v, instances demo_world !! i = Some v → FIRST_GUEST_CID ≤ cid v < u32_limit - 1.
Proof.
  split; [exact demo_reachable|].
  destruct (virtmanager_cids_unique demo_world demo_reachable) as (_ & Hr & _). exact Hr.
Defined.

Lemma virtmanager_debug_list_witness :
  VirtManager.debugListVms shell demo_world =
    (Ok [{| info_cid := 10; info_requesterUid := 2000; info_requesterSid := "u:r:shell:s0";
            info_requesterPid := 7; info_running := true |}], demo_world).
Proof. exact (proj1 (virtmanager_debug_list demo_world shell demo_reachable)). Defined.

Lemma virtmanager_vm_life_witness :
  ∃ v, instances demo_dead !! 0%nat = Some v ∧ died_calls v = [1] ∧ died_calls v `prefix_of` callbacks v.
Proof.
  destruct (virtmanager_vm_life demo_world demo_dead 0
              (with_handles 1 (VmInstance.new 10 2000 "u:r:shell:s0" 7)) demo_reachable demo_steps eq_refl)
    as (v & Hv & _ & _ & _ & Hp & _).
  exists v. injection Hv as <-. split; [reflexivity|]. split; [reflexivity|]. apply Hp. reflexivity.
Defined.

