(* ===== verification/Daemons.v ===== *)
(** * The services and their clients (fd_server, compsvc and virtmanager main.rs)

    The bodies of [main] of the three binder services, and how their clients
    find them: [get_local_binder] of authfs (authfs/src/file.rs),
    [get_local_service] of pvm_exec and the lookup in [main] of vm.  The
    service manager and the thread pool are the class [Binder]. *)
From S2P Require Import Prelude RustInt Clap Crypto Common Fsverity Os FdServer Compos.
From S2P Require VirtManager.

(** ** The service manager *)
Inductive Service :=
| VirtFdService (service : FdService)
| CompSvc (service : CompService)
| VirtManagerService (service : VirtManager.State).

Class Binder (T : Type) := {
  add_service : string → Service → M T StatusCode unit;
  get_service : string → M T StatusCode Service;
  start_thread_pool : T → T;
  (** returns only when the pool is shut down *)
  join_thread_pool : T → T;
}.

Definition run_pool {T E} (f : T → T) : M T E unit := λ t, (Ok tt, f t).

(** A name is looked up as it was last registered. *)
Class BinderSpec (T : Type) `{!Binder T} := {
  add_then_get name service t t' : add_service name service t = (Ok tt, t') →
    get_service name t' = (Ok service, t') ∧
    ∀ other, other ≠ name → (get_service other t').1 = (get_service other t).1;
  start_keeps t name : (get_service name (start_thread_pool t)).1 = (get_service name t).1;
  join_keeps t name service : get_service name t = (Ok service, t) →
    get_service name (join_thread_pool t) = (Ok service, join_thread_pool t);
}.

(** ** Services *)
Inductive DaemonError (E : Type) :=
| BadArgs (e : E)
| FailedToRegister (e : StatusCode)
| UnexpectedExit.
Arguments BadArgs {_} _.
Arguments FailedToRegister {_} _.
Arguments UnexpectedExit {_}.

(** The binder has a state of its own beside that of the system. *)
Definition on_binder {W T E A} : M T E A → M (W * T) E A := zoom snd (λ t s, (s.1, t)).
Definition on_os {W T E A} : M W E A → M (W * T) E A := zoom fst (λ w s, (w, s.2)).
Definition register {T E} `{!Binder T} (name : string) (service : Service)
    : M T (DaemonError E) unit :=
  m_map_err FailedToRegister (add_service name service).

(** fd_server/src/main.rs *)
Module fd_server.
Definition SERVICE_NAME : string := "authfs_fd_server".
Definition new_binder (fd_pool : gmap Z FdConfig) : Service := VirtFdService {| fd_pool := fd_pool |}.

Definition main {clap : Clap} {W T} `{!FileOps W, !Binder T} (argv : list string)
    : M (W * T) (DaemonError FdServerError) unit :=
  fd_pool ← on_os (m_map_err BadArgs (parse_command_line argv));
  on_binder (run_pool start_thread_pool);;
  on_binder (register SERVICE_NAME (new_binder fd_pool));;
  on_binder (run_pool join_thread_pool);;
  throw UnexpectedExit.
End fd_server.

(** compos/src/compsvc.rs *)
Module compsvc.
Definition SERVICE_NAME : string := "compsvc".
Definition new_binder (service : CompService) : Service := CompSvc service.

Definition main {clap : Clap} {T} `{!Binder T} (argv : list string) : M T (DaemonError unit) unit :=
  service ← lift (map_err BadArgs (default (Err tt) (CompService.parse_args argv)));
  run_pool start_thread_pool;;
  register SERVICE_NAME (new_binder service);;
  run_pool join_thread_pool;;
  throw UnexpectedExit.
End compsvc.

(** virtmanager/src/main.rs: a registration that fails is a panic. *)
Module virtmanager.
Definition BINDER_SERVICE_IDENTIFIER : string := "android.system.virtmanager".

Definition main {T E} `{!Binder T} : M T E unit := λ t,
  let virt_manager := VirtManagerService VirtManager.State.default in
  match add_service BINDER_SERVICE_IDENTIFIER virt_manager t with
  | (Ok _, t) => run_pool join_thread_pool t
  | (Err _, t) | (Panic, t) => (Panic, t)
  | (OutOfFuel, t) => (OutOfFuel, t)
  end.
End virtmanager.

(** ** Clients *)
Section clients.
Context {T : Type} `{!Binder T}.

(** [get_interface]: a service of another interface is an error. *)
Definition get_interface {A} (cast : Service → option A) (name : string) : M T StatusCode A :=
  service ← get_service name;
  lift (ok_or (cast service) BAD_VALUE).

Definition as_fd_service (service : Service) : option FdService :=
  match service with VirtFdService s => Some s | _ => None end.
Definition as_comp_service (service : Service) : option CompService :=
  match service with CompSvc s => Some s | _ => None end.
Definition as_virt_manager (service : Service) : option VirtManager.State :=
  match service with VirtManagerService s => Some s | _ => None end.

(** authfs/src/file.rs *)
Definition get_local_binder {E} : M T E FdService :=
  let service_name := "authfs_fd_server" in
  m_expect (get_interface as_fd_service service_name).

(** compos/src/pvm_exec.rs *)
Definition get_local_service {E} : M T E CompService :=
  m_expect (get_interface as_comp_service "compsvc").

(** vm/src/main.rs *)
Definition VIRT_MANAGER_BINDER_SERVICE_IDENTIFIER : string := "android.system.virtmanager".
Definition get_virt_manager : M T StatusCode VirtManager.State :=
  get_interface as_virt_manager VIRT_MANAGER_BINDER_SERVICE_IDENTIFIER.
End clients.

(** ** The services are found *)
Section found.
Context {clap : Clap} {W T : Type} `{!FileOps W, !Binder T, !BinderSpec T}.

Lemma get_interface_ok {A} (cast : Service → option A) name service a (t : T) :
  get_service name t = (Ok service, t) → cast service = Some a →
  get_interface cast name t = (Ok a, t).
Proof. intros Hg Hc. unfold get_interface. rewrite (M_bind_Ok _ _ _ _ _ Hg). by rewrite Hc. Qed.

(** A service that has joined its thread pool is found by its clients with the state it was given,
    and none of the three programs ever ends well. *)
Lemma fd_server_found argv (w : W) (t : T) r w' t' :
  fd_server.main argv (w, t) = (r, (w', t')) →
  r ≠ Ok tt ∧
  (r = Err UnexpectedExit →
   ∃ pool, parse_command_line argv w = (Ok pool, w') ∧
     get_local_binder (E := StatusCode) t' = (Ok {| fd_pool := pool |}, t')).
Proof.
  unfold fd_server.main, on_os, on_binder, run_pool, zoom, register, m_map_err, mbind, M_bind, throw. cbn.
  destruct (parse_command_line argv w) as [[pool|e| |] w1]; cbn; try (by intros [= <- <- <-]).
  destruct (add_service _ _ _) as [[[]|e| |] t1] eqn:Hadd; cbn; intros [= <- <- <-]; try done.
  split; [done|]. intros _. exists pool. split; [done|].
  apply add_then_get in Hadd as [Hget%join_keeps _].
  unfold get_local_binder, m_expect. by erewrite get_interface_ok.
Qed.

Lemma compsvc_found argv (t : T) r t' :
  compsvc.main argv t = (r, t') →
  r ≠ Ok tt ∧
  (r = Err UnexpectedExit →
   ∃ service, CompService.parse_args argv = Some (Ok service) ∧
     get_local_service (E := StatusCode) t' = (Ok service, t')).
Proof.
  unfold compsvc.main, run_pool, register, m_map_err, mbind, M_bind, throw, lift. cbn.
  destruct (CompService.parse_args argv) as [[service|e| |]|]; cbn; try (by intros [= <- <-]).
  destruct (add_service _ _ _) as [[[]|e| |] t1] eqn:Hadd; cbn; intros [= <- <-]; try done.
  split; [done|]. intros _. exists service. split; [done|].
  apply add_then_get in Hadd as [Hget%join_keeps _].
  unfold get_local_service, m_expect. by erewrite get_interface_ok.
Qed.

Lemma virtmanager_found (t t' : T) :
  virtmanager.main (E := StatusCode) t = (Ok tt, t') →
  get_virt_manager t' = (Ok VirtManager.State.default, t').
Proof.
  unfold virtmanager.main, run_pool.
  destruct (add_service _ _ _) as [[[]|e| |] t1] eqn:Hadd; intros [= <-].
  apply add_then_get in Hadd as [Hget%join_keeps _].
  by apply (get_interface_ok _ _ _ _ _ Hget).
Qed.
End found.

(** ** A service manager *)
#[global] Instance map_binder : Binder (gmap string Service) := {|
  add_service name service := λ t, (Ok tt, <[name := service]> t);
  get_service name := λ t, (ok_or (t !! name) BAD_VALUE, t);
  start_thread_pool t := t;
  join_thread_pool t := t;
|}.
#[global] Instance map_binder_spec : BinderSpec (gmap string Service).
Proof.
  split; [|done|done]. intros name service t t' [= <-]. cbn. rewrite lookup_insert_eq. split; [done|].
  intros other Hne. by rewrite lookup_insert_ne.
Qed.

(** The three services side by side: each client reaches its own. *)
Example services_side_by_side :
  let t := (virtmanager.main (E := StatusCode) ∅).2 in
  let t := (compsvc.main (clap := plain_clap) ["compsvc"; "/bin/dex2oat"; "--debug"] t).2 in
  let t := (fd_server.main (clap := plain_clap) ["fd_server"; "--ro-fds"; "3"; "--rw-fds"; "4"]
              (demo_fds, t)).2.2 in
  (get_local_binder (E := unit) t).1 =
    Ok {| fd_pool := <[4 := ReadWrite 4]> (<[3 := Readonly 3 None None]> ∅) |} ∧
  (get_local_service (E := unit) t).1 =
    Ok {| worker_bin := CompService.WORKER_BIN; task_bin := "/bin/dex2oat"; service_debuggable := true |} ∧
  (get_virt_manager t).1 = Ok VirtManager.State.default.
Proof. vm_compute. done. Qed.
