(* ===== verification/VmTool.v ===== *)
(** * The [vm] tool (vm/src/main.rs, vm/src/run.rs)

    The commands of the tool over the model of the manager.  A daemonized run
    passes its VM to the manager and ends; a foreground run goes on in
    [VmWait]. *)
From S2P Require Import Prelude RustInt Clap Crypto Common Fsverity Os FdServer VirtConfig.
From S2P Require Import VirtManager.

Implicit Types (w : World) (v : VmInstance) (i : nat).

(** ** The tool (vm/src/main.rs, vm/src/run.rs) *)
Inductive VmToolError :=
| ManagerFailed (e : Status) | NotRunning | BadConfigPath | CannotOpen | CannotDup | NoService.

(** The end of the scope of a handle. *)
Definition with_handle {A} i (body : M World VmToolError A) : M World VmToolError A := λ w,
  let '(r, w) := body w in (r, VirtualMachine.release i w).

(** What the system gives the tool: its service, its configuration file, the
    answer of [dup] for its standard output, whether the manager can clone the
    descriptor it is passed, and the error, if any, of the binder call [getCid]. *)
Record ToolFiles := {
  service_found : bool; config_filename : string; config_opens : bool; stdout_dup : Z;
  stdout_clones : bool; getCid_error : option Status;
}.

Definition duplicate_stdout (files : ToolFiles) : outcome VmToolError Z :=
  let dup_fd := stdout_dup files in
  if dup_fd <? 0 then Err CannotDup else Ok dup_fd.

(** How [command_run] goes on: it has ended, or it is about to call
    [wait_for_vm] with the handle. *)
Inductive RunResult := Daemonized (cid : Z) | Foreground (vm : nat).

Definition call_getCid (files : ToolFiles) (vm : nat) : M World VmToolError Z :=
  w ← get_state;
  match getCid_error files with
  | Some e => throw (ManagerFailed e)
  | None => lift (ok_or (State.getCid vm w) (ManagerFailed (from_status_code UNKNOWN_ERROR)))
  end.

(** A run that fails after the VM has started drops its handle. *)
Definition or_release {A} i (m : M World VmToolError A) : M World VmToolError A := λ w,
  match m w with
  | (Ok a, w) => (Ok a, w)
  | (r, w) => (r, VirtualMachine.release i w)
  end.

(** Whatever [log_fd] the request has: the tool passes its standard output, or nothing when it
    is to run in the background. *)
Definition command_run (caller : Caller) (files : ToolFiles) (req : VmRequest) (daemonize : bool)
    : M World VmToolError RunResult :=
  if negb (is_utf8 (config_filename files)) then throw BadConfigPath
  else if negb (config_opens files) then throw CannotOpen
  else
    _ ← lift (duplicate_stdout files);
    let stdout := if daemonize then None else Some (stdout_clones files) in
    let req := {| log_fd := stdout; loaded := loaded req; spawned := spawned req |} in
    vm ← m_map_err ManagerFailed (VirtManager.startVm caller req);
    cid ← or_release vm (call_getCid files vm);
    if daemonize
    then with_handle vm (m_map_err ManagerFailed (VirtManager.debugHoldVmRef caller vm));;
         mret (Daemonized cid)
    else mret (Foreground vm).

Definition command_stop (caller : Caller) (cid : Z) : M World VmToolError unit :=
  vmref ← m_map_err ManagerFailed (VirtManager.debugDropVmRef caller (as_i32 cid));
  vm ← lift (ok_or vmref NotRunning);
  with_handle vm (mret tt).

Definition command_list (caller : Caller) : M World VmToolError (list VirtualMachineDebugInfo) :=
  m_map_err ManagerFailed (VirtManager.debugListVms caller).

(** The commands, and what they end with or print. *)
Inductive Opt := Run (config : string) (daemonize : bool) | Stop (cid : Z) | List.
Inductive ToolOutput := Ran (r : RunResult) | StoppedVm | RunningVms (vms : list VirtualMachineDebugInfo).
Definition tool_main (caller : Caller) (files : ToolFiles) (req : VmRequest) (opt : Opt)
    : M World VmToolError ToolOutput :=
  if negb (service_found files) then throw NoService
  else
    match opt with
    | Run config daemonize =>
        let files := {| service_found := service_found files; config_filename := config;
                        config_opens := config_opens files; stdout_dup := stdout_dup files;
                        stdout_clones := stdout_clones files; getCid_error := getCid_error files |} in
        r ← command_run caller files req daemonize; mret (Ran r)
    | Stop cid => command_stop caller cid;; mret StoppedVm
    | List => vms ← command_list caller; mret (RunningVms vms)
    end.

(** [getCid] leaves the manager alone when it succeeds. *)
Lemma call_getCid_Ok files vm w c w' :
  or_release vm (call_getCid files vm) w = (Ok c, w') → w' = w ∧ State.getCid vm w = Some c.
Proof.
  unfold or_release, call_getCid, mbind, M_bind, get_state, lift, throw.
  destruct (getCid_error files); [done|]. by destruct (State.getCid vm w); intros [= <- <-].
Qed.

Lemma held_fresh w : vm_inv w → held (length (instances w)) w = 0%nat.
Proof.
  intros Hi. unfold held. apply length_zero_iff_nil.
  pose proof (inv_held _ Hi) as Hh. induction Hh as [|i l Hlt _ IH]; [done|].
  rewrite filter_cons, decide_False by lia. done.
Qed.

(** The world after a daemonized run: the manager alone holds the new VM. *)
Lemma run_daemonized_Ok caller files req w c w1 :
  vm_inv w → command_run caller files req true w = (Ok (Daemonized c), w1) →
  let n := length (instances w) in
  ∃ v, instances w1 = instances w ++ [v] ∧ cid v = next_cid (state w) ∧ c = as_i32 (cid v) ∧
    child_killed v = false ∧ handles v = 0%nat ∧
    debug_held_vms (state w1) = debug_held_vms (state w) ++ [n] ∧ next_cid (state w) + 1 < u32_limit.
Proof.
  intros Hi Hrun n. unfold command_run in Hrun. repeat (destruct (negb _) in Hrun; [done|]).
  apply M_bind_Ok_inv in Hrun as (dup & ? & [= _ <-] & Hrun).
  apply M_bind_Ok_inv in Hrun as (i & w0 & Hs%m_map_err_Ok_inv & Hrun).
  destruct (startVm_Ok _ _ _ _ _ Hs) as (Hlt & -> & uid & sid & pid & Hinst & Hnext & Hheld). fold n in Hrun.
  set (v0 := with_handles 1 (VmInstance.new (next_cid (state w)) uid sid pid)) in *.
  assert (instances w0 !! n = Some v0) as Hv0 by (rewrite Hinst; by apply list_lookup_middle).
  apply M_bind_Ok_inv in Hrun as (cid0 & ? & [-> Hcid]%call_getCid_Ok & Hrun).
  unfold State.getCid in Hcid. rewrite Hv0 in Hcid. cbn [fmap option_fmap option_map] in Hcid.
  unfold mbind, M_bind, get_state, lift, mret, M_ret, m_map_err, with_handle in Hrun.
  unfold VirtManager.debugHoldVmRef in Hrun. destruct (negb _); [done|].
  unfold mbind, M_bind, get_state, put_state in Hrun. cbn [map_err] in Hrun. simplify_eq.
  set (w0' := State.debug_hold_vm n w0).
  assert (held n w0' = 1%nat) as Hh.
  { unfold held, w0', State.debug_hold_vm. cbn [set_state state debug_held_vms]. rewrite Hheld.
    rewrite filter_app, length_app. fold (held n w). subst n. rewrite held_fresh by done.
    by rewrite filter_cons, decide_True. }
  exists (with_handles 0 v0). rewrite (release_alter n w0' v0) by done. split_and!; try done.
  - unfold alter_vm. cbn [instances w0' State.debug_hold_vm set_state]. rewrite Hinst.
    rewrite alter_app_r_alt by (fold n; lia). fold n. rewrite Nat.sub_diag. cbn [alter list_alter].
    rewrite Hh. by rewrite decide_False.
  - unfold alter_vm. cbn [state w0' State.debug_hold_vm set_state debug_held_vms]. by rewrite Hheld.
Qed.

(** C22: A daemonized VM lives until it is stopped.  After [vm run --daemonize] has succeeded and the
    tool has gone, the new VM has not been killed although no client holds it; [vm stop] with its
    CID then succeeds, kills this VM and leaves every other one as it was. *)
Theorem vm_daemon_until_stopped w caller files req c w1 :
  reachable w → debug_access_allowed caller = true →
  command_run caller files req true w = (Ok (Daemonized c), w1) →
  ∃ i v, instances w !! i = None ∧ instances w1 !! i = Some v ∧ c = as_i32 (cid v) ∧
    child_killed v = false ∧ handles v = 0%nat ∧
    ∃ v2 w2, command_stop caller (cid v) w1 = (Ok tt, w2) ∧
      instances w2 !! i = Some v2 ∧ child_killed v2 = true ∧
      ∀ j, j ≠ i → instances w2 !! j = instances w1 !! j.
Proof.
  intros Hi%vm_reachable_inv Hallow Hrun.
  destruct (run_daemonized_Ok _ _ _ _ _ _ Hi Hrun) as (v & Hinst & Hcid & -> & Hk & Hh & Hheld & Hlt).
  set (n := length (instances w)) in *. pose proof (inv_next _ Hi) as Hnext. unfold FIRST_GUEST_CID in Hnext.
  assert (instances w1 !! n = Some v) as Hv by (rewrite Hinst; by apply list_lookup_middle).
  exists n, v. split; [by apply lookup_ge_None_2|]. split_and!; try done.
  assert (list_find (λ i, State.getCid i w1 = Some (as_i32 (cid v))) (debug_held_vms (state w1)) =
          Some (length (debug_held_vms (state w)), n)) as Hfind.
  { apply list_find_Some. rewrite Hheld. split; [by apply list_lookup_middle|]. split.
    - unfold State.getCid. by rewrite Hv.
    - intros k j Hj Hlt' Hc. rewrite lookup_app_l in Hj by done.
      pose proof (Forall_lookup_1 _ _ _ _ (inv_held _ Hi) Hj) as Hjn.
      destruct (lookup_lt_is_Some_2 (instances w) j Hjn) as [u Hu]. unfold State.getCid in Hc.
      rewrite Hinst, lookup_app_l, Hu in Hc by done. simpl in Hc. injection Hc as Hc.
      pose proof (inv_cid _ Hi _ _ Hu) as Hr. unfold FIRST_GUEST_CID in Hr.
      apply as_i32_inj in Hc; lia. }
  assert (State.swap_remove (debug_held_vms (state w1)) (length (debug_held_vms (state w))) =
          debug_held_vms (state w)) as Hswap.
  { unfold State.swap_remove. rewrite Hheld, last_snoc, length_app. simpl.
    rewrite decide_True by lia. apply take_app_length. }
  unfold command_stop, VirtManager.debugDropVmRef. rewrite Hallow. cbn [negb].
  unfold mbind, M_bind, m_map_err, get_state, put_state, mret, M_ret, lift, with_handle, State.debug_drop_vm.
  rewrite Hfind, Hswap. cbn [map_err ok_or].
  set (w1' := alter_vm _ n _). exists (VmInstance.kill (with_handles 0 (with_handles 1 v))).
  eexists. split; [reflexivity|].
  assert (instances w1' !! n = Some (with_handles 1 v)) as Hv1.
  { unfold w1'. rewrite alter_vm_lookup, decide_True by done. cbn [set_state instances]. rewrite Hv.
    simpl. by rewrite Hh. }
  rewrite (release_alter n w1' _ Hv1). split; [|split; [done|]].
  - rewrite alter_vm_lookup, decide_True, Hv1 by done. cbn [fmap option_fmap option_map].
    rewrite decide_True; [done|]. change (held n w1') with (held n w). subst n. by rewrite held_fresh.
  - intros j Hj. rewrite alter_vm_lookup, decide_False by done. unfold w1'.
    by rewrite alter_vm_lookup, decide_False.
Qed.

Definition demo_files : ToolFiles :=
  {| service_found := true; config_filename := "/vm/config.json"; config_opens := true; stdout_dup := 3;
     stdout_clones := true; getCid_error := None |}.

Lemma vm_daemon_until_stopped_witness :
  ∃ w1, command_run shell demo_files demo_request true initial = (Ok (Daemonized 10), w1) ∧
  ∃ i v, instances initial !! i = None ∧ instances w1 !! i = Some v ∧ 10 = as_i32 (cid v) ∧
    child_killed v = false ∧ handles v = 0%nat ∧
    ∃ v2 w2, command_stop shell (cid v) w1 = (Ok tt, w2) ∧
      instances w2 !! i = Some v2 ∧ child_killed v2 = true ∧
      ∀ j, j ≠ i → instances w2 !! j = instances w1 !! j.
Proof.
  exists (command_run shell demo_files demo_request true initial).2. split; [vm_compute; reflexivity|].
  apply (vm_daemon_until_stopped initial shell demo_files demo_request);
    [apply rtc_refl|reflexivity|vm_compute; reflexivity].
Defined.
