(* ===== verification/VmWait.v ===== *)
(** * The foreground wait of the [vm] tool (vm/src/sync.rs, wait_for_vm of vm/src/run.rs)

    [AtomicFlag] is a mutex with a boolean and a condition variable.  Its
    critical sections are the steps: a waiting thread checks the flag under
    the lock and returns or goes to sleep, [raise] sets the flag and wakes the
    sleepers, and a sleeper may also wake up by itself.  [wait_for_vm] runs on
    top of the manager's transition system: its own thread, the binder thread
    that delivers [onDied] and the notice of the manager's death, once each, interleave
    with everything the manager and its other clients do. *)
From S2P Require Import Prelude RustInt Clap Crypto Common Fsverity Os FdServer VirtConfig.
From S2P Require Import VirtManager VmTool.

(** ** AtomicFlag *)
Inductive WaitState := Checking | Sleeping | Passed.
#[global] Instance WaitState_eq_dec : EqDecision WaitState.
Proof. solve_decision. Defined.

(** The boolean behind the mutex and the threads inside [wait]. *)
Record AtomicFlag := { flag : bool; waiters : list WaitState }.

Module AtomicFlag.
Definition default : AtomicFlag := {| flag := false; waiters := [] |}.

(** A call of [wait], before it has the lock. *)
Definition enter (self : AtomicFlag) : AtomicFlag :=
  {| flag := flag self; waiters := waiters self ++ [Checking] |}.

(** [wait_while] under the lock: it returns when the flag is set and otherwise
    sleeps, which gives the lock back. *)
Definition check (i : nat) (self : AtomicFlag) : AtomicFlag :=
  match waiters self !! i with
  | Some Checking =>
      {| flag := flag self; waiters := <[i := if flag self then Passed else Sleeping]> (waiters self) |}
  | _ => self
  end.

(** [notify_all] *)
Definition wake (s : WaitState) : WaitState :=
  match s with Sleeping => Checking | _ => s end.
Definition raise (self : AtomicFlag) : AtomicFlag :=
  {| flag := true; waiters := wake <$> waiters self |}.

(** A condition variable may wake a thread without a notification. *)
Definition spurious (i : nat) (self : AtomicFlag) : AtomicFlag :=
  {| flag := flag self; waiters := alter wake i (waiters self) |}.
End AtomicFlag.

Inductive flag_step : AtomicFlag → AtomicFlag → Prop :=
| flag_enter f : flag_step f (AtomicFlag.enter f)
| flag_check i f : flag_step f (AtomicFlag.check i f)
| flag_raise f : flag_step f (AtomicFlag.raise f)
| flag_spurious i f : flag_step f (AtomicFlag.spurious i f).

(** Nobody returns before the flag is set, and nobody sleeps after. *)
Definition flag_inv (f : AtomicFlag) : Prop :=
  Forall (λ s, if flag f then s ≠ Sleeping else s ≠ Passed) (waiters f).

Lemma flag_step_inv f f' : flag_inv f → flag_step f f' → flag_inv f'.
Proof.
  intros Hf Hs. destruct Hs as [f|i f|f|i f]; unfold flag_inv in *; simpl.
  - apply Forall_app. split; [done|]. constructor; [by destruct (flag f)|constructor].
  - unfold AtomicFlag.check. destruct (waiters f !! i) as [[]|]; [|done..]. simpl.
    apply Forall_insert; [done|]. by destruct (flag f).
  - apply Forall_fmap. eapply Forall_impl; [done|]. intros [] _; done.
  - apply Forall_alter; [done|]. intros s Hs. by destruct (flag f), s.
Qed.

Lemma flag_reachable_inv f f' : flag_inv f → rtc flag_step f f' → flag_inv f'.
Proof. intros Hf Hr. induction Hr as [|f1 f2 f3 H12 _ IH]; [done|]. eauto using flag_step_inv. Qed.

(** With the flag set, one turn of its own takes a waiting thread out. *)
Lemma flag_set_passes f i s :
  flag_inv f → flag f = true → waiters f !! i = Some s →
  waiters (AtomicFlag.check i f) !! i = Some Passed.
Proof.
  intros Hf Hset Hi. pose proof (Forall_lookup_1 _ _ _ _ Hf Hi) as Hs. simpl in Hs. rewrite Hset in Hs.
  unfold AtomicFlag.check. rewrite Hi. destruct s; [|done|done]. simpl. rewrite Hset.
  apply list_lookup_insert_eq. by eapply lookup_lt_Some.
Qed.

(** ** wait_for_vm *)

(** Where its thread is: before [registerCallback], before [link_to_death],
    inside [dead.wait()], or at its end. *)
Inductive Phase := Registering | Linking | InWait | Ended (r : outcome VmToolError unit).

Record WaitForVm := {
  manager : World;
  manager_alive : bool;
  dead : AtomicFlag;
  linked : bool;
  (** [onDied] has been delivered to the callback, [binder_died] to the recipient: each is
      delivered once. *)
  died_delivered : bool;
  notice_delivered : bool;
  phase : Phase;
}.

Section wait_for_vm.
(** The VM and the new callback object of this call. *)
Context (vm : nat) (callback : Z).

Definition start_wait (w : World) : WaitForVm :=
  {| manager := w; manager_alive := true; dead := AtomicFlag.default; linked := false;
     died_delivered := false; notice_delivered := false; phase := Registering |}.

(** The end of the scope of [vm]. *)
Definition drop_vm (s : WaitForVm) : World :=
  if manager_alive s then VirtualMachine.release vm (manager s) else manager s.

Definition registered (s : WaitForVm) : WaitForVm :=
  {| manager := VirtualMachine.registerCallback vm callback (manager s);
     manager_alive := manager_alive s; dead := dead s; linked := linked s;
     died_delivered := died_delivered s; notice_delivered := notice_delivered s; phase := Linking |}.
Definition linked_to_death (s : WaitForVm) : WaitForVm :=
  {| manager := manager s; manager_alive := manager_alive s; dead := AtomicFlag.enter (dead s);
     linked := true; died_delivered := died_delivered s; notice_delivered := notice_delivered s;
     phase := InWait |}.
Definition ended (r : outcome VmToolError unit) (s : WaitForVm) : WaitForVm :=
  {| manager := drop_vm s; manager_alive := manager_alive s; dead := dead s; linked := false;
     died_delivered := died_delivered s; notice_delivered := notice_delivered s; phase := Ended r |}.
Definition with_dead (f : AtomicFlag → AtomicFlag) (s : WaitForVm) : WaitForVm :=
  {| manager := manager s; manager_alive := manager_alive s; dead := f (dead s);
     linked := linked s; died_delivered := died_delivered s; notice_delivered := notice_delivered s;
     phase := phase s |}.
Definition with_manager (w : World) (alive : bool) (s : WaitForVm) : WaitForVm :=
  {| manager := w; manager_alive := alive; dead := dead s; linked := linked s;
     died_delivered := died_delivered s; notice_delivered := notice_delivered s; phase := phase s |}.
(** The bodies of [onDied] and of the death recipient. *)
Definition on_died (s : WaitForVm) : WaitForVm :=
  {| manager := manager s; manager_alive := manager_alive s; dead := AtomicFlag.raise (dead s);
     linked := linked s; died_delivered := true; notice_delivered := notice_delivered s;
     phase := phase s |}.
Definition binder_died (s : WaitForVm) : WaitForVm :=
  {| manager := manager s; manager_alive := manager_alive s; dead := AtomicFlag.raise (dead s);
     linked := linked s; died_delivered := died_delivered s; notice_delivered := true;
     phase := phase s |}.

(** [onDied] is to be delivered: the manager's thread has called it. *)
Definition told (w : World) : Prop :=
  ∃ v, instances w !! vm = Some v ∧ callback ∈ died_calls v.

(** The threads of the tool.  A binder call fails when the manager is dead, and
    may fail otherwise.  The waiting thread moves only when it is awake. *)
Inductive own_step : WaitForVm → WaitForVm → Prop :=
| own_register s : phase s = Registering → manager_alive s = true → own_step s (registered s)
| own_register_fails s e : phase s = Registering → own_step s (ended (Err (ManagerFailed e)) s)
| own_link s : phase s = Linking → manager_alive s = true → own_step s (linked_to_death s)
| own_link_fails s e : phase s = Linking → own_step s (ended (Err (ManagerFailed e)) s)
| own_check s :
    phase s = InWait → waiters (dead s) !! 0%nat = Some Checking →
    own_step s (with_dead (AtomicFlag.check 0) s)
| own_return s : phase s = InWait → waiters (dead s) !! 0%nat = Some Passed → own_step s (ended (Ok tt) s)
| own_on_died s :
    (∀ r, phase s ≠ Ended r) → told (manager s) → died_delivered s = false → own_step s (on_died s)
| own_death_notice s :
    linked s = true → manager_alive s = false → notice_delivered s = false →
    own_step s (binder_died s).

(** The rest of the system, while the tool runs.  Other clients cannot give up
    the handle of the tool or register its callback.  A sleeping thread may wake up for no reason. *)
Inductive env_step : WaitForVm → WaitForVm → Prop :=
| env_manager s w :
    (∀ r, phase s ≠ Ended r) → manager_alive s = true → step (manager s) w →
    (∀ v, instances w !! vm = Some v → handles v ≠ 0%nat ∧
       (callback ∈ callbacks v →
        ∃ v0, instances (manager s) !! vm = Some v0 ∧ callback ∈ callbacks v0)) →
    env_step s (with_manager w true s)
| env_manager_dies s : manager_alive s = true → env_step s (with_manager (manager s) false s)
| env_spurious s : phase s = InWait → env_step s (with_dead (AtomicFlag.spurious 0) s).

Definition wait_step (s s' : WaitForVm) : Prop := own_step s s' ∨ env_step s s'.

(** ** The invariant of the wait *)
Definition running_tool (s : WaitForVm) : Prop := ∀ r, phase s ≠ Ended r.

Record wait_inv (s : WaitForVm) : Prop := {
  wi_vm : vm_inv (manager s);
  wi_handle : running_tool s → has_handle vm (manager s);
  wi_flag : flag_inv (dead s);
  wi_delivered : died_delivered s = true ∨ notice_delivered s = true → flag (dead s) = true;
  wi_cause : flag (dead s) = true → told (manager s) ∨ manager_alive s = false;
  wi_waiter : match phase s with
              | Registering | Linking => waiters (dead s) = []
              | InWait => linked s = true ∧ ∃ x, waiters (dead s) = [x]
              | Ended (Ok _) => flag (dead s) = true
              | Ended _ => True
              end;
  wi_callback : ∀ v, instances (manager s) !! vm = Some v →
    match phase s with
    | Registering => callback ∉ callbacks v
    | Linking | InWait => callback ∈ callbacks v
    | Ended _ => True
    end;
}.

(** What one instance promises once its thread has called back is kept. *)
Lemma died_calls_step w w' v :
  vm_inv w → step w w' → instances w !! vm = Some v →
  ∃ v', instances w' !! vm = Some v' ∧ evolves v v' ∧ died_calls v `prefix_of` died_calls v'.
Proof.
  intros Hi Hs Hv. destruct (step_evolves _ _ _ _ Hi Hs Hv) as (v' & Hv' & He).
  exists v'. split; [done|]. split; [done|]. destruct (inv_vm _ Hi _ _ Hv) as (_ & _ & Hd).
  destruct (monitor v) eqn:Hm; [rewrite Hd; by exists (died_calls v')..|].
  by destruct (ev_finished _ _ He Hm) as [_ ->].
Qed.

Lemma told_step w w' : vm_inv w → step w w' → told w → told w'.
Proof.
  intros Hi Hs (v & Hv & Hin). destruct (died_calls_step _ _ _ Hi Hs Hv) as (v' & Hv' & _ & Hp).
  exists v'. split; [done|]. by eapply elem_of_prefix.
Qed.

(** A change of the flag alone. *)
Lemma with_dead_inv f s :
  wait_inv s → flag_step (dead s) (f (dead s)) →
  (flag (f (dead s)) = true → flag (dead s) = true ∨ told (manager s) ∨ manager_alive s = false) →
  (flag (dead s) = true → flag (f (dead s)) = true) →
  length (waiters (f (dead s))) = length (waiters (dead s)) →
  wait_inv (with_dead f s).
Proof.
  intros [Hvm Hh Hf Hdel Hc Hw Hcb] Hs Hraise Hkeep Hlen. split; simpl; try done.
  - by eapply flag_step_inv.
  - auto.
  - intros Hset. destruct (Hraise Hset) as [?|?]; auto.
  - destruct (phase s) as [| | |[[]| | |]]; try done.
    + rewrite Hw in Hlen. by apply nil_length_inv.
    + rewrite Hw in Hlen. by apply nil_length_inv.
    + destruct Hw as [Hl [x Hx]]. split; [done|]. rewrite Hx in Hlen.
      destruct (waiters (f (dead s))) as [|y []]; try done. by exists y.
    + auto.
Qed.

Lemma length_check i f : length (waiters (AtomicFlag.check i f)) = length (waiters f).
Proof. unfold AtomicFlag.check. repeat case_match; simpl; by rewrite ?length_insert. Qed.
Lemma flag_check_same i f : flag (AtomicFlag.check i f) = flag f.
Proof. unfold AtomicFlag.check. by repeat case_match. Qed.

(** A delivery raises the flag. *)
Lemma delivered_inv s s' :
  wait_inv (with_dead AtomicFlag.raise s) → s' = on_died s ∨ s' = binder_died s → wait_inv s'.
Proof. intros [Hvm Hh Hf Hdel Hc Hw Hcb] [->| ->]; by split. Qed.

(** The end of the call gives the handle back. *)
Lemma ended_inv r s :
  wait_inv s → running_tool s → (r = Ok tt → flag (dead s) = true) → wait_inv (ended r s).
Proof.
  intros [Hvm Hh Hf Hdel Hc Hw Hcb] Hrun Hr. destruct (Hh Hrun) as (v & Hv & Hn).
  split; simpl; try done.
  - unfold drop_vm. destruct (manager_alive s); [|done]. apply vm_release_inv; [by exists v|done].
  - intros Hrun'. by destruct (Hrun' r).
  - intros Hset. destruct (Hc Hset) as [(u & Hu & Hin)|?]; [|by right]. left.
    unfold drop_vm. destruct (manager_alive s); [|by exists u].
    simplify_eq. rewrite (release_alter vm _ _ Hv).
    eexists. split; [rewrite alter_vm_lookup, decide_True, Hv by done; done|]. by case_decide.
  - destruct r as [[]| | |]; try done. auto.
Qed.

Lemma register_lookup w :
  instances (VirtualMachine.registerCallback vm callback w) !! vm =
    VmInstance.add_callback callback <$> instances w !! vm.
Proof. unfold VirtualMachine.registerCallback. by rewrite alter_vm_lookup, decide_True. Qed.

Lemma own_step_inv s s' : wait_inv s → own_step s s' → wait_inv s'.
Proof.
  intros Hi Hs. destruct Hs as [s Hp Ha|s e Hp|s Hp Ha|s e Hp|s Hp Hch|s Hp Hpass|s Hrun Ht Hnd|s Hl Ha Hnd].
  - destruct Hi as [Hvm Hh Hf Hdel Hc Hw Hcb]. rewrite Hp in Hw.
    split; cbn [registered manager manager_alive dead linked died_delivered notice_delivered phase]; try done.
    + by apply register_inv.
    + intros _. destruct Hh as (v & Hv & Hn); [unfold running_tool; by rewrite Hp|].
      exists (VmInstance.add_callback callback v). by rewrite register_lookup, Hv.
    + intros Hset. destruct (Hc Hset) as [(v & Hv & Hin)|?]; [left|by right].
      exists (VmInstance.add_callback callback v). by rewrite register_lookup, Hv.
    + intros v. rewrite register_lookup. intros (u & _ & ->)%fmap_Some_1.
      apply elem_of_app. right. constructor.
  - apply ended_inv; [done| |done]. unfold running_tool. by rewrite Hp.
  - destruct Hi as [Hvm Hh Hf Hdel Hc Hw Hcb]. rewrite Hp in Hw, Hcb.
    split; simpl; try done.
    + intros _. apply Hh. unfold running_tool. by rewrite Hp.
    + by eapply flag_step_inv, flag_enter.
    + rewrite Hw. split; [done|]. by exists Checking.
  - apply ended_inv; [done| |done]. unfold running_tool. by rewrite Hp.
  - apply with_dead_inv; [done|constructor|rewrite flag_check_same; auto..|apply length_check].
  - apply ended_inv; [done|unfold running_tool; by rewrite Hp|]. intros _.
    pose proof (Forall_lookup_1 _ _ _ _ (wi_flag _ Hi) Hpass) as Hx. simpl in Hx.
    by destruct (flag (dead s)).
  - eapply (delivered_inv s); [|by left].
    apply with_dead_inv; [done|constructor|auto..|simpl; apply length_fmap].
  - eapply (delivered_inv s); [|by right].
    apply with_dead_inv; [done|constructor|auto..|simpl; apply length_fmap].
Qed.

Lemma env_step_inv s s' : wait_inv s → env_step s s' → wait_inv s'.
Proof.
  intros Hi Hs. destruct Hs as [s w Hrun Ha Hst Hown|s Ha|s Hp].
  3: { apply with_dead_inv; [done|constructor|auto..|simpl; apply length_alter]. }
  2: { destruct Hi as [Hvm Hh Hf Hdel Hc Hw Hcb]. split; simpl; try done. intros Hset. by right. }
  destruct Hi as [Hvm Hh Hf Hdel Hc Hw Hcb].
  destruct (Hh Hrun) as (v0 & Hv0 & Hn0).
  destruct (step_evolves _ _ _ _ Hvm Hst Hv0) as (v & Hv & He).
  destruct (Hown v Hv) as [Hn Hreg]. split; simpl; try done.
  - by eapply vm_step_inv.
  - intros _. by exists v.
  - intros Hset. destruct (Hc Hset) as [Ht|Hd]; [left; by eapply told_step|congruence].
  - intros v1 Hv1. assert (v1 = v) as -> by congruence. specialize (Hcb v0 Hv0).
    destruct (phase s); try done.
    + intros Hin. destruct (Hreg Hin) as (v2 & Hv2 & Hin2). by simplify_eq.
    + eapply elem_of_prefix; [done|apply (ev_callbacks _ _ He)].
    + eapply elem_of_prefix; [done|apply (ev_callbacks _ _ He)].
Qed.

Lemma wait_reachable_inv s s' : wait_inv s → rtc wait_step s s' → wait_inv s'.
Proof.
  intros Hi Hr. induction Hr as [|s1 s2 s3 [H12|H12] _ IH]; eauto using own_step_inv, env_step_inv.
Qed.

(** Each step is one of the manager or leaves it alone. *)
Lemma wait_step_manager s s' :
  wait_inv s → wait_step s s' → manager s' = manager s ∨ step (manager s) (manager s').
Proof.
  intros Hi Hs.
  assert (∀ r, running_tool s → manager (ended r s) = manager s ∨ step (manager s) (manager (ended r s)))
    as Hend.
  { intros r Hrun. simpl. unfold drop_vm. destruct (manager_alive s); [right|by left].
    constructor. by apply (wi_handle _ Hi). }
  unfold running_tool in Hend.
  destruct Hs as [Hs|Hs];
    [destruct Hs as [s Hp Ha|s e Hp|s Hp Ha|s e Hp|s Hp Hch|s Hp Hpass|s Hrun Ht Hnd|s Hl Ha Hnd]
    |destruct Hs as [s w Hrun Ha Hst Hown|s Ha|s Hp]];
    try (by left); try (apply Hend; by rewrite Hp).
  - right. constructor. apply (wi_handle _ Hi). unfold running_tool. by rewrite Hp.
  - by right.
Qed.

Lemma wait_steps_evolve s s' v :
  wait_inv s → rtc wait_step s s' → instances (manager s) !! vm = Some v →
  ∃ v', instances (manager s') !! vm = Some v' ∧ evolves v v'.
Proof.
  intros Hi Hr. revert v Hi. induction Hr as [|s1 s2 s3 H12 _ IH]; intros v Hi Hv; [by exists v|].
  assert (wait_inv s2) as Hi2 by (destruct H12; eauto using own_step_inv, env_step_inv).
  destruct (wait_step_manager _ _ Hi H12) as [Heq|Hst].
  - apply IH; [done|by rewrite Heq].
  - destruct (step_evolves _ _ _ _ (wi_vm _ Hi) Hst Hv) as (v2 & Hv2 & He).
    destruct (IH v2 Hi2 Hv2) as (v3 & Hv3 & He3). exists v3. split; [done|by etrans].
Qed.

(** However the threads of the tool are scheduled, one of them can move until the wait has
    ended normally, and it has after at most [n] of their steps. *)
Fixpoint ends_within (n : nat) (s : WaitForVm) : Prop :=
  phase s = Ended (Ok tt) ∨
  match n with
  | O => False
  | S n => (∃ s', own_step s s') ∧ ∀ s', own_step s s' → ends_within n s'
  end.

Definition b2n (b : bool) : nat := if b then 1 else 0.

(** How many steps are left at most: a delivery each, and those of the waiting thread. *)
Definition steps_left (s : WaitForVm) : nat :=
  b2n (negb (died_delivered s)) + b2n (negb (notice_delivered s)) +
  match waiters (dead s) !! 0%nat with
  | Some Checking => if flag (dead s) then 2 else 3
  | Some Sleeping => 2
  | _ => 1
  end.

(** Some thread of the tool can move once the VM's thread has called back or the manager has died. *)
Lemma wait_enabled s :
  wait_inv s → phase s = InWait → told (manager s) ∨ manager_alive s = false →
  ∃ s', own_step s s'.
Proof.
  intros Hi Hp Hcause. pose proof (wi_waiter _ Hi) as Hw. rewrite Hp in Hw. destruct Hw as [Hl [x Hx]].
  assert (waiters (dead s) !! 0%nat = Some x) as Hx0 by (by rewrite Hx).
  destruct x; [by eexists; apply own_check| |by eexists; apply own_return].
  pose proof (Forall_lookup_1 _ _ _ _ (wi_flag _ Hi) Hx0) as Hset. cbn in Hset.
  assert (flag (dead s) = false) as Hflag by (by destruct (flag (dead s))).
  pose proof (wi_delivered _ Hi) as Hdel. destruct Hcause as [Ht|Hd].
  - exists (on_died s). apply own_on_died; [by rewrite Hp|done|].
    destruct (died_delivered s); [|done]. rewrite Hdel in Hflag by (by left). done.
  - exists (binder_died s). apply own_death_notice; [done..|].
    destruct (notice_delivered s); [|done]. rewrite Hdel in Hflag by (by right). done.
Qed.

(** A step of theirs ends the wait or leaves fewer. *)
Lemma wait_progress s s' :
  wait_inv s → phase s = InWait → own_step s s' →
  phase s' = Ended (Ok tt) ∨
  phase s' = InWait ∧ manager s' = manager s ∧ manager_alive s' = manager_alive s ∧
  (steps_left s' < steps_left s)%nat.
Proof.
  intros Hi Hp Hs. pose proof (wi_waiter _ Hi) as Hw. rewrite Hp in Hw. destruct Hw as [Hl [x Hx]].
  destruct Hs as [s Hq Ha|s e Hq|s Hq Ha|s e Hq|s Hq Hch|s Hq Hpass|s Hrun Ht Hnd|s Hlk Ha Hnd];
    try congruence; [right|by left|right|right]; split_and!; try done;
    unfold steps_left, on_died, binder_died, with_dead; cbn.
  - rewrite Hx in *. cbn in Hch. injection Hch as ->. unfold AtomicFlag.check. rewrite Hx. cbn.
    destruct (flag (dead s)); cbn; lia.
  - rewrite Hx, Hnd. destruct x, (flag (dead s)); cbn; lia.
  - rewrite Hx, Hnd. destruct x, (flag (dead s)); cbn; lia.
Qed.

Lemma steps_left_bound s : (steps_left s ≤ 5)%nat.
Proof.
  unfold steps_left, b2n. destruct (died_delivered s), (notice_delivered s), (waiters (dead s) !! 0%nat)
    as [[]|], (flag (dead s)); simpl; lia.
Qed.

Lemma wait_ends n s :
  wait_inv s → phase s = InWait → told (manager s) ∨ manager_alive s = false →
  (steps_left s ≤ n)%nat → ends_within n s.
Proof.
  revert s. induction n as [|n IH]; intros s Hi Hp Hcause Hn; right.
  { destruct (wait_enabled s Hi Hp Hcause) as [s' Hs].
    unfold steps_left in Hn. repeat case_match; lia. }
  split; [by apply wait_enabled|]. intros s' Hs.
  destruct (wait_progress _ _ Hi Hp Hs) as [Hend|(Hp' & Hm & Ha & Hlt)]; [destruct n; by left|].
  apply IH; [by eapply own_step_inv|done|by rewrite Hm, Ha|lia].
Qed.
End wait_for_vm.

(** ** Claims *)
Lemma start_wait_inv caller files req w vm w1 callback :
  reachable w → command_run caller files req false w = (Ok (Foreground vm), w1) →
  wait_inv vm callback (start_wait w1) ∧ is_Some (instances w1 !! vm).
Proof.
  intros Hi%vm_reachable_inv Hrun. unfold command_run in Hrun. repeat (destruct (negb _) in Hrun; [done|]).
  apply M_bind_Ok_inv in Hrun as (dup & ? & [= _ <-] & Hrun).
  apply M_bind_Ok_inv in Hrun as (i & w0 & Hs%m_map_err_Ok_inv & Hrun).
  assert (i = vm ∧ w0 = w1) as [-> ->].
  { apply M_bind_Ok_inv in Hrun as (c & ? & [-> _]%call_getCid_Ok & Hrun).
    unfold mret, M_ret in Hrun. by simplify_eq. }
  pose proof (start_inv _ _ _ _ _ Hi Hs) as Hi1.
  destruct (startVm_Ok _ _ _ _ _ Hs) as (_ & -> & uid & sid & pid & Hinst & _).
  set (v := with_handles 1 _) in Hinst.
  assert (instances w1 !! length (instances w) = Some v) as Hv
    by (rewrite Hinst; by apply list_lookup_middle).
  split; [|by exists v]. split; simpl; try done.
  - intros _. by exists v.
  - constructor.
  - by intros [|].
  - intros v' Hv'. simplify_eq. apply not_elem_of_nil.
Qed.

(** C23: The foreground run.  From the start of the VM on, whatever the manager, its other clients
    and the threads of the tool do in whatever order: while the tool runs its VM is not killed;
    [wait_for_vm] returns normally only after the callback was called or the manager died; and if
    the callback was registered before the VM's thread called the callbacks, then in every later
    state in which they were called or the manager is dead, the end of the wait cannot be avoided:
    a thread of the tool can move, and every schedule of them ends the wait normally within five of
    their steps, although [onDied] and the notice of the manager's death are delivered only once
    and possibly before the tool waits: no wakeup is lost. *)
Theorem vm_foreground_wait caller files req w vm w1 callback s :
  reachable w → command_run caller files req false w = (Ok (Foreground vm), w1) →
  rtc (wait_step vm callback) (start_wait w1) s →
  ∃ v, instances (manager s) !! vm = Some v ∧
    ((∀ r, phase s ≠ Ended r) → child_killed v = false) ∧
    (phase s = Ended (Ok tt) → callback ∈ died_calls v ∨ manager_alive s = false) ∧
    (∀ s' v', rtc (wait_step vm callback) s s' → phase s' = InWait →
       instances (manager s') !! vm = Some v' →
       phase s = Linking ∧ monitor v ≠ Finished ∧ monitor v' = Finished ∨ manager_alive s' = false →
       ends_within vm callback 5 s').
Proof.
  intros Hw Hrun Hr. destruct (start_wait_inv _ _ _ _ _ _ callback Hw Hrun) as [Hi0 [v0 Hv0]].
  pose proof (wait_reachable_inv _ _ _ _ Hi0 Hr) as Hi.
  destruct (wait_steps_evolve _ _ _ _ _ Hi0 Hr Hv0) as (v & Hv & _). exists v. split; [done|].
  split; [|split].
  - intros Hn. destruct (wi_handle _ _ _ Hi Hn) as (u & Hu & Hh). simplify_eq.
    destruct (inv_vm _ (wi_vm _ _ _ Hi) _ _ Hv) as [Hk _]. unfold binder_refs in Hk. rewrite Hv in Hk.
    destruct (child_killed v); [|done]. simpl in Hk. lia.
  - intros Hp. pose proof (wi_waiter _ _ _ Hi) as Hwt. rewrite Hp in Hwt.
    destruct (wi_cause _ _ _ Hi Hwt) as [(u & Hu & Hin)|?]; [left|by right]. by simplify_eq.
  - intros s' v' Hr' Hp' Hv' Hcase. pose proof (wait_reachable_inv _ _ _ _ Hi Hr') as Hi'.
    apply wait_ends; [done|done| |apply steps_left_bound]. destruct Hcase as [(Hp & Hm & Hm')|?]; [left|by right].
    destruct (wait_steps_evolve _ _ _ _ _ Hi Hr' Hv) as (u & Hu & He).
    assert (u = v') as -> by congruence. exists v'. split; [done|]. pose proof (wi_callback _ _ _ Hi _ Hv) as Hcb. rewrite Hp in Hcb.
    eapply elem_of_prefix; [done|]. by apply (ev_told _ _ He).
Qed.

(** C38: A VM that dies at once leaves its tool waiting.  When the VM's thread has called the
    callbacks before the tool registers its own, [registerCallback] succeeds all the same and the
    callback is never called: as long as the manager lives, [wait_for_vm] does not return. *)
Theorem vm_foreground_misses_death caller files req w vm w1 callback s v s' :
  reachable w → command_run caller files req false w = (Ok (Foreground vm), w1) →
  rtc (wait_step vm callback) (start_wait w1) s → phase s = Registering →
  instances (manager s) !! vm = Some v → monitor v = Finished →
  rtc (wait_step vm callback) s s' → manager_alive s' = true →
  phase s' ≠ Ended (Ok tt) ∧ flag (dead s') = false.
Proof.
  intros Hw Hrun Hr Hp Hv Hm Hr' Ha.
  destruct (start_wait_inv _ _ _ _ _ _ callback Hw Hrun) as [Hi0 _].
  pose proof (wait_reachable_inv _ _ _ _ Hi0 Hr) as Hi.
  pose proof (wait_reachable_inv _ _ _ _ Hi Hr') as Hi'.
  destruct (wait_steps_evolve _ _ _ _ _ Hi Hr' Hv) as (v' & Hv' & He).
  assert (flag (dead s') = false) as Hflag.
  { destruct (flag (dead s')) eqn:Hset; [|done].
    destruct (wi_cause _ _ _ Hi' Hset) as [(u & Hu & Hin)|?]; [|congruence]. simplify_eq.
    destruct (ev_finished _ _ He Hm) as [_ Hd]. rewrite Hd in Hin.
    pose proof (wi_callback _ _ _ Hi _ Hv) as Hcb. rewrite Hp in Hcb.
    destruct (inv_vm _ (wi_vm _ _ _ Hi) _ _ Hv) as (_ & _ & Hpre). rewrite Hm in Hpre.
    destruct Hcb. by eapply elem_of_prefix. }
  split; [|done]. intros Hend. pose proof (wi_waiter _ _ _ Hi') as Hwt. rewrite Hend in Hwt. congruence.
Qed.

(** ** Runs *)
Definition foreground_world : World := (command_run shell demo_files demo_request false initial).2.

Lemma foreground_run :
  command_run shell demo_files demo_request false initial = (Ok (Foreground 0), foreground_world).
Proof. vm_compute. reflexivity. Qed.

(** A step of the manager that leaves the handle and the callback alone. *)
Lemma env_step_alter f s v :
  (∀ r, phase s ≠ Ended r) → manager_alive s = true →
  instances (manager s) !! 0%nat = Some v → step (manager s) (alter_vm f 0 (manager s)) →
  handles (f v) ≠ 0%nat → callbacks (f v) = callbacks v →
  wait_step 0 7 s (with_manager (alter_vm f 0 (manager s)) true s).
Proof.
  intros Hrun Ha Hv Hs Hh Hc. right. constructor; [done..|].
  intros v'. rewrite alter_vm_lookup, decide_True, Hv by done. intros [= <-].
  split; [done|]. rewrite Hc. by exists v.
Qed.

(** The callback is registered, then the VM dies. *)
Definition in_time : WaitForVm := registered 0 7 (start_wait foreground_world).
Definition after_death (s : WaitForVm) : WaitForVm :=
  let s1 := with_manager (alter_vm VmInstance.monitor_stop 0 (manager s)) true s in
  with_manager (alter_vm VmInstance.monitor_finish 0 (manager s1)) true s1.

Lemma vm_dies_steps s v :
  (∀ r, phase s ≠ Ended r) → manager_alive s = true → instances (manager s) !! 0%nat = Some v →
  monitor v = Waiting → handles v ≠ 0%nat → rtc (wait_step 0 7) s (after_death s).
Proof.
  intros Hrun Ha Hv Hm Hh.
  set (s1 := with_manager (alter_vm VmInstance.monitor_stop 0 (manager s)) true s).
  assert (instances (manager s1) !! 0%nat = Some (VmInstance.monitor_stop v)) as Hv1.
  { unfold s1. cbn [with_manager manager]. by rewrite alter_vm_lookup, decide_True, Hv. }
  apply (rtc_l _ _ s1).
  - apply (env_step_alter _ _ v); [done..| |done|done]. by eapply step_monitor_stop.
  - apply rtc_once. apply (env_step_alter _ s1 (VmInstance.monitor_stop v)); [done..| |done|done].
    by eapply step_monitor_finish.
Qed.

Lemma vm_foreground_wait_witness :
  ends_within 0 7 5 (after_death (linked_to_death in_time)).
Proof.
  destruct (vm_foreground_wait shell demo_files demo_request initial 0 foreground_world 7 in_time
    (rtc_refl _ _) foreground_run) as (v & Hv & _ & _ & Hret).
  - apply rtc_once. left. by constructor.
  - apply (Hret (after_death (linked_to_death in_time))
      (VmInstance.monitor_finish (VmInstance.monitor_stop v))).
    + apply (rtc_l _ _ (linked_to_death in_time)); [left; by constructor|].
      vm_compute in Hv. injection Hv as <-. by eapply vm_dies_steps.
    + reflexivity.
    + vm_compute in Hv. injection Hv as <-. reflexivity.
    + left. vm_compute in Hv. injection Hv as <-. split; [reflexivity|]. split; [discriminate|reflexivity].
Defined.

(** The VM dies before the callback is registered. *)
Definition too_late : WaitForVm := after_death (start_wait foreground_world).
Definition sleeping : WaitForVm :=
  with_dead (AtomicFlag.check 0) (linked_to_death (registered 0 7 too_late)).

Lemma vm_foreground_misses_death_witness :
  waiters (dead sleeping) = [Sleeping] ∧ phase sleeping ≠ Ended (Ok tt) ∧ flag (dead sleeping) = false.
Proof.
  split; [reflexivity|].
  eapply (vm_foreground_misses_death shell demo_files demo_request initial 0 foreground_world 7 too_late).
  - apply rtc_refl.
  - exact foreground_run.
  - by eapply vm_dies_steps.
  - reflexivity.
  - reflexivity.
  - reflexivity.
  - eapply rtc_l; [left; by apply own_register|]. eapply rtc_l; [left; by apply own_link|].
    apply rtc_once. left. apply own_check; reflexivity.
  - reflexivity.
Defined.
