(* ===== verification/AuthfsTests.v ===== *)
(** * The unit tests of authfs (authfs/src/{common,crypto}.rs, fsverity/{builder,editor}.rs)

    The tests of the crate, translated line by line and run on the model with
    the executable SHA-256: a test is a computation in which a failed assertion
    panics, and it passes when it returns.  The digests in them were computed
    by the fsverity tool.  [merkle_tree_more_sizes], with its half megabyte of
    data, is run in [BuilderTests]. *)
From S2P Require Import Prelude RustInt Sha256 Crypto Common Fsverity Merkle Builder File Editor.
From S2P Require Import EditorProps Testing.

(** ** Test data *)
Definition hex_digit (a : Ascii.ascii) : option Z :=
  let n := Z.of_N (Ascii.N_of_ascii a) in
  if (48 <=? n) && (n <=? 57) then Some (n - 48)
  else if (65 <=? n) && (n <=? 70) then Some (n - 55)
  else if (97 <=? n) && (n <=? 102) then Some (n - 87)
  else None.

(** [u8::from_str_radix(.., 16)] of two characters; the first may be a sign. *)
Definition u8_from_hex (a b : Ascii.ascii) : option Z :=
  lo ← hex_digit b;
  if bool_decide (a = Ascii.ascii_of_nat 43) then Some lo else hi ← hex_digit a; Some (16 * hi + lo).

Fixpoint hex_bytes {E} (hex_str : string) : outcome E (list byte) :=
  match hex_str with
  | EmptyString => Ok []
  | String a (String b hex_str) =>
      n ← unwrap (u8_from_hex a b); rest ← hex_bytes hex_str; Ok (byte_of_Z n :: rest)
  | String _ EmptyString => Panic
  end.
Definition to_u8_vec {E} (hex_str : string) : outcome E (list byte) :=
  rassert (Z.of_nat (String.length hex_str) `mod` 2 =? 0);; hex_bytes hex_str.

#[local] Existing Instances boringssl release.
#[local] Instance test_fuel : WriteFuel := 5000%nat.

(** ** common.rs *)
Definition collect_chunk_read_iter (remaining offset : Z) : outcome unit (list (Z * Z)) :=
  ChunkedSizeIter.collect (ChunkedSizeIter.new remaining offset 4096).

Definition test_chunk_read_iter : M unit unit unit :=
  let check remaining offset expected :=
    l ← lift (collect_chunk_read_iter remaining offset); assert_eq l expected in
  check 4096 0 [(0, 4096)];;
  check 8192 0 [(0, 4096); (4096, 4096)];;
  check 8192 4096 [(4096, 4096); (8192, 4096)];;
  check 16384 1 [(1, 4095); (4096, 4096); (8192, 4096); (12288, 4096); (16384, 1)];;
  check 0 0 [];;
  check 0 100 [].

(** ** crypto.rs *)
Module crypto.
Import Sha256Hasher.
Definition hex_char (n : Z) : Ascii.ascii := Ascii.ascii_of_N (Z.to_N (if n <? 10 then 48 + n else 87 + n)).
Fixpoint to_hex_string (data : list byte) : string :=
  match data with
  | [] => EmptyString
  | b :: data => String (hex_char (Z_of_byte b / 16)) (String (hex_char (Z_of_byte b `mod` 16)) (to_hex_string data))
  end.

Definition verify_hash_values : M unit CryptoError unit :=
  hash ← lift (h ← new; h ← update h []; finalize h);
  assert_eq (to_hex_string hash) "e3b0c44298fc1c149afbf4c8996fb92427ae41e4649b934ca495991b7852b855";;
  hash ← lift (h ← new; h ← update h (bytes 1 1); h ← update h (bytes 2 1);
               h ← update h (bytes 3 1); finalize h);
  assert_eq (to_hex_string hash) "039058c6f2c0cb492c533b0a4d14ef77cc0f78abccced5287d84a1a2011cfb81".

Definition sha256_of_4096_zeros : M unit CryptoError unit :=
  hash ← lift (h ← new; h ← update h (bytes 0 4096); finalize h);
  assert_eq hash HASH_OF_4096_ZEROS.
End crypto.

(** ** builder.rs *)
Module builder.
Import Sha256Hasher.

(** The body of the loop. *)
Definition add_chunk (tree : outcome FsverityError MerkleLeaves) '((index, chunk) : nat * list byte)
    : outcome FsverityError MerkleLeaves :=
  tree ← tree;
  hash ← crypto_fsverity (
    h ← new; h ← update h chunk; h ← update h (bytes 0 (CHUNK_SIZE - zlen chunk)); finalize h);
  MerkleLeaves.update_hash tree (Z.of_nat index) hash (CHUNK_SIZE * Z.of_nat index + zlen chunk).

Definition generate_fsverity_digest_sequentially (test_data : list byte)
    : outcome FsverityError (list byte) :=
  tree ← foldl add_chunk (Ok MerkleLeaves.new) (imap pair (chunks csz test_data));
  MerkleLeaves.calculate_fsverity_digest tree.

Definition assert_digest (expected : string) (test_data : list byte) : M unit FsverityError unit :=
  expected ← lift (to_u8_vec expected);
  d ← lift (generate_fsverity_digest_sequentially test_data);
  assert_eq expected d.

Definition merkle_tree_empty_file : M unit FsverityError unit :=
  assert_digest "3d248ca542a24fc62d1c43b916eae5016878e2533c88238480b26128a1f1af95" [].

Definition merkle_tree_file_size_less_than_or_equal_to_4k : M unit FsverityError unit :=
  assert_digest "cd0875ca59c7d37e962c5e8f5acd3770750ac80225e2df652ce5672fd34500af" (bytes 1 4096).

Definition merkle_tree_more_sizes : M unit FsverityError unit :=
  assert_digest "2901b849fda2d91e3929524561c4a47e77bb64734319759507b2029f18b9cc52" (bytes 1 4097);;
  assert_digest "2a476d58eb80394052a3a783111e1458ac3ecf68a7878183fed86ca0ff47ec0d" (bytes 1 8192);;
  assert_digest "26b7c190a34e19f420808ee7ec233b09fa6c34543b5a9d2950530114c205d14f" (bytes 1 524288);;
  assert_digest "316835d9be1c95b5cd55d07ae7965d651689efad186e26cbf680e40b683a3262" (bytes 1 524289).

Definition merkle_tree_non_sequential : M unit FsverityError unit :=
  let tree := MerkleLeaves.new in
  hash ← lift (crypto_fsverity (h ← new; h ← update h (bytes 1 CHUNK_SIZE); finalize h));
  tree ← lift (MerkleLeaves.update_hash tree 1 hash (CHUNK_SIZE * 2));
  tree ← lift (MerkleLeaves.update_hash tree 3 hash (CHUNK_SIZE * 4));
  tree ← lift (MerkleLeaves.update_hash tree 0 hash CHUNK_SIZE);
  tree ← lift (MerkleLeaves.update_hash tree 2 hash (CHUNK_SIZE * 3));
  expected ← lift (to_u8_vec "7d3c0d2e1dc54230b20ed875f5f3a4bd3f9873df601936b3ca8127d4db3548f3");
  d ← lift (MerkleLeaves.calculate_fsverity_digest tree);
  assert_eq expected d.

Definition merkle_tree_grow_leaves : M unit FsverityError unit :=
  let tree := MerkleLeaves.new in
  tree ← lift (MerkleLeaves.update_hash tree 0 (bytes 42 HASH_SIZE) CHUNK_SIZE);
  tree ← lift (MerkleLeaves.resize tree (4096 * 3 - 100));
  assert (MerkleLeaves.is_index_valid tree 0);;
  assert (MerkleLeaves.is_index_valid tree 1);;
  assert (MerkleLeaves.is_index_valid tree 2);;
  assert (negb (MerkleLeaves.is_index_valid tree 3));;
  assert (MerkleLeaves.is_consistent tree 1 HASH_OF_4096_ZEROS);;
  assert (MerkleLeaves.is_consistent tree 2 HASH_OF_4096_ZEROS).

Definition merkle_tree_shrink_leaves : M unit FsverityError unit :=
  let tree := MerkleLeaves.new in
  tree ← lift (MerkleLeaves.update_hash tree 0 (bytes 42 HASH_SIZE) CHUNK_SIZE);
  tree ← lift (MerkleLeaves.update_hash tree 0 (bytes 42 HASH_SIZE) (CHUNK_SIZE * 3));
  tree ← lift (MerkleLeaves.resize tree (CHUNK_SIZE * 2 - 100));
  assert (MerkleLeaves.is_index_valid tree 0);;
  assert (MerkleLeaves.is_index_valid tree 1);;
  assert (negb (MerkleLeaves.is_index_valid tree 2));;
  assert (MerkleLeaves.is_consistent tree 1 HASH_OF_4096_ZEROS).
End builder.

(** ** editor.rs *)
Module editor.
(** The tree and the bytes of the in-memory file. *)
Definition editor_test : Type := M (MerkleLeaves * list byte) io_error unit.

(** [VerifiedFileEditor::new(InMemoryEditor::new())] *)
Definition new_file : editor_test := put_state (MerkleLeaves.new, []).
Definition file_with (fail_read : bool) : VerifiedFileEditor InMemoryEditor :=
  Build_VerifiedFileEditor {| fail_read := fail_read |}.

Definition assert_write (file : VerifiedFileEditor InMemoryEditor) (buf : list byte) (offset n : Z)
    : editor_test :=
  written ← VerifiedFileEditor.write_at file buf offset; assert_eq written n.
Definition assert_write_fails (file : VerifiedFileEditor InMemoryEditor) (buf : list byte)
    (offset : Z) : editor_test :=
  failed ← is_err (VerifiedFileEditor.write_at file buf offset); assert failed.
Definition assert_digest (file : VerifiedFileEditor InMemoryEditor) (expected : string)
    : editor_test :=
  d ← VerifiedFileEditor.calculate_fsverity_digest file;
  expected ← lift (to_u8_vec expected);
  assert_eq d expected.
Definition assert_size (file : VerifiedFileEditor InMemoryEditor) (expected : Z) : editor_test :=
  size ← VerifiedFileEditor.size file; assert_eq size expected.
(** [merkle_tree.update_hash(index, &overriding_hash, 8192)] under the lock. *)
Definition override_hash (index : Z) : editor_test :=
  tree ← VerifiedFileEditor.get_tree;
  tree ← lift (MerkleLeaves.update_hash tree index (bytes 42 HASH_SIZE) 8192);
  VerifiedFileEditor.put_tree tree.

Definition test_writer : M (list byte) io_error unit :=
  let writer := {| fail_read := false |} in
  let buf := bytes 1 4096 in
  data ← get_state; assert_eq (zlen data) 0;;
  n ← write_at writer buf 16384; assert_eq n 4096;;
  data ← get_state; part ← lift (slice data 16384 (16384 + 4096)); assert_eq part buf;;
  n ← write_at writer buf 2048; assert_eq n 4096;;
  data ← get_state; part ← lift (slice data 2048 (2048 + 4096)); assert_eq part buf;;
  data ← get_state; assert_eq (zlen data) (16384 + 4096).

Definition test_verified_writer_no_write : editor_test :=
  let file := file_with false in
  new_file;;
  assert_digest file "3d248ca542a24fc62d1c43b916eae5016878e2533c88238480b26128a1f1af95".

Definition test_verified_writer_from_zero : editor_test :=
  let file := file_with false in
  new_file;;
  assert_write file (bytes 1 4096) 0 4096;;
  assert_digest file "cd0875ca59c7d37e962c5e8f5acd3770750ac80225e2df652ce5672fd34500af";;
  new_file;;
  assert_write file (bytes 1 4097) 0 4097;;
  assert_digest file "2901b849fda2d91e3929524561c4a47e77bb64734319759507b2029f18b9cc52";;
  new_file;;
  assert_write file (bytes 1 10000) 0 10000;;
  assert_digest file "7545409b556071554d18973a29b96409588c7cda4edd00d5586b27a11e1a523b".

Definition test_verified_writer_unaligned : editor_test :=
  let file := file_with false in
  new_file;;
  assert_write file (bytes 1 5) 3 5;;
  assert_digest file "a23fc5130d3d7b3323fc4b4a5e79d5d3e9ddf3a3f5872639e867713512c6702f";;
  new_file;;
  assert_write file (bytes 1 6000) 4000 6000;;
  assert_digest file "d16d4c1c186d757e646f76208b21254f50d7f07ea07b1505ff48b2a6f603f989".

Definition test_verified_writer_with_hole : editor_test :=
  let file := file_with false in
  new_file;;
  assert_write file (bytes 1 4096) 4096 4096;;
  assert_digest file "4df2aefd8c2a9101d1d8770dca3ede418232eabce766bb8e020395eae2e97103";;
  new_file;;
  assert_write file (bytes 1 5000) 6000 5000;;
  assert_digest file "47d5da26f6934484e260630a69eb2eebb21b48f69bc8fbf8486d1694b7dba94f";;
  new_file;;
  assert_write file (bytes 1 5) 16381 5;;
  assert_digest file "8bd118821fb4aff26bb4b51d485cc481a093c68131b7f4f112e9546198449752".

Definition test_verified_writer_various_writes : editor_test :=
  let file := file_with false in
  new_file;;
  assert_write file (bytes 1 2048) 0 2048;;
  assert_write file (bytes 1 2048) 6144 2048;;
  assert_digest file "4c433d8640c888b629dc673d318cbb8d93b1eebcc784d9353e07f09f0dcfe707";;
  assert_write file (bytes 1 2048) 2048 2048;;
  assert_write file (bytes 1 2048) 4096 2048;;
  assert_digest file "2a476d58eb80394052a3a783111e1458ac3ecf68a7878183fed86ca0ff47ec0d";;
  assert_write file (bytes 0 2048) 2048 2048;;
  assert_write file (bytes 0 2048) 4096 2048;;
  assert_digest file "4c433d8640c888b629dc673d318cbb8d93b1eebcc784d9353e07f09f0dcfe707";;
  assert_write file (bytes 1 4096) 2048 4096;;
  assert_digest file "2a476d58eb80394052a3a783111e1458ac3ecf68a7878183fed86ca0ff47ec0d";;
  assert_write file (bytes 1 2048) 8192 2048;;
  assert_write file (bytes 1 2048) 10240 2048;;
  assert_digest file "23cbac08371e6ee838ebcc7ae6512b939d2226e802337be7b383c3e046047d24".

Definition test_verified_writer_inconsistent_read : editor_test :=
  let file := file_with false in
  new_file;;
  assert_write file (bytes 1 8192) 0 8192;;
  override_hash 0;;
  assert_write_fails file (bytes 1 1) 2048;;
  assert_write file (bytes 1 4096) 4096 4096;;
  override_hash 1;;
  assert_write file (bytes 10 8000) 0 4096;;
  assert_write_fails file (bytes 10 3904) 4096.

Definition test_verified_writer_failed_read_back : editor_test :=
  let file := file_with true in
  new_file;;
  assert_write file (bytes 1 8192) 0 8192;;
  assert_write_fails file (bytes 1 1) 2048.

Definition test_resize_to_same_size : editor_test :=
  let file := file_with false in
  new_file;;
  assert_write file (bytes 1 2048) 0 2048;;
  (ok ← is_ok (VerifiedFileEditor.resize file 2048); assert ok);;
  assert_size file 2048;;
  assert_digest file "fef1b4f19bb7a2cd944d7cdee44d1accb12726389ca5b0f61ac0f548ae40876f".

Definition test_resize_to_grow : editor_test :=
  let file := file_with false in
  new_file;;
  assert_write file (bytes 1 2048) 0 2048;;
  (ok ← is_ok (VerifiedFileEditor.resize file 4096); assert ok);;
  assert_size file 4096;;
  assert_digest file "9e0e2745c21e4e74065240936d2047340d96a466680c3c9d177b82433e7a0bb1".

Definition test_resize_to_shrink : editor_test :=
  let file := file_with false in
  new_file;;
  assert_write file (bytes 1 4096) 0 4096;;
  VerifiedFileEditor.resize file 2048;;
  assert_size file 2048;;
  assert_digest file "fef1b4f19bb7a2cd944d7cdee44d1accb12726389ca5b0f61ac0f548ae40876f".

Definition test_resize_to_shrink_with_read_failure : editor_test :=
  let file := file_with true in
  new_file;;
  assert_write file (bytes 1 4096) 0 4096;;
  (failed ← is_err (VerifiedFileEditor.resize file 2048); assert failed).

Definition test_resize_to_shirink_to_chunk_boundary : editor_test :=
  let file := file_with true in
  new_file;;
  assert_write file (bytes 1 8192) 0 8192;;
  VerifiedFileEditor.resize file 4096;;
  assert_size file 4096;;
  assert_digest file "cd0875ca59c7d37e962c5e8f5acd3770750ac80225e2df652ce5672fd34500af".

End editor.

(** ** The tests pass *)

(** The assertions of the tests of chunks, hashes and trees hold. *)
Example common_and_crypto_tests_pass :
  passes tt test_chunk_read_iter && passes tt crypto.verify_hash_values &&
  passes tt crypto.sha256_of_4096_zeros = true.
Proof. vm_compute. reflexivity. Qed.

Example builder_tests_pass :
  forallb (passes tt)
    [builder.merkle_tree_empty_file; builder.merkle_tree_file_size_less_than_or_equal_to_4k;
     builder.merkle_tree_non_sequential;
     builder.merkle_tree_grow_leaves; builder.merkle_tree_shrink_leaves] = true.
Proof. vm_compute. reflexivity. Qed.

Example editor_tests_pass :
  passes [] editor.test_writer &&
  forallb (passes (MerkleLeaves.new, []))
    [editor.test_verified_writer_no_write;
     editor.test_verified_writer_from_zero;
     editor.test_verified_writer_unaligned;
     editor.test_verified_writer_with_hole;
     editor.test_verified_writer_various_writes;
     editor.test_verified_writer_inconsistent_read;
     editor.test_verified_writer_failed_read_back;
     editor.test_resize_to_same_size;
     editor.test_resize_to_grow;
     editor.test_resize_to_shrink;
     editor.test_resize_to_shrink_with_read_failure;
     editor.test_resize_to_shirink_to_chunk_boundary] = true.
Proof. vm_compute. reflexivity. Qed.
