(* ===== verification/BuilderTests.v ===== *)
(** * The digests of large files (the tests of authfs/src/fsverity/builder.rs)

    The loop that the tests build a tree with, chunk by chunk, computes the
    fs-verity digest of any data; and the test with half a megabyte of it
    passes: its blocks are equal, so that few hashes have to be evaluated. *)
From S2P Require Import Prelude RustInt Sha256 Crypto Common Fsverity Merkle Builder File Editor.
From S2P Require Import Testing AuthfsTests.

#[local] Existing Instances boringssl release boringssl_spec.

(** ** Data of many equal blocks *)
Lemma chunk_hash (chunk : list byte) :
  (length chunk ≤ csz)%nat →
  crypto_fsverity (h ← Sha256Hasher.new; h ← Sha256Hasher.update h chunk;
    h ← Sha256Hasher.update h (bytes 0 (CHUNK_SIZE - zlen chunk)); Sha256Hasher.finalize h) =
  Ok (sha256 (window chunk 0 csz)).
Proof.
  intros Hl. hash_steps. cbn [crypto_fsverity map_err]. do 2 f_equal.
  rewrite <- pad_to_window by done. unfold pad_to, bytes. f_equal. f_equal. lia.
Qed.

Lemma add_chunk_represents t c k chunk :
  represents t c → length c = (k * csz)%nat → chunk ≠ [] → (length chunk ≤ csz)%nat →
  zlen c + CHUNK_SIZE < u64_limit →
  ∃ t', builder.add_chunk (Ok t) (k, chunk) = Ok t' ∧ represents t' (c ++ chunk).
Proof.
  intros [Hl Hs] Hc Hne Hle Hlim. unfold builder.add_chunk. cbn [mbind outcome_bind].
  rewrite chunk_hash by done. cbn [mbind outcome_bind].
  assert (overwrite c (k * csz) chunk = c ++ chunk) as Ho.
  { apply byte_at_ext; [rewrite length_overwrite, length_app, decide_False by done; lia|].
    intros i _. rewrite byte_at_overwrite, byte_at_app. repeat case_decide; try done; try lia.
    - f_equal. lia.
    - rewrite !byte_at_ge by lia. done. }
  destruct (update_hash_leaves (E := FsverityError) t c k (k * csz) chunk
    (CHUNK_SIZE * Z.of_nat k + zlen chunk)) as (t' & Hu & Hl' & Hs'); [done|done|lia..|].
  rewrite Ho in Hu, Hl'. exists t'. split.
  - rewrite (window_ext chunk (c ++ chunk) 0 (k * csz)); [exact Hu|].
    intros i Hi. rewrite byte_at_app, decide_False by lia. f_equal. lia.
  - split; [done|]. rewrite Hs', length_app. lia.
Qed.

Lemma chunks_cons {A} n (l : list A) :
  (0 < n)%nat → l ≠ [] → chunks n l = take n l :: chunks n (drop n l).
Proof.
  intros Hn Hl. assert (0 < length l)%nat by (destruct l; [done|simpl; lia]).
  apply list_eq. intros [|i]; [rewrite lookup_chunks by done; by rewrite decide_True by lia|].
  change (chunks n l !! S i = chunks n (drop n l) !! i).
  rewrite !lookup_chunks, length_drop, drop_drop by done.
  replace (n + i * n)%nat with (S i * n)%nat by lia. repeat case_decide; done || lia.
Qed.

Lemma add_chunks_represent d k c t :
  represents t c → length c = (k * csz)%nat → zlen (c ++ d) + CHUNK_SIZE < u64_limit →
  ∃ t', foldl builder.add_chunk (Ok t) (imap (λ i, pair (k + i)%nat) (chunks csz d)) = Ok t' ∧
        represents t' (c ++ d).
Proof.
  remember (length d) as n eqn:Hn. revert d Hn k c t. induction n as [n IH] using lt_wf_ind.
  intros d -> k c t Hrep Hc Hlim. destruct (decide (d = [])) as [->|Hne].
  { exists t. by rewrite app_nil_r. }
  rewrite chunks_cons by (done || lia).
  assert (0 < length d)%nat by (destruct d; [done|simpl; lia]).
  pose proof (length_take d csz) as Hlt. rewrite length_app in Hlim.
  cbn [imap]. cbn [foldl]. rewrite Nat.add_0_r.
  destruct (add_chunk_represents t c k (take csz d)) as (t1 & Ht1 & Hrep1); [done|done| |lia|lia|].
  { intros Hnil. rewrite Hnil in Hlt. simpl in Hlt. lia. }
  rewrite Ht1. destruct (decide (length d ≤ csz)%nat).
  { rewrite drop_ge by done. rewrite take_ge in Hrep1 by done. by exists t1. }
  destruct (IH (length (drop csz d)) ltac:(rewrite length_drop; lia) (drop csz d) eq_refl (S k)
    (c ++ take csz d) t1) as (t' & Ht' & Hrep'); [done|rewrite length_app; lia| |].
  { rewrite <- app_assoc, take_drop, length_app. lia. }
  rewrite <- app_assoc, take_drop in Hrep'. exists t'. split; [|done]. rewrite <- Ht'. f_equal.
  apply imap_ext. intros i x _. simpl. f_equal. lia.
Qed.

(** The tests' generator computes the fs-verity digest of any data. *)
Lemma sequential_digest c :
  zlen c + CHUNK_SIZE ≤ max_height_size →
  builder.generate_fsverity_digest_sequentially c = Ok (fsverity_digest c).
Proof.
  intros Hc. unfold builder.generate_fsverity_digest_sequentially.
  destruct (add_chunks_represent c 0 [] MerkleLeaves.new) as (t & Ht & Hrep);
    [done|done|unfold max_height_size in *; simpl; lia|].
  change (imap pair (chunks csz c)) with (imap (λ i, pair (0 + i)%nat) (chunks csz c)).
  rewrite Ht. cbn [mbind outcome_bind].
  by rewrite (calculate_fsverity_digest_represents t c Hrep).
Qed.

(** The digest from the hashes of the blocks. *)
Definition digest_of_leaves (hs : list (list byte)) (size : Z) : list byte :=
  sha256 (descriptor (reduce (length hs) hs) size).

(** The leaves of [m] equal blocks and a tail of [r] bytes. *)
Definition equal_leaves (m r : nat) (x : byte) : list (list byte) :=
  replicate m (sha256 (replicate csz x)) ++
  (if decide (r = 0)%nat then [] else [sha256 (pad_to csz (replicate r x))]).

Lemma chunks_replicate {A} n m r (x : A) :
  (0 < n)%nat → (r < n)%nat →
  chunks n (replicate (m * n + r) x) =
    replicate m (replicate n x) ++ (if decide (r = 0)%nat then [] else [replicate r x]).
Proof.
  intros Hn Hr. induction m as [|m IH].
  - rewrite Nat.mul_0_l, Nat.add_0_l. simpl. case_decide as H0; [by subst|].
    rewrite chunks_cons by (done || (destruct r; done)).
    rewrite take_ge, drop_ge by (rewrite length_replicate; lia). done.
  - rewrite chunks_cons; [|done|destruct n; [lia|done]].
    rewrite take_replicate, drop_replicate.
    replace (n `min` (S m * n + r))%nat with n by lia.
    replace (S m * n + r - n)%nat with (m * n + r)%nat by lia. by rewrite IH.
Qed.

Lemma equal_blocks_digest m r :
  (r < csz)%nat → (Z.of_nat m + 2) * CHUNK_SIZE ≤ max_height_size →
  let n := Z.of_nat m * CHUNK_SIZE + Z.of_nat r in
  builder.generate_fsverity_digest_sequentially (bytes 1 n) =
    Ok (digest_of_leaves (equal_leaves m r Byte.x01) n).
Proof.
  intros Hr Hm n. assert (zlen (bytes 1 n) = n) as Hn.
  { unfold bytes. rewrite length_replicate. lia. }
  rewrite sequential_digest by lia. unfold fsverity_digest, fsverity_root. rewrite Hn.
  assert (leaf_hashes (bytes 1 n) = equal_leaves m r Byte.x01) as ->; [|done].
  unfold leaf_hashes, bytes. replace (Z.to_nat n) with (m * csz + r)%nat by lia.
  rewrite chunks_replicate by lia. unfold equal_leaves. rewrite fmap_app, fmap_replicate.
  assert (pad_to csz (replicate csz (byte_of_Z 1)) = replicate csz Byte.x01) as ->.
  { unfold pad_to. rewrite length_replicate, Nat.sub_diag. apply app_nil_r. }
  by case_decide.
Qed.

(** The expected digests, from the leaves. *)
Lemma more_sizes_digests :
  to_u8_vec (E := FsverityError) "2901b849fda2d91e3929524561c4a47e77bb64734319759507b2029f18b9cc52" =
    Ok (digest_of_leaves (equal_leaves 1 1 Byte.x01) 4097) ∧
  to_u8_vec (E := FsverityError) "2a476d58eb80394052a3a783111e1458ac3ecf68a7878183fed86ca0ff47ec0d" =
    Ok (digest_of_leaves (equal_leaves 2 0 Byte.x01) 8192) ∧
  to_u8_vec (E := FsverityError) "26b7c190a34e19f420808ee7ec233b09fa6c34543b5a9d2950530114c205d14f" =
    Ok (digest_of_leaves (equal_leaves 128 0 Byte.x01) 524288) ∧
  to_u8_vec (E := FsverityError) "316835d9be1c95b5cd55d07ae7965d651689efad186e26cbf680e40b683a3262" =
    Ok (digest_of_leaves (equal_leaves 128 1 Byte.x01) 524289).
Proof. vm_compute. done. Qed.

Lemma assert_digest_passes expected m r :
  (r < csz)%nat → (Z.of_nat m + 2) * CHUNK_SIZE ≤ max_height_size →
  to_u8_vec (E := FsverityError) expected =
    Ok (digest_of_leaves (equal_leaves m r Byte.x01) (Z.of_nat m * CHUNK_SIZE + Z.of_nat r)) →
  builder.assert_digest expected (bytes 1 (Z.of_nat m * CHUNK_SIZE + Z.of_nat r)) tt = (Ok tt, tt).
Proof.
  intros Hr Hm Hd. unfold builder.assert_digest. rewrite equal_blocks_digest by done.
  rewrite Hd, !bind_lift_Ok. unfold assert_eq. by rewrite bool_decide_true.
Qed.

(** The test with more than one block passes. *)
Example merkle_tree_more_sizes_passes : builder.merkle_tree_more_sizes tt = (Ok tt, tt).
Proof.
  destruct more_sizes_digests as (H1 & H2 & H3 & H4). unfold builder.merkle_tree_more_sizes.
  rewrite (M_bind_Ok _ _ _ _ _ (assert_digest_passes _ 1 1 ltac:(lia) ltac:(unfold max_height_size; lia) H1)).
  rewrite (M_bind_Ok _ _ _ _ _ (assert_digest_passes _ 2 0 ltac:(lia) ltac:(unfold max_height_size; lia) H2)).
  rewrite (M_bind_Ok _ _ _ _ _ (assert_digest_passes _ 128 0 ltac:(lia) ltac:(unfold max_height_size; lia) H3)).
  exact (assert_digest_passes _ 128 1 ltac:(lia) ltac:(unfold max_height_size; lia) H4).
Qed.
